(* ===== verification/_CoqProject ===== *)
-Q . S2P
Prelude.v
RustStd.v
Core.v
Rng.v
Schedule.v
Scheduler.v
Trace.v
Runner.v
RunnerFacts.v
FixMessage.v
FixFraming.v
FixAdapter.v
FixProxy.v
FixInjector.v
FixSystem.v
FixRun.v
Effect.v
Bpf.v
Xdp.v
KernelFaults.v
XdpRun.v
NetAddr.v
CgroupMem.v
TimeSkew.v
Cli.v
CliText.v
ConfigFile.v
ConfigLoad.v
BuildScript.v
UnitTests.v
TraceFile.v
JsonText.v
EndToEnd.v
IntegrationTests.v
