(* ===== verification/Prelude.v ===== *)
(** * blackswan-harness: a verification development

    blackswan-harness injects faults into an order management system under test:
    a scenario file lists faults and a timed schedule of arming and disarming them,
    the harness validates the schedule, drives the injectors tick by tick on a
    virtual clock, records a trace, and can later re-run the scenario and compare.
    Faults live in the kernel (XDP packet loss, corruption and partition, cgroup
    memory pressure, time namespaces) or in a FIX man-in-the-middle proxy.

    ** The program's parts and the files that model them

    - [Prelude], [RustStd]: machine-width integers and the build profile, [Result],
      panics; bytes, slices, UTF-8, decimal printing and parsing as Rust's standard
      library has them.
    - [Core]: crates/core.  [HarnessError], the clocks, the scenario types, and the two
      traits the crates meet through: [FaultInjector] (arm, disarm, is_armed on an
      injector and the world outside it) with [FaultInjectorLaws], the contract its
      comments state, and [ProtocolAdapter].
    - [Rng], [Schedule], [Scheduler], [Trace], [Runner]: crates/replay, one file per
      module: [DeterministicRng], [ValidatedSchedule::validate], [Scheduler::advance],
      [Trace], and [Runner] with [run], [teardown] and the drop guard.  The runner is
      proved against the injector class and its laws only.  [RunnerFacts]: how often a run
      calls an injector, how long it sleeps, that what it records is well typed, which steps
      a failed run performed and where it failed ([performed], [failed_run]), and the rule
      by which an invariant of injectors and world goes through a whole run.
    - [FixMessage] (fix/fields.rs, fix/message.rs), [FixFraming] (fix/framing.rs),
      [FixAdapter] (fix/adapter.rs), [FixProxy] (the relay and [run_session] of
      fix/proxy.rs), [FixInjector] (the [FixProxy] life cycle and fix/injector.rs):
      crates/adapters.  [FixSystem] puts them together as they run: the injector the runner
      calls, the accept thread and the two relay threads of the current session, which
      share two flags and the adapter.  A schedule lists who moves next and what the
      sockets answer.  [FixRun] puts the runner on top: the registry holds a handle, the
      proxy and its threads live in the world, and the threads make arbitrary moves before
      every call, during every sleep, and inside [arm] between spawning and the flag store.
    - [Effect]: the state-and-error monad of the kernel injectors.  [Bpf]: the three C
      programs of crates/kernel/bpf over their maps and a frame.  [Xdp] (bpf_util.rs and
      the three XDP injectors), [CgroupMem] (cgroup_mem.rs), [TimeSkew] (time_skew.rs):
      crates/kernel/src.  Every injector has a [FaultInjector] instance and proves the
      laws.  [KernelFaults] puts each XDP injector and its program together over the maps
      they share, with the frames that arrive between the calls, and states what each fault
      promises as a [net_spec].  [XdpRun] puts the runner on top, with frames arriving before
      every call and during every sleep; to the traffic a call is one step.  [BuildScript]:
      build.rs, which compiles the C programs.
    - [Cli]: crates/cli.  The configuration, [build_injector], the boxed injector that
      dispatches to all of the above, [execute_scenario] and [main].  [CliText]: the text
      they put on stdout and stderr, the exit status, and the [Display] and [Debug] forms
      of the error type.  [ConfigFile]: what serde's derives decode from a TOML tree, for
      config.rs and [ScenarioStep], with [NetAddr] for [IpAddr::from_str] as the standard
      library has it.  [ConfigLoad]: from the file's text to the registry, with a reader of
      the TOML fragment in use, on which the tests of config.rs and the example files run.
      [TraceFile]: what serde's derives write to and read from a JSON tree for [Trace], with
      [JsonText], a writer and reader of the text.  [EndToEnd]: [main] from the text of a
      scenario file to the text of a trace file and back.
    - [UnitTests]: the unit tests of core, replay and adapters, each as a definition over
      the model that asserts what the Rust test asserts, and the proof that all pass.
      [IntegrationTests]: replay/tests/determinism.rs, with the same runs cut into arbitrary
      chunks of time, and adapters/tests/runner_fix_live.rs.

    Definitions keep the source's names, prefixed by their type where Rust has a method
    ([FixProxy_start] for [FixProxy::start]).  [&mut self] and the outside world are
    passed explicitly and come back even from an error; a panic is a value of [exec]; a
    process exit is a value of [Cli.live].

    ** What the theorems show

    - Replay: two runs of one schedule always give traces that compare equal
      ([replay_matches]), and end to end, from file to file, the text a [run] leaves in its
      trace file is that of the trace it recorded, and [replay] confirms it as long as that
      file is left alone ([saved_run_is_replayed]).
    - The run: it ends, within a stated number of ticks and with every step recorded at
      its tick ([run_completes_with_exact_events]); it does what applying the steps one
      after the other does ([run_refines_sequential]); which injectors are armed after a
      success, after a failure at a given step ([run_err_armed_set]), and after teardown in
      any map order; when it cannot end
      ([run_never_returns_if_unreached]); that [run_realtime] sleeps exactly the ticks the
      schedule needs and [run] none ([realtime_run_takes_its_time]).
    - Validation and scheduling: [validate] accepts exactly the well-formed schedules and
      names the first violation; the scheduler yields each due step once and in order.
    - FIX messages: parsing inverts encoding, [set_field] with a value free of SOH rewrites
      one tag and leaves a self-consistent message, the three parse errors characterised; framing finds exactly
      the well-framed messages, its verdicts are final, and exactly when it panics.
    - The proxy: what it relays does not depend on how TCP cut the stream; disarmed it is
      transparent on any bytes; the drain loop ends with overflow checks and diverges without
      them on one BodyLength, flag on or off; an out-of-sync stream stalls; shutdown is answered in bounded steps.
      The thread model refines the loop.
    - The running FIX fault, under every interleaving of calls, accepts and relay steps:
      every byte read is accounted for and every byte written is some message's outcome
      ([relay_accounts_for_every_byte]); the fault is applied exactly when the last
      successful call was an arm ([relay_flag_follows_the_calls]); the rate limit counts
      over the injector's life; with overflow checks a session whose peers have closed ends in
      bounded steps and the next client is served.  Under the runner,
      every message is handled with the flag the schedule calls for at that point, and a
      dropped runner leaves it off ([fault_window_follows_schedule]).
    - The kernel side: from construction on, for any sequence of calls and frames, failures
      included, packet loss drops every nth frame seen while armed, corruption changes one
      byte of every nth, and the partition drops a frame exactly when it carries, under up
      to two VLAN tags, a packet of its peer or of the unspecified address of the family it
      names no peer in (the [_traffic_refines_spec] theorems, by simulation).  Corruption
      and partition are settled when their object is loaded: a first [arm] that fails may
      leave mask, port or address unset for good, which the theorems state and
      [partition_rearm_cuts_every_port] spells out.  A disarmed injector is invisible; the
      maps keep their C types, so no program reaches outside its frame.  The cgroup limit is
      lifted in the file where it was set, with the sentinel of that file.  Under the runner, of the frames that
      arrive inside the scheduled windows exactly one in n is lost
      ([scheduled_loss_is_exact]).
    - The scenario file: it can express exactly the configurations whose fields have their
      Rust types, less numbers of 2^63 and more ([file_expresses_exactly_typed_configs]); a
      configuration written out decodes to itself; documents that differ in the order of keys
      decode alike; every injector of a loaded registry has its fields in range
      ([loaded_registry_is_typed]), which the kernel theorems ask for.
    - Building and printing: when the build script succeeds and which commands it runs;
      the printed summary can be read back ([summary_reads_back]).
    - What goes wrong: a failed run leaves its faults armed, an XDP injector whose first
      arm failed half way can be armed with the wrong configuration, a dead listener still
      arms, a failed kill loses its process.

    ** Bounds, fuel and parameters

    [usize] is 64 bits; a slice is at most 2^63 - 1 bytes long.  Arithmetic that can
    overflow is written with the build profile: checked (panics) or wrapping.  [run_loop]
    takes the number of rounds as fuel; [ticks_needed] rounds are proved to be enough for a
    positive tick.  [drain] takes [length buf + 1] rounds, proved enough when overflow is
    checked; the divergence theorem says no fuel is enough otherwise.  [dec_loop] prints
    with [log2 n + 1] rounds; the UTF-8 loops of [BuildScript] and [CliText] take the
    length of their input.

    Outside code enters as type classes or section variables, with what is assumed of it
    as laws and a concrete instance that satisfies them: aya ([AyaApi], [AyaLaws]), the
    file system ([FileApi] with [FileLaws]: a file read after it was written holds what was
    written; [FsApi], [FsLaws]), processes ([ProcApi]), the listening socket
    ([TcpApi]), cargo's environment and the commands of the build ([BuildApi]), serde_json
    ([JsonCrate]: what it writes reads as the serialized tree, and a tree it reads is
    decoded; [JsonText] proves both of its own writer and reader), the toml crate ([TomlCrate]: a text is read
    into a tree whose integers are [i64] and whose keys are distinct, and the tree is
    decoded) and the unusual shapes serde also accepts for a struct or an enum, such as
    an array for a struct ([SerdeForms] with its laws, [JsonForms]), how a character beyond
    ASCII and an [io::Error] look in [Debug] form, and what happens while the runner sleeps.
    [AyaLoadLaws] and [XdpPath] add that a load creates the declared maps with zero entries
    and that a frame runs the attached program on them.

    ** What is not modelled

    Argument parsing (clap); the TOML and JSON syntax beyond what [ConfigLoad] and
    [JsonText] read and write; the integration tests that need root, interfaces, cgroups,
    child processes or the installed binary; the crate roots, which only declare modules;
    the text of a panic.  Attaching an XDP program is success or failure.  Sockets are sequences of
    read outcomes and a sink that may break; a thread step of the proxy is one shared
    access.  An adapter that panics keeps the state it had: only the throttle after 2^64
    messages could tell. *)

From Stdlib Require Export ZArith Lia Sorting.Sorted.
From Stdlib Require Strings.Byte.
From stdpp Require Export numbers strings gmap prelude fin_maps list.

Open Scope Z_scope.

(* ------------------------------------------------------------------ *)
(** * Machine-width integers *)

(** A Rust [u8]/[u32]/[u64]/[usize] value is a [Z]; the width is written out
    wherever the source can wrap.  [usize] is 64 bits: [kernel/build.rs]
    refuses any target but x86_64 and aarch64. *)
Definition wrap (w : Z) (z : Z) : Z := z mod 2 ^ w.

Definition in_width (w : Z) (z : Z) : Prop := 0 <= z < 2 ^ w.

Declare Scope rust_scope.
Delimit Scope rust_scope with rust.

Notation "'u8?' z" := (in_width 8 z) (at level 9, z at level 9) : rust_scope.
Notation "'u16?' z" := (in_width 16 z) (at level 9, z at level 9) : rust_scope.
Notation "'u32?' z" := (in_width 32 z) (at level 9, z at level 9) : rust_scope.
Notation "'u64?' z" := (in_width 64 z) (at level 9, z at level 9) : rust_scope.
Open Scope rust_scope.

Definition u64_max : Z := 2 ^ 64 - 1.

#[global] Instance in_width_dec w z : Decision (in_width w z).
Proof. unfold in_width. apply _. Defined.

(** The build profile decides what an arithmetic overflow does: [cargo build]
    panics, [cargo build --release] wraps.  [debug_assert!] follows the same
    switch in the default profiles. *)
Record profile := { overflow_checks : bool; debug_assertions : bool }.
Definition dev_profile : profile := {| overflow_checks := true; debug_assertions := true |}.
Definition release_profile : profile := {| overflow_checks := false; debug_assertions := false |}.

(* ------------------------------------------------------------------ *)
(** * Results and panics *)

(** [Result<A, E>]: the error type comes first so that [result E] is a monad. *)
Inductive result (E A : Type) : Type :=
| Ok (a : A)
| Err (e : E).
Arguments Ok {E A} a.
Arguments Err {E A} e.

#[global] Instance result_ret E : MRet (result E) := λ A a, Ok a.
#[global] Instance result_bind E : MBind (result E) := λ A B f r,
  match r with Ok a => f a | Err e => Err e end.

Definition map_err {E F A} (f : E → F) (r : result E A) : result F A :=
  match r with Ok a => Ok a | Err e => Err (f e) end.
Definition ok_or {E A} (e : E) (o : option A) : result E A :=
  match o with Some a => Ok a | None => Err e end.
Definition unwrap_or {E A} (d : A) (r : result E A) : A :=
  match r with Ok a => a | Err _ => d end.
Definition is_ok {E A} (r : result E A) : bool :=
  match r with Ok _ => true | Err _ => false end.

#[global] Instance result_eq_dec `{EqDecision E, EqDecision A} : EqDecision (result E A).
Proof. solve_decision. Defined.

(** What a Rust call does: it returns, or the thread panics. *)
Inductive exec (A : Type) : Type :=
| Done (a : A)
| Panic (why : string).
Arguments Done {A} a.
Arguments Panic {A} why.

#[global] Instance exec_ret : MRet exec := λ A a, Done a.
#[global] Instance exec_bind : MBind exec := λ A B f x,
  match x with Done a => f a | Panic w => Panic w end.

(** [e.expect(msg)] on an option. *)
Definition expect {A} (msg : string) (o : option A) : exec A :=
  match o with Some a => Done a | None => Panic msg end.

(** [a + b] and [a - b] on an unsigned type of width [w], under a profile. *)
Definition uadd (p : profile) (w a b : Z) : exec Z :=
  if decide (a + b < 2 ^ w) then Done (a + b)
  else if overflow_checks p then Panic "attempt to add with overflow"
  else Done (wrap w (a + b)).
Definition usub (p : profile) (w a b : Z) : exec Z :=
  if decide (b <= a) then Done (a - b)
  else if overflow_checks p then Panic "attempt to subtract with overflow"
  else Done (wrap w (a - b)).
(** [a % b]: a zero divisor panics in every profile. *)
Definition urem (a b : Z) : exec Z :=
  if decide (b = 0) then Panic "attempt to calculate the remainder with a divisor of zero"
  else Done (a mod b).

(* ------------------------------------------------------------------ *)
(** * Tactics and hint databases *)

Create HintDb harness.
Create HintDb width.

(** Case split on the scrutinee of a [match] or [if] in the goal, remembering
    the equation. *)
Ltac split_match :=
  match goal with
  | |- context [match ?x with _ => _ end] =>
      lazymatch x with
      | context [match _ with _ => _ end] => fail
      | _ => destruct x eqn:?
      end
  end.
Ltac split_match_in H :=
  match type of H with
  | context [match ?x with _ => _ end] =>
      lazymatch x with
      | context [match _ with _ => _ end] => fail
      | _ => destruct x eqn:?
      end
  end.
(** Evaluate a closed [u64?]-style bound. *)
Ltac width := unfold in_width in *; lia.

(* ------------------------------------------------------------------ *)
(** * Lemmas on machine-width integers *)

Lemma wrap_range w z : 0 <= w → in_width w (wrap w z).
Proof. intros Hw. apply Z.mod_pos_bound. lia. Qed.

Lemma wrap_id w z : in_width w z → wrap w z = z.
Proof. intros H. by apply Z.mod_small. Qed.

Lemma wrap_add_l w a b : wrap w (wrap w a + b) = wrap w (a + b).
Proof. unfold wrap. by rewrite Zplus_mod_idemp_l. Qed.

Lemma wrap_add_r w a b : wrap w (a + wrap w b) = wrap w (a + b).
Proof. unfold wrap. by rewrite Zplus_mod_idemp_r. Qed.

Lemma wrap_mul_l w a b : wrap w (wrap w a * b) = wrap w (a * b).
Proof. unfold wrap. by rewrite Zmult_mod_idemp_l. Qed.

Lemma wrap_mul_r w a b : wrap w (a * wrap w b) = wrap w (a * b).
Proof. unfold wrap. by rewrite Zmult_mod_idemp_r. Qed.

Lemma uadd_exact p w a b : a + b < 2 ^ w → uadd p w a b = Done (a + b).
Proof. intros H. unfold uadd. by rewrite decide_True. Qed.

Lemma usub_exact p w a b : b <= a → usub p w a b = Done (a - b).
Proof. intros H. unfold usub. by rewrite decide_True. Qed.

(** Two values congruent modulo [2^w] that both fit are equal. *)
Lemma wrap_inj w a b : in_width w a → in_width w b → wrap w a = wrap w b → a = b.
Proof. intros Ha Hb. by rewrite !wrap_id. Qed.

(** Counting in steps of [n]: the quotient grows at the multiples. *)
Lemma div_succ c n : 0 < n → (c + 1) / n = c / n + (if (c + 1) mod n =? 0 then 1 else 0).
Proof.
  intros Hn. pose proof (Z.div_mod c n ltac:(lia)). pose proof (Z.mod_pos_bound c n Hn).
  pose proof (Z.div_mod (c + 1) n ltac:(lia)). pose proof (Z.mod_pos_bound (c + 1) n Hn).
  destruct (Z.eqb_spec ((c + 1) mod n) 0); nia.
Qed.

(** Every non-negative number fits in its own bit length. *)
Lemma in_width_log2 n : 0 <= n → in_width (Z.succ (Z.log2 n)) n.
Proof.
  intros H. split; [done|]. destruct (Z.eq_dec n 0) as [->|]; [reflexivity|].
  apply Z.log2_spec. lia.
Qed.

#[export] Hint Resolve wrap_range : width.

(* ------------------------------------------------------------------ *)
(** * Lemmas on lists *)

Lemma take_S_drop {A} (l : list A) n x :
  l !! n = Some x → drop n l = x :: drop (S n) l.
Proof. intros H. by apply drop_S. Qed.

Lemma take_drop_slice {A} (l : list A) a b :
  (a ≤ b)%nat → take a l ++ take (b - a) (drop a l) = take b l.
Proof.
  intros H. replace b with (a + (b - a))%nat at 2 by lia.
  by rewrite take_take_drop.
Qed.
