(* ===== verification/RustStd.v ===== *)
(** Bytes, slices, UTF-8 and decimal numbers, as the Rust standard library
    treats them: the operations [fix/message.rs], [fix/framing.rs] and
    [kernel/cgroup_mem.rs] build on. *)

From Stdlib Require Import Strings.Byte.
From S2P Require Import Prelude.

(* ------------------------------------------------------------------ *)
(** * Bytes *)

Abbreviation byte := Byte.byte.

#[global] Instance byte_eq_dec' : EqDecision byte := Byte.byte_eq_dec.

(** The value of a [u8]. *)
Definition byte_val (b : byte) : Z := Z.of_N (Byte.to_N b).

(** A [u8] from a value in range; out of range the low byte is not taken, the
    caller wraps first. *)
Definition byte_of_val (z : Z) : byte :=
  match Byte.of_N (Z.to_N z) with Some b => b | None => x00 end.

(** Byte-string literals, [b"..."]. *)
Definition bytes (s : string) : list byte := String.list_byte_of_string s.

Lemma byte_val_range b : u8? (byte_val b).
Proof.
  unfold byte_val, in_width. pose proof (Byte.to_N_bounded b). lia.
Qed.

Lemma byte_of_val_val b : byte_of_val (byte_val b) = b.
Proof. unfold byte_of_val, byte_val. by rewrite N2Z.id, Byte.of_to_N. Qed.

Lemma byte_val_of_val z : u8? z → byte_val (byte_of_val z) = z.
Proof.
  intros [H0 H1]. unfold byte_of_val, byte_val.
  destruct (Byte.of_N (Z.to_N z)) as [b|] eqn:E.
  - apply Byte.to_of_N in E. rewrite E. lia.
  - apply Byte.of_N_None_iff in E. lia.
Qed.

Lemma byte_val_inj b c : byte_val b = byte_val c → b = c.
Proof. intros H. rewrite <- (byte_of_val_val b), <- (byte_of_val_val c). by rewrite H. Qed.

#[export] Hint Resolve byte_val_range : width.

(* ------------------------------------------------------------------ *)
(** * Slices *)

(** [s.iter().position(|&b| b == x)]. *)
Fixpoint position (x : byte) (l : list byte) : option nat :=
  match l with
  | [] => None
  | b :: l' => if decide (b = x) then Some 0%nat else S <$> position x l'
  end.

(** [s.split(|&b| b == x)]: the separators are dropped, and [n] separators give
    [n + 1] pieces, empty ones included. *)
Fixpoint split_on (x : byte) (l : list byte) : list (list byte) :=
  match l with
  | [] => [[]]
  | b :: l' =>
      if decide (b = x) then [] :: split_on x l'
      else match split_on x l' with
           | p :: ps => (b :: p) :: ps
           | [] => [[b]]
           end
  end.

(** [s.starts_with(p)]. *)
Definition starts_with (p l : list byte) : bool := bool_decide (take (length p) l = p).

(** [&s[a..b]] panics when [a > b] or [b > s.len()]. *)
Definition slice {A} (a b : nat) (l : list A) : exec (list A) :=
  if decide (a ≤ b ∧ b ≤ length l)%nat then Done (take (b - a) (drop a l))
  else Panic "slice index out of range".

Lemma position_Some x l n :
  position x l = Some n ↔ l !! n = Some x ∧ x ∉ take n l.
Proof.
  revert n. induction l as [|b l IH]; intros n; simpl.
  { split; [done|]. rewrite lookup_nil. by intros [? _]. }
  case_decide as Hb.
  - subst. destruct n as [|n]; simpl.
    + split; intros; [split; [done|set_solver]|done].
    + split; [done|]. intros [_ Hn]. set_solver.
  - destruct n as [|n]; simpl.
    + split; [destruct (position x l); done|]. intros [? _]. congruence.
    + rewrite not_elem_of_cons. destruct (position x l) as [m|] eqn:E; simpl.
      * specialize (IH n). naive_solver.
      * specialize (IH n). naive_solver.
Qed.

Lemma position_None x l : position x l = None ↔ x ∉ l.
Proof.
  induction l as [|b l IH]; simpl; [set_solver|].
  rewrite not_elem_of_cons. case_decide; [naive_solver|].
  destruct (position x l); naive_solver.
Qed.

Lemma position_app_stable x l l' n :
  position x l = Some n → position x (l ++ l') = Some n.
Proof.
  rewrite !position_Some. intros [Hl Hx]. pose proof (lookup_lt_Some _ _ _ Hl).
  split; [by apply lookup_app_l_Some|]. by rewrite take_app_le by lia.
Qed.

Lemma position_app_fresh x l l' :
  x ∉ l → position x (l ++ x :: l') = Some (length l).
Proof.
  intros H. apply position_Some. split.
  - by rewrite list_lookup_middle.
  - by rewrite take_app_length.
Qed.

Lemma position_lt x l n : position x l = Some n → (n < length l)%nat.
Proof. rewrite position_Some. intros [H _]. by apply lookup_lt_Some in H. Qed.

(** A separator splits a list at its first occurrence. *)
Lemma split_on_fresh x p l :
  x ∉ p → split_on x (p ++ x :: l) = p :: split_on x l.
Proof.
  induction p as [|b p IH]; simpl; intros H.
  - by rewrite decide_True.
  - rewrite not_elem_of_cons in H. rewrite decide_False by naive_solver.
    by rewrite IH by naive_solver.
Qed.

Lemma split_on_single x p : x ∉ p → split_on x p = [p].
Proof.
  induction p as [|b p IH]; simpl; intros H; [done|].
  rewrite not_elem_of_cons in H. rewrite decide_False by naive_solver.
  by rewrite IH by naive_solver.
Qed.

(** No piece of a split holds the separator. *)
Lemma split_on_pieces x l : Forall (λ p, x ∉ p) (split_on x l).
Proof.
  induction l as [|b l IH]; simpl.
  - repeat constructor. set_solver.
  - case_decide; [constructor; [set_solver|done]|].
    destruct (split_on x l); repeat constructor.
    + set_solver.
    + inversion IH; subst. set_solver.
    + by inversion IH.
Qed.

Lemma split_on_nonempty x l : split_on x l ≠ [].
Proof. destruct l as [|b l]; simpl; [done|]. case_decide; [done|]. by case_match. Qed.

(** Joining the pieces back with the separator gives the list. *)
Fixpoint join_with (x : byte) (ps : list (list byte)) : list byte :=
  match ps with
  | [] => []
  | [p] => p
  | p :: ps' => p ++ x :: join_with x ps'
  end.

Lemma join_split x l : join_with x (split_on x l) = l.
Proof.
  induction l as [|b l IH]; [done|]. simpl.
  pose proof (split_on_nonempty x l) as Hne.
  case_decide; destruct (split_on x l) as [|p ps]; simpl in *; try done; subst.
  - by destruct ps.
  - by destruct ps.
Qed.

Lemma starts_with_app p l : starts_with p (p ++ l) = true.
Proof. unfold starts_with. apply bool_decide_eq_true. by rewrite take_app_length. Qed.

Lemma starts_with_extend p l l' :
  (length p ≤ length l)%nat → starts_with p (l ++ l') = starts_with p l.
Proof. intros H. unfold starts_with. by rewrite take_app_le by lia. Qed.

Lemma slice_ok {A} a b (l : list A) :
  (a ≤ b)%nat → (b ≤ length l)%nat → slice a b l = Done (take (b - a) (drop a l)).
Proof. intros. unfold slice. by rewrite decide_True by done. Qed.

(* ------------------------------------------------------------------ *)
(** * UTF-8 *)

(** [std::str::from_utf8(s).is_ok()]: well-formed sequences of one to four
    bytes, with no overlong form, no surrogate and nothing above U+10FFFF. *)
Definition in_range (lo hi : Z) (b : byte) : bool :=
  (lo <=? byte_val b) && (byte_val b <=? hi).

Fixpoint utf8_valid (l : list byte) : bool :=
  match l with
  | [] => true
  | b0 :: r0 =>
      if in_range 0 127 b0 then utf8_valid r0
      else match r0 with
      | [] => false
      | b1 :: r1 =>
          if in_range 194 223 b0 then in_range 128 191 b1 && utf8_valid r1
          else match r1 with
          | [] => false
          | b2 :: r2 =>
              if in_range 224 239 b0 then
                (if in_range 224 224 b0 then in_range 160 191 b1
                 else if in_range 237 237 b0 then in_range 128 159 b1
                 else in_range 128 191 b1) && in_range 128 191 b2 && utf8_valid r2
              else match r2 with
              | [] => false
              | b3 :: r3 =>
                  in_range 240 244 b0
                  && (if in_range 240 240 b0 then in_range 144 191 b1
                      else if in_range 244 244 b0 then in_range 128 143 b1
                      else in_range 128 191 b1)
                  && in_range 128 191 b2 && in_range 128 191 b3 && utf8_valid r3
              end
          end
      end
  end.

(** [std::str::from_utf8]: the bytes themselves, or an error. *)
Definition from_utf8 (l : list byte) : result unit (list byte) :=
  if utf8_valid l then Ok l else Err tt.

Definition is_ascii (b : byte) : Prop := byte_val b < 128.

Lemma utf8_valid_ascii l : Forall is_ascii l → utf8_valid l = true.
Proof.
  induction 1 as [|b l Hb _ IH]; [done|]. simpl.
  replace (in_range 0 127 b) with true; [done|]. symmetry.
  unfold in_range, is_ascii in *. pose proof (byte_val_range b). unfold in_width in *. lia.
Qed.

(* ------------------------------------------------------------------ *)
(** * Decimal numbers *)

Definition digit_byte (d : Z) : byte := byte_of_val (48 + d).

(** [char::to_digit(10)]. *)
Definition digit_val (b : byte) : option Z :=
  if in_range 48 57 b then Some (byte_val b - 48) else None.

(** The formatting loop behind [n.to_string()] and [format!("{n}")]: divide by
    ten, prepend the remainder, stop at zero.  [log2 n + 1] rounds are enough,
    since every round divides by more than two. *)
Fixpoint dec_loop (fuel : nat) (n : Z) (acc : list byte) : list byte :=
  match fuel with
  | O => acc
  | S f =>
      let acc' := digit_byte (n mod 10) :: acc in
      if n / 10 =? 0 then acc' else dec_loop f (n / 10) acc'
  end.
Definition to_dec (n : Z) : list byte := dec_loop (S (Z.to_nat (Z.log2 n))) n [].

(** [format!("{n:03}")]: zero-padded on the left to width three. *)
Definition to_dec03 (n : Z) : list byte :=
  replicate (3 - length (to_dec n)) (digit_byte 0) ++ to_dec n.

(** [str::parse::<uN>()] ([from_str_radix] with radix ten, unsigned): an
    optional leading ['+'], then at least one digit and nothing else, each step
    a checked multiply and add. *)
Fixpoint parse_digits (w acc : Z) (l : list byte) : result unit Z :=
  match l with
  | [] => Ok acc
  | b :: l' =>
      match digit_val b with
      | None => Err tt
      | Some d =>
          let acc' := acc * 10 + d in
          if acc' <? 2 ^ w then parse_digits w acc' l' else Err tt
      end
  end.
Definition parse_uint (w : Z) (l : list byte) : result unit Z :=
  match l with
  | [] => Err tt
  | [x2b] | [x2d] => Err tt
  | x2b :: l' => parse_digits w 0 l'
  | _ => parse_digits w 0 l
  end.

Lemma digit_val_byte d : 0 <= d < 10 → digit_val (digit_byte d) = Some d.
Proof.
  intros H. unfold digit_val, digit_byte, in_range.
  rewrite byte_val_of_val by width. replace (_ && _) with true by lia. f_equal. lia.
Qed.

Lemma digit_byte_val d : 0 <= d < 10 → byte_val (digit_byte d) = 48 + d.
Proof. intros H. apply byte_val_of_val. width. Qed.

(** The printed value of a number is a block of digits; this states what that
    block denotes. *)
Definition is_digit (b : byte) : Prop := 48 <= byte_val b <= 57.

Lemma digit_byte_is_digit d : 0 <= d < 10 → is_digit (digit_byte d).
Proof. intros H. unfold is_digit. rewrite digit_byte_val by done. lia. Qed.

Lemma parse_digits_app w acc l l' :
  parse_digits w acc (l ++ l') = (a ← parse_digits w acc l; parse_digits w a l').
Proof.
  revert acc. induction l as [|b l IH]; intros acc; simpl; [done|].
  destruct (digit_val b); [|done]. by case_match.
Qed.

(** Enough fuel: printing [n] and then parsing the digits back, from any
    accumulator that leaves room, denotes [n] appended to the accumulator. *)
Lemma dec_loop_spec w f n acc :
  0 <= n < 2 ^ Z.of_nat f → n < 2 ^ w → f ≠ 0%nat →
  ∃ ds, dec_loop f n acc = ds ++ acc ∧ ds ≠ [] ∧ Forall is_digit ds ∧
        parse_digits w 0 ds = Ok n.
Proof.
  revert n acc. induction f as [|f IH]; intros n acc Hn Hw Hf; [done|]. simpl.
  assert (Hmod : 0 <= n mod 10 < 10) by (apply Z.mod_pos_bound; lia).
  pose proof (Z.div_mod n 10) as Hdm.
  destruct (Z.eqb_spec (n / 10) 0) as [Hz|Hz].
  - exists [digit_byte (n mod 10)]. split_and!; [done..| |].
    + apply Forall_singleton. by apply digit_byte_is_digit.
    + simpl. rewrite digit_val_byte by done.
      replace (0 * 10 + n mod 10) with n by lia.
      by rewrite (proj2 (Z.ltb_lt _ _)) by lia.
  - rewrite Nat2Z.inj_succ, Z.pow_succ_r in Hn by lia.
    assert (Hd : 0 < n / 10) by (pose proof (Z.div_pos n 10); lia).
    destruct (IH (n / 10) (digit_byte (n mod 10) :: acc)) as (ds & -> & Hne & Hds & Hp).
    + split; [lia|]. apply Z.div_lt_upper_bound; lia.
    + nia.
    + intros ->. simpl in Hn. lia.
    + exists (ds ++ [digit_byte (n mod 10)]). split_and!.
      * by rewrite <- app_assoc.
      * by destruct ds.
      * apply Forall_app. split; [done|]. apply Forall_singleton. by apply digit_byte_is_digit.
      * rewrite parse_digits_app, Hp. simpl. rewrite digit_val_byte by done.
        replace (n / 10 * 10 + n mod 10) with n by lia.
        by rewrite (proj2 (Z.ltb_lt _ _)) by lia.
Qed.

Lemma to_dec_spec w n :
  in_width w n →
  to_dec n ≠ [] ∧ Forall is_digit (to_dec n) ∧ parse_digits w 0 (to_dec n) = Ok n.
Proof.
  intros [H0 Hw]. unfold to_dec.
  destruct (dec_loop_spec w (S (Z.to_nat (Z.log2 n))) n []) as (ds & -> & ?); [|done..|].
  - rewrite Nat2Z.inj_succ, Z2Nat.id by apply Z.log2_nonneg. by apply in_width_log2.
  - by rewrite app_nil_r.
Qed.

Lemma is_digit_ascii b : is_digit b → is_ascii b.
Proof. unfold is_digit, is_ascii. lia. Qed.

Lemma parse_uint_digits w l :
  l ≠ [] → Forall is_digit l → parse_uint w l = parse_digits w 0 l.
Proof.
  intros Hne Hl. destruct l as [|b l]; [done|].
  pose proof (Forall_inv Hl) as Hb. clear Hl.
  destruct b; try done; exfalso; vm_compute in Hb; naive_solver.
Qed.

(** Printing and parsing an unsigned integer round-trips at its width. *)
Lemma parse_to_dec w n : in_width w n → parse_uint w (to_dec n) = Ok n.
Proof.
  intros H. destruct (to_dec_spec w n H) as (Hne & Hds & Hp).
  by rewrite parse_uint_digits.
Qed.

Lemma to_dec_no_byte x n :
  0 <= n → ¬ is_digit x → x ∉ to_dec n.
Proof.
  intros Hn Hx Hin. destruct (to_dec_spec (Z.succ (Z.log2 n)) n) as (_ & Hds & _).
  { by apply in_width_log2. }
  apply Hx. rewrite Forall_forall in Hds. by apply Hds.
Qed.

Lemma from_utf8_to_dec n : 0 <= n → from_utf8 (to_dec n) = Ok (to_dec n).
Proof.
  intros Hn. unfold from_utf8. rewrite utf8_valid_ascii; [done|].
  destruct (to_dec_spec (Z.succ (Z.log2 n)) n) as (_ & Hds & _).
  { by apply in_width_log2. }
  eapply Forall_impl; [exact Hds|]. apply is_digit_ascii.
Qed.

(** What a successful parse of an unsigned integer promises. *)
Lemma parse_digits_range w acc l n :
  in_width w acc → parse_digits w acc l = Ok n → in_width w n.
Proof.
  revert acc. induction l as [|b l IH]; intros acc Hacc; simpl; [by intros [= <-]|].
  unfold digit_val. destruct (in_range 48 57 b) eqn:E; [|done].
  destruct (Z.ltb_spec (acc * 10 + (byte_val b - 48)) (2 ^ w)); [|done].
  apply IH. unfold in_range, in_width in *. lia.
Qed.

Lemma parse_uint_range w l n : 0 <= w → parse_uint w l = Ok n → in_width w n.
Proof.
  intros Hw. assert (in_width w 0) by (unfold in_width; lia).
  destruct l as [|b l]; [done|]. unfold parse_uint.
  destruct b; try (by apply parse_digits_range);
    (destruct l; [done|by apply parse_digits_range]).
Qed.

(** A number below 1000 prints in at most three digits, so padding gives three. *)
Lemma to_dec03_length n : 0 <= n < 256 → length (to_dec03 n) = 3%nat.
Proof.
  intros H. assert (Hall : forallb (λ k, Nat.eqb (length (to_dec03 (Z.of_nat k))) 3) (seq 0 256) = true)
    by (vm_compute; reflexivity).
  rewrite forallb_forall in Hall. specialize (Hall (Z.to_nat n)).
  rewrite Z2Nat.id in Hall by lia. apply Nat.eqb_eq, Hall, in_seq. lia.
Qed.
