(* ===== verification/Core.v ===== *)
(** crates/core: the shared types and traits.  [HarnessError], the clocks, the
    declarative scenario, and the two interfaces every other crate meets
    through, [FaultInjector] and [ProtocolAdapter], as type classes. *)

From S2P Require Import Prelude RustStd.

(* ------------------------------------------------------------------ *)
(** * error.rs *)

(** What the sources read of a [std::io::Error]: its kind, as far as they test
    it, and its rendering. *)
Inductive ErrorKind := WouldBlock | TimedOut | OtherKind.
Record io_error := { io_kind : ErrorKind; io_text : string }.

Inductive HarnessError :=
| ArmFailed (injector msg : string)
| DisarmFailed (injector msg : string)
| AdapterRejected (adapter msg : string)
| InvalidScenario (msg : string)
| Io (e : io_error).

#[global] Instance ErrorKind_eq_dec : EqDecision ErrorKind.
Proof. solve_decision. Defined.
#[global] Instance io_error_eq_dec : EqDecision io_error.
Proof. solve_decision. Defined.
#[global] Instance HarnessError_eq_dec : EqDecision HarnessError.
Proof. solve_decision. Defined.

(** [u64::to_string] as a Rust [String]. *)
Definition to_string (n : Z) : string := String.string_of_list_byte (to_dec n).

(* ------------------------------------------------------------------ *)
(** * clock.rs *)

Class Clock (C : Type) := now_ns : C → Z.

(** [VirtualClock { ns: AtomicU64 }]; [fetch_add] wraps at 64 bits. *)
Record VirtualClock := { ns : Z }.
Definition VirtualClock_new (start_ns : Z) : VirtualClock := {| ns := start_ns |}.
Definition VirtualClock_advance (c : VirtualClock) (delta_ns : Z) : VirtualClock :=
  {| ns := wrap 64 (ns c + delta_ns) |}.
#[global] Instance VirtualClock_now : Clock VirtualClock := ns.

(** [SystemClock::now_ns]: the OS hands back the nanoseconds since the epoch,
    or an error when its clock is set before it; [as u64] truncates. *)
Definition SystemClock_now_ns (since_epoch : option Z) : exec Z :=
  match since_epoch with
  | Some t => Done (wrap 64 t)
  | None => Panic "system clock before unix epoch"
  end.

(* ------------------------------------------------------------------ *)
(** * scenario.rs *)

Inductive StepAction := Arm | Disarm.
Record ScenarioStep := { at_ns : Z; fault_id : string; action : StepAction }.
Record Scenario := { sc_name : string; sc_seed : Z; sc_steps : list ScenarioStep }.

#[global] Instance StepAction_eq_dec : EqDecision StepAction.
Proof. solve_decision. Defined.
#[global] Instance ScenarioStep_eq_dec : EqDecision ScenarioStep.
Proof. solve_decision. Defined.

(** The integers of a step are [u64]. *)
Definition step_wf (s : ScenarioStep) : Prop := u64? (at_ns s).

(* ------------------------------------------------------------------ *)
(** * fault.rs *)

Inductive dyn_clock := System | Virtual (c : VirtualClock).
Record FaultContext := { ctx_clock : dyn_clock; ctx_seed : Z }.

(** The trait.  [W] is everything an injector can act on outside itself (kernel
    maps, cgroup files, child processes, sockets); [&mut self] and the outside
    are passed through explicitly, and an error still returns both. *)
Class FaultInjector (W I : Type) := {
  fi_id : I → string;
  fi_arm : FaultContext → I → W → result HarnessError unit * I * W;
  fi_disarm : I → W → result HarnessError unit * I * W;
  fi_is_armed : I → bool
}.

(** What the runner relies on, as the comments on the trait state it: a
    successful [arm] leaves the injector armed, a successful [disarm] leaves it
    disarmed, a failed [arm] does not change which of the two it is, and
    [disarm] never arms.  The id is fixed. *)
Class FaultInjectorLaws (W I : Type) `{FaultInjector W I} : Prop := {
  arm_ok : ∀ ctx i w i' w', fi_arm ctx i w = (Ok tt, i', w') → fi_is_armed i' = true;
  arm_err : ∀ ctx i w e i' w',
    fi_arm ctx i w = (Err e, i', w') → fi_is_armed i' = fi_is_armed i;
  disarm_ok : ∀ i w i' w', fi_disarm i w = (Ok tt, i', w') → fi_is_armed i' = false;
  disarm_err : ∀ i w e i' w',
    fi_disarm i w = (Err e, i', w') → fi_is_armed i' = true → fi_is_armed i = true;
  arm_id : ∀ ctx i w, fi_id (fi_arm ctx i w).1.2 = fi_id i;
  disarm_id : ∀ i w, fi_id (fi_disarm i w).1.2 = fi_id i
}.

(** A sequence of trait calls. *)
Inductive injector_call := CallArm (ctx : FaultContext) | CallDisarm.

Definition call_injector {W I} `{FaultInjector W I} (c : injector_call) (i : I) (w : W)
  : result HarnessError unit * I * W :=
  match c with CallArm ctx => fi_arm ctx i w | CallDisarm => fi_disarm i w end.

Fixpoint call_all {W I} `{FaultInjector W I} (cs : list injector_call) (i : I) (w : W) : I * W :=
  match cs with
  | [] => (i, w)
  | c :: cs' => let '(_, i', w') := call_injector c i w in call_all cs' i' w'
  end.

(* ------------------------------------------------------------------ *)
(** * adapter.rs *)

Inductive Direction := Inbound | Outbound.
Record RawMessage := { msg_bytes : list byte; direction : Direction }.
Inductive InterceptAction :=
| Forward
| Drop
| Mutate (b : list byte)
| Delay (delay_ns : Z).

#[global] Instance Direction_eq_dec : EqDecision Direction.
Proof. solve_decision. Defined.
#[global] Instance InterceptAction_eq_dec : EqDecision InterceptAction.
Proof. solve_decision. Defined.

(** The trait.  [intercept] takes [&self]; an adapter with atomics inside hands
    back its state, and the call may panic. *)
Class ProtocolAdapter (A : Type) := {
  pa_name : A → string;
  pa_intercept : A → RawMessage → exec (result HarnessError InterceptAction * A)
}.
