(* ===== verification/Rng.v ===== *)
(** crates/replay/src/rng.rs: [DeterministicRng], a SplitMix64 generator.
    Integers are kept at 64 bits; [f64] is IEEE binary64 as the Standard
    Library's [SpecFloat] computes it. *)

From Stdlib Require Import SpecFloat.
From S2P Require Import Prelude.

(* ------------------------------------------------------------------ *)
(** * The generator *)

Record DeterministicRng := { rng_state : Z }.

Definition from_seed (seed : Z) : DeterministicRng := {| rng_state := seed |}.

Definition golden_gamma : Z := 0x9E3779B97F4A7C15.
Definition mix_mul1 : Z := 0xBF58476D1CE4E5B9.
Definition mix_mul2 : Z := 0x94D049BB133111EB.

(** The output function applied to the advanced state. *)
Definition mix (z : Z) : Z :=
  let z1 := wrap 64 (Z.lxor z (Z.shiftr z 30) * mix_mul1) in
  let z2 := wrap 64 (Z.lxor z1 (Z.shiftr z1 27) * mix_mul2) in
  Z.lxor z2 (Z.shiftr z2 31).

Definition next_u64 (r : DeterministicRng) : Z * DeterministicRng :=
  let state := wrap 64 (rng_state r + golden_gamma) in
  (mix state, {| rng_state := state |}).

(** [binary64]: precision 53, exponents up to 1024. *)
Definition f64 : Type := spec_float.
Definition u64_as_f64 (z : Z) : f64 := binary_normalize 53 1024 z 0 false.
Definition f64_mul : f64 → f64 → f64 := SFmul 53 1024.
Definition f64_div : f64 → f64 → f64 := SFdiv 53 1024.
Definition f64_zero : f64 := S754_zero false.
Definition f64_one : f64 := u64_as_f64 1.

Definition next_f64 (r : DeterministicRng) : f64 * DeterministicRng :=
  let '(x, r') := next_u64 r in
  (f64_mul (u64_as_f64 (Z.shiftr x 11)) (f64_div f64_one (u64_as_f64 (Z.shiftl 1 53))), r').

Definition gen_bool (probability : f64) (r : DeterministicRng) : bool * DeterministicRng :=
  let '(f, r') := next_f64 r in (SFltb f probability, r').

(** [low + self.next_u64() % (high - low)], with the [debug_assert!] in front.
    Operands are evaluated left to right, so the draw happens before the
    subtraction can panic. *)
Definition gen_range_u64 (p : profile) (low high : Z) (r : DeterministicRng)
  : exec (Z * DeterministicRng) :=
  if debug_assertions p && negb (low <? high)
  then Panic "gen_range_u64: low must be < high"
  else
    let '(x, r') := next_u64 r in
    d ← usub p 64 high low;
    m ← urem x d;
    v ← uadd p 64 low m;
    mret (v, r').

(** [n] draws in a row. *)
Fixpoint draws (n : nat) (r : DeterministicRng) : list Z * DeterministicRng :=
  match n with
  | O => ([], r)
  | S n' =>
      let '(x, r1) := next_u64 r in
      let '(xs, r2) := draws n' r1 in
      (x :: xs, r2)
  end.

(* ------------------------------------------------------------------ *)
(** * Bit-level lemmas *)

Lemma lxor_in_width w a b :
  0 <= w → in_width w a → in_width w b → in_width w (Z.lxor a b).
Proof.
  intros Hw [Ha Ha'] [Hb Hb'].
  assert (H0 : 0 <= Z.lxor a b) by (apply Z.lxor_nonneg; lia).
  split; [done|]. destruct (Z.eq_dec (Z.lxor a b) 0) as [->|Hne]; [lia|].
  apply Z.log2_lt_pow2; [lia|].
  eapply Z.le_lt_trans; [by apply Z.log2_lxor|].
  assert (∀ x, 0 <= x → x < 2 ^ w → x ≠ 0 → Z.log2 x < w) as Hlog.
  { intros x ???. apply Z.log2_lt_pow2; lia. }
  destruct (Z.eq_dec a 0) as [->|Ha0], (Z.eq_dec b 0) as [->|Hb0].
  - done.
  - rewrite Z.max_r by apply Z.log2_nonneg. auto.
  - rewrite Z.max_l by apply Z.log2_nonneg. auto.
  - apply Z.max_lub_lt; auto.
Qed.

Lemma shiftr_in_width w a k : 0 <= k → in_width w a → in_width w (Z.shiftr a k).
Proof.
  intros Hk [Ha Ha']. rewrite Z.shiftr_div_pow2 by done. split.
  - apply Z.div_pos; lia.
  - eapply Z.le_lt_trans; [|exact Ha']. apply Z.div_le_upper_bound; [lia|].
    assert (0 < 2 ^ k) by lia. nia.
Qed.

(** [x ^ (x >> k)] can be undone with three shifts when [3k >= w]. *)
Definition xorshift (k x : Z) : Z := Z.lxor x (Z.shiftr x k).
Definition unxorshift (k y : Z) : Z :=
  Z.lxor y (Z.lxor (Z.shiftr y k) (Z.shiftr y (k + k))).

Lemma unxorshift_xorshift w k x :
  0 <= k → w <= 3 * k → in_width w x → unxorshift k (xorshift k x) = x.
Proof.
  intros Hk Hw [Hx Hx']. unfold unxorshift, xorshift.
  rewrite !Z.shiftr_lxor, !Z.shiftr_shiftr by lia.
  assert (Z.shiftr x (k + (k + k)) = 0) as ->.
  { rewrite Z.shiftr_div_pow2 by lia. apply Z.div_small. split; [done|].
    eapply Z.lt_le_trans; [exact Hx'|]. apply Z.pow_le_mono_r; lia. }
  apply Z.bits_inj. intros n. rewrite !Z.lxor_spec, Z.bits_0.
  repeat (match goal with |- context [Z.testbit ?a ?b] =>
    destruct (Z.testbit a b) end; simpl); done.
Qed.

Lemma mul_inverse w c d x :
  0 <= w → wrap w (c * d) = 1 → in_width w x → wrap w (wrap w (x * c) * d) = x.
Proof.
  intros Hw Hcd Hx. rewrite wrap_mul_l.
  replace (x * c * d) with (x * (c * d)) by ring.
  rewrite <- wrap_mul_r, Hcd, Z.mul_1_r. by apply wrap_id.
Qed.

(** The inverse of [mix]: undo each xorshift, multiply by the inverses of the
    odd constants modulo 2^64. *)
Definition mix_inv1 : Z := 0x96DE1B173F119089.
Definition mix_inv2 : Z := 0x319642B2D24D8EC3.
Definition unmix (y : Z) : Z :=
  let z2 := unxorshift 31 y in
  let z1 := unxorshift 27 (wrap 64 (z2 * mix_inv2)) in
  unxorshift 30 (wrap 64 (z1 * mix_inv1)).

Lemma xorshift_in_width k x : 0 <= k → u64? x → u64? (xorshift k x).
Proof. intros. apply lxor_in_width; [lia|done|]. by apply shiftr_in_width. Qed.

Lemma unmix_mix x : u64? x → unmix (mix x) = x.
Proof.
  intros Hx. unfold unmix, mix. fold (xorshift 30 x).
  set (z1 := wrap 64 (xorshift 30 x * mix_mul1)). fold (xorshift 27 z1).
  set (z2 := wrap 64 (xorshift 27 z1 * mix_mul2)). fold (xorshift 31 z2).
  assert (u64? z1) by (apply wrap_range; lia).
  assert (u64? z2) by (apply wrap_range; lia).
  rewrite (unxorshift_xorshift 64 31 z2) by (done || lia).
  subst z2. rewrite mul_inverse; [|lia|reflexivity|by apply xorshift_in_width].
  rewrite (unxorshift_xorshift 64 27 z1) by (done || lia).
  subst z1. rewrite mul_inverse; [|lia|reflexivity|by apply xorshift_in_width].
  by rewrite (unxorshift_xorshift 64 30 x) by (done || lia).
Qed.

Lemma mix_inj x y : u64? x → u64? y → mix x = mix y → x = y.
Proof. intros Hx Hy H. rewrite <- (unmix_mix x), <- (unmix_mix y) by done. by rewrite H. Qed.

Lemma mix_range x : u64? x → u64? (mix x).
Proof. intros Hx. unfold mix. apply xorshift_in_width; [lia|]. apply wrap_range. lia. Qed.

(* ------------------------------------------------------------------ *)
(** * The sequence of draws *)

(** The [i]-th draw is a closed form of the seed and [i]. *)
Definition nth_draw (seed : Z) (i : nat) : Z :=
  mix (wrap 64 (seed + (Z.of_nat i + 1) * golden_gamma)).

Lemma draws_closed_form n r :
  draws n r =
    ((λ i, nth_draw (rng_state r) i) <$> seq 0 n,
     match n with
     | O => r
     | S _ => {| rng_state := wrap 64 (rng_state r + Z.of_nat n * golden_gamma) |}
     end).
Proof.
  revert r. induction n as [|n IH]; intros r; [done|].
  cbn [draws]. unfold next_u64. rewrite IH. cbn [rng_state].
  cbn [seq]. rewrite <- fmap_S_seq. cbn [fmap list_fmap].
  change (list_fmap nat nat S (seq 0 n)) with (S <$> seq 0 n).
  rewrite <- list_fmap_compose.
  assert (∀ i, nth_draw (wrap 64 (rng_state r + golden_gamma)) i = nth_draw (rng_state r) (S i))
    as Hshift.
  { intros i. unfold nth_draw. rewrite wrap_add_l. do 2 f_equal. unfold golden_gamma. lia. }
  f_equal; [f_equal|].
  - apply list_fmap_ext. intros _ i _. apply Hshift.
  - destruct n as [|n]; f_equal; rewrite ?wrap_add_l; f_equal; unfold golden_gamma; lia.
Qed.

(** An odd increment visits every state before it repeats one. *)
Lemma gamma_orbit_inj seed i j :
  0 <= i < 2 ^ 64 → 0 <= j < 2 ^ 64 →
  wrap 64 (seed + (i + 1) * golden_gamma) = wrap 64 (seed + (j + 1) * golden_gamma) → i = j.
Proof.
  intros Hi Hj H.
  assert (Hinv : wrap 64 (golden_gamma * 0xF1DE83E19937733D) = 1) by reflexivity.
  assert (Hd : wrap 64 ((i - j) * golden_gamma) = 0).
  { unfold wrap in *. replace ((i - j) * golden_gamma)
      with (seed + (i + 1) * golden_gamma - (seed + (j + 1) * golden_gamma)) by ring.
    rewrite Zminus_mod, H, Z.sub_diag. reflexivity. }
  assert (Hz : wrap 64 (i - j) = 0).
  { rewrite <- (Z.mul_1_r (i - j)), <- Hinv, wrap_mul_r, Z.mul_assoc.
    by rewrite <- wrap_mul_l, Hd. }
  unfold wrap in Hz. apply Z.mod_divide in Hz as [q Hq]; [|lia].
  assert (q = 0) by nia. lia.
Qed.

Lemma nth_draw_inj seed i j :
  Z.of_nat i < 2 ^ 64 → Z.of_nat j < 2 ^ 64 → nth_draw seed i = nth_draw seed j → i = j.
Proof.
  intros Hi Hj H. apply mix_inj in H; [|apply wrap_range; lia..].
  apply gamma_orbit_inj in H; lia.
Qed.

Lemma draws_NoDup n r : Z.of_nat n <= 2 ^ 64 → NoDup (draws n r).1.
Proof.
  intros Hn. rewrite draws_closed_form. cbn [fst].
  apply NoDup_fmap_2_strong; [|apply NoDup_seq].
  intros i j Hi%elem_of_seq Hj%elem_of_seq. apply nth_draw_inj; lia.
Qed.

(* ------------------------------------------------------------------ *)
(** * The unit-interval draw *)

Lemma digits2_log2 p : Zpos (digits2_pos p) = Z.log2 (Zpos p) + 1.
Proof.
  induction p as [p IH|p IH|]; cbn [digits2_pos]; [| |reflexivity].
  - rewrite Pos2Z.inj_succ, IH, Pos2Z.inj_xI, Z.log2_succ_double by lia. lia.
  - rewrite Pos2Z.inj_succ, IH, Pos2Z.inj_xO, Z.log2_double by lia. lia.
Qed.

(** A 53-bit mantissa in the normal exponent range is already rounded. *)
Lemma binary_round_aux_53 p e :
  2 ^ 52 <= Zpos p < 2 ^ 53 → -1074 <= e <= 971 →
  binary_round_aux 53 1024 false (Zpos p) e loc_Exact = S754_finite false p e.
Proof.
  intros Hp He.
  assert (Hd : Zpos (digits2_pos p) = 53).
  { rewrite digits2_log2. rewrite (Z.log2_unique (Zpos p) 52); lia. }
  assert (Hz : ∀ e', -1074 <= e' → fexp 53 1024 (53 + e') - e' = 0).
  { intros e' ?. unfold fexp, emin. lia. }
  unfold binary_round_aux, shr_fexp. cbn [Zdigits2]. rewrite Hd, Hz by lia.
  cbn [shr shr_record_of_loc shr_m loc_of_shr_record round_nearest_even Zdigits2].
  rewrite Hd, Hz by lia. cbn [shr shr_record_of_loc shr_m].
  by rewrite (proj2 (Z.leb_le _ _)) by lia.
Qed.

(** A positive integer below 2^53 converts exactly: its bits shifted up to 53. *)
Lemma u64_as_f64_exact m :
  0 < m < 2 ^ 53 →
  ∃ p e, u64_as_f64 m = S754_finite false p e ∧ 2 ^ 52 <= Zpos p < 2 ^ 53 ∧
         -53 < e <= 0 ∧ Zpos p * 2 ^ (53 + e) = m * 2 ^ 53.
Proof.
  intros Hm. destruct m as [|m|m]; [lia| |lia].
  remember (Z.log2 (Zpos m) + 1) as d eqn:Hdef.
  pose proof (Z.log2_spec (Zpos m)) as Hlog. pose proof (Z.log2_nonneg (Zpos m)).
  assert (Z.log2 (Zpos m) < 53) by (apply Z.log2_lt_pow2; lia).
  assert (Hfexp : fexp 53 1024 (d + 0) = d - 53) by (unfold fexp, emin; lia).
  assert (Hsz : 2 ^ 52 <= Zpos m * 2 ^ (53 - d) < 2 ^ 53).
  { assert (2 ^ 52 = 2 ^ Z.log2 (Zpos m) * 2 ^ (53 - d)) as ->.
    { rewrite <- Z.pow_add_r by lia. f_equal. lia. }
    assert (2 ^ 53 = 2 ^ Z.succ (Z.log2 (Zpos m)) * 2 ^ (53 - d)) as ->.
    { rewrite <- Z.pow_add_r by lia. f_equal. lia. }
    assert (0 < 2 ^ (53 - d)) by (apply Z.pow_pos_nonneg; lia). nia. }
  assert (∃ p, shl_align m 0 (fexp 53 1024 (Zpos (digits2_pos m) + 0)) = (p, d - 53) ∧
               Zpos p = Zpos m * 2 ^ (53 - d)) as (p & Hal & Hp).
  { rewrite digits2_log2, <- Hdef, Hfexp. unfold shl_align. rewrite Z.sub_0_r.
    destruct (d - 53) as [|q|q] eqn:E; [|lia|].
    - exists m. split; [done|]. replace (53 - d) with 0 by lia. lia.
    - exists (Pos.iter xO m q). split; [done|].
      replace (53 - d) with (Zpos q) by lia.
      rewrite (Pos.iter_swap_gen _ _ Zpos xO (Z.mul 2)) by done.
      by rewrite <- (Z.shiftl_mul_pow2 (Zpos m) (Zpos q)) by lia. }
  exists p, (d - 53). split_and!; [|lia..|].
  - unfold u64_as_f64, binary_normalize, binary_round. rewrite Hal.
    apply binary_round_aux_53; lia.
  - rewrite Hp. replace (53 + (d - 53)) with d by lia.
    rewrite <- Z.mul_assoc, <- Z.pow_add_r by lia. do 2 f_equal. lia.
Qed.

(** Scaling by [2^-53] only moves the exponent. *)
Lemma f64_scale_53 p e :
  2 ^ 52 <= Zpos p < 2 ^ 53 → -1000 <= e <= 900 →
  f64_mul (S754_finite false p e) (f64_div f64_one (u64_as_f64 (Z.shiftl 1 53))) =
  S754_finite false p (e - 53).
Proof.
  intros Hp He.
  replace (f64_div f64_one (u64_as_f64 (Z.shiftl 1 53)))
    with (S754_finite false 4503599627370496 (-105)) by (vm_compute; reflexivity).
  unfold f64_mul, SFmul. cbn [xorb].
  rewrite <- (binary_round_aux_53 p (e - 53)) by lia.
  replace (p * 4503599627370496)%positive with (Nat.iter 52 xO p) by (cbn; lia).
  unfold binary_round_aux at 1. unfold shr_fexp at 1. cbn [Zdigits2].
  assert (Hd : Zpos (digits2_pos (Nat.iter 52 xO p)) = 105).
  { cbn [Nat.iter nat_rect digits2_pos]. rewrite !Pos2Z.inj_succ, digits2_log2.
    rewrite (Z.log2_unique (Zpos p) 52); lia. }
  rewrite Hd.
  replace (fexp 53 1024 (105 + (e + -105)) - (e + -105)) with 52 by (unfold fexp, emin; lia).
  cbn [shr shr_record_of_loc iter_pos shr_1 Nat.iter nat_rect orb shr_m loc_of_shr_record
       round_nearest_even].
  unfold binary_round_aux, shr_fexp at 2.
  assert (Hd' : Zdigits2 (Zpos p) = 53).
  { cbn [Zdigits2]. rewrite digits2_log2, (Z.log2_unique (Zpos p) 52); lia. }
  rewrite Hd'. replace (fexp 53 1024 (53 + (e - 53)) - (e - 53)) with 0 by (unfold fexp, emin; lia).
  cbn [shr shr_record_of_loc shr_m loc_of_shr_record round_nearest_even].
  by replace (e + -105 + 52) with (e - 53) by lia.
Qed.

(** The value of [next_f64]: the top 53 bits of the draw over 2^53, exactly. *)
Lemma next_f64_value r :
  let m := Z.shiftr (next_u64 r).1 11 in
  0 <= m < 2 ^ 53 ∧
  ((m = 0 ∧ (next_f64 r).1 = f64_zero) ∨
   (∃ p e, (next_f64 r).1 = S754_finite false p e ∧ e <= -53 ∧
           2 ^ 52 <= Zpos p < 2 ^ 53 ∧ Zpos p * 2 ^ (106 + e) = m * 2 ^ 53)).
Proof.
  intros m.
  assert (Hm : 0 <= m < 2 ^ 53).
  { subst m. pose proof (mix_range (wrap 64 (rng_state r + golden_gamma))) as Hx.
    unfold in_width in Hx. specialize (Hx (wrap_range 64 _ ltac:(lia))).
    change (next_u64 r).1 with (mix (wrap 64 (rng_state r + golden_gamma))).
    rewrite Z.shiftr_div_pow2 by lia. split; [apply Z.div_pos; lia|].
    apply Z.div_lt_upper_bound; lia. }
  split; [done|]. destruct (Z.eq_dec m 0) as [H0|H0]; [left|right].
  - split; [done|]. unfold next_f64. change (next_u64 r) with ((next_u64 r).1, (next_u64 r).2).
    cbn [fst]. fold m. rewrite H0. vm_compute. reflexivity.
  - destruct (u64_as_f64_exact m) as (p & e & Heq & Hp & He & Hv); [lia|].
    exists p, (e - 53). split_and!; [|lia..|].
    + unfold next_f64. change (next_u64 r) with ((next_u64 r).1, (next_u64 r).2).
      cbn [fst]. fold m. rewrite Heq. apply f64_scale_53; lia.
    + by replace (106 + (e - 53)) with (53 + e) by lia.
Qed.

(* ------------------------------------------------------------------ *)
(** * Properties *)

(** Within 2^64 draws from one seed no value repeats, so the generator has
    the full SplitMix64 period. *)
Theorem rng_no_repeat seed n :
  Z.of_nat n <= 2 ^ 64 → NoDup (draws n (from_seed seed)).1.
Proof. apply draws_NoDup. Qed.

Lemma rng_no_repeat_witness : NoDup (draws 3 (from_seed 1234567)).1.
Proof. apply (rng_no_repeat 1234567 3). vm_compute. discriminate. Defined.

(** Two different 64-bit seeds never agree on any draw, the first included,
    however many have been made. *)
Theorem rng_seeds_diverge seed1 seed2 i :
  u64? seed1 → u64? seed2 → seed1 ≠ seed2 →
  (next_u64 (draws i (from_seed seed1)).2).1 ≠ (next_u64 (draws i (from_seed seed2)).2).1.
Proof.
  intros H1 H2 Hne Heq. apply Hne.
  assert (Hst : ∀ s, (next_u64 (draws i (from_seed s)).2).1 = nth_draw s i).
  { intros s. rewrite draws_closed_form. unfold next_u64, nth_draw. cbn [fst snd].
    f_equal. destruct i as [|i]; cbn [rng_state from_seed]; rewrite ?wrap_add_l;
      f_equal; unfold golden_gamma; lia. }
  rewrite !Hst in Heq. apply mix_inj in Heq; [|apply wrap_range; lia..].
  apply (wrap_inj 64); [done..|]. unfold wrap in *.
  set (g := (Z.of_nat i + 1) * golden_gamma) in *.
  replace seed1 with (seed1 + g - g) by ring. replace seed2 with (seed2 + g - g) by ring.
  by rewrite (Zminus_mod (seed1 + g)), (Zminus_mod (seed2 + g)), Heq.
Qed.

Lemma rng_seeds_diverge_witness :
  (next_u64 (draws 2 (from_seed 1)).2).1 ≠ (next_u64 (draws 2 (from_seed 2)).2).1.
Proof. apply (rng_seeds_diverge 1 2 2); [split; [lia|reflexivity]..|lia]. Defined.

Lemma next_f64_in_range r :
  SFleb f64_zero (next_f64 r).1 = true ∧ SFltb (next_f64 r).1 f64_one = true.
Proof.
  destruct (next_f64_value r) as [Hm [[H0 Hf]|(p & e & Hf & He & Hp & Hv)]]; rewrite Hf; [done|].
  split; [done|]. change f64_one with (S754_finite false 4503599627370496 (-52)).
  unfold SFltb, SFcompare. by rewrite (proj2 (Z.compare_lt_iff e (-52))) by lia.
Qed.

(** C32: [next_f64] lies in [0.0, 1.0) as an IEEE comparison, and it is exactly
    the top 53 bits of the draw divided by 2^53: no rounding happens. *)
Theorem next_f64_unit_interval r :
  let f := (next_f64 r).1 in
  let m := Z.shiftr (next_u64 r).1 11 in
  SFleb f64_zero f = true ∧ SFltb f f64_one = true ∧ 0 <= m < 2 ^ 53 ∧
  (f = f64_zero ∧ m = 0 ∨
   ∃ p e, f = S754_finite false p e ∧ Zpos p * 2 ^ (106 + e) = m * 2 ^ 53).
Proof.
  cbv zeta. destruct (next_f64_in_range r) as [Hlo Hhi]. split; [done|]. split; [done|].
  destruct (next_f64_value r) as [Hm [[H0 Hf]|(p & e & Hf & He & Hp & Hv)]]; (split; [lia|]).
  - by left.
  - right. by exists p, e.
Qed.

(** [gen_range_u64(low, high)] with [low < high] returns in every build
    profile, never overflows, and lands in the half-open range. *)
Theorem gen_range_in_bounds p low high r :
  0 <= low → low < high → high < 2 ^ 64 →
  ∃ v, gen_range_u64 p low high r = Done (v, (next_u64 r).2) ∧ low <= v < high ∧
       v = low + (next_u64 r).1 mod (high - low).
Proof.
  intros H0 Hlt Hh. set (x := (next_u64 r).1).
  pose proof (Z.mod_pos_bound x (high - low) ltac:(lia)) as Hm.
  exists (low + x mod (high - low)). split; [|lia]. unfold gen_range_u64.
  rewrite (proj2 (Z.ltb_lt low high)), andb_false_r by done.
  change (next_u64 r) with (x, (next_u64 r).2) at 1. cbv beta iota.
  rewrite usub_exact by lia. unfold urem. cbn [mbind exec_bind].
  rewrite decide_False by lia. cbn [mbind exec_bind]. by rewrite uadd_exact by lia.
Qed.

Lemma gen_range_in_bounds_witness :
  ∃ v, gen_range_u64 release_profile 0 1000 (from_seed 777) =
         Done (v, (next_u64 (from_seed 777)).2) ∧ 0 <= v < 1000 ∧
       v = 0 + (next_u64 (from_seed 777)).1 mod (1000 - 0).
Proof. apply (gen_range_in_bounds release_profile 0 1000 (from_seed 777)); lia. Defined.

(** The reference vector of the unit test. *)
Example matches_reference_vector : (next_u64 (from_seed 1234567)).1 = 6457827717110365317.
Proof. vm_compute. reflexivity. Qed.
