(* ===== verification/Schedule.v ===== *)
(** crates/replay/src/schedule.rs: [ValidatedSchedule::validate], the structural
    check every scenario passes before anything runs, and its declarative
    specification. *)

From S2P Require Import Prelude RustStd Core.

(* ------------------------------------------------------------------ *)
(** * The code *)

Record ValidatedSchedule := { vs_scenario : Scenario }.

Definition err_out_of_order (s : ScenarioStep) (last_ns : Z) : HarnessError :=
  InvalidScenario ("step for " +:+ fault_id s +:+ " at " +:+ to_string (at_ns s) +:+
    "ns is out of order, previous step was at " +:+ to_string last_ns +:+ "ns").
Definition err_armed_twice (s : ScenarioStep) : HarnessError :=
  InvalidScenario ("fault " +:+ fault_id s +:+ " armed twice without an intervening disarm").
Definition err_never_armed (s : ScenarioStep) : HarnessError :=
  InvalidScenario ("fault " +:+ fault_id s +:+ " disarmed but was never armed").

(** One iteration of the loop in [validate]: the set of armed ids and the time
    of the previous step, or the error that stops it. *)
Definition validate_step (armed : gset string) (last_ns : Z) (s : ScenarioStep)
  : result HarnessError (gset string * Z) :=
  if at_ns s <? last_ns then Err (err_out_of_order s last_ns)
  else match action s with
  | Arm =>
      if decide (fault_id s ∈ armed) then Err (err_armed_twice s)
      else Ok ({[fault_id s]} ∪ armed, at_ns s)
  | Disarm =>
      if decide (fault_id s ∈ armed) then Ok (armed ∖ {[fault_id s]}, at_ns s)
      else Err (err_never_armed s)
  end.

Fixpoint validate_loop (armed : gset string) (last_ns : Z) (steps : list ScenarioStep)
  : result HarnessError (gset string * Z) :=
  match steps with
  | [] => Ok (armed, last_ns)
  | s :: rest =>
      st ← validate_step armed last_ns s;
      validate_loop st.1 st.2 rest
  end.

Definition validate (scenario : Scenario) : result HarnessError ValidatedSchedule :=
  match validate_loop ∅ 0 (sc_steps scenario) with
  | Ok _ => Ok {| vs_scenario := scenario |}
  | Err e => Err e
  end.

Definition vs_steps (v : ValidatedSchedule) : list ScenarioStep := sc_steps (vs_scenario v).
Definition vs_name (v : ValidatedSchedule) : string := sc_name (vs_scenario v).
Definition vs_seed (v : ValidatedSchedule) : Z := sc_seed (vs_scenario v).

(* ------------------------------------------------------------------ *)
(** * The specification *)

(** The actions a schedule applies to one fault, in order. *)
Definition actions_of (id : string) (steps : list ScenarioStep) : list StepAction :=
  action <$> filter (λ s, fault_id s = id) steps.

Definition count_action (a : StepAction) (l : list StepAction) : Z :=
  Z.of_nat (length (filter (λ x, x = a) l)).

(** At every point a fault has been armed as often as disarmed, or once more. *)
Definition balanced_from (armed : bool) (l : list StepAction) : Prop :=
  ∀ k, let n := count_action Arm (take k l) + (if armed then 1 else 0)
                - count_action Disarm (take k l) in
       0 <= n <= 1.

Definition time_sorted (steps : list ScenarioStep) : Prop :=
  StronglySorted Z.le (at_ns <$> steps).

Definition well_formed (steps : list ScenarioStep) : Prop :=
  time_sorted steps ∧ ∀ id, balanced_from false (actions_of id steps).

(** The abstract effect of a schedule: which faults it leaves armed. *)
Definition armed_after_step (armed : gset string) (s : ScenarioStep) : gset string :=
  match action s with
  | Arm => {[fault_id s]} ∪ armed
  | Disarm => armed ∖ {[fault_id s]}
  end.
Definition armed_after (armed : gset string) (steps : list ScenarioStep) : gset string :=
  foldl armed_after_step armed steps.

(* ------------------------------------------------------------------ *)
(** * Lemmas *)

Lemma count_action_cons a x l :
  count_action a (x :: l) = (if decide (x = a) then 1 else 0) + count_action a l.
Proof. unfold count_action. rewrite filter_cons. case_decide; simpl; lia. Qed.

Lemma balanced_from_nil b : balanced_from b [].
Proof. intros k. rewrite take_nil. destruct b; vm_compute; split; discriminate. Qed.

(** One action at a time: [Arm] needs a disarmed fault, [Disarm] an armed one. *)
Lemma balanced_from_cons b x l :
  balanced_from b (x :: l) ↔
  match x with
  | Arm => b = false ∧ balanced_from true l
  | Disarm => b = true ∧ balanced_from false l
  end.
Proof.
  unfold balanced_from. split.
  - intros H. pose proof (H 1%nat) as H1. simpl in H1.
    rewrite take_0, !count_action_cons in H1. change (count_action _ []) with 0 in H1.
    destruct x, b; repeat case_decide; try done; try lia; (split; [done|]); intros k;
      specialize (H (S k)); simpl in H; rewrite !count_action_cons in H;
      repeat case_decide; try done; lia.
  - intros H [|k]; simpl.
    + change (count_action _ []) with 0. destruct b; lia.
    + rewrite !count_action_cons.
      destruct x; destruct H as [-> H]; specialize (H k); repeat case_decide; try done; lia.
Qed.

Lemma actions_of_cons id s steps :
  actions_of id (s :: steps) =
  if decide (fault_id s = id) then action s :: actions_of id steps else actions_of id steps.
Proof. unfold actions_of. rewrite filter_cons. by case_decide. Qed.

Lemma time_sorted_cons s steps :
  time_sorted (s :: steps) ↔
  Forall (λ s', at_ns s <= at_ns s') steps ∧ time_sorted steps.
Proof.
  unfold time_sorted. rewrite fmap_cons. split.
  - intros [? H]%StronglySorted_inv. split; [|done]. by rewrite Forall_fmap in H.
  - intros [??]. constructor; [done|]. by rewrite Forall_fmap.
Qed.

(** The sorted check only looks at neighbours; with a lower bound on the head it
    implies that every later step is later. *)
Definition sorted_from (last : Z) (steps : list ScenarioStep) : Prop :=
  Forall (λ s, last <= at_ns s) steps ∧ time_sorted steps.

Lemma sorted_from_cons last s steps :
  sorted_from last (s :: steps) ↔ last <= at_ns s ∧ sorted_from (at_ns s) steps.
Proof.
  unfold sorted_from. rewrite time_sorted_cons, Forall_cons. split.
  - intros [[??][??]]. by split_and!.
  - intros (?&?&?). split_and!; [done| |done..].
    eapply Forall_impl; [done|]. simpl. intros; lia.
Qed.

Lemma validate_step_ok armed last s st :
  validate_step armed last s = Ok st ↔
  last <= at_ns s ∧ (fault_id s ∈ armed ↔ action s = Disarm) ∧
  st = (armed_after_step armed s, at_ns s).
Proof.
  unfold validate_step, armed_after_step. destruct (Z.ltb_spec (at_ns s) last).
  - split; [done|]. lia.
  - destruct (action s); case_decide; naive_solver.
Qed.

(** The loop accepts exactly the schedules that are sorted from the last time
    seen and balanced from the set of ids armed so far, and ends with the
    abstract effect. *)
Lemma validate_loop_ok armed last steps st :
  validate_loop armed last steps = Ok st →
  sorted_from last steps ∧
  (∀ id, balanced_from (bool_decide (id ∈ armed)) (actions_of id steps)) ∧
  st.1 = armed_after armed steps.
Proof.
  revert armed last. induction steps as [|s steps IH]; intros armed last; simpl.
  { intros [= <-]. split_and!; [|by intros; apply balanced_from_nil|done].
    split; [constructor|]. constructor. }
  destruct (validate_step armed last s) as [[a l]|] eqn:E; [|done]. simpl. intros H.
  apply validate_step_ok in E as (Hl & Hiff & [= -> ->]).
  apply IH in H as (Hs & Hb & Hst). split_and!; [by apply sorted_from_cons| |done].
  intros id. rewrite actions_of_cons. specialize (Hb id). revert Hb.
  unfold armed_after_step. case_decide as Hid.
  - subst. rewrite balanced_from_cons. destruct (action s) eqn:Ea; intros Hb; split.
    + apply bool_decide_eq_false. naive_solver.
    + rewrite bool_decide_eq_true_2 in Hb by set_solver. done.
    + apply bool_decide_eq_true. naive_solver.
    + rewrite bool_decide_eq_false_2 in Hb by set_solver. done.
  - intros Hb. destruct (action s);
      (erewrite bool_decide_ext; [exact Hb|set_solver]).
Qed.

Lemma validate_loop_complete armed last steps :
  sorted_from last steps →
  (∀ id, balanced_from (bool_decide (id ∈ armed)) (actions_of id steps)) →
  ∃ l, validate_loop armed last steps = Ok (armed_after armed steps, l).
Proof.
  revert armed last. induction steps as [|s steps IH]; intros armed last Hs Hb; simpl.
  { by eexists. }
  apply sorted_from_cons in Hs as [Hl Hs].
  pose proof (Hb (fault_id s)) as Hb0. rewrite actions_of_cons, decide_True in Hb0 by done.
  apply balanced_from_cons in Hb0.
  assert (validate_step armed last s = Ok (armed_after_step armed s, at_ns s)) as ->.
  { apply validate_step_ok. split_and!; [done| |done].
    destruct (action s); destruct Hb0 as [Hb0 _];
      rewrite ?bool_decide_eq_true, ?bool_decide_eq_false in Hb0; naive_solver. }
  simpl. apply IH; [done|]. intros id. specialize (Hb id). rewrite actions_of_cons in Hb.
  unfold armed_after_step. destruct (decide (fault_id s = id)) as [<-|Hid].
  - destruct (action s); destruct Hb0 as [_ Hb0].
    + by rewrite bool_decide_eq_true_2 by set_solver.
    + by rewrite bool_decide_eq_false_2 by set_solver.
  - destruct (action s); (erewrite bool_decide_ext; [exact Hb|set_solver]).
Qed.

Lemma sorted_from_0 steps :
  Forall step_wf steps → time_sorted steps → sorted_from 0 steps.
Proof.
  intros H ?. split; [|done]. eapply Forall_impl; [exact H|]. by intros s [? _].
Qed.

Lemma validate_loop_iff steps :
  Forall step_wf steps →
  is_ok (validate_loop ∅ 0 steps) = true ↔ well_formed steps.
Proof.
  intros Hwf. split.
  - destruct (validate_loop ∅ 0 steps) as [st|] eqn:E; [|done]. intros _.
    apply validate_loop_ok in E as ([_ ?] & Hb & _). split; [done|].
    intros id. specialize (Hb id). by rewrite bool_decide_eq_false_2 in Hb by set_solver.
  - intros [Hs Hb]. destruct (validate_loop_complete ∅ 0 steps) as [l ->]; [|..|done].
    + by apply sorted_from_0.
    + intros id. rewrite bool_decide_eq_false_2 by set_solver. apply Hb.
Qed.

Lemma validate_loop_app armed last l1 l2 :
  validate_loop armed last (l1 ++ l2) =
  (st ← validate_loop armed last l1; validate_loop st.1 st.2 l2).
Proof.
  revert armed last. induction l1 as [|s l1 IH]; intros armed last; [done|]. simpl.
  destruct (validate_step armed last s); simpl; [apply IH|done].
Qed.

(** The time of the last step seen. *)
Definition last_time (last : Z) (steps : list ScenarioStep) : Z :=
  foldl (λ _ s, at_ns s) last steps.

Lemma validate_loop_err armed last steps e :
  validate_loop armed last steps = Err e →
  ∃ pre s post, steps = pre ++ s :: post ∧
    validate_loop armed last pre = Ok (armed_after armed pre, last_time last pre) ∧
    validate_step (armed_after armed pre) (last_time last pre) s = Err e.
Proof.
  revert armed last. induction steps as [|s steps IH]; intros armed last; simpl; [done|].
  destruct (validate_step armed last s) as [[a l]|e'] eqn:E; simpl.
  - apply validate_step_ok in E as Hst. destruct Hst as (_ & _ & [= -> ->]).
    intros (pre & s' & post & -> & Hpre & Hs')%IH.
    exists (s :: pre), s', post. split_and!; [done| |done]. simpl. by rewrite E.
  - intros [= ->]. by exists [], s, steps.
Qed.

Lemma validate_step_err armed last s e :
  validate_step armed last s = Err e →
  (at_ns s < last ∧ e = err_out_of_order s last) ∨
  (last <= at_ns s ∧ action s = Arm ∧ fault_id s ∈ armed ∧ e = err_armed_twice s) ∨
  (last <= at_ns s ∧ action s = Disarm ∧ ¬ (fault_id s ∈ armed) ∧ e = err_never_armed s).
Proof.
  unfold validate_step. destruct (Z.ltb_spec (at_ns s) last); [naive_solver|].
  destruct (action s); case_decide; naive_solver.
Qed.

Lemma validated_sorted sc v : validate sc = Ok v → time_sorted (vs_steps v).
Proof.
  unfold validate. destruct (validate_loop _ _ _) as [st|] eqn:E; [|done].
  intros [= <-]. by apply validate_loop_ok in E as ([_ ?] & _).
Qed.

Lemma validated_same sc v : validate sc = Ok v → vs_scenario v = sc.
Proof. unfold validate. case_match; [|done]. by intros [= <-]. Qed.

(* ------------------------------------------------------------------ *)
(** * Properties *)

(** C4: [validate] accepts a scenario exactly when its steps are in time order and
    every fault is armed and disarmed alternately, starting with an arm; and an
    accepted schedule is the scenario itself, unchanged. *)
Theorem validate_iff_well_formed sc :
  Forall step_wf (sc_steps sc) →
  (well_formed (sc_steps sc) ↔ validate sc = Ok {| vs_scenario := sc |}).
Proof.
  intros Hwf. rewrite <- (validate_loop_iff _ Hwf). unfold validate.
  by destruct (validate_loop ∅ 0 (sc_steps sc)).
Qed.

Definition demo_step (t : Z) (id : string) (a : StepAction) : ScenarioStep :=
  {| at_ns := t; fault_id := id; action := a |}.
Definition demo_scenario : Scenario :=
  {| sc_name := "demo"; sc_seed := 42;
     sc_steps := [demo_step 0 "a" Arm; demo_step 2000 "b" Arm; demo_step 5000 "a" Disarm;
                  demo_step 8000 "a" Arm] |}.

Lemma validate_iff_well_formed_witness :
  well_formed (sc_steps demo_scenario) ↔
  validate demo_scenario = Ok {| vs_scenario := demo_scenario |}.
Proof.
  apply (validate_iff_well_formed demo_scenario).
  repeat (constructor; [split; [discriminate|reflexivity]|]). constructor.
Defined.

(** A rejected scenario is rejected for its first offending step, and the
    error says which rule that step breaks: it is earlier than the step before
    it, or it arms an armed fault, or it disarms a fault that is not armed. *)
Theorem validate_reports_first_violation sc e :
  validate sc = Err e →
  ∃ pre s post, sc_steps sc = pre ++ s :: post ∧ is_ok (validate_loop ∅ 0 pre) = true ∧
    let last := last_time 0 pre in
    let armed := armed_after ∅ pre in
    (at_ns s < last ∧ e = err_out_of_order s last) ∨
    (last <= at_ns s ∧ action s = Arm ∧ fault_id s ∈ armed ∧ e = err_armed_twice s) ∨
    (last <= at_ns s ∧ action s = Disarm ∧ ¬ (fault_id s ∈ armed) ∧ e = err_never_armed s).
Proof.
  unfold validate. destruct (validate_loop ∅ 0 (sc_steps sc)) eqn:E; [done|]. intros [= ->].
  apply validate_loop_err in E as (pre & s & post & -> & Hpre & Hs).
  exists pre, s, post. rewrite Hpre. split_and!; [done..|]. by apply validate_step_err.
Qed.

Lemma validate_reports_first_violation_witness :
  ∃ pre s post, [demo_step 0 "a" Arm; demo_step 100 "a" Arm] = pre ++ s :: post ∧
    is_ok (validate_loop ∅ 0 pre) = true ∧
    let last := last_time 0 pre in
    let armed := armed_after ∅ pre in
    (at_ns s < last ∧ err_armed_twice (demo_step 100 "a" Arm) = err_out_of_order s last) ∨
    (last <= at_ns s ∧ action s = Arm ∧ fault_id s ∈ armed ∧
       err_armed_twice (demo_step 100 "a" Arm) = err_armed_twice s) ∨
    (last <= at_ns s ∧ action s = Disarm ∧ ¬ (fault_id s ∈ armed) ∧
       err_armed_twice (demo_step 100 "a" Arm) = err_never_armed s).
Proof.
  apply (validate_reports_first_violation
    {| sc_name := "t"; sc_seed := 1;
       sc_steps := [demo_step 0 "a" Arm; demo_step 100 "a" Arm] |}).
  vm_compute. reflexivity.
Defined.
