(* ===== verification/Scheduler.v ===== *)
(** crates/replay/src/scheduler.rs: the [Scheduler] walks a validated schedule
    against a [VirtualClock] and yields the steps that come due. *)

From S2P Require Import Prelude RustStd Core Schedule.

(* ------------------------------------------------------------------ *)
(** * The code *)

Record Scheduler := { sd_schedule : ValidatedSchedule; sd_clock : VirtualClock; cursor : nat }.

Definition Scheduler_new (schedule : ValidatedSchedule) (start_ns : Z) : Scheduler :=
  {| sd_schedule := schedule; sd_clock := VirtualClock_new start_ns; cursor := 0 |}.

Definition Scheduler_now_ns (s : Scheduler) : Z := now_ns (sd_clock s).

(** The [while] loop of [advance]: move the cursor past every step due by [now].
    The list left after the cursor is the measure, so one round per remaining
    step is enough. *)
Fixpoint cursor_loop (now : Z) (rest : list ScenarioStep) (c : nat) : nat :=
  match rest with
  | [] => c
  | s :: rest' => if at_ns s <=? now then cursor_loop now rest' (S c) else c
  end.

Definition Scheduler_advance (s : Scheduler) (delta_ns : Z) : list ScenarioStep * Scheduler :=
  let clock' := VirtualClock_advance (sd_clock s) delta_ns in
  let now := now_ns clock' in
  let steps := vs_steps (sd_schedule s) in
  let start := cursor s in
  let c := cursor_loop now (drop start steps) start in
  (take (c - start) (drop start steps),
   {| sd_schedule := sd_schedule s; sd_clock := clock'; cursor := c |}).

Definition is_finished (s : Scheduler) : bool :=
  bool_decide (length (vs_steps (sd_schedule s)) ≤ cursor s)%nat.

(** A caller's sequence of advances, with what each returned. *)
Fixpoint advance_all (s : Scheduler) (deltas : list Z) : list (list ScenarioStep) * Scheduler :=
  match deltas with
  | [] => ([], s)
  | d :: ds =>
      let '(due, s1) := Scheduler_advance s d in
      let '(dues, s2) := advance_all s1 ds in
      (due :: dues, s2)
  end.

(* ------------------------------------------------------------------ *)
(** * Lemmas *)

(** The steps due by [now]. *)
Definition due_by (now : Z) (steps : list ScenarioStep) : list ScenarioStep :=
  filter (λ s, at_ns s <= now) steps.

(** Nothing is due before the earliest step. *)
Lemma due_by_none now a steps :
  Forall (λ s, a <= at_ns s) steps → now < a → due_by now steps = [].
Proof.
  intros H Ha. unfold due_by. induction H as [|s steps Hle _ IH]; [done|].
  rewrite filter_cons, decide_False by lia. done.
Qed.

Lemma due_by_cons now s steps :
  due_by now (s :: steps) =
  if decide (at_ns s <= now) then s :: due_by now steps else due_by now steps.
Proof. unfold due_by. rewrite filter_cons. by case_decide. Qed.

(** On a sorted list, what is due is a prefix. *)
Lemma due_by_prefix now steps :
  time_sorted steps → take (length (due_by now steps)) steps = due_by now steps.
Proof.
  induction steps as [|s steps IH]; intros Hs; [done|].
  apply time_sorted_cons in Hs as [Hall Hs]. rewrite due_by_cons.
  case_decide as Hd; simpl; [by rewrite IH|].
  by rewrite (due_by_none now (at_ns s)) by (done || lia).
Qed.

Lemma due_by_length now steps : (length (due_by now steps) ≤ length steps)%nat.
Proof. apply length_filter. Qed.

Lemma due_by_mono now now' steps :
  now <= now' → (length (due_by now steps) ≤ length (due_by now' steps))%nat.
Proof.
  intros Hn. induction steps as [|s steps IH]; [done|].
  rewrite !due_by_cons. repeat case_decide; simpl; lia.
Qed.

Lemma due_by_all now steps :
  Forall (λ s, at_ns s <= now) steps → due_by now steps = steps.
Proof.
  induction 1 as [|s steps Hs _ IH]; [done|].
  rewrite due_by_cons, decide_True by done. by rewrite IH.
Qed.

Lemma cursor_loop_ge now rest c : (c ≤ cursor_loop now rest c ≤ c + length rest)%nat.
Proof.
  revert c. induction rest as [|s rest IH]; intros c; simpl; [lia|].
  case_match; [|lia]. specialize (IH (S c)). lia.
Qed.

Lemma cursor_loop_due now rest c :
  time_sorted rest → cursor_loop now rest c = (c + length (due_by now rest))%nat.
Proof.
  revert c. induction rest as [|s rest IH]; intros c Hs; cbn [cursor_loop].
  { unfold due_by. simpl. lia. }
  apply time_sorted_cons in Hs as [Hall Hs]. rewrite due_by_cons.
  destruct (Z.leb_spec (at_ns s) now).
  - rewrite decide_True by done. rewrite IH by done. simpl. lia.
  - rewrite decide_False by lia. rewrite (due_by_none now (at_ns s)) by done. simpl. lia.
Qed.

Lemma time_sorted_drop n steps : time_sorted steps → time_sorted (drop n steps).
Proof.
  revert n. induction steps as [|s steps IH]; intros n Hs; [by rewrite drop_nil|].
  destruct n as [|n]; [done|]. apply time_sorted_cons in Hs as [_ Hs]. by apply IH.
Qed.

(** Dropping a due prefix leaves the rest of the due steps. *)
Lemma due_by_drop now steps c :
  time_sorted steps → (c ≤ length (due_by now steps))%nat →
  due_by now (drop c steps) = drop c (due_by now steps).
Proof.
  revert steps. induction c as [|c IH]; intros steps Hs Hc; [done|].
  destruct steps as [|s steps]; [done|].
  apply time_sorted_cons in Hs as [Hall Hs]. rewrite due_by_cons in *.
  case_decide; simpl in *; [apply IH; [done|lia]|].
  rewrite (due_by_none now (at_ns s) steps) in Hc by (done || lia). simpl in Hc. lia.
Qed.

(** What is due by a later time is what was due before and then the rest. *)
Lemma drop_due_split c n n' steps :
  time_sorted steps → n <= n' → (c ≤ length (due_by n steps))%nat →
  drop c (due_by n steps) ++ drop (length (due_by n steps)) (due_by n' steps) =
  drop c (due_by n' steps).
Proof.
  intros Hs Hn Hc. pose proof (due_by_mono n n' steps Hn) as Hm.
  pose proof (due_by_prefix n steps Hs) as Hp. pose proof (due_by_prefix n' steps Hs) as Hp'.
  revert Hp Hp' Hm Hc. generalize (due_by n steps), (due_by n' steps). intros l l' Hl Hl' Hle Hc.
  assert (take (length l) l' = l) as Ht.
  { rewrite <- Hl' at 1. rewrite take_take, Nat.min_l by lia. done. }
  rewrite <- (take_drop (length l) l') at 2. rewrite Ht. by rewrite drop_app_le by lia.
Qed.

(** One advance: provided nothing beyond [now] has fired, the steps returned are
    the due ones not returned before, and the cursor counts the due steps. *)
Lemma advance_spec s delta :
  time_sorted (vs_steps (sd_schedule s)) →
  let now := wrap 64 (Scheduler_now_ns s + delta) in
  let due := due_by now (vs_steps (sd_schedule s)) in
  (cursor s ≤ length due)%nat →
  Scheduler_advance s delta =
    (drop (cursor s) due,
     {| sd_schedule := sd_schedule s; sd_clock := {| ns := now |}; cursor := length due |}).
Proof.
  intros Hs now due Hc. unfold Scheduler_advance, VirtualClock_advance, now_ns, VirtualClock_now.
  cbn [ns]. change (wrap 64 (ns (sd_clock s) + delta)) with now.
  rewrite cursor_loop_due by (by apply time_sorted_drop).
  rewrite due_by_drop by done. fold due. rewrite length_drop.
  replace (cursor s + (length due - cursor s))%nat with (length due) by lia.
  f_equal. rewrite <- skipn_firstn_comm. f_equal. apply (due_by_prefix now). done.
Qed.

(** A caller that only moves time forward, below the wrap-around, sees every due
    step exactly once and in order. *)
Lemma advance_all_spec s deltas :
  time_sorted (vs_steps (sd_schedule s)) →
  Forall (λ d, 0 <= d) deltas →
  0 <= Scheduler_now_ns s → Scheduler_now_ns s + foldr Z.add 0 deltas < 2 ^ 64 →
  (cursor s ≤ length (due_by (Scheduler_now_ns s) (vs_steps (sd_schedule s))))%nat →
  let now := Scheduler_now_ns s + foldr Z.add 0 deltas in
  concat (advance_all s deltas).1 =
    (if decide (deltas = []) then []
     else drop (cursor s) (due_by now (vs_steps (sd_schedule s)))) ∧
  (advance_all s deltas).2 =
    {| sd_schedule := sd_schedule s; sd_clock := {| ns := now |};
       cursor := if decide (deltas = []) then cursor s
                 else length (due_by now (vs_steps (sd_schedule s))) |}.
Proof.
  intros Hs Hd H0 Hw Hc. revert s Hs H0 Hw Hc.
  induction Hd as [|d ds Hd Hds IH]; intros s Hs H0 Hw Hc.
  { split; [done|]. destruct s as [sch [n] c]. unfold Scheduler_now_ns, now_ns, VirtualClock_now.
    simpl. by rewrite Z.add_0_r. }
  cbn [foldr advance_all] in Hw |- *. rewrite !decide_False by done.
  assert (0 <= foldr Z.add 0 ds) as Hsum.
  { clear -Hds. induction Hds; simpl in *; lia. }
  set (n := Scheduler_now_ns s) in *.
  assert (wrap 64 (n + d) = n + d) as Hnow by (apply wrap_id; width).
  pose proof (due_by_mono n (n + d) (vs_steps (sd_schedule s)) ltac:(lia)) as Hmono.
  rewrite advance_spec; [|done|]; cbv zeta; fold n; rewrite Hnow; [|lia].
  set (s1 := {| sd_schedule := sd_schedule s; sd_clock := {| ns := n + d |};
                cursor := length (due_by (n + d) (vs_steps (sd_schedule s))) |}).
  assert (Scheduler_now_ns s1 = n + d) as Hn1 by done.
  destruct (IH s1) as [IH1 IH2]; [done|rewrite Hn1; lia..|done|].
  destruct (advance_all s1 ds) as [dues s2] eqn:E. cbn [fst snd concat] in *.
  rewrite IH1, IH2, !Hn1. cbn [sd_schedule s1 cursor].
  replace (n + d + foldr Z.add 0 ds) with (n + (d + foldr Z.add 0 ds)) by lia.
  destruct (decide (ds = [])) as [->|Hne].
  - simpl. rewrite Z.add_0_r, app_nil_r. done.
  - split; [|done].
    pose proof (due_by_mono (n + d) (n + (d + foldr Z.add 0 ds)) (vs_steps (sd_schedule s))
                  ltac:(lia)) as Hmono2.
    apply drop_due_split; [done|lia|lia].
Qed.

(* ------------------------------------------------------------------ *)
(** * Properties *)

(** C19: however a caller slices time, as long as it never runs past 2^64 ns, the
    steps the scheduler has yielded are exactly the steps due by now, each once
    and in schedule order, and the cursor counts them. *)
Theorem scheduler_yields_due_steps sc v start deltas :
  validate sc = Ok v → 0 <= start → Forall (λ d, 0 <= d) deltas → deltas ≠ [] →
  let now := start + foldr Z.add 0 deltas in
  now < 2 ^ 64 →
  concat (advance_all (Scheduler_new v start) deltas).1 =
    filter (λ s, at_ns s <= now) (vs_steps v) ∧
  Scheduler_now_ns (advance_all (Scheduler_new v start) deltas).2 = now ∧
  (is_finished (advance_all (Scheduler_new v start) deltas).2 = true ↔
   Forall (λ s, at_ns s <= now) (vs_steps v)).
Proof.
  intros Hv H0 Hd Hne now Hnow. apply validated_sorted in Hv.
  destruct (advance_all_spec (Scheduler_new v start) deltas) as [H1 H2]; [done..| |].
  { simpl. lia. }
  rewrite H1, H2, !decide_False by done. cbn [cursor Scheduler_new drop sd_schedule].
  split_and!; [done..|]. unfold is_finished. cbn [cursor sd_schedule].
  rewrite bool_decide_eq_true. split.
  - intros Hlen. assert (due_by now (vs_steps v) = vs_steps v) as Hall.
    { rewrite <- (due_by_prefix now (vs_steps v) Hv) at 1. by apply take_ge. }
    rewrite <- Hall. unfold due_by. apply Forall_forall.
    by intros s [? _]%list_elem_of_filter.
  - intros Hall. by rewrite due_by_all.
Qed.

Lemma scheduler_yields_due_steps_witness :
  concat (advance_all (Scheduler_new {| vs_scenario := demo_scenario |} 0) [300; 900; 1400]).1 =
    filter (λ s, at_ns s <= 2600) (sc_steps demo_scenario) ∧
  Scheduler_now_ns (advance_all (Scheduler_new {| vs_scenario := demo_scenario |} 0)
                      [300; 900; 1400]).2 = 2600 ∧
  (is_finished (advance_all (Scheduler_new {| vs_scenario := demo_scenario |} 0)
                  [300; 900; 1400]).2 = true ↔
   Forall (λ s, at_ns s <= 2600) (sc_steps demo_scenario)).
Proof.
  apply (scheduler_yields_due_steps demo_scenario {| vs_scenario := demo_scenario |} 0
           [300; 900; 1400]).
  - vm_compute. reflexivity.
  - lia.
  - repeat (constructor; [lia|]). constructor.
  - discriminate.
  - reflexivity.
Defined.
