(* ===== verification/Trace.v ===== *)
(** crates/replay/src/trace.rs: the recorded run, its comparison and its file
    round trip.  serde_json is outside the sources: its two entry points are
    parameters.  Files are the interface [FileApi]; [FileLaws] is what reading one after a
    write promises. *)

From S2P Require Import Prelude RustStd Core.

(* ------------------------------------------------------------------ *)
(** * The code *)

Record TraceEvent := { ev_step : ScenarioStep; wall_ns : Z }.
Record Trace := { scenario_name : string; tr_seed : Z; events : list TraceEvent }.

Definition Trace_new (name : string) (seed : Z) : Trace :=
  {| scenario_name := name; tr_seed := seed; events := [] |}.

Definition record (t : Trace) (step : ScenarioStep) (wall : Z) : Trace :=
  {| scenario_name := scenario_name t; tr_seed := tr_seed t;
     events := events t ++ [{| ev_step := step; wall_ns := wall |}] |}.

(** [Iterator::eq] on the two step sequences. *)
Fixpoint iter_eq (l1 l2 : list ScenarioStep) : bool :=
  match l1, l2 with
  | [], [] => true
  | a :: l1', b :: l2' => bool_decide (a = b) && iter_eq l1' l2'
  | _, _ => false
  end.

Definition matches_schedule (t other : Trace) : bool :=
  (tr_seed t =? tr_seed other)
  && iter_eq (ev_step <$> events t) (ev_step <$> events other).

(** The parts of [std::fs] the file functions use, on a world [W]; a handle is
    the path it was opened with. *)
Class FileApi (W : Type) := {
  file_create : string → W → result io_error unit * W;
  file_write_all : string → list byte → W → result io_error unit * W;
  fs_read : string → W → result io_error (list byte) * W
}.

(** A regular file: a read that succeeds after the file was created and some bytes were
    written to it returns those bytes. *)
Class FileLaws (W : Type) `{FileApi W} : Prop :=
  read_after_write : ∀ path b (w w1 w2 w3 : W) c,
    file_create path w = (Ok tt, w1) → file_write_all path b w1 = (Ok tt, w2) →
    fs_read path w2 = (Ok c, w3) → c = b.

Section files.
Context {W : Type} `{FileApi W}.
Variable to_string_pretty : Trace → result string (list byte).
Variable from_slice : list byte → result string Trace.

Definition save (t : Trace) (path : string) (w : W) : result HarnessError unit * W :=
  match to_string_pretty t with
  | Err e => (Err (InvalidScenario e), w)
  | Ok json =>
      match file_create path w with
      | (Err e, w1) => (Err (Io e), w1)
      | (Ok _, w1) =>
          let '(r, w2) := file_write_all path json w1 in (map_err Io r, w2)
      end
  end.

Definition load (path : string) (w : W) : result HarnessError Trace * W :=
  match fs_read path w with
  | (Err e, w1) => (Err (Io e), w1)
  | (Ok b, w1) => (map_err InvalidScenario (from_slice b), w1)
  end.
End files.

(* ------------------------------------------------------------------ *)
(** * Lemmas *)

Definition trace_steps (t : Trace) : list ScenarioStep := ev_step <$> events t.

Lemma trace_steps_record t s wall : trace_steps (record t s wall) = trace_steps t ++ [s].
Proof. unfold trace_steps, record. simpl. by rewrite fmap_app. Qed.

Lemma iter_eq_spec l1 l2 : iter_eq l1 l2 = true ↔ l1 = l2.
Proof.
  revert l2. induction l1 as [|a l1 IH]; intros [|b l2]; simpl; try done.
  rewrite andb_true_iff, bool_decide_eq_true, IH. naive_solver.
Qed.

Lemma matches_schedule_spec t u :
  matches_schedule t u = true ↔ tr_seed t = tr_seed u ∧ trace_steps t = trace_steps u.
Proof. unfold matches_schedule. by rewrite andb_true_iff, Z.eqb_eq, iter_eq_spec. Qed.

(** Traces up to what a replay compares. *)
Definition same_schedule (t u : Trace) : Prop := matches_schedule t u = true.

#[global] Instance same_schedule_equivalence : Equivalence same_schedule.
Proof.
  unfold same_schedule. split.
  - intros t. by apply matches_schedule_spec.
  - intros t u. rewrite !matches_schedule_spec. naive_solver.
  - intros t u v. rewrite !matches_schedule_spec. intros [-> ->] [-> ->]. done.
Qed.

(** Recording respects the comparison, whatever the wall times. *)
#[global] Instance record_proper :
  Proper (same_schedule ==> eq ==> (λ _ _, True) ==> same_schedule) record.
Proof.
  unfold same_schedule. intros t u Htu s ? <- w1 w2 _.
  apply matches_schedule_spec in Htu as [Hs He].
  apply matches_schedule_spec. by rewrite !trace_steps_record, He.
Qed.

(* ------------------------------------------------------------------ *)
(** * Properties *)

(** [matches_schedule] holds exactly when the two traces have the same seed
    and the same steps in the same order; scenario names and wall times are not
    looked at. *)
Theorem matches_schedule_exact t u :
  matches_schedule t u = true ↔
  tr_seed t = tr_seed u ∧ ev_step <$> events t = ev_step <$> events u.
Proof. apply matches_schedule_spec. Qed.

(** What a successful [save] leaves in the file is the trace's text. *)
Lemma save_leaves_text {W} `{FileLaws W} to_string_pretty t path (w w1 : W) :
  save to_string_pretty t path w = (Ok tt, w1) →
  ∃ b, to_string_pretty t = Ok b ∧ ∀ c w2, fs_read path w1 = (Ok c, w2) → c = b.
Proof.
  unfold save. destruct (to_string_pretty t) as [json|] eqn:Ej; [|done].
  destruct (file_create path w) as [[[]|] wa] eqn:Ec; [|done].
  destruct (file_write_all path json wa) as [[[]|] wb] eqn:Ew; [|done].
  simpl. intros [= ->]. exists json. split; [done|]. intros c w2 Hr. by eapply read_after_write.
Qed.

(** A trace that was saved and is then read back without an I/O error loads as
    the very same trace.  Assumed of serde_json: decoding what it encoded gives
    the value back. *)
Theorem save_load_roundtrip {W} `{FileLaws W} to_string_pretty from_slice
    (serde_roundtrip : ∀ t b, to_string_pretty t = Ok b → from_slice b = Ok t)
    t path (w w1 : W) :
  save to_string_pretty t path w = (Ok tt, w1) →
  (∃ e w2, fs_read path w1 = (Err e, w2) ∧ load from_slice path w1 = (Err (Io e), w2)) ∨
  (∃ w2, load from_slice path w1 = (Ok t, w2)).
Proof.
  intros (b & Hb & Hr)%save_leaves_text. unfold load. destruct (fs_read path w1) as [[c|e] w2] eqn:E.
  - right. exists w2. rewrite (Hr c w2 eq_refl). by rewrite (serde_roundtrip _ _ Hb).
  - left. by exists e, w2.
Qed.

(** A file system in memory, and a serializer that works on one trace. *)
#[global] Instance mem_files : FileApi (gmap string (list byte)) := {|
  file_create p w := (Ok tt, <[p := []]> w);
  file_write_all p b w := (Ok tt, <[p := default [] (w !! p) ++ b]> w);
  fs_read p w := match w !! p with
                 | Some b => (Ok b, w)
                 | None => (Err {| io_kind := OtherKind; io_text := "not found" |}, w)
                 end
|}.
#[global] Instance mem_files_laws : FileLaws (gmap string (list byte)).
Proof.
  intros path b w0 w1 w2 w3 c [= <-] [= <-]. simpl. rewrite !lookup_insert_eq. simpl. by intros [= <- _].
Qed.
Definition demo_trace : Trace := record (Trace_new "smoke-test" 42)
  {| at_ns := 0; fault_id := "pkt-loss"; action := Arm |} 1000.

Lemma save_load_roundtrip_witness :
  let ser t := if decide (scenario_name t = scenario_name demo_trace ∧ tr_seed t = 42
                          ∧ (λ e, (ev_step e, wall_ns e)) <$> events t
                            = (λ e, (ev_step e, wall_ns e)) <$> events demo_trace)
               then Ok (bytes "{}") else Err "unsupported"%string in
  let de (_ : list byte) := Ok demo_trace : result string Trace in
  let w := <["t.json" := bytes "{}"]> (∅ : gmap string (list byte)) in
  (∃ e w2, fs_read "t.json" w = (Err e, w2) ∧ load de "t.json" w = (Err (Io e), w2)) ∨
  (∃ w2, load de "t.json" w = (Ok demo_trace, w2)).
Proof.
  intros ser de w.
  apply (save_load_roundtrip ser de) with (w := ∅).
  - intros t b. unfold ser, de. case_decide as Hd; [|done]. intros _. f_equal.
    destruct t as [n s ev], Hd as (Hn & Hs & He). simpl in *. subst.
    destruct ev as [|[st wl] [|]]; simpl in He; try discriminate.
    injection He as -> ->. reflexivity.
  - vm_compute. reflexivity.
Defined.
