(* ===== verification/Runner.v ===== *)
(** crates/replay/src/runner.rs: [Runner] ties a validated schedule to a registry
    of fault injectors, drives them in schedule order and tears them down. *)

From S2P Require Import Prelude RustStd Core Schedule Scheduler Trace.

(* ------------------------------------------------------------------ *)
(** * The code *)

Section runner.
Context {W I : Type} `{FaultInjector W I}.
(** What happens outside while the thread sleeps for that many nanoseconds. *)
Variable sleep : Z → W → W.

Record Runner := {
  r_schedule : ValidatedSchedule;
  r_injectors : gmap string I;
  r_ctx : FaultContext
}.

Definition err_unregistered (s : ScenarioStep) : HarnessError :=
  InvalidScenario ("step references fault_id " +:+ fault_id s +:+
                   " which has no registered injector").

Fixpoint check_registry (injectors : gmap string I) (steps : list ScenarioStep)
  : result HarnessError unit :=
  match steps with
  | [] => Ok tt
  | s :: rest =>
      match injectors !! fault_id s with
      | None => Err (err_unregistered s)
      | Some _ => check_registry injectors rest
      end
  end.

Definition Runner_new (schedule : ValidatedSchedule) (injectors : gmap string I)
    (ctx : FaultContext) : result HarnessError Runner :=
  match check_registry injectors (vs_steps schedule) with
  | Err e => Err e
  | Ok _ => Ok {| r_schedule := schedule; r_injectors := injectors; r_ctx := ctx |}
  end.

(** [arm] or [disarm], as the step says. *)
Definition apply_action (ctx : FaultContext) (a : StepAction) (i : I) (w : W)
  : result HarnessError unit * I * W :=
  match a with
  | Arm => fi_arm ctx i w
  | Disarm => fi_disarm i w
  end.

(** The [for step in due] loop: an error returns at once and drops the trace. *)
Fixpoint fire (ctx : FaultContext) (now : Z) (due : list ScenarioStep)
    (trace : Trace) (injectors : gmap string I) (w : W)
  : exec (result HarnessError Trace * gmap string I * W) :=
  match due with
  | [] => Done (Ok trace, injectors, w)
  | s :: rest =>
      i ← expect "fault_id existence already checked in Runner::new"
            (injectors !! fault_id s);
      let '(r, i', w') := apply_action ctx (action s) i w in
      let injectors' := <[fault_id s := i']> injectors in
      match r with
      | Err e => Done (Err e, injectors', w')
      | Ok _ => fire ctx now rest (record trace s now) injectors' w'
      end
  end.

(** The [while !scheduler.is_finished()] loop; [None] means that many rounds
    were not enough. *)
Fixpoint run_loop (fuel : nat) (ctx : FaultContext) (tick_ns : Z) (realtime : bool)
    (scheduler : Scheduler) (trace : Trace) (injectors : gmap string I) (w : W)
  : option (exec (result HarnessError Trace * gmap string I * W)) :=
  if is_finished scheduler then Some (Done (Ok trace, injectors, w))
  else match fuel with
  | O => None
  | S fuel' =>
      let w1 := if realtime then sleep tick_ns w else w in
      let '(due, scheduler') := Scheduler_advance scheduler tick_ns in
      let now := Scheduler_now_ns scheduler' in
      match fire ctx now due trace injectors w1 with
      | Panic why => Some (Panic why)
      | Done (Err e, injectors', w') => Some (Done (Err e, injectors', w'))
      | Done (Ok trace', injectors', w') =>
          run_loop fuel' ctx tick_ns realtime scheduler' trace' injectors' w'
      end
  end.

Definition run_inner (fuel : nat) (r : Runner) (tick_ns : Z) (realtime : bool) (w : W)
  : option (exec (result HarnessError Trace * Runner * W)) :=
  let scheduler := Scheduler_new (r_schedule r) 0 in
  let trace := Trace_new (vs_name (r_schedule r)) (vs_seed (r_schedule r)) in
  match run_loop fuel (r_ctx r) tick_ns realtime scheduler trace (r_injectors r) w with
  | None => None
  | Some (Panic why) => Some (Panic why)
  | Some (Done (res, injectors', w')) =>
      Some (Done (res, {| r_schedule := r_schedule r; r_injectors := injectors';
                          r_ctx := r_ctx r |}, w'))
  end.

Definition run (fuel : nat) (r : Runner) (tick_ns : Z) (w : W) :=
  run_inner fuel r tick_ns false w.
Definition run_realtime (fuel : nat) (r : Runner) (tick_ns : Z) (w : W) :=
  run_inner fuel r tick_ns true w.

Definition Runner_is_armed (r : Runner) (id : string) : option bool :=
  fi_is_armed <$> r_injectors r !! id.

(** [teardown] visits [HashMap::values_mut()], whose order the language leaves
    open: [order] lists the keys in the order of this call. *)
Definition teardown_one (st : option HarnessError * gmap string I * W) (id : string)
  : option HarnessError * gmap string I * W :=
  let '(first_err, injectors, w) := st in
  match injectors !! id with
  | None => st
  | Some i =>
      if fi_is_armed i then
        let '(r, i', w') := fi_disarm i w in
        (match r, first_err with
         | Err e, None => Some e
         | _, _ => first_err
         end, <[id := i']> injectors, w')
      else st
  end.

Definition teardown (order : list string) (r : Runner) (w : W)
  : result HarnessError unit * Runner * W :=
  let '(first_err, injectors', w') := foldl teardown_one (None, r_injectors r, w) order in
  (match first_err with Some e => Err e | None => Ok tt end,
   {| r_schedule := r_schedule r; r_injectors := injectors'; r_ctx := r_ctx r |}, w').

(** [impl Drop]: the result is discarded, and the registry goes with it. *)
Definition drop_runner (order : list string) (r : Runner) (w : W) : gmap string I * W :=
  let '(_, r', w') := teardown order r w in (r_injectors r', w').
End runner.
Arguments Runner : clear implicits.

(* ------------------------------------------------------------------ *)
(** * Lemmas *)

Section lemmas.
Context {W I : Type} `{FaultInjector W I}.
Implicit Types (injs : gmap string I) (w : W).

(** The ids of the injectors that report themselves armed. *)
Definition armed_set injs : gset string := dom (filter (λ p, fi_is_armed p.2 = true) injs).

Lemma elem_of_armed_set injs id :
  id ∈ armed_set injs ↔ ∃ i, injs !! id = Some i ∧ fi_is_armed i = true.
Proof.
  unfold armed_set. rewrite elem_of_dom. unfold is_Some.
  setoid_rewrite map_lookup_filter_Some. done.
Qed.

Lemma armed_set_insert injs id i :
  armed_set (<[id := i]> injs) =
  if fi_is_armed i then {[id]} ∪ armed_set injs else armed_set injs ∖ {[id]}.
Proof.
  apply set_eq. intros id'. rewrite elem_of_armed_set.
  setoid_rewrite lookup_insert_Some.
  split.
  - intros (j & [[-> ->]|[Hne Hj]] & Ha).
    + rewrite Ha. set_solver.
    + assert (id' ∈ armed_set injs) by (apply elem_of_armed_set; eauto).
      destruct (fi_is_armed i); set_solver.
  - destruct (decide (id = id')) as [<-|Hne].
    + intros Hin. exists i. split; [by left|]. destruct (fi_is_armed i); [done|set_solver].
    + intros Hin. assert (id' ∈ armed_set injs) as (j & ? & ?)%elem_of_armed_set
        by (destruct (fi_is_armed i); set_solver).
      exists j. split; [by right|done].
Qed.

Lemma check_registry_ok injs steps :
  check_registry injs steps = Ok tt ↔ Forall (λ s, fault_id s ∈ dom injs) steps.
Proof.
  induction steps as [|s steps IH]; simpl; [split; [constructor|done]|].
  rewrite Forall_cons, elem_of_dom. destruct (injs !! fault_id s) eqn:E.
  - rewrite IH. naive_solver.
  - split; [done|]. by intros [[? ?] _].
Qed.

Lemma Runner_new_ok schedule injs ctx r :
  Runner_new schedule injs ctx = Ok r →
  r = {| r_schedule := schedule; r_injectors := injs; r_ctx := ctx |} ∧
  Forall (λ s, fault_id s ∈ dom injs) (vs_steps schedule).
Proof.
  unfold Runner_new. destruct (check_registry _ _) as [[]|] eqn:E; [|done].
  intros [= <-]. split; [done|]. by apply check_registry_ok.
Qed.

(** ** One round of the [for] loop *)

Lemma fire_dom ctx now due trace injs w r injs' w' :
  fire ctx now due trace injs w = Done (r, injs', w') → dom injs' = dom injs.
Proof.
  revert trace injs w. induction due as [|s due IH]; intros trace injs w; simpl.
  { by intros [= _ <- _]. }
  destruct (injs !! fault_id s) as [i|] eqn:Ei; [|done]. simpl.
  assert (Hd : ∀ i', dom (<[fault_id s := i']> injs) = dom injs).
  { intros i'. rewrite dom_insert_L. apply elem_of_dom_2 in Ei. set_solver. }
  destruct (apply_action ctx (action s) i w) as [[r0 i'] w1].
  destruct r0; [intros Hf%IH; by rewrite Hf|]. intros [= _ <- _]. done.
Qed.

Lemma fire_total ctx now due trace injs w :
  Forall (λ s, fault_id s ∈ dom injs) due →
  ∃ r injs' w', fire ctx now due trace injs w = Done (r, injs', w').
Proof.
  revert trace injs w. induction due as [|s due IH]; intros trace injs w; simpl; [by eauto|].
  intros [[i Hi]%elem_of_dom Hall]%Forall_cons. rewrite Hi. simpl.
  destruct (apply_action ctx (action s) i w) as [[r0 i'] w1].
  destruct r0; [|by eauto]. apply IH. eapply Forall_impl; [exact Hall|].
  intros s'. rewrite dom_insert_L. set_solver.
Qed.

Lemma fire_ok_trace ctx now due trace injs w t injs' w' :
  fire ctx now due trace injs w = Done (Ok t, injs', w') →
  t = foldl (λ t s, record t s now) trace due.
Proof.
  revert trace injs w. induction due as [|s due IH]; intros trace injs w; simpl.
  { by intros [= <- _ _]. }
  destruct (injs !! fault_id s) as [i|]; [|done]. simpl.
  destruct (apply_action ctx (action s) i w) as [[[] i'] w1]; [apply IH|done].
Qed.

Lemma foldl_record now due trace :
  foldl (λ t s, record t s now) trace due =
  {| scenario_name := scenario_name trace; tr_seed := tr_seed trace;
     events := events trace ++ ((λ s, {| ev_step := s; wall_ns := now |}) <$> due) |}.
Proof.
  revert trace. induction due as [|s due IH]; intros trace; simpl.
  - rewrite app_nil_r. by destruct trace.
  - rewrite IH. simpl. by rewrite <- app_assoc.
Qed.

Context `{!FaultInjectorLaws W I}.

Lemma apply_action_ok ctx s i w i' w' injs :
  apply_action ctx (action s) i w = (Ok tt, i', w') →
  armed_set (<[fault_id s := i']> injs) = armed_after_step (armed_set injs) s.
Proof.
  unfold apply_action, armed_after_step. rewrite armed_set_insert.
  destruct (action s); intros E.
  - by rewrite (arm_ok _ _ _ _ _ E).
  - by rewrite (disarm_ok _ _ _ _ E).
Qed.

Lemma fire_ok_armed ctx now due trace injs w t injs' w' :
  fire ctx now due trace injs w = Done (Ok t, injs', w') →
  armed_set injs' = armed_after (armed_set injs) due.
Proof.
  revert trace injs w. induction due as [|s due IH]; intros trace injs w; simpl.
  { by intros [= _ <- _]. }
  destruct (injs !! fault_id s) as [i|]; [|done]. simpl.
  destruct (apply_action ctx (action s) i w) as [[[[]|] i'] w1] eqn:E; [|done].
  intros Hf%IH. by rewrite Hf, (apply_action_ok ctx s i w i' w1).
Qed.

(** A step that fails arms nothing and leaves every other injector as it was. *)
Lemma apply_action_err ctx s i w e i' w' injs :
  injs !! fault_id s = Some i → apply_action ctx (action s) i w = (Err e, i', w') →
  armed_set (<[fault_id s := i']> injs) ⊆ armed_set injs ∧
  (∀ id, id ≠ fault_id s → id ∈ armed_set (<[fault_id s := i']> injs) ↔ id ∈ armed_set injs) ∧
  (action s = Arm → armed_set (<[fault_id s := i']> injs) = armed_set injs).
Proof.
  intros Ei E. assert (Hcur : fi_is_armed i = true ↔ fault_id s ∈ armed_set injs).
  { rewrite elem_of_armed_set. naive_solver. }
  rewrite armed_set_insert. unfold apply_action in E. destruct (action s).
  - rewrite (arm_err _ _ _ _ _ _ E).
    destruct (fi_is_armed i); [assert (fault_id s ∈ armed_set injs) by (by apply Hcur)|
      assert (fault_id s ∉ armed_set injs) by (by rewrite <- Hcur)]; (split_and!; [..|intros _]; set_solver).
  - pose proof (disarm_err _ _ _ _ _ E) as Hd. destruct (fi_is_armed i').
    + assert (fault_id s ∈ armed_set injs) by (by apply Hcur, Hd). split_and!; [set_solver..|done].
    + split_and!; [set_solver..|done].
Qed.
End lemmas.

(* ------------------------------------------------------------------ *)
(** ** The [while] loop *)

Section loop.
Context {W I : Type} `{FaultInjector W I}.
Variable sleep : Z → W → W.
Implicit Types (injs : gmap string I) (w : W).

Lemma advance_prefix sd delta due sd' :
  (cursor sd ≤ length (vs_steps (sd_schedule sd)))%nat →
  Scheduler_advance sd delta = (due, sd') →
  sd_schedule sd' = sd_schedule sd ∧
  (cursor sd ≤ cursor sd' ≤ length (vs_steps (sd_schedule sd)))%nat ∧
  take (cursor sd) (vs_steps (sd_schedule sd)) ++ due =
    take (cursor sd') (vs_steps (sd_schedule sd)).
Proof.
  intros Hc [= <- <-]. simpl.
  pose proof (cursor_loop_ge
    (now_ns (VirtualClock_advance (sd_clock sd) delta))
    (drop (cursor sd) (vs_steps (sd_schedule sd))) (cursor sd)) as Hg.
  rewrite length_drop in Hg. split_and!; [done|lia..|]. apply take_drop_slice. lia.
Qed.

Lemma is_finished_take sd :
  (cursor sd ≤ length (vs_steps (sd_schedule sd)))%nat → is_finished sd = true →
  take (cursor sd) (vs_steps (sd_schedule sd)) = vs_steps (sd_schedule sd).
Proof. intros Hc Hf%bool_decide_eq_true. apply take_ge. lia. Qed.

(** Whatever the injectors, the world and the pacing do, a run that returns a
    trace has recorded the whole schedule in order. *)
Lemma run_loop_ok_steps fuel ctx tick rt sd trace injs w t injs' w' :
  (cursor sd ≤ length (vs_steps (sd_schedule sd)))%nat →
  trace_steps trace = take (cursor sd) (vs_steps (sd_schedule sd)) →
  run_loop sleep fuel ctx tick rt sd trace injs w = Some (Done (Ok t, injs', w')) →
  trace_steps t = vs_steps (sd_schedule sd) ∧
  tr_seed t = tr_seed trace ∧ scenario_name t = scenario_name trace ∧
  dom injs' = dom injs.
Proof.
  revert sd trace injs w. induction fuel as [|fuel IH]; intros sd trace injs w Hc Ht; cbn [run_loop];
    destruct (is_finished sd) eqn:Hf; try done.
  1, 2: intros [= <- <- <-]; by rewrite Ht, is_finished_take.
  destruct (Scheduler_advance sd tick) as [due sd'] eqn:Ha.
  destruct (advance_prefix _ _ _ _ Hc Ha) as (Hs & Hc' & Htake).
  set (now := Scheduler_now_ns sd').
  destruct (fire ctx now due trace injs (if rt then sleep tick w else w)) as [[[[t1|e] injs1] w1]|] eqn:Hfire; try done.
  pose proof (fire_ok_trace _ _ _ _ _ _ _ _ _ Hfire) as ->.
  rewrite foldl_record in *. intros Hrun. apply IH in Hrun as (?&?&?&Hd).
  - rewrite Hs in *. split_and!; [done..|]. rewrite Hd. by apply fire_dom in Hfire.
  - rewrite Hs. lia.
  - rewrite Hs, <- Htake, <- Ht. unfold trace_steps. simpl.
    rewrite fmap_app, <- list_fmap_compose. f_equal. apply list_fmap_id.
Qed.

Lemma run_loop_ok_armed `{!FaultInjectorLaws W I} A0 fuel ctx tick rt sd trace injs w t injs' w' :
  (cursor sd ≤ length (vs_steps (sd_schedule sd)))%nat →
  armed_set injs = armed_after A0 (take (cursor sd) (vs_steps (sd_schedule sd))) →
  run_loop sleep fuel ctx tick rt sd trace injs w = Some (Done (Ok t, injs', w')) →
  armed_set injs' = armed_after A0 (vs_steps (sd_schedule sd)).
Proof.
  revert sd trace injs w. induction fuel as [|fuel IH]; intros sd trace injs w Hc Ht; cbn [run_loop];
    destruct (is_finished sd) eqn:Hf; try done.
  1, 2: intros [= <- <- <-]; by rewrite Ht, is_finished_take.
  destruct (Scheduler_advance sd tick) as [due sd'] eqn:Ha.
  destruct (advance_prefix _ _ _ _ Hc Ha) as (Hs & Hc' & Htake).
  set (now := Scheduler_now_ns sd').
  destruct (fire ctx now due trace injs (if rt then sleep tick w else w)) as [[[[t1|e] injs1] w1]|] eqn:Hfire; try done.
  intros Hrun. apply IH in Hrun; rewrite Hs in *; [done|lia|].
  rewrite (fire_ok_armed _ _ _ _ _ _ _ _ _ Hfire), Ht, <- Htake.
  unfold armed_after. by rewrite foldl_app.
Qed.

(** With a complete registry the [expect] never fires. *)
Lemma run_loop_no_panic fuel ctx tick rt sd trace injs w why :
  (cursor sd ≤ length (vs_steps (sd_schedule sd)))%nat →
  Forall (λ s, fault_id s ∈ dom injs) (vs_steps (sd_schedule sd)) →
  run_loop sleep fuel ctx tick rt sd trace injs w ≠ Some (Panic why).
Proof.
  revert sd trace injs w. induction fuel as [|fuel IH]; intros sd trace injs w Hc Hreg; cbn [run_loop];
    destruct (is_finished sd); try done.
  destruct (Scheduler_advance sd tick) as [due sd'] eqn:Ha.
  destruct (advance_prefix _ _ _ _ Hc Ha) as (Hs & Hc' & Htake).
  destruct (fire_total ctx (Scheduler_now_ns sd') due trace injs (if rt then sleep tick w else w))
    as (r & injs1 & w1 & Hfire).
  { rewrite <- (take_drop (cursor sd') (vs_steps (sd_schedule sd))), <- Htake, !Forall_app in Hreg.
    by destruct Hreg as [[_ ?] _]. }
  rewrite Hfire. destruct r as [t1|e]; [|done]. apply IH; rewrite Hs; [lia|].
  by rewrite (fire_dom _ _ _ _ _ _ _ _ _ Hfire).
Qed.

Lemma run_inner_no_panic fuel (r : Runner I) tick rt w why :
  Forall (λ s, fault_id s ∈ dom (r_injectors r)) (vs_steps (r_schedule r)) →
  run_inner sleep fuel r tick rt w ≠ Some (Panic why).
Proof.
  intros Hreg. unfold run_inner.
  pose proof (run_loop_no_panic fuel (r_ctx r) tick rt (Scheduler_new (r_schedule r) 0)
    (Trace_new (vs_name (r_schedule r)) (vs_seed (r_schedule r))) (r_injectors r) w) as Hn.
  destruct (run_loop _ _ _ _ _ _ _ _ _) as [[[[? ?] ?]|why']|]; [done| |done].
  exfalso. apply (Hn why'); [simpl; lia|done|done].
Qed.

Lemma run_inner_inv fuel (r : Runner I) tick rt w res r' w' :
  run_inner sleep fuel r tick rt w = Some (Done (res, r', w')) →
  ∃ injs', r' = {| r_schedule := r_schedule r; r_injectors := injs'; r_ctx := r_ctx r |} ∧
    run_loop sleep fuel (r_ctx r) tick rt (Scheduler_new (r_schedule r) 0)
      (Trace_new (vs_name (r_schedule r)) (vs_seed (r_schedule r))) (r_injectors r) w =
    Some (Done (res, injs', w')).
Proof.
  unfold run_inner. destruct (run_loop _ _ _ _ _ _ _ _ _) as [[[[res0 injs0] w0]|]|] eqn:E;
    try done. intros [= -> <- ->]. by exists injs0.
Qed.

Lemma run_inner_ok fuel (r : Runner I) tick rt w t r' w' :
  run_inner sleep fuel r tick rt w = Some (Done (Ok t, r', w')) →
  tr_seed t = vs_seed (r_schedule r) ∧ trace_steps t = vs_steps (r_schedule r) ∧
  scenario_name t = vs_name (r_schedule r) ∧ dom (r_injectors r') = dom (r_injectors r).
Proof.
  intros (injs' & -> & Hrun)%run_inner_inv.
  apply run_loop_ok_steps in Hrun as (?&?&?&?); [done|simpl; lia|done].
Qed.
End loop.

(* ------------------------------------------------------------------ *)
(** ** Termination and exact times *)

(** The tick at which a step fires: the first positive multiple of the tick that
    is not before the step. *)
Definition fire_tick (tick at_ : Z) : Z := Z.max 1 ((at_ + tick - 1) / tick).

Lemma fire_tick_unique tick at_ k :
  0 < tick → 1 <= k → at_ <= k * tick → (k = 1 ∨ (k - 1) * tick < at_) →
  fire_tick tick at_ = k.
Proof.
  intros Ht Hk Hle Hlow. unfold fire_tick.
  assert ((at_ + tick - 1) / tick < k + 1) by (apply Z.div_lt_upper_bound; lia).
  destruct Hlow as [->|Hlow]; [lia|].
  assert (k <= (at_ + tick - 1) / tick) by (apply Z.div_le_lower_bound; lia). lia.
Qed.

(** What remains after the due prefix is later. *)
Lemma drop_due_later n steps :
  time_sorted steps → Forall (λ s, n < at_ns s) (drop (length (due_by n steps)) steps).
Proof.
  induction steps as [|s steps IH]; intros Hs; [constructor|].
  apply time_sorted_cons in Hs as [Hall Hs]. rewrite due_by_cons.
  case_decide as Hd; simpl; [by apply IH|].
  rewrite (due_by_none n (at_ns s)) by (done || lia). simpl.
  constructor; [lia|]. eapply Forall_impl; [exact Hall|]. simpl. lia.
Qed.

Section exact.
Context {W I : Type} `{FaultInjector W I}.
Variable sleep : Z → W → W.
Implicit Types (injs : gmap string I) (w : W).

Definition event_at (tick : Z) (s : ScenarioStep) : TraceEvent :=
  {| ev_step := s; wall_ns := fire_tick tick (at_ns s) * tick |}.

(** The state of the loop after [k] rounds. *)
Record after_rounds (tick : Z) (k : nat) (sd : Scheduler) : Prop := {
  ar_time : Scheduler_now_ns sd = Z.of_nat k * tick;
  ar_cursor : cursor sd =
    if decide (k = 0%nat) then 0%nat
    else length (due_by (Z.of_nat k * tick) (vs_steps (sd_schedule sd)))
}.

Lemma after_rounds_step tick k sd :
  0 < tick → time_sorted (vs_steps (sd_schedule sd)) →
  (Z.of_nat k + 1) * tick < 2 ^ 64 → after_rounds tick k sd →
  let now := (Z.of_nat k + 1) * tick in
  Scheduler_advance sd tick =
    (drop (cursor sd) (due_by now (vs_steps (sd_schedule sd))),
     {| sd_schedule := sd_schedule sd; sd_clock := {| ns := now |};
        cursor := length (due_by now (vs_steps (sd_schedule sd))) |}) ∧
  Forall (λ s, fire_tick tick (at_ns s) = Z.of_nat k + 1)
         (drop (cursor sd) (due_by now (vs_steps (sd_schedule sd)))).
Proof.
  intros Ht Hs Hw [Htime Hcur] now. set (steps := vs_steps (sd_schedule sd)) in *.
  assert (wrap 64 (Scheduler_now_ns sd + tick) = now) as Hnow.
  { rewrite Htime. subst now. rewrite wrap_id; [|width]. lia. }
  pose proof (due_by_mono (Z.of_nat k * tick) now steps ltac:(lia)) as Hmono.
  split.
  - rewrite advance_spec; cbv zeta; fold steps; rewrite ?Hnow; [done..|].
    rewrite Hcur. case_decide; lia.
  - assert (Hlow : Forall (λ s, k = 0%nat ∨ Z.of_nat k * tick < at_ns s) (drop (cursor sd) steps)).
    { rewrite Hcur. case_decide; [apply Forall_true; auto|].
      eapply Forall_impl; [by apply (drop_due_later (Z.of_nat k * tick))|]. simpl. auto. }
    rewrite <- due_by_drop; [|done|rewrite Hcur; case_decide; lia].
    unfold due_by. apply Forall_forall. intros s [Hle Hin]%list_elem_of_filter.
    rewrite Forall_forall in Hlow. specialize (Hlow s Hin).
    apply fire_tick_unique; [lia..|]. destruct Hlow as [->|Hlow]; [left|right]; lia.
Qed.

Lemma after_rounds_cursor tick k sd :
  0 < tick → after_rounds tick k sd →
  (cursor sd ≤ length (due_by ((Z.of_nat k + 1) * tick) (vs_steps (sd_schedule sd))))%nat.
Proof. intros Ht [_ ->]. case_decide; [lia|]. apply due_by_mono. lia. Qed.

Lemma after_rounds_next tick k schedule :
  let now := (Z.of_nat k + 1) * tick in
  after_rounds tick (S k)
    {| sd_schedule := schedule; sd_clock := {| ns := now |};
       cursor := length (due_by now (vs_steps schedule)) |}.
Proof.
  intros now. assert (Z.of_nat (S k) * tick = now) as Hn by (subst now; rewrite Nat2Z.inj_succ; lia).
  split; [by rewrite Hn|]. rewrite decide_False by lia. by rewrite Hn.
Qed.

(** Once the clock has reached the last step the loop is over. *)
Lemma after_rounds_finished tick k sd :
  after_rounds tick k sd → (1 ≤ k)%nat →
  Forall (λ s, at_ns s <= Z.of_nat k * tick) (vs_steps (sd_schedule sd)) →
  is_finished sd = true.
Proof.
  intros [_ Hc] Hk Hb. apply bool_decide_eq_true. rewrite Hc, decide_False by lia.
  by rewrite due_by_all.
Qed.

Lemma due_by_Forall (P : ScenarioStep → Prop) now c steps :
  Forall P steps → Forall P (drop c (due_by now steps)).
Proof.
  intros HP. apply Forall_drop. unfold due_by. apply Forall_forall.
  intros s [_ Hin]%list_elem_of_filter. rewrite Forall_forall in HP. by apply HP.
Qed.

(** The events one round records are the ones the specification assigns. *)
Lemma round_events tick k now c steps :
  time_sorted steps → now = (Z.of_nat k + 1) * tick →
  (c ≤ length (due_by now steps))%nat →
  Forall (λ s, fire_tick tick (at_ns s) = Z.of_nat k + 1) (drop c (due_by now steps)) →
  ((λ s, {| ev_step := s; wall_ns := now |}) <$> drop c (due_by now steps)) ++
    (event_at tick <$> drop (length (due_by now steps)) steps) =
  event_at tick <$> drop c steps.
Proof.
  intros Hs Hnow Hc Htick.
  rewrite <- (take_drop (length (due_by now steps)) steps) at 4.
  rewrite due_by_prefix, drop_app_le by done. rewrite fmap_app. f_equal.
  apply list_fmap_ext. intros i s Hi. unfold event_at.
  rewrite Forall_lookup in Htick. by rewrite (Htick i s Hi), Hnow.
Qed.

Lemma run_loop_exact K fuel ctx tick rt k sd trace injs w :
  0 < tick → 1 <= K → K * tick < 2 ^ 64 →
  time_sorted (vs_steps (sd_schedule sd)) →
  Forall (λ s, at_ns s <= K * tick) (vs_steps (sd_schedule sd)) →
  Forall (λ s, fault_id s ∈ dom injs) (vs_steps (sd_schedule sd)) →
  after_rounds tick k sd → Z.of_nat k <= K → K <= Z.of_nat (k + fuel) →
  ∃ r injs' w',
    run_loop sleep fuel ctx tick rt sd trace injs w = Some (Done (r, injs', w')) ∧
    ∀ t, r = Ok t →
      events t = events trace ++ (event_at tick <$> drop (cursor sd) (vs_steps (sd_schedule sd))).
Proof.
  intros Ht HK Hw Hs Hb Hreg Hk HkK Hfuel. revert k sd trace injs w Hs Hb Hreg Hk HkK Hfuel.
  induction fuel as [|fuel IH]; intros k sd trace injs w Hs Hb Hreg Hk HkK Hfuel;
    cbn [run_loop]; destruct (is_finished sd) eqn:Hf.
  1, 3: do 3 eexists; split; [done|]; intros t [= <-];
    apply bool_decide_eq_true in Hf; rewrite drop_ge by done; by rewrite app_nil_r.
  all: assert (Z.of_nat k ≠ K) as Hne
    by (intros <-; by rewrite (after_rounds_finished tick k sd) in Hf by (done || lia)).
  { lia. }
  assert (Hw' : (Z.of_nat k + 1) * tick < 2 ^ 64) by nia.
  destruct (after_rounds_step tick k sd Ht Hs Hw' Hk) as [-> Htick].
  pose proof (after_rounds_cursor tick k sd Ht Hk) as Hcur.
  pose proof (after_rounds_next tick k (sd_schedule sd)) as Hnext.
  cbv beta iota zeta in *. change (Scheduler_now_ns _) with ((Z.of_nat k + 1) * tick).
  edestruct fire_total as (r & injs1 & w1 & Hfire); [by apply due_by_Forall|].
  rewrite Hfire. destruct r as [t1|e]; [|by do 3 eexists; split; [done|]].
  pose proof (fire_ok_trace _ _ _ _ _ _ _ _ _ Hfire) as ->. rewrite foldl_record.
  match type of Hnext with after_rounds _ _ ?sd' =>
    edestruct (IH (S k) sd') as (r & injs' & w' & Hrun & Hev)
  end; [exact Hs|exact Hb| |exact Hnext|lia..|].
  { by rewrite (fire_dom _ _ _ _ _ _ _ _ _ Hfire). }
  exists r, injs', w'. split; [exact Hrun|]. intros t Hr. rewrite (Hev t Hr).
  cbn [events cursor sd_schedule]. rewrite <- app_assoc. f_equal.
  by apply (round_events tick k).
Qed.

(** Rounds until the last step is due. *)
Definition ticks_needed (tick : Z) (steps : list ScenarioStep) : Z :=
  foldr (λ s n, Z.max (fire_tick tick (at_ns s)) n) 1 steps.

Lemma ticks_needed_pos tick steps : 1 <= ticks_needed tick steps.
Proof. induction steps; simpl; lia. Qed.

Lemma ticks_needed_reaches tick steps :
  0 < tick → Forall (λ s, at_ns s <= ticks_needed tick steps * tick) steps.
Proof.
  intros Ht. assert (Hat : ∀ s, at_ns s <= fire_tick tick (at_ns s) * tick).
  { intros s. unfold fire_tick.
    pose proof (Z.div_mod (at_ns s + tick - 1) tick ltac:(lia)).
    pose proof (Z.mod_pos_bound (at_ns s + tick - 1) tick Ht). nia. }
  induction steps as [|s steps IH]; [constructor|]. simpl. constructor.
  - specialize (Hat s). nia.
  - eapply Forall_impl; [exact IH|]. intros s'. simpl. nia.
Qed.

Lemma run_inner_exact (r : Runner I) fuel tick rt w :
  let steps := vs_steps (r_schedule r) in
  0 < tick → ticks_needed tick steps * tick < 2 ^ 64 → time_sorted steps →
  Forall (λ s, fault_id s ∈ dom (r_injectors r)) steps →
  ticks_needed tick steps <= Z.of_nat fuel →
  ∃ res r' w', run_inner sleep fuel r tick rt w = Some (Done (res, r', w')) ∧
    ∀ t, res = Ok t → events t = event_at tick <$> steps.
Proof.
  intros steps Ht Hw Hs Hreg Hf. unfold run_inner.
  edestruct (run_loop_exact (ticks_needed tick steps) fuel (r_ctx r) tick rt 0
    (Scheduler_new (r_schedule r) 0)
    (Trace_new (vs_name (r_schedule r)) (vs_seed (r_schedule r))) (r_injectors r) w)
    as (res & injs' & w' & -> & Hev);
    [done|apply ticks_needed_pos|done|done|by apply ticks_needed_reaches|done
    |by split|pose proof (ticks_needed_pos tick steps); lia|lia|].
  do 3 eexists. split; [done|]. exact Hev.
Qed.

(** While the clock stays below the first step nothing ever fires. *)
Lemma run_loop_unreached s rest k fuel ctx tick rt sd trace injs w :
  vs_steps (sd_schedule sd) = s :: rest →
  (∀ k : nat, wrap 64 (Z.of_nat k * tick) < at_ns s) →
  cursor sd = 0%nat → Scheduler_now_ns sd = wrap 64 (Z.of_nat k * tick) →
  run_loop sleep fuel ctx tick rt sd trace injs w = None.
Proof.
  intros Hs Hk. revert k sd trace injs w Hs. induction fuel as [|fuel IH];
    intros k sd trace injs w Hs Hc Hn; cbn [run_loop].
  all: assert (is_finished sd = false) as ->
    by (apply bool_decide_eq_false; rewrite Hs, Hc; simpl; lia).
  { done. }
  assert (Hnow : wrap 64 (ns (sd_clock sd) + tick) = wrap 64 (Z.of_nat (S k) * tick)).
  { change (ns (sd_clock sd)) with (Scheduler_now_ns sd). rewrite Hn, wrap_add_l.
    f_equal. rewrite Nat2Z.inj_succ. lia. }
  unfold Scheduler_advance, VirtualClock_advance, now_ns, VirtualClock_now. cbn [ns].
  rewrite Hnow, Hc, Hs. cbn [drop cursor_loop].
  rewrite (proj2 (Z.leb_gt _ _) (Hk (S k))). simpl. by apply (IH (S k)).
Qed.
End exact.

(* ------------------------------------------------------------------ *)
(** ** The schedule as a sequential program *)

(** What a run is meant to do, with no clock and no trace: apply the steps one
    after the other and stop at the first error. *)
Section spec.
Context {W I : Type} `{FaultInjector W I}.
Implicit Types (injs : gmap string I) (w : W).

Fixpoint exec_steps (ctx : FaultContext) (steps : list ScenarioStep) injs w
  : exec (result HarnessError unit * gmap string I * W) :=
  match steps with
  | [] => Done (Ok tt, injs, w)
  | s :: rest =>
      i ← expect "fault_id existence already checked in Runner::new" (injs !! fault_id s);
      let '(r, i', w') := apply_action ctx (action s) i w in
      match r with
      | Err e => Done (Err e, <[fault_id s := i']> injs, w')
      | Ok _ => exec_steps ctx rest (<[fault_id s := i']> injs) w'
      end
  end.

Definition forget_trace (x : exec (result HarnessError Trace * gmap string I * W))
  : exec (result HarnessError unit * gmap string I * W) :=
  '(r, injs, w) ← x; Done ((_ ← r; Ok tt), injs, w).

Lemma fire_exec ctx now due trace injs w :
  forget_trace (fire ctx now due trace injs w) = exec_steps ctx due injs w.
Proof.
  revert trace injs w. induction due as [|s due IH]; intros trace injs w; [done|]. simpl.
  destruct (injs !! fault_id s) as [i|]; [|done]. simpl.
  destruct (apply_action ctx (action s) i w) as [[[] i'] w']; [apply IH|done].
Qed.

Lemma exec_steps_app ctx l1 l2 injs w :
  exec_steps ctx (l1 ++ l2) injs w =
  ('(r, injs', w') ← exec_steps ctx l1 injs w;
   match r with
   | Err e => Done (Err e, injs', w')
   | Ok _ => exec_steps ctx l2 injs' w'
   end).
Proof.
  revert injs w. induction l1 as [|s l1 IH]; intros injs w; [done|]. simpl.
  destruct (injs !! fault_id s) as [i|]; [|done]. simpl.
  destruct (apply_action ctx (action s) i w) as [[[] i'] w']; [apply IH|done].
Qed.

Variable sleep : Z → W → W.

Lemma run_loop_exec fuel ctx tick sd trace injs w x :
  (cursor sd ≤ length (vs_steps (sd_schedule sd)))%nat →
  run_loop sleep fuel ctx tick false sd trace injs w = Some x →
  forget_trace x = exec_steps ctx (drop (cursor sd) (vs_steps (sd_schedule sd))) injs w.
Proof.
  revert sd trace injs w. induction fuel as [|fuel IH]; intros sd trace injs w Hc;
    cbn [run_loop]; destruct (is_finished sd) eqn:Hf; try done.
  1, 2: intros [= <-]; apply bool_decide_eq_true in Hf; by rewrite drop_ge by done.
  destruct (Scheduler_advance sd tick) as [due sd'] eqn:Ha.
  destruct (advance_prefix _ _ _ _ Hc Ha) as (Hs & Hc' & Htake).
  assert (drop (cursor sd) (vs_steps (sd_schedule sd)) =
          due ++ drop (cursor sd') (vs_steps (sd_schedule sd))) as ->.
  { rewrite <- (take_drop (cursor sd') (vs_steps (sd_schedule sd))) at 1.
    rewrite <- Htake, <- app_assoc, drop_app_ge by (rewrite length_take; lia).
    rewrite length_take, Nat.min_l, Nat.sub_diag by lia. done. }
  rewrite exec_steps_app, <- (fire_exec ctx (Scheduler_now_ns sd') due trace injs w).
  destruct (fire ctx (Scheduler_now_ns sd') due trace injs w) as [[[[t|e] injs1] w1]|];
    simpl; [|by intros [= <-]..].
  intros Hrun. apply IH in Hrun; rewrite Hs in *; [done|lia].
Qed.
End spec.

(* ------------------------------------------------------------------ *)
(** ** Teardown *)

Section teardown.
Context {W I : Type} `{FaultInjector W I} `{!FaultInjectorLaws W I}.
Implicit Types (injs : gmap string I) (w : W).

(** An injector that is still armed afterwards had its own [disarm] fail. *)
Definition disarm_failed injs (id : string) (i' : I) : Prop :=
  ∃ i w e w', injs !! id = Some i ∧ fi_is_armed i = true ∧ fi_disarm i w = (Err e, i', w').

Lemma teardown_one_other err injs w id id' :
  id ≠ id' → (teardown_one (err, injs, w) id).1.2 !! id' = injs !! id'.
Proof.
  intros Hne. unfold teardown_one. destruct (injs !! id) as [i|]; [|done].
  destruct (fi_is_armed i); [|done]. destruct (fi_disarm i w) as [[r i'] w'].
  simpl. by rewrite lookup_insert_ne.
Qed.

Lemma teardown_loop order err injs w err' injs' w' :
  NoDup order →
  foldl teardown_one (err, injs, w) order = (err', injs', w') →
  (is_Some err → err' = err) ∧
  (∀ id, id ∉ order → injs' !! id = injs !! id) ∧
  (∀ id i', id ∈ order → injs' !! id = Some i' → fi_is_armed i' = true →
     disarm_failed injs id i' ∧ is_Some err').
Proof.
  intros Hnd. revert err injs w. induction Hnd as [|id order Hin Hnd IH]; intros err injs w.
  { simpl. intros [= <- <- <-]. split_and!; [done|done|set_solver]. }
  cbn [foldl]. destruct (teardown_one (err, injs, w) id) as [[err1 injs1] w1] eqn:E.
  intros (He & Hout & Harm)%IH.
  assert (Hoth : ∀ id', id ≠ id' → injs1 !! id' = injs !! id').
  { intros id' Hne. pose proof (teardown_one_other err injs w id id' Hne) as Ho.
    by rewrite E in Ho. }
  assert (Herr : (is_Some err → err1 = err) ∧
    ∀ i', injs1 !! id = Some i' → fi_is_armed i' = true →
          disarm_failed injs id i' ∧ is_Some err1).
  { unfold teardown_one in E. destruct (injs !! id) as [i|] eqn:Ei.
    2: { simplify_eq. naive_solver. }
    destruct (fi_is_armed i) eqn:Ea; [|simplify_eq; split; naive_solver congruence].
    destruct (fi_disarm i w) as [[r i0] w0] eqn:Ed. simplify_eq. split.
    - intros [e0 ->]. by destruct r.
    - intros i'. rewrite lookup_insert_eq. intros [= ->] Ha'.
      destruct r as [[]|e1]; [by rewrite (disarm_ok _ _ _ _ Ed) in Ha'|].
      split; [by exists i, w, e1, w1|]. destruct err; eauto. }
  destruct Herr as [Hke Hid]. split_and!.
  - intros Hs. rewrite He; [auto|]. rewrite Hke by done. done.
  - intros id' Hni. rewrite Hout by set_solver. apply Hoth. set_solver.
  - intros id' i' Hi' Hl Ha. destruct (decide (id = id')) as [<-|Hne].
    + rewrite (Hout id Hin) in Hl. destruct (Hid i' Hl Ha) as [? Hs]. by rewrite He.
    + destruct (Harm id' i') as [(i & w0 & e & w2 & Hi & ?) ?]; [set_solver|done..|].
      split; [|done]. exists i, w0, e, w2. by rewrite <- Hoth.
Qed.
End teardown.

(* ------------------------------------------------------------------ *)
(** * Properties *)

(** The test double of runner.rs: it counts its calls and never fails. *)
Record CountingInjector := {
  ci_id : string; ci_armed : bool; arm_calls : nat; disarm_calls : nat
}.
#[global] Instance counting_injector : FaultInjector unit CountingInjector := {|
  fi_id := ci_id;
  fi_arm _ i w := (Ok tt, {| ci_id := ci_id i; ci_armed := true;
                             arm_calls := S (arm_calls i); disarm_calls := disarm_calls i |}, w);
  fi_disarm i w := (Ok tt, {| ci_id := ci_id i; ci_armed := false;
                              arm_calls := arm_calls i; disarm_calls := S (disarm_calls i) |}, w);
  fi_is_armed := ci_armed
|}.
#[global] Instance counting_laws : FaultInjectorLaws unit CountingInjector.
Proof. split; simpl; naive_solver. Qed.

Definition counting (id : string) : CountingInjector :=
  {| ci_id := id; ci_armed := false; arm_calls := 0; disarm_calls := 0 |}.
Definition demo_registry : gmap string CountingInjector :=
  {["a" := counting "a"; "b" := counting "b"]}.
Definition demo_ctx : FaultContext := {| ctx_clock := System; ctx_seed := 42 |}.
Definition demo_schedule : ValidatedSchedule := {| vs_scenario := demo_scenario |}.
Definition demo_runner : Runner CountingInjector :=
  {| r_schedule := demo_schedule; r_injectors := demo_registry; r_ctx := demo_ctx |}.
Definition no_effect (_ : Z) (w : unit) : unit := w.

(** C1: bit-exact replay.  Any two runs of one schedule that return a trace, with
    whatever injectors, worlds, tick sizes and pacing, return traces that
    [matches_schedule] accepts. *)
Theorem replay_matches {W1 I1 W2 I2} `{FaultInjector W1 I1} `{FaultInjector W2 I2}
    sleep1 sleep2 fuel1 fuel2 (r1 : Runner I1) (r2 : Runner I2) tick1 tick2 rt1 rt2
    (w1 w1' : W1) (w2 w2' : W2) t1 t2 r1' r2' :
  r_schedule r1 = r_schedule r2 →
  run_inner sleep1 fuel1 r1 tick1 rt1 w1 = Some (Done (Ok t1, r1', w1')) →
  run_inner sleep2 fuel2 r2 tick2 rt2 w2 = Some (Done (Ok t2, r2', w2')) →
  matches_schedule t1 t2 = true.
Proof.
  intros Hs H1 H2. apply matches_schedule_spec.
  apply run_inner_ok in H1 as (-> & -> & _). apply run_inner_ok in H2 as (-> & -> & _).
  by rewrite Hs.
Qed.

Definition demo_events (tick : Z) : Trace :=
  {| scenario_name := "demo"; tr_seed := 42; events := event_at tick <$> sc_steps demo_scenario |}.

Lemma replay_matches_witness : matches_schedule (demo_events 500) (demo_events 3000) = true.
Proof.
  eapply (replay_matches no_effect no_effect 20 20 demo_runner demo_runner 500 3000 true false tt _ tt);
    [reflexivity|vm_compute; reflexivity|vm_compute; reflexivity].
Defined.

(** C2: with a positive tick and no 64-bit wrap-around before the last step, a run
    of a validated schedule against a registry that [Runner::new] accepted
    returns after at most [ticks_needed] rounds, never panics, and on success
    has recorded every step at the first tick boundary not before it.  In
    particular [wall_ns] is virtual time: a function of the schedule and the tick
    alone. *)
Theorem run_completes_with_exact_events {W I} `{FaultInjector W I} sleep sc v
    (injs : gmap string I) ctx r fuel tick rt (w : W) :
  validate sc = Ok v → Runner_new v injs ctx = Ok r → 0 < tick →
  ticks_needed tick (vs_steps v) * tick < 2 ^ 64 →
  ticks_needed tick (vs_steps v) <= Z.of_nat fuel →
  ∃ res r' w', run_inner sleep fuel r tick rt w = Some (Done (res, r', w')) ∧
    ∀ t, res = Ok t →
      t = {| scenario_name := sc_name sc; tr_seed := sc_seed sc;
             events := event_at tick <$> sc_steps sc |}.
Proof.
  intros Hv Hr Ht Hw Hf. pose proof (validated_same _ _ Hv) as Hsc.
  apply Runner_new_ok in Hr as [Hr Hreg]. apply validated_sorted in Hv as Hsort.
  edestruct (run_inner_exact sleep r fuel tick rt w) as (res & r' & w' & Hrun & Hev);
    [exact Ht|by subst r..|].
  exists res, r', w'. split; [exact Hrun|]. intros t ->. specialize (Hev t eq_refl).
  apply run_inner_ok in Hrun as (Hs & _ & Hn & _). destruct t as [n s e]. simpl in *. subst.
  reflexivity.
Qed.

Lemma run_completes_with_exact_events_witness :
  ∃ res r' w', run_inner no_effect 16 demo_runner 500 true tt = Some (Done (res, r', w')) ∧
    ∀ t, res = Ok t →
      t = {| scenario_name := "demo"; tr_seed := 42;
             events := event_at 500 <$> sc_steps demo_scenario |}.
Proof.
  apply (run_completes_with_exact_events no_effect demo_scenario demo_schedule demo_registry
           demo_ctx demo_runner 16 500 true tt); try (vm_compute; reflexivity).
  vm_compute. discriminate.
Defined.

(** C31: a run whose clock never reaches the first step never returns: [tick_ns = 0]
    with a step after time zero, or a tick whose multiples skip over the step when
    the 64-bit clock wraps.  No amount of rounds finishes it. *)
Theorem run_never_returns_if_unreached {W I} `{FaultInjector W I} sleep
    (r : Runner I) s rest tick rt (w : W) :
  vs_steps (r_schedule r) = s :: rest →
  (∀ k : nat, wrap 64 (Z.of_nat k * tick) < at_ns s) →
  ∀ fuel, run_inner sleep fuel r tick rt w = None.
Proof.
  intros Hs Hk fuel. unfold run_inner. rewrite (run_loop_unreached sleep s rest 0); done.
Qed.

Definition late_runner (t : Z) : Runner CountingInjector :=
  {| r_schedule := {| vs_scenario := {| sc_name := "late"; sc_seed := 1;
                        sc_steps := [demo_step t "a" Arm] |} |};
     r_injectors := demo_registry; r_ctx := demo_ctx |}.

Lemma run_never_returns_if_unreached_witness :
  (∀ fuel, run_inner no_effect fuel (late_runner 5) 0 false tt = None) ∧
  (∀ fuel, run_inner no_effect fuel (late_runner u64_max) (2 ^ 63) false tt = None).
Proof.
  split.
  - apply (run_never_returns_if_unreached no_effect (late_runner 5) (demo_step 5 "a" Arm) [] 0);
      [reflexivity|]. intros k. rewrite Z.mul_0_r. reflexivity.
  - apply (run_never_returns_if_unreached no_effect (late_runner u64_max)
             (demo_step u64_max "a" Arm) [] (2 ^ 63)); [reflexivity|].
    intros k. unfold wrap. change (2 ^ 64) with (2 * 2 ^ 63).
    rewrite Z.mul_mod_distr_r by lia. pose proof (Z.mod_pos_bound (Z.of_nat k) 2).
    change (at_ns _) with u64_max. unfold u64_max. lia.
Defined.

(** C3: [Runner::run] refines the schedule read as a sequential program: whatever
    the tick, the injectors and the world end up exactly as if the steps had been
    applied one after the other, stopping at the first error, and that error is
    the one returned. *)
Theorem run_refines_sequential {W I} `{FaultInjector W I} sleep fuel (r : Runner I) tick
    (w w' : W) res r' :
  run sleep fuel r tick w = Some (Done (res, r', w')) →
  exec_steps (r_ctx r) (vs_steps (r_schedule r)) (r_injectors r) w =
  Done ((_ ← res; Ok tt), r_injectors r', w').
Proof.
  intros (injs' & -> & Hrun)%run_inner_inv. apply run_loop_exec in Hrun; [|simpl; lia].
  cbn [cursor sd_schedule Scheduler_new] in Hrun. rewrite drop_0 in Hrun. by rewrite <- Hrun.
Qed.

Definition demo_final : Runner CountingInjector :=
  {| r_schedule := demo_schedule;
     r_injectors :=
       {["a" := {| ci_id := "a"; ci_armed := true; arm_calls := 2; disarm_calls := 1 |};
         "b" := {| ci_id := "b"; ci_armed := true; arm_calls := 1; disarm_calls := 0 |}]};
     r_ctx := demo_ctx |}.

Lemma run_refines_sequential_witness :
  exec_steps demo_ctx (sc_steps demo_scenario) demo_registry tt =
  Done (Ok tt, r_injectors demo_final, tt).
Proof.
  apply (run_refines_sequential no_effect 20 demo_runner 500 tt tt (Ok (demo_events 500))
           demo_final).
  vm_compute. reflexivity.
Defined.

(** C7: after a run that succeeds, starting from a registry with nothing armed, an
    injector is armed exactly when the schedule's last step for it was an arm. *)
Theorem run_ok_armed_set {W I} `{FaultInjector W I} `{!FaultInjectorLaws W I}
    sleep fuel (r : Runner I) tick rt (w w' : W) t r' :
  armed_set (r_injectors r) = ∅ →
  run_inner sleep fuel r tick rt w = Some (Done (Ok t, r', w')) →
  armed_set (r_injectors r') = armed_after ∅ (vs_steps (r_schedule r)) ∧
  dom (r_injectors r') = dom (r_injectors r).
Proof.
  intros H0 Hrun. split; [|by apply run_inner_ok in Hrun as (_ & _ & _ & ?)].
  apply run_inner_inv in Hrun as (injs' & -> & Hrun).
  by apply (run_loop_ok_armed sleep ∅) in Hrun; [|simpl; lia|].
Qed.

Lemma run_ok_armed_set_witness :
  armed_set (r_injectors demo_final) = armed_after ∅ (sc_steps demo_scenario) ∧
  dom (r_injectors demo_final) = dom demo_registry.
Proof.
  apply (run_ok_armed_set no_effect 20 demo_runner 500 true tt tt (demo_events 500) demo_final);
    vm_compute; reflexivity.
Defined.

Lemma teardown_spec {W I} `{FaultInjector W I} `{!FaultInjectorLaws W I}
    order (r : Runner I) (w w' : W) res r' :
  order ≡ₚ (map_to_list (r_injectors r)).*1 →
  teardown order r w = (res, r', w') →
  (∀ id i', r_injectors r' !! id = Some i' → fi_is_armed i' = true →
     disarm_failed (r_injectors r) id i' ∧ is_ok res = false) ∧
  (is_ok res = true → armed_set (r_injectors r') = ∅) ∧
  (∀ id, id ∉ dom (r_injectors r) → r_injectors r' !! id = None).
Proof.
  intros Hperm. unfold teardown.
  destruct (foldl _ _ _) as [[err injs'] w0] eqn:E. intros [= <- <- <-]. simpl.
  assert (Hin : ∀ id, id ∈ order ↔ id ∈ dom (r_injectors r)).
  { intros id. rewrite Hperm, elem_of_dom, list_elem_of_fmap. unfold is_Some. split.
    - intros ([k i] & -> & ?%elem_of_map_to_list). eauto.
    - intros [i ?]. exists (id, i). by rewrite elem_of_map_to_list. }
  apply teardown_loop in E as (_ & Hout & Harm).
  2: { rewrite Hperm. apply NoDup_fst_map_to_list. }
  assert (Hno : ∀ id, id ∉ dom (r_injectors r) → injs' !! id = None).
  { intros id Hid. rewrite Hout by (by rewrite Hin). by apply not_elem_of_dom. }
  assert (Harmed : ∀ id i', injs' !! id = Some i' → fi_is_armed i' = true →
    disarm_failed (r_injectors r) id i' ∧ is_Some err).
  { intros id i' Hl Ha. apply Harm; [|done..]. apply Hin, dec_stable. intros Hn.
    by rewrite Hno in Hl. }
  split_and!; [| |done].
  - intros id i' Hl Ha. destruct (Harmed id i' Hl Ha) as [? [e ->]]. done.
  - intros Hok. apply set_eq. intros id. rewrite elem_of_armed_set. split; [|set_solver].
    intros (i' & Hl & Ha). destruct (Harmed id i' Hl Ha) as [_ [e ->]]. done.
Qed.

(** C9: [teardown], and with it the drop guard, tries every armed injector in
    whatever order the map yields them: an injector is still armed afterwards only
    if its own [disarm] failed, and then an error is returned; success means
    nothing is left armed.  One failure never shields another injector. *)
Theorem teardown_disarms_all {W I} `{FaultInjector W I} `{!FaultInjectorLaws W I}
    order (r : Runner I) (w w' : W) res r' :
  order ≡ₚ (map_to_list (r_injectors r)).*1 →
  teardown order r w = (res, r', w') →
  (∀ id i', r_injectors r' !! id = Some i' → fi_is_armed i' = true →
     disarm_failed (r_injectors r) id i' ∧ is_ok res = false) ∧
  (is_ok res = true → armed_set (r_injectors r') = ∅) ∧
  (∀ id, id ∉ dom (r_injectors r) → r_injectors r' !! id = None).
Proof. apply teardown_spec. Qed.

Lemma teardown_disarms_all_witness :
  let r := {| r_schedule := demo_schedule;
              r_injectors := {["a" := {| ci_id := "a"; ci_armed := true;
                                         arm_calls := 1; disarm_calls := 0 |}]};
              r_ctx := demo_ctx |} in
  let r' := {| r_schedule := demo_schedule;
               r_injectors := {["a" := {| ci_id := "a"; ci_armed := false;
                                          arm_calls := 1; disarm_calls := 1 |}]};
               r_ctx := demo_ctx |} in
  (∀ id i', r_injectors r' !! id = Some i' → fi_is_armed i' = true →
     disarm_failed (r_injectors r) id i' ∧ is_ok (Ok tt : result HarnessError unit) = false) ∧
  (is_ok (Ok tt : result HarnessError unit) = true → armed_set (r_injectors r') = ∅) ∧
  (∀ id, id ∉ dom (r_injectors r) → r_injectors r' !! id = None).
Proof.
  intros r r'. apply (teardown_disarms_all ["a"%string] r tt tt (Ok tt) r').
  - reflexivity.
  - vm_compute. reflexivity.
Defined.
