(* ===== verification/RunnerFacts.v ===== *)
(** More of crates/replay/src/runner.rs: how often a run calls its injectors, how much real
    time [run_realtime] lets pass, the types of what it records, and where a run that fails
    has stopped. *)

From S2P Require Import Prelude RustStd Core Schedule Scheduler Trace Runner.

(* ------------------------------------------------------------------ *)
(** * Calls *)

(** The steps of one injector with one action. *)
Definition steps_for (id : string) (a : StepAction) (steps : list ScenarioStep) : nat :=
  length (filter (λ s, fault_id s = id ∧ action s = a) steps).

Lemma steps_for_cons id a s steps :
  steps_for id a (s :: steps) =
  ((if decide (fault_id s = id ∧ action s = a) then 1 else 0) + steps_for id a steps)%nat.
Proof. unfold steps_for. rewrite filter_cons. by case_decide. Qed.

(** A call on a counting injector adds one to one of its counters. *)
Definition counted_from (i i' : CountingInjector) (arms disarms : nat) : Prop :=
  arm_calls i' = (arm_calls i + arms)%nat ∧ disarm_calls i' = (disarm_calls i + disarms)%nat.

Lemma exec_steps_counts ctx steps injs w injs' w' :
  exec_steps (I := CountingInjector) (W := unit) ctx steps injs w = Done (Ok tt, injs', w') →
  ∀ id i, injs !! id = Some i →
  ∃ i', injs' !! id = Some i' ∧ counted_from i i' (steps_for id Arm steps) (steps_for id Disarm steps).
Proof.
  revert injs w. induction steps as [|s steps IH]; intros injs w; cbn [exec_steps].
  { intros [= <- <-] id i Hi. exists i. split; [done|]. unfold counted_from, steps_for. cbn. lia. }
  destruct (injs !! fault_id s) as [i0|] eqn:E0; [|done]. cbn [expect mbind exec_bind].
  destruct (apply_action ctx (action s) i0 w) as [[[[]|e] i1] w1] eqn:Ea; [|done].
  intros Hrun id i Hi. rewrite !steps_for_cons.
  assert (Hc : counted_from i0 i1 (if decide (action s = Arm) then 1 else 0)
                 (if decide (action s = Disarm) then 1 else 0)).
  { destruct (action s); cbn in Ea; injection Ea as <- <-; cbn;
      unfold counted_from; cbn; repeat case_decide; try done; cbn; lia. }
  destruct (decide (fault_id s = id)) as [<-|Hne].
  - destruct (IH _ _ Hrun (fault_id s) i1) as (i' & Hi' & Hc'); [apply lookup_insert_eq|].
    exists i'. split; [done|]. assert (i = i0) as -> by congruence.
    unfold counted_from in *. destruct Hc as [Ha0 Hd0], Hc' as [Ha' Hd']. rewrite Ha', Hd', Ha0, Hd0.
    destruct (action s); repeat case_decide; naive_solver lia.
  - destruct (IH _ _ Hrun id i) as (i' & Hi' & Hc'); [by rewrite lookup_insert_ne|].
    exists i'. split; [done|]. by rewrite !decide_False by naive_solver.
Qed.

(* ------------------------------------------------------------------ *)
(** * Real time *)

Lemma due_by_everything now steps :
  (length steps ≤ length (due_by now steps))%nat → Forall (λ s, at_ns s <= now) steps.
Proof.
  induction steps as [|s steps IH]; [by constructor|]. rewrite due_by_cons. case_decide; cbn [length].
  - intros ?. constructor; [done|]. apply IH. lia.
  - intros ?. pose proof (due_by_length now steps). lia.
Qed.

Section pacing.
Context {W I : Type} `{FaultInjector W I}.
Variable sleep : Z → W → W.
(** The real time that has passed, as far as the runner makes it pass: a sleep takes its
    duration, a call on an injector is not counted. *)
Variable slept : W → Z.
Hypothesis sleep_takes : ∀ n w, slept (sleep n w) = slept w + n.
Hypothesis arm_takes_none : ∀ ctx (i : I) w, slept (fi_arm ctx i w).2 = slept w.
Hypothesis disarm_takes_none : ∀ (i : I) w, slept (fi_disarm i w).2 = slept w.

Lemma fire_slept ctx now due trace injs w r injs' w' :
  fire ctx now due trace injs w = Done (r, injs', w') → slept w' = slept w.
Proof.
  revert trace injs w. induction due as [|s due IH]; intros trace injs w; cbn [fire].
  { by intros [= _ _ <-]. }
  destruct (injs !! fault_id s) as [i|]; [|done]. cbn [expect mbind exec_bind].
  assert (Hs : slept (apply_action ctx (action s) i w).2 = slept w) by (destruct (action s); [apply arm_takes_none|apply disarm_takes_none]).
  destruct (apply_action ctx (action s) i w) as [[[u|e] i'] w1]; cbn in Hs.
  - intros Hf. rewrite <- Hs. by eapply IH.
  - by intros [= _ _ <-].
Qed.

(** Without pacing no time passes. *)
Lemma run_loop_unpaced fuel ctx tick sd trace injs w r injs' w' :
  run_loop sleep fuel ctx tick false sd trace injs w = Some (Done (r, injs', w')) → slept w' = slept w.
Proof.
  revert sd trace injs w. induction fuel as [|fuel IH]; intros sd trace injs w; cbn [run_loop];
    (destruct (is_finished sd); [by intros [= _ _ <-]|]); [done|].
  destruct (Scheduler_advance sd tick) as [due sd'].
  destruct (fire _ _ _ _ _ _) as [[[[t1|e] injs1] w1]|] eqn:Hf; try done; apply fire_slept in Hf.
  - intros Hr%IH. congruence.
  - intros [= _ _ <-]. done.
Qed.

(** With pacing, the time that has passed is the virtual time, tick by tick. *)
Lemma run_loop_paced fuel ctx tick s0 k sd trace injs w t injs' w' :
  let steps := vs_steps (sd_schedule sd) in
  0 < tick → ticks_needed tick steps * tick < 2 ^ 64 → time_sorted steps →
  after_rounds tick k sd → Z.of_nat k <= ticks_needed tick steps →
  slept w = s0 + Z.of_nat k * tick →
  run_loop sleep fuel ctx tick true sd trace injs w = Some (Done (Ok t, injs', w')) →
  ∃ n, (k ≤ n)%nat ∧ Z.of_nat n <= ticks_needed tick steps ∧
    (n = 0%nat → steps = []) ∧ Forall (λ s, at_ns s <= Z.of_nat n * tick ∨ n = 0%nat) steps ∧
    slept w' = s0 + Z.of_nat n * tick.
Proof.
  intros steps Ht Hw Hs. subst steps. revert k sd trace injs w Hw Hs.
  induction fuel as [|fuel IH]; intros k sd trace injs w Hw Hs Hk HkK Hsl; cbn [run_loop];
    destruct (is_finished sd) eqn:Hf; try done.
  1, 2: intros [= _ _ <-]; exists k; apply bool_decide_eq_true in Hf; destruct Hk as [_ Hc];
    split_and!; [lia|done|intros ->; apply nil_length_inv; rewrite Hc, decide_True in Hf by done; lia| |done];
    destruct (decide (k = 0%nat)); [by apply Forall_true; right|];
    (eapply Forall_impl; [apply (due_by_everything (Z.of_nat k * tick)); lia|by left]).
  assert (Hne : Z.of_nat k ≠ ticks_needed tick (vs_steps (sd_schedule sd))).
  { intros E. pose proof (ticks_needed_pos tick (vs_steps (sd_schedule sd))).
    rewrite (after_rounds_finished tick k sd) in Hf; [done|done|lia|].
    rewrite E. by apply ticks_needed_reaches. }
  assert (Hw' : (Z.of_nat k + 1) * tick < 2 ^ 64) by nia.
  destruct (after_rounds_step tick k sd Ht Hs Hw' Hk) as [-> _].
  pose proof (after_rounds_next tick k (sd_schedule sd)) as Hnext. cbv beta iota zeta in *.
  destruct (fire _ _ _ _ _ _) as [[[[t1|e] injs1] w1]|] eqn:Hfire; try done.
  apply fire_slept in Hfire. rewrite sleep_takes in Hfire.
  intros Hrun. apply (IH (S k)) in Hrun as (n & ? & ? & ? & ? & ?); try done; [|cbn; lia|lia].
  exists n. split_and!; try done. lia.
Qed.
End pacing.

Lemma ticks_needed_le tick n steps :
  0 < tick → 1 <= n → Forall (λ s, at_ns s <= n * tick) steps → ticks_needed tick steps <= n.
Proof.
  intros Ht Hn. induction 1 as [|s steps Hs _ IH]; [done|]. cbn [ticks_needed foldr].
  fold (ticks_needed tick steps). apply Z.max_lub; [|done]. unfold fire_tick. apply Z.max_lub; [done|].
  enough ((at_ns s + tick - 1) / tick < n + 1) by lia. apply Z.div_lt_upper_bound; lia.
Qed.

(* ------------------------------------------------------------------ *)
(** * Invariants of a run *)

(** An invariant of the steps performed so far, the registry and the world that survives
    what happens while the runner sleeps and every step that succeeds holds at the end of
    the run; a run that fails does so at one step, from a state with the invariant. *)
Section invariant.
Context {W I : Type} `{FaultInjector W I}.
Variable sleep : Z → W → W.
Variable ctx : FaultContext.
Variables (tick : Z) (rt : bool).
Variable P : list ScenarioStep → gmap string I → W → Prop.
Hypothesis sleep_keeps : ∀ done injs w, rt = true → P done injs w → P done injs (sleep tick w).
Hypothesis step_keeps : ∀ done s injs w i i' w',
  P done injs w → injs !! fault_id s = Some i →
  apply_action ctx (action s) i w = (Ok tt, i', w') →
  P (done ++ [s]) (<[fault_id s := i']> injs) w'.

(** What holds when the step after [done] fails. *)
Definition failed_at (done : list ScenarioStep) (e : HarnessError) (injs' : gmap string I) (w' : W)
    (s : ScenarioStep) : Prop :=
  ∃ injs w i i', P done injs w ∧ injs !! fault_id s = Some i ∧
    apply_action ctx (action s) i w = (Err e, i', w') ∧ injs' = <[fault_id s := i']> injs.

Lemma fire_invariant now due : ∀ done trace injs w r injs' w',
  P done injs w → fire ctx now due trace injs w = Done (r, injs', w') →
  match r with
  | Ok _ => P (done ++ due) injs' w'
  | Err e => ∃ pre s post, due = pre ++ s :: post ∧ failed_at (done ++ pre) e injs' w' s
  end.
Proof.
  induction due as [|s due IH]; intros done trace injs w r injs' w' HP; cbn [fire].
  { intros [= <- <- <-]. by rewrite app_nil_r. }
  destruct (injs !! fault_id s) as [i|] eqn:Ei; [|done]. cbn [expect mbind exec_bind].
  destruct (apply_action ctx (action s) i w) as [[[[]|e] i'] w1] eqn:Ea.
  - intros Hf. apply (IH (done ++ [s])) in Hf; [|by eapply step_keeps]. destruct r as [t|e].
    + by rewrite <- app_assoc in Hf.
    + destruct Hf as (pre & s' & post & -> & Hf). exists (s :: pre), s', post. split; [done|].
      by rewrite <- app_assoc in Hf.
  - intros [= <- <- <-]. exists [], s, due. split; [done|]. rewrite app_nil_r. by exists injs, w, i, i'.
Qed.

Lemma run_loop_invariant fuel : ∀ sd trace injs w r injs' w',
  let steps := vs_steps (sd_schedule sd) in
  (cursor sd ≤ length steps)%nat → P (take (cursor sd) steps) injs w →
  run_loop sleep fuel ctx tick rt sd trace injs w = Some (Done (r, injs', w')) →
  match r with
  | Ok _ => P steps injs' w'
  | Err e => ∃ pre s post, steps = pre ++ s :: post ∧ failed_at pre e injs' w' s
  end.
Proof.
  induction fuel as [|fuel IH]; intros sd trace injs w r injs' w' steps Hc HP; cbn [run_loop];
    destruct (is_finished sd) eqn:Hf; try done.
  1, 2: intros [= <- <- <-]; subst steps; by rewrite (is_finished_take sd Hc Hf) in HP.
  destruct (Scheduler_advance sd tick) as [due sd'] eqn:Ha.
  destruct (advance_prefix _ _ _ _ Hc Ha) as (Hsame & Hc' & Htake).
  destruct (fire _ _ _ _ _ _) as [[[res injs1] w1]|] eqn:Hfire; [|done].
  eapply fire_invariant in Hfire; [|destruct rt; [by apply sleep_keeps|exact HP]].
  destruct res as [t1|e].
  - fold steps in Htake. rewrite Htake in Hfire. intros Hrun.
    specialize (IH sd' t1 injs1 w1 r injs' w'). rewrite Hsame in IH. apply IH; [lia|done|done].
  - destruct Hfire as (pre & s & post & -> & Hfail). intros [= <- <- <-].
    fold steps in Htake.
    exists (take (cursor sd) steps ++ pre), s, (post ++ drop (cursor sd') steps). split; [|done].
    rewrite <- (take_drop (cursor sd') steps) at 1. rewrite <- Htake. rewrite <- !app_assoc. done.
Qed.

End invariant.

Lemma run_invariant {W I} `{FaultInjector W I} sleep (P : list ScenarioStep → gmap string I → W → Prop)
    fuel (r : Runner I) tick rt w res r' w' :
  (∀ done injs w, rt = true → P done injs w → P done injs (sleep tick w)) →
  (∀ done s injs w i i' w', P done injs w → injs !! fault_id s = Some i →
     apply_action (r_ctx r) (action s) i w = (Ok tt, i', w') → P (done ++ [s]) (<[fault_id s := i']> injs) w') →
  P [] (r_injectors r) w →
  run_inner sleep fuel r tick rt w = Some (Done (res, r', w')) →
  match res with
  | Ok _ => P (vs_steps (r_schedule r)) (r_injectors r') w'
  | Err e => ∃ pre s post, vs_steps (r_schedule r) = pre ++ s :: post ∧
               failed_at (r_ctx r) P pre e (r_injectors r') w' s
  end.
Proof.
  intros Hsleep Hstep HP (injs' & -> & Hrun)%run_inner_inv.
  by apply (run_loop_invariant sleep (r_ctx r) tick rt P Hsleep Hstep) in Hrun; [|cbn; lia|].
Qed.

(* ------------------------------------------------------------------ *)
(** * What a run has performed *)

(** The steps that were performed on a registry and a world, one after the other and each
    with success, with the runner's sleeps in between when it is paced. *)
Inductive performed {W I} `{FaultInjector W I} (sleep : Z → W → W) (ctx : FaultContext) (tick : Z) (rt : bool)
    (injs0 : gmap string I) (w0 : W) : list ScenarioStep → gmap string I → W → Prop :=
| performed_nothing : performed sleep ctx tick rt injs0 w0 [] injs0 w0
| performed_sleep steps injs w :
    rt = true → performed sleep ctx tick rt injs0 w0 steps injs w →
    performed sleep ctx tick rt injs0 w0 steps injs (sleep tick w)
| performed_step steps s injs w i i' w' :
    performed sleep ctx tick rt injs0 w0 steps injs w → injs !! fault_id s = Some i →
    apply_action ctx (action s) i w = (Ok tt, i', w') →
    performed sleep ctx tick rt injs0 w0 (steps ++ [s]) (<[fault_id s := i']> injs) w'.

(** A run that fails: the steps before the failing one were performed, the failing one
    returned the run's error, and the registry and the world are as it left them. *)
Record failed_run {W I} `{FaultInjector W I} (sleep : Z → W → W) (ctx : FaultContext) (tick : Z) (rt : bool)
    (steps : list ScenarioStep) (injs0 : gmap string I) (w0 : W) (e : HarnessError)
    (injs' : gmap string I) (w' : W) (pre : list ScenarioStep) (s : ScenarioStep) : Prop := {
  fr_steps : ∃ post, steps = pre ++ s :: post;
  fr_failure : ∃ injs w i i', performed sleep ctx tick rt injs0 w0 pre injs w ∧
    injs !! fault_id s = Some i ∧ apply_action ctx (action s) i w = (Err e, i', w') ∧
    injs' = <[fault_id s := i']> injs
}.

Section performed.
Context {W I : Type} `{FaultInjector W I} `{!FaultInjectorLaws W I}.
Variables (sleep : Z → W → W) (ctx : FaultContext) (tick : Z) (rt : bool).

Lemma performed_armed injs0 w0 steps injs w :
  performed sleep ctx tick rt injs0 w0 steps injs w → armed_set injs = armed_after (armed_set injs0) steps.
Proof.
  induction 1 as [|steps injs w _ _ IH|steps s injs w i i' w' _ IH _ Ha]; [done|done|].
  rewrite (apply_action_ok _ _ _ _ _ _ _ Ha), IH. unfold armed_after. by rewrite foldl_app.
Qed.

Lemma failed_run_armed steps injs0 w0 e injs' w' pre s :
  failed_run sleep ctx tick rt steps injs0 w0 e injs' w' pre s →
  let armed := armed_after (armed_set injs0) pre in
  armed_set injs' ⊆ armed ∧ (∀ id, id ≠ fault_id s → id ∈ armed_set injs' ↔ id ∈ armed) ∧
  (action s = Arm → armed_set injs' = armed).
Proof.
  intros [_ (injs & w & i & i' & Hp & Hi & Ha & ->)]. cbv zeta. rewrite <- (performed_armed _ _ _ _ _ Hp).
  by eapply apply_action_err.
Qed.

End performed.

Lemma run_inner_failed {W I} `{FaultInjector W I} sleep fuel (r : Runner I) tick rt (w w' : W) e r' :
  run_inner sleep fuel r tick rt w = Some (Done (Err e, r', w')) →
  ∃ pre s, failed_run sleep (r_ctx r) tick rt (vs_steps (r_schedule r)) (r_injectors r) w e (r_injectors r') w' pre s.
Proof.
  intros Hrun.
  eapply (run_invariant sleep (performed sleep (r_ctx r) tick rt (r_injectors r) w)) in Hrun;
    [|by constructor|by econstructor|constructor].
  destruct Hrun as (pre & s & post & Hs & Hf). exists pre, s. split; [by exists post|exact Hf].
Qed.

(* ------------------------------------------------------------------ *)
(** * Types *)

Definition event_typed (e : TraceEvent) : Prop := step_wf (ev_step e) ∧ u64? (wall_ns e).
Definition trace_typed (t : Trace) : Prop := u64? (tr_seed t) ∧ Forall event_typed (events t).

Lemma advance_now sd delta due sd' :
  Scheduler_advance sd delta = (due, sd') → u64? (Scheduler_now_ns sd').
Proof.
  unfold Scheduler_advance. intros [= _ <-]. unfold Scheduler_now_ns, now_ns, VirtualClock_now. cbn.
  apply wrap_range. lia.
Qed.

Lemma run_loop_typed {W I} `{FaultInjector W I} sleep fuel ctx tick rt sd trace injs (w : W) t injs' w' :
  (cursor sd ≤ length (vs_steps (sd_schedule sd)))%nat →
  Forall step_wf (vs_steps (sd_schedule sd)) → trace_typed trace →
  run_loop sleep fuel ctx tick rt sd trace injs w = Some (Done (Ok t, injs', w')) → trace_typed t.
Proof.
  revert sd trace injs w. induction fuel as [|fuel IH]; intros sd trace injs w Hc Hs Ht; cbn [run_loop];
    (destruct (is_finished sd); [by intros [= <- _ _]|]); [done|].
  destruct (Scheduler_advance sd tick) as [due sd'] eqn:Ha.
  destruct (advance_prefix _ _ _ _ Hc Ha) as (Hsame & Hc' & Htake).
  destruct (fire _ _ _ _ _ _) as [[[[t1|e] injs1] w1]|] eqn:Hf; try done.
  apply fire_ok_trace in Hf as ->. rewrite foldl_record. apply IH; rewrite ?Hsame; [lia|done|].
  destruct Ht as [Hseed Hev]. split; [done|]. cbn. apply Forall_app. split; [done|].
  apply Forall_fmap. assert (Hdue : Forall step_wf due).
  { apply (Forall_take _ (cursor sd')) in Hs. rewrite <- Htake in Hs. by apply Forall_app in Hs as [_ ?]. }
  eapply Forall_impl; [exact Hdue|]. intros s Hwf. split; [done|]. by eapply advance_now.
Qed.

(* ------------------------------------------------------------------ *)
(** * Properties *)

(** A run that succeeds makes exactly the calls the schedule asks for: the injector
    registered under an id is armed once for every Arm step and disarmed once for every
    Disarm step of that id, whatever the tick; injectors the schedule does not name are
    never called. *)
Theorem run_makes_exactly_the_scheduled_calls sleep fuel (r : Runner CountingInjector) tick w t r' w' :
  run (W := unit) sleep fuel r tick w = Some (Done (Ok t, r', w')) →
  ∀ id i, r_injectors r !! id = Some i →
  ∃ i', r_injectors r' !! id = Some i' ∧
    arm_calls i' = (arm_calls i + steps_for id Arm (vs_steps (r_schedule r)))%nat ∧
    disarm_calls i' = (disarm_calls i + steps_for id Disarm (vs_steps (r_schedule r)))%nat.
Proof.
  intros (injs' & -> & Hrun)%run_inner_inv. apply run_loop_exec in Hrun; [|simpl; lia].
  cbn [cursor sd_schedule Scheduler_new] in Hrun. rewrite drop_0 in Hrun.
  cbn [forget_trace] in Hrun. symmetry in Hrun. by eapply exec_steps_counts.
Qed.

Lemma run_makes_exactly_the_scheduled_calls_witness :
  ∀ id i, r_injectors demo_runner !! id = Some i →
  ∃ i', r_injectors demo_final !! id = Some i' ∧
    arm_calls i' = (arm_calls i + steps_for id Arm (sc_steps demo_scenario))%nat ∧
    disarm_calls i' = (disarm_calls i + steps_for id Disarm (sc_steps demo_scenario))%nat.
Proof.
  apply (run_makes_exactly_the_scheduled_calls no_effect 20 demo_runner 500 tt (demo_events 500) demo_final tt).
  vm_compute. reflexivity.
Defined.

(** C37: [run_realtime] takes the time the schedule asks for and [run] takes none: the
    runner of a validated schedule with steps sleeps exactly [ticks_needed] ticks, so
    at least until the last step's time; plain [run] never sleeps.  The time injectors
    spend in their calls is not counted. *)
Theorem realtime_run_takes_its_time {W I} `{FaultInjector W I} (sleep : Z → W → W) (slept : W → Z)
    sc v (injs : gmap string I) ctx r fuel tick rt (w : W) t r' w' :
  (∀ n w, slept (sleep n w) = slept w + n) →
  (∀ ctx (i : I) w, slept (fi_arm ctx i w).2 = slept w) →
  (∀ (i : I) w, slept (fi_disarm i w).2 = slept w) →
  validate sc = Ok v → Runner_new v injs ctx = Ok r → 0 < tick →
  ticks_needed tick (sc_steps sc) * tick < 2 ^ 64 → sc_steps sc ≠ [] →
  run_inner sleep fuel r tick rt w = Some (Done (Ok t, r', w')) →
  slept w' - slept w = (if rt then ticks_needed tick (sc_steps sc) * tick else 0) ∧
  (rt = true → Forall (λ s, at_ns s <= slept w' - slept w) (sc_steps sc)).
Proof.
  intros Hsl Ha Hd Hv Hr Ht Hw Hne Hrun. pose proof (validated_same _ _ Hv) as Hsc.
  apply validated_sorted in Hv as Hsort. apply Runner_new_ok in Hr as [Hr _]. subst r.
  unfold vs_steps in Hsort. rewrite Hsc in Hsort.
  apply run_inner_inv in Hrun as (injs' & -> & Hrun). cbn [r_schedule r_ctx r_injectors] in Hrun.
  destruct rt.
  2:{ apply (run_loop_unpaced sleep slept Ha Hd) in Hrun. split; [lia|done]. }
  assert (Hsteps : vs_steps (sd_schedule (Scheduler_new v 0)) = sc_steps sc) by (by cbn; unfold vs_steps; rewrite Hsc).
  apply (run_loop_paced sleep slept Hsl Ha Hd fuel ctx tick (slept w) 0) in Hrun
    as (n & _ & Hn & Hz & Hall & Hend); rewrite ?Hsteps in *; try done; [|pose proof (ticks_needed_pos tick (sc_steps sc)); lia|lia].
  assert (n ≠ 0%nat) as Hn0 by (intros ->; by apply Hne, Hz).
  assert (Hall' : Forall (λ s, at_ns s <= Z.of_nat n * tick) (sc_steps sc))
    by (eapply Forall_impl; [exact Hall|]; intros s [?|?]; done).
  pose proof (ticks_needed_le tick (Z.of_nat n) (sc_steps sc) Ht ltac:(lia) Hall') as Hle.
  rewrite Hend. split; [nia|]. intros _. eapply Forall_impl; [exact Hall'|]. cbn. intros s. lia.
Qed.

(** The test double again, in a world that is a real-time clock. *)
Definition counting_timed : FaultInjector Z CountingInjector := {|
  fi_id := ci_id;
  fi_arm ctx i w := ((fi_arm ctx i tt).1, w);
  fi_disarm i w := ((fi_disarm i tt).1, w);
  fi_is_armed := ci_armed
|}.

Lemma realtime_run_takes_its_time_witness :
  let run_it := @run_inner Z CountingInjector counting_timed Z.add 20 demo_runner 500 true 100 in
  match run_it with
  | Some (Done (Ok _, _, w')) =>
      w' - 100 = ticks_needed 500 (sc_steps demo_scenario) * 500 ∧
      (true = true → Forall (λ s, at_ns s <= w' - 100) (sc_steps demo_scenario))
  | _ => False
  end.
Proof.
  intros run_it. destruct run_it as [[[[[t|e] r'] w']|]|] eqn:E; try (vm_compute in E; discriminate).
  refine (@realtime_run_takes_its_time Z CountingInjector counting_timed Z.add (λ w, w) demo_scenario
            demo_schedule demo_registry demo_ctx demo_runner 20 500 true 100 t r' w' _ _ _ _ _ _ _ _ E).
  - intros n w. apply Z.add_comm.
  - reflexivity.
  - reflexivity.
  - vm_compute. reflexivity.
  - vm_compute. reflexivity.
  - reflexivity.
  - vm_compute. reflexivity.
  - discriminate.
Defined.

(** What a run records is well typed whenever the scenario is: every [at_ns] and
    [wall_ns] of the trace fits a [u64], also when the virtual clock wraps around. *)
Theorem recorded_trace_is_typed {W I} `{FaultInjector W I} sleep fuel (r : Runner I) tick rt (w : W) t r' w' :
  u64? (vs_seed (r_schedule r)) → Forall step_wf (vs_steps (r_schedule r)) →
  run_inner sleep fuel r tick rt w = Some (Done (Ok t, r', w')) → trace_typed t.
Proof.
  intros Hseed Hs (injs' & -> & Hrun)%run_inner_inv.
  eapply run_loop_typed in Hrun; [done|simpl; lia|done|by split].
Qed.

Lemma recorded_trace_is_typed_witness : trace_typed (demo_events 500).
Proof.
  apply (recorded_trace_is_typed no_effect 20 demo_runner 500 false tt (demo_events 500) demo_final tt).
  - by split.
  - cbn. repeat (apply Forall_cons; split; [by split|]). constructor.
  - vm_compute. reflexivity.
Defined.

(** C8: a run that fails stops at one step of the schedule.  The steps before it were all
    performed, one after the other, on the registry and world the run started from; the
    failing step was then tried in the state they reached and returned the run's error;
    registry and world are exactly as it left them, nothing later was tried and nothing was
    rolled back.  So the injectors armed by the earlier steps are still armed, those they
    disarmed are disarmed, and the failing step armed nothing. *)
Theorem run_err_armed_set {W I} `{FaultInjector W I} `{!FaultInjectorLaws W I}
    sleep fuel (r : Runner I) tick rt (w w' : W) e r' :
  run_inner sleep fuel r tick rt w = Some (Done (Err e, r', w')) →
  ∃ pre s, failed_run sleep (r_ctx r) tick rt (vs_steps (r_schedule r)) (r_injectors r) w e (r_injectors r') w' pre s ∧
    let armed := armed_after (armed_set (r_injectors r)) pre in
    armed_set (r_injectors r') ⊆ armed ∧
    (∀ id, id ≠ fault_id s → id ∈ armed_set (r_injectors r') ↔ id ∈ armed) ∧
    (action s = Arm → armed_set (r_injectors r') = armed).
Proof.
  intros (pre & s & Hf)%run_inner_failed. exists pre, s. split; [done|]. by eapply failed_run_armed.
Qed.

(** An injector that may be broken: its [arm] fails. *)
Record FlakyInjector := { fl_broken : bool; fl_armed : bool }.
#[global] Instance flaky_injector : FaultInjector unit FlakyInjector := {|
  fi_id _ := "flaky"%string;
  fi_arm _ i w := if fl_broken i then (Err (ArmFailed "flaky" "no such device"), i, w)
                  else (Ok tt, {| fl_broken := false; fl_armed := true |}, w);
  fi_disarm i w := (Ok tt, {| fl_broken := fl_broken i; fl_armed := false |}, w);
  fi_is_armed := fl_armed
|}.
#[global] Instance flaky_laws : FaultInjectorLaws unit FlakyInjector.
Proof. split; intros; cbn in *; repeat case_match; naive_solver. Qed.

(** Arm [a], arm the broken [b]. *)
Definition flaky_runner (a_armed : bool) : Runner FlakyInjector :=
  {| r_schedule := {| vs_scenario := {| sc_name := "flaky"; sc_seed := 1;
       sc_steps := [{| at_ns := 0; fault_id := "a"; action := Arm |};
                    {| at_ns := 0; fault_id := "b"; action := Arm |}] |} |};
     r_injectors := {["a" := {| fl_broken := false; fl_armed := a_armed |};
                      "b" := {| fl_broken := true; fl_armed := false |}]};
     r_ctx := demo_ctx |}%string.

Lemma run_err_armed_set_witness :
  run_inner no_effect 20 (flaky_runner false) 500 false tt =
    Some (Done (Err (ArmFailed "flaky" "no such device"), flaky_runner true, tt)) ∧
  armed_set (r_injectors (flaky_runner true)) = {["a"%string]} ∧
  ∃ pre s, failed_run no_effect demo_ctx 500 false (vs_steps (r_schedule (flaky_runner false)))
      (r_injectors (flaky_runner false)) tt (ArmFailed "flaky" "no such device")
      (r_injectors (flaky_runner true)) tt pre s ∧
    let armed := armed_after (armed_set (r_injectors (flaky_runner false))) pre in
    armed_set (r_injectors (flaky_runner true)) ⊆ armed ∧
    (∀ id, id ≠ fault_id s → id ∈ armed_set (r_injectors (flaky_runner true)) ↔ id ∈ armed) ∧
    (action s = Arm → armed_set (r_injectors (flaky_runner true)) = armed).
Proof.
  assert (Hrun : run_inner no_effect 20 (flaky_runner false) 500 false tt =
    Some (Done (Err (ArmFailed "flaky" "no such device"), flaky_runner true, tt))) by (vm_compute; reflexivity).
  split; [exact Hrun|]. split; [vm_compute; reflexivity|].
  apply (run_err_armed_set no_effect 20 (flaky_runner false) 500 false tt tt _ (flaky_runner true) Hrun).
Defined.
