(* ===== verification/FixMessage.v ===== *)
(** crates/adapters/src/fix/fields.rs and message.rs: FIX tag=value messages,
    their parser, the checksum and the re-encoder [set_field]. *)

From Stdlib Require Import Strings.Byte.
From S2P Require Import Prelude RustStd Core.

(* ------------------------------------------------------------------ *)
(** * fields.rs *)

Definition TAG_BEGIN_STRING : Z := 8.
Definition TAG_BODY_LENGTH : Z := 9.
Definition TAG_MSG_TYPE : Z := 35.
Definition TAG_MSG_SEQ_NUM : Z := 34.
Definition TAG_ORD_STATUS : Z := 39.
Definition TAG_EXEC_TYPE : Z := 150.
Definition TAG_PRICE : Z := 44.
Definition TAG_CHECKSUM : Z := 10.

Definition MSG_TYPE_NEW_ORDER_SINGLE : list byte := bytes "D".
Definition MSG_TYPE_EXECUTION_REPORT : list byte := bytes "8".
Definition MSG_TYPE_ORDER_CANCEL_REJECT : list byte := bytes "9".
Definition MSG_TYPE_REJECT : list byte := bytes "3".
Definition MSG_TYPE_BUSINESS_MESSAGE_REJECT : list byte := bytes "j".

Definition ORD_STATUS_NEW : list byte := bytes "0".
Definition ORD_STATUS_PARTIALLY_FILLED : list byte := bytes "1".
Definition ORD_STATUS_FILLED : list byte := bytes "2".
Definition ORD_STATUS_REJECTED : list byte := bytes "8".

Definition EXEC_TYPE_NEW : list byte := bytes "0".
Definition EXEC_TYPE_TRADE : list byte := bytes "F".
Definition EXEC_TYPE_REJECTED : list byte := bytes "8".

(* ------------------------------------------------------------------ *)
(** * message.rs *)

Definition SOH : byte := x01.
Definition EQUALS : byte := x3d.

Definition field : Type := Z * list byte.
Record FixMessage := { fields : list field }.

(** [find] for the first field with the tag. *)
Fixpoint find_tag (tag : Z) (fs : list field) : option (list byte) :=
  match fs with
  | [] => None
  | (t, v) :: fs' => if t =? tag then Some v else find_tag tag fs'
  end.
Definition get (m : FixMessage) (tag : Z) : option (list byte) := find_tag tag (fields m).
Definition is_ (m : FixMessage) (tag : Z) (expected : list byte) : bool :=
  bool_decide (get m tag = Some expected).

Inductive ParseError := Empty | MissingSoh | MalformedTag.

#[global] Instance ParseError_eq_dec : EqDecision ParseError.
Proof. solve_decision. Defined.

(** [format!("{e:?}")]. *)
Definition debug_ParseError (e : ParseError) : string :=
  match e with
  | Empty => "Empty" | MissingSoh => "MissingSoh" | MalformedTag => "MalformedTag"
  end.

(** One non-empty piece between separators. *)
Definition parse_field (piece : list byte) : result ParseError field :=
  eq ← ok_or MalformedTag (position EQUALS piece);
  tag_str ← map_err (λ _, MalformedTag) (from_utf8 (take eq piece));
  tag ← map_err (λ _, MalformedTag) (parse_uint 32 tag_str);
  Ok (tag, drop (S eq) piece).

(** The loop over [bytes.split(|&b| b == SOH)]; empty pieces are skipped. *)
Fixpoint parse_pieces (pieces : list (list byte)) : result ParseError (list field) :=
  match pieces with
  | [] => Ok []
  | [] :: ps => parse_pieces ps
  | p :: ps =>
      f ← parse_field p;
      fs ← parse_pieces ps;
      Ok (f :: fs)
  end.

Definition parse (b : list byte) : result ParseError FixMessage :=
  match b with
  | [] => Err Empty
  | _ =>
      fs ← parse_pieces (split_on SOH b);
      match fs with
      | [] => Err MissingSoh
      | _ => Ok {| fields := fs |}
      end
  end.

Definition compute_checksum (b : list byte) : Z :=
  foldl (λ acc x, wrap 8 (acc + byte_val x)) 0 b.

Definition format_checksum (sum : Z) : list byte := to_dec03 sum.

(** The fields copied into the new body, re-encoded. *)
Definition structural (t : Z) : bool := (t =? 8) || (t =? 9) || (t =? 10).
Fixpoint encode_body (tag : Z) (new_value : list byte) (fs : list field) : list byte :=
  match fs with
  | [] => []
  | (t, v) :: fs' =>
      if structural t then encode_body tag new_value fs'
      else to_dec t ++ [EQUALS] ++ (if t =? tag then new_value else v) ++ [SOH]
           ++ encode_body tag new_value fs'
  end.

Definition set_field (b : list byte) (tag : Z) (new_value : list byte)
  : exec (result ParseError (list byte)) :=
  match parse b with
  | Err e => Done (Err e)
  | Ok parsed =>
      begin_string ← expect "framed message always has tag 8, framing.rs guarantees it"
                       (get parsed 8);
      let body := encode_body tag new_value (fields parsed) in
      let full := bytes "8=" ++ begin_string ++ [SOH]
                  ++ bytes "9=" ++ to_dec (Z.of_nat (length body)) ++ [SOH] ++ body in
      let checksum := compute_checksum full in
      Done (Ok (full ++ bytes "10=" ++ to_dec03 checksum ++ [SOH]))
  end.

(* ------------------------------------------------------------------ *)
(** * Lemmas: checksum *)

Definition byte_sum (b : list byte) : Z := foldr (λ x n, byte_val x + n) 0 b.

Lemma checksum_fold acc b :
  foldl (λ acc x, wrap 8 (acc + byte_val x)) (wrap 8 acc) b = wrap 8 (acc + byte_sum b).
Proof.
  revert acc. induction b as [|x b IH]; intros acc; simpl; [by rewrite Z.add_0_r|].
  rewrite wrap_add_l, IH. f_equal. lia.
Qed.

Lemma compute_checksum_sum b : compute_checksum b = byte_sum b mod 256.
Proof. exact (checksum_fold 0 b). Qed.

Lemma compute_checksum_range b : u8? (compute_checksum b).
Proof. rewrite compute_checksum_sum. apply Z.mod_pos_bound. lia. Qed.

(* ------------------------------------------------------------------ *)
(** * Lemmas: encoding and parsing *)

Definition encode_field (f : field) : list byte := to_dec f.1 ++ [EQUALS] ++ f.2 ++ [SOH].
Definition encode_fields (fs : list field) : list byte := concat (encode_field <$> fs).

Lemma encode_fields_cons f fs : encode_fields (f :: fs) = encode_field f ++ encode_fields fs.
Proof. done. Qed.

Lemma encode_fields_app fs1 fs2 :
  encode_fields (fs1 ++ fs2) = encode_fields fs1 ++ encode_fields fs2.
Proof. unfold encode_fields. by rewrite fmap_app, concat_app. Qed.

(** A field that can stand on the wire. *)
Definition field_wf (f : field) : Prop := u32? f.1 ∧ SOH ∉ f.2.

Lemma SOH_not_digit : ¬ is_digit SOH.
Proof. unfold is_digit. vm_compute. intros [H _]. by apply H. Qed.
Lemma EQUALS_not_digit : ¬ is_digit EQUALS.
Proof. unfold is_digit. vm_compute. intros [_ H]. by apply H. Qed.

Lemma parse_field_encode t v : u32? t → parse_field (to_dec t ++ EQUALS :: v) = Ok (t, v).
Proof.
  intros Ht. unfold parse_field.
  rewrite position_app_fresh by (apply to_dec_no_byte; [width|apply EQUALS_not_digit]). simpl.
  rewrite take_app_length, from_utf8_to_dec by width. simpl.
  rewrite parse_to_dec by done. simpl. do 2 f_equal.
  rewrite (cons_middle EQUALS), app_assoc, drop_app_length'; [done|].
  rewrite length_app. simpl. lia.
Qed.

Lemma to_dec_cons t : 0 <= t → ∃ d ds, to_dec t = d :: ds.
Proof.
  intros Ht. destruct (to_dec_spec (Z.succ (Z.log2 t)) t) as (Hne & _).
  { by apply in_width_log2. }
  destruct (to_dec t) as [|d ds]; [done|]. by exists d, ds.
Qed.

Lemma parse_pieces_cons_nonempty p ps :
  p ≠ [] → parse_pieces (p :: ps) = (f ← parse_field p; fs ← parse_pieces ps; Ok (f :: fs)).
Proof. by destruct p. Qed.

(** Parsing reads back one encoded field and goes on with the rest. *)
Lemma parse_pieces_encode_field f rest :
  field_wf f →
  parse_pieces (split_on SOH (encode_field f ++ rest)) =
  (fs ← parse_pieces (split_on SOH rest); Ok (f :: fs)).
Proof.
  destruct f as [t v]. intros [Ht Hv]. unfold encode_field. cbn [fst snd] in *.
  replace ((to_dec t ++ [EQUALS] ++ v ++ [SOH]) ++ rest)
    with ((to_dec t ++ EQUALS :: v) ++ SOH :: rest) by (rewrite <- !app_assoc; done).
  rewrite split_on_fresh.
  - rewrite parse_pieces_cons_nonempty by (destruct (to_dec t); done).
    by rewrite parse_field_encode.
  - rewrite not_elem_of_app, not_elem_of_cons. split_and!; [|done..].
    apply to_dec_no_byte; [width|apply SOH_not_digit].
Qed.

Lemma parse_pieces_encode fs rest :
  Forall field_wf fs →
  parse_pieces (split_on SOH (encode_fields fs ++ rest)) =
  (fs' ← parse_pieces (split_on SOH rest); Ok (fs ++ fs')).
Proof.
  induction 1 as [|f fs Hf Hfs IH].
  - simpl. by destruct (parse_pieces _).
  - rewrite encode_fields_cons, <- app_assoc, parse_pieces_encode_field by done.
    rewrite IH. by destruct (parse_pieces (split_on SOH rest)).
Qed.

Lemma encode_fields_nonempty f fs : field_wf f → encode_fields (f :: fs) ≠ [].
Proof.
  intros [Ht _]. unfold encode_fields, encode_field. simpl.
  destruct (to_dec_cons f.1) as (d & ds & ->); [width|done].
Qed.

Lemma parse_encode fs :
  fs ≠ [] → Forall field_wf fs → parse (encode_fields fs) = Ok {| fields := fs |}.
Proof.
  intros Hne Hwf. pose proof (parse_pieces_encode fs [] Hwf) as Hp.
  rewrite app_nil_r in Hp. simpl in Hp. rewrite app_nil_r in Hp.
  destruct fs as [|f fs]; [done|]. unfold parse.
  destruct (encode_fields (f :: fs)) eqn:E.
  - exfalso. revert E. apply encode_fields_nonempty. by inversion Hwf.
  - by rewrite Hp.
Qed.

(** What parsing hands out is well-formed: tags are [u32], values hold no SOH. *)
Lemma parse_field_wf p f : SOH ∉ p → parse_field p = Ok f → field_wf f.
Proof.
  intros Hp. unfold parse_field. destruct (position EQUALS p) as [e|]; [|done]. simpl.
  destruct (from_utf8 (take e p)) as [s|]; [|done]. simpl.
  destruct (parse_uint 32 s) as [t|] eqn:Et; [|done]. simpl. intros [= <-].
  split; cbn [fst snd].
  - by apply (parse_uint_range 32 s).
  - intros Hin. apply Hp. rewrite <- (take_drop (S e) p). set_solver.
Qed.

Lemma parse_pieces_wf ps fs :
  Forall (λ p, SOH ∉ p) ps → parse_pieces ps = Ok fs → Forall field_wf fs.
Proof.
  intros Hps. revert fs. induction Hps as [|p ps Hp Hps IH]; intros fs; simpl.
  { intros [= <-]. constructor. }
  destruct p as [|b p]; [apply IH|].
  destruct (parse_field (b :: p)) as [f|] eqn:Ef; [|done]. simpl.
  destruct (parse_pieces ps) as [fs'|]; [|done]. intros [= <-].
  constructor; [by eapply parse_field_wf|by apply IH].
Qed.

Lemma parse_wf b m : parse b = Ok m → fields m ≠ [] ∧ Forall field_wf (fields m).
Proof.
  unfold parse. destruct b as [|x b]; [done|].
  destruct (parse_pieces _) as [fs|] eqn:E; [|done]. simpl.
  pose proof (parse_pieces_wf _ fs (split_on_pieces SOH (x :: b)) E).
  destruct fs; [done|]. by intros [= <-].
Qed.

Lemma find_tag_app tag fs1 fs2 :
  find_tag tag (fs1 ++ fs2) =
  match find_tag tag fs1 with Some v => Some v | None => find_tag tag fs2 end.
Proof. induction fs1 as [|[t v] fs1 IH]; simpl; [done|]. by destruct (t =? tag). Qed.

Lemma find_tag_elem tag fs v : find_tag tag fs = Some v → (tag, v) ∈ fs.
Proof.
  induction fs as [|[t u] fs IH]; simpl; [done|].
  destruct (Z.eqb_spec t tag) as [->|]; [intros [= ->]; set_solver|set_solver].
Qed.

(** ** The re-encoder on field lists *)

(** What [set_field] does to the fields: structural ones are dropped, the target's
    value is replaced wherever it occurs, everything else stays in place. *)
Definition rewrite_fields (tag : Z) (v : list byte) (fs : list field) : list field :=
  (λ f, (f.1, if f.1 =? tag then v else f.2)) <$> filter (λ f, structural f.1 = false) fs.

Lemma encode_body_fields tag v fs : encode_body tag v fs = encode_fields (rewrite_fields tag v fs).
Proof.
  unfold rewrite_fields. induction fs as [|[t u] fs IH]; [done|].
  cbn [encode_body]. rewrite filter_cons. cbn [fst].
  destruct (structural t) eqn:E; [by rewrite decide_False|].
  rewrite decide_True by done. rewrite fmap_cons, encode_fields_cons, IH.
  unfold encode_field. cbn [fst snd]. by rewrite <- !app_assoc.
Qed.

Lemma rewrite_fields_wf tag v fs :
  SOH ∉ v → Forall field_wf fs → Forall field_wf (rewrite_fields tag v fs).
Proof.
  intros Hv Hfs. unfold rewrite_fields. apply Forall_fmap, Forall_forall.
  intros [t u] [_ Hin]%list_elem_of_filter. rewrite Forall_forall in Hfs.
  destruct (Hfs _ Hin) as [Ht Hu]. split; simpl; [done|]. by case_match.
Qed.

Lemma find_tag_rewrite_fields tag v fs t :
  structural t = false →
  find_tag t (rewrite_fields tag v fs) =
  (λ u, if t =? tag then v else u) <$> find_tag t fs.
Proof.
  intros Ht. unfold rewrite_fields. induction fs as [|[t' u] fs IH]; [done|].
  rewrite filter_cons. cbn [fst find_tag]. case_decide as Hd; cbn [fmap list_fmap find_tag fst].
  - destruct (Z.eqb_spec t' t) as [->|]; [done|]. apply IH.
  - destruct (Z.eqb_spec t' t) as [->|]; [by rewrite Ht in Hd|]. apply IH.
Qed.

(** The same with the three structural tags written out. *)
Lemma rewrite_fields_literal tag v fs :
  rewrite_fields tag v fs =
  (λ f, if f.1 =? tag then (tag, v) else f) <$> filter (λ f, f.1 ≠ 8 ∧ f.1 ≠ 9 ∧ f.1 ≠ 10) fs.
Proof.
  unfold rewrite_fields.
  rewrite (list_filter_iff (λ f : field, structural f.1 = false) (λ f, f.1 ≠ 8 ∧ f.1 ≠ 9 ∧ f.1 ≠ 10)).
  2:{ intros [t u]. unfold structural. cbn [fst]. lia. }
  apply list_fmap_ext. intros _ [t u] _. cbn [fst snd]. by destruct (Z.eqb_spec t tag) as [->|].
Qed.

(** The message [set_field] writes, as a field list. *)
Definition message_fields (begin_string : list byte) (body : list field) : list field :=
  let head := [(8, begin_string); (9, to_dec (Z.of_nat (length (encode_fields body))))] in
  head ++ body ++ [(10, to_dec03 (compute_checksum (encode_fields (head ++ body))))].

Lemma set_field_fields b tag v m bs :
  parse b = Ok m → get m 8 = Some bs →
  set_field b tag v =
  Done (Ok (encode_fields (message_fields bs (rewrite_fields tag v (fields m))))).
Proof.
  intros Hp Hg. unfold set_field. rewrite Hp, Hg. cbn [expect mbind exec_bind].
  rewrite encode_body_fields. set (body := rewrite_fields tag v (fields m)).
  unfold message_fields. rewrite !encode_fields_app.
  assert (∀ n u, encode_fields [(n, u)] = to_dec n ++ EQUALS :: u ++ [SOH]) as H1.
  { intros. unfold encode_fields, encode_field. simpl. by rewrite app_nil_r. }
  assert (∀ u x, encode_fields [(8, u); (9, x)] =
    bytes "8=" ++ u ++ [SOH] ++ bytes "9=" ++ x ++ [SOH]) as H2.
  { intros. rewrite encode_fields_cons, H1. unfold encode_field. cbn [fst snd].
    change (to_dec 8) with [x38]. change (to_dec 9) with [x39].
    cbn [app]. by rewrite <- !app_assoc. }
  rewrite H2, H1. change (to_dec 10) with [x31; x30].
  rewrite <- !app_assoc. cbn [app]. do 2 f_equal.
Qed.

Lemma to_dec03_wf n : 0 <= n → SOH ∉ to_dec03 n.
Proof.
  intros Hn. unfold to_dec03. rewrite not_elem_of_app. split.
  - intros [H _]%elem_of_replicate. by vm_compute in H.
  - apply to_dec_no_byte; [done|apply SOH_not_digit].
Qed.

Lemma message_fields_wf bs body :
  SOH ∉ bs → Forall field_wf body → Forall field_wf (message_fields bs body).
Proof.
  intros Hbs Hb. unfold message_fields. apply Forall_app. split.
  - apply Forall_cons. split; [|apply Forall_singleton]; split; cbn [fst snd];
      [width|done|width|]. apply to_dec_no_byte; [lia|apply SOH_not_digit].
  - apply Forall_app. split; [done|]. apply Forall_singleton. split; cbn [fst snd]; [width|].
    apply to_dec03_wf, compute_checksum_range.
Qed.

Lemma parsed_tag8_wf m bs : Forall field_wf (fields m) → get m 8 = Some bs → SOH ∉ bs.
Proof.
  intros Hwf Hg%find_tag_elem. rewrite Forall_forall in Hwf. by destruct (Hwf _ Hg).
Qed.

(** Rewriting again changes nothing: the structural fields [set_field] adds are the
    ones it drops. *)
Lemma rewrite_fields_idemp tag v fs :
  rewrite_fields tag v (rewrite_fields tag v fs) = rewrite_fields tag v fs.
Proof.
  unfold rewrite_fields. induction fs as [|[t u] fs IH]; [done|].
  rewrite filter_cons. cbn [fst]. case_decide as Hd; [|done].
  rewrite fmap_cons, filter_cons. cbn [fst]. rewrite decide_True by done.
  rewrite fmap_cons. cbn [fst snd]. f_equal; [by destruct (t =? tag)|exact IH].
Qed.

Lemma rewrite_message_fields tag v bs body :
  rewrite_fields tag v (message_fields bs body) = rewrite_fields tag v body.
Proof.
  unfold message_fields, rewrite_fields. cbn [app].
  rewrite !filter_cons_False, filter_app, filter_cons_False, filter_nil, app_nil_r by done.
  done.
Qed.

(** What the re-encoded message says, field by field. *)
Lemma set_field_parsed b tag v m bs :
  parse b = Ok m → get m 8 = Some bs → SOH ∉ v →
  ∃ out m', set_field b tag v = Done (Ok out) ∧ parse out = Ok m' ∧
    fields m' = message_fields bs (rewrite_fields tag v (fields m)) ∧
    get m' 8 = Some bs ∧
    ∀ t, structural t = false → get m' t = (λ u, if t =? tag then v else u) <$> get m t.
Proof.
  intros Hp Hg Hv. destruct (parse_wf _ _ Hp) as [_ Hwf].
  set (fs := message_fields bs (rewrite_fields tag v (fields m))).
  exists (encode_fields fs), {| fields := fs |}. split_and!; [by apply set_field_fields| |done..|].
  - apply parse_encode; [done|]. apply message_fields_wf; [by eapply parsed_tag8_wf|].
    by apply rewrite_fields_wf.
  - intros t Ht. unfold get. cbn [fields]. subst fs. unfold message_fields.
    assert (8 ≠ t ∧ 9 ≠ t ∧ 10 ≠ t) as (H8 & H9 & H10) by (unfold structural in Ht; lia).
    cbn [app find_tag]. rewrite (proj2 (Z.eqb_neq 8 t)), (proj2 (Z.eqb_neq 9 t)) by done.
    rewrite find_tag_app, find_tag_rewrite_fields by done. cbn [find_tag].
    rewrite (proj2 (Z.eqb_neq 10 t)) by done. by destruct (find_tag t (fields m)).
Qed.

(** ** Parse errors *)

(** A piece [parse] would accept. *)
Definition piece_ok (p : list byte) : bool :=
  match p with [] => true | _ => is_ok (parse_field p) end.

Lemma parse_field_err p e : parse_field p = Err e → e = MalformedTag.
Proof.
  unfold parse_field. destruct (position EQUALS p) as [n|]; simpl; [|by intros [= ->]].
  destruct (from_utf8 (take n p)) as [s|]; simpl; [|by intros [= ->]].
  destruct (parse_uint 32 s); simpl; by intros [= ->].
Qed.

Lemma parse_pieces_cases ps :
  (∃ fs, parse_pieces ps = Ok fs ∧ Forall (λ p, piece_ok p = true) ps ∧
         (fs = [] ↔ Forall (λ p, p = []) ps)) ∨
  (parse_pieces ps = Err MalformedTag ∧ ¬ Forall (λ p, piece_ok p = true) ps).
Proof.
  induction ps as [|p ps IH]; simpl.
  { left. exists []. split_and!; [done|constructor|]. split; [constructor|done]. }
  destruct p as [|b p].
  - destruct IH as [(fs & -> & Hok & Hnil)|[-> Hn]]; [left; exists fs|right];
      rewrite !Forall_cons; cbn [piece_ok].
    + rewrite Hnil. split_and!; [done..|]. split; [done|by intros [_ ?]].
    + split; [done|by intros [_ ?]].
  - destruct (parse_field (b :: p)) as [f|e] eqn:Ef; simpl.
    + destruct IH as [(fs & -> & Hok & Hnil)|[-> Hn]]; [left; exists (f :: fs)|right];
        rewrite !Forall_cons; unfold piece_ok at 1; rewrite Ef.
      * split_and!; [done..|]. split; [done|by intros [? _]].
      * split; [done|by intros [_ ?]].
    + right. rewrite (parse_field_err _ _ Ef), Forall_cons. unfold piece_ok at 1. rewrite Ef.
      split; [done|by intros [? _]].
Qed.

Lemma split_on_all_empty x b :
  Forall (λ p, p = []) (split_on x b) ↔ Forall (λ c, c = x) b.
Proof.
  induction b as [|c b IH]; simpl.
  - split; [constructor|]. by intros _; constructor.
  - rewrite Forall_cons. case_decide as Hc.
    + rewrite Forall_cons, IH. naive_solver.
    + pose proof (split_on_nonempty x b). destruct (split_on x b); [done|].
      rewrite Forall_cons. naive_solver.
Qed.

(* ------------------------------------------------------------------ *)
(** * Properties *)

Definition pipes (s : string) : list byte :=
  (λ b, if decide (b = x7c) then SOH else b) <$> bytes s.
Definition wikipedia_message : list byte :=
  pipes "8=FIX.4.2|9=65|35=A|49=SERVER|56=CLIENT|34=177|52=20090107-18:15:16|98=0|108=30|10=062|".

(** The reference checksum of message.rs's unit test. *)
Example wikipedia_checksum :
  format_checksum (compute_checksum (take 80 wikipedia_message)) = bytes "062".
Proof. vm_compute. reflexivity. Qed.

(** C25: [parse] inverts the FIX encoding: any non-empty list of fields with [u32]
    tags and SOH-free values is read back exactly, order and duplicates
    included. *)
Theorem parse_inverts_encoding fs :
  fs ≠ [] → Forall field_wf fs → parse (encode_fields fs) = Ok {| fields := fs |}.
Proof. apply parse_encode. Qed.

Lemma parse_inverts_encoding_witness :
  parse (encode_fields [(8, bytes "FIX.4.2"); (35, bytes "A"); (35, bytes "B")]) =
  Ok {| fields := [(8, bytes "FIX.4.2"); (35, bytes "A"); (35, bytes "B")] |}.
Proof.
  apply (parse_inverts_encoding [(8, bytes "FIX.4.2"); (35, bytes "A"); (35, bytes "B")]).
  - discriminate.
  - repeat (apply Forall_cons_2; [split; [split; [discriminate|reflexivity]|
      apply (bool_decide_unpack _); vm_compute; exact I]|]). constructor.
Defined.

(** The three parse errors: [Empty] for the empty input only, [MissingSoh] for a
    non-empty input made of SOH bytes only, [MalformedTag] exactly when some
    non-empty piece has no '=' or its tag is not a decimal [u32]; otherwise
    parsing succeeds. *)
Theorem parse_error_cases b :
  (parse b = Err Empty ↔ b = []) ∧
  (parse b = Err MissingSoh ↔ b ≠ [] ∧ Forall (λ c, c = SOH) b) ∧
  (parse b = Err MalformedTag ↔ ¬ Forall (λ p, piece_ok p = true) (split_on SOH b)) ∧
  (is_ok (parse b) = true ↔
     Forall (λ p, piece_ok p = true) (split_on SOH b) ∧ ¬ Forall (λ c, c = SOH) b).
Proof.
  destruct b as [|x b].
  { simpl. rewrite Forall_singleton. split_and!; split; try done; try naive_solver. }
  unfold parse. rewrite <- split_on_all_empty.
  destruct (parse_pieces_cases (split_on SOH (x :: b))) as [(fs & -> & Hok & Hfs)|[-> Hn]].
  - simpl. destruct fs as [|f fs]; simpl; split_and!; split; naive_solver.
  - simpl. split_and!; split; try done; try naive_solver. intros [_ Hall]. exfalso. apply Hn.
    eapply Forall_impl; [exact Hall|]. by intros ? ->.
Qed.

(** C22: [set_field] on a parsable message with a BeginString, given a value without an SOH
    byte, rewrites exactly what it should: the result parses, keeps every non-structural field in order with its
    value, has the new value for every occurrence of the target tag, and carries
    one BeginString, one BodyLength and one CheckSum. *)
Theorem set_field_reparses b tag v m bs :
  parse b = Ok m → get m 8 = Some bs → SOH ∉ v →
  ∃ out m', set_field b tag v = Done (Ok out) ∧ parse out = Ok m' ∧
    fields m' = message_fields bs (rewrite_fields tag v (fields m)) ∧
    get m' 8 = Some bs ∧
    ∀ t, structural t = false → get m' t = (λ u, if t =? tag then v else u) <$> get m t.
Proof. apply set_field_parsed. Qed.

Definition price_report : list byte :=
  pipes "8=FIX.4.4|9=30|35=8|39=1|150=F|44=100.50|10=000|".
Definition price_report_fields : list field :=
  [(8, bytes "FIX.4.4"); (9, bytes "30"); (35, bytes "8"); (39, bytes "1");
   (150, bytes "F"); (44, bytes "100.50"); (10, bytes "000")].

Lemma set_field_reparses_witness :
  ∃ out m', set_field price_report 44 (bytes "999.99") = Done (Ok out) ∧ parse out = Ok m' ∧
    fields m' = message_fields (bytes "FIX.4.4")
                  (rewrite_fields 44 (bytes "999.99") price_report_fields) ∧
    get m' 8 = Some (bytes "FIX.4.4") ∧
    ∀ t, structural t = false →
      get m' t = (λ u, if t =? 44 then bytes "999.99" else u) <$>
                 get {| fields := price_report_fields |} t.
Proof.
  apply (set_field_reparses price_report 44 (bytes "999.99")
           {| fields := price_report_fields |} (bytes "FIX.4.4")).
  - vm_compute. reflexivity.
  - reflexivity.
  - apply (bool_decide_unpack _). vm_compute. exact I.
Defined.

(** The value is not checked: with an SOH byte in it the message that is written gains a
    field, or no longer parses. *)
Example set_field_value_unchecked :
  (∃ out, set_field price_report 44 (bytes "1" ++ [SOH] ++ bytes "54=2") = Done (Ok out) ∧
     parse out = Ok {| fields := [(8, bytes "FIX.4.4"); (9, bytes "26"); (35, bytes "8"); (39, bytes "1");
                                  (150, bytes "F"); (44, bytes "1"); (54, bytes "2"); (10, bytes "131")] |}) ∧
  (∃ out, set_field price_report 44 (bytes "1" ++ [SOH] ++ bytes "x") = Done (Ok out) ∧
     is_ok (parse out) = false).
Proof. split; (eexists; split; [vm_compute; reflexivity|]); vm_compute; reflexivity. Qed.

(** The re-encoded message is self-consistent: it is header, body and trailer
    with BodyLength the exact byte count of the body and CheckSum the three-digit
    sum, modulo 256, of every byte before the checksum field. *)
Theorem set_field_self_consistent b tag v m bs :
  parse b = Ok m → get m 8 = Some bs →
  ∃ out body, set_field b tag v = Done (Ok out) ∧
    body = encode_fields (rewrite_fields tag v (fields m)) ∧
    let before := bytes "8=" ++ bs ++ [SOH] ++ bytes "9=" ++ to_dec (Z.of_nat (length body))
                  ++ [SOH] ++ body in
    out = before ++ bytes "10=" ++ to_dec03 (byte_sum before mod 256) ++ [SOH] ∧
    length (to_dec03 (byte_sum before mod 256)) = 3%nat.
Proof.
  intros Hp Hg. eexists _, _. split; [|split; [done|]].
  { unfold set_field. rewrite Hp, Hg. cbn [expect mbind exec_bind].
    by rewrite encode_body_fields. }
  cbv zeta. rewrite compute_checksum_sum. split; [by rewrite <- !app_assoc|].
  apply to_dec03_length. apply Z.mod_pos_bound. lia.
Qed.

Lemma set_field_self_consistent_witness :
  ∃ out body, set_field price_report 44 (bytes "7") = Done (Ok out) ∧
    body = encode_fields (rewrite_fields 44 (bytes "7") price_report_fields) ∧
    let before := bytes "8=" ++ bytes "FIX.4.4" ++ [SOH] ++ bytes "9="
                  ++ to_dec (Z.of_nat (length body)) ++ [SOH] ++ body in
    out = before ++ bytes "10=" ++ to_dec03 (byte_sum before mod 256) ++ [SOH] ∧
    length (to_dec03 (byte_sum before mod 256)) = 3%nat.
Proof.
  apply (set_field_self_consistent price_report 44 (bytes "7")
           {| fields := price_report_fields |} (bytes "FIX.4.4")).
  - vm_compute. reflexivity.
  - reflexivity.
Defined.

(** Every way [set_field] can end: a parse error is handed on, a parsed message
    with no BeginString panics (the [expect]), and on everything else it returns
    a message that a second identical [set_field] leaves byte for byte as it is. *)
Theorem set_field_outcomes b tag v :
  SOH ∉ v →
  match parse b with
  | Err e => set_field b tag v = Done (Err e)
  | Ok m =>
      match get m 8 with
      | None => ∃ why, set_field b tag v = Panic why
      | Some _ => ∃ out, set_field b tag v = Done (Ok out) ∧ set_field out tag v = Done (Ok out)
      end
  end.
Proof.
  intros Hv. destruct (parse b) as [m|e] eqn:Hp; [|by unfold set_field; rewrite Hp].
  destruct (get m 8) as [bs|] eqn:Hg; [|unfold set_field; rewrite Hp, Hg; by eexists].
  destruct (parse_wf _ _ Hp) as [_ Hwf].
  eexists. split; [by apply set_field_fields|].
  erewrite set_field_fields; [|apply parse_encode; [done|]|done].
  - cbn [fields]. by rewrite rewrite_message_fields, rewrite_fields_idemp.
  - apply message_fields_wf; [by eapply parsed_tag8_wf|]. by apply rewrite_fields_wf.
Qed.

Lemma set_field_outcomes_witness :
  match parse price_report with
  | Err e => set_field price_report 44 (bytes "1") = Done (Err e)
  | Ok m =>
      match get m 8 with
      | None => ∃ why, set_field price_report 44 (bytes "1") = Panic why
      | Some _ => ∃ out, set_field price_report 44 (bytes "1") = Done (Ok out) ∧
                         set_field out 44 (bytes "1") = Done (Ok out)
      end
  end.
Proof.
  apply (set_field_outcomes price_report 44 (bytes "1")).
  apply (bool_decide_unpack _). vm_compute. exact I.
Defined.
