(* ===== verification/FixFraming.v ===== *)
(** crates/adapters/src/fix/framing.rs: finding one complete FIX message at the
    front of a byte buffer.  The indices into the buffer cannot overflow [usize] (a
    slice is never longer than [isize::MAX]); the BodyLength the peer sends can,
    so the sum it enters is kept at its width, under the build profile. *)

From Stdlib Require Import Strings.Byte.
From S2P Require Import Prelude RustStd Core FixMessage.

Definition find_complete_message (p : profile) (buf : list byte)
  : exec (result ParseError (option Z)) :=
  if (length buf <? 2)%nat then Done (Ok None)
  else if negb (starts_with (bytes "8=") buf) then Done (Err MalformedTag)
  else
    match position SOH buf with
    | None => Done (Ok None)
    | Some tag8_end =>
        let rest := drop (tag8_end + 1) buf in
        if (2 <=? length rest)%nat && negb (starts_with (bytes "9=") rest)
        then Done (Err MalformedTag)
        else
          match position SOH rest with
          | None => Done (Ok None)
          | Some tag9_end_rel =>
              body_length_bytes ← slice 2 tag9_end_rel rest;
              match map_err (λ _, MalformedTag) (from_utf8 body_length_bytes) with
              | Err e => Done (Err e)
              | Ok body_length_str =>
                  match map_err (λ _, MalformedTag) (parse_uint 64 body_length_str) with
                  | Err e => Done (Err e)
                  | Ok body_length =>
                      let header_len := Z.of_nat (tag8_end + 1 + tag9_end_rel + 1) in
                      let checksum_trailer_len := 7 in
                      sum ← uadd p 64 header_len body_length;
                      total_len ← uadd p 64 sum checksum_trailer_len;
                      if Z.of_nat (length buf) <? total_len then Done (Ok None)
                      else Done (Ok (Some total_len))
                  end
              end
          end
    end.

(* ------------------------------------------------------------------ *)
(** * The shapes a buffer can have *)

(** A BodyLength field the parser reads as [n]. *)
Definition body_length_of (lenf : list byte) : result ParseError Z :=
  s ← map_err (λ _, MalformedTag) (from_utf8 lenf);
  map_err (λ _, MalformedTag) (parse_uint 64 s).

Definition header (bs lenf : list byte) : list byte :=
  bytes "8=" ++ bs ++ SOH :: bytes "9=" ++ lenf ++ [SOH].

(** How far the header of a buffer has come in. *)
Inductive frame_view : list byte → Prop :=
| ViewShort buf : (length buf < 2)%nat → frame_view buf
| ViewNot8 a b r : [a; b] ≠ bytes "8=" → frame_view (a :: b :: r)
| ViewTag8 bs : SOH ∉ bs → frame_view (bytes "8=" ++ bs)
| ViewTag8End bs : SOH ∉ bs → frame_view (bytes "8=" ++ bs ++ [SOH])
| ViewHalf9 bs c : SOH ∉ bs → c ≠ SOH → frame_view (bytes "8=" ++ bs ++ [SOH; c])
| ViewSohSoh bs : SOH ∉ bs → frame_view (bytes "8=" ++ bs ++ [SOH; SOH])
| ViewNot9 bs a b r :
    SOH ∉ bs → [a; b] ≠ bytes "9=" → frame_view (bytes "8=" ++ bs ++ SOH :: a :: b :: r)
| ViewTag9 bs lenf :
    SOH ∉ bs → SOH ∉ lenf → frame_view (bytes "8=" ++ bs ++ SOH :: bytes "9=" ++ lenf)
| ViewHeader bs lenf r :
    SOH ∉ bs → SOH ∉ lenf → frame_view (header bs lenf ++ r).

Lemma split_at_soh (l : list byte) :
  SOH ∉ l ∨ ∃ bs r, l = bs ++ SOH :: r ∧ SOH ∉ bs.
Proof.
  destruct (position SOH l) as [n|] eqn:E.
  - right. apply position_Some in E as [Hl Hn]. exists (take n l), (drop (S n) l).
    split; [by rewrite take_drop_middle|done].
  - left. by apply position_None.
Qed.

Lemma header_app bs lenf r :
  header bs lenf ++ r = bytes "8=" ++ bs ++ SOH :: bytes "9=" ++ lenf ++ SOH :: r.
Proof.
  unfold header. change (bytes "8=") with [x38; x3d]. change (bytes "9=") with [x39; x3d].
  cbn [app]. rewrite <- app_assoc. cbn [app]. by rewrite <- app_assoc.
Qed.

Lemma frame_view_total buf : frame_view buf.
Proof.
  destruct buf as [|a [|b r]]; [apply ViewShort; simpl; lia..|].
  destruct (decide ([a; b] = bytes "8=")) as [E|]; [|by apply ViewNot8].
  change (a :: b :: r) with ([a; b] ++ r). rewrite E.
  destruct (split_at_soh r) as [|(bs & r' & -> & Hbs)]; [by apply ViewTag8|].
  destruct r' as [|c [|d r']].
  - by apply ViewTag8End.
  - destruct (decide (c = SOH)) as [->|]; [by apply ViewSohSoh|by apply ViewHalf9].
  - destruct (decide ([c; d] = bytes "9=")) as [E'|]; [|by apply ViewNot9].
    change (c :: d :: r') with ([c; d] ++ r'). rewrite E'.
    destruct (split_at_soh r') as [|(lenf & s & -> & Hl)]; [by apply ViewTag9|].
    rewrite <- header_app. by apply ViewHeader.
Qed.

(** ** What the code does on each shape *)

Lemma fcm_short p buf : (length buf < 2)%nat → find_complete_message p buf = Done (Ok None).
Proof. intros H. unfold find_complete_message. by rewrite (proj2 (Nat.ltb_lt _ _)). Qed.

Lemma starts_with_two x y a b r : starts_with [x; y] (a :: b :: r) = bool_decide ([a; b] = [x; y]).
Proof. done. Qed.

Lemma fcm_not8 p a b r :
  [a; b] ≠ bytes "8=" → find_complete_message p (a :: b :: r) = Done (Err MalformedTag).
Proof.
  intros H. unfold find_complete_message. cbn [length Nat.ltb Nat.leb].
  change (bytes "8=") with [x38; x3d] in *. rewrite starts_with_two.
  by rewrite bool_decide_eq_false_2.
Qed.

(** Past the BeginString: what is left is to look at tag 9. *)
Definition after_tag8 (p : profile) (len8 : nat) (len : nat) (rest : list byte)
  : exec (result ParseError (option Z)) :=
  if (2 <=? length rest)%nat && negb (starts_with (bytes "9=") rest)
  then Done (Err MalformedTag)
  else match position SOH rest with
       | None => Done (Ok None)
       | Some e =>
           b ← slice 2 e rest;
           match body_length_of b with
           | Err e => Done (Err e)
           | Ok n =>
               sum ← uadd p 64 (Z.of_nat (len8 + 1 + e + 1)) n;
               total ← uadd p 64 sum 7;
               if Z.of_nat len <? total then Done (Ok None) else Done (Ok (Some total))
           end
       end.

Lemma position_tag8 bs r :
  SOH ∉ bs → position SOH (bytes "8=" ++ bs ++ SOH :: r) = Some (2 + length bs)%nat.
Proof.
  intros H. rewrite app_assoc, position_app_fresh; [by rewrite length_app|].
  rewrite not_elem_of_app. split; [|done].
  apply (bool_decide_unpack _). vm_compute. exact I.
Qed.

Lemma fcm_tag8 p bs r :
  SOH ∉ bs →
  find_complete_message p (bytes "8=" ++ bs ++ SOH :: r) =
  after_tag8 p (2 + length bs) (length (bytes "8=" ++ bs ++ SOH :: r)) r.
Proof.
  intros H. unfold find_complete_message.
  rewrite (proj2 (Nat.ltb_ge _ _)) by (rewrite length_app; simpl; lia).
  rewrite starts_with_app, position_tag8 by done. cbn [negb].
  replace (drop (2 + length bs + 1) (bytes "8=" ++ bs ++ SOH :: r)) with r.
  2:{ rewrite (cons_middle SOH), !app_assoc, drop_app_length'; [done|].
      rewrite !length_app. simpl. lia. }
  unfold after_tag8. destruct (_ && _); [done|]. destruct (position SOH r); [|done].
  destruct (slice _ _ _) as [l|]; [|done]. cbn [mbind exec_bind]. unfold body_length_of.
  destruct (from_utf8 l) as [s|]; [|done]. cbn [map_err mbind result_bind].
  by destruct (parse_uint 64 s).
Qed.

(** [header_len + body_length + 7], under the profile. *)
Definition total_len (p : profile) (hlen n : Z) : exec Z :=
  sum ← uadd p 64 hlen n; uadd p 64 sum 7.

Lemma header_length bs lenf :
  length (header bs lenf) = (2 + length bs + 1 + (2 + length lenf) + 1)%nat.
Proof. unfold header. rewrite !length_app. cbn [length]. rewrite !length_app. simpl. lia. Qed.

Lemma fcm_header p bs lenf r :
  SOH ∉ bs → SOH ∉ lenf →
  find_complete_message p (header bs lenf ++ r) =
  match body_length_of lenf with
  | Err e => Done (Err e)
  | Ok n =>
      total ← total_len p (Z.of_nat (length (header bs lenf))) n;
      Done (Ok (if Z.of_nat (length (header bs lenf) + length r) <? total
                then None else Some total))
  end.
Proof.
  intros Hbs Hl. rewrite <- (length_app (header bs lenf) r), header_app.
  rewrite fcm_tag8 by done. unfold after_tag8. rewrite starts_with_app, andb_false_r.
  assert (Hp : position SOH (bytes "9=" ++ lenf ++ SOH :: r) = Some (2 + length lenf)%nat).
  { rewrite app_assoc, position_app_fresh; [by rewrite length_app|].
    rewrite not_elem_of_app. split; [|done].
    apply (bool_decide_unpack _). vm_compute. exact I. }
  rewrite Hp, slice_ok by (rewrite ?length_app; simpl; rewrite ?length_app; simpl; lia).
  change (drop 2 (bytes "9=" ++ lenf ++ SOH :: r)) with (lenf ++ SOH :: r).
  replace (2 + length lenf - 2)%nat with (length lenf) by lia. rewrite take_app_length.
  cbn [mbind exec_bind]. destruct (body_length_of lenf) as [n|]; [|done].
  rewrite <- header_length. unfold total_len.
  destruct (uadd p 64 _ n) as [sum|]; [|done]. cbn [mbind exec_bind].
  destruct (uadd p 64 sum 7) as [total|]; [|done]. cbn [mbind exec_bind].
  by destruct (_ <? _).
Qed.

Lemma fcm_none_tag8 p bs : SOH ∉ bs → find_complete_message p (bytes "8=" ++ bs) = Done (Ok None).
Proof.
  intros H. unfold find_complete_message.
  rewrite (proj2 (Nat.ltb_ge _ _)) by (rewrite length_app; simpl; lia).
  rewrite starts_with_app. cbn [negb].
  rewrite (proj2 (position_None SOH (bytes "8=" ++ bs))); [done|].
  rewrite not_elem_of_app. split; [|done]. apply (bool_decide_unpack _). vm_compute. exact I.
Qed.

Lemma fcm_none_tag9 p bs lenf :
  SOH ∉ bs → SOH ∉ lenf →
  find_complete_message p (bytes "8=" ++ bs ++ SOH :: bytes "9=" ++ lenf) = Done (Ok None).
Proof.
  intros H Hl. rewrite fcm_tag8 by done. unfold after_tag8.
  rewrite starts_with_app, andb_false_r, (proj2 (position_None SOH (bytes "9=" ++ lenf))); [done|].
  rewrite not_elem_of_app. split; [|done]. apply (bool_decide_unpack _). vm_compute. exact I.
Qed.

Lemma fcm_none_half9 p bs c :
  SOH ∉ bs → c ≠ SOH → find_complete_message p (bytes "8=" ++ bs ++ [SOH; c]) = Done (Ok None).
Proof.
  intros H Hc. rewrite fcm_tag8 by done. unfold after_tag8. cbn [length Nat.leb andb position].
  by rewrite decide_False.
Qed.

Lemma fcm_none_tag8_end p bs :
  SOH ∉ bs → find_complete_message p (bytes "8=" ++ bs ++ [SOH]) = Done (Ok None).
Proof. intros H. by rewrite fcm_tag8. Qed.

Lemma fcm_soh_soh p bs :
  SOH ∉ bs →
  find_complete_message p (bytes "8=" ++ bs ++ [SOH; SOH]) = Panic "slice index out of range".
Proof. intros H. by rewrite fcm_tag8. Qed.

Lemma fcm_not9 p bs a b r :
  SOH ∉ bs → [a; b] ≠ bytes "9=" →
  find_complete_message p (bytes "8=" ++ bs ++ SOH :: a :: b :: r) = Done (Err MalformedTag).
Proof.
  intros H Hn. rewrite fcm_tag8 by done. unfold after_tag8. cbn [length Nat.leb].
  change (bytes "9=") with [x39; x3d] in *. rewrite starts_with_two.
  by rewrite bool_decide_eq_false_2.
Qed.

(** ** Bounds of the length sum *)

(** The two checked additions act as one on the mathematical sum. *)
Lemma uadd_wraps p w a b :
  0 <= w → 0 <= a → 0 <= b → overflow_checks p = false → uadd p w a b = Done (wrap w (a + b)).
Proof.
  intros Hw Ha Hb Hp. unfold uadd. rewrite Hp. case_decide; [|done].
  rewrite wrap_id; [done|]. unfold in_width. lia.
Qed.

Lemma total_len_eq p h n :
  0 <= h → 0 <= n →
  total_len p h n =
  if decide (h + n + 7 < 2 ^ 64) then Done (h + n + 7)
  else if overflow_checks p then Panic "attempt to add with overflow"
  else Done (wrap 64 (h + n + 7)).
Proof.
  intros Hh Hn. unfold total_len. case_decide as Hs.
  { rewrite uadd_exact by lia. cbn [mbind exec_bind]. by rewrite uadd_exact by lia. }
  destruct (overflow_checks p) eqn:Hp.
  - destruct (decide (h + n < 2 ^ 64)).
    + rewrite uadd_exact by done. cbn [mbind exec_bind]. unfold uadd.
      rewrite decide_False by done. by rewrite Hp.
    + unfold uadd. rewrite (decide_False (P := h + n < 2 ^ 64)) by done. by rewrite Hp.
  - rewrite uadd_wraps by (done || lia). cbn [mbind exec_bind].
    pose proof (wrap_range 64 (h + n)) as [? _]; [lia|].
    rewrite uadd_wraps by (done || lia). by rewrite wrap_add_l.
Qed.

Lemma total_len_exact p h n :
  0 <= h → 0 <= n → h + n + 7 < 2 ^ 64 → total_len p h n = Done (h + n + 7).
Proof. intros. rewrite total_len_eq by done. by rewrite decide_True. Qed.

Lemma total_len_panic p h n :
  0 <= h → 0 <= n →
  (∃ why, total_len p h n = Panic why) ↔ overflow_checks p = true ∧ 2 ^ 64 <= h + n + 7.
Proof.
  intros Hh Hn. rewrite total_len_eq by done. case_decide.
  - split; [by intros [??]|]. intros [_ ?]. lia.
  - destruct (overflow_checks p).
    + split; [intros _; split; [done|lia]|by eexists].
    + split; [by intros [??]|by intros [??]].
Qed.

Lemma body_length_of_range lenf n : body_length_of lenf = Ok n → u64? n.
Proof.
  unfold body_length_of. destruct (from_utf8 lenf) as [s|]; [|done]. cbn [map_err mbind result_bind].
  destruct (parse_uint 64 s) as [m|] eqn:E; [|done]. cbn [map_err mbind result_bind]. intros [= <-].
  by apply (parse_uint_range 64 s).
Qed.

Lemma body_length_of_dec n : u64? n → body_length_of (to_dec n) = Ok n.
Proof.
  intros H. unfold body_length_of. rewrite from_utf8_to_dec by width. cbn [map_err mbind result_bind].
  by rewrite parse_to_dec.
Qed.

Lemma body_length_of_err lenf e : body_length_of lenf = Err e → e = MalformedTag.
Proof.
  unfold body_length_of. destruct (from_utf8 lenf); cbn; [|congruence].
  destruct (parse_uint 64 _); cbn; congruence.
Qed.

(** A sum below twice the modulus that wraps to zero is the modulus. *)
Lemma wrapped_to_zero w s : 0 < s < 2 * 2 ^ w → wrap w s = 0 → s = 2 ^ w.
Proof.
  unfold wrap. generalize (2 ^ w). intros m Hs Hz. pose proof (Z.div_mod s m ltac:(lia)) as Hdm.
  rewrite Hz in Hdm. assert (s / m < 2) by (apply Z.div_lt_upper_bound; lia).
  assert (0 <= s / m) by (apply Z.div_pos; lia).
  assert (s / m = 0 ∨ s / m = 1) as [E|E] by lia; rewrite E in Hdm; lia.
Qed.

(* ------------------------------------------------------------------ *)
(** * Properties *)

(** A message whose BodyLength is right: header, body of that many bytes, and the
    seven bytes of the trailer. *)
Definition well_framed (bs body trailer : list byte) : list byte :=
  header bs (to_dec (Z.of_nat (length body))) ++ body ++ trailer.

Lemma well_framed_length bs body trailer :
  length (well_framed bs body trailer) =
  (length (header bs (to_dec (Z.of_nat (length body)))) + length body + length trailer)%nat.
Proof. unfold well_framed. rewrite !length_app. lia. Qed.

Lemma to_dec_no_soh n : 0 <= n → SOH ∉ to_dec n.
Proof. intros H. apply to_dec_no_byte; [done|apply SOH_not_digit]. Qed.

(** The framer finds a well-framed message whatever follows it. *)
Lemma fcm_well_framed p bs body trailer rest :
  SOH ∉ bs → length trailer = 7%nat →
  Z.of_nat (length (well_framed bs body trailer)) < 2 ^ 64 →
  find_complete_message p (well_framed bs body trailer ++ rest) =
  Done (Ok (Some (Z.of_nat (length (well_framed bs body trailer))))).
Proof.
  intros Hbs Ht. rewrite well_framed_length. intros Hlen.
  unfold well_framed. rewrite <- app_assoc, fcm_header by (done || (apply to_dec_no_soh; lia)).
  rewrite body_length_of_dec by width. rewrite total_len_exact by lia.
  cbn [mbind exec_bind]. do 2 f_equal.
  rewrite (proj2 (Z.ltb_ge _ _)) by (rewrite !length_app; lia). f_equal. lia.
Qed.

(** [k] bytes into a block: inside the first part or past it. *)
Lemma take_app_cases {A} k (l1 l2 : list A) :
  (k ≤ length l1)%nat ∧ take k (l1 ++ l2) = take k l1 ∨
  (length l1 < k)%nat ∧ take k (l1 ++ l2) = l1 ++ take (k - length l1) l2.
Proof.
  destruct (decide (k ≤ length l1)%nat); [left|right]; (split; [lia|]).
  - by rewrite take_app_le.
  - by rewrite take_app_ge by lia.
Qed.

Lemma not_elem_take (x : byte) k l : x ∉ l → x ∉ take k l.
Proof. intros H Hin. apply H. rewrite <- (take_drop k l). set_solver. Qed.

(** A prefix of a header that is still short of its closing SOH. *)
Lemma fcm_header_prefix p bs lenf k :
  SOH ∉ bs → SOH ∉ lenf → (k < length (header bs lenf))%nat →
  find_complete_message p (take k (header bs lenf)) = Done (Ok None).
Proof.
  intros Hbs Hl. rewrite header_length. intros Hk. unfold header.
  destruct (take_app_cases k (bytes "8=") (bs ++ SOH :: bytes "9=" ++ lenf ++ [SOH]))
    as [[Hk1 ->]|[Hk1 ->]].
  { destruct k as [|[|[|k]]]; [by apply fcm_short; simpl; lia..| |simpl in Hk1; lia].
    apply (fcm_none_tag8 p []). set_solver. }
  destruct (take_app_cases (k - length (bytes "8=")) bs (SOH :: bytes "9=" ++ lenf ++ [SOH]))
    as [[Hk2 ->]|[Hk2 ->]]; [by apply fcm_none_tag8, not_elem_take|].
  change (length (bytes "8=")) with 2%nat in *.
  destruct (k - 2 - length bs)%nat as [|[|[|j]]] eqn:Ej; [lia| | |].
  - by apply fcm_none_tag8_end.
  - by apply fcm_none_half9.
  - change (take (S (S (S j))) (SOH :: bytes "9=" ++ lenf ++ [SOH]))
      with (SOH :: bytes "9=" ++ take j (lenf ++ [SOH])).
    rewrite take_app_le by lia. by apply fcm_none_tag9, not_elem_take.
Qed.

Lemma fcm_exact p bs body trailer :
  let msg := well_framed bs body trailer in
  SOH ∉ bs → length trailer = 7%nat → Z.of_nat (length msg) < 2 ^ 64 →
  (∀ rest, find_complete_message p (msg ++ rest) = Done (Ok (Some (Z.of_nat (length msg))))) ∧
  (∀ k, (k < length msg)%nat → find_complete_message p (take k msg) = Done (Ok None)).
Proof.
  intros msg Hbs Ht Hlen. split; [intros rest; by apply fcm_well_framed|].
  intros k Hk. subst msg. rewrite well_framed_length in *. unfold well_framed.
  assert (Hl : SOH ∉ to_dec (Z.of_nat (length body))) by (apply to_dec_no_soh; lia).
  destruct (take_app_cases k (header bs (to_dec (Z.of_nat (length body)))) (body ++ trailer))
    as [[Hk1 ->]|[Hk1 ->]].
  - destruct (decide (k < length (header bs (to_dec (Z.of_nat (length body)))))%nat).
    + by apply fcm_header_prefix.
    + rewrite take_ge by lia. rewrite <- (app_nil_r (header _ _)), fcm_header by done.
      rewrite body_length_of_dec by width. rewrite total_len_exact by lia.
      cbn [mbind exec_bind length]. by rewrite (proj2 (Z.ltb_lt _ _)) by lia.
  - rewrite fcm_header by done. rewrite body_length_of_dec by width.
    rewrite total_len_exact by lia. cbn [mbind exec_bind].
    rewrite (proj2 (Z.ltb_lt _ _)); [done|]. rewrite length_take, length_app. lia.
Qed.

(** C21: framing is exact on a well-framed message: it is found with its own length
    whatever follows it in the buffer, and no strict prefix of it is mistaken for
    a message or for an error (the framer asks for more bytes). *)
Theorem framing_exact p bs body trailer :
  let msg := well_framed bs body trailer in
  SOH ∉ bs → length trailer = 7%nat → Z.of_nat (length msg) < 2 ^ 64 →
  (∀ rest, find_complete_message p (msg ++ rest) = Done (Ok (Some (Z.of_nat (length msg))))) ∧
  (∀ k, (k < length msg)%nat → find_complete_message p (take k msg) = Done (Ok None)).
Proof. apply fcm_exact. Qed.

Definition demo_body : list byte := pipes "35=A|49=SERVER|56=CLIENT|34=177|52=20090107-18:15:16|98=0|108=30|".

Example demo_message : well_framed (bytes "FIX.4.2") demo_body (pipes "10=062|") = wikipedia_message.
Proof. vm_compute. reflexivity. Qed.

Lemma framing_exact_witness :
  (∀ rest, find_complete_message dev_profile
     (well_framed (bytes "FIX.4.2") demo_body (pipes "10=062|") ++ rest) = Done (Ok (Some 87))) ∧
  (∀ k, (k < 87)%nat → find_complete_message dev_profile
     (take k (well_framed (bytes "FIX.4.2") demo_body (pipes "10=062|"))) = Done (Ok None)).
Proof.
  apply (framing_exact dev_profile (bytes "FIX.4.2") demo_body (pipes "10=062|")).
  - apply (bool_decide_unpack _). vm_compute. exact I.
  - reflexivity.
  - vm_compute. reflexivity.
Defined.

(** ** Verdicts are final *)

Lemma frame_final_header p bs lenf r more :
  SOH ∉ bs → SOH ∉ lenf →
  find_complete_message p (header bs lenf ++ r) ≠ Done (Ok None) →
  find_complete_message p ((header bs lenf ++ r) ++ more) =
  find_complete_message p (header bs lenf ++ r).
Proof.
  intros Hbs Hl. rewrite <- app_assoc, !fcm_header by done.
  destruct (body_length_of lenf) as [n|]; [|done].
  destruct (total_len p _ n) as [total|]; [|done]. cbn [mbind exec_bind]. rewrite length_app.
  destruct (Z.ltb_spec (Z.of_nat (length (header bs lenf) + length r)) total); [done|].
  intros _. by rewrite (proj2 (Z.ltb_ge _ _)) by lia.
Qed.

Lemma fcm_verdict_stable p buf more r :
  find_complete_message p buf = Done r → r ≠ Ok None →
  find_complete_message p (buf ++ more) = Done r.
Proof.
  intros Hf Hr. destruct (frame_view_total buf) as
    [buf H|a b r' H|bs H|bs H|bs c H Hc|bs H|bs a b r' H Hn|bs lenf H Hl|bs lenf r' H Hl].
  - rewrite fcm_short in Hf by done. congruence.
  - rewrite fcm_not8 in Hf by done. cbn [app]. by rewrite fcm_not8.
  - rewrite fcm_none_tag8 in Hf by done. congruence.
  - rewrite fcm_none_tag8_end in Hf by done. congruence.
  - rewrite fcm_none_half9 in Hf by done. congruence.
  - rewrite fcm_soh_soh in Hf by done. congruence.
  - rewrite fcm_not9 in Hf by done. rewrite <- !app_assoc. cbn [app]. by rewrite fcm_not9.
  - rewrite fcm_none_tag9 in Hf by done. congruence.
  - rewrite frame_final_header by (done || congruence). done.
Qed.

(** A verdict is final: once the framer has returned a message length or an
    error, more bytes at the end of the buffer do not change it, so the verdict
    does not depend on how the stream was cut into reads. *)
Theorem framing_verdict_stable p buf more r :
  find_complete_message p buf = Done r → r ≠ Ok None →
  find_complete_message p (buf ++ more) = Done r.
Proof. apply fcm_verdict_stable. Qed.

Lemma framing_verdict_stable_witness :
  find_complete_message dev_profile (wikipedia_message ++ bytes "8=F") = Done (Ok (Some 87)).
Proof.
  apply (framing_verdict_stable dev_profile wikipedia_message (bytes "8=F") (Ok (Some 87))).
  - vm_compute. reflexivity.
  - discriminate.
Defined.

(** C28: the framer panics in exactly two cases: when two SOH bytes end the buffer
    right after the BeginString (the slice [2..0]), and, in a build with overflow
    checks, when the peer's BodyLength makes the length sum overflow [usize]. *)
Theorem framing_panics_iff p buf :
  (∃ why, find_complete_message p buf = Panic why) ↔
  (∃ bs, SOH ∉ bs ∧ buf = bytes "8=" ++ bs ++ [SOH; SOH]) ∨
  (∃ bs lenf r n, SOH ∉ bs ∧ SOH ∉ lenf ∧ buf = header bs lenf ++ r ∧
     body_length_of lenf = Ok n ∧ overflow_checks p = true ∧
     2 ^ 64 <= Z.of_nat (length (header bs lenf)) + n + 7).
Proof.
  split.
  - intros [why Hf]. destruct (frame_view_total buf) as
      [buf H|a b r' H|bs H|bs H|bs c H Hc|bs H|bs a b r' H Hn|bs lenf H Hl|bs lenf r' H Hl].
    + by rewrite fcm_short in Hf.
    + by rewrite fcm_not8 in Hf.
    + by rewrite fcm_none_tag8 in Hf.
    + by rewrite fcm_none_tag8_end in Hf.
    + by rewrite fcm_none_half9 in Hf.
    + left. by exists bs.
    + by rewrite fcm_not9 in Hf.
    + by rewrite fcm_none_tag9 in Hf.
    + right. rewrite fcm_header in Hf by done. destruct (body_length_of lenf) as [n|] eqn:En; [|done].
      exists bs, lenf, r', n. destruct (total_len p _ n) as [|w] eqn:Et; [done|].
      pose proof (body_length_of_range _ _ En).
      destruct (proj1 (total_len_panic p (Z.of_nat (length (header bs lenf))) n
                         ltac:(lia) ltac:(width))) as [? ?]; [by exists w|]. by split_and!.
  - intros [(bs & H & ->)|(bs & lenf & r & n & H & Hl & -> & Hn & Hp & Hb)].
    + rewrite fcm_soh_soh by done. by eexists.
    + rewrite fcm_header, Hn by done. pose proof (body_length_of_range _ _ Hn).
      destruct (proj2 (total_len_panic p (Z.of_nat (length (header bs lenf))) n
                         ltac:(lia) ltac:(width))) as [w ->]; [done|]. by exists w.
Qed.

Lemma fcm_length_bounds p buf n :
  Z.of_nat (length buf) < 2 ^ 63 → find_complete_message p buf = Done (Ok (Some n)) →
  0 <= n <= Z.of_nat (length buf) ∧
  (n = 0 → overflow_checks p = false ∧ ∃ bs lenf r,
     buf = header bs lenf ++ r ∧
     body_length_of lenf = Ok (2 ^ 64 - 7 - Z.of_nat (length (header bs lenf)))).
Proof.
  intros Hsz Hf. destruct (frame_view_total buf) as
    [buf H|a b r' H|bs H|bs H|bs c H Hc|bs H|bs a b r' H Hn|bs lenf H Hl|bs lenf r' H Hl].
  1: by rewrite fcm_short in Hf.
  1: by rewrite fcm_not8 in Hf.
  1: by rewrite fcm_none_tag8 in Hf.
  1: by rewrite fcm_none_tag8_end in Hf.
  1: by rewrite fcm_none_half9 in Hf.
  1: by rewrite fcm_soh_soh in Hf.
  1: by rewrite fcm_not9 in Hf.
  1: by rewrite fcm_none_tag9 in Hf.
  rewrite fcm_header in Hf by done. destruct (body_length_of lenf) as [k|] eqn:En; [|done].
  pose proof (body_length_of_range _ _ En). rewrite length_app in *.
  rewrite total_len_eq in Hf by width. case_decide as Hd.
  { cbn [mbind exec_bind] in Hf. destruct (Z.ltb_spec (Z.of_nat (length (header bs lenf) + length r'))
      (Z.of_nat (length (header bs lenf)) + k + 7)); [done|].
    assert (n = Z.of_nat (length (header bs lenf)) + k + 7) as -> by congruence.
    split; [width|intros ?; exfalso; width]. }
  destruct (overflow_checks p) eqn:Hp; [done|]. cbn [mbind exec_bind] in Hf.
  set (s := Z.of_nat (length (header bs lenf)) + k + 7) in *.
  destruct (Z.ltb_spec (Z.of_nat (length (header bs lenf) + length r')) (wrap 64 s)); [done|].
  assert (n = wrap 64 s) as -> by congruence. pose proof (wrap_range 64 s ltac:(lia)). split; [width|]. intros Hz.
  split; [done|]. exists bs, lenf, r'. split; [done|]. rewrite En. f_equal.
  apply wrapped_to_zero in Hz; subst s; width.
Qed.

(** The length returned lies within the buffer; it is positive, so the caller's
    loop makes progress, unless the build wraps and BodyLength is the one value
    that makes the sum wrap to zero.  (A slice is at most [isize::MAX] long.) *)
Theorem framing_length_bounds p buf n :
  Z.of_nat (length buf) < 2 ^ 63 → find_complete_message p buf = Done (Ok (Some n)) →
  0 <= n <= Z.of_nat (length buf) ∧
  (n = 0 → overflow_checks p = false ∧ ∃ bs lenf r,
     buf = header bs lenf ++ r ∧
     body_length_of lenf = Ok (2 ^ 64 - 7 - Z.of_nat (length (header bs lenf)))).
Proof. apply fcm_length_bounds. Qed.

Definition zero_length_message : list byte := pipes "8=F|9=18446744073709551582|35=D|".

Lemma framing_length_bounds_witness :
  0 <= 0 <= Z.of_nat (length zero_length_message) ∧
  (0 = 0 → overflow_checks release_profile = false ∧ ∃ bs lenf r,
     zero_length_message = header bs lenf ++ r ∧
     body_length_of lenf = Ok (2 ^ 64 - 7 - Z.of_nat (length (header bs lenf)))).
Proof.
  apply (framing_length_bounds release_profile zero_length_message 0); [done|].
  vm_compute. reflexivity.
Defined.

(** ** Framing and re-encoding *)

Lemma encode_one t v : encode_fields [(t, v)] = to_dec t ++ EQUALS :: v ++ [SOH].
Proof. unfold encode_fields, encode_field. simpl. by rewrite app_nil_r. Qed.

Lemma encode_message_framed bs body :
  encode_fields (message_fields bs body) =
  well_framed bs (encode_fields body)
    (encode_fields [(10, to_dec03 (compute_checksum (encode_fields
       ([(8, bs); (9, to_dec (Z.of_nat (length (encode_fields body))))] ++ body))))]).
Proof.
  unfold message_fields. rewrite !encode_fields_app. unfold well_framed.
  rewrite (encode_fields_cons (8, bs)), (encode_one 9). unfold encode_field. cbn [fst snd].
  change (to_dec 8) with [x38]. change (to_dec 9) with [x39]. unfold header.
  change (bytes "8=") with [x38; x3d]. change (bytes "9=") with [x39; x3d].
  unfold EQUALS. cbn [app]. rewrite <- !app_assoc. cbn [app]. by rewrite <- !app_assoc.
Qed.

Lemma checksum_trailer_length n : 0 <= n < 256 → length (encode_fields [(10, to_dec03 n)]) = 7%nat.
Proof.
  intros H. rewrite encode_one. change (to_dec 10) with [x31; x30].
  cbn [app length]. rewrite length_app, to_dec03_length by done. done.
Qed.

Lemma set_field_framed p b tag v out rest :
  SOH ∉ v → set_field b tag v = Done (Ok out) → Z.of_nat (length out) < 2 ^ 64 →
  find_complete_message p (out ++ rest) = Done (Ok (Some (Z.of_nat (length out)))).
Proof.
  intros Hv Hs Hlen. destruct (parse b) as [m|] eqn:Hp; [|unfold set_field in Hs; by rewrite Hp in Hs].
  destruct (get m 8) as [bs|] eqn:Hg; [|unfold set_field in Hs; by rewrite Hp, Hg in Hs].
  rewrite (set_field_fields _ _ _ _ _ Hp Hg) in Hs. injection Hs as <-.
  destruct (parse_wf _ _ Hp) as [_ Hwf]. rewrite encode_message_framed in *.
  apply fcm_well_framed; [by eapply parsed_tag8_wf| |done].
  apply checksum_trailer_length, compute_checksum_range.
Qed.

(** What [set_field] writes, the framer takes back as one message, whatever
    follows it: re-encoding never desynchronises a FIX stream. *)
Theorem set_field_output_is_framed p b tag v out rest :
  SOH ∉ v → set_field b tag v = Done (Ok out) → Z.of_nat (length out) < 2 ^ 64 →
  find_complete_message p (out ++ rest) = Done (Ok (Some (Z.of_nat (length out)))).
Proof. apply set_field_framed. Qed.

Definition mutated_report : list byte := pipes "8=FIX.4.4|9=24|35=8|39=1|150=F|44=99.9|10=080|".

Lemma set_field_output_is_framed_witness :
  find_complete_message dev_profile (mutated_report ++ bytes "8=FIX") =
  Done (Ok (Some (Z.of_nat (length mutated_report)))).
Proof.
  apply (set_field_output_is_framed dev_profile price_report 44 (bytes "99.9")).
  - apply (bool_decide_unpack _). vm_compute. exact I.
  - vm_compute. reflexivity.
  - vm_compute. reflexivity.
Defined.

Lemma fcm_some_starts p buf n :
  find_complete_message p buf = Done (Ok (Some n)) → ∃ r, buf = bytes "8=" ++ r.
Proof.
  intros Hf. destruct (frame_view_total buf) as
    [buf H|a b r' H|bs H|bs H|bs c H Hc|bs H|bs a b r' H Hn|bs lenf H Hl|bs lenf r' H Hl];
    [| |by eexists..].
  - by rewrite fcm_short in Hf.
  - by rewrite fcm_not8 in Hf.
Qed.

(** A byte string that starts with "8=" has a BeginString, if it parses. *)
Lemma parse_starts_8 r m : parse (bytes "8=" ++ r) = Ok m → ∃ bs, get m 8 = Some bs.
Proof.
  assert (Hf : ∀ v, parse_field (bytes "8=" ++ v) = Ok (8, v)).
  { intros v. exact (parse_field_encode 8 v ltac:(width)). }
  destruct (split_at_soh r) as [H|(bs & r' & -> & H)].
  - assert (Hs : split_on SOH (bytes "8=" ++ r) = [bytes "8=" ++ r]).
    { apply split_on_single. rewrite not_elem_of_app. split; [|done].
      apply (bool_decide_unpack _). vm_compute. exact I. }
    unfold parse. rewrite Hs, parse_pieces_cons_nonempty, Hf by done. cbn. intros [= <-].
    by exists r.
  - assert (Hs : split_on SOH (bytes "8=" ++ bs ++ SOH :: r') = (bytes "8=" ++ bs) :: split_on SOH r').
    { rewrite app_assoc. apply split_on_fresh. rewrite not_elem_of_app. split; [|done].
      apply (bool_decide_unpack _). vm_compute. exact I. }
    unfold parse. rewrite Hs, parse_pieces_cons_nonempty, Hf by done.
    cbn [mbind result_bind]. destruct (parse_pieces _) as [fs|]; cbn; [|done].
    intros [= <-]. by exists bs.
Qed.

(** The message the framer cut out of a buffer, whatever its length. *)
Lemma framed_has_tag8 p buf n m :
  find_complete_message p buf = Done (Ok (Some n)) → parse (take (Z.to_nat n) buf) = Ok m →
  ∃ bs, get m 8 = Some bs.
Proof.
  intros [r ->]%fcm_some_starts. destruct (Z.to_nat n) as [|[|k]]; [done..|].
  apply (parse_starts_8 (take k r)).
Qed.

(** The guarantee [set_field]'s [expect] relies on: on a message cut out by the
    framer it never panics. *)
Theorem framed_message_never_panics_set_field p buf n tag v :
  find_complete_message p buf = Done (Ok (Some n)) →
  ∃ r, set_field (take (Z.to_nat n) buf) tag v = Done r.
Proof.
  intros Hf. unfold set_field. destruct (parse _) as [m|] eqn:Hp; [|by eexists].
  destruct (framed_has_tag8 _ _ _ _ Hf Hp) as [bs ->]. by eexists.
Qed.

Lemma framed_message_never_panics_set_field_witness :
  ∃ r, set_field (take (Z.to_nat 87) wikipedia_message) 44 (bytes "1") = Done r.
Proof.
  apply (framed_message_never_panics_set_field dev_profile wikipedia_message 87 44 (bytes "1")).
  vm_compute. reflexivity.
Defined.
