(* ===== verification/FixAdapter.v ===== *)
(** crates/adapters/src/fix/adapter.rs: the four FIX faults, each an
    implementation of the [ProtocolAdapter] trait, and [AnyAdapter], the
    [Arc<dyn ProtocolAdapter>] that dispatches to one of them. *)

From Stdlib Require Import Strings.Byte.
From S2P Require Import Prelude RustStd Core FixMessage FixFraming.

(** [parse(..).map_err(|e| AdapterRejected(name, format!("{e:?}")))]. *)
Definition rejected (name : string) (e : ParseError) : HarnessError :=
  AdapterRejected name (debug_ParseError e).

(* ------------------------------------------------------------------ *)
(** * FixSilentReject *)

Inductive FixSilentReject := mk_FixSilentReject.

Definition is_rejection (parsed : FixMessage) : bool :=
  is_ parsed TAG_MSG_TYPE MSG_TYPE_REJECT
  || is_ parsed TAG_MSG_TYPE MSG_TYPE_ORDER_CANCEL_REJECT
  || (is_ parsed TAG_MSG_TYPE MSG_TYPE_EXECUTION_REPORT
      && (is_ parsed TAG_ORD_STATUS ORD_STATUS_REJECTED
          || is_ parsed TAG_EXEC_TYPE EXEC_TYPE_REJECTED)).

Definition FixSilentReject_name : string := "fix-silent-reject".

Definition FixSilentReject_intercept (msg : RawMessage) : result HarnessError InterceptAction :=
  if decide (direction msg ≠ Inbound) then Ok Forward
  else
    parsed ← map_err (rejected FixSilentReject_name) (parse (msg_bytes msg));
    Ok (if is_rejection parsed then Drop else Forward).

#[global] Instance FixSilentReject_adapter : ProtocolAdapter FixSilentReject := {|
  pa_name _ := FixSilentReject_name;
  pa_intercept a msg := Done (FixSilentReject_intercept msg, a)
|}.

(* ------------------------------------------------------------------ *)
(** * FixAckWithoutExecution *)

Inductive FixAckWithoutExecution := mk_FixAckWithoutExecution.

Definition is_fill (parsed : FixMessage) : bool :=
  is_ parsed TAG_EXEC_TYPE EXEC_TYPE_TRADE
  || is_ parsed TAG_ORD_STATUS ORD_STATUS_PARTIALLY_FILLED
  || is_ parsed TAG_ORD_STATUS ORD_STATUS_FILLED.

Definition FixAckWithoutExecution_name : string := "fix-ack-without-execution".

Definition FixAckWithoutExecution_intercept (msg : RawMessage)
  : result HarnessError InterceptAction :=
  if decide (direction msg ≠ Inbound) then Ok Forward
  else
    parsed ← map_err (rejected FixAckWithoutExecution_name) (parse (msg_bytes msg));
    if negb (is_ parsed TAG_MSG_TYPE MSG_TYPE_EXECUTION_REPORT) then Ok Forward
    else Ok (if is_fill parsed then Drop else Forward).

#[global] Instance FixAckWithoutExecution_adapter : ProtocolAdapter FixAckWithoutExecution := {|
  pa_name _ := FixAckWithoutExecution_name;
  pa_intercept a msg := Done (FixAckWithoutExecution_intercept msg, a)
|}.

(* ------------------------------------------------------------------ *)
(** * FixRateLimitThrottle *)

(** [count] is the [AtomicU64]. *)
Record FixRateLimitThrottle := { threshold : Z; count : Z }.

Definition FixRateLimitThrottle_new (threshold : Z) : FixRateLimitThrottle :=
  {| threshold := threshold; count := 0 |}.

(** [fetch_add] wraps and returns the old value; the [+ 1] on that value is
    ordinary arithmetic, so it follows the profile. *)
Definition FixRateLimitThrottle_intercept (p : profile) (a : FixRateLimitThrottle)
    (msg : RawMessage) : exec (result HarnessError InterceptAction * FixRateLimitThrottle) :=
  if decide (direction msg ≠ Outbound) then Done (Ok Forward, a)
  else
    let a' := {| threshold := threshold a; count := wrap 64 (count a + 1) |} in
    seen ← uadd p 64 (count a) 1;
    Done (Ok (if threshold a <? seen then Drop else Forward), a').

Definition FixRateLimitThrottle_adapter (p : profile) : ProtocolAdapter FixRateLimitThrottle := {|
  pa_name _ := "fix-rate-limit-throttle";
  pa_intercept := FixRateLimitThrottle_intercept p
|}.

(* ------------------------------------------------------------------ *)
(** * FixExecutionReportPriceMutation *)

Record FixExecutionReportPriceMutation := { mutated_price : list byte }.

Definition FixExecutionReportPriceMutation_name : string := "fix-execution-report-price-mutation".

Definition FixExecutionReportPriceMutation_intercept (a : FixExecutionReportPriceMutation)
    (msg : RawMessage) : exec (result HarnessError InterceptAction) :=
  if decide (direction msg ≠ Inbound) then Done (Ok Forward)
  else
    match map_err (rejected FixExecutionReportPriceMutation_name) (parse (msg_bytes msg)) with
    | Err e => Done (Err e)
    | Ok parsed =>
        if negb (is_ parsed TAG_MSG_TYPE MSG_TYPE_EXECUTION_REPORT)
           || bool_decide (get parsed TAG_PRICE = None)
        then Done (Ok Forward)
        else
          r ← set_field (msg_bytes msg) TAG_PRICE (mutated_price a);
          Done (mutated ← map_err (rejected FixExecutionReportPriceMutation_name) r;
                Ok (Mutate mutated))
    end.

#[global] Instance FixExecutionReportPriceMutation_adapter
  : ProtocolAdapter FixExecutionReportPriceMutation := {|
  pa_name _ := FixExecutionReportPriceMutation_name;
  pa_intercept a msg :=
    r ← FixExecutionReportPriceMutation_intercept a msg; Done (r, a)
|}.

(* ------------------------------------------------------------------ *)
(** * [dyn ProtocolAdapter] *)

Inductive AnyAdapter :=
| SilentReject (a : FixSilentReject)
| AckWithoutExecution (a : FixAckWithoutExecution)
| RateLimitThrottle (a : FixRateLimitThrottle)
| PriceMutation (a : FixExecutionReportPriceMutation).

Definition with_state {A} (mk : A → AnyAdapter)
    (x : exec (result HarnessError InterceptAction * A))
  : exec (result HarnessError InterceptAction * AnyAdapter) :=
  ra ← x; Done (ra.1, mk ra.2).

Definition AnyAdapter_adapter (p : profile) : ProtocolAdapter AnyAdapter := {|
  pa_name a :=
    match a with
    | SilentReject a => pa_name a
    | AckWithoutExecution a => pa_name a
    | RateLimitThrottle a => @pa_name _ (FixRateLimitThrottle_adapter p) a
    | PriceMutation a => pa_name a
    end;
  pa_intercept a msg :=
    match a with
    | SilentReject a => with_state SilentReject (pa_intercept a msg)
    | AckWithoutExecution a => with_state AckWithoutExecution (pa_intercept a msg)
    | RateLimitThrottle a =>
        with_state RateLimitThrottle (@pa_intercept _ (FixRateLimitThrottle_adapter p) a msg)
    | PriceMutation a => with_state PriceMutation (pa_intercept a msg)
    end
|}.

(* ------------------------------------------------------------------ *)
(** * Lemmas *)

(** A whole session seen by one adapter, message by message. *)
Fixpoint intercept_all {A} `{ProtocolAdapter A} (a : A) (ms : list RawMessage)
  : exec (list (result HarnessError InterceptAction) * A) :=
  match ms with
  | [] => Done ([], a)
  | m :: ms' =>
      ra ← pa_intercept a m;
      rest ← intercept_all ra.2 ms';
      Done (ra.1 :: rest.1, rest.2)
  end.

(** What a rate limiter is meant to do, with an unbounded counter: let [budget] more
    outbound messages through, then drop; inbound traffic is not its business. *)
Fixpoint throttle_spec (budget : Z) (ms : list RawMessage) : list InterceptAction :=
  match ms with
  | [] => []
  | m :: ms' =>
      match direction m with
      | Inbound => Forward :: throttle_spec budget ms'
      | Outbound =>
          (if 0 <? budget then Forward else Drop) :: throttle_spec (budget - 1) ms'
      end
  end.

Definition outbound_count (ms : list RawMessage) : Z :=
  Z.of_nat (length (filter (λ m, direction m = Outbound) ms)).

Lemma outbound_count_cons m ms :
  outbound_count (m :: ms) =
  outbound_count ms + (if decide (direction m = Outbound) then 1 else 0).
Proof. unfold outbound_count. rewrite filter_cons. case_decide; cbn [length]; lia. Qed.

Lemma outbound_count_nonneg ms : 0 <= outbound_count ms.
Proof. unfold outbound_count. lia. Qed.

Lemma throttle_all p a ms :
  0 <= count a → count a + outbound_count ms < 2 ^ 64 →
  @intercept_all _ (FixRateLimitThrottle_adapter p) a ms =
  Done (Ok <$> throttle_spec (threshold a - count a) ms,
        {| threshold := threshold a; count := count a + outbound_count ms |}).
Proof.
  revert a. induction ms as [|m ms IH]; intros [t c] Hc Hb; cbn [threshold count] in *.
  { cbn. unfold outbound_count. cbn. by rewrite Z.add_0_r. }
  rewrite outbound_count_cons in *. pose proof (outbound_count_nonneg ms).
  cbn [intercept_all throttle_spec pa_intercept FixRateLimitThrottle_adapter].
  unfold FixRateLimitThrottle_intercept. cbn [threshold count].
  destruct (direction m) eqn:Ed.
  - rewrite decide_True by done. cbn [mbind exec_bind fst snd].
    rewrite decide_False in * by done. rewrite IH; cbn [threshold count]; [|lia..].
    cbn. by rewrite Z.add_0_r.
  - rewrite decide_False by tauto. rewrite decide_True in * by done.
    rewrite uadd_exact by lia. cbn [mbind exec_bind fst snd].
    rewrite wrap_id by width. rewrite IH; cbn [threshold count]; [|lia..].
    cbn [mbind exec_bind fst snd]. rewrite fmap_cons.
    replace (t - (c + 1)) with (t - c - 1) by lia.
    replace (c + 1 + outbound_count ms) with (c + (outbound_count ms + 1)) by lia.
    by destruct (Z.ltb_spec t (c + 1)), (Z.ltb_spec 0 (t - c)); try lia.
Qed.

Lemma throttle_spec_forwards t ms i m :
  ms !! i = Some m → direction m = Outbound →
  throttle_spec t ms !! i =
  Some (if outbound_count (take i ms) <? t then Forward else Drop).
Proof.
  revert t i. induction ms as [|x ms IH]; intros t i; [done|].
  destruct i as [|i]; cbn [throttle_spec lookup list_lookup take].
  - intros [= ->] Hd. rewrite Hd. cbn. done.
  - intros Hi Hd. rewrite outbound_count_cons. destruct (direction x) eqn:Ex.
    + rewrite decide_False by done. rewrite Z.add_0_r. by apply IH.
    + rewrite decide_True by done. etrans; [by apply (IH (t - 1) i)|]. f_equal.
      destruct (Z.ltb_spec (outbound_count (take i ms)) (t - 1)),
        (Z.ltb_spec (outbound_count (take i ms) + 1) t); done || lia.
Qed.

Lemma throttle_spec_inbound t ms i m :
  ms !! i = Some m → direction m = Inbound → throttle_spec t ms !! i = Some Forward.
Proof.
  revert t i. induction ms as [|x ms IH]; intros t i; [done|].
  destruct i as [|i]; cbn [throttle_spec].
  - intros [= ->] ->. done.
  - intros Hi Hd. destruct (direction x); by apply IH.
Qed.

Lemma throttle_spec_length t ms : length (throttle_spec t ms) = length ms.
Proof.
  revert t. induction ms as [|x ms IH]; intros t; [done|]. cbn.
  destruct (direction x); cbn; by rewrite IH.
Qed.

(** ** What each adapter can answer *)

(** The answers a [parse]-then-decide adapter gives on a message. *)
Definition answer_shape (name : string) (msg : RawMessage) (r : result HarnessError InterceptAction)
  : Prop :=
  (direction msg = Outbound → r = Ok Forward ∨ r = Ok Drop) ∧
  (∀ e, r = Err e → direction msg = Inbound ∧ ∃ pe,
     parse (msg_bytes msg) = Err pe ∧ e = AdapterRejected name (debug_ParseError pe)).

Lemma answer_ok name msg act :
  (direction msg = Outbound → act = Forward ∨ act = Drop) → answer_shape name msg (Ok act).
Proof. intros H. split; [|done]. intros [->| ->]%H; [by left|by right]. Qed.

Lemma answer_parse name msg f :
  direction msg = Inbound →
  answer_shape name msg
    (m ← map_err (rejected name) (parse (msg_bytes msg)); Ok (f m)).
Proof.
  intros Hd. destruct (parse (msg_bytes msg)) as [m|pe] eqn:Hp; cbn [map_err mbind result_bind].
  - split; [by rewrite Hd|done].
  - split; [by rewrite Hd|]. intros e [= <-]. split; [done|]. by exists pe.
Qed.

Lemma silent_reject_shape msg :
  answer_shape FixSilentReject_name msg (FixSilentReject_intercept msg).
Proof.
  unfold FixSilentReject_intercept. case_decide; [by apply answer_ok; left|].
  by apply (answer_parse _ _ (λ m, if is_rejection m then Drop else Forward)).
Qed.

Lemma ack_without_execution_shape msg :
  answer_shape FixAckWithoutExecution_name msg (FixAckWithoutExecution_intercept msg).
Proof.
  unfold FixAckWithoutExecution_intercept. case_decide as Hd; [by apply answer_ok; left|].
  pose proof (answer_parse FixAckWithoutExecution_name msg
    (λ m, if negb (is_ m TAG_MSG_TYPE MSG_TYPE_EXECUTION_REPORT) then Forward
          else if is_fill m then Drop else Forward) Hd) as H.
  destruct (map_err _ _) as [m|]; [|done]. cbn [mbind result_bind] in *. by case_match.
Qed.

Lemma price_mutation_shape p buf n dir a :
  find_complete_message p buf = Done (Ok (Some n)) →
  let msg := {| msg_bytes := take (Z.to_nat n) buf; direction := dir |} in
  ∃ r, FixExecutionReportPriceMutation_intercept a msg = Done r ∧
    answer_shape FixExecutionReportPriceMutation_name msg r.
Proof.
  intros Hf msg. unfold FixExecutionReportPriceMutation_intercept.
  case_decide as Hd; [eexists; split; [done|]; by apply answer_ok; left|].
  destruct (parse (msg_bytes msg)) as [m|pe] eqn:Hp; cbn [map_err].
  - destruct (_ || _); [eexists; split; [done|]; by apply answer_ok; left|].
    destruct (framed_has_tag8 _ _ _ _ Hf Hp) as [bs Hg].
    rewrite (set_field_fields _ _ _ _ _ Hp Hg). eexists. split; [done|].
    apply answer_ok. by rewrite Hd.
  - eexists. split; [done|]. split; [by rewrite Hd|]. intros e [= <-]. split; [done|]. by exists pe.
Qed.

(* ------------------------------------------------------------------ *)
(** * Properties *)

(** Over a whole session, in both directions interleaved, the throttle forwards
    every inbound message and exactly the first [threshold] outbound ones; it
    never fails, and its counter is the number of outbound messages seen. *)
Theorem throttle_forwards_exactly_threshold p t ms :
  outbound_count ms < 2 ^ 64 →
  ∃ rs, @intercept_all _ (FixRateLimitThrottle_adapter p) (FixRateLimitThrottle_new t) ms =
        Done (rs, {| threshold := t; count := outbound_count ms |}) ∧
    length rs = length ms ∧
    ∀ i m, ms !! i = Some m →
      rs !! i = Some (Ok (match direction m with
                          | Inbound => Forward
                          | Outbound => if outbound_count (take i ms) <? t then Forward else Drop
                          end)).
Proof.
  intros Hb. eexists. split; [by apply throttle_all; cbn|]. cbn [threshold count FixRateLimitThrottle_new].
  rewrite Z.sub_0_r. split; [by rewrite length_fmap, throttle_spec_length|].
  intros i m Hi. rewrite list_lookup_fmap. destruct (direction m) eqn:Ed.
  - by rewrite (throttle_spec_inbound t ms i m).
  - by rewrite (throttle_spec_forwards t ms i m).
Qed.

Definition demo_session : list RawMessage :=
  [{| msg_bytes := wikipedia_message; direction := Outbound |};
   {| msg_bytes := wikipedia_message; direction := Inbound |};
   {| msg_bytes := wikipedia_message; direction := Outbound |};
   {| msg_bytes := wikipedia_message; direction := Outbound |}].

Lemma throttle_forwards_exactly_threshold_witness :
  ∃ rs, @intercept_all _ (FixRateLimitThrottle_adapter dev_profile)
          (FixRateLimitThrottle_new 2) demo_session =
        Done (rs, {| threshold := 2; count := outbound_count demo_session |}) ∧
    length rs = length demo_session ∧
    ∀ i m, demo_session !! i = Some m →
      rs !! i = Some (Ok (match direction m with
                          | Inbound => Forward
                          | Outbound => if outbound_count (take i demo_session) <? 2
                                        then Forward else Drop
                          end)).
Proof.
  apply (throttle_forwards_exactly_threshold dev_profile 2 demo_session).
  vm_compute. reflexivity.
Defined.

(** C38: the silent-reject fault drops exactly the inbound messages it is named for:
    on the wire encoding of any well-formed fields it drops session rejects
    (35=3), cancel rejects (35=9) and execution reports with a rejected OrdStatus
    or ExecType, and forwards everything else, in particular all outbound traffic. *)
Theorem silent_reject_drops_exactly fs dir :
  fs ≠ [] → Forall field_wf fs →
  let r := FixSilentReject_intercept {| msg_bytes := encode_fields fs; direction := dir |} in
  (r = Ok Drop ∨ r = Ok Forward) ∧
  (r = Ok Drop ↔ dir = Inbound ∧
     (find_tag 35 fs = Some (bytes "3") ∨ find_tag 35 fs = Some (bytes "9") ∨
      find_tag 35 fs = Some (bytes "8") ∧
        (find_tag 39 fs = Some (bytes "8") ∨ find_tag 150 fs = Some (bytes "8")))).
Proof.
  intros Hne Hwf. cbv zeta. unfold FixSilentReject_intercept. cbn [msg_bytes direction].
  case_decide as Hd; [split; [by right|]; split; [done|by intros [? _]]|].
  rewrite parse_encode by done. cbn [map_err mbind result_bind].
  destruct (is_rejection _) eqn:E; (split; [naive_solver|]); unfold is_rejection, is_, get in E;
    rewrite ?orb_true_iff, ?orb_false_iff, ?andb_true_iff, ?andb_false_iff, ?orb_true_iff,
      ?orb_false_iff, ?bool_decide_eq_true, ?bool_decide_eq_false in E; cbn [fields] in E.
  - split; [|done]. intros _. split; [done|]. tauto.
  - split; [done|]. intros [_ H]. exfalso. tauto.
Qed.

Definition cancel_reject_fields : list field := [(8, bytes "FIX.4.4"); (35, bytes "9")].

Lemma silent_reject_drops_exactly_witness :
  let r := FixSilentReject_intercept
             {| msg_bytes := encode_fields cancel_reject_fields; direction := Inbound |} in
  (r = Ok Drop ∨ r = Ok Forward) ∧
  (r = Ok Drop ↔ Inbound = Inbound ∧
     (find_tag 35 cancel_reject_fields = Some (bytes "3") ∨
      find_tag 35 cancel_reject_fields = Some (bytes "9") ∨
      find_tag 35 cancel_reject_fields = Some (bytes "8") ∧
        (find_tag 39 cancel_reject_fields = Some (bytes "8") ∨
         find_tag 150 cancel_reject_fields = Some (bytes "8")))).
Proof.
  apply (silent_reject_drops_exactly cancel_reject_fields Inbound).
  - discriminate.
  - repeat (apply Forall_cons_2; [split; [split; [discriminate|reflexivity]|
      apply (bool_decide_unpack _); vm_compute; exact I]|]). constructor.
Defined.

(** Ack-without-execution drops exactly the inbound execution reports that are
    fills (150=F, 39=1 or 39=2); the initial acknowledgement and every message of
    another type go through. *)
Theorem ack_without_execution_drops_exactly fs dir :
  fs ≠ [] → Forall field_wf fs →
  let r := FixAckWithoutExecution_intercept {| msg_bytes := encode_fields fs; direction := dir |} in
  (r = Ok Drop ∨ r = Ok Forward) ∧
  (r = Ok Drop ↔ dir = Inbound ∧ find_tag 35 fs = Some (bytes "8") ∧
     (find_tag 150 fs = Some (bytes "F") ∨ find_tag 39 fs = Some (bytes "1") ∨
      find_tag 39 fs = Some (bytes "2"))).
Proof.
  intros Hne Hwf. cbv zeta. unfold FixAckWithoutExecution_intercept. cbn [msg_bytes direction].
  case_decide as Hd; [split; [by right|]; split; [done|by intros [? _]]|].
  subst dir.
  rewrite parse_encode by done. cbn [map_err mbind result_bind].
  destruct (is_ _ _ MSG_TYPE_EXECUTION_REPORT) eqn:Er; unfold is_, get in Er;
    [apply bool_decide_eq_true in Er|apply bool_decide_eq_false in Er]; cbn [fields negb] in *.
  2:{ split; [by right|]. split; [done|]. by intros (_ & ? & _). }
  destruct (is_fill _) eqn:E; (split; [naive_solver|]); unfold is_fill, is_, get in E;
    rewrite ?orb_true_iff, ?orb_false_iff, ?bool_decide_eq_true, ?bool_decide_eq_false in E;
    cbn [fields] in E.
  - split; [|done]. intros _. split_and!; [done..|]. tauto.
  - split; [done|]. intros (_ & _ & H). exfalso. tauto.
Qed.

Definition fill_fields : list field :=
  [(8, bytes "FIX.4.4"); (35, bytes "8"); (39, bytes "2"); (150, bytes "F")].

Lemma ack_without_execution_drops_exactly_witness :
  let r := FixAckWithoutExecution_intercept
             {| msg_bytes := encode_fields fill_fields; direction := Inbound |} in
  (r = Ok Drop ∨ r = Ok Forward) ∧
  (r = Ok Drop ↔ Inbound = Inbound ∧ find_tag 35 fill_fields = Some (bytes "8") ∧
     (find_tag 150 fill_fields = Some (bytes "F") ∨ find_tag 39 fill_fields = Some (bytes "1") ∨
      find_tag 39 fill_fields = Some (bytes "2"))).
Proof.
  apply (ack_without_execution_drops_exactly fill_fields Inbound).
  - discriminate.
  - repeat (apply Forall_cons_2; [split; [split; [discriminate|reflexivity]|
      apply (bool_decide_unpack _); vm_compute; exact I]|]). constructor.
Defined.

(** C23: the price mutation, with a configured price that contains no SOH byte, on an inbound
    execution report that carries a price and a BeginString: the adapter answers [Mutate]
    with a message that frames as one unit and whose fields are a new BeginString,
    BodyLength and CheckSum around the original fields other than those three, in their
    order, repeated tags included, with the configured price in place of every price.
    So it still is an execution report and shows the configured price. *)
Theorem price_mutation_rewrites_only_price p a b m bs :
  parse b = Ok m → get m 8 = Some bs → SOH ∉ mutated_price a →
  get m 35 = Some (bytes "8") → is_Some (get m 44) →
  ∃ out m', FixExecutionReportPriceMutation_intercept a {| msg_bytes := b; direction := Inbound |} =
              Done (Ok (Mutate out)) ∧
    parse out = Ok m' ∧
    fields m' = message_fields bs
      ((λ f, if f.1 =? 44 then (44, mutated_price a) else f) <$>
         filter (λ f, f.1 ≠ 8 ∧ f.1 ≠ 9 ∧ f.1 ≠ 10) (fields m)) ∧
    get m' 8 = Some bs ∧ get m' 35 = Some (bytes "8") ∧ get m' 44 = Some (mutated_price a) ∧
    (∀ t, structural t = false → t ≠ 44 → get m' t = get m t) ∧
    (Z.of_nat (length out) < 2 ^ 64 →
       find_complete_message p out = Done (Ok (Some (Z.of_nat (length out))))).
Proof.
  intros Hp Hg Hv H35 [old H44]. destruct (set_field_parsed b 44 (mutated_price a) m bs Hp Hg Hv)
    as (out & m' & Hs & Hp' & Hf & Hg8 & Hget). rewrite rewrite_fields_literal in Hf.
  exists out, m'. split_and!; [|done..| | | |].
  - unfold FixExecutionReportPriceMutation_intercept. cbn [msg_bytes direction].
    rewrite decide_False by tauto. rewrite Hp. cbn [map_err]. unfold is_, TAG_MSG_TYPE, TAG_PRICE.
    rewrite H35, H44. rewrite bool_decide_eq_true_2, bool_decide_eq_false_2 by done.
    cbn [negb orb]. by rewrite Hs.
  - by rewrite Hget, H35.
  - by rewrite Hget, H44.
  - intros t Ht Hne. rewrite Hget by done. rewrite (proj2 (Z.eqb_neq t 44)) by done.
    by destruct (get m t).
  - intros Hlen. rewrite <- (app_nil_r out) at 1. by apply (set_field_framed p b 44 (mutated_price a)).
Qed.

Definition demo_mutation : FixExecutionReportPriceMutation := {| mutated_price := bytes "1.00" |}.

Lemma price_mutation_rewrites_only_price_witness :
  ∃ out m', FixExecutionReportPriceMutation_intercept demo_mutation
              {| msg_bytes := price_report; direction := Inbound |} = Done (Ok (Mutate out)) ∧
    parse out = Ok m' ∧
    fields m' = message_fields (bytes "FIX.4.4")
      ((λ f, if f.1 =? 44 then (44, bytes "1.00") else f) <$>
         filter (λ f, f.1 ≠ 8 ∧ f.1 ≠ 9 ∧ f.1 ≠ 10) price_report_fields) ∧
    get m' 8 = Some (bytes "FIX.4.4") ∧ get m' 35 = Some (bytes "8") ∧
    get m' 44 = Some (bytes "1.00") ∧
    (∀ t, structural t = false → t ≠ 44 →
       get m' t = get {| fields := price_report_fields |} t) ∧
    (Z.of_nat (length out) < 2 ^ 64 →
       find_complete_message dev_profile out = Done (Ok (Some (Z.of_nat (length out))))).
Proof.
  apply (price_mutation_rewrites_only_price dev_profile demo_mutation price_report
           {| fields := price_report_fields |} (bytes "FIX.4.4")).
  - vm_compute. reflexivity.
  - reflexivity.
  - apply (bool_decide_unpack _). vm_compute. exact I.
  - reflexivity.
  - eexists. reflexivity.
Defined.

(** An adapter state the program can be in: a throttle whose counter can still be
    incremented. *)
Definition adapter_ready (a : AnyAdapter) : Prop :=
  match a with RateLimitThrottle t => 0 <= count t < 2 ^ 64 - 1 | _ => True end.

(** C24: on a message the framer cut out of a buffer no adapter panics; an error is
    always [AdapterRejected] with the adapter's own name and the parse error, and
    outbound messages are only ever forwarded or dropped. *)
Theorem adapters_total_on_framed p buf n dir a :
  find_complete_message p buf = Done (Ok (Some n)) → adapter_ready a →
  let msg := {| msg_bytes := take (Z.to_nat n) buf; direction := dir |} in
  ∃ r a', @pa_intercept _ (AnyAdapter_adapter p) a msg = Done (r, a') ∧
    @pa_name _ (AnyAdapter_adapter p) a' = @pa_name _ (AnyAdapter_adapter p) a ∧
    (dir = Outbound → r = Ok Forward ∨ r = Ok Drop) ∧
    (∀ e, r = Err e → dir = Inbound ∧ ∃ pe, parse (take (Z.to_nat n) buf) = Err pe ∧
       e = AdapterRejected (@pa_name _ (AnyAdapter_adapter p) a) (debug_ParseError pe)).
Proof.
  intros Hf Ha msg. destruct a as [a|a|a|a]; cbn [pa_intercept pa_name AnyAdapter_adapter].
  - eexists _, _. split; [done|]. split; [done|]. apply (silent_reject_shape msg).
  - eexists _, _. split; [done|]. split; [done|]. apply (ack_without_execution_shape msg).
  - cbn in Ha. cbn [pa_intercept FixRateLimitThrottle_adapter].
    unfold FixRateLimitThrottle_intercept. rewrite uadd_exact by lia.
    case_decide; (eexists _, _; split; [done|]); (split; [done|]); cbn [fst];
      (split; [intros _|done]); [by left|]. destruct (_ <? _); [by right|by left].
  - cbn [pa_intercept FixExecutionReportPriceMutation_adapter].
    destruct (price_mutation_shape p buf n dir a Hf) as (r & Hr & Hout & Herr).
    fold msg in Hr. rewrite Hr. by eexists _, _.
Qed.

Lemma adapters_total_on_framed_witness :
  let msg := {| msg_bytes := take (Z.to_nat 87) wikipedia_message; direction := Inbound |} in
  let a := PriceMutation demo_mutation in
  ∃ r a', @pa_intercept _ (AnyAdapter_adapter dev_profile) a msg = Done (r, a') ∧
    @pa_name _ (AnyAdapter_adapter dev_profile) a' = @pa_name _ (AnyAdapter_adapter dev_profile) a ∧
    (Inbound = Outbound → r = Ok Forward ∨ r = Ok Drop) ∧
    (∀ e, r = Err e → Inbound = Inbound ∧ ∃ pe,
       parse (take (Z.to_nat 87) wikipedia_message) = Err pe ∧
       e = AdapterRejected (@pa_name _ (AnyAdapter_adapter dev_profile) a) (debug_ParseError pe)).
Proof.
  apply (adapters_total_on_framed dev_profile wikipedia_message 87 Inbound (PriceMutation demo_mutation)).
  - vm_compute. reflexivity.
  - exact I.
Defined.
