(* ===== verification/FixProxy.v ===== *)
(** crates/adapters/src/fix/proxy.rs: the relay of one FIX session.  [handle] is
    the body of the drain loop, [drain] the loop itself, [relay] one direction
    run over a sequence of reads; [thread_step] cuts the same code at its shared
    accesses, and [session_step] interleaves the two relay threads of
    [run_session] with the injector toggling the shared flags. *)

From Stdlib Require Import Strings.Byte.
From S2P Require Import Prelude RustStd Core FixMessage FixFraming FixAdapter.

(* ------------------------------------------------------------------ *)
(** * The destination socket *)

(** The peer takes [accepts] more bytes before the connection breaks ([None]: it
    never does).  [write_all] writes everything, or what still fits and fails. *)
Record TcpDst := { written : list byte; accepts : option nat }.

Definition write_all (d : TcpDst) (b : list byte) : bool * TcpDst :=
  match accepts d with
  | None => (true, {| written := written d ++ b; accepts := None |})
  | Some k =>
      if (length b <=? k)%nat
      then (true, {| written := written d ++ b; accepts := Some (k - length b)%nat |})
      else (false, {| written := written d ++ take k b; accepts := Some 0%nat |})
  end.

(** What one [src.read] returns: [Ok(0)], [Ok(n)], a timeout, another error. *)
Inductive read_event :=
| ReadEof
| ReadBytes (b : list byte)
| ReadRetry
| ReadError.

(* ------------------------------------------------------------------ *)
(** * One direction *)

(** The locals of [relay]: its buffer, its destination, and the nanoseconds a
    [Delay] has made it sleep. *)
Record relay_locals := { buf : list byte; dst : TcpDst; slept_ns : Z }.

Definition set_buf (b : list byte) (s : relay_locals) : relay_locals :=
  {| buf := b; dst := dst s; slept_ns := slept_ns s |}.

Section relay.
Context {A : Type} `{ProtocolAdapter A} (p : profile) (dir : Direction).

Definition write_msg (s : relay_locals) (b : list byte) : bool * relay_locals :=
  let '(ok, d) := write_all (dst s) b in
  (ok, {| buf := buf s; dst := d; slept_ns := slept_ns s |}).

(** The match on the action; [false] is the early [return]. *)
Definition perform (act : InterceptAction) (message_bytes : list byte) (s : relay_locals)
  : bool * relay_locals :=
  match act with
  | Forward => write_msg s message_bytes
  | Drop => (true, s)
  | Mutate b => write_msg s b
  | Delay d => write_msg {| buf := buf s; dst := dst s; slept_ns := slept_ns s + d |} message_bytes
  end.

(** The action for a message: the adapter is asked only when the flag was set, and
    an adapter error forwards. *)
Definition decide_action (enabled : bool) (a : A) (message_bytes : list byte)
  : exec (InterceptAction * A) :=
  if enabled then
    ra ← pa_intercept a {| msg_bytes := message_bytes; direction := dir |};
    Done (unwrap_or Forward ra.1, ra.2)
  else Done (Forward, a).

Definition handle (enabled : bool) (a : A) (s : relay_locals) (message_bytes : list byte)
  : exec (bool * A * relay_locals) :=
  aa ← decide_action enabled a message_bytes;
  let '(ok, s') := perform aa.1 message_bytes s in
  Done (ok, aa.2, s').

(** How the [while let] loop ends: the buffer holds no further message (or is not
    FIX), the function returned on a failed write, the thread panicked, or the
    fuel ran out. *)
Inductive drain_end :=
| Idle (a : A) (s : relay_locals)
| Returned (a : A) (s : relay_locals)
| Crashed (why : string)
| OutOfFuel.

(** [while let Ok(Some(len)) = find_complete_message(&buf)]; [buf.drain(..len)]
    panics beyond the buffer. *)
Fixpoint drain (fuel : nat) (enabled : bool) (a : A) (s : relay_locals) : drain_end :=
  match fuel with
  | O => OutOfFuel
  | S f =>
      match find_complete_message p (buf s) with
      | Panic why => Crashed why
      | Done (Ok (Some len)) =>
          match slice 0 (Z.to_nat len) (buf s) with
          | Panic why => Crashed why
          | Done message_bytes =>
              match handle enabled a (set_buf (drop (Z.to_nat len) (buf s)) s) message_bytes with
              | Panic why => Crashed why
              | Done (true, a', s') => drain f enabled a' s'
              | Done (false, a', s') => Returned a' s'
              end
          end
      | Done _ => Idle a s
      end
  end.

(** A buffer of [n] bytes holds at most [n] messages of positive length. *)
Definition drain_fuel (s : relay_locals) : nat := S (length (buf s)).

(** The outer loop over what the reads return, with [shutdown] not set and the
    [enabled] flag not changing; it stays [Idle], in the next [read], when the list is used up. *)
Fixpoint relay (enabled : bool) (reads : list read_event) (a : A) (s : relay_locals) : drain_end :=
  match reads with
  | [] => Idle a s
  | ReadEof :: _ | ReadError :: _ => Returned a s
  | ReadRetry :: reads' => relay enabled reads' a s
  | ReadBytes b :: reads' =>
      let s1 := set_buf (buf s ++ b) s in
      match drain (drain_fuel s1) enabled a s1 with
      | Idle a' s' => relay enabled reads' a' s'
      | stop => stop
      end
  end.

(* ------------------------------------------------------------------ *)
(** * The thread, cut at its shared accesses *)

Inductive phase :=
| AtTop                                        (* before [shutdown.load] *)
| Reading                                      (* in [src.read] *)
| Draining                                     (* at the [while let] *)
| Loading (message_bytes : list byte)          (* before [enabled.load] *)
| Acting (message_bytes : list byte) (enabled : bool)
| Exited
| Panicked.

Record thread := { t_phase : phase; t_locals : relay_locals }.

(** What an observer of the adapter sees. *)
Inductive label := Intercepted (d : Direction) (act : InterceptAction).

Definition thread_step (shutdown enabled : bool) (ev : read_event) (a : A) (t : thread)
  : A * thread * option label :=
  let s := t_locals t in
  let goto ph := (a, {| t_phase := ph; t_locals := s |}, None) in
  match t_phase t with
  | AtTop => goto (if shutdown then Exited else Reading)
  | Reading =>
      match ev with
      | ReadEof | ReadError => goto Exited
      | ReadRetry => goto AtTop
      | ReadBytes b => (a, {| t_phase := Draining; t_locals := set_buf (buf s ++ b) s |}, None)
      end
  | Draining =>
      match find_complete_message p (buf s) with
      | Panic _ => goto Panicked
      | Done (Ok (Some len)) =>
          match slice 0 (Z.to_nat len) (buf s) with
          | Panic _ => goto Panicked
          | Done message_bytes =>
              (a, {| t_phase := Loading message_bytes;
                     t_locals := set_buf (drop (Z.to_nat len) (buf s)) s |}, None)
          end
      | Done _ => goto AtTop
      end
  | Loading message_bytes => goto (Acting message_bytes enabled)
  | Acting message_bytes en =>
      match decide_action en a message_bytes with
      | Panic _ => goto Panicked
      | Done (act, a') =>
          let '(ok, s') := perform act message_bytes s in
          (a', {| t_phase := if ok then Draining else Exited; t_locals := s' |},
           if en then Some (Intercepted dir act) else None)
      end
  | Exited => goto Exited
  | Panicked => goto Panicked
  end.

(** One thread run alone, one read event per step (only [Reading] looks at it). *)
Fixpoint thread_run (n : nat) (shutdown enabled : bool) (evs : nat → read_event) (a : A) (t : thread)
  : A * thread :=
  match n with
  | O => (a, t)
  | S n' =>
      let '(a', t', _) := thread_step shutdown enabled (evs n') a t in
      thread_run n' shutdown enabled evs a' t'
  end.

End relay.

Arguments Idle {A} a s.
Arguments Returned {A} a s.
Arguments Crashed {A} why.
Arguments OutOfFuel {A}.

(* ------------------------------------------------------------------ *)
(** * run_session: two threads, one adapter, two flags *)

Record session (A : Type) := {
  s_adapter : A; s_enabled : bool; s_shutdown : bool; s_outbound : thread; s_inbound : thread
}.
Arguments s_adapter {A}.
Arguments s_enabled {A}.
Arguments s_shutdown {A}.
Arguments s_outbound {A}.
Arguments s_inbound {A}.

Definition fresh_thread (d : TcpDst) : thread :=
  {| t_phase := AtTop; t_locals := {| buf := []; dst := d; slept_ns := 0 |} |}.

Definition run_session {A} (client upstream : TcpDst) (a : A) (enabled shutdown : bool) : session A :=
  {| s_adapter := a; s_enabled := enabled; s_shutdown := shutdown;
     s_outbound := fresh_thread upstream; s_inbound := fresh_thread client |}.

Inductive session_step {A} `{ProtocolAdapter A} (p : profile)
  : session A → option label → session A → Prop :=
| StepOutbound s ev a t l :
    thread_step p Outbound (s_shutdown s) (s_enabled s) ev (s_adapter s) (s_outbound s) = (a, t, l) →
    session_step p s l {| s_adapter := a; s_enabled := s_enabled s; s_shutdown := s_shutdown s;
                          s_outbound := t; s_inbound := s_inbound s |}
| StepInbound s ev a t l :
    thread_step p Inbound (s_shutdown s) (s_enabled s) ev (s_adapter s) (s_inbound s) = (a, t, l) →
    session_step p s l {| s_adapter := a; s_enabled := s_enabled s; s_shutdown := s_shutdown s;
                          s_outbound := s_outbound s; s_inbound := t |}
| StepToggle s en :
    session_step p s None {| s_adapter := s_adapter s; s_enabled := en; s_shutdown := s_shutdown s;
                             s_outbound := s_outbound s; s_inbound := s_inbound s |}
| StepShutdown s :
    session_step p s None {| s_adapter := s_adapter s; s_enabled := s_enabled s; s_shutdown := true;
                             s_outbound := s_outbound s; s_inbound := s_inbound s |}.

(** Executions, with what was intercepted, oldest first. *)
Inductive session_steps {A} `{ProtocolAdapter A} (p : profile)
  : session A → list label → session A → Prop :=
| StepsNil s : session_steps p s [] s
| StepsSnoc s tr s1 l s2 :
    session_steps p s tr s1 → session_step p s1 l s2 →
    session_steps p s (tr ++ match l with Some x => [x] | None => [] end) s2.

(** A schedule, run: which thread moves (and what its read would return), or what
    the injector does. *)
Inductive choice :=
| ChooseOutbound (ev : read_event)
| ChooseInbound (ev : read_event)
| ChooseToggle (en : bool)
| ChooseShutdown.

Definition choose {A} `{ProtocolAdapter A} (p : profile) (c : choice) (s : session A)
  : option label * session A :=
  match c with
  | ChooseOutbound ev =>
      let '(a, t, l) := thread_step p Outbound (s_shutdown s) (s_enabled s) ev (s_adapter s) (s_outbound s) in
      (l, {| s_adapter := a; s_enabled := s_enabled s; s_shutdown := s_shutdown s;
             s_outbound := t; s_inbound := s_inbound s |})
  | ChooseInbound ev =>
      let '(a, t, l) := thread_step p Inbound (s_shutdown s) (s_enabled s) ev (s_adapter s) (s_inbound s) in
      (l, {| s_adapter := a; s_enabled := s_enabled s; s_shutdown := s_shutdown s;
             s_outbound := s_outbound s; s_inbound := t |})
  | ChooseToggle en =>
      (None, {| s_adapter := s_adapter s; s_enabled := en; s_shutdown := s_shutdown s;
                s_outbound := s_outbound s; s_inbound := s_inbound s |})
  | ChooseShutdown =>
      (None, {| s_adapter := s_adapter s; s_enabled := s_enabled s; s_shutdown := true;
                s_outbound := s_outbound s; s_inbound := s_inbound s |})
  end.

Fixpoint session_exec_from {A} `{ProtocolAdapter A} (p : profile) (cs : list choice)
    (tr : list label) (s : session A) : list label * session A :=
  match cs with
  | [] => (tr, s)
  | c :: cs' =>
      let '(l, s') := choose p c s in
      session_exec_from p cs' (tr ++ match l with Some x => [x] | None => [] end) s'
  end.
Definition session_exec {A} `{ProtocolAdapter A} (p : profile) (cs : list choice) (s : session A)
  : list label * session A := session_exec_from p cs [] s.

Lemma choose_sound {A} `{ProtocolAdapter A} p c (s : session A) :
  session_step p s (choose p c s).1 (choose p c s).2.
Proof.
  destruct c as [ev|ev|en|]; cbn [choose].
  - destruct (thread_step _ _ _ _ _ _ _) as [[a t] l] eqn:E. by eapply StepOutbound.
  - destruct (thread_step _ _ _ _ _ _ _) as [[a t] l] eqn:E. by eapply StepInbound.
  - apply StepToggle.
  - apply StepShutdown.
Qed.

Lemma session_exec_from_sound {A} `{ProtocolAdapter A} p cs (s0 : session A) tr s :
  session_steps p s0 tr s →
  session_steps p s0 (session_exec_from p cs tr s).1 (session_exec_from p cs tr s).2.
Proof.
  revert tr s. induction cs as [|c cs IH]; intros tr s Hs; [done|]. cbn [session_exec_from].
  pose proof (choose_sound p c s) as Hc. destruct (choose p c s) as [l s'].
  apply IH. by econstructor.
Qed.

(** Every scheduled run is an execution of the relation. *)
Lemma session_exec_sound {A} `{ProtocolAdapter A} p cs (s : session A) :
  session_steps p s (session_exec p cs s).1 (session_exec p cs s).2.
Proof. apply session_exec_from_sound. constructor. Qed.

(* ------------------------------------------------------------------ *)
(** * Lemmas: the drain loop *)

(** A message the framer cuts out exactly. *)
Definition framed (p : profile) (m : list byte) : Prop :=
  m ≠ [] ∧
  (∀ rest, find_complete_message p (m ++ rest) = Done (Ok (Some (Z.of_nat (length m))))) ∧
  (∀ k, (k < length m)%nat → find_complete_message p (take k m) = Done (Ok None)).

Lemma well_framed_framed p bs body trailer :
  SOH ∉ bs → length trailer = 7%nat →
  Z.of_nat (length (well_framed bs body trailer)) < 2 ^ 64 →
  framed p (well_framed bs body trailer).
Proof.
  intros Hbs Ht Hlen. destruct (fcm_exact p bs body trailer Hbs Ht Hlen) as [H1 H2].
  split; [done|by split].
Qed.

Lemma set_buf_buf s : set_buf (buf s) s = s.
Proof. by destruct s. Qed.

Lemma set_buf_twice b c s : set_buf b (set_buf c s) = set_buf b s.
Proof. done. Qed.

Section relay_lemmas.
Context {A : Type} `{PA : ProtocolAdapter A} (p : profile) (dir : Direction).
Implicit Types (a : A) (s : relay_locals).

Definition with_buf (b : list byte) (e : @drain_end A) : drain_end :=
  match e with
  | Idle a s => Idle a (set_buf b s)
  | Returned a s => Returned a (set_buf b s)
  | other => other
  end.

(** What the session means message by message. *)
Fixpoint handle_all (en : bool) (ms : list (list byte)) (a : A) (s : relay_locals) : drain_end :=
  match ms with
  | [] => Idle a s
  | m :: ms' =>
      match handle dir en a s m with
      | Panic why => Crashed why
      | Done (true, a', s') => handle_all en ms' a' s'
      | Done (false, a', s') => Returned a' s'
      end
  end.

Lemma perform_set_buf act m b s :
  perform act m (set_buf b s) = ((perform act m s).1, set_buf b (perform act m s).2).
Proof. destruct act; cbn; unfold write_msg; cbn; by repeat case_match. Qed.

Lemma perform_buf act m s : buf (perform act m s).2 = buf s.
Proof. destruct act; cbn; unfold write_msg; cbn; by repeat case_match. Qed.

Lemma handle_set_buf en a b s m :
  handle dir en a (set_buf b s) m =
  (r ← handle dir en a s m; Done (r.1, set_buf b r.2)).
Proof.
  unfold handle. destruct (decide_action dir en a m) as [[act a']|]; [|done].
  cbn [mbind exec_bind fst snd]. rewrite perform_set_buf.
  by destruct (perform act m s).
Qed.

Lemma handle_buf en a s m ok a' s' :
  handle dir en a s m = Done (ok, a', s') → buf s' = buf s.
Proof.
  unfold handle. destruct (decide_action dir en a m) as [[act a1]|]; [|done].
  cbn [mbind exec_bind fst snd]. pose proof (perform_buf act m s).
  destruct (perform act m s) as [ok1 s1]. by intros [= -> -> ->].
Qed.

Lemma handle_all_set_buf en ms a b s :
  handle_all en ms a (set_buf b s) = with_buf b (handle_all en ms a s).
Proof.
  revert a s. induction ms as [|m ms IH]; intros a s; [done|]. cbn [handle_all].
  rewrite handle_set_buf. destruct (handle dir en a s m) as [[[ok a'] s']|]; [|done].
  cbn [mbind exec_bind fst snd]. destruct ok; [apply IH|done].
Qed.

Lemma handle_all_app en ms1 ms2 a s a' s' :
  handle_all en (ms1 ++ ms2) a s = Idle a' s' →
  ∃ a1 s1, handle_all en ms1 a s = Idle a1 s1 ∧ handle_all en ms2 a1 s1 = Idle a' s'.
Proof.
  revert a s. induction ms1 as [|m ms1 IH]; intros a s; cbn [app handle_all]; [by eexists _, _|].
  destruct (handle dir en a s m) as [[[[] a1] s1]|]; [|done..]. apply IH.
Qed.

(** One round of the loop on a buffer that starts with a framed message. *)
Lemma drain_step_framed f en a s m rest :
  framed p m → buf s = m ++ rest →
  drain p dir (S f) en a s =
  match handle dir en a (set_buf rest s) m with
  | Panic why => Crashed why
  | Done (true, a', s') => drain p dir f en a' s'
  | Done (false, a', s') => Returned a' s'
  end.
Proof.
  intros (Hne & Hf & _) Hb. cbn [drain]. rewrite Hb, Hf, Nat2Z.id.
  rewrite slice_ok by (rewrite ?length_app; lia). rewrite drop_0, Nat.sub_0_r.
  by rewrite take_app_length, drop_app_length.
Qed.

(** The loop handles every complete message and keeps the incomplete one. *)
Lemma drain_framed ms part f en a s a' s' :
  Forall (framed p) ms → find_complete_message p part = Done (Ok None) →
  buf s = concat ms ++ part → (length ms < f)%nat →
  handle_all en ms a s = Idle a' s' →
  drain p dir f en a s = Idle a' (set_buf part s').
Proof.
  intros Hms Hpart. revert f a s s'.
  induction Hms as [|m ms Hm Hms IH]; intros f a s s' Hb Hlen Hh.
  - destruct f as [|f]; [simpl in Hlen; lia|]. cbn in Hb, Hh. injection Hh as <- <-.
    cbn [drain]. rewrite Hb, Hpart. by rewrite <- Hb, set_buf_buf.
  - destruct f as [|f]; [simpl in Hlen; lia|].
    rewrite (drain_step_framed f en a s m (concat ms ++ part)); [|done|].
    2:{ rewrite Hb. cbn [concat]. by rewrite app_assoc. }
    cbn [handle_all] in Hh. rewrite handle_set_buf.
    destruct (handle dir en a s m) as [[[[] a1] s1]|]; [|done..]. cbn [mbind exec_bind fst snd].
    rewrite (IH f a1 (set_buf (concat ms ++ part) s1) (set_buf (concat ms ++ part) s'));
      [done..|simpl in Hlen; lia|].
    by rewrite handle_all_set_buf, Hh.
Qed.

(** ** Streams of messages, cut anywhere *)

(** A prefix of a stream of messages is some whole messages and a strict prefix of
    the next one. *)
Lemma stream_prefix (ms : list (list byte)) b more :
  Forall (λ m, m ≠ []) ms → b ++ more = concat ms →
  ∃ ms1 ms2 part, ms = ms1 ++ ms2 ∧ b = concat ms1 ++ part ∧
    (part = [] ∨ ∃ m ms2', ms2 = m :: ms2' ∧ ∃ k, (k < length m)%nat ∧ part = take k m).
Proof.
  revert b. induction ms as [|m ms IH]; intros b Hne Hb.
  - exists [], [], []. apply app_eq_nil in Hb as [-> ->]. split_and!; [done..|by left].
  - apply Forall_cons in Hne as [Hm Hne]. cbn [concat] in Hb.
    destruct (decide (length b < length m)%nat) as [Hlt|Hge].
    + exists [], (m :: ms), b. split_and!; [done..|]. right. exists m, ms. split; [done|].
      exists (length b). split; [done|].
      pose proof (f_equal (take (length b)) Hb) as Ht.
      rewrite take_app_length, take_app_le in Ht by lia. done.
    + assert (Hd : b = m ++ drop (length m) b).
      { pose proof (f_equal (take (length m)) Hb) as Ht.
        rewrite take_app_length, take_app_le in Ht by lia.
        rewrite <- Ht at 1. by rewrite take_drop. }
      destruct (IH (drop (length m) b)) as (ms1 & ms2 & part & -> & Hp & Hpart); [done| |].
      { rewrite Hd, <- app_assoc in Hb. by apply app_inv_head in Hb. }
      exists (m :: ms1), ms2, part. split_and!; [done| |done].
      rewrite Hd, Hp. cbn [concat]. by rewrite app_assoc.
Qed.

Lemma framed_nonempty ms : Forall (framed p) ms → Forall (λ m, m ≠ []) ms.
Proof. intros H. eapply Forall_impl; [exact H|]. by intros m [? _]. Qed.

(** The whole messages of a stream number at most its bytes. *)
Lemma stream_length (ms : list (list byte)) :
  Forall (λ m, m ≠ []) ms → (length ms ≤ length (concat ms))%nat.
Proof.
  induction 1 as [|m ms Hm _ IH]; [done|]. cbn. rewrite length_app.
  destruct m; [done|]. cbn. lia.
Qed.

Lemma relay_chunks en ms chunks a s a' s' :
  Forall (framed p) ms → buf s ++ concat chunks = concat ms →
  find_complete_message p (buf s) = Done (Ok None) →
  handle_all en ms a s = Idle a' s' →
  relay p dir en (ReadBytes <$> chunks) a s = Idle a' (set_buf [] s').
Proof.
  revert ms a s s'. induction chunks as [|c chunks IH]; intros ms a s s' Hms Hb Hnone Hh.
  - rewrite app_nil_r in Hb. destruct ms as [|m ms].
    + cbn in Hb, Hh. injection Hh as <- <-. cbn. by rewrite <- Hb, set_buf_buf.
    + exfalso. apply Forall_cons in Hms as [(_ & Hf & _) _]. cbn in Hb.
      rewrite Hb, Hf in Hnone. done.
  - cbn [concat] in Hb. rewrite app_assoc in Hb.
    destruct (stream_prefix ms (buf s ++ c) (concat chunks)) as
      (ms1 & ms2 & part & -> & Hp & Hpart); [by apply framed_nonempty|done|].
    apply Forall_app in Hms as [Hms1 Hms2].
    destruct (handle_all_app _ _ _ _ _ _ _ Hh) as (a1 & s1 & Hh1 & Hh2).
    assert (Hfp : find_complete_message p part = Done (Ok None)).
    { destruct Hpart as [->|(m & ms2' & -> & k & Hk & ->)]; [apply fcm_short; simpl; lia|].
      apply Forall_cons in Hms2 as [(_ & _ & Hf) _]. by apply Hf. }
    cbn [fmap list_fmap relay]. set (s0 := set_buf (buf s ++ c) s).
    rewrite (drain_framed ms1 part _ en a s0 a1 (set_buf (buf s ++ c) s1)); [|done..| |].
    2:{ unfold drain_fuel. cbn [buf set_buf s0]. rewrite Hp, length_app.
        pose proof (stream_length ms1 (framed_nonempty _ Hms1)). lia. }
    2:{ subst s0. by rewrite handle_all_set_buf, Hh1. }
    rewrite set_buf_twice, (IH ms2 a1 (set_buf part s1) (set_buf part s') Hms2); [done| |done|].
    + cbn [buf set_buf]. rewrite Hp, <- app_assoc in Hb. rewrite concat_app in Hb.
      by apply app_inv_head in Hb.
    + by rewrite handle_all_set_buf, Hh2.
Qed.

End relay_lemmas.

Lemma handle_all_buf {A} `{ProtocolAdapter A} dir en ms a s a' s' :
  handle_all dir en ms a s = Idle a' s' → buf s' = buf s.
Proof.
  revert a s. induction ms as [|m ms IH]; intros a s; cbn [handle_all]; [by intros [= _ <-]|].
  destruct (handle dir en a s m) as [[[[] a1] s1]|] eqn:Eh; [|done..].
  intros ->%IH. by eapply handle_buf.
Qed.

(** ** Termination and divergence of the loop *)

Section drain_facts.
Context {A : Type} `{PA : ProtocolAdapter A} (p : profile) (dir : Direction).
Implicit Types (a : A) (s : relay_locals).

(** With overflow checks every message has positive length. *)
Lemma fcm_positive b n :
  overflow_checks p = true → Z.of_nat (length b) < 2 ^ 63 →
  find_complete_message p b = Done (Ok (Some n)) → 0 < n <= Z.of_nat (length b).
Proof.
  intros Hp Hsz Hf. destruct (fcm_length_bounds _ _ _ Hsz Hf) as [Hb Hz].
  destruct (Z.eq_dec n 0) as [Hn|]; [|lia]. destruct (Hz Hn) as [? _]. congruence.
Qed.

Lemma drain_enough_fuel f en a s :
  overflow_checks p = true → Z.of_nat (length (buf s)) < 2 ^ 63 → (length (buf s) < f)%nat →
  drain p dir f en a s ≠ OutOfFuel.
Proof.
  intros Hp. revert a s. induction f as [|f IH]; intros a s Hsz Hf; [lia|]. cbn [drain].
  destruct (find_complete_message p (buf s)) as [[[n|]|]|] eqn:Ef; [|done..].
  pose proof (fcm_positive _ _ Hp Hsz Ef) as Hn.
  rewrite slice_ok by lia.
  destruct (handle dir en a _ _) as [[[[] a'] s']|] eqn:Eh; [|done..].
  apply handle_buf in Eh. cbn [buf set_buf] in Eh.
  apply IH; rewrite Eh, length_drop; lia.
Qed.

(** Forwarding without an adapter. *)
Lemma handle_disabled a s m :
  handle dir false a s m =
  Done ((write_msg s m).1, a, (write_msg s m).2).
Proof. unfold handle, decide_action. cbn. by destruct (write_msg s m). Qed.

Lemma write_msg_conserves s m ok s' :
  accepts (dst s) = None → write_msg s m = (ok, s') →
  ok = true ∧ accepts (dst s') = None ∧ buf s' = buf s ∧
  written (dst s') = written (dst s) ++ m.
Proof.
  unfold write_msg, write_all. intros Ha. rewrite Ha. by intros [= <- <-].
Qed.

(** Whatever the buffer holds, a disabled relay moves bytes from its front to the
    destination and nothing else. *)
Lemma drain_disabled_conserves f a s :
  accepts (dst s) = None →
  match drain p dir f false a s with
  | Idle a' s' => a' = a ∧ accepts (dst s') = None ∧
      written (dst s') ++ buf s' = written (dst s) ++ buf s
  | Returned _ _ => False
  | _ => True
  end.
Proof.
  revert s. induction f as [|f IH]; intros s Ha; [done|]. cbn [drain].
  destruct (find_complete_message p (buf s)) as [[[n|]|]|] eqn:Ef; [|done..].
  unfold slice. case_decide as Hd; [|done]. rewrite handle_disabled.
  destruct (write_msg _ _) as [ok s'] eqn:Ew. cbn [fst snd].
  apply write_msg_conserves in Ew as (-> & Ha' & Hb & Hw); [|done].
  specialize (IH s' Ha'). destruct (drain p dir f false a s'); [|done..].
  destruct IH as (-> & ? & ->). split_and!; [done..|]. rewrite Hb, Hw.
  cbn [dst buf set_buf]. rewrite <- app_assoc, drop_0, Nat.sub_0_r. by rewrite take_drop.
Qed.

End drain_facts.

(* ------------------------------------------------------------------ *)
(** * Lemmas: the threads *)

(** Three steps of the thread are one round of the loop. *)
Lemma thread_message_steps {A} `{ProtocolAdapter A} p dir sd en evs (a : A) s :
  match find_complete_message p (buf s) with
  | Done (Ok (Some len)) =>
      match slice 0 (Z.to_nat len) (buf s) with
      | Done m =>
          match handle dir en a (set_buf (drop (Z.to_nat len) (buf s)) s) m with
          | Done (ok, a', s') => ∀ n,
              thread_run p dir (S (S (S n))) sd en evs a {| t_phase := Draining; t_locals := s |} =
              thread_run p dir n sd en evs a'
                {| t_phase := if ok then Draining else Exited; t_locals := s' |}
          | Panic _ => ∃ a' s',
              thread_run p dir 3 sd en evs a {| t_phase := Draining; t_locals := s |} =
              (a', {| t_phase := Panicked; t_locals := s' |})
          end
      | Panic _ => True
      end
  | _ => True
  end.
Proof.
  destruct (find_complete_message p (buf s)) as [[[len|]|]|] eqn:Ef; [|done..].
  destruct (slice 0 (Z.to_nat len) (buf s)) as [m|] eqn:Es; [|done].
  unfold handle. destruct (decide_action dir en a m) as [[act a']|why] eqn:Ed; cbn [mbind exec_bind fst snd].
  - destruct (perform act m _) as [ok s'] eqn:Ep. intros n.
    cbn [thread_run thread_step t_phase t_locals]. rewrite Ef, Es.
    cbn [thread_step t_phase t_locals]. rewrite Ed. by rewrite Ep.
  - eexists _, _. cbn [thread_run thread_step t_phase t_locals]. rewrite Ef, Es.
    cbn [thread_step t_phase t_locals]. by rewrite Ed.
Qed.

(** The steps a thread still has to take under [shutdown], outside its read. *)
Definition thread_measure (t : thread) : nat :=
  let n := length (buf (t_locals t)) in
  match t_phase t with
  | AtTop => 1
  | Reading => 0
  | Draining => 3 * n + 2
  | Loading _ => 3 * n + 4
  | Acting _ _ => 3 * n + 3
  | Exited | Panicked => 0
  end.

Lemma thread_step_progress {A} `{ProtocolAdapter A} p dir en ev (a : A) t :
  overflow_checks p = true → Z.of_nat (length (buf (t_locals t))) < 2 ^ 63 →
  t_phase t ≠ Reading →
  let '(_, t', _) := thread_step p dir true en ev a t in
  t_phase t' ≠ Reading ∧ (length (buf (t_locals t')) ≤ length (buf (t_locals t)))%nat ∧
  (thread_measure t' < thread_measure t ∨ t_phase t' = Exited ∨ t_phase t' = Panicked)%nat.
Proof.
  intros Hp Hsz Hr. unfold thread_step, thread_measure. destruct t as [ph s]. cbn [t_phase t_locals] in *.
  destruct ph as [| | |m|m e| |]; cbn [t_phase t_locals]; try (split_and!; [done|lia|by auto]).
  - done.
  - destruct (find_complete_message p (buf s)) as [[[len|]|]|] eqn:Ef;
      cbn [t_phase t_locals]; try (split_and!; [done|lia|by auto || (left; lia)]).
    pose proof (fcm_positive p _ _ Hp Hsz Ef). rewrite slice_ok by lia.
    cbn [t_phase t_locals buf set_buf]. rewrite length_drop. split_and!; [done|lia|left; lia].
  - split_and!; [done|lia|left; lia].
  - destruct (decide_action dir e a m) as [[act a']|]; cbn [t_phase t_locals];
      [|split_and!; [done|lia|by auto]].
    pose proof (perform_buf act m s) as Hb. destruct (perform act m s) as [ok s'].
    cbn [t_phase t_locals snd] in *. rewrite Hb.
    destruct ok; (split_and!; [done|lia|]); [left; lia|by auto].
Qed.

Lemma thread_step_finished {A} `{ProtocolAdapter A} p dir sd en ev (a : A) t :
  t_phase t = Exited ∨ t_phase t = Panicked → thread_step p dir sd en ev a t = (a, t, None).
Proof. destruct t as [ph s]; cbn. by intros [->| ->]. Qed.

Lemma thread_run_finished {A} `{ProtocolAdapter A} p dir n sd en evs (a : A) t :
  t_phase t = Exited ∨ t_phase t = Panicked → thread_run p dir n sd en evs a t = (a, t).
Proof.
  intros Hf. induction n as [|n IH]; [done|]. cbn [thread_run].
  by rewrite thread_step_finished.
Qed.

Lemma thread_run_finishes {A} `{ProtocolAdapter A} p dir n en evs (a : A) t :
  overflow_checks p = true → Z.of_nat (length (buf (t_locals t))) < 2 ^ 63 →
  t_phase t ≠ Reading → (thread_measure t ≤ n)%nat →
  let '(_, t') := thread_run p dir n true en evs a t in
  t_phase t' = Exited ∨ t_phase t' = Panicked.
Proof.
  intros Hp. revert a t. induction n as [|n IH]; intros a t Hsz Hr Hm.
  - cbn. destruct t as [[] s]; cbn in *; try lia; by auto.
  - cbn [thread_run]. pose proof (thread_step_progress p dir en (evs n) a t Hp Hsz Hr) as Hs.
    destruct (thread_step p dir true en (evs n) a t) as [[a' t'] l].
    destruct Hs as (Hr' & Hb & [Hlt|Hfin]).
    + apply IH; [lia|done|lia].
    + by rewrite thread_run_finished.
Qed.

(** ** The throttle shared by the two threads *)

Definition is_outbound (l : label) : bool :=
  match l with Intercepted Outbound _ => true | _ => false end.
Definition is_outbound_forward (l : label) : bool :=
  match l with Intercepted Outbound Forward => true | _ => false end.
Definition outbound_seen (tr : list label) : Z :=
  Z.of_nat (length (filter (λ l, is_outbound l = true) tr)).
Definition outbound_forwarded (tr : list label) : Z :=
  Z.of_nat (length (filter (λ l, is_outbound_forward l = true) tr)).

Lemma seen_snoc tr l :
  outbound_seen (tr ++ [l]) = outbound_seen tr + (if is_outbound l then 1 else 0).
Proof.
  unfold outbound_seen. rewrite filter_app, length_app, filter_cons, filter_nil.
  destruct (is_outbound l); [rewrite decide_True by done|rewrite decide_False by done]; cbn; lia.
Qed.

Lemma forwarded_snoc tr l :
  outbound_forwarded (tr ++ [l]) = outbound_forwarded tr + (if is_outbound_forward l then 1 else 0).
Proof.
  unfold outbound_forwarded. rewrite filter_app, length_app, filter_cons, filter_nil.
  destruct (is_outbound_forward l); [rewrite decide_True by done|rewrite decide_False by done]; cbn; lia.
Qed.

(** What one thread step can do to the throttle. *)
Lemma throttle_thread_step p dir sd en ev a t a' t' l :
  0 <= count a → count a + 1 < 2 ^ 64 →
  @thread_step _ (FixRateLimitThrottle_adapter p) p dir sd en ev a t = (a', t', l) →
  (l = None ∧ a' = a) ∨
  (l = Some (Intercepted Inbound Forward) ∧ a' = a) ∨
  (l = Some (Intercepted Outbound (if threshold a <? count a + 1 then Drop else Forward)) ∧
   a' = {| threshold := threshold a; count := count a + 1 |}).
Proof.
  intros Hc Hw. unfold thread_step. destruct t as [ph s]. cbn [t_phase t_locals].
  destruct ph as [| | |m|m e| |]; try (intros [= <- <- <-]; by left).
  - destruct ev; intros [= <- <- <-]; by left.
  - destruct (find_complete_message p (buf s)) as [[[len|]|]|]; try (intros [= <- <- <-]; by left).
    destruct (slice _ _ _); intros [= <- <- <-]; by left.
  - unfold decide_action. destruct e.
    2:{ destruct (perform _ _ _). intros [= <- <- <-]. by left. }
    cbn [pa_intercept FixRateLimitThrottle_adapter]. unfold FixRateLimitThrottle_intercept.
    cbn [direction]. rewrite uadd_exact by done. rewrite wrap_id by width.
    destruct dir; [rewrite decide_True by done|rewrite decide_False by tauto];
      cbn [mbind exec_bind fst snd unwrap_or]; destruct (perform _ _ _); intros [= <- <- <-];
      right; [by left|by right].
Qed.

Definition throttle_inv (t : Z) (tr : list label) (a : FixRateLimitThrottle) : Prop :=
  a = {| threshold := t; count := outbound_seen tr |} ∧
  outbound_forwarded tr = Z.min t (outbound_seen tr) ∧
  (∀ act, Intercepted Inbound act ∈ tr → act = Forward).

Lemma throttle_inv_step p t dir sd en ev tr a th a' th' l :
  0 <= t → throttle_inv t tr a → outbound_seen tr + 1 < 2 ^ 64 →
  @thread_step _ (FixRateLimitThrottle_adapter p) p dir sd en ev a th = (a', th', l) →
  throttle_inv t (tr ++ match l with Some x => [x] | None => [] end) a'.
Proof.
  intros Ht (-> & Hf & Hi) Hb Hstep.
  apply throttle_thread_step in Hstep; cbn [count threshold] in *; [|unfold outbound_seen; lia|done].
  unfold throttle_inv.
  destruct Hstep as [[-> ->]|[[-> ->]|[-> ->]]]; [by rewrite app_nil_r|..];
    rewrite seen_snoc, forwarded_snoc; cbn [is_outbound is_outbound_forward];
    (split_and!; [f_equal; lia| |intros act [?|Hin]%elem_of_app; [by apply Hi|set_solver]]).
  - lia.
  - destruct (Z.ltb_spec t (outbound_seen tr + 1)); cbn; lia.
Qed.

Lemma outbound_seen_app tr tr' : outbound_seen (tr ++ tr') = outbound_seen tr + outbound_seen tr'.
Proof. unfold outbound_seen. rewrite filter_app, length_app. lia. Qed.


(* ------------------------------------------------------------------ *)
(** * Properties: one direction *)

(** C5: what the relay does to a stream does not depend on how TCP cut it: for any
    stream of well-framed messages and any cut of it into reads, the bytes
    written, the adapter's final state and the (empty) final buffer are those of
    handling the messages one by one, in order. *)
Theorem relay_chunking_invariant {A} `{ProtocolAdapter A} p dir en ms chunks a s a' s' :
  Forall (framed p) ms → concat chunks = concat ms → buf s = [] →
  handle_all dir en ms a s = Idle a' s' →
  relay p dir en (ReadBytes <$> chunks) a s = Idle a' s'.
Proof.
  intros Hms Hc Hb Hh. rewrite (relay_chunks p dir en ms chunks a s a' s'); [|done| | |done].
  - rewrite <- Hb, <- (handle_all_buf _ _ _ _ _ _ _ Hh). by rewrite set_buf_buf.
  - by rewrite Hb.
  - rewrite Hb. apply fcm_short. simpl. lia.
Qed.

Definition empty_locals : relay_locals :=
  {| buf := []; dst := {| written := []; accepts := None |}; slept_ns := 0 |}.

Lemma relay_chunking_invariant_witness :
  relay dev_profile Inbound true
    (ReadBytes <$> [take 50 wikipedia_message; drop 50 wikipedia_message ++ take 3 wikipedia_message;
                    drop 3 wikipedia_message]) mk_FixSilentReject empty_locals =
  Idle mk_FixSilentReject
    {| buf := []; dst := {| written := wikipedia_message ++ wikipedia_message; accepts := None |};
       slept_ns := 0 |}.
Proof.
  apply (relay_chunking_invariant dev_profile Inbound true [wikipedia_message; wikipedia_message]).
  - assert (framed dev_profile wikipedia_message).
    { change wikipedia_message with (well_framed (bytes "FIX.4.2") demo_body (pipes "10=062|")).
      apply well_framed_framed; [|reflexivity|vm_compute; reflexivity].
      apply (bool_decide_unpack _). vm_compute. exact I. }
    repeat (constructor; [assumption|]). constructor.
  - vm_compute. reflexivity.
  - reflexivity.
  - vm_compute. reflexivity.
Defined.

(** C29: with overflow checks the drain loop always ends: a buffer of [n] bytes is
    drained in at most [n + 1] rounds, whatever the adapter answers. *)
Theorem drain_terminates {A} `{ProtocolAdapter A} p dir en (a : A) s :
  overflow_checks p = true → Z.of_nat (length (buf s)) < 2 ^ 63 →
  drain p dir (drain_fuel s) en a s ≠ OutOfFuel.
Proof. intros Hp Hsz. apply drain_enough_fuel; [done..|]. unfold drain_fuel. lia. Qed.

Lemma drain_terminates_witness :
  drain dev_profile Inbound (drain_fuel (set_buf wikipedia_message empty_locals)) true
    mk_FixSilentReject (set_buf wikipedia_message empty_locals) ≠ OutOfFuel.
Proof.
  apply (drain_terminates dev_profile Inbound true mk_FixSilentReject
           (set_buf wikipedia_message empty_locals)).
  - reflexivity.
  - vm_compute. reflexivity.
Defined.

(** What the adapters answer to the empty message: none of them panics where additions
    wrap, and the action is to forward or to drop it. *)
Lemma empty_message_action p dir enabled a :
  overflow_checks p = false →
  ∃ act a', @decide_action _ (AnyAdapter_adapter p) dir enabled a [] = Done (act, a') ∧ (act = Forward ∨ act = Drop).
Proof.
  intros Hp. unfold decide_action. destruct enabled; [|by eexists _, _; split; [done|left]].
  destruct a as [a|a|a|a]; cbn [pa_intercept AnyAdapter_adapter FixRateLimitThrottle_adapter].
  - destruct dir; by eexists _, _; split; [done|left].
  - destruct dir; by eexists _, _; split; [done|left].
  - unfold FixRateLimitThrottle_intercept. cbn [direction]. destruct dir; [by eexists _, _; split; [done|left]|].
    unfold uadd. rewrite Hp, decide_False by tauto.
    case_decide; (eexists _, _; split; [done|]); cbn; (case_match; [by right|by left]).
  - destruct dir; by eexists _, _; split; [done|left].
Qed.

(** The one BodyLength that wraps the length of a message to zero. *)
Lemma framed_as_zero p bs lenf r :
  overflow_checks p = false → SOH ∉ bs → SOH ∉ lenf →
  body_length_of lenf = Ok (2 ^ 64 - 7 - Z.of_nat (length (header bs lenf))) →
  find_complete_message p (header bs lenf ++ r) = Done (Ok (Some 0)).
Proof.
  intros Hp Hbs Hl Hk. rewrite fcm_header, Hk by done. pose proof (body_length_of_range _ _ Hk) as Hr.
  rewrite total_len_eq by width. rewrite decide_False by lia. rewrite Hp. cbn [mbind exec_bind].
  replace (Z.of_nat _ + _ + 7) with (2 ^ 64) by lia. change (wrap 64 (2 ^ 64)) with 0.
  by rewrite (proj2 (Z.ltb_ge _ _)) by lia.
Qed.

Lemma drain_zero_diverges p dir enabled (a : AnyAdapter) s f :
  overflow_checks p = false → find_complete_message p (buf s) = Done (Ok (Some 0)) →
  @drain _ (AnyAdapter_adapter p) p dir f enabled a s = OutOfFuel.
Proof.
  intros Hov. revert a s. induction f as [|f IH]; intros a s Hf; [done|]. cbn [drain]. rewrite Hf.
  rewrite slice_ok by (simpl; lia). cbn [Z.to_nat Nat.sub take]. rewrite !drop_0, take_0, set_buf_buf.
  unfold handle. destruct (empty_message_action p dir enabled a Hov) as (act & a' & -> & Hact).
  cbn [mbind exec_bind fst snd]. destruct (perform act [] s) as [ok s'] eqn:Ew.
  assert (ok = true ∧ buf s' = buf s) as [-> Hb].
  { destruct Hact as [-> | ->]; cbn [perform] in Ew; [|by injection Ew as <- <-].
    unfold write_msg, write_all in Ew. cbn in Ew. destruct (accepts (dst s)); by injection Ew as <- <-. }
  apply IH. by rewrite Hb.
Qed.

(** C30: without overflow checks a peer can make the relay spin: once the buffer starts with a
    BeginString and a BodyLength field whose value is the one that wraps the length of the
    message to zero, the drain loop never ends, whatever the fuel; with the flag on or off,
    in either direction, for each of the four adapters. *)
Theorem release_drain_diverges p dir enabled (a : AnyAdapter) bs lenf r s f :
  overflow_checks p = false → SOH ∉ bs → SOH ∉ lenf →
  body_length_of lenf = Ok (2 ^ 64 - 7 - Z.of_nat (length (header bs lenf))) →
  buf s = header bs lenf ++ r →
  @drain _ (AnyAdapter_adapter p) p dir f enabled a s = OutOfFuel.
Proof. intros Hp Hbs Hl Hk Hb. apply drain_zero_diverges; [done|]. rewrite Hb. by apply framed_as_zero. Qed.

Lemma release_drain_diverges_witness :
  @drain _ (AnyAdapter_adapter release_profile) release_profile Outbound 1000 true
    (RateLimitThrottle {| threshold := 1; count := 0 |}) (set_buf zero_length_message empty_locals) = OutOfFuel.
Proof.
  apply (release_drain_diverges release_profile Outbound true (RateLimitThrottle {| threshold := 1; count := 0 |})
           (bytes "F") (bytes "18446744073709551582") (pipes "35=D|") (set_buf zero_length_message empty_locals) 1000).
  - reflexivity.
  - apply (bool_decide_unpack _). vm_compute. exact I.
  - apply (bool_decide_unpack _). vm_compute. exact I.
  - vm_compute. reflexivity.
  - reflexivity.
Defined.

(** A disarmed proxy is transparent: on any bytes at all, FIX or not, in any
    reads, what has been written followed by what is still buffered is exactly
    what came in, and the adapter is never consulted. *)
Theorem disabled_relay_is_transparent {A} `{ProtocolAdapter A} p dir chunks (a : A) s a' s' :
  accepts (dst s) = None →
  relay p dir false (ReadBytes <$> chunks) a s = Idle a' s' →
  a' = a ∧ written (dst s') ++ buf s' = written (dst s) ++ buf s ++ concat chunks.
Proof.
  revert s. induction chunks as [|c chunks IH]; intros s Ha; cbn [fmap list_fmap relay].
  { intros [= <- <-]. cbn. by rewrite app_nil_r. }
  set (s1 := set_buf (buf s ++ c) s).
  pose proof (drain_disabled_conserves p dir (drain_fuel s1) a s1 Ha) as Hd.
  destruct (drain p dir (drain_fuel s1) false a s1) as [a1 s2| | |]; [|done..].
  destruct Hd as (-> & Ha2 & Hw). intros [-> ->]%(IH s2 Ha2). split; [done|].
  rewrite app_assoc, Hw. subst s1. cbn. by rewrite <- !app_assoc.
Qed.

Lemma disabled_relay_is_transparent_witness :
  mk_FixSilentReject = mk_FixSilentReject ∧
  wikipedia_message ++ bytes "8=F" = [] ++ [] ++ concat [take 9 wikipedia_message; drop 9 wikipedia_message ++ bytes "8=F"].
Proof.
  apply (disabled_relay_is_transparent dev_profile Outbound
           [take 9 wikipedia_message; drop 9 wikipedia_message ++ bytes "8=F"]
           mk_FixSilentReject empty_locals mk_FixSilentReject
           {| buf := bytes "8=F"; dst := {| written := wikipedia_message; accepts := None |};
              slept_ns := 0 |}).
  - reflexivity.
  - vm_compute. reflexivity.
Defined.

(** An out-of-sync stream stalls its direction for good: once the framer
    reports an error at the front of the buffer, nothing further is written,
    whatever arrives, and the buffer keeps everything. *)
Theorem desynchronised_relay_stalls {A} `{ProtocolAdapter A} p dir en chunks (a : A) s e :
  find_complete_message p (buf s) = Done (Err e) →
  relay p dir en (ReadBytes <$> chunks) a s = Idle a (set_buf (buf s ++ concat chunks) s).
Proof.
  revert s. induction chunks as [|c chunks IH]; intros s Hf; cbn [fmap list_fmap relay].
  { cbn. by rewrite app_nil_r, set_buf_buf. }
  assert (Hf' : find_complete_message p (buf s ++ c) = Done (Err e)).
  { by apply fcm_verdict_stable. }
  unfold drain_fuel. cbn [drain buf set_buf]. rewrite Hf'.
  rewrite IH by done. cbn [concat buf set_buf]. by rewrite app_assoc.
Qed.

Lemma desynchronised_relay_stalls_witness :
  relay dev_profile Inbound true (ReadBytes <$> [wikipedia_message; wikipedia_message])
    mk_FixSilentReject (set_buf (bytes "35=D") empty_locals) =
  Idle mk_FixSilentReject
    (set_buf (bytes "35=D" ++ concat [wikipedia_message; wikipedia_message]) (set_buf (bytes "35=D") empty_locals)).
Proof.
  apply (desynchronised_relay_stalls dev_profile Inbound true [wikipedia_message; wikipedia_message]
           mk_FixSilentReject (set_buf (bytes "35=D") empty_locals) MalformedTag).
  vm_compute. reflexivity.
Defined.

(* ------------------------------------------------------------------ *)
(** * Properties: the threads *)

(** The interleaving model is the code: run alone with the flags held, the
    thread cut at its shared accesses does what the drain loop does, and ends at
    the loop top, exited or panicked accordingly. *)
Theorem thread_refines_drain {A} `{ProtocolAdapter A} p dir f sd en evs (a : A) s :
  match drain p dir f en a s with
  | Idle a' s' => ∃ n, thread_run p dir n sd en evs a {| t_phase := Draining; t_locals := s |} =
                       (a', {| t_phase := AtTop; t_locals := s' |})
  | Returned a' s' => ∃ n, thread_run p dir n sd en evs a {| t_phase := Draining; t_locals := s |} =
                           (a', {| t_phase := Exited; t_locals := s' |})
  | Crashed _ => ∃ n a' s', thread_run p dir n sd en evs a {| t_phase := Draining; t_locals := s |} =
                           (a', {| t_phase := Panicked; t_locals := s' |})
  | OutOfFuel => True
  end.
Proof.
  revert a s. induction f as [|f IH]; intros a s; [done|]. cbn [drain].
  pose proof (thread_message_steps p dir sd en evs a s) as Hsteps.
  destruct (find_complete_message p (buf s)) as [[[len|]|]|why] eqn:Ef.
  - destruct (slice 0 (Z.to_nat len) (buf s)) as [m|] eqn:Es; [|by exists 1%nat, a, s; cbn; rewrite Ef, Es].
    destruct (handle dir en a _ m) as [[[[] a'] s']|why].
    + specialize (IH a' s'). destruct (drain p dir f en a' s').
      * destruct IH as [n Hn]. exists (S (S (S n))). by rewrite Hsteps.
      * destruct IH as [n Hn]. exists (S (S (S n))). by rewrite Hsteps.
      * destruct IH as (n & a1 & s1 & Hn). exists (S (S (S n))), a1, s1. by rewrite Hsteps.
      * done.
    + exists 3%nat. by rewrite Hsteps.
    + exists 3%nat. destruct Hsteps as (a1 & s1 & Hsteps). eexists _, _. apply Hsteps.
  - by exists 1%nat; cbn; rewrite Ef.
  - by exists 1%nat; cbn; rewrite Ef.
  - by exists 1%nat, a, s; cbn; rewrite Ef.
Qed.

(** [stop] is answered: once [shutdown] is set, a relay thread anywhere but in its
    (timed) read finishes, exited or panicked, within [3 * n + 4] of its own steps,
    [n] the bytes it still has buffered. *)
Theorem shutdown_is_answered {A} `{ProtocolAdapter A} p dir en evs (a : A) t :
  overflow_checks p = true → Z.of_nat (length (buf (t_locals t))) < 2 ^ 63 →
  t_phase t ≠ Reading →
  let '(_, t') := thread_run p dir (3 * length (buf (t_locals t)) + 4) true en evs a t in
  t_phase t' = Exited ∨ t_phase t' = Panicked.
Proof.
  intros Hp Hsz Hr. apply thread_run_finishes; [done..|].
  destruct t as [[] s]; cbn in *; lia.
Qed.

Lemma shutdown_is_answered_witness :
  let t := {| t_phase := Draining; t_locals := set_buf wikipedia_message empty_locals |} in
  let '(_, t') := thread_run dev_profile Inbound (3 * length wikipedia_message + 4) true true
                    (λ _, ReadRetry) mk_FixSilentReject t in
  t_phase t' = Exited ∨ t_phase t' = Panicked.
Proof.
  apply (shutdown_is_answered dev_profile Inbound true (λ _, ReadRetry) mk_FixSilentReject
           {| t_phase := Draining; t_locals := set_buf wikipedia_message empty_locals |}).
  - reflexivity.
  - vm_compute. reflexivity.
  - discriminate.
Defined.

(** The rate limit holds under every interleaving: however the two relay threads,
    arming, disarming and shutdown interleave, of the outbound messages the
    throttle was asked about exactly the first [threshold] were let through, and
    it never touched the inbound side. *)
Theorem throttle_limit_under_interleaving p t client upstream en sd tr s :
  0 <= t →
  @session_steps _ (FixRateLimitThrottle_adapter p) p
    (run_session client upstream (FixRateLimitThrottle_new t) en sd) tr s →
  outbound_seen tr + 1 < 2 ^ 64 →
  s_adapter s = {| threshold := t; count := outbound_seen tr |} ∧
  outbound_forwarded tr = Z.min t (outbound_seen tr) ∧
  (∀ act, Intercepted Inbound act ∈ tr → act = Forward).
Proof.
  intros Ht Hs. remember (run_session client upstream (FixRateLimitThrottle_new t) en sd) as s0.
  induction Hs as [s|s tr s1 l s2 Hs IH Hstep]; intros Hn.
  { subst s. split_and!; [done|change (0 = Z.min t 0); lia|]. intros act Hin. by apply elem_of_nil in Hin. }
  rewrite outbound_seen_app in Hn.
  assert (Hn' : outbound_seen tr + 1 < 2 ^ 64) by (unfold outbound_seen in *; lia).
  specialize (IH Heqs0 Hn'). inversion Hstep; subst; cbn [s_adapter].
  - by eapply throttle_inv_step.
  - by eapply throttle_inv_step.
  - by rewrite app_nil_r.
  - by rewrite app_nil_r.
Qed.

Definition idle_dst : TcpDst := {| written := []; accepts := None |}.

(** Two outbound orders against a limit of one, armed between the connection and the
    first read, with the inbound thread running in between. *)
Definition throttled_schedule : list choice :=
  [ChooseOutbound ReadRetry; ChooseToggle true; ChooseInbound ReadRetry;
   ChooseOutbound (ReadBytes (wikipedia_message ++ wikipedia_message))]
  ++ [ChooseOutbound ReadRetry; ChooseOutbound ReadRetry; ChooseInbound (ReadBytes wikipedia_message);
      ChooseOutbound ReadRetry; ChooseInbound ReadRetry]
  ++ replicate 3 (ChooseOutbound ReadRetry) ++ [ChooseToggle false; ChooseShutdown].

Lemma throttle_limit_under_interleaving_witness :
  let r := @session_exec _ (FixRateLimitThrottle_adapter dev_profile) dev_profile throttled_schedule
             (run_session idle_dst idle_dst (FixRateLimitThrottle_new 1) false false) in
  outbound_seen r.1 = 2 ∧
  s_adapter r.2 = {| threshold := 1; count := outbound_seen r.1 |} ∧
  outbound_forwarded r.1 = Z.min 1 (outbound_seen r.1) ∧
  (∀ act, Intercepted Inbound act ∈ r.1 → act = Forward).
Proof.
  intros r. split; [vm_compute; reflexivity|].
  apply (throttle_limit_under_interleaving dev_profile 1 idle_dst idle_dst false false r.1 r.2).
  - lia.
  - apply session_exec_sound.
  - vm_compute. reflexivity.
Defined.
