(* ===== verification/FixInjector.v ===== *)
(** crates/adapters/src/fix/proxy.rs ([FixProxy] itself: [new], [start], [stop] and
    the accept loop) and fix/injector.rs ([FixFaultInjector]), with the
    [FaultInjector] instance and its laws. *)

From S2P Require Import Prelude RustStd Core FixAdapter.

(* ------------------------------------------------------------------ *)
(** * FixProxy *)

(** The OS side of [TcpListener::bind]. *)
Class TcpApi (W : Type) := tcp_bind : string → W → result io_error unit * W.

(** [handle] is the [JoinHandle]: only its presence is ever looked at. *)
Record FixProxy := {
  listen_addr : string;
  upstream_addr : string;
  proxy_adapter : AnyAdapter;
  enabled : bool;
  handle_spawned : bool;
  shutdown : bool
}.

Definition FixProxy_new (listen upstream : string) (a : AnyAdapter) : FixProxy :=
  {| listen_addr := listen; upstream_addr := upstream; proxy_adapter := a;
     enabled := false; handle_spawned := false; shutdown := false |}.

Definition set_enabled (b : bool) (x : FixProxy) : FixProxy :=
  {| listen_addr := listen_addr x; upstream_addr := upstream_addr x;
     proxy_adapter := proxy_adapter x; enabled := b;
     handle_spawned := handle_spawned x; shutdown := shutdown x |}.

Definition FixProxy_start {W} `{TcpApi W} (x : FixProxy) (w : W)
  : result HarnessError unit * FixProxy * W :=
  if handle_spawned x then (Ok tt, x, w)
  else
    match tcp_bind (listen_addr x) w with
    | (Err e, w') =>
        (Err (ArmFailed "fix-proxy"
                ("binding " +:+ listen_addr x +:+ ": " +:+ io_text e)), x, w')
    | (Ok _, w') =>
        (Ok tt,
         {| listen_addr := listen_addr x; upstream_addr := upstream_addr x;
            proxy_adapter := proxy_adapter x; enabled := enabled x;
            handle_spawned := true; shutdown := shutdown x |}, w')
    end.

(** [stop] sets the flag and joins the thread, if there is one. *)
Definition FixProxy_stop (x : FixProxy) : FixProxy :=
  {| listen_addr := listen_addr x; upstream_addr := upstream_addr x;
     proxy_adapter := proxy_adapter x; enabled := enabled x;
     handle_spawned := false; shutdown := true |}.

(** ** The accept loop *)

(** What [listener.accept()] returns, and for a connection whether the upstream
    could be dialled. *)
Inductive accept_event :=
| Accepted (upstream_connects : bool)
| AcceptWouldBlock
| AcceptError.

Inductive acceptor := Listening | InSession | AcceptorDone.

(** One round of the spawned loop; a session runs to its end before the next
    [accept], so no second one starts meanwhile. *)
Definition accept_step (shutdown : bool) (ev : accept_event) (st : acceptor) : acceptor :=
  match st with
  | AcceptorDone => AcceptorDone
  | InSession => Listening
  | Listening =>
      if shutdown then AcceptorDone
      else match ev with
           | Accepted true => InSession
           | Accepted false => Listening
           | AcceptWouldBlock => Listening
           | AcceptError => AcceptorDone
           end
  end.

(* ------------------------------------------------------------------ *)
(** * FixFaultInjector *)

Record FixFaultInjector := { fix_id : string; proxy : FixProxy; fix_armed : bool }.

Definition FixFaultInjector_new (id listen upstream : string) (a : AnyAdapter) : FixFaultInjector :=
  {| fix_id := id; proxy := FixProxy_new listen upstream a; fix_armed := false |}.

Definition FixFaultInjector_arm {W} `{TcpApi W} (ctx : FaultContext) (i : FixFaultInjector) (w : W)
  : result HarnessError unit * FixFaultInjector * W :=
  match FixProxy_start (proxy i) w with
  | (Err e, x, w') => (Err e, {| fix_id := fix_id i; proxy := x; fix_armed := fix_armed i |}, w')
  | (Ok _, x, w') =>
      (Ok tt, {| fix_id := fix_id i; proxy := set_enabled true x; fix_armed := true |}, w')
  end.

Definition FixFaultInjector_disarm {W} (i : FixFaultInjector) (w : W)
  : result HarnessError unit * FixFaultInjector * W :=
  (Ok tt, {| fix_id := fix_id i; proxy := set_enabled false (proxy i); fix_armed := false |}, w).

#[global] Instance FixFaultInjector_injector {W} `{TcpApi W} : FaultInjector W FixFaultInjector := {|
  fi_id := fix_id;
  fi_arm := FixFaultInjector_arm;
  fi_disarm := FixFaultInjector_disarm;
  fi_is_armed := fix_armed
|}.

(* ------------------------------------------------------------------ *)
(** * Lemmas *)

Lemma fix_arm_cases {W} `{TcpApi W} ctx i (w : W) :
  (∃ w', FixFaultInjector_arm ctx i w =
     (Ok tt, {| fix_id := fix_id i;
                proxy := {| listen_addr := listen_addr (proxy i);
                            upstream_addr := upstream_addr (proxy i);
                            proxy_adapter := proxy_adapter (proxy i); enabled := true;
                            handle_spawned := true; shutdown := shutdown (proxy i) |};
                fix_armed := true |}, w')) ∨
  (handle_spawned (proxy i) = false ∧
   ∃ e w', FixFaultInjector_arm ctx i w = (Err e, i, w')).
Proof.
  unfold FixFaultInjector_arm, FixProxy_start. destruct i as [id [la ua ad en hs sd] ar].
  cbn. destruct hs; [left; by eexists|].
  destruct (tcp_bind la w) as [[?|e] w']; [left|right; split; [done|]]; by repeat eexists.
Qed.

#[global] Instance FixFaultInjector_laws {W} `{TcpApi W} : FaultInjectorLaws W FixFaultInjector.
Proof.
  split; cbn [fi_arm fi_disarm fi_is_armed fi_id FixFaultInjector_injector].
  - intros ctx i w i' w'. destruct (fix_arm_cases ctx i w) as [[w1 ->]|[_ (e & w1 & ->)]];
      [by intros [= <- <-]|done].
  - intros ctx i w e i' w'. destruct (fix_arm_cases ctx i w) as [[w1 ->]|[_ (e1 & w1 & ->)]];
      [done|by intros [= _ <- _]].
  - by intros i w i' w' [= <- <-].
  - done.
  - intros ctx i w. by destruct (fix_arm_cases ctx i w) as [[w1 ->]|[_ (e & w1 & ->)]].
  - done.
Qed.

(** The proxy's flag is the injector's: both [armed], never armed without a
    listener, and never shut down from here. *)
Definition fix_inv (i : FixFaultInjector) : Prop :=
  enabled (proxy i) = fix_armed i ∧
  (fix_armed i = true → handle_spawned (proxy i) = true) ∧
  shutdown (proxy i) = false.

Lemma fix_inv_call {W} `{TcpApi W} c i (w : W) :
  fix_inv i → fix_inv (call_injector c i w).1.2.
Proof.
  intros (He & Hh & Hs). destruct c as [ctx|]; cbn [call_injector fi_arm fi_disarm FixFaultInjector_injector].
  - destruct (fix_arm_cases ctx i w) as [[w' ->]|[_ (e & w' & ->)]]; cbn; by split_and!.
  - cbn. by split_and!.
Qed.

Lemma fix_inv_all {W} `{TcpApi W} cs i (w : W) : fix_inv i → fix_inv (call_all cs i w).1.
Proof.
  revert i w. induction cs as [|c cs IH]; intros i w Hi; [done|]. cbn [call_all].
  pose proof (fix_inv_call c i w Hi) as Hc. destruct (call_injector c i w) as [[r i'] w'].
  by apply IH.
Qed.

Lemma handle_spawned_all {W} `{TcpApi W} cs i (w : W) :
  handle_spawned (proxy i) = true → handle_spawned (proxy (call_all cs i w).1) = true.
Proof.
  revert i w. induction cs as [|c cs IH]; intros i w Hi; [done|]. cbn [call_all].
  destruct c as [ctx|]; cbn [call_injector fi_arm fi_disarm FixFaultInjector_injector].
  - by destruct (fix_arm_cases ctx i w) as [[w' ->]|[Hf _]]; [apply IH|congruence].
  - by apply IH.
Qed.

(* ------------------------------------------------------------------ *)
(** * Properties *)

(** Whatever calls the runner makes, in whatever order and with whatever bind
    failures, the flag the relay threads read is exactly [is_armed], and the
    proxy is never armed without a listener nor asked to shut down. *)
Theorem fix_injector_flag_is_armed {W} `{TcpApi W} id listen upstream a cs (w : W) :
  let i := (call_all cs (FixFaultInjector_new id listen upstream a) w).1 in
  enabled (proxy i) = fi_is_armed i ∧
  (fi_is_armed i = true → handle_spawned (proxy i) = true) ∧ shutdown (proxy i) = false.
Proof. apply fix_inv_all. by split_and!. Qed.

(** The listener is bound once: after one successful [arm] no later call, armed or
    disarmed in between, can fail or touches the network again. *)
Theorem fix_injector_binds_once {W} `{TcpApi W} ctx i (w : W) i1 w1 cs c :
  fi_arm ctx i w = (Ok tt, i1, w1) →
  (call_all cs i1 w1).2 = w1 ∧
  (call_injector c (call_all cs i1 w1).1 w1).1.1 = Ok tt.
Proof.
  intros Harm.
  assert (Hh : handle_spawned (proxy i1) = true).
  { cbn in Harm. by destruct (fix_arm_cases ctx i w) as [[w' E]|[_ (e & w' & E)]];
      rewrite E in Harm; [injection Harm as <- <-|]. }
  clear Harm. assert (Hcall : ∀ c i, handle_spawned (proxy i) = true →
    (call_injector c i w1).1.1 = Ok tt ∧ (call_injector c i w1).2 = w1 ∧
    handle_spawned (proxy (call_injector c i w1).1.2) = true).
  { intros [ctx'|] j Hj; cbn; [|done]. unfold FixFaultInjector_arm, FixProxy_start. by rewrite Hj. }
  split; [|by apply Hcall, handle_spawned_all].
  revert i1 Hh. induction cs as [|c' cs IH]; intros i1 Hh; [done|]. cbn [call_all].
  destruct (Hcall c' i1 Hh) as (_ & Hw & Hh').
  destruct (call_injector c' i1 w1) as [[r i'] w']. cbn in Hw, Hh'. subst w'. by apply IH.
Qed.

(** A network on which every bind succeeds, counting the binds. *)
#[global] Instance CountingTcp : TcpApi Z := λ _ n, (Ok tt, n + 1).
Definition demo_fix : FixFaultInjector :=
  FixFaultInjector_new "fix" "127.0.0.1:9000" "127.0.0.1:9001" (SilentReject mk_FixSilentReject).
Definition demo_ctx : FaultContext := {| ctx_clock := System; ctx_seed := 0 |}.

Lemma fix_injector_binds_once_witness :
  let r := fi_arm demo_ctx demo_fix 0 in
  (call_all [CallDisarm; CallArm demo_ctx] r.1.2 1).2 = 1 ∧
  (call_injector (CallArm demo_ctx) (call_all [CallDisarm; CallArm demo_ctx] r.1.2 1).1 1).1.1 = Ok tt.
Proof.
  apply (fix_injector_binds_once demo_ctx demo_fix 0 (fi_arm demo_ctx demo_fix 0).1.2 1
           [CallDisarm; CallArm demo_ctx] (CallArm demo_ctx)).
  reflexivity.
Defined.

(** [stop] is final: [shutdown] is never cleared, so a proxy started again after it
    reports success and binds its address, yet its accept loop ends at its first
    check and no connection is ever taken. *)
Theorem stopped_proxy_never_accepts {W} `{TcpApi W} x (w : W) x' w' :
  FixProxy_start (FixProxy_stop x) w = (Ok tt, x', w') →
  handle_spawned x' = true ∧
  (∀ ev evs, foldl (λ st e, accept_step (shutdown x') e st) Listening (ev :: evs) = AcceptorDone).
Proof.
  unfold FixProxy_start, FixProxy_stop. cbn. destruct (tcp_bind _ w) as [[?|e] w1]; [|done].
  intros [= <- <-]. cbn. split; [done|]. intros ev evs.
  induction evs as [|e l IH]; [done|]. apply IH.
Qed.

Lemma stopped_proxy_never_accepts_witness :
  let x := {| listen_addr := "127.0.0.1:9000"; upstream_addr := "127.0.0.1:9001";
              proxy_adapter := SilentReject mk_FixSilentReject; enabled := false;
              handle_spawned := true; shutdown := true |} in
  handle_spawned x = true ∧
  (∀ ev evs, foldl (λ st e, accept_step (shutdown x) e st) Listening (ev :: evs) = AcceptorDone).
Proof.
  apply (stopped_proxy_never_accepts (proxy demo_fix) 0 _ 1).
  reflexivity.
Defined.
