(* ===== verification/FixSystem.v ===== *)
(** The FIX fault as it runs: [FixFaultInjector], the proxy's accept thread and the two
    relay threads of the current session, with the flags and the adapter they share.
    The runner calls [arm] and [disarm] while the threads move; a schedule lists who
    moves next and what the sockets answer, so a theorem over every schedule is a
    theorem over every interleaving. *)

From S2P Require Import Prelude RustStd Core FixMessage FixFraming FixAdapter FixProxy FixInjector.

#[global] Instance acceptor_eq_dec : EqDecision acceptor.
Proof. solve_decision. Defined.

(* ------------------------------------------------------------------ *)
(** * The state *)

(** [sy_acceptor] is [None] until [start] has spawned the thread; the relay threads
    mean something while it is [InSession].  The shared [Arc]s (both flags and the
    adapter) are the fields of the injector's proxy. *)
Record fix_system (W : Type) := {
  sy_injector : FixFaultInjector;
  sy_world : W;
  sy_acceptor : option acceptor;
  sy_outbound : thread;
  sy_inbound : thread
}.
Arguments sy_injector {W}.
Arguments sy_world {W}.
Arguments sy_acceptor {W}.
Arguments sy_outbound {W}.
Arguments sy_inbound {W}.

Inductive sys_choice :=
| SysCall (c : injector_call)
| SysAccept (ev : accept_event) (client upstream : TcpDst)
| SysCloneFails
| SysRelay (d : Direction) (ev : read_event)
| SysStart.

(** What happened, oldest first. *)
Inductive sys_event :=
| EvCall (c : injector_call) (ok : bool)
| EvConnected
| EvRead (d : Direction) (b : list byte)
| EvLoaded (d : Direction) (m : list byte) (en : bool)
| EvActed (d : Direction) (m : list byte) (en : bool) (act : InterceptAction).

Definition set_adapter (a : AnyAdapter) (i : FixFaultInjector) : FixFaultInjector :=
  {| fix_id := fix_id i;
     proxy := {| listen_addr := listen_addr (proxy i); upstream_addr := upstream_addr (proxy i);
                 proxy_adapter := a; enabled := enabled (proxy i);
                 handle_spawned := handle_spawned (proxy i); shutdown := shutdown (proxy i) |};
     fix_armed := fix_armed i |}.

Definition set_proxy (x : FixProxy) (i : FixFaultInjector) : FixFaultInjector :=
  {| fix_id := fix_id i; proxy := x; fix_armed := fix_armed i |}.

Definition finished (t : thread) : bool :=
  match t_phase t with Exited | Panicked => true | _ => false end.

Definition sy_thread {W} (d : Direction) (s : fix_system W) : thread :=
  match d with Outbound => sy_outbound s | Inbound => sy_inbound s end.

(** A connection has just been made: nothing is written yet. *)
Definition connected (d : TcpDst) : TcpDst := {| written := []; accepts := accepts d |}.

Section system.
Context {W : Type} `{TcpApi W} (p : profile).

Definition relay_step (d : Direction) (ev : read_event) (i : FixFaultInjector) (t : thread)
  : AnyAdapter * thread * option label :=
  @thread_step _ (AnyAdapter_adapter p) p d (shutdown (proxy i)) (enabled (proxy i)) ev
    (proxy_adapter (proxy i)) t.

(** What a step of a relay thread shows, from where it was and the adapter's answer. *)
Definition relay_events (d : Direction) (ev : read_event) (i : FixFaultInjector) (t : thread)
  : list sys_event :=
  match t_phase t with
  | Reading => match ev with ReadBytes b => [EvRead d b] | _ => [] end
  | Loading m => [EvLoaded d m (enabled (proxy i))]
  | Acting m en =>
      match @decide_action _ (AnyAdapter_adapter p) d en (proxy_adapter (proxy i)) m with
      | Done (act, _) => [EvActed d m en act]
      | Panic _ => []
      end
  | _ => []
  end.

(** One step.  [arm] spawns the accept thread when it has just bound the listener; the
    accept thread is in [run_session] until both relay threads have been joined.  An
    [arm] can be caught between [start] and the store of the flag: [SysStart] is its first
    half, and the call after it finds the thread there and only stores. *)
Definition sys_step (c : sys_choice) (s : fix_system W) : list sys_event * fix_system W :=
  match c with
  | SysCall call =>
      let '(r, i, w) := call_injector call (sy_injector s) (sy_world s) in
      ([EvCall call (is_ok r)],
       {| sy_injector := i; sy_world := w;
          sy_acceptor := if negb (handle_spawned (proxy (sy_injector s))) && handle_spawned (proxy i)
                         then Some Listening else sy_acceptor s;
          sy_outbound := sy_outbound s; sy_inbound := sy_inbound s |})
  | SysAccept ev client upstream =>
      match sy_acceptor s with
      | Some InSession =>
          if finished (sy_outbound s) && finished (sy_inbound s)
          then ([], {| sy_injector := sy_injector s; sy_world := sy_world s;
                       sy_acceptor := Some (accept_step (shutdown (proxy (sy_injector s))) ev InSession);
                       sy_outbound := sy_outbound s; sy_inbound := sy_inbound s |})
          else ([], s)
      | Some st =>
          let st' := accept_step (shutdown (proxy (sy_injector s))) ev st in
          match st' with
          | InSession =>
              ([EvConnected],
               {| sy_injector := sy_injector s; sy_world := sy_world s; sy_acceptor := Some InSession;
                  sy_outbound := fresh_thread (connected upstream);
                  sy_inbound := fresh_thread (connected client) |})
          | _ => ([], {| sy_injector := sy_injector s; sy_world := sy_world s; sy_acceptor := Some st';
                         sy_outbound := sy_outbound s; sy_inbound := sy_inbound s |})
          end
      | None => ([], s)
      end
  | SysCloneFails =>
      match sy_acceptor s with
      | Some Listening =>
          ([], {| sy_injector := sy_injector s; sy_world := sy_world s; sy_acceptor := Some AcceptorDone;
                  sy_outbound := sy_outbound s; sy_inbound := sy_inbound s |})
      | _ => ([], s)
      end
  | SysRelay d ev =>
      match sy_acceptor s with
      | Some InSession =>
          let '(a, t, _) := relay_step d ev (sy_injector s) (sy_thread d s) in
          (relay_events d ev (sy_injector s) (sy_thread d s),
           {| sy_injector := set_adapter a (sy_injector s); sy_world := sy_world s;
              sy_acceptor := Some InSession;
              sy_outbound := match d with Outbound => t | Inbound => sy_outbound s end;
              sy_inbound := match d with Inbound => t | Outbound => sy_inbound s end |})
      | _ => ([], s)
      end
  | SysStart =>
      let '(_, x, w) := FixProxy_start (proxy (sy_injector s)) (sy_world s) in
      ([], {| sy_injector := set_proxy x (sy_injector s); sy_world := w;
              sy_acceptor := if negb (handle_spawned (proxy (sy_injector s))) && handle_spawned x
                             then Some Listening else sy_acceptor s;
              sy_outbound := sy_outbound s; sy_inbound := sy_inbound s |})
  end.

Definition sys_exec (cs : list sys_choice) (s : fix_system W) : list sys_event * fix_system W :=
  foldl (λ x c, let '(es, s') := sys_step c x.2 in (x.1 ++ es, s')) ([], s) cs.

End system.

Definition idle_thread : thread :=
  {| t_phase := Exited; t_locals := {| buf := []; dst := {| written := []; accepts := None |}; slept_ns := 0 |} |}.

(** [FixFaultInjector::new]: nothing runs yet. *)
Definition sys_new {W} (id listen upstream : string) (a : AnyAdapter) (w : W) : fix_system W :=
  {| sy_injector := FixFaultInjector_new id listen upstream a; sy_world := w; sy_acceptor := None;
     sy_outbound := idle_thread; sy_inbound := idle_thread |}.

(* ------------------------------------------------------------------ *)
(** * Reading the log *)

(** What happened since the current (or last) connection was made. *)
Definition since_connect (log : list sys_event) : list sys_event :=
  foldl (λ acc e, match e with EvConnected => [] | _ => acc ++ [e] end) [] log.

Definition received (d : Direction) (log : list sys_event) : list byte :=
  concat ((λ e, match e with EvRead d' b => if decide (d' = d) then b else [] | _ => [] end) <$> log).

(** The messages a direction has dealt with: what was read of the flag, what was done. *)
Definition acted (d : Direction) (log : list sys_event) : list (list byte * bool * InterceptAction) :=
  omap (λ e, match e with EvActed d' m en act => if decide (d' = d) then Some (m, en, act) else None
                        | _ => None end) log.

Definition loaded (d : Direction) (log : list sys_event) : list (list byte * bool) :=
  omap (λ e, match e with EvLoaded d' m en => if decide (d' = d) then Some (m, en) else None
                        | _ => None end) log.

(** What an action puts on the wire for a message. *)
Definition effect (m : list byte) (act : InterceptAction) : list byte :=
  match act with Forward => m | Drop => [] | Mutate b => b | Delay _ => m end.

Definition emitted (d : Direction) (log : list sys_event) : list byte :=
  concat ((λ x, effect x.1.1 x.2) <$> acted d log).

(** The message between framing and the action. *)
Definition in_flight (t : thread) : list byte :=
  match t_phase t with Loading m | Acting m _ => m | _ => [] end.

(** Whether the last successful call was an [arm]. *)
Definition armed_by (log : list sys_event) : bool :=
  foldl (λ b e, match e with EvCall (CallArm _) true => true | EvCall CallDisarm true => false | _ => b end)
    false log.

(* ------------------------------------------------------------------ *)
(** * Lemmas: schedules and logs *)

Lemma sys_exec_snoc {W} `{TcpApi W} p cs c (s : fix_system W) :
  sys_exec p (cs ++ [c]) s =
  ((sys_exec p cs s).1 ++ (sys_step p c (sys_exec p cs s).2).1,
   (sys_step p c (sys_exec p cs s).2).2).
Proof. unfold sys_exec. rewrite foldl_app. cbn. by destruct (sys_step p c _). Qed.

(** An invariant of the log and the state that every step keeps holds after every
    schedule. *)
Lemma sys_exec_inv {W} `{TcpApi W} p (P : list sys_event → fix_system W → Prop) s0 :
  P [] s0 →
  (∀ log s c, P log s → P (log ++ (sys_step p c s).1) (sys_step p c s).2) →
  ∀ cs, P (sys_exec p cs s0).1 (sys_exec p cs s0).2.
Proof.
  intros H0 Hstep cs. induction cs as [|c cs IH] using rev_ind; [done|].
  rewrite sys_exec_snoc. by apply Hstep.
Qed.

Lemma since_connect_app log es :
  EvConnected ∉ es → since_connect (log ++ es) = since_connect log ++ es.
Proof.
  revert log. induction es as [|e es IH]; intros log Hn; [by rewrite !app_nil_r|].
  apply not_elem_of_cons in Hn as [He Hn].
  replace (log ++ e :: es) with ((log ++ [e]) ++ es) by (by rewrite <- app_assoc).
  rewrite IH by done. unfold since_connect at 1. rewrite foldl_app. cbn.
  fold (since_connect log). by destruct e; rewrite <- ?app_assoc.
Qed.

Lemma since_connect_restart log : since_connect (log ++ [EvConnected]) = [].
Proof. unfold since_connect. by rewrite foldl_app. Qed.

Lemma received_app d l1 l2 : received d (l1 ++ l2) = received d l1 ++ received d l2.
Proof. unfold received. by rewrite fmap_app, concat_app. Qed.

Lemma acted_app d l1 l2 : acted d (l1 ++ l2) = acted d l1 ++ acted d l2.
Proof. apply omap_app. Qed.

Lemma loaded_app d l1 l2 : loaded d (l1 ++ l2) = loaded d l1 ++ loaded d l2.
Proof. apply omap_app. Qed.

Lemma emitted_app d l1 l2 : emitted d (l1 ++ l2) = emitted d l1 ++ emitted d l2.
Proof. unfold emitted. by rewrite acted_app, fmap_app, concat_app. Qed.

Lemma armed_by_app l1 l2 :
  armed_by (l1 ++ l2) =
  foldl (λ b e, match e with EvCall (CallArm _) true => true | EvCall CallDisarm true => false | _ => b end)
    (armed_by l1) l2.
Proof. apply foldl_app. Qed.

(** [start] changes the handle only. *)
Lemma start_keeps {W} `{TcpApi W} x (w : W) :
  let x' := (FixProxy_start x w).1.2 in
  proxy_adapter x' = proxy_adapter x ∧ enabled x' = enabled x ∧ shutdown x' = shutdown x ∧
  (handle_spawned x = true → x' = x).
Proof.
  unfold FixProxy_start. destruct (handle_spawned x) eqn:E; [by split_and!|].
  destruct (tcp_bind _ _) as [[]]; cbn; by split_and!.
Qed.

(** ** The relay threads *)

Lemma write_all_cases d b ok d' :
  write_all d b = (ok, d') →
  written d' `prefix_of` written d ++ b ∧
  (if ok then written d' = written d ++ b ∧ (accepts d' = None → accepts d = None) else accepts d' ≠ None).
Proof.
  unfold write_all. destruct (accepts d) as [k|]; [destruct (length b <=? k)%nat|]; intros [= <- <-]; cbn.
  - by split.
  - split; [|done]. apply prefix_app. by exists (drop k b); rewrite take_drop.
  - by split.
Qed.

Lemma perform_cases act m s ok s' :
  perform act m s = (ok, s') →
  buf s' = buf s ∧ written (dst s') `prefix_of` written (dst s) ++ effect m act ∧
  (if ok then written (dst s') = written (dst s) ++ effect m act ∧
              (accepts (dst s') = None → accepts (dst s) = None)
   else accepts (dst s') ≠ None).
Proof.
  unfold perform, write_msg. destruct act as [| |b|ns]; cbn [effect].
  2:{ intros [= <- <-]. rewrite app_nil_r. by split_and!. }
  all: cbn [dst buf]; destruct (write_all _ _) as [ok' d'] eqn:E; apply write_all_cases in E as [??];
    intros [= <- <-]; by split_and!.
Qed.

(** One direction's books are balanced against the log of the session. *)
Definition accounted (d : Direction) (log : list sys_event) (t : thread) : Prop :=
  (t_phase t ≠ Panicked →
     received d log = concat (fst ∘ fst <$> acted d log) ++ in_flight t ++ buf (t_locals t) ∧
     loaded d log = (fst <$> acted d log) ++
       match t_phase t with Acting m en => [(m, en)] | _ => [] end) ∧
  written (dst (t_locals t)) `prefix_of` emitted d log ∧
  (t_phase t ≠ Exited ∨ accepts (dst (t_locals t)) = None →
     written (dst (t_locals t)) = emitted d log) ∧
  Forall (λ x, x.1.2 = false → x.2 = Forward) (acted d log).

Lemma accounted_fresh d dd : accounted d [] (fresh_thread (connected dd)).
Proof. by split_and!. Qed.

Lemma relay_events_foreign p d d' ev i t :
  d' ≠ d →
  received d' (relay_events p d ev i t) = [] ∧ acted d' (relay_events p d ev i t) = [] ∧
  loaded d' (relay_events p d ev i t) = [].
Proof.
  intros Hd. unfold relay_events. repeat case_match; try done;
    unfold received, acted, loaded; cbn; by rewrite ?decide_False by done.
Qed.

Lemma relay_events_quiet p d ev i t : EvConnected ∉ relay_events p d ev i t.
Proof. unfold relay_events. repeat case_match; set_solver. Qed.

Lemma accounted_foreign p d d' ev i t0 log t :
  d' ≠ d → accounted d' log t → accounted d' (log ++ relay_events p d ev i t0) t.
Proof.
  intros Hd Ha. destruct (relay_events_foreign p d d' ev i t0 Hd) as (Hr & Hac & Hl).
  unfold accounted, emitted in *. rewrite received_app, acted_app, loaded_app, Hr, Hac, Hl.
  by rewrite !app_nil_r.
Qed.

Lemma take_slice {A} n (l m : list A) : slice 0 n l = Done m → l = m ++ drop n l.
Proof.
  unfold slice. case_decide; [|done]. intros [= <-]. by rewrite drop_0, Nat.sub_0_r, take_drop.
Qed.

(** Moves that neither log nor touch the locals. *)
Lemma accounted_goto d log t ph :
  accounted d log t →
  (ph ≠ Panicked → t_phase t ≠ Panicked ∧ in_flight t = [] ∧ (∀ m en, t_phase t ≠ Acting m en) ∧
     match ph with Loading _ | Acting _ _ => False | _ => True end) →
  t_phase t ≠ Exited ∨ t_phase t = ph →
  accounted d log {| t_phase := ph; t_locals := t_locals t |}.
Proof.
  intros (Hb & Hp & Hw & Hf) Hph Hex. split_and!; cbn [t_phase t_locals]; try done.
  - intros Hn. destruct (Hph Hn) as (Hn' & Hi & Ha & Hm). destruct (Hb Hn') as [Hr Hl].
    rewrite Hi in Hr. unfold in_flight. cbn [t_phase]. rewrite Hr, Hl.
    destruct ph; try done; (split; [done|]); destruct (t_phase t) as [| | |?|m0 e0| |]; try done; by destruct (Ha m0 e0).
  - intros [?|?]; apply Hw; [left|by right]. destruct Hex as [?|E]; congruence.
Qed.

Lemma accounted_acting p d ev i log t m en :
  t_phase t = Acting m en → accounted d log t →
  accounted d (log ++ relay_events p d ev i t) (relay_step p d ev i t).1.2.
Proof.
  intros Hph (Hb & Hp & Hw & Hf). unfold relay_step, thread_step, relay_events. rewrite Hph.
  destruct Hb as [Hr Hl]; [by rewrite Hph|]. unfold in_flight in Hr. rewrite Hph in Hr, Hl.
  assert (He : written (dst (t_locals t)) = emitted d log) by (apply Hw; left; by rewrite Hph).
  destruct (decide_action _ _ _ _) as [[act a']|why] eqn:Ed.
  2:{ rewrite app_nil_r. split_and!; cbn [t_phase t_locals]; done. }
  destruct (perform act m (t_locals t)) as [ok s'] eqn:Epf.
  apply perform_cases in Epf as (Hbuf & Hpre & Hok). cbn [fst snd].
  unfold accounted. rewrite received_app, acted_app, loaded_app, emitted_app.
  assert (acted d [EvActed d m en act] = [(m, en, act)]) as Hac
    by (unfold acted; cbn; by rewrite decide_True).
  assert (received d [EvActed d m en act] = []) as -> by done.
  assert (loaded d [EvActed d m en act] = []) as -> by done.
  assert (emitted d [EvActed d m en act] = effect m act) as ->
    by (unfold emitted; rewrite Hac; cbn; by rewrite app_nil_r).
  rewrite Hac, !fmap_app, concat_app, !app_nil_r, <- He. cbn [t_phase t_locals fmap list_fmap concat].
  rewrite app_nil_r, Hr, Hl, Hbuf.
  split_and!.
  - intros _. rewrite <- app_assoc. destruct ok; by rewrite ?app_nil_r.
  - done.
  - destruct ok; [by destruct Hok|]. by intros [?|?].
  - apply Forall_app. split; [done|]. apply Forall_singleton. cbn. intros ->.
    cbn in Ed. by injection Ed.
Qed.

Lemma accounted_step p d ev i log t :
  accounted d log t →
  accounted d (log ++ relay_events p d ev i t) (relay_step p d ev i t).1.2.
Proof.
  intros Ha. destruct (t_phase t) as [| | |m|m en| |] eqn:Hph;
    [| | | |by eapply accounted_acting|..];
    unfold relay_step, thread_step, relay_events; rewrite Hph.
  - rewrite app_nil_r. cbn. apply accounted_goto; [done| |left; congruence].
    intros _. unfold in_flight. rewrite Hph. split_and!; try done. by destruct (shutdown _).
  - destruct ev as [|b| |]; rewrite ?app_nil_r; cbn [fst snd];
      try (apply accounted_goto; [done| |left; congruence];
           intros _; unfold in_flight; rewrite Hph; by split_and!).
    destruct Ha as (Hb & Hp & Hw & Hf). destruct Hb as [Hr Hl]; [by rewrite Hph|].
    unfold accounted, emitted. rewrite received_app, acted_app, loaded_app.
    assert (received d [EvRead d b] = b) as ->
      by (unfold received; cbn; by rewrite decide_True, app_nil_r).
    assert (acted d [EvRead d b] = []) as -> by done. assert (loaded d [EvRead d b] = []) as -> by done.
    rewrite !app_nil_r. unfold in_flight in *. rewrite Hph in *. cbn in *.
    split_and!; [|done| |done].
    + intros _. rewrite Hr, Hl, ?app_nil_r. split; [by rewrite <- app_assoc|done].
    + intros _. apply Hw. by left.
  - rewrite app_nil_r. destruct (find_complete_message p (buf (t_locals t))) as [[[len|]|]|]; cbn [fst snd];
      try (apply accounted_goto; [done| |left; congruence];
           intros; unfold in_flight; rewrite Hph; by split_and!).
    destruct (slice 0 (Z.to_nat len) (buf (t_locals t))) as [m|] eqn:Es; cbn [fst snd];
      [|apply accounted_goto; [done| |left; congruence]; intros; unfold in_flight; rewrite Hph; by split_and!].
    destruct Ha as (Hb & Hp & Hw & Hf). destruct Hb as [Hr Hl]; [by rewrite Hph|].
    unfold accounted. unfold in_flight in *. rewrite Hph in *. cbn in *. split_and!; [|done| |done].
    + intros _. split; [|done]. rewrite Hr. f_equal. by apply take_slice.
    + intros _. apply Hw. by left.
  - destruct Ha as (Hb & Hp & Hw & Hf). destruct Hb as [Hr Hl]; [by rewrite Hph|].
    unfold accounted, emitted. rewrite received_app, acted_app, loaded_app. cbn [fst snd t_phase t_locals].
    assert (loaded d [EvLoaded d m (enabled (proxy i))] = [(m, enabled (proxy i))]) as ->
      by (unfold loaded; cbn; by rewrite decide_True).
    change (received d [EvLoaded d m (enabled (proxy i))]) with (@nil byte).
    change (acted d [EvLoaded d m (enabled (proxy i))]) with (@nil (list byte * bool * InterceptAction)).
    rewrite !app_nil_r. unfold in_flight in *. rewrite Hph, ?app_nil_r in *. cbn.
    split_and!; [|done| |done].
    + intros _. by rewrite Hr, Hl.
    + intros _. apply Hw. by left.
  - rewrite app_nil_r. cbn. replace {| t_phase := Exited; t_locals := t_locals t |} with t; [done|].
    destruct t. cbn in *. by subst.
  - rewrite app_nil_r. cbn. replace {| t_phase := Panicked; t_locals := t_locals t |} with t; [done|].
    destruct t. cbn in *. by subst.
Qed.

(** ** The whole system *)

Definition call_event (e : sys_event) : bool := match e with EvCall _ _ => true | _ => false end.

Lemma accounted_call d log t c ok : accounted d log t → accounted d (log ++ [EvCall c ok]) t.
Proof.
  intros Ha. unfold accounted, emitted in *. rewrite received_app, acted_app, loaded_app.
  change (received d [EvCall c ok]) with (@nil byte).
  change (acted d [EvCall c ok]) with (@nil (list byte * bool * InterceptAction)).
  change (loaded d [EvCall c ok]) with (@nil (list byte * bool)). by rewrite !app_nil_r.
Qed.

Lemma sys_accounted_step {W} `{TcpApi W} p log (s : fix_system W) c :
  (∀ d, accounted d (since_connect log) (sy_thread d s)) →
  ∀ d, accounted d (since_connect (log ++ (sys_step p c s).1)) (sy_thread d (sys_step p c s).2).
Proof.
  intros Ha d. specialize (Ha d) as Hd. destruct c as [call|ev client upstream| |d' ev|]; cbn [sys_step].
  - destruct (call_injector _ _ _) as [[r i] w]. cbn [fst snd].
    rewrite since_connect_app by set_solver. apply accounted_call.
    by destruct d.
  - destruct (sy_acceptor s) as [[]|]; cbn [fst snd]; rewrite ?app_nil_r; try done; cbn [accept_step].
    + destruct (shutdown _); [|destruct ev as [[]| |]]; cbn [fst snd]; rewrite ?app_nil_r; try by destruct d.
      rewrite since_connect_restart. destruct d; apply accounted_fresh.
    + destruct (_ && _); cbn [fst snd]; rewrite ?app_nil_r; by destruct d.
  - destruct (sy_acceptor s) as [[]|]; cbn [fst snd]; rewrite ?app_nil_r; by destruct d.
  - destruct (sy_acceptor s) as [[]|]; cbn [fst snd]; rewrite ?app_nil_r; try done.
    pose proof (accounted_step p d ev (sy_injector s) (since_connect log) (sy_thread d s) Hd) as Hs.
    destruct (relay_step p d' ev (sy_injector s) (sy_thread d' s)) as [[a t] l] eqn:Er. cbn [fst snd].
    rewrite since_connect_app by apply relay_events_quiet. destruct (decide (d = d')) as [<-|Hne].
    + rewrite Er in Hs. by destruct d.
    + destruct d, d'; try done; by apply accounted_foreign.
  - destruct (FixProxy_start _ _) as [[r x] w]. cbn [fst snd]. rewrite app_nil_r. by destruct d.
Qed.

(** The flag is what the calls so far make it, and the accept thread exists exactly
    when [start] has succeeded. *)
Definition sys_wf {W} (log : list sys_event) (s : fix_system W) : Prop :=
  fix_inv (sy_injector s) ∧ fix_armed (sy_injector s) = armed_by log ∧
  (is_Some (sy_acceptor s) ↔ handle_spawned (proxy (sy_injector s)) = true).

Lemma set_adapter_inv a i : fix_inv i → fix_inv (set_adapter a i).
Proof. done. Qed.

Lemma armed_by_quiet log es : Forall (λ e, call_event e = false) es → armed_by (log ++ es) = armed_by log.
Proof.
  intros He. rewrite armed_by_app. induction He as [|e es Hc He IH]; [done|]. by destruct e.
Qed.

Lemma sys_wf_step {W} `{TcpApi W} p log (s : fix_system W) c :
  sys_wf log s → sys_wf (log ++ (sys_step p c s).1) (sys_step p c s).2.
Proof.
  intros (Hi & Harm & Hacc). destruct c as [call|ev client upstream| |d' ev|]; cbn [sys_step].
  - pose proof (fix_inv_call call (sy_injector s) (sy_world s) Hi) as Hi'.
    destruct (call_injector call (sy_injector s) (sy_world s)) as [[r i'] w'] eqn:Ec. cbn [fst snd] in *.
    split; [done|]. rewrite armed_by_app. cbn [foldl sy_injector sy_acceptor].
    destruct call as [ctx|]; cbn [call_injector fi_arm fi_disarm FixFaultInjector_injector] in Ec.
    + destruct (fix_arm_cases ctx (sy_injector s) (sy_world s)) as [[w1 E]|[Hh (e & w1 & E)]];
        rewrite E in Ec; injection Ec as <- <- <-; cbn.
      * split; [done|]. rewrite andb_true_r. destruct (handle_spawned _) eqn:Eh; cbn; naive_solver.
      * rewrite Hh. cbn. split; [done|]. by rewrite Hacc, Hh.
    + injection Ec as <- <- <-. cbn. split; [done|]. by destruct (handle_spawned _).
  - destruct (sy_acceptor s) as [st|] eqn:Es; cbn [fst snd]; rewrite ?app_nil_r;
      [|unfold sys_wf; rewrite Es; by split_and!].
    assert (Hh : handle_spawned (proxy (sy_injector s)) = true) by (apply Hacc; by eexists).
    unfold sys_wf. destruct st; cbn [fst snd]; rewrite ?app_nil_r.
    + destruct (accept_step _ _ _); cbn [fst snd sy_injector sy_acceptor];
        rewrite ?armed_by_quiet by (by repeat constructor); rewrite ?app_nil_r; split_and!; naive_solver.
    + destruct (_ && _); cbn [fst snd sy_injector sy_acceptor]; rewrite app_nil_r; split_and!; naive_solver.
    + cbn. rewrite ?app_nil_r. split_and!; naive_solver.
  - destruct (sy_acceptor s) as [[]|] eqn:Es; cbn [fst snd]; rewrite ?app_nil_r; unfold sys_wf;
      rewrite ?Es; cbn [sy_injector sy_acceptor]; split_and!; naive_solver.
  - destruct (sy_acceptor s) as [[]|] eqn:Es; cbn [fst snd]; rewrite ?app_nil_r;
      try (unfold sys_wf; rewrite Es; by split_and!).
    destruct (relay_step p d' ev (sy_injector s) (sy_thread d' s)) as [[a t] l]. cbn [fst snd].
    assert (Hq : Forall (λ e, call_event e = false) (relay_events p d' ev (sy_injector s) (sy_thread d' s))).
    { unfold relay_events. repeat case_match; by repeat constructor. }
    unfold sys_wf. cbn [sy_injector sy_acceptor]. rewrite armed_by_quiet by done.
    split_and!; [by apply set_adapter_inv|done|]. cbn. naive_solver.
  - unfold FixProxy_start. destruct (handle_spawned (proxy (sy_injector s))) eqn:Eh.
    { cbn [fst snd negb andb]. rewrite app_nil_r. unfold sys_wf. cbn [sy_injector sy_acceptor set_proxy proxy fix_armed].
      rewrite Eh. by destruct (sy_injector s). }
    destruct Hi as (Hen & Hsp & Hsd). destruct (tcp_bind _ _) as [[|e] w']; cbn [fst snd]; rewrite app_nil_r;
      unfold sys_wf, fix_inv; cbn; rewrite ?Eh; cbn; split_and!; naive_solver.
Qed.

Lemma sys_wf_exec {W} `{TcpApi W} p id listen upstream a (w : W) cs :
  sys_wf (sys_exec p cs (sys_new id listen upstream a w)).1 (sys_exec p cs (sys_new id listen upstream a w)).2.
Proof.
  apply sys_exec_inv; [|intros; by apply sys_wf_step].
  split_and!; [done..|]. cbn. split; [by intros [? ?]|done].
Qed.

(** ** The throttle over the injector's life *)

(** The messages the adapter was asked about, over all sessions. *)
Definition asked (d : Direction) (log : list sys_event) : list (list byte * bool * InterceptAction) :=
  filter (λ x, x.1.2 = true) (acted d log).

Lemma asked_app d l1 l2 : asked d (l1 ++ l2) = asked d l1 ++ asked d l2.
Proof. unfold asked. by rewrite acted_app, filter_app. Qed.

Definition throttle_life (t : Z) (log : list sys_event) (a : AnyAdapter) : Prop :=
  a = RateLimitThrottle {| threshold := t; count := Z.of_nat (length (asked Outbound log)) |} ∧
  (∀ k x, asked Outbound log !! k = Some x → x.2 = if Z.of_nat k <? t then Forward else Drop) ∧
  Forall (λ x, x.2 = Forward) (asked Inbound log).

Lemma throttle_life_quiet t log es a :
  (∀ d, asked d es = []) → throttle_life t log a → throttle_life t (log ++ es) a.
Proof. intros He. unfold throttle_life. by rewrite !asked_app, !He, !app_nil_r. Qed.

Lemma relay_step_adapter p d ev i t :
  (relay_step p d ev i t).1.1 =
  match t_phase t with
  | Acting m en =>
      match @decide_action _ (AnyAdapter_adapter p) d en (proxy_adapter (proxy i)) m with
      | Done (_, a') => a' | Panic _ => proxy_adapter (proxy i)
      end
  | _ => proxy_adapter (proxy i)
  end.
Proof. unfold relay_step, thread_step. repeat case_match; by simplify_eq/=. Qed.

Lemma throttle_decide p d en a m :
  count a + 1 < 2 ^ 64 → 0 <= count a →
  @decide_action _ (AnyAdapter_adapter p) d en (RateLimitThrottle a) m =
  Done (if en then match d with
                   | Outbound => (if threshold a <? count a + 1 then Drop else Forward,
                                  RateLimitThrottle {| threshold := threshold a; count := count a + 1 |})
                   | Inbound => (Forward, RateLimitThrottle a)
                   end
        else (Forward, RateLimitThrottle a)).
Proof.
  intros Hc H0. unfold decide_action. destruct en; [|done].
  cbn [pa_intercept AnyAdapter_adapter FixRateLimitThrottle_adapter].
  unfold FixRateLimitThrottle_intercept. cbn [direction]. rewrite uadd_exact by done.
  rewrite wrap_id by width. by destruct d.
Qed.

Lemma throttle_life_step p t log d ev i th :
  0 <= t → throttle_life t log (proxy_adapter (proxy i)) →
  Z.of_nat (length (asked Outbound log)) + 1 < 2 ^ 64 →
  throttle_life t (log ++ relay_events p d ev i th) (relay_step p d ev i th).1.1.
Proof.
  intros Ht Hl Hb. rewrite relay_step_adapter. unfold relay_events.
  destruct (t_phase th) as [| | |m|m en| |];
    try (apply throttle_life_quiet; [intros d'; try destruct ev; done|done]).
  destruct Hl as (Ha & Hk & Hi). rewrite Ha, throttle_decide by (cbn; lia). cbn [threshold count].
  set (n := length (asked Outbound log)) in *.
  destruct en; cbv iota.
  2:{ apply throttle_life_quiet; [|done]. intros d'. unfold asked, acted. cbn. by case_decide. }
  assert (Hask : ∀ d' act, asked d' [EvActed d m true act] = if decide (d = d') then [(m, true, act)] else []).
  { intros d' act. unfold asked, acted. cbn. by case_decide. }
  destruct d; unfold throttle_life; rewrite !asked_app, !Hask; repeat case_decide; try done.
  - rewrite app_nil_r. fold n. split_and!; [done..|]. apply Forall_app. by split; [|constructor].
  - rewrite app_nil_r. split_and!; [| |done].
    + rewrite length_app. fold n. cbn. do 2 f_equal. lia.
    + intros k x. rewrite lookup_app_Some. intros [?|[Hge Hx]]; [by apply Hk|]. fold n in Hge.
      apply list_lookup_singleton_Some in Hx as [Hk0 <-]. cbn. fold n in Hk0.
      replace k with n by lia. destruct (Z.ltb_spec t (Z.of_nat n + 1)), (Z.ltb_spec (Z.of_nat n) t);
        try done; lia.
Qed.

Lemma throttle_life_sys {W} `{TcpApi W} p t log (s : fix_system W) c :
  0 <= t → throttle_life t log (proxy_adapter (proxy (sy_injector s))) →
  Z.of_nat (length (asked Outbound log)) + 1 < 2 ^ 64 →
  throttle_life t (log ++ (sys_step p c s).1) (proxy_adapter (proxy (sy_injector (sys_step p c s).2))).
Proof.
  intros Ht Hl Hb. destruct c as [call|ev client upstream| |d ev|]; cbn [sys_step].
  - assert (proxy_adapter (proxy (call_injector call (sy_injector s) (sy_world s)).1.2) =
            proxy_adapter (proxy (sy_injector s))) as Hp.
    { destruct call as [ctx|]; cbn [call_injector fi_arm fi_disarm FixFaultInjector_injector]; [|done].
      by destruct (fix_arm_cases ctx (sy_injector s) (sy_world s)) as [[w1 ->]|[Hh (e & w1 & ->)]]. }
    destruct (call_injector _ _ _) as [[r i] w]. cbn in *. rewrite Hp. by apply throttle_life_quiet.
  - destruct (sy_acceptor s) as [[]|]; cbn [fst snd]; rewrite ?app_nil_r; try done.
    + destruct (accept_step _ _ _); cbn [fst snd sy_injector]; rewrite ?app_nil_r; try done.
      by apply throttle_life_quiet.
    + destruct (_ && _); cbn [fst snd sy_injector]; by rewrite app_nil_r.
  - destruct (sy_acceptor s) as [[]|]; cbn [fst snd]; by rewrite ?app_nil_r.
  - destruct (sy_acceptor s) as [[]|]; cbn [fst snd]; rewrite ?app_nil_r; try done.
    pose proof (throttle_life_step p t log d ev (sy_injector s) (sy_thread d s) Ht Hl Hb) as Hs.
    by destruct (relay_step p d ev (sy_injector s) (sy_thread d s)) as [[a th] l].
  - pose proof (start_keeps (proxy (sy_injector s)) (sy_world s)) as (Ha & _).
    destruct (FixProxy_start _ _) as [[r x] w]. cbn [fst snd] in *. rewrite app_nil_r.
    cbn [sy_injector set_proxy proxy]. by rewrite Ha.
Qed.

(** ** Closing a session *)

(** The steps a relay thread still takes once its peer has closed. *)
Definition close_measure (t : thread) : nat :=
  let n := length (buf (t_locals t)) in
  match t_phase t with
  | AtTop => 2
  | Reading => 1
  | Draining => 3 * n + 4
  | Loading _ => 3 * n + 6
  | Acting _ _ => 3 * n + 5
  | Exited | Panicked => 0
  end.

Lemma close_measure_finished t : close_measure t = 0%nat ↔ finished t = true.
Proof. destruct t as [[] s]; unfold close_measure, finished; cbn; split; done || lia. Qed.

Lemma relay_step_closes p d i t :
  overflow_checks p = true → Z.of_nat (length (buf (t_locals t))) < 2 ^ 63 →
  let t' := (relay_step p d ReadEof i t).1.2 in
  (length (buf (t_locals t')) ≤ length (buf (t_locals t)))%nat ∧
  (close_measure t' ≤ close_measure t - 1)%nat.
Proof.
  intros Hp Hsz. unfold relay_step, thread_step, close_measure. destruct t as [ph s]. cbn [t_phase t_locals] in *.
  destruct ph as [| | |m|m e| |]; cbn [fst snd t_phase t_locals]; try lia.
  - destruct (shutdown _); cbn; lia.
  - destruct (find_complete_message p (buf s)) as [[[len|]|]|] eqn:Ef; cbn [fst snd t_phase t_locals]; try lia.
    pose proof (fcm_positive p _ _ Hp Hsz Ef). rewrite slice_ok by lia.
    cbn [fst snd t_phase t_locals buf set_buf]. rewrite length_drop. lia.
  - destruct (decide_action _ _ _ _) as [[act a']|]; cbn [fst snd t_phase t_locals]; [|lia].
    pose proof (perform_buf act m s) as Hb. destruct (perform act m s) as [ok s'].
    cbn [fst snd t_phase t_locals] in *. rewrite Hb. destruct ok; lia.
Qed.

Lemma sys_exec_cons {W} `{TcpApi W} p c cs (s : fix_system W) :
  sys_exec p (c :: cs) s =
  ((sys_step p c s).1 ++ (sys_exec p cs (sys_step p c s).2).1, (sys_exec p cs (sys_step p c s).2).2).
Proof.
  induction cs as [|c' cs IH] using rev_ind.
  { unfold sys_exec. cbn. destruct (sys_step p c s). by rewrite app_nil_r. }
  rewrite app_comm_cons, !sys_exec_snoc, IH. cbn [fst snd]. by rewrite app_assoc.
Qed.

Lemma sys_exec_app_state {W} `{TcpApi W} p cs1 cs2 (s : fix_system W) :
  (sys_exec p (cs1 ++ cs2) s).2 = (sys_exec p cs2 (sys_exec p cs1 s).2).2.
Proof.
  revert s. induction cs1 as [|c cs1 IH]; intros s; [done|].
  by rewrite <- app_comm_cons, !sys_exec_cons, IH.
Qed.

(** Moves after both peers have closed: relay steps whose reads find the end of the
    stream, and the runner's calls. *)
Definition closing (c : sys_choice) : bool :=
  match c with SysRelay _ ReadEof | SysCall _ | SysStart => true | _ => false end.
Definition moves (d : Direction) (c : sys_choice) : bool :=
  match c with SysRelay d' _ => bool_decide (d' = d) | _ => false end.
Definition relay_moves (d : Direction) (cs : list sys_choice) : nat :=
  length (filter (λ c, moves d c = true) cs).

Definition in_session {W} (s : fix_system W) : Prop :=
  sy_acceptor s = Some InSession ∧ handle_spawned (proxy (sy_injector s)) = true ∧
  shutdown (proxy (sy_injector s)) = false ∧
  ∀ d, Z.of_nat (length (buf (t_locals (sy_thread d s)))) < 2 ^ 63.

Lemma closing_step {W} `{TcpApi W} p c (s : fix_system W) :
  overflow_checks p = true → closing c = true → in_session s →
  in_session (sys_step p c s).2 ∧
  ∀ d, (close_measure (sy_thread d (sys_step p c s).2) ≤
        close_measure (sy_thread d s) - if moves d c then 1 else 0)%nat.
Proof.
  intros Hp Hc (Ha & Hh & Hs & Hsz).
  destruct c as [call|ev client upstream| |d' [|?| |]|]; try done; cbn [sys_step moves].
  - assert (Hcall : handle_spawned (proxy (call_injector call (sy_injector s) (sy_world s)).1.2) = true ∧
            shutdown (proxy (call_injector call (sy_injector s) (sy_world s)).1.2) = false).
    { destruct call as [ctx|]; cbn; [|by split]. unfold FixFaultInjector_arm, FixProxy_start.
      rewrite Hh. by split. }
    destruct (call_injector _ _ _) as [[r i] w]. cbn in Hcall. destruct Hcall as [Hh' Hs'].
    rewrite Hh, Hh'. cbn [negb andb fst snd].
    split; [|intros []; cbn [sy_thread sy_outbound sy_inbound]; lia].
    split_and!; [done..|]. intros []; [apply (Hsz Inbound)|apply (Hsz Outbound)].
  - rewrite Ha.
    pose proof (relay_step_closes p d' (sy_injector s) (sy_thread d' s) Hp (Hsz d')) as [Hb Hm].
    destruct (relay_step _ _ _ _ _) as [[a t] l]. cbn [fst snd] in Hb, Hm |- *. split.
    + split_and!; [done..|]. pose proof (Hsz Inbound). pose proof (Hsz Outbound).
      intros []; destruct d'; cbn [sy_thread sy_outbound sy_inbound] in *; lia.
    + intros []; destruct d'; cbn [sy_thread sy_outbound sy_inbound bool_decide decide_rel] in *;
        try rewrite bool_decide_eq_true_2 by done; try rewrite bool_decide_eq_false_2 by done; lia.
  - pose proof (start_keeps (proxy (sy_injector s)) (sy_world s)) as (_ & _ & _ & Hx). specialize (Hx Hh).
    destruct (FixProxy_start _ _) as [[r x] w]. cbn [fst snd] in Hx. subst x. rewrite Hh. cbn [negb andb fst snd].
    split; [|intros []; cbn [sy_thread sy_outbound sy_inbound]; lia].
    split_and!; [done..|]. intros []; [apply (Hsz Inbound)|apply (Hsz Outbound)].
Qed.

Lemma closing_exec {W} `{TcpApi W} p cs (s : fix_system W) :
  overflow_checks p = true → Forall (λ c, closing c = true) cs → in_session s →
  in_session (sys_exec p cs s).2 ∧
  ∀ d, (close_measure (sy_thread d (sys_exec p cs s).2) ≤
        close_measure (sy_thread d s) - relay_moves d cs)%nat.
Proof.
  intros Hp Hcs. revert s. induction Hcs as [|c cs Hc Hcs IH]; intros s Hs.
  { split; [done|]. intros d. cbn. lia. }
  rewrite sys_exec_cons. cbn [snd]. destruct (closing_step p c s Hp Hc Hs) as [Hs' Hm].
  destruct (IH _ Hs') as [Hs'' Hm']. split; [done|]. intros d. specialize (Hm d). specialize (Hm' d).
  unfold relay_moves in *. rewrite filter_cons.
  destruct (moves d c); [rewrite decide_True by done|rewrite decide_False by done]; cbn [length]; lia.
Qed.

(** ** The flag at each message *)

Lemma sys_step_event {W} `{TcpApi W} p c (s : fix_system W) :
  (sys_step p c s).1 = [] ∨
  ∃ e, (sys_step p c s).1 = [e] ∧
    match e with EvLoaded _ _ en => en = enabled (proxy (sy_injector s)) | _ => True end.
Proof.
  destruct c as [call|ev client upstream| |d ev|]; cbn [sys_step].
  - destruct (call_injector _ _ _) as [[r i] w]. right. by eexists.
  - repeat case_match; (by left) || (right; by eexists).
  - repeat case_match; by left.
  - destruct (sy_acceptor s) as [[]|]; try by left.
    destruct (relay_step _ _ _ _ _) as [[a t] l]. cbn [fst]. unfold relay_events.
    repeat case_match; (by left) || (right; by eexists).
  - destruct (FixProxy_start _ _) as [[r x] w]. by left.
Qed.

Lemma app_one_inv {A} (log es l1 l2 : list A) e :
  log ++ es = l1 ++ e :: l2 → (length es ≤ 1)%nat →
  (∃ l2', log = l1 ++ e :: l2') ∨ (es = [e] ∧ log = l1).
Proof.
  intros Heq Hle. destruct es as [|x [|? ?]]; cbn in Hle; [| |lia].
  - left. exists l2. by rewrite app_nil_r in Heq.
  - destruct l2 as [|y l2 _] using rev_ind.
    + apply app_inj_tail in Heq as [-> ->]. by right.
    + rewrite app_comm_cons, app_assoc in Heq. apply app_inj_tail in Heq as [-> _]. left. by exists l2.
Qed.

Definition loads_follow (log : list sys_event) : Prop :=
  ∀ l1 d m en l2, log = l1 ++ EvLoaded d m en :: l2 → en = armed_by l1.

Lemma loads_follow_step {W} `{TcpApi W} p log (s : fix_system W) c :
  sys_wf log s → loads_follow log → loads_follow (log ++ (sys_step p c s).1).
Proof.
  intros ((Hen & _) & Harm & _) Hl l1 d m en l2 Heq.
  destruct (sys_step_event p c s) as [E|(e & E & He)]; rewrite E in Heq.
  - rewrite app_nil_r in Heq. by eapply Hl.
  - apply app_one_inv in Heq as [[l2' Heq]|[[= ->] ->]]; [by eapply Hl| |done].
    congruence.
Qed.

Lemma acted_prefix_loaded d log t :
  accounted d log t → t_phase t ≠ Panicked → (fst <$> acted d log) `prefix_of` loaded d log.
Proof. intros (Hb & _) Hn. destruct (Hb Hn) as [_ ->]. by apply prefix_app_r. Qed.

(* ------------------------------------------------------------------ *)
(** * Properties *)

(** C11: every byte is accounted for, under every interleaving of arming, disarming, the
    accept thread and the two relay threads: what a direction has read since the
    connection was made is the messages it has dealt with, in order, then the one it
    holds, then what is still buffered; what it has written is exactly the outcome
    of each of those messages, in order (a prefix of it only when the destination
    broke, a message is lost only in a panic), and a message whose flag was read as
    unset is forwarded as it came. *)
Theorem relay_accounts_for_every_byte {W} `{TcpApi W} p id listen upstream a (w : W) cs d :
  let '(log, s) := sys_exec p cs (sys_new id listen upstream a w) in
  let l := since_connect log in
  let t := sy_thread d s in
  (t_phase t ≠ Panicked →
     received d l = concat (fst ∘ fst <$> acted d l) ++ in_flight t ++ buf (t_locals t)) ∧
  written (dst (t_locals t)) `prefix_of` emitted d l ∧
  (t_phase t ≠ Exited ∨ accepts (dst (t_locals t)) = None →
     written (dst (t_locals t)) = emitted d l) ∧
  (∀ m act, (m, false, act) ∈ acted d l → act = Forward).
Proof.
  assert (Hinv : ∀ d, accounted d (since_connect (sys_exec p cs (sys_new id listen upstream a w)).1)
                        (sy_thread d (sys_exec p cs (sys_new id listen upstream a w)).2)).
  { apply (sys_exec_inv p (λ log s, ∀ d, accounted d (since_connect log) (sy_thread d s))).
    - intros []; by split_and!.
    - intros log s c Hl. by apply sys_accounted_step. }
  destruct (sys_exec p cs _) as [log s]. specialize (Hinv d) as (Hb & Hp & Hw & Hf). cbn [fst snd] in *.
  split_and!; [by intros []%Hb|done..|]. intros m act Hin.
  rewrite Forall_forall in Hf. by apply (Hf _ Hin).
Qed.

(** C12: a relay thread applies the fault exactly when the injector is armed: at every
    message, in every interleaving, the flag the thread reads is set if and only if
    the last successful call was an [arm], which is what [is_armed] says; and the
    messages acted on carry the flag that was read for them, in order. *)
Theorem relay_flag_follows_the_calls {W} `{TcpApi W} p id listen upstream a (w : W) cs :
  let '(log, s) := sys_exec p cs (sys_new id listen upstream a w) in
  (∀ l1 d m en l2, log = l1 ++ EvLoaded d m en :: l2 → en = armed_by l1) ∧
  fi_is_armed (sy_injector s) = armed_by log ∧
  (∀ d, (fst <$> acted d (since_connect log)) `prefix_of` loaded d (since_connect log) ∨
        t_phase (sy_thread d s) = Panicked).
Proof.
  pose proof (sys_exec_inv p (λ log s, sys_wf log s ∧ loads_follow log ∧
    ∀ d, accounted d (since_connect log) (sy_thread d s)) (sys_new id listen upstream a w)) as Hinv.
  destruct (Hinv) with (cs := cs) as (Hwf & Hld & Hacc).
  - split_and!; [apply (sys_wf_exec p id listen upstream a w [])|by intros [] ?????|intros []; by split_and!].
  - intros log s c (Hwf & Hld & Hacc).
    split_and!; [by apply sys_wf_step|by apply loads_follow_step|by apply sys_accounted_step].
  - destruct (sys_exec p cs _) as [log s]. cbn [fst snd] in *.
    split_and!; [done|by destruct Hwf as (_ & ? & _)|].
    intros d. specialize (Hacc d). pose proof (acted_prefix_loaded d _ _ Hacc).
    destruct (t_phase (sy_thread d s)) eqn:Ep; [left; by apply H0..|by right].
Qed.

(** C20: the rate limit counts over the injector's whole life: across sessions, disarming,
    re-arming and every interleaving, the [k]-th outbound message the throttle is
    asked about is forwarded exactly when [k] is below the threshold and dropped
    otherwise, and no inbound message is touched.  Nothing resets the count. *)
Theorem throttle_counts_over_the_lifetime {W} `{TcpApi W} p id listen upstream t (w : W) cs :
  0 <= t →
  let '(log, s) := sys_exec p cs
    (sys_new id listen upstream (RateLimitThrottle (FixRateLimitThrottle_new t)) w) in
  Z.of_nat (length (asked Outbound log)) + 1 < 2 ^ 64 →
  proxy_adapter (proxy (sy_injector s)) =
    RateLimitThrottle {| threshold := t; count := Z.of_nat (length (asked Outbound log)) |} ∧
  (∀ k x, asked Outbound log !! k = Some x → x.2 = if Z.of_nat k <? t then Forward else Drop) ∧
  Forall (λ x, x.2 = Forward) (asked Inbound log).
Proof.
  intros Ht.
  pose proof (sys_exec_inv p (λ log s, Z.of_nat (length (asked Outbound log)) + 1 < 2 ^ 64 →
    throttle_life t log (proxy_adapter (proxy (sy_injector s))))
    (sys_new id listen upstream (RateLimitThrottle (FixRateLimitThrottle_new t)) w)) as Hinv.
  specialize (Hinv ltac:(intros _; by split_and!)). destruct (sys_exec p cs _) as [log s] eqn:E.
  rewrite <- (f_equal fst E : _ = log), <- (f_equal snd E : _ = s). apply Hinv.
  clear - Ht. intros log s c Hl Hb. rewrite asked_app, length_app in Hb.
  apply throttle_life_sys; [lia| |lia]. apply Hl. lia.
Qed.

(** C34: a dead accept thread goes unnoticed: once it has ended (an accept error, or a
    socket that could not be cloned) it never comes back, no byte is read and no
    message is acted on any more, yet every further [arm] reports success and leaves
    the injector armed. *)
Theorem dead_listener_still_arms {W} `{TcpApi W} p id listen upstream a (w : W) cs1 cs2 ctx :
  let s1 := (sys_exec p cs1 (sys_new id listen upstream a w)).2 in
  sy_acceptor s1 = Some AcceptorDone →
  let '(log2, s2) := sys_exec p cs2 s1 in
  sy_acceptor s2 = Some AcceptorDone ∧
  (∀ e, e ∈ log2 → ∃ c, e = EvCall c true) ∧
  (fi_arm ctx (sy_injector s2) (sy_world s2)).1.1 = Ok tt ∧
  fi_is_armed (fi_arm ctx (sy_injector s2) (sy_world s2)).1.2 = true.
Proof.
  intros s1 Hdone. destruct (sys_wf_exec p id listen upstream a w cs1) as (_ & _ & Hacc).
  fold s1 in Hacc. assert (Hh : handle_spawned (proxy (sy_injector s1)) = true) by (apply Hacc; by eexists).
  clearbody s1. clear Hacc.
  pose proof (sys_exec_inv p (λ log s, sy_acceptor s = Some AcceptorDone ∧
    handle_spawned (proxy (sy_injector s)) = true ∧ ∀ e, e ∈ log → ∃ c, e = EvCall c true) s1) as Hinv.
  specialize (Hinv ltac:(split_and!; [done..|]; by intros e ?%elem_of_nil)).
  destruct Hinv with (cs := cs2) as (Hd2 & Hh2 & Hlog).
  - clear. intros log s c (Hd & Hh & Hl). destruct c as [call|ev client upstream| |d ev|]; cbn [sys_step];
      rewrite ?Hd; cbn [fst snd accept_step sy_acceptor]; rewrite ?app_nil_r; try done.
    2:{ unfold FixProxy_start. rewrite Hh. cbn [negb andb fst snd]. rewrite app_nil_r. by split_and!. }
    assert (Hc : ∃ i w, call_injector call (sy_injector s) (sy_world s) = (Ok tt, i, w) ∧
                        handle_spawned (proxy i) = true).
    { destruct call as [ctx|]; cbn; [|by eexists _, _]. unfold FixFaultInjector_arm, FixProxy_start.
      rewrite Hh. by eexists _, _. }
    destruct Hc as (i & w & -> & Hi). cbn [fst snd is_ok sy_acceptor sy_injector].
    rewrite Hh. cbn. split_and!; [done..|].
    intros e [?|Hin]%elem_of_app; [by apply Hl|]. apply list_elem_of_singleton in Hin as ->. by eexists.
  - destruct (sys_exec p cs2 s1) as [log2 s2]. cbn [fst snd] in *. split_and!; [done..| |];
      cbn; unfold FixFaultInjector_arm, FixProxy_start; by rewrite Hh2.
Qed.

(** C33: in a build with overflow checks, one session at a time but never the last one: when
    both peers of a session have closed, each relay thread ends within [3 * n + 6] of its own steps, [n] the bytes
    it has buffered, however those steps interleave with each other and with the
    runner's calls; the accept thread then takes the next client, with fresh threads. *)
Theorem closed_session_frees_the_listener {W} `{TcpApi W} p id listen upstream a (w : W) cs0 cs client up :
  let s := (sys_exec p cs0 (sys_new id listen upstream a w)).2 in
  overflow_checks p = true → sy_acceptor s = Some InSession →
  (∀ d, Z.of_nat (length (buf (t_locals (sy_thread d s)))) < 2 ^ 63) →
  Forall (λ c, closing c = true) cs →
  (∀ d, 3 * length (buf (t_locals (sy_thread d s))) + 6 ≤ relay_moves d cs)%nat →
  let s1 := (sys_exec p cs s).2 in
  finished (sy_outbound s1) = true ∧ finished (sy_inbound s1) = true ∧
  let s2 := (sys_exec p [SysAccept AcceptWouldBlock client up; SysAccept (Accepted true) client up] s1).2 in
  sy_acceptor s2 = Some InSession ∧ sy_outbound s2 = fresh_thread (connected up) ∧
  sy_inbound s2 = fresh_thread (connected client).
Proof.
  intros s Hp Ha Hsz Hcs Hn s1. destruct (sys_wf_exec p id listen upstream a w cs0) as ((_ & _ & Hsd) & _ & Hacc).
  fold s in Hsd, Hacc. destruct (closing_exec p cs s Hp Hcs) as [(Ha1 & _ & Hsd1 & _) Hm].
  { split_and!; [done| |done..]. apply Hacc. by eexists. }
  fold s1 in Ha1, Hsd1, Hm.
  assert (Hfin : ∀ d, finished (sy_thread d s1) = true).
  { intros d. apply close_measure_finished. specialize (Hm d). specialize (Hn d).
    assert (close_measure (sy_thread d s) ≤ 3 * length (buf (t_locals (sy_thread d s))) + 6)%nat
      by (unfold close_measure; destruct (t_phase (sy_thread d s)); lia).
    lia. }
  pose proof (Hfin Outbound) as Ho. pose proof (Hfin Inbound) as Hi. cbn [sy_thread] in Ho, Hi.
  split_and!; [done..|]. unfold sys_exec. cbn [foldl sys_step snd]. rewrite Ha1, Ho, Hi.
  cbn [andb snd sy_acceptor accept_step]. cbn. rewrite Hsd1. by cbn.
Qed.

(* ------------------------------------------------------------------ *)
(** * Witnesses *)

(** Arm, a client, two outbound orders against a limit of one with a disarm, a failed
    reset attempt by re-arming, and a second client. *)
Definition two_orders : list sys_choice :=
  [SysCall (CallArm demo_ctx); SysAccept (Accepted true) idle_dst idle_dst;
   SysRelay Outbound ReadRetry; SysRelay Outbound (ReadBytes (wikipedia_message ++ wikipedia_message))]
  ++ replicate 3 (SysRelay Outbound ReadRetry)
  ++ [SysCall CallDisarm; SysCall (CallArm demo_ctx)]
  ++ replicate 5 (SysRelay Outbound ReadRetry).

Definition throttled_system : fix_system Z :=
  sys_new "fix" "127.0.0.1:9000" "127.0.0.1:9001" (RateLimitThrottle (FixRateLimitThrottle_new 1)) 0.

Lemma throttle_counts_over_the_lifetime_witness :
  let '(log, s) := sys_exec dev_profile two_orders throttled_system in
  length (asked Outbound log) = 2%nat ∧
  written (dst (t_locals (sy_outbound s))) = wikipedia_message ∧
  proxy_adapter (proxy (sy_injector s)) =
    RateLimitThrottle {| threshold := 1; count := Z.of_nat (length (asked Outbound log)) |} ∧
  (∀ k x, asked Outbound log !! k = Some x → x.2 = if Z.of_nat k <? 1 then Forward else Drop) ∧
  Forall (λ x, x.2 = Forward) (asked Inbound log).
Proof.
  pose proof (throttle_counts_over_the_lifetime dev_profile "fix" "127.0.0.1:9000" "127.0.0.1:9001" 1 0
                two_orders ltac:(lia)) as Hw.
  fold throttled_system in Hw.
  assert (Hlen : length (asked Outbound (sys_exec dev_profile two_orders throttled_system).1) = 2%nat)
    by (vm_compute; reflexivity).
  assert (Hwr : written (dst (t_locals (sy_outbound (sys_exec dev_profile two_orders throttled_system).2)))
                = wikipedia_message) by (vm_compute; reflexivity).
  destruct (sys_exec dev_profile two_orders throttled_system) as [log s]. cbn [fst snd] in Hlen, Hwr.
  split_and!; [exact Hlen|exact Hwr|apply Hw; rewrite Hlen; reflexivity..].
Defined.

Definition broken_accept : list sys_choice :=
  [SysCall (CallArm demo_ctx); SysAccept AcceptError idle_dst idle_dst].

Lemma dead_listener_still_arms_witness :
  let s1 := (sys_exec dev_profile broken_accept throttled_system).2 in
  let '(log2, s2) := sys_exec dev_profile two_orders s1 in
  sy_acceptor s2 = Some AcceptorDone ∧
  (∀ e, e ∈ log2 → ∃ c, e = EvCall c true) ∧
  (fi_arm demo_ctx (sy_injector s2) (sy_world s2)).1.1 = Ok tt ∧
  fi_is_armed (fi_arm demo_ctx (sy_injector s2) (sy_world s2)).1.2 = true.
Proof.
  apply (dead_listener_still_arms dev_profile "fix" "127.0.0.1:9000" "127.0.0.1:9001"
           (RateLimitThrottle (FixRateLimitThrottle_new 1)) 0 broken_accept two_orders demo_ctx).
  vm_compute. reflexivity.
Defined.

Definition closing_schedule : list sys_choice :=
  concat (replicate 6 [SysRelay Inbound ReadEof; SysCall CallDisarm; SysRelay Outbound ReadEof]).

Lemma closed_session_frees_the_listener_witness :
  let s := (sys_exec dev_profile two_orders throttled_system).2 in
  let s1 := (sys_exec dev_profile closing_schedule s).2 in
  finished (sy_outbound s1) = true ∧ finished (sy_inbound s1) = true ∧
  let s2 := (sys_exec dev_profile [SysAccept AcceptWouldBlock idle_dst idle_dst;
                                   SysAccept (Accepted true) idle_dst idle_dst] s1).2 in
  sy_acceptor s2 = Some InSession ∧ sy_outbound s2 = fresh_thread (connected idle_dst) ∧
  sy_inbound s2 = fresh_thread (connected idle_dst).
Proof.
  apply (closed_session_frees_the_listener dev_profile "fix" "127.0.0.1:9000" "127.0.0.1:9001"
           (RateLimitThrottle (FixRateLimitThrottle_new 1)) 0 two_orders closing_schedule idle_dst idle_dst).
  - reflexivity.
  - vm_compute. reflexivity.
  - intros []; vm_compute; reflexivity.
  - apply (bool_decide_unpack _). vm_compute. exact I.
  - intros []; apply Nat.leb_le; vm_compute; reflexivity.
Defined.
