(* ===== verification/FixRun.v ===== *)
(** A run of the runner over a live FIX fault: replay/src/runner.rs driving
    adapters/src/fix/injector.rs while the proxy's threads move.  What the injector
    shares with its threads (the flags, the adapter, the thread itself) lives in the
    world, as the [Arc]s do; the registry holds a handle.  Between any two actions of
    the runner the threads make an arbitrary batch of moves. *)

From S2P Require Import Prelude RustStd Core Schedule Scheduler Trace Runner RunnerFacts.
From S2P Require Import FixMessage FixFraming FixAdapter FixProxy FixInjector FixSystem.

(* ------------------------------------------------------------------ *)
(** * The injector in the registry *)

(** The running system, what happened in it, and how many batches of thread moves have
    been made. *)
Record live_fix (W : Type) := { lf_sys : fix_system W; lf_log : list sys_event; lf_batch : nat }.
Arguments lf_sys {W}.
Arguments lf_log {W}.
Arguments lf_batch {W}.

(** What the injector keeps to itself. *)
Record FixHandle := { h_id : string; h_armed : bool }.

(** A move of the accept thread or of a relay thread. *)
Definition thread_move (c : sys_choice) : bool :=
  match c with SysAccept _ _ _ | SysCloneFails | SysRelay _ _ => true | SysCall _ | SysStart => false end.

Section handle.
Context {W : Type} `{TcpApi W} (p : profile).
(** The moves the threads make in their [n]th batch. *)
Variable threads : nat → list sys_choice.

Definition lf_exec (cs : list sys_choice) (w : live_fix W) : live_fix W :=
  {| lf_sys := (sys_exec p cs (lf_sys w)).2; lf_log := lf_log w ++ (sys_exec p cs (lf_sys w)).1;
     lf_batch := lf_batch w |}.
Definition let_threads_run (w : live_fix W) : live_fix W :=
  let w' := lf_exec (filter (λ c, thread_move c = true) (threads (lf_batch w))) w in
  {| lf_sys := lf_sys w'; lf_log := lf_log w'; lf_batch := S (lf_batch w') |}.

(** [arm]: bind and spawn, then set the flag; the threads run before and in between. *)
Definition handle_arm (ctx : FaultContext) (h : FixHandle) (w : live_fix W)
  : result HarnessError unit * FixHandle * live_fix W :=
  let w1 := let_threads_run w in
  match FixProxy_start (proxy (sy_injector (lf_sys w1))) (sy_world (lf_sys w1)) with
  | (Err e, _, _) => (Err e, h, lf_exec [SysCall (CallArm ctx)] w1)
  | (Ok _, _, _) =>
      (Ok tt, {| h_id := h_id h; h_armed := true |},
       lf_exec [SysCall (CallArm ctx)] (let_threads_run (lf_exec [SysStart] w1)))
  end.

Definition handle_disarm (h : FixHandle) (w : live_fix W) : result HarnessError unit * FixHandle * live_fix W :=
  (Ok tt, {| h_id := h_id h; h_armed := false |}, lf_exec [SysCall CallDisarm] (let_threads_run w)).

Definition handle_injector : FaultInjector (live_fix W) FixHandle := {|
  fi_id := h_id; fi_arm := handle_arm; fi_disarm := handle_disarm; fi_is_armed := h_armed
|}.

(** While the runner sleeps the threads run. *)
Definition sleep_with_threads (_ : Z) (w : live_fix W) : live_fix W := let_threads_run w.

End handle.

(** The injector as it is built. *)
Definition live_new {W} (id listen upstream : string) (a : AnyAdapter) (w : W) : live_fix W :=
  {| lf_sys := sys_new id listen upstream a w; lf_log := []; lf_batch := 0 |}.
Definition handle_new (id : string) : FixHandle := {| h_id := id; h_armed := false |}.

(** The calls that were made, and whether they succeeded. *)
Definition calls_of (log : list sys_event) : list (StepAction * bool) :=
  omap (λ e, match e with
             | EvCall (CallArm _) ok => Some (Arm, ok)
             | EvCall CallDisarm ok => Some (Disarm, ok)
             | _ => None
             end) log.

(** Whether the steps leave the fault on: the last one is an arm. *)
Definition scheduled_flag (steps : list ScenarioStep) : bool :=
  bool_decide (action <$> last steps = Some Arm).

(* ------------------------------------------------------------------ *)
(** * Lemmas *)

Lemma calls_of_app l1 l2 : calls_of (l1 ++ l2) = calls_of l1 ++ calls_of l2.
Proof. apply omap_app. Qed.

Lemma sys_exec_app {W} `{TcpApi W} p cs1 cs2 (s : fix_system W) :
  sys_exec p (cs1 ++ cs2) s =
  ((sys_exec p cs1 s).1 ++ (sys_exec p cs2 (sys_exec p cs1 s).2).1, (sys_exec p cs2 (sys_exec p cs1 s).2).2).
Proof.
  revert s. induction cs1 as [|c cs1 IH]; intros s.
  { change (sys_exec p [] s) with (@nil sys_event, s). cbn [app fst snd]. by destruct (sys_exec p cs2 s). }
  rewrite <- app_comm_cons, !sys_exec_cons, IH. cbn [fst snd]. by rewrite app_assoc.
Qed.

(** Only the runner makes calls. *)
Lemma thread_step_quiet {W} `{TcpApi W} p c (s : fix_system W) :
  thread_move c = true ∨ c = SysStart → calls_of (sys_step p c s).1 = [].
Proof.
  destruct c as [call|ev client upstream| |d ev|]; cbn [thread_move sys_step]; intros [Hc|Hc]; try done.
  - by repeat case_match.
  - by repeat case_match.
  - destruct (sy_acceptor s) as [[]|]; try done.
    destruct (relay_step _ _ _ _ _) as [[a t] l]. cbn [fst]. unfold relay_events. by repeat case_match.
  - by destruct (FixProxy_start _ _) as [[r x] w].
Qed.

Lemma threads_quiet {W} `{TcpApi W} p cs (s : fix_system W) :
  Forall (λ c, thread_move c = true ∨ c = SysStart) cs → calls_of (sys_exec p cs s).1 = [].
Proof.
  intros Hcs. revert s. induction Hcs as [|c cs Hc _ IH]; intros s; [done|].
  rewrite sys_exec_cons. cbn [fst]. by rewrite calls_of_app, thread_step_quiet, IH.
Qed.

Lemma armed_by_snoc log c ok :
  armed_by (log ++ [EvCall c ok]) =
  if ok then match c with CallArm _ => true | CallDisarm => false end else armed_by log.
Proof. rewrite armed_by_app. cbn. by destruct c, ok. Qed.

Lemma calls_of_nil_armed log es : calls_of es = [] → armed_by (log ++ es) = armed_by log.
Proof.
  intros He. apply armed_by_quiet. induction es as [|e es IH]; [constructor|].
  destruct e as [[] ok| | | |]; try done; (constructor; [done|by apply IH]).
Qed.

(** With every call a success, the flag is the last call's. *)
Lemma armed_by_calls log acts :
  calls_of log = (λ a, (a, true)) <$> acts → armed_by log = bool_decide (last acts = Some Arm).
Proof.
  revert acts. induction log as [|e log IH] using rev_ind; intros acts Hc.
  { by destruct acts. }
  rewrite calls_of_app in Hc. destruct (calls_of [e]) as [|x [|y l]] eqn:Ee.
  - rewrite app_nil_r in Hc. rewrite calls_of_nil_armed by done. by apply IH.
  - destruct acts as [|a acts _] using rev_ind; [by destruct (calls_of log)|].
    rewrite fmap_app in Hc. cbn in Hc. apply app_inj_tail in Hc as [_ ->].
    rewrite last_snoc. destruct e as [c ok| | | |]; try done. rewrite armed_by_snoc.
    destruct c; cbn in Ee; injection Ee as <- ->; done.
  - destruct e as [[] ok| | | |]; done.
Qed.

(** At every message the flag is what the calls before it made it. *)
Lemma loads_follow_exec {W} `{TcpApi W} p id listen upstream a (w : W) cs :
  loads_follow (sys_exec p cs (sys_new id listen upstream a w)).1.
Proof.
  apply (sys_exec_inv p (λ log s, sys_wf log s ∧ loads_follow log)).
  - split; [apply (sys_wf_exec p id listen upstream a w [])|]. by intros [] ?????.
  - intros log s c [? ?]. split; [by apply sys_wf_step|by apply loads_follow_step].
Qed.

(** Once spawned, the thread's handle stays. *)
Lemma spawned_step {W} `{TcpApi W} p c (s : fix_system W) :
  handle_spawned (proxy (sy_injector s)) = true → handle_spawned (proxy (sy_injector (sys_step p c s).2)) = true.
Proof.
  intros Hh. destruct c as [call|ev client upstream| |d ev|]; cbn [sys_step].
  - pose proof (handle_spawned_all [call] (sy_injector s) (sy_world s) Hh) as Hc. cbn [call_all] in Hc.
    by destruct (call_injector call _ _) as [[r i] w].
  - repeat case_match; done.
  - repeat case_match; done.
  - destruct (sy_acceptor s) as [[]|]; try done. by destruct (relay_step _ _ _ _ _) as [[a t] l].
  - unfold FixProxy_start. rewrite Hh. done.
Qed.

Lemma spawned_exec {W} `{TcpApi W} p cs (s : fix_system W) :
  handle_spawned (proxy (sy_injector s)) = true → handle_spawned (proxy (sy_injector (sys_exec p cs s).2)) = true.
Proof.
  revert s. induction cs as [|c cs IH]; intros s Hh; [done|]. rewrite sys_exec_cons. by apply IH, spawned_step.
Qed.

Lemma start_spawns {W} `{TcpApi W} x (w : W) x' w' :
  FixProxy_start x w = (Ok tt, x', w') → handle_spawned x' = true.
Proof.
  unfold FixProxy_start. destruct (handle_spawned x) eqn:E; [by intros [= <- _]|].
  destruct (tcp_bind _ _) as [[]]; [by intros [= <- _]|done].
Qed.

Lemma start_step_spawns {W} `{TcpApi W} p (s : fix_system W) x w' :
  FixProxy_start (proxy (sy_injector s)) (sy_world s) = (Ok tt, x, w') →
  handle_spawned (proxy (sy_injector (sys_exec p [SysStart] s).2)) = true.
Proof. intros Es. unfold sys_exec. cbn [foldl sys_step snd]. rewrite Es. by eapply start_spawns. Qed.

(* ------------------------------------------------------------------ *)
(** * The run as a schedule of the system *)

Section run.
Context {W : Type} `{TcpApi W} (p : profile) (threads : nat → list sys_choice).
Variables (id listen upstream : string) (a : AnyAdapter) (w0 : W).
#[local] Instance the_handle : FaultInjector (live_fix W) FixHandle := handle_injector p threads.

(** The world is a state of the system after some schedule, in which the calls are the
    given ones; the handle agrees with it. *)
Definition reached (calls : list (StepAction * bool)) (armed : bool) (w : live_fix W) : Prop :=
  (∃ cs, sys_exec p cs (sys_new id listen upstream a w0) = (lf_log w, lf_sys w)) ∧
  calls_of (lf_log w) = calls ∧ armed_by (lf_log w) = armed.

Lemma reached_exec calls armed cs w :
  Forall (λ c, thread_move c = true ∨ c = SysStart) cs → reached calls armed w → reached calls armed (lf_exec p cs w).
Proof.
  intros Hcs ((cs0 & E) & Hc & Ha). split; [|split].
  - exists (cs0 ++ cs). rewrite sys_exec_app, E. done.
  - cbn. by rewrite calls_of_app, threads_quiet, app_nil_r.
  - cbn. by rewrite calls_of_nil_armed by (by apply threads_quiet).
Qed.

Lemma reached_threads calls armed w :
  reached calls armed w → reached calls armed (let_threads_run p threads w).
Proof.
  intros Hr. apply (reached_exec _ _ (filter (λ c, thread_move c = true) (threads (lf_batch w)))) in Hr; [done|].
  apply Forall_forall. intros c [? _]%list_elem_of_filter. by left.
Qed.

Lemma reached_call calls armed c w :
  reached calls armed w →
  let ok := is_ok (call_injector c (sy_injector (lf_sys w)) (sy_world (lf_sys w))).1.1 in
  let act := match c with CallArm _ => Arm | CallDisarm => Disarm end in
  reached (calls ++ [(act, ok)]) (if ok then bool_decide (act = Arm) else armed) (lf_exec p [SysCall c] w).
Proof.
  intros ((cs0 & E) & Hc & Ha) ok act.
  assert (Hev : (sys_exec p [SysCall c] (lf_sys w)).1 = [EvCall c ok]).
  { unfold sys_exec. cbn [foldl sys_step snd]. subst ok. by destruct (call_injector c _ _) as [[r i] w']. }
  split; [|split].
  - exists (cs0 ++ [SysCall c]). rewrite sys_exec_app, E. done.
  - cbn [lf_exec lf_log]. rewrite Hev, calls_of_app, Hc. by destruct c.
  - cbn [lf_exec lf_log]. rewrite Hev, armed_by_snoc, Ha. by destruct c.
Qed.

(** What the calls of the handle do to the system. *)
Lemma handle_action_reached ctx act h calls w r h' w' :
  reached calls (h_armed h) w → apply_action ctx act h w = (r, h', w') →
  h_id h' = h_id h ∧ reached (calls ++ [(act, is_ok r)]) (h_armed h') w' ∧ (is_ok r = false → act = Arm).
Proof.
  intros Hr%reached_threads. destruct act; cbn [apply_action fi_arm fi_disarm the_handle handle_injector].
  - unfold handle_arm. set (w1 := let_threads_run p threads w) in *.
    destruct (FixProxy_start _ _) as [[[[]|e] x] w2] eqn:Es; intros [= <- <- <-]; (split; [done|]); (split; [|done]).
    + assert (Hr2 : reached calls (h_armed h) (let_threads_run p threads (lf_exec p [SysStart] w1))).
      { apply reached_threads, reached_exec; [|done]. apply Forall_singleton. by right. }
      set (w3 := let_threads_run p threads (lf_exec p [SysStart] w1)) in *. pose proof (reached_call _ _ (CallArm ctx) _ Hr2) as Hc.
      assert (Hh : handle_spawned (proxy (sy_injector (lf_sys w3))) = true).
      { apply (spawned_exec p). by eapply (start_step_spawns p (lf_sys w1)). }
      cbn [call_injector fi_arm FixFaultInjector_injector] in Hc. unfold FixFaultInjector_arm, FixProxy_start in Hc.
      rewrite Hh in Hc. exact Hc.
    + pose proof (reached_call _ _ (CallArm ctx) _ Hr) as Hc. cbn [call_injector fi_arm FixFaultInjector_injector] in Hc.
      unfold FixFaultInjector_arm in Hc. by rewrite Es in Hc.
  - intros [= <- <- <-]. split; [done|]. split; [|done]. exact (reached_call _ _ CallDisarm _ Hr).
Qed.

(** The invariant of the run: one handle in the registry, every step a successful call. *)
Definition run_reached (done : list ScenarioStep) (injs : gmap string FixHandle) (w : live_fix W) : Prop :=
  ∃ h, injs = {[id := h]} ∧ h_id h = id ∧ reached ((λ s, (action s, true)) <$> done) (h_armed h) w.

Lemma run_reached_start : run_reached [] {[id := handle_new id]} (live_new id listen upstream a w0).
Proof. exists (handle_new id). split_and!; [done..|]. split; [by exists []|]. by split. Qed.

Lemma run_reached_sleep done injs n w :
  run_reached done injs w → run_reached done injs (sleep_with_threads p threads n w).
Proof. intros (h & ? & ? & ?). exists h. split_and!; [done..|]. by apply reached_threads. Qed.

Lemma run_reached_step ctx done s injs w i i' w' :
  run_reached done injs w → injs !! fault_id s = Some i →
  apply_action ctx (action s) i w = (Ok tt, i', w') →
  run_reached (done ++ [s]) (<[fault_id s := i']> injs) w'.
Proof.
  intros (h & -> & Hid & Hr) Hi Ha. apply lookup_singleton_Some in Hi as [Hs ->].
  apply (handle_action_reached _ _ _ _ _ _ _ _ Hr) in Ha as (Hid' & Hr' & _).
  exists i'. split_and!; [by rewrite <- Hs, insert_singleton_eq|congruence|]. by rewrite fmap_app.
Qed.

(** Reading the flag off the schedule. *)
Lemma reached_flag done armed w l1 d m en l2 :
  reached ((λ s, (action s, true)) <$> done) armed w → lf_log w = l1 ++ EvLoaded d m en :: l2 →
  en = scheduled_flag (take (length (calls_of l1)) done).
Proof.
  intros ((cs & E) & Hc & _) Hl. pose proof (loads_follow_exec p id listen upstream a w0 cs) as Hf.
  rewrite E in Hf. rewrite (Hf l1 d m en l2 Hl). rewrite Hl, calls_of_app in Hc.
  assert (H1 : calls_of l1 = (λ a, (a, true)) <$> (action <$> take (length (calls_of l1)) done)).
  { rewrite <- list_fmap_compose. change ((λ a0, (a0, true)) ∘ action) with (λ s, (action s, true)).
    rewrite fmap_take, <- Hc, take_app_length. done. }
  rewrite (armed_by_calls _ _ H1). unfold scheduled_flag. by rewrite fmap_last.
Qed.

End run.

(* ------------------------------------------------------------------ *)
(** * Properties *)

(** C13: a scenario's fault window is the window its messages see.  Run a schedule over a
    live FIX fault, paced or not, with the proxy's threads making any moves at any time
    between the runner's actions (also between the two halves of [arm]): the run is a
    schedule of the proxy's system in which the calls are exactly the steps, in order;
    every message is handled with the flag that the steps performed before it call for;
    and once the runner is dropped the flag is off for good. *)
Theorem fault_window_follows_schedule {W} `{TcpApi W} p threads id listen upstream a (w : W)
    schedule ctx fuel tick rt t r' w' :
  @run_inner _ _ (handle_injector p threads) (sleep_with_threads p threads) fuel
    {| r_schedule := schedule; r_injectors := {[id := handle_new id]}; r_ctx := ctx |} tick rt
    (live_new id listen upstream a w) = Some (Done (Ok t, r', w')) →
  let steps := vs_steps schedule in
  (∃ cs, sys_exec p cs (sys_new id listen upstream a w) = (lf_log w', lf_sys w')) ∧
  calls_of (lf_log w') = (λ s, (action s, true)) <$> steps ∧
  (∀ l1 d m en l2, lf_log w' = l1 ++ EvLoaded d m en :: l2 →
     en = scheduled_flag (take (length (calls_of l1)) steps)) ∧
  enabled (proxy (sy_injector (lf_sys (@drop_runner _ _ (handle_injector p threads) [id] r' w').2))) = false.
Proof.
  intros Hrun steps.
  eapply (run_invariant (H := handle_injector p threads) _ (run_reached p id listen upstream a w)) in Hrun;
    [|intros; by apply run_reached_sleep|intros; by eapply run_reached_step|apply run_reached_start].
  destruct Hrun as (h & Hinj & Hid & Hr). fold steps in Hr. pose proof Hr as ((cs & E) & Hc & Ha).
  split_and!; [by exists cs|done|intros; by eapply reached_flag|].
  assert (Hwf : ∀ calls armed w1, reached p id listen upstream a w calls armed w1 →
            enabled (proxy (sy_injector (lf_sys w1))) = armed).
  { intros calls armed w1 ((cs1 & E1) & _ & Harm). pose proof (sys_wf_exec p id listen upstream a w cs1) as Hwf.
    rewrite E1 in Hwf. destruct Hwf as ((Hen & _) & Hfa & _). cbn [fst snd] in *. congruence. }
  destruct (handle_action_reached p threads id listen upstream a w ctx Disarm h _ w' _ _ _ Hr eq_refl) as (_ & Hr' & _).
  unfold drop_runner, teardown. cbn [foldl teardown_one]. rewrite Hinj, lookup_singleton_eq.
  cbn [fi_is_armed handle_injector]. destruct (h_armed h) eqn:Eh.
  - cbn [fi_disarm handle_injector handle_disarm]. cbn [snd].
    apply Hwf in Hr'. exact Hr'.
  - cbn [snd]. apply Hwf in Hr. congruence.
Qed.

(* ------------------------------------------------------------------ *)
(** * Witness *)

(** An order while [arm] is between its halves, and one while the runner sleeps before the
    disarm. *)
Definition order_moves : list sys_choice :=
  [SysRelay Outbound ReadRetry; SysRelay Outbound (ReadBytes wikipedia_message)]
  ++ replicate 4 (SysRelay Outbound ReadRetry).
Definition two_order_threads (n : nat) : list sys_choice :=
  match n with
  | 2%nat => SysAccept (Accepted true) idle_dst idle_dst :: order_moves
  | 3%nat => order_moves
  | _ => []
  end.
Definition window_schedule : ValidatedSchedule :=
  {| vs_scenario := {| sc_name := "window"; sc_seed := 1;
       sc_steps := [{| at_ns := 0; fault_id := "fix"; action := Arm |};
                    {| at_ns := 15; fault_id := "fix"; action := Disarm |}] |} |}%string.
Definition window_run :=
  @run_inner _ _ (handle_injector dev_profile two_order_threads) (sleep_with_threads dev_profile two_order_threads) 5
    {| r_schedule := window_schedule; r_injectors := {["fix"%string := handle_new "fix"]}; r_ctx := demo_ctx |} 10 true
    (live_new "fix" "127.0.0.1:9000" "127.0.0.1:9001" (RateLimitThrottle (FixRateLimitThrottle_new 0)) 0).

Lemma fault_window_follows_schedule_witness :
  ∃ t r' w', window_run = Some (Done (Ok t, r', w')) ∧
    (snd <$> loaded Outbound (lf_log w')) = [false; true] ∧
    written (dst (t_locals (sy_outbound (lf_sys w')))) = wikipedia_message ∧
    calls_of (lf_log w') = [(Arm, true); (Disarm, true)].
Proof.
  destruct window_run as [[[[[t|e] r'] w']|]|] eqn:E; [|vm_compute in E; discriminate E..].
  exists t, r', w'. split; [reflexivity|].
  pose proof (fault_window_follows_schedule dev_profile two_order_threads "fix" "127.0.0.1:9000" "127.0.0.1:9001"
    (RateLimitThrottle (FixRateLimitThrottle_new 0)) 0 window_schedule demo_ctx 5 10 true t r' w' E) as (_ & Hc & _).
  split; [|split; [|exact Hc]].
  - vm_compute in E. injection E as <- <- <-. reflexivity.
  - vm_compute in E. injection E as <- <- <-. reflexivity.
Defined.
