(* ===== verification/Effect.v ===== *)
(** The effects of the kernel-side injectors: a call that can fail with a
    [HarnessError] and acts on the outside world [W], as a small state-and-error
    monad; an error keeps the effects that came before it. *)

From S2P Require Import Prelude Core.

Definition io (W A : Type) : Type := W → result HarnessError A * W.

#[global] Instance io_ret W : MRet (io W) := λ A a w, (Ok a, w).
#[global] Instance io_bind W : MBind (io W) := λ A B f x w,
  match x w with (Ok a, w') => f a w' | (Err e, w') => (Err e, w') end.

(** A call into a library or the OS, with its error turned into a [HarnessError]:
    [call.map_err(|e| ...)?]. *)
Definition io_map_err {W E A} (f : E → HarnessError) (call : W → result E A * W) : io W A :=
  λ w, let '(r, w') := call w in (map_err f r, w').

(** [opt.ok_or_else(|| e)?]. *)
Definition io_ok_or {W A} (e : HarnessError) (o : option A) : io W A := λ w, (ok_or e o, w).

(** [result?] on a value that is already there. *)
Definition io_lift {W A} (r : result HarnessError A) : io W A := λ w, (r, w).

Definition io_fail {W A} (e : HarnessError) : io W A := λ w, (Err e, w).

(** [let _ = call;]: the effect happens, the outcome is not looked at. *)
Definition io_ignore {W E A} (call : W → result E A * W) : io W unit := λ w, (Ok tt, (call w).2).

Lemma io_bind_ok {W A B} (x : io W A) (f : A → io W B) w b w2 :
  (x ≫= f) w = (Ok b, w2) ↔ ∃ a w1, x w = (Ok a, w1) ∧ f a w1 = (Ok b, w2).
Proof.
  unfold mbind, io_bind. destruct (x w) as [[a|e] w1]; [|naive_solver].
  split; [intros ?; by eexists _, _|]. by intros (a' & w' & [= <- <-] & ?).
Qed.

Lemma io_bind_err {W A B} (x : io W A) (f : A → io W B) w e w2 :
  (x ≫= f) w = (Err e, w2) ↔
  x w = (Err e, w2) ∨ ∃ a w1, x w = (Ok a, w1) ∧ f a w1 = (Err e, w2).
Proof.
  unfold mbind, io_bind. destruct (x w) as [[a|e'] w1].
  - split; [intros ?; right; by eexists _, _|]. intros [?|(a' & w' & [= <- <-] & ?)]; done.
  - split; [intros [= -> ->]; by left|]. intros [[= -> ->]|(a' & w' & ? & ?)]; done.
Qed.

(** The [FaultInjectorLaws] of an injector: every branch of an injector's [arm] or [disarm] ends in a literal triple. *)
Ltac injector_laws :=
  split; intros; cbn in *; repeat case_match; simplify_eq/=; done.
