(* ===== verification/Bpf.v ===== *)
(** crates/kernel/bpf: the three XDP programs.  A program sees the maps userspace
    writes, by the names both sides use, and the frame between [data] and
    [data_end]; a load or store outside the frame is a fault, which is what the verifier
    excludes and the safety theorem here shows. *)

From Stdlib Require Import Strings.Byte.
From S2P Require Import Prelude RustStd.

(* ------------------------------------------------------------------ *)
(** * Maps and verdicts *)

(** The array maps of one loaded object: all have one entry, so [key] is always 0
    and a map is the value at that key.  [u64] and [u32] values are numbers, the
    16-byte map is bytes. *)
Record bpf_maps := { num_maps : gmap string Z; byte_maps : gmap string (list byte) }.

Definition bpf_map_lookup_elem (ms : bpf_maps) (name : string) : option Z := num_maps ms !! name.

Definition set_num (name : string) (v : Z) (ms : bpf_maps) : bpf_maps :=
  {| num_maps := <[name := v]> (num_maps ms); byte_maps := byte_maps ms |}.
Definition set_bytes (name : string) (v : list byte) (ms : bpf_maps) : bpf_maps :=
  {| num_maps := num_maps ms; byte_maps := <[name := v]> (byte_maps ms) |}.

(** The maps an object declares, as a load creates them: one zero entry each. *)
Definition zero_maps (nums bytes16 : list string) : bpf_maps :=
  {| num_maps := list_to_map ((λ n, (n, 0)) <$> nums);
     byte_maps := list_to_map ((λ n, (n, replicate 16 x00)) <$> bytes16) |}.

(** The map variables of the three C files. *)
Definition pktloss_maps : bpf_maps := zero_maps ["drop_every_n"; "packet_count"] [].
Definition corrupt_maps : bpf_maps :=
  zero_maps ["corrupt_every_n"; "corrupt_offset"; "corrupt_mask"; "packet_count"] [].
Definition partition_maps : bpf_maps :=
  zero_maps ["partition_enabled"; "partition_src_ip"; "partition_src_port"] ["partition_src_ip6"].

(** By object file. *)
Definition object_maps (obj : string) : bpf_maps :=
  if decide (obj = "xdp_pktloss.o") then pktloss_maps
  else if decide (obj = "xdp_corrupt.o") then corrupt_maps
  else if decide (obj = "xdp_partition.o") then partition_maps
  else zero_maps [] [].

Inductive verdict := XDP_PASS | XDP_DROP.
#[global] Instance verdict_eq_dec : EqDecision verdict.
Proof. solve_decision. Defined.

(* ------------------------------------------------------------------ *)
(** * xdp_pktloss.c *)

Definition xdp_pktloss (ms : bpf_maps) : verdict * bpf_maps :=
  match bpf_map_lookup_elem ms "drop_every_n" with
  | None => (XDP_PASS, ms)
  | Some n =>
      if n =? 0 then (XDP_PASS, ms)
      else
        match bpf_map_lookup_elem ms "packet_count" with
        | None => (XDP_PASS, ms)
        | Some count =>
            let c := wrap 64 (count + 1) in
            let ms' := set_num "packet_count" c ms in
            (if c mod n =? 0 then XDP_DROP else XDP_PASS, ms')
        end
  end.

(** The program on a sequence of frames (it does not look into them). *)
Fixpoint pktloss_run (k : nat) (ms : bpf_maps) : list verdict * bpf_maps :=
  match k with
  | O => ([], ms)
  | S k' =>
      let '(v, ms1) := xdp_pktloss ms in
      let '(vs, ms2) := pktloss_run k' ms1 in
      (v :: vs, ms2)
  end.

(* ------------------------------------------------------------------ *)
(** * xdp_corrupt.c *)

(** [*byte ^= (__u8)mask]. *)
Definition xor_byte (mask : Z) (b : byte) : byte :=
  byte_of_val (Z.lxor (byte_val b) (wrap 8 mask)).

(** [None] is an access outside the frame. *)
Definition xdp_corrupt (ms : bpf_maps) (frame : list byte) : option (verdict * list byte * bpf_maps) :=
  match bpf_map_lookup_elem ms "corrupt_every_n" with
  | None => Some (XDP_PASS, frame, ms)
  | Some n =>
      if n =? 0 then Some (XDP_PASS, frame, ms)
      else
        match bpf_map_lookup_elem ms "packet_count" with
        | None => Some (XDP_PASS, frame, ms)
        | Some count =>
            let c := wrap 64 (count + 1) in
            let ms' := set_num "packet_count" c ms in
            if negb (c mod n =? 0) then Some (XDP_PASS, frame, ms')
            else
              match bpf_map_lookup_elem ms' "corrupt_offset", bpf_map_lookup_elem ms' "corrupt_mask" with
              | Some offset, Some mask =>
                  let off := Z.to_nat (Z.land offset 4095) in
                  if (length frame <? off + 1)%nat then Some (XDP_PASS, frame, ms')
                  else byte ← frame !! off; Some (XDP_PASS, <[off := xor_byte mask byte]> frame, ms')
              | _, _ => Some (XDP_PASS, frame, ms')
              end
        end
  end.

(* ------------------------------------------------------------------ *)
(** * xdp_partition.c *)

(** Loads from the frame; [None] is a load outside it.  Multi-byte fields are in
    network byte order on the wire; a field compared after [bpf_ntohs], or
    against [bpf_htons] of a constant, is read big-endian, and [saddr] is compared
    raw, which on the little-endian targets is a little-endian [u32]. *)
Definition ld8 (frame : list byte) (off : nat) : option Z := byte_val <$> frame !! off.
Definition ld16be (frame : list byte) (off : nat) : option Z :=
  hi ← ld8 frame off; lo ← ld8 frame (off + 1); Some (hi * 256 + lo).
Definition ld32le (frame : list byte) (off : nat) : option Z :=
  b0 ← ld8 frame off; b1 ← ld8 frame (off + 1);
  b2 ← ld8 frame (off + 2); b3 ← ld8 frame (off + 3);
  Some (b0 + 256 * b1 + 65536 * b2 + 16777216 * b3).

(** [(void * )(ptr + 1) > data_end] for a struct of [size] bytes at [off]. *)
Definition past_end (frame : list byte) (off size : nat) : bool := (length frame <? off + size)%nat.

Definition ETH_P_8021Q : Z := 33024.
Definition ETH_P_8021AD : Z := 34984.
Definition ETH_P_IP : Z := 2048.
Definition ETH_P_IPV6 : Z := 34525.
Definition IPPROTO_TCP : Z := 6.
Definition IPPROTO_UDP : Z := 17.
Definition IPPROTO_FRAGMENT : Z := 44.

(** [Some None] is the [-1] return. *)
Definition extract_src_port (frame : list byte) (l4 : nat) (proto : Z) : option (option Z) :=
  if proto =? IPPROTO_UDP then
    if past_end frame l4 8 then Some None else Some <$> ld16be frame l4
  else if proto =? IPPROTO_TCP then
    if past_end frame l4 20 then Some None else Some <$> ld16be frame l4
  else Some None.

Definition is_vlan (h_proto : Z) : bool := (h_proto =? ETH_P_8021Q) || (h_proto =? ETH_P_8021AD).

(** One tag: the encapsulated protocol and where it starts; [Some None] passes. *)
Definition peel_tag (frame : list byte) (l3 : nat) : option (option (Z * nat)) :=
  if past_end frame l3 4 then Some None
  else h ← ld16be frame (l3 + 2); Some (Some (h, (l3 + 4)%nat)).

(** The Ethernet header and up to two tags. *)
Definition peel_ethernet (frame : list byte) : option (option (Z * nat)) :=
  if past_end frame 0 14 then Some None
  else
    h_proto ← ld16be frame 12;
    if is_vlan h_proto then
      r ← peel_tag frame 14;
      match r with
      | None => Some None
      | Some (h1, l3) => if is_vlan h1 then peel_tag frame l3 else Some (Some (h1, l3))
      end
    else Some (Some (h_proto, 14%nat)).

(** The two address families end in a verdict, or go on to the port comparison. *)
Inductive family_result := Verdict (v : verdict) | ComparePort (src_port want_port : Z).

Definition partition_v4 (ms : bpf_maps) (frame : list byte) (l3 : nat) : option family_result :=
  if past_end frame l3 20 then Some (Verdict XDP_PASS)
  else
    b0 ← ld8 frame l3;
    let ihl := Z.land b0 15 in
    if ihl <? 5 then Some (Verdict XDP_PASS)
    else
      let l4 := (l3 + Z.to_nat (ihl * 4))%nat in
      if (length frame <? l4)%nat then Some (Verdict XDP_PASS)
      else
        match bpf_map_lookup_elem ms "partition_src_ip" with
        | None => Some (Verdict XDP_PASS)
        | Some want_ip =>
            saddr ← ld32le frame (l3 + 12);
            if negb (saddr =? want_ip) then Some (Verdict XDP_PASS)
            else
              match bpf_map_lookup_elem ms "partition_src_port" with
              | None => Some (Verdict XDP_PASS)
              | Some want_port =>
                  if want_port =? 0 then Some (Verdict XDP_DROP)
                  else
                    frag_off ← ld16be frame (l3 + 6);
                    if negb (Z.land frag_off 8191 =? 0) then Some (Verdict XDP_PASS)
                    else
                      protocol ← ld8 frame (l3 + 9);
                      port ← extract_src_port frame l4 protocol;
                      match port with
                      | None => Some (Verdict XDP_PASS)
                      | Some src_port => Some (ComparePort src_port want_port)
                      end
              end
        end.

(** The byte-by-byte comparison of the 16 address bytes, stopping at the first
    difference. *)
Fixpoint ip6_matches (frame want : list byte) (off : nat) (n i : nat) : option bool :=
  match n with
  | O => Some true
  | S n' =>
      a ← frame !! (off + i)%nat;
      b ← want !! i;
      if decide (a = b) then ip6_matches frame want off n' (S i) else Some false
  end.

Definition partition_v6 (ms : bpf_maps) (frame : list byte) (l3 : nat) : option family_result :=
  if past_end frame l3 40 then Some (Verdict XDP_PASS)
  else
    match byte_maps ms !! "partition_src_ip6" with
    | None => Some (Verdict XDP_PASS)
    | Some want_ip6 =>
        matches ← ip6_matches frame want_ip6 (l3 + 8) 16 0;
        if negb matches then Some (Verdict XDP_PASS)
        else
          match bpf_map_lookup_elem ms "partition_src_port" with
          | None => Some (Verdict XDP_PASS)
          | Some want_port =>
              if want_port =? 0 then Some (Verdict XDP_DROP)
              else
                nexthdr ← ld8 frame (l3 + 6);
                let l4 := (l3 + 40)%nat in
                next ←
                  (if nexthdr =? IPPROTO_FRAGMENT then
                     if past_end frame l4 8 then Some None
                     else
                       fo ← ld16be frame (l4 + 2);
                       if negb (Z.shiftr fo 3 =? 0) then Some None
                       else nh ← ld8 frame l4; Some (Some (nh, (l4 + 8)%nat))
                   else Some (Some (nexthdr, l4)));
                match next with
                | None => Some (Verdict XDP_PASS)
                | Some (nh, l4') =>
                    port ← extract_src_port frame l4' nh;
                    match port with
                    | None => Some (Verdict XDP_PASS)
                    | Some src_port => Some (ComparePort src_port want_port)
                    end
                end
          end
    end.

Definition xdp_partition (ms : bpf_maps) (frame : list byte) : option verdict :=
  match bpf_map_lookup_elem ms "partition_enabled" with
  | None => Some XDP_PASS
  | Some enabled =>
      if enabled =? 0 then Some XDP_PASS
      else
        eth ← peel_ethernet frame;
        match eth with
        | None => Some XDP_PASS
        | Some (h_proto, l3) =>
            r ← (if h_proto =? ETH_P_IP then partition_v4 ms frame l3
                 else if h_proto =? ETH_P_IPV6 then partition_v6 ms frame l3
                 else Some (Verdict XDP_PASS));
            match r with
            | Verdict v => Some v
            | ComparePort src_port want_port =>
                Some (if src_port =? wrap 16 want_port then XDP_DROP else XDP_PASS)
            end
        end
  end.

(* ------------------------------------------------------------------ *)
(** * Lemmas: xdp_pktloss *)

Lemma pktloss_step ms n c :
  num_maps ms !! "drop_every_n" = Some n → num_maps ms !! "packet_count" = Some c →
  n ≠ 0 → 0 <= c → c + 1 < 2 ^ 64 →
  xdp_pktloss ms =
  (if (c + 1) mod n =? 0 then XDP_DROP else XDP_PASS, set_num "packet_count" (c + 1) ms).
Proof.
  intros Hn Hc Hz H0 Hw. unfold xdp_pktloss, bpf_map_lookup_elem. rewrite Hn.
  rewrite (proj2 (Z.eqb_neq n 0)) by done. rewrite Hc.
  by rewrite wrap_id by width.
Qed.

Definition nth_packet_verdicts (n c : Z) (k : nat) : list verdict :=
  (λ i, if (c + Z.of_nat i) mod n =? 0 then XDP_DROP else XDP_PASS) <$> seq 1 k.

Lemma nth_packet_verdicts_S n c k :
  nth_packet_verdicts n c (S k) =
  (if (c + 1) mod n =? 0 then XDP_DROP else XDP_PASS) :: nth_packet_verdicts n (c + 1) k.
Proof.
  unfold nth_packet_verdicts. change (seq 1 (S k)) with (1%nat :: seq 2 k).
  rewrite fmap_cons. f_equal. rewrite <- (fmap_S_seq 1 k), <- list_fmap_compose.
  apply list_fmap_ext. intros i x _. cbn [compose].
  by replace (c + 1 + Z.of_nat x) with (c + Z.of_nat (S x)) by lia.
Qed.

Lemma pktloss_run_spec k ms n c :
  num_maps ms !! "drop_every_n" = Some n → num_maps ms !! "packet_count" = Some c →
  n ≠ 0 → 0 <= c → c + Z.of_nat k < 2 ^ 64 →
  (pktloss_run k ms).1 = nth_packet_verdicts n c k ∧
  num_maps (pktloss_run k ms).2 !! "packet_count" = Some (c + Z.of_nat k) ∧
  num_maps (pktloss_run k ms).2 !! "drop_every_n" = Some n.
Proof.
  revert ms c. induction k as [|k IH]; intros ms c Hn Hc Hz H0 Hw.
  { cbn. rewrite Z.add_0_r. by split_and!. }
  cbn [pktloss_run]. rewrite (pktloss_step ms n c) by (done || lia).
  destruct (IH (set_num "packet_count" (c + 1) ms) (c + 1)) as (IH1 & IH2 & IH3);
    [by cbn; rewrite lookup_insert_ne|by cbn; rewrite lookup_insert_eq|done|lia|lia|].
  destruct (pktloss_run k _) as [vs ms2]. cbn [fst snd] in *.
  rewrite nth_packet_verdicts_S, IH1. split_and!; [done| |done].
  rewrite IH2. f_equal. lia.
Qed.

Lemma pktloss_off k ms vs ms' :
  num_maps ms !! "drop_every_n" = Some 0 → pktloss_run k ms = (vs, ms') →
  length vs = k ∧ Forall (λ v, v = XDP_PASS) vs ∧ ms' = ms.
Proof.
  intros Hn. revert vs ms'. induction k as [|k IH]; intros vs ms'; cbn [pktloss_run].
  { intros [= <- <-]. by split_and!. }
  assert (xdp_pktloss ms = (XDP_PASS, ms)) as ->.
  { unfold xdp_pktloss, bpf_map_lookup_elem. by rewrite Hn. }
  destruct (pktloss_run k ms) as [vs1 ms1]. intros [= <- <-].
  destruct (IH vs1 ms1 eq_refl) as (<- & Hv & ->). split_and!; [done|by constructor|done].
Qed.

(** The number of multiples of [n] in [(c, c + k]]. *)
Lemma drops_counted n c k :
  0 < n → 0 <= c →
  Z.of_nat (length (filter (λ v, v = XDP_DROP) (nth_packet_verdicts n c k))) =
  (c + Z.of_nat k) / n - c / n.
Proof.
  intros Hn. revert c. induction k as [|k IH]; intros c Hc.
  { cbn. rewrite Z.add_0_r. lia. }
  rewrite nth_packet_verdicts_S, filter_cons.
  pose proof (div_succ c n Hn) as Hdiv.
  replace (c + Z.of_nat (S k)) with (c + 1 + Z.of_nat k) by lia.
  destruct ((c + 1) mod n =? 0); [rewrite decide_True by done|rewrite decide_False by done];
    cbn [length]; rewrite ?Nat2Z.inj_succ, IH by lia; lia.
Qed.

Lemma log2_lt_width w z : 0 < w → 0 <= z < 2 ^ w → Z.log2 z < w.
Proof.
  intros Hw Hz. destruct (Z.eq_dec z 0) as [->|]; [done|]. apply Z.log2_lt_pow2; lia.
Qed.

(** XOR with a fixed mask undoes itself. *)
Lemma xor_byte_invol mask b : xor_byte mask (xor_byte mask b) = b.
Proof.
  unfold xor_byte. pose proof (byte_val_range b) as Hb. pose proof (wrap_range 8 mask ltac:(lia)) as Hm.
  rewrite byte_val_of_val.
  - by rewrite Z.lxor_assoc, Z.lxor_nilpotent, Z.lxor_0_r, byte_of_val_val.
  - split; [apply Z.lxor_nonneg; unfold in_width in *; lia|].
    destruct (Z.eq_dec (Z.lxor (byte_val b) (wrap 8 mask)) 0) as [->|]; [lia|].
    apply Z.log2_lt_pow2; [pose proof (Z.lxor_nonneg (byte_val b) (wrap 8 mask)); unfold in_width in *; lia|].
    eapply Z.le_lt_trans; [apply Z.log2_lxor; unfold in_width in *; lia|].
    apply Z.max_lub_lt; apply log2_lt_width; unfold in_width in *; lia.
Qed.

Lemma insert_alter {A} (f : A → A) k (l : list A) a : l !! k = Some a → <[k := f a]> l = alter f k l.
Proof.
  intros Hk. apply list_eq. intros j. destruct (decide (j = k)) as [->|].
  - rewrite list_lookup_alter_eq, Hk, list_lookup_insert_eq; [done|by eapply lookup_lt_Some].
  - by rewrite list_lookup_alter_ne, list_lookup_insert_ne.
Qed.

(** The program stays inside the frame, whatever the maps hold, and passes it. *)
Lemma xdp_corrupt_total ms frame : ∃ frame' ms', xdp_corrupt ms frame = Some (XDP_PASS, frame', ms').
Proof.
  unfold xdp_corrupt. repeat (case_match; try by eexists _, _).
  match goal with H : (_ <? _)%nat = false |- _ => apply Nat.ltb_ge in H end.
  destruct (lookup_lt_is_Some_2 frame (Z.to_nat (Z.land z1 4095))) as [b ->]; [lia|]. by eexists _, _.
Qed.

(** With a zero mask the program changes no frame. *)
Lemma corrupt_zero_mask ms frame :
  num_maps ms !! "corrupt_mask" = Some 0 → ∃ ms', xdp_corrupt ms frame = Some (XDP_PASS, frame, ms').
Proof.
  intros Hm. unfold xdp_corrupt, bpf_map_lookup_elem.
  destruct (num_maps ms !! "corrupt_every_n"); [|by eexists]. destruct (_ =? 0); [by eexists|].
  destruct (num_maps ms !! "packet_count") as [c|]; [|by eexists]. destruct (negb _); [by eexists|].
  cbn [num_maps set_num]. rewrite !lookup_insert_ne by done. rewrite Hm.
  destruct (num_maps ms !! "corrupt_offset") as [off|]; [|by eexists].
  destruct (Nat.ltb_spec (length frame) (Z.to_nat (Z.land off 4095) + 1)); [by eexists|].
  destruct (lookup_lt_is_Some_2 frame (Z.to_nat (Z.land off 4095))) as [b Hb]; [lia|].
  rewrite Hb. cbn [mbind option_bind]. eexists. do 3 f_equal.
  unfold xor_byte. rewrite Z.lxor_0_r, byte_of_val_val. by apply list_insert_id.
Qed.

(* ------------------------------------------------------------------ *)
(** * Lemmas: loads stay inside the frame *)

Lemma ld8_safe frame off : (off < length frame)%nat → is_Some (ld8 frame off).
Proof. intros H. unfold ld8. apply fmap_is_Some. by apply lookup_lt_is_Some. Qed.

Lemma ld16be_safe frame off : (off + 2 ≤ length frame)%nat → is_Some (ld16be frame off).
Proof.
  intros H. unfold ld16be. destruct (ld8_safe frame off) as [x ->]; [lia|].
  destruct (ld8_safe frame (off + 1)) as [y ->]; [lia|]. by eexists.
Qed.

Lemma ld32le_safe frame off : (off + 4 ≤ length frame)%nat → is_Some (ld32le frame off).
Proof.
  intros H. unfold ld32le. destruct (ld8_safe frame off) as [x ->]; [lia|].
  destruct (ld8_safe frame (off + 1)) as [y ->]; [lia|].
  destruct (ld8_safe frame (off + 2)) as [z ->]; [lia|].
  destruct (ld8_safe frame (off + 3)) as [t ->]; [lia|]. by eexists.
Qed.

Lemma past_end_false frame off size :
  past_end frame off size = false → (off + size ≤ length frame)%nat.
Proof. intros H. by apply Nat.ltb_ge in H. Qed.

Lemma ip6_matches_safe frame want off n i :
  (off + i + n ≤ length frame)%nat → (i + n ≤ length want)%nat →
  is_Some (ip6_matches frame want off n i).
Proof.
  revert i. induction n as [|n IH]; intros i Hf Hw; [by eexists|]. cbn [ip6_matches].
  destruct (lookup_lt_is_Some_2 frame (off + i)) as [a ->]; [lia|].
  destruct (lookup_lt_is_Some_2 want i) as [b ->]; [lia|]. cbn.
  case_decide; [apply IH; lia|by eexists].
Qed.

Lemma extract_src_port_safe frame l4 proto : is_Some (extract_src_port frame l4 proto).
Proof.
  unfold extract_src_port. repeat case_match; try by eexists.
  - apply past_end_false in H0. apply fmap_is_Some, ld16be_safe. lia.
  - apply past_end_false in H1. apply fmap_is_Some, ld16be_safe. lia.
Qed.

Lemma partition_v4_safe ms frame l3 : is_Some (partition_v4 ms frame l3).
Proof.
  unfold partition_v4. destruct (past_end frame l3 20) eqn:E; [by eexists|].
  apply past_end_false in E. destruct (ld8_safe frame l3) as [b0 ->]; [lia|]. cbn [mbind option_bind].
  destruct (_ <? 5); [by eexists|]. case_match; [by eexists|].
  destruct (bpf_map_lookup_elem _ _); [|by eexists].
  destruct (ld32le_safe frame (l3 + 12)) as [sa ->]; [lia|]. cbn [mbind option_bind].
  destruct (negb _); [by eexists|]. destruct (bpf_map_lookup_elem _ _); [|by eexists].
  destruct (_ =? 0); [by eexists|].
  destruct (ld16be_safe frame (l3 + 6)) as [fo ->]; [lia|]. cbn [mbind option_bind].
  destruct (negb _); [by eexists|].
  destruct (ld8_safe frame (l3 + 9)) as [pr ->]; [lia|]. cbn [mbind option_bind].
  destruct (extract_src_port_safe frame (l3 + Z.to_nat (Z.land b0 15 * 4)) pr) as [[?|] ->];
    by eexists.
Qed.

Lemma partition_v6_safe ms frame l3 :
  (∀ w, byte_maps ms !! "partition_src_ip6" = Some w → length w = 16%nat) →
  is_Some (partition_v6 ms frame l3).
Proof.
  intros Hw. unfold partition_v6. destruct (past_end frame l3 40) eqn:E; [by eexists|].
  apply past_end_false in E. destruct (byte_maps ms !! _) as [w|]; [|by eexists].
  specialize (Hw w eq_refl).
  destruct (ip6_matches_safe frame w (l3 + 8) 16 0) as [m ->]; [lia|lia|]. cbn [mbind option_bind].
  destruct (negb _); [by eexists|]. destruct (bpf_map_lookup_elem _ _); [|by eexists].
  destruct (_ =? 0); [by eexists|].
  destruct (ld8_safe frame (l3 + 6)) as [nh ->]; [lia|]. cbn [mbind option_bind].
  assert (∀ nh l4, is_Some (port ← extract_src_port frame l4 nh;
    match port with None => Some (Verdict XDP_PASS) | Some sp => Some (ComparePort sp z) end)) as Hx.
  { intros nh' l4. destruct (extract_src_port_safe frame l4 nh') as [[?|] ->]; by eexists. }
  destruct (nh =? IPPROTO_FRAGMENT); [|apply Hx].
  destruct (past_end frame (l3 + 40) 8) eqn:E8; [by eexists|]. apply past_end_false in E8.
  destruct (ld16be_safe frame (l3 + 40 + 2)) as [fo ->]; [lia|]. cbn [mbind option_bind].
  destruct (negb _); [by eexists|].
  destruct (ld8_safe frame (l3 + 40)) as [nh2 ->]; [lia|]. cbn [mbind option_bind]. apply Hx.
Qed.

Lemma peel_tag_safe frame l3 : is_Some (peel_tag frame l3).
Proof.
  unfold peel_tag. destruct (past_end _ _ _) eqn:E; [by eexists|]. apply past_end_false in E.
  destruct (ld16be_safe frame (l3 + 2)) as [h ->]; [lia|]. by eexists.
Qed.

Lemma peel_ethernet_safe frame : is_Some (peel_ethernet frame).
Proof.
  unfold peel_ethernet. destruct (past_end _ _ _) eqn:E; [by eexists|]. apply past_end_false in E.
  destruct (ld16be_safe frame 12) as [h ->]; [lia|]. cbn [mbind option_bind].
  destruct (is_vlan h); [|by eexists].
  destruct (peel_tag_safe frame 14) as [[[h1 l3]|] ->]; cbn [mbind option_bind]; [|by eexists].
  destruct (is_vlan h1); [apply peel_tag_safe|by eexists].
Qed.

Lemma xdp_partition_total ms frame :
  (∀ w, byte_maps ms !! "partition_src_ip6" = Some w → length w = 16%nat) →
  is_Some (xdp_partition ms frame).
Proof.
  intros Hw. unfold xdp_partition. destruct (bpf_map_lookup_elem _ _); [|by eexists].
  destruct (_ =? 0); [by eexists|].
  destruct (peel_ethernet_safe frame) as [[[h l3]|] ->]; [|by eexists]. cbn [mbind option_bind].
  destruct (h =? ETH_P_IP).
  - destruct (partition_v4_safe ms frame l3) as [[v|sp wp] ->]; by eexists.
  - destruct (h =? ETH_P_IPV6); [|by eexists].
    destruct (partition_v6_safe ms frame l3 Hw) as [[v|sp wp] ->]; by eexists.
Qed.

(* ------------------------------------------------------------------ *)
(** * Lemmas: the network layer does not see what came before it *)

Lemma ld8_shift pre l off : ld8 (pre ++ l) (length pre + off) = ld8 l off.
Proof. unfold ld8. rewrite lookup_app_r by lia. do 2 f_equal. lia. Qed.

Lemma ld8_shift' pre l n off : n = (length pre + off)%nat → ld8 (pre ++ l) n = ld8 l off.
Proof. intros ->. apply ld8_shift. Qed.

Lemma ld16be_shift pre l off : ld16be (pre ++ l) (length pre + off) = ld16be l off.
Proof. unfold ld16be. rewrite ld8_shift. by rewrite (ld8_shift' pre l _ (off + 1)) by lia. Qed.

Lemma ld32le_shift pre l off : ld32le (pre ++ l) (length pre + off) = ld32le l off.
Proof.
  unfold ld32le. rewrite ld8_shift.
  by rewrite (ld8_shift' pre l (length pre + off + 1) (off + 1)),
    (ld8_shift' pre l (length pre + off + 2) (off + 2)),
    (ld8_shift' pre l (length pre + off + 3) (off + 3)) by lia.
Qed.

Lemma past_end_shift pre l off size :
  past_end (pre ++ l) (length pre + off) size = past_end l off size.
Proof.
  unfold past_end. rewrite length_app. apply Bool.eq_iff_eq_true.
  rewrite !Nat.ltb_lt. lia.
Qed.

Lemma past_end_shift0 pre l size : past_end (pre ++ l) (length pre) size = past_end l 0 size.
Proof. rewrite <- (past_end_shift pre l 0). by rewrite Nat.add_0_r. Qed.

Lemma extract_src_port_shift pre l off proto :
  extract_src_port (pre ++ l) (length pre + off) proto = extract_src_port l off proto.
Proof. unfold extract_src_port. by rewrite !past_end_shift, ld16be_shift. Qed.

Lemma partition_v4_shift ms pre l :
  partition_v4 ms (pre ++ l) (length pre) = partition_v4 ms l 0.
Proof.
  unfold partition_v4.
  rewrite past_end_shift0, (ld8_shift' pre l (length pre) 0) by lia. destruct (past_end l 0 20); [done|]. destruct (ld8 l 0) as [b0|]; [|done].
  cbn [mbind option_bind]. destruct (_ <? 5); [done|].
  assert ((length (pre ++ l) <? length pre + Z.to_nat (Z.land b0 15 * 4))%nat =
          (length l <? 0 + Z.to_nat (Z.land b0 15 * 4))%nat) as ->.
  { rewrite length_app. apply Bool.eq_iff_eq_true. rewrite !Nat.ltb_lt. lia. }
  rewrite !ld32le_shift, !ld16be_shift, !ld8_shift, ?Nat.add_0_l.
  destruct (length l <? _)%nat; [done|]. destruct (bpf_map_lookup_elem _ _); [|done].
  destruct (ld32le l 12); [|done]. cbn [mbind option_bind]. destruct (negb _); [done|].
  destruct (bpf_map_lookup_elem _ _); [|done]. destruct (_ =? 0); [done|].
  destruct (ld16be l 6); [|done]. cbn [mbind option_bind]. destruct (negb _); [done|].
  destruct (ld8 l 9); [|done]. cbn [mbind option_bind]. by rewrite extract_src_port_shift.
Qed.

Lemma ip6_matches_shift pre l want off n i :
  ip6_matches (pre ++ l) want (length pre + off) n i = ip6_matches l want off n i.
Proof.
  revert i. induction n as [|n IH]; intros i; [done|]. cbn [ip6_matches].
  rewrite lookup_app_r by lia. replace (length pre + off + i - length pre)%nat with (off + i)%nat by lia.
  destruct (l !! (off + i)%nat); [|done]. cbn [mbind option_bind].
  destruct (want !! i); [|done]. cbn [mbind option_bind]. by rewrite IH.
Qed.

Lemma partition_v6_shift ms pre l :
  partition_v6 ms (pre ++ l) (length pre) = partition_v6 ms l 0.
Proof.
  unfold partition_v6. rewrite past_end_shift0. destruct (past_end l 0 40); [done|].
  destruct (byte_maps ms !! _) as [w|]; [|done]. rewrite ip6_matches_shift.
  change (0 + 8)%nat with 8%nat. destruct (ip6_matches l w 8 16 0) as [b|]; [|done].
  cbn [mbind option_bind]. destruct (negb b); [done|].
  destruct (bpf_map_lookup_elem _ _); [|done]. destruct (_ =? 0); [done|].
  rewrite ld8_shift, past_end_shift. change (0 + 6)%nat with 6%nat. change (0 + 40)%nat with 40%nat.
  rewrite <- !Nat.add_assoc, ld16be_shift, ld8_shift.
  destruct (ld8 l 6) as [nh|]; [|done]. cbn [mbind option_bind].
  destruct (nh =? IPPROTO_FRAGMENT).
  - destruct (past_end l 40 8); [done|]. destruct (ld16be l (40 + 2)); [|done].
    cbn [mbind option_bind]. destruct (negb _); [done|]. destruct (ld8 l 40) as [nh2|]; [|done].
    cbn [mbind option_bind]. by rewrite extract_src_port_shift.
  - cbn [mbind option_bind]. by rewrite extract_src_port_shift.
Qed.

(** ** Frames as they are built *)

Definition be16 (a b : byte) : Z := byte_val a * 256 + byte_val b.

(** An 802.1Q ([false]) or 802.1ad ([true]) tag with its TCI. *)
Definition encode_tag (t : bool * (byte * byte)) : list byte :=
  (if t.1 then [x88; xa8] else [x81; x00]) ++ [t.2.1; t.2.2].

Definition eth_frame (macs : list byte) (tags : list (bool * (byte * byte))) (e1 e2 : byte)
    (l3 : list byte) : list byte :=
  macs ++ concat (encode_tag <$> tags) ++ [e1; e2] ++ l3.

Definition eth_header (macs : list byte) (tags : list (bool * (byte * byte))) (e1 e2 : byte)
  : list byte := macs ++ concat (encode_tag <$> tags) ++ [e1; e2].

Lemma eth_frame_split macs tags e1 e2 l3 :
  eth_frame macs tags e1 e2 l3 = eth_header macs tags e1 e2 ++ l3.
Proof. unfold eth_frame, eth_header. by rewrite <- !app_assoc. Qed.

Lemma peel_eth_frame macs tags e1 e2 l3 :
  length macs = 12%nat → (length tags ≤ 2)%nat → is_vlan (be16 e1 e2) = false →
  peel_ethernet (eth_frame macs tags e1 e2 l3) =
  Some (Some (be16 e1 e2, length (eth_header macs tags e1 e2))).
Proof.
  intros Hm Ht He.
  do 12 (destruct macs as [|? macs]; [done|]). destruct macs; [|done].
  destruct tags as [|[d1 [p1 q1]] [|[d2 [p2 q2]] [|? ?]]]; [| | |simpl in Ht; lia].
  - cbn. fold (be16 e1 e2). by rewrite He.
  - destruct d1; cbn; fold (be16 e1 e2); by rewrite He.
  - destruct d1, d2; cbn; by fold (be16 e1 e2).
Qed.

(** A tag is told by its two bytes. *)
Lemma is_vlan_bytes a b :
  is_vlan (be16 a b) = true → ∃ d : bool, [a; b] = if d then [x88; xa8] else [x81; x00].
Proof.
  unfold is_vlan, be16, ETH_P_8021Q, ETH_P_8021AD. intros H.
  pose proof (byte_val_range a) as Ha. pose proof (byte_val_range b) as Hb. unfold in_width in *.
  destruct (Z.eqb_spec (byte_val a * 256 + byte_val b) 33024) as [E|_].
  - exists false. by rewrite (byte_val_inj a x81), (byte_val_inj b x00) by (cbn; lia).
  - destruct (Z.eqb_spec (byte_val a * 256 + byte_val b) 34984) as [E|_]; [|done].
    exists true. by rewrite (byte_val_inj a x88), (byte_val_inj b xa8) by (cbn; lia).
Qed.

(** The frame carries a packet of this protocol, under at most two tags. *)
Definition carries (frame : list byte) (h_proto : Z) (l3 : list byte) : Prop :=
  ∃ macs tags e1 e2, frame = eth_frame macs tags e1 e2 l3 ∧ length macs = 12%nat ∧ (length tags ≤ 2)%nat ∧
    is_vlan (be16 e1 e2) = false ∧ h_proto = be16 e1 e2.

Lemma list_drop_4 {A} (l : list A) : (4 ≤ length l)%nat → ∃ a b c d r, l = a :: b :: c :: d :: r.
Proof. intros Hl. destruct l as [|a [|b [|c [|d r]]]]; simpl in Hl; try lia. by eexists _, _, _, _, _. Qed.

(** Where the link layer is peeled off, the frame carries a packet of that protocol. *)
Lemma peel_carries frame h_proto off :
  peel_ethernet frame = Some (Some (h_proto, off)) → is_vlan h_proto = false →
  ∃ l3, carries frame h_proto l3.
Proof.
  unfold peel_ethernet. destruct (past_end frame 0 14) eqn:E; [done|]. apply past_end_false in E.
  do 14 (destruct frame as [|? frame]; [simpl in E; lia|]). clear E.
  rename b11 into e1, b12 into e2. set (macs := [b; b0; b1; b2; b3; b4; b5; b6; b7; b8; b9; b10]).
  match goal with |- context [ld16be ?F 12] => set (whole := F) end.
  change (ld16be whole 12) with (Some (be16 e1 e2)). cbn [mbind option_bind].
  destruct (is_vlan (be16 e1 e2)) eqn:Ev.
  2:{ intros [= <- _] _. exists frame, macs, [], e1, e2. split_and!; [done|done|simpl; lia|done|done]. }
  apply is_vlan_bytes in Ev as [d1 Ed1]. unfold peel_tag.
  destruct (past_end whole 14 4) eqn:E1; cbn [mbind option_bind]; [done|]. apply past_end_false in E1.
  destruct (list_drop_4 frame) as (p1 & q1 & e3 & e4 & r & ->); [unfold whole in E1; simpl in E1; lia|]. clear E1.
  change (ld16be whole (14 + 2)) with (Some (be16 e3 e4)). cbn [mbind option_bind].
  destruct (is_vlan (be16 e3 e4)) eqn:Ev2.
  2:{ intros [= <- _] _. exists r, macs, [(d1, (p1, q1))], e3, e4. split_and!; [|done|simpl; lia|done|done].
      by destruct d1; injection Ed1 as -> ->. }
  apply is_vlan_bytes in Ev2 as [d2 Ed2].
  destruct (past_end whole (14 + 4) 4) eqn:E2; [done|]. apply past_end_false in E2.
  destruct (list_drop_4 r) as (p2 & q2 & e5 & e6 & r' & ->); [unfold whole in E2; simpl in E2; lia|]. clear E2.
  change (ld16be whole (14 + 4 + 2)) with (Some (be16 e5 e6)). cbn [mbind option_bind].
  intros [= <- _] Hv. exists r', macs, [(d1, (p1, q1)); (d2, (p2, q2))], e5, e6.
  split_and!; [|done|simpl; lia|done|done]. by destruct d1, d2; injection Ed1 as -> ->; injection Ed2 as -> ->.
Qed.

(** What the network layer alone decides. *)
Definition l3_verdict (ms : bpf_maps) (h_proto : Z) (l3 : list byte) : option verdict :=
  r ← (if h_proto =? ETH_P_IP then partition_v4 ms l3 0
       else if h_proto =? ETH_P_IPV6 then partition_v6 ms l3 0
       else Some (Verdict XDP_PASS));
  match r with
  | Verdict v => Some v
  | ComparePort src_port want_port =>
      Some (if src_port =? wrap 16 want_port then XDP_DROP else XDP_PASS)
  end.

Lemma partition_l3 ms en macs tags e1 e2 l3 :
  num_maps ms !! "partition_enabled" = Some en → en ≠ 0 →
  length macs = 12%nat → (length tags ≤ 2)%nat → is_vlan (be16 e1 e2) = false →
  xdp_partition ms (eth_frame macs tags e1 e2 l3) = l3_verdict ms (be16 e1 e2) l3.
Proof.
  intros Hen Hne Hm Ht He. unfold xdp_partition, bpf_map_lookup_elem. rewrite Hen.
  rewrite (proj2 (Z.eqb_neq en 0)) by done. rewrite peel_eth_frame by done.
  cbn [mbind option_bind]. rewrite eth_frame_split, partition_v4_shift, partition_v6_shift.
  done.
Qed.

(** The whole program on any frame at all: it drops exactly those that carry a packet the
    network layer decides to drop; a frame too short for its headers, or with a third tag,
    passes. *)
Lemma xdp_partition_drops ms en frame :
  num_maps ms !! "partition_enabled" = Some en → en ≠ 0 →
  (∀ w, byte_maps ms !! "partition_src_ip6" = Some w → length w = 16%nat) →
  xdp_partition ms frame = Some XDP_DROP ↔
  ∃ h_proto l3, carries frame h_proto l3 ∧ l3_verdict ms h_proto l3 = Some XDP_DROP.
Proof.
  intros Hen Hne Hw. split.
  - intros Hd. destruct (peel_ethernet_safe frame) as [[[h off]|] Hp];
      unfold xdp_partition, bpf_map_lookup_elem in Hd; rewrite Hen, (proj2 (Z.eqb_neq en 0)), Hp in Hd by done; [|done].
    cbn [mbind option_bind] in Hd. assert (is_vlan h = false) as Hv.
    { destruct (is_vlan h) eqn:Ev; [|done]. exfalso. revert Hd. unfold is_vlan in Ev.
      destruct (Z.eqb_spec h ETH_P_8021Q) as [->|]; [by intros ?|].
      destruct (Z.eqb_spec h ETH_P_8021AD) as [->|]; [by intros ?|done]. }
    destruct (peel_carries _ _ _ Hp Hv) as [l3 Hc]. exists h, l3. split; [done|].
    destruct Hc as (macs & tags & e1 & e2 & -> & Hm & Ht & Hv' & ->).
    rewrite <- (partition_l3 ms en macs tags) by done.
    unfold xdp_partition, bpf_map_lookup_elem. rewrite Hen, (proj2 (Z.eqb_neq en 0)), Hp by done. exact Hd.
  - intros (h & l3 & (macs & tags & e1 & e2 & -> & Hm & Ht & Hv & ->) & Hl). by rewrite (partition_l3 ms en).
Qed.

(** ** What an IPv4 packet says *)

Definition v4_ihl (ip : list byte) : Z := Z.land (default 0 (ld8 ip 0)) 15.
Definition v4_saddr (ip : list byte) : list byte := take 4 (drop 12 ip).
Definition v4_fragment_offset (ip : list byte) : Z := Z.land (default 0 (ld16be ip 6)) 8191.
Definition v4_protocol (ip : list byte) : Z := default 0 (ld8 ip 9).

(** The UDP or TCP source port, when that header is there. *)
Definition l4_source_port (proto : Z) (l4 : list byte) : option Z :=
  if (proto =? IPPROTO_UDP) && (8 <=? length l4)%nat
     || (proto =? IPPROTO_TCP) && (20 <=? length l4)%nat
  then ld16be l4 0 else None.

Definition u32_from_ne_bytes (b : list byte) : Z :=
  match b with
  | [b0; b1; b2; b3] =>
      byte_val b0 + 256 * byte_val b1 + 65536 * byte_val b2 + 16777216 * byte_val b3
  | _ => 0
  end.

(** The packet is from the peer: a complete IPv4 header with the peer's address,
    and, when a port is configured, a first fragment whose UDP or TCP header
    carries that source port. *)
Definition v4_from_peer (octets : list byte) (port : Z) (ip : list byte) : Prop :=
  (20 ≤ length ip)%nat ∧ 5 <= v4_ihl ip ∧ 4 * v4_ihl ip <= Z.of_nat (length ip) ∧
  v4_saddr ip = octets ∧
  (port = 0 ∨ v4_fragment_offset ip = 0 ∧
     l4_source_port (v4_protocol ip) (drop (Z.to_nat (4 * v4_ihl ip)) ip) = Some port).

Lemma u32_from_ne_bytes_inj a b :
  length a = 4%nat → length b = 4%nat → u32_from_ne_bytes a = u32_from_ne_bytes b → a = b.
Proof.
  intros Ha Hb.
  destruct a as [|a0 [|a1 [|a2 [|a3 [|? ?]]]]]; try done.
  destruct b as [|b0 [|b1 [|b2 [|b3 [|? ?]]]]]; try done. cbn [u32_from_ne_bytes].
  pose proof (byte_val_range a0). pose proof (byte_val_range a1). pose proof (byte_val_range a2).
  pose proof (byte_val_range b0). pose proof (byte_val_range b1). pose proof (byte_val_range b2).
  intros H5. assert (byte_val a0 = byte_val b0 ∧ byte_val a1 = byte_val b1 ∧
    byte_val a2 = byte_val b2 ∧ byte_val a3 = byte_val b3) as (E0 & E1 & E2 & E3) by width.
  by rewrite (byte_val_inj _ _ E0), (byte_val_inj _ _ E1), (byte_val_inj _ _ E2),
    (byte_val_inj _ _ E3).
Qed.

Lemma ld32le_bytes ip off :
  (off + 4 ≤ length ip)%nat →
  length (take 4 (drop off ip)) = 4%nat ∧
  ld32le ip off = Some (u32_from_ne_bytes (take 4 (drop off ip))).
Proof.
  intros H. split; [rewrite length_take, length_drop; lia|].
  destruct (drop off ip) as [|b0 [|b1 [|b2 [|b3 r]]]] eqn:E;
    try (apply (f_equal length) in E; rewrite length_drop in E; simpl in E; lia).
  assert (Hl : ∀ k, ip !! (off + k)%nat = (b0 :: b1 :: b2 :: b3 :: r) !! k).
  { intros k. by rewrite <- E, lookup_drop. }
  unfold ld32le, ld8. rewrite <- (Nat.add_0_r off) at 1. by rewrite !Hl.
Qed.

Lemma extract_src_port_spec ip l4 proto :
  (l4 ≤ length ip)%nat →
  extract_src_port ip l4 proto = Some (l4_source_port proto (drop l4 ip)).
Proof.
  intros H. pose proof (extract_src_port_shift (take l4 ip) (drop l4 ip) 0 proto) as Hs.
  rewrite take_drop, length_take, Nat.add_0_r, Nat.min_l in Hs by done. rewrite Hs. unfold extract_src_port, l4_source_port, past_end.
  set (t := drop l4 ip). change (0 + 8)%nat with 8%nat. change (0 + 20)%nat with 20%nat.
  destruct (Z.eqb_spec proto IPPROTO_UDP) as [->|]; cbn [andb orb].
  - destruct (Nat.ltb_spec (length t) 8).
    + by rewrite (proj2 (Nat.leb_gt _ _)).
    + rewrite (proj2 (Nat.leb_le _ _)) by done. cbn [andb orb].
      destruct (ld16be_safe t 0) as [x ->]; [lia|done].
  - destruct (Z.eqb_spec proto IPPROTO_TCP); cbn [andb]; [|done].
    destruct (Nat.ltb_spec (length t) 20).
    + by rewrite (proj2 (Nat.leb_gt _ _)).
    + rewrite (proj2 (Nat.leb_le _ _)) by done.
      destruct (ld16be_safe t 0) as [x ->]; [lia|done].
Qed.

Lemma ld16be_range l off z : ld16be l off = Some z → u16? z.
Proof.
  unfold ld16be, ld8. destruct (l !! off) as [a|]; [|done]. destruct (l !! (off + 1)%nat) as [b|]; [|done].
  cbn. intros [= <-]. pose proof (byte_val_range a). pose proof (byte_val_range b). width.
Qed.

Lemma v4_ihl_range ip : 0 <= v4_ihl ip.
Proof. unfold v4_ihl. apply Z.land_nonneg. by right. Qed.

Lemma l3_verdict_v4 ms ip octets port :
  num_maps ms !! "partition_src_ip" = Some (u32_from_ne_bytes octets) → length octets = 4%nat →
  num_maps ms !! "partition_src_port" = Some port → u16? port →
  l3_verdict ms ETH_P_IP ip = Some XDP_DROP ↔ v4_from_peer octets port ip.
Proof.
  intros Hip Ho Hport Hpr. unfold l3_verdict. rewrite Z.eqb_refl. unfold partition_v4, v4_from_peer.
  unfold bpf_map_lookup_elem. rewrite Hip, Hport. unfold past_end.
  destruct (Nat.ltb_spec (length ip) (0 + 20)) as [?|Hlen]; [split; [done|intros (? & ? & ? & _); lia]|].
  destruct (ld8_safe ip 0) as [b0 Hb0]; [lia|].
  pose proof (v4_ihl_range ip) as Hihl. unfold v4_ihl in *. rewrite Hb0 in *.
  cbn [mbind option_bind from_option id] in *. set (ihl := Z.land b0 15) in *.
  destruct (Z.ltb_spec ihl 5); [split; [done|intros (? & ? & ? & _); lia]|].
  destruct (Nat.ltb_spec (length ip) (0 + Z.to_nat (ihl * 4))); [split; [done|intros (? & ? & ? & _); lia]|].
  destruct (ld32le_bytes ip 12) as [Hs4 Hs]; [lia|]. change (0 + 12)%nat with 12%nat. rewrite Hs.
  cbn [mbind option_bind]. fold (v4_saddr ip) in *.
  destruct (Z.eqb_spec (u32_from_ne_bytes (v4_saddr ip)) (u32_from_ne_bytes octets)) as [E|E]; cbn [negb].
  2:{ split; [done|]. intros (_ & _ & _ & <- & _). done. }
  apply u32_from_ne_bytes_inj in E; [|done..].
  destruct (Z.eqb_spec port 0) as [->|Hp0].
  { split; [intros _|done]. split_and!; [lia..|done|by left]. }
  change (0 + 6)%nat with 6%nat. unfold v4_fragment_offset.
  destruct (ld16be_safe ip 6) as [fo Hfo]; [lia|]. rewrite Hfo. cbn [mbind option_bind from_option id].
  destruct (Z.eqb_spec (Z.land fo 8191) 0) as [Ef|Ef]; cbn [negb];
    [|split; [done|intros (_ & _ & _ & _ & [?|[? _]]); done]].
  change (0 + 9)%nat with 9%nat. unfold v4_protocol.
  destruct (ld8_safe ip 9) as [pr Hpr9]; [lia|]. rewrite Hpr9. cbn [mbind option_bind from_option id].
  rewrite extract_src_port_spec by lia. cbn [mbind option_bind].
  replace (0 + Z.to_nat (ihl * 4))%nat with (Z.to_nat (4 * ihl)) by lia.
  destruct (l4_source_port pr _) as [sp|].
  - cbn [mbind option_bind]. rewrite wrap_id by done. destruct (Z.eqb_spec sp port) as [->|Hsp].
    + split; [intros _|done]. split_and!; [lia..|done|by right].
    + split; [done|]. intros (_ & _ & _ & _ & [?|[_ [= ?]]]); done.
  - split; [done|]. intros (_ & _ & _ & _ & [?|[_ ?]]); done.
Qed.

(* ------------------------------------------------------------------ *)
(** * Properties *)

(** Packet loss is exact: with the modulus set to [n], of any [k] further packets
    exactly those whose running number is a multiple of [n] are dropped, which is
    [(c + k) / n - c / n] of them; with the modulus at 0 everything passes and the
    counter stands still. *)
Theorem pktloss_drops_every_nth ms n c k :
  num_maps ms !! "drop_every_n" = Some n → num_maps ms !! "packet_count" = Some c →
  0 <= n → 0 <= c → c + Z.of_nat k < 2 ^ 64 →
  let '(vs, ms') := pktloss_run k ms in
  length vs = k ∧
  if n =? 0 then Forall (λ v, v = XDP_PASS) vs ∧ ms' = ms
  else (∀ i, (i < k)%nat → vs !! i = Some (if (c + Z.of_nat i + 1) mod n =? 0 then XDP_DROP else XDP_PASS))
       ∧ Z.of_nat (length (filter (λ v, v = XDP_DROP) vs)) = (c + Z.of_nat k) / n - c / n
       ∧ num_maps ms' !! "packet_count" = Some (c + Z.of_nat k).
Proof.
  intros Hn Hc H0 Hc0 Hw. destruct (Z.eqb_spec n 0) as [->|Hne].
  - destruct (pktloss_run k ms) as [vs ms'] eqn:E. by eapply pktloss_off.
  - destruct (pktloss_run_spec k ms n c Hn Hc Hne Hc0 Hw) as (Hv & Hcnt & _).
    destruct (pktloss_run k ms) as [vs ms']. cbn [fst snd] in *. subst vs. split_and!.
    + unfold nth_packet_verdicts. by rewrite length_fmap, length_seq.
    + intros i Hi. unfold nth_packet_verdicts. rewrite list_lookup_fmap, lookup_seq_lt by done.
      cbn [fmap option_fmap option_map].
      by replace (c + Z.of_nat (1 + i)) with (c + Z.of_nat i + 1) by lia.
    + apply drops_counted; lia.
    + done.
Qed.

Definition demo_maps : bpf_maps :=
  {| num_maps := {[ "drop_every_n" := 3; "packet_count" := 0; "corrupt_every_n" := 1;
                    "corrupt_offset" := 2; "corrupt_mask" := 255; "partition_enabled" := 1;
                    "partition_src_ip" := u32_from_ne_bytes [x0a; x00; x00; x02];
                    "partition_src_port" := 0 ]};
     byte_maps := {[ "partition_src_ip6" := replicate 16 x00 ]} |}.

Lemma pktloss_drops_every_nth_witness :
  let '(vs, ms') := pktloss_run 7 demo_maps in
  length vs = 7%nat ∧
  if 3 =? 0 then Forall (λ v, v = XDP_PASS) vs ∧ ms' = demo_maps
  else (∀ i, (i < 7)%nat → vs !! i = Some (if (0 + Z.of_nat i + 1) mod 3 =? 0 then XDP_DROP else XDP_PASS))
       ∧ Z.of_nat (length (filter (λ v, v = XDP_DROP) vs)) = (0 + Z.of_nat 7) / 3 - 0 / 3
       ∧ num_maps ms' !! "packet_count" = Some (0 + Z.of_nat 7).
Proof.
  apply (pktloss_drops_every_nth demo_maps 3 0 7); [reflexivity|reflexivity|lia|lia|reflexivity].
Defined.

(** Corruption touches one byte of every [n]th packet and nothing else: the frame
    keeps its length and passes, all bytes but the one at [offset & 0xFFF] are
    unchanged, that one is XORed with the low byte of the mask (so applying the
    fault twice restores the frame), and a frame too short for the offset is left
    alone. *)
Theorem corrupt_flips_one_byte ms frame n c offset mask :
  num_maps ms !! "corrupt_every_n" = Some n → num_maps ms !! "packet_count" = Some c →
  num_maps ms !! "corrupt_offset" = Some offset → num_maps ms !! "corrupt_mask" = Some mask →
  n ≠ 0 → 0 <= c → c + 1 < 2 ^ 64 →
  let off := Z.to_nat (Z.land offset 4095) in
  ∃ frame' ms', xdp_corrupt ms frame = Some (XDP_PASS, frame', ms') ∧
    num_maps ms' !! "packet_count" = Some (c + 1) ∧ length frame' = length frame ∧
    (∀ i, i ≠ off → frame' !! i = frame !! i) ∧
    frame' !! off = (if (c + 1) mod n =? 0 then xor_byte mask else id) <$> frame !! off ∧
    (∀ b, xor_byte mask (xor_byte mask b) = b).
Proof.
  intros Hn Hc Ho Hm Hne H0 Hw off. unfold xdp_corrupt, bpf_map_lookup_elem.
  rewrite Hn, (proj2 (Z.eqb_neq n 0)), Hc by done. rewrite wrap_id by width.
  assert (Hcnt : num_maps (set_num "packet_count" (c + 1) ms) !! "packet_count" = Some (c + 1))
    by apply lookup_insert_eq.
  destruct ((c + 1) mod n =? 0); cbn [negb].
  2:{ exists frame, (set_num "packet_count" (c + 1) ms). split_and!; try done; [|apply xor_byte_invol].
      by destruct (frame !! off). }
  assert (num_maps (set_num "packet_count" (c + 1) ms) !! "corrupt_offset" = Some offset) as ->
    by (cbn; by rewrite lookup_insert_ne).
  assert (num_maps (set_num "packet_count" (c + 1) ms) !! "corrupt_mask" = Some mask) as ->
    by (cbn; by rewrite lookup_insert_ne).
  fold off. destruct (Nat.ltb_spec (length frame) (off + 1)) as [Hs|Hs].
  - exists frame, (set_num "packet_count" (c + 1) ms). split_and!; try done; [|apply xor_byte_invol].
    by rewrite (lookup_ge_None_2 frame off) by lia.
  - destruct (lookup_lt_is_Some_2 frame off) as [b Hb]; [lia|]. rewrite Hb. cbn [mbind option_bind].
    rewrite (insert_alter _ _ _ _ Hb), <- Hb.
    exists (alter (xor_byte mask) off frame), (set_num "packet_count" (c + 1) ms).
    split_and!; [done..|by rewrite length_alter| | |apply xor_byte_invol].
    + intros i Hi. by rewrite list_lookup_alter_ne.
    + by rewrite list_lookup_alter_eq.
Qed.

Lemma corrupt_flips_one_byte_witness :
  ∃ frame' ms', xdp_corrupt demo_maps [x01; x02; x03] = Some (XDP_PASS, frame', ms') ∧
    num_maps ms' !! "packet_count" = Some (0 + 1) ∧ length frame' = 3%nat ∧
    (∀ i, i ≠ 2%nat → frame' !! i = [x01; x02; x03] !! i) ∧
    frame' !! 2%nat = (if (0 + 1) mod 1 =? 0 then xor_byte 255 else id) <$> [x01; x02; x03] !! 2%nat ∧
    (∀ b, xor_byte 255 (xor_byte 255 b) = b).
Proof.
  apply (corrupt_flips_one_byte demo_maps [x01; x02; x03] 1 0 2 255);
    first [reflexivity | lia | discriminate].
Defined.

(** The partition program never reads outside the frame, whatever bytes and
    configuration it meets: every load is covered by the bounds checks. *)
Theorem partition_memory_safe ms frame :
  (∀ w, byte_maps ms !! "partition_src_ip6" = Some w → length w = 16%nat) →
  is_Some (xdp_partition ms frame).
Proof. apply xdp_partition_total. Qed.

Lemma partition_memory_safe_witness : is_Some (xdp_partition demo_maps [x01; x02]).
Proof.
  apply (partition_memory_safe demo_maps [x01; x02]).
  intros w Hw. vm_compute in Hw. injection Hw as <-. reflexivity.
Defined.

(** The partition cuts exactly the configured IPv4 peer, seen through up to two
    VLAN tags: a frame carrying an IPv4 packet is dropped if and only if the packet
    has a complete header with the peer's source address and, when a port is
    configured, is a first fragment with that UDP or TCP source port. *)
Theorem partition_v4_exact ms en macs tags ip octets port :
  num_maps ms !! "partition_enabled" = Some en → en ≠ 0 →
  num_maps ms !! "partition_src_ip" = Some (u32_from_ne_bytes octets) → length octets = 4%nat →
  num_maps ms !! "partition_src_port" = Some port → u16? port →
  length macs = 12%nat → (length tags ≤ 2)%nat →
  xdp_partition ms (eth_frame macs tags x08 x00 ip) = Some XDP_DROP ↔ v4_from_peer octets port ip.
Proof.
  intros Hen Hne Hip Ho Hport Hpr Hm Ht. rewrite (partition_l3 ms en) by done.
  by apply l3_verdict_v4.
Qed.

Definition demo_ip : list byte :=
  [x45; x00; x00; x1c; x00; x00; x00; x00; x40; x11; x00; x00; x0a; x00; x00; x02;
   x0a; x00; x00; x01; x13; x88; x13; x89; x00; x08; x00; x00].

Lemma partition_v4_exact_witness :
  xdp_partition demo_maps (eth_frame (replicate 12 x00) [(false, (x00, x05))] x08 x00 demo_ip) =
  Some XDP_DROP ↔ v4_from_peer [x0a; x00; x00; x02] 0 demo_ip.
Proof.
  apply (partition_v4_exact demo_maps 1 (replicate 12 x00) [(false, (x00, x05))] demo_ip
           [x0a; x00; x00; x02] 0); first [reflexivity | discriminate | split; [lia | reflexivity] | simpl; lia].
Defined.
