(* ===== verification/Xdp.v ===== *)
(** crates/kernel/src/bpf_util.rs, xdp_pktloss.rs, xdp_corrupt.rs and
    xdp_partition.rs: the userspace side of the three XDP faults.  The aya library
    is a parameter, [AyaApi]; [AyaLaws] states what its documentation promises of a
    map write: on success the program sees the new value and no other map changes,
    on failure no map changes. *)

From Stdlib Require Import Strings.Byte.
From S2P Require Import Prelude RustStd Core Effect Bpf.

(* ------------------------------------------------------------------ *)
(** * aya *)

(** [B] is a loaded object ([aya::Bpf]); errors are their rendering. *)
Class AyaApi (W B : Type) := {
  bpf_load : string → W → result string B * W;
  bpf_drop : B → W → W;
  has_program : B → string → bool;
  as_xdp : B → string → result string unit;
  program_load : B → string → W → result string unit * W;
  program_attach : B → string → string → W → result string unit * W;
  has_map : B → string → bool;
  as_u32_array : B → string → result string unit;
  as_bytes16_array : B → string → result string unit;
  array_set_u32 : B → string → Z → W → result string unit * W;
  array_set_bytes16 : B → string → list byte → W → result string unit * W
}.

Class AyaLaws (W B : Type) `{AyaApi W B} := {
  bpf_view : B → W → bpf_maps;
  set_u32_view : ∀ b name v w r w', array_set_u32 b name v w = (r, w') →
    bpf_view b w' = match r with Ok _ => set_num name v (bpf_view b w) | Err _ => bpf_view b w end;
  set_bytes16_view : ∀ b name v w r w', array_set_bytes16 b name v w = (r, w') →
    bpf_view b w' = match r with Ok _ => set_bytes name v (bpf_view b w) | Err _ => bpf_view b w end
}.

Section xdp.
Context {W B : Type} `{AyaApi W B}.

(* ------------------------------------------------------------------ *)
(** * bpf_util.rs *)

Definition set_u32_map (bpf : B) (injector_id map_name : string) (value : Z) : io W unit :=
  _ ← io_ok_or (ArmFailed injector_id ("no map named " +:+ map_name))
        (if has_map bpf map_name then Some tt else None);
  _ ← io_lift (map_err (ArmFailed injector_id) (as_u32_array bpf map_name));
  io_map_err (ArmFailed injector_id) (array_set_u32 bpf map_name value).

Definition set_bytes16_map (bpf : B) (injector_id map_name : string) (value : list byte) : io W unit :=
  _ ← io_ok_or (ArmFailed injector_id ("no map named " +:+ map_name))
        (if has_map bpf map_name then Some tt else None);
  _ ← io_lift (map_err (ArmFailed injector_id) (as_bytes16_array bpf map_name));
  io_map_err (ArmFailed injector_id) (array_set_bytes16 bpf map_name value).

(** An early return drops the loaded object, which detaches its programs. *)
Definition or_drop {A} (bpf : B) (x : io W A) : io W A :=
  λ w, match x w with (Err e, w') => (Err e, bpf_drop bpf w') | r => r end.

(** The part the three [ensure_loaded] share: load the object, find the program,
    load and attach it. *)
Definition load_and_attach (id obj program iface : string) : io W B :=
  bpf ← io_map_err (ArmFailed id) (bpf_load obj);
  _ ← or_drop bpf
        (_ ← io_ok_or (ArmFailed id ("no program named " +:+ program +:+ " in object"))
               (if has_program bpf program then Some tt else None);
         _ ← io_lift (map_err (ArmFailed id) (as_xdp bpf program));
         _ ← io_map_err (ArmFailed id) (program_load bpf program);
         io_map_err (ArmFailed id) (program_attach bpf program iface));
  mret bpf.

(* ------------------------------------------------------------------ *)
(** * xdp_pktloss.rs *)

Record XdpPacketLossInjector := {
  pl_id : string; pl_iface : string; pl_drop_every_n : Z; pl_bpf : option B; pl_armed : bool
}.

Definition XdpPacketLossInjector_new (id iface : string) (n : Z) : XdpPacketLossInjector :=
  {| pl_id := id; pl_iface := iface; pl_drop_every_n := n; pl_bpf := None; pl_armed := false |}.

Definition pl_set (bpf : option B) (armed : bool) (i : XdpPacketLossInjector) : XdpPacketLossInjector :=
  {| pl_id := pl_id i; pl_iface := pl_iface i; pl_drop_every_n := pl_drop_every_n i;
     pl_bpf := bpf; pl_armed := armed |}.

(** [Ok] hands back the object now in [self.bpf], the one [arm]'s [expect] finds. *)
Definition pktloss_ensure_loaded (i : XdpPacketLossInjector) (w : W)
  : result HarnessError B * XdpPacketLossInjector * W :=
  match pl_bpf i with
  | Some bpf => (Ok bpf, i, w)
  | None =>
      match load_and_attach (pl_id i) "xdp_pktloss.o" "xdp_pktloss" (pl_iface i) w with
      | (Ok bpf, w') => (Ok bpf, pl_set (Some bpf) (pl_armed i) i, w')
      | (Err e, w') => (Err e, i, w')
      end
  end.

Definition pktloss_arm (ctx : FaultContext) (i : XdpPacketLossInjector) (w : W)
  : result HarnessError unit * XdpPacketLossInjector * W :=
  match pktloss_ensure_loaded i w with
  | (Err e, i1, w1) => (Err e, i1, w1)
  | (Ok bpf, i1, w1) =>
      match set_u32_map bpf (pl_id i1) "drop_every_n" (pl_drop_every_n i1) w1 with
      | (Ok _, w2) => (Ok tt, pl_set (pl_bpf i1) true i1, w2)
      | (Err e, w2) => (Err e, i1, w2)
      end
  end.

Definition pktloss_disarm (i : XdpPacketLossInjector) (w : W)
  : result HarnessError unit * XdpPacketLossInjector * W :=
  match pl_bpf i with
  | None => (Ok tt, pl_set None false i, w)
  | Some bpf =>
      match set_u32_map bpf (pl_id i) "drop_every_n" 0 w with
      | (Ok _, w') => (Ok tt, pl_set (pl_bpf i) false i, w')
      | (Err e, w') => (Err e, i, w')
      end
  end.

#[global] Instance pktloss_injector : FaultInjector W XdpPacketLossInjector := {|
  fi_id := pl_id; fi_arm := pktloss_arm; fi_disarm := pktloss_disarm; fi_is_armed := pl_armed
|}.

(* ------------------------------------------------------------------ *)
(** * xdp_corrupt.rs *)

Record XdpCorruptionInjector := {
  cr_id : string; cr_iface : string; cr_every_n : Z; cr_offset : Z; cr_mask : Z;
  cr_bpf : option B; cr_armed : bool
}.

Definition XdpCorruptionInjector_new (id iface : string) (n offset mask : Z) : XdpCorruptionInjector :=
  {| cr_id := id; cr_iface := iface; cr_every_n := n; cr_offset := offset; cr_mask := mask;
     cr_bpf := None; cr_armed := false |}.

Definition cr_set (bpf : option B) (armed : bool) (i : XdpCorruptionInjector) : XdpCorruptionInjector :=
  {| cr_id := cr_id i; cr_iface := cr_iface i; cr_every_n := cr_every_n i; cr_offset := cr_offset i;
     cr_mask := cr_mask i; cr_bpf := bpf; cr_armed := armed |}.

(** [self.bpf] is set before the two configuration writes, so an error of either
    still leaves it set. *)
Definition corrupt_ensure_loaded (i : XdpCorruptionInjector) (w : W)
  : result HarnessError B * XdpCorruptionInjector * W :=
  match cr_bpf i with
  | Some bpf => (Ok bpf, i, w)
  | None =>
      match load_and_attach (cr_id i) "xdp_corrupt.o" "xdp_corrupt" (cr_iface i) w with
      | (Err e, w') => (Err e, i, w')
      | (Ok bpf, w1) =>
          let i1 := cr_set (Some bpf) (cr_armed i) i in
          match (_ ← set_u32_map bpf (cr_id i) "corrupt_offset" (cr_offset i);
                 set_u32_map bpf (cr_id i) "corrupt_mask" (cr_mask i)) w1 with
          | (Ok _, w2) => (Ok bpf, i1, w2)
          | (Err e, w2) => (Err e, i1, w2)
          end
      end
  end.

Definition corrupt_arm (ctx : FaultContext) (i : XdpCorruptionInjector) (w : W)
  : result HarnessError unit * XdpCorruptionInjector * W :=
  match corrupt_ensure_loaded i w with
  | (Err e, i1, w1) => (Err e, i1, w1)
  | (Ok bpf, i1, w1) =>
      match set_u32_map bpf (cr_id i1) "corrupt_every_n" (cr_every_n i1) w1 with
      | (Ok _, w2) => (Ok tt, cr_set (cr_bpf i1) true i1, w2)
      | (Err e, w2) => (Err e, i1, w2)
      end
  end.

Definition corrupt_disarm (i : XdpCorruptionInjector) (w : W)
  : result HarnessError unit * XdpCorruptionInjector * W :=
  match cr_bpf i with
  | None => (Ok tt, cr_set None false i, w)
  | Some bpf =>
      match set_u32_map bpf (cr_id i) "corrupt_every_n" 0 w with
      | (Ok _, w') => (Ok tt, cr_set (cr_bpf i) false i, w')
      | (Err e, w') => (Err e, i, w')
      end
  end.

#[global] Instance corrupt_injector : FaultInjector W XdpCorruptionInjector := {|
  fi_id := cr_id; fi_arm := corrupt_arm; fi_disarm := corrupt_disarm; fi_is_armed := cr_armed
|}.

(* ------------------------------------------------------------------ *)
(** * xdp_partition.rs *)

Inductive IpAddr := V4 (octets : list byte) | V6 (octets : list byte).

Record XdpPartitionInjector := {
  pt_id : string; pt_iface : string; pt_src_ip : IpAddr; pt_src_port : Z;
  pt_bpf : option B; pt_armed : bool
}.

Definition XdpPartitionInjector_new (id iface : string) (ip : IpAddr) (port : Z) : XdpPartitionInjector :=
  {| pt_id := id; pt_iface := iface; pt_src_ip := ip; pt_src_port := port;
     pt_bpf := None; pt_armed := false |}.

Definition pt_set (bpf : option B) (armed : bool) (i : XdpPartitionInjector) : XdpPartitionInjector :=
  {| pt_id := pt_id i; pt_iface := pt_iface i; pt_src_ip := pt_src_ip i; pt_src_port := pt_src_port i;
     pt_bpf := bpf; pt_armed := armed |}.

Definition partition_ensure_loaded (i : XdpPartitionInjector) (w : W)
  : result HarnessError B * XdpPartitionInjector * W :=
  match pt_bpf i with
  | Some bpf => (Ok bpf, i, w)
  | None =>
      match load_and_attach (pt_id i) "xdp_partition.o" "xdp_partition" (pt_iface i) w with
      | (Err e, w') => (Err e, i, w')
      | (Ok bpf, w1) =>
          let i1 := pt_set (Some bpf) (pt_armed i) i in
          match (_ ← match pt_src_ip i with
                     | V4 octets => set_u32_map bpf (pt_id i) "partition_src_ip" (u32_from_ne_bytes octets)
                     | V6 octets => set_bytes16_map bpf (pt_id i) "partition_src_ip6" octets
                     end;
                 set_u32_map bpf (pt_id i) "partition_src_port" (pt_src_port i)) w1 with
          | (Ok _, w2) => (Ok bpf, i1, w2)
          | (Err e, w2) => (Err e, i1, w2)
          end
      end
  end.

Definition partition_arm (ctx : FaultContext) (i : XdpPartitionInjector) (w : W)
  : result HarnessError unit * XdpPartitionInjector * W :=
  match partition_ensure_loaded i w with
  | (Err e, i1, w1) => (Err e, i1, w1)
  | (Ok bpf, i1, w1) =>
      match set_u32_map bpf (pt_id i1) "partition_enabled" 1 w1 with
      | (Ok _, w2) => (Ok tt, pt_set (pt_bpf i1) true i1, w2)
      | (Err e, w2) => (Err e, i1, w2)
      end
  end.

Definition partition_disarm (i : XdpPartitionInjector) (w : W)
  : result HarnessError unit * XdpPartitionInjector * W :=
  match pt_bpf i with
  | None => (Ok tt, pt_set None false i, w)
  | Some bpf =>
      match set_u32_map bpf (pt_id i) "partition_enabled" 0 w with
      | (Ok _, w') => (Ok tt, pt_set (pt_bpf i) false i, w')
      | (Err e, w') => (Err e, i, w')
      end
  end.

#[global] Instance partition_injector : FaultInjector W XdpPartitionInjector := {|
  fi_id := pt_id; fi_arm := partition_arm; fi_disarm := partition_disarm; fi_is_armed := pt_armed
|}.

End xdp.

Arguments XdpPacketLossInjector : clear implicits.
Arguments XdpCorruptionInjector : clear implicits.
Arguments XdpPartitionInjector : clear implicits.

(* ------------------------------------------------------------------ *)
(** * The injector laws *)

#[global] Instance pktloss_laws {W B} `{AyaApi W B} : FaultInjectorLaws W (XdpPacketLossInjector B).
Proof. unfold pktloss_injector, pktloss_arm, pktloss_ensure_loaded, pktloss_disarm. injector_laws. Qed.

#[global] Instance corrupt_laws {W B} `{AyaApi W B} : FaultInjectorLaws W (XdpCorruptionInjector B).
Proof. unfold corrupt_injector, corrupt_arm, corrupt_ensure_loaded, corrupt_disarm. injector_laws. Qed.

#[global] Instance partition_laws {W B} `{AyaApi W B} : FaultInjectorLaws W (XdpPartitionInjector B).
Proof.
  unfold partition_injector, partition_arm, partition_ensure_loaded, partition_disarm. injector_laws.
Qed.

(* ------------------------------------------------------------------ *)
(** * What the program sees *)

Section views.
Context {W B : Type} `{AyaLaws W B}.

Lemma set_u32_map_ok b id name v (w : W) u w' :
  set_u32_map b id name v w = (Ok u, w') → bpf_view b w' = set_num name v (bpf_view b w).
Proof.
  unfold set_u32_map. intros (a1 & w1 & H1 & H2)%io_bind_ok.
  apply io_bind_ok in H2 as (a2 & w2 & H2 & H3).
  unfold io_ok_or, io_lift in *. simplify_eq/=. unfold io_map_err in H3.
  destruct (array_set_u32 b name v w2) as [[?|?] w3] eqn:E; simplify_eq/=.
  by apply set_u32_view in E.
Qed.

Lemma set_bytes16_map_ok b id name v (w : W) u w' :
  set_bytes16_map b id name v w = (Ok u, w') → bpf_view b w' = set_bytes name v (bpf_view b w).
Proof.
  unfold set_bytes16_map. intros (a1 & w1 & H1 & H2)%io_bind_ok.
  apply io_bind_ok in H2 as (a2 & w2 & H2 & H3).
  unfold io_ok_or, io_lift in *. simplify_eq/=. unfold io_map_err in H3.
  destruct (array_set_bytes16 b name v w2) as [[?|?] w3] eqn:E; simplify_eq/=.
  by apply set_bytes16_view in E.
Qed.

(** Turn the successful map writes in the context into what the program sees. *)
Ltac map_writes :=
  repeat match goal with
  | E : (_ ≫= _) _ = (Ok _, _) |- _ => apply io_bind_ok in E as (? & ? & ? & ?)
  | E : set_u32_map _ _ _ _ _ = (Ok _, _) |- _ => apply set_u32_map_ok in E
  | E : set_bytes16_map _ _ _ _ _ = (Ok _, _) |- _ => apply set_bytes16_map_ok in E
  end.

Lemma pktloss_arm_view ctx (i : XdpPacketLossInjector B) (w : W) i' w' :
  pktloss_arm ctx i w = (Ok tt, i', w') →
  ∃ b, pl_bpf i' = Some b ∧ num_maps (bpf_view b w') !! "drop_every_n" = Some (pl_drop_every_n i).
Proof.
  unfold pktloss_arm. destruct (pktloss_ensure_loaded i w) as [[[b|e] i1] w1] eqn:El; [|done].
  destruct (set_u32_map b _ _ _ w1) as [[?|?] w2] eqn:Es; [|done]. intros [= <- <-].
  assert (pl_bpf i1 = Some b ∧ pl_drop_every_n i1 = pl_drop_every_n i) as [Hb Hn].
  { unfold pktloss_ensure_loaded in El. repeat case_match; by simplify_eq/=. }
  exists b. split; [done|]. rewrite (set_u32_map_ok _ _ _ _ _ _ _ Es). cbn. rewrite Hn.
  apply lookup_insert_eq.
Qed.

Lemma partition_first_arm_view ctx id iface octets port (w : W) (i' : XdpPartitionInjector B) w' :
  partition_arm ctx (XdpPartitionInjector_new id iface (V4 octets) port) w = (Ok tt, i', w') →
  ∃ b, pt_bpf i' = Some b ∧
    num_maps (bpf_view b w') !! "partition_enabled" = Some 1 ∧
    num_maps (bpf_view b w') !! "partition_src_ip" = Some (u32_from_ne_bytes octets) ∧
    num_maps (bpf_view b w') !! "partition_src_port" = Some port.
Proof.
  unfold partition_arm, partition_ensure_loaded. intros Harm.
  repeat case_match; simplify_eq/=. map_writes. eexists. split; [done|].
  repeat match goal with E : bpf_view _ _ = _ |- _ => rewrite E end.
  cbn [num_maps set_num]. split_and!; by simplify_map_eq.
Qed.

End views.

(* ------------------------------------------------------------------ *)
(** * A kernel to run against *)

(** One loaded object; [k_script] says how the next map writes go, true is success,
    and a used-up script means success. *)
Record kernel := { k_maps : bpf_maps; k_script : list bool }.

Definition next_write (k : kernel) : bool * list bool :=
  match k_script k with [] => (true, []) | ok :: rest => (ok, rest) end.

#[global] Instance kernel_aya : AyaApi kernel unit := {|
  bpf_load obj k := (Ok tt, {| k_maps := object_maps obj; k_script := k_script k |});
  bpf_drop _ k := k;
  has_program _ _ := true;
  as_xdp _ _ := Ok tt;
  program_load _ _ k := (Ok tt, k);
  program_attach _ _ _ k := (Ok tt, k);
  has_map _ _ := true;
  as_u32_array _ _ := Ok tt;
  as_bytes16_array _ _ := Ok tt;
  array_set_u32 _ name v k :=
    let '(ok, rest) := next_write k in
    if ok then (Ok tt, {| k_maps := set_num name v (k_maps k); k_script := rest |})
    else (Err "bpf_map_update_elem failed", {| k_maps := k_maps k; k_script := rest |});
  array_set_bytes16 _ name v k :=
    let '(ok, rest) := next_write k in
    if ok then (Ok tt, {| k_maps := set_bytes name v (k_maps k); k_script := rest |})
    else (Err "bpf_map_update_elem failed", {| k_maps := k_maps k; k_script := rest |})
|}.

#[global] Instance kernel_laws : AyaLaws kernel unit.
Proof.
  refine (Build_AyaLaws kernel unit kernel_aya (λ _ k, k_maps k) _ _).
  - intros [] name v k r k'. cbn. destruct (next_write k) as [[] rest]; by intros [= <- <-].
  - intros [] name v k r k'. cbn. destruct (next_write k) as [[] rest]; by intros [= <- <-].
Defined.

(** Nothing loaded yet. *)
Definition fresh_kernel (script : list bool) : kernel :=
  {| k_maps := zero_maps [] []; k_script := script |}.

Definition xdp_ctx : FaultContext := {| ctx_clock := System; ctx_seed := 7 |}.

(* ------------------------------------------------------------------ *)
(** * Properties *)

(** The packet-loss injector drives the kernel program: after a successful [arm]
    the program runs with the configured modulus, after a successful [disarm] of a
    loaded injector it passes every packet. *)
Theorem pktloss_injector_drives_program {W B} `{AyaLaws W B} ctx (i : XdpPacketLossInjector B) (w : W) k :
  (∀ i' w', fi_arm ctx i w = (Ok tt, i', w') → ∃ b, pl_bpf i' = Some b ∧
     num_maps (bpf_view b w') !! "drop_every_n" = Some (pl_drop_every_n i)) ∧
  (∀ i' w' b, fi_disarm i w = (Ok tt, i', w') → pl_bpf i = Some b →
     Forall (λ v, v = XDP_PASS) (pktloss_run k (bpf_view b w')).1).
Proof.
  split; [intros i' w'; apply pktloss_arm_view|].
  intros i' w' b Hd Hb. cbn in Hd. unfold pktloss_disarm in Hd. rewrite Hb in Hd.
  destruct (set_u32_map b _ _ 0 w) as [[?|?] w2] eqn:E; [|done]. injection Hd as <- <-.
  destruct (pktloss_run k (bpf_view b w2)) as [vs ms'] eqn:Er. cbn.
  eapply pktloss_off; [|exact Er]. rewrite (set_u32_map_ok _ _ _ _ _ _ _ E). apply lookup_insert_eq.
Qed.

Definition demo_loss : XdpPacketLossInjector unit :=
  {| pl_id := "loss"; pl_iface := "lo"; pl_drop_every_n := 3; pl_bpf := Some tt; pl_armed := true |}.

Lemma pktloss_injector_drives_program_witness :
  (∃ b, Some tt = Some b ∧
     num_maps (bpf_view b {| k_maps := set_num "drop_every_n" 3 (k_maps (fresh_kernel []));
                             k_script := [] |}) !! "drop_every_n" = Some 3) ∧
  Forall (λ v, v = XDP_PASS)
    (pktloss_run 10 (bpf_view tt {| k_maps := set_num "drop_every_n" 0 (k_maps (fresh_kernel []));
                                    k_script := [] |})).1.
Proof.
  pose proof (pktloss_injector_drives_program xdp_ctx demo_loss (fresh_kernel []) 10) as [Harm Hdis].
  split.
  - apply (Harm (pl_set (Some tt) true demo_loss)). vm_compute. reflexivity.
  - apply (Hdis (pl_set (Some tt) false demo_loss)); vm_compute; reflexivity.
Defined.

(** Partition, end to end: once a partition injector for an IPv4 peer has been
    armed, the kernel drops an IPv4 frame, under up to two VLAN tags, exactly when
    it comes from that peer (and port); the byte order conversions of the two sides
    cancel. *)
Theorem partition_injector_cuts_peer {W B} `{AyaLaws W B} ctx id iface octets port (w : W)
    (i' : XdpPartitionInjector B) w' :
  length octets = 4%nat → u16? port →
  fi_arm ctx (XdpPartitionInjector_new id iface (V4 octets) port) w = (Ok tt, i', w') →
  ∃ b, pt_bpf i' = Some b ∧
    ∀ macs tags ip, length macs = 12%nat → (length tags ≤ 2)%nat →
      xdp_partition (bpf_view b w') (eth_frame macs tags x08 x00 ip) = Some XDP_DROP ↔
      v4_from_peer octets port ip.
Proof.
  intros Ho Hp Harm. destruct (partition_first_arm_view _ _ _ _ _ _ _ _ Harm)
    as (b & Hb & Hen & Hip & Hport). exists b. split; [done|]. intros macs tags ip Hm Ht.
  rewrite (partition_l3 _ 1) by done. by apply l3_verdict_v4.
Qed.

Lemma partition_injector_cuts_peer_witness :
  let k' := {| k_maps := set_num "partition_enabled" 1 (set_num "partition_src_port" 5000
                 (set_num "partition_src_ip" 33554442 (object_maps "xdp_partition.o")));
               k_script := [] |} in
  ∃ b : unit, Some tt = Some b ∧
    ∀ macs tags ip, length macs = 12%nat → (length tags ≤ 2)%nat →
      xdp_partition (bpf_view b k') (eth_frame macs tags x08 x00 ip) = Some XDP_DROP ↔
      v4_from_peer [x0a; x00; x00; x02] 5000 ip.
Proof.
  apply (partition_injector_cuts_peer xdp_ctx "cut" "lo" [x0a; x00; x00; x02] 5000 (fresh_kernel [])
           {| pt_id := "cut"; pt_iface := "lo"; pt_src_ip := V4 [x0a; x00; x00; x02];
              pt_src_port := 5000; pt_bpf := Some tt; pt_armed := true |}).
  - reflexivity.
  - split; [lia|reflexivity].
  - vm_compute. reflexivity.
Defined.

Definition half_loaded : XdpCorruptionInjector unit :=
  {| cr_id := "corrupt"; cr_iface := "lo"; cr_every_n := 1; cr_offset := 14; cr_mask := 255;
     cr_bpf := Some tt; cr_armed := false |}.

(** A corruption injector can end up armed but unconfigured: when the mask write of
    the first [arm] fails, that [arm] is reported as failed, yet the object is kept,
    so a second [arm] skips the configuration, succeeds and leaves the program
    XORing with 0. *)
Theorem corruption_rearm_skips_configuration :
  let i := XdpCorruptionInjector_new "corrupt" "lo" 1 14 255 in
  let '(r1, i1, w1) := fi_arm xdp_ctx i (fresh_kernel [true; false]) in
  let '(r2, i2, w2) := fi_arm xdp_ctx i1 w1 in
  is_ok r1 = false ∧ r2 = Ok tt ∧ fi_is_armed i2 = true ∧
  num_maps (bpf_view tt w2) !! "corrupt_mask" = Some 0 ∧
  (∀ frame, ∃ ms', xdp_corrupt (bpf_view tt w2) frame = Some (XDP_PASS, frame, ms')).
Proof.
  cbv zeta.
  assert (E1 : fi_arm xdp_ctx (XdpCorruptionInjector_new "corrupt" "lo" 1 14 255) (fresh_kernel [true; false])
    = (Err (ArmFailed "corrupt" "bpf_map_update_elem failed"), half_loaded,
       {| k_maps := set_num "corrupt_offset" 14 (object_maps "xdp_corrupt.o"); k_script := [] |}))
    by reflexivity.
  rewrite E1. clear E1.
  set (w1 := {| k_maps := _; k_script := [] |}).
  assert (E2 : fi_arm xdp_ctx half_loaded w1 = (Ok tt, cr_set (Some tt) true half_loaded,
    {| k_maps := set_num "corrupt_every_n" 1 (k_maps w1); k_script := [] |})) by reflexivity.
  rewrite E2. clear E2. split_and!; [done..|]. intros frame.
  apply corrupt_zero_mask. reflexivity.
Qed.
