(* ===== verification/KernelFaults.v ===== *)
(** The XDP faults as they run: the userspace injectors of crates/kernel/src and the
    programs of crates/kernel/bpf against the same maps, with frames arriving between
    the runner's calls and map writes that may fail.  [AyaLoadLaws] adds to [AyaLaws]
    what loading promises (a new array map is zero, loading and attaching a program
    write no map), [XdpPath] that a frame meets the attached program. *)

From Stdlib Require Import Strings.Byte.
From S2P Require Import Prelude RustStd Core Effect Bpf Xdp FixInjector.

(* ------------------------------------------------------------------ *)
(** * Loading and traffic *)

Class AyaLoadLaws (W B : Type) `{AyaLaws W B} : Prop := {
  load_fresh : ∀ obj w b w', bpf_load obj w = (Ok b, w') → bpf_view b w' = object_maps obj;
  program_load_view : ∀ b p w r w', program_load b p w = (r, w') → bpf_view b w' = bpf_view b w;
  program_attach_view : ∀ b p i w r w', program_attach b p i w = (r, w') → bpf_view b w' = bpf_view b w
}.

(** A program as a function of its maps and the frame. *)
Definition xdp_program : Type := bpf_maps → list byte → verdict * list byte * bpf_maps.

Class XdpPath (W B : Type) `{AyaLaws W B} := {
  run_program : xdp_program → B → list byte → W → verdict * list byte * W;
  run_program_view : ∀ prog b frame w v frame' w', run_program prog b frame w = (v, frame', w') →
    prog (bpf_view b w) frame = (v, frame', bpf_view b w')
}.

Definition pktloss_program : xdp_program :=
  λ ms frame, let '(v, ms') := xdp_pktloss ms in (v, frame, ms').
(** A load or store outside the frame would be a fault, which [xdp_corrupt_total] and
    [xdp_partition_total] exclude. *)
Definition corrupt_program : xdp_program :=
  λ ms frame, default (XDP_DROP, frame, ms) (xdp_corrupt ms frame).
(** The partition program writes no map and no frame. *)
Definition partition_program : xdp_program :=
  λ ms frame, (default XDP_DROP (xdp_partition ms frame), frame, ms).

(* ------------------------------------------------------------------ *)
(** * An injector and its traffic *)

(** What happens at an interface, and what can be seen of it: a call of the runner with
    its success, a frame with its fate. *)
Inductive net_event := NetCall (c : injector_call) | NetFrame (frame : list byte).
Inductive net_obs :=
| ObsCall (c : injector_call) (ok : bool)
| ObsFrame (frame : list byte) (v : verdict) (frame' : list byte).

Section traffic.
Context {W B I : Type} `{XdpPath W B} `{FaultInjector W I}.
Variable prog : xdp_program.
Variable loaded : I → option B.

(** Without a loaded object there is no program on the interface. *)
Definition net_step (e : net_event) (i : I) (w : W) : net_obs * I * W :=
  match e with
  | NetCall c => let '(r, i', w') := call_injector c i w in (ObsCall c (is_ok r), i', w')
  | NetFrame frame =>
      match loaded i with
      | None => (ObsFrame frame XDP_PASS frame, i, w)
      | Some b => let '(v, frame', w') := run_program prog b frame w in (ObsFrame frame v frame', i, w')
      end
  end.

Fixpoint net_run (es : list net_event) (i : I) (w : W) : list net_obs * I * W :=
  match es with
  | [] => ([], i, w)
  | e :: es' =>
      let '(o, i', w') := net_step e i w in
      let '(os, i'', w'') := net_run es' i' w' in
      (o :: os, i'', w'')
  end.

(** An invariant of the injector and the world that every step keeps holds at the end,
    and what it says of each step holds of every observation. *)
Lemma net_run_inv (P : I → W → Prop) (Q : net_obs → Prop) es i w os i' w' :
  (∀ e i w o i' w', P i w → net_step e i w = (o, i', w') → P i' w' ∧ Q o) →
  P i w → net_run es i w = (os, i', w') → P i' w' ∧ Forall Q os.
Proof.
  intros Hstep. revert i w os. induction es as [|e es IH]; intros i w os Hp; cbn [net_run].
  { intros [= <- <- <-]. by split. }
  destruct (net_step e i w) as [[o i1] w1] eqn:Es. destruct (Hstep _ _ _ _ _ _ Hp Es) as [Hp1 Hq].
  destruct (net_run es i1 w1) as [[os1 i2] w2] eqn:Er. intros [= <- <- <-].
  destruct (IH _ _ _ Hp1 Er) as [? ?]. split; [done|]. by constructor.
Qed.

End traffic.

(* ------------------------------------------------------------------ *)
(** * Specifications *)

(** What a fault promises of an interface: how a call changes its state, what may become
    of a frame, and the state after it. *)
Record net_spec (S : Type) := {
  sp_call : injector_call → bool → S → S;
  sp_frame : S → list byte → verdict → list byte → Prop;
  sp_next : S → S
}.
Arguments sp_call {S}.
Arguments sp_frame {S}.
Arguments sp_next {S}.

Fixpoint spec_allows {S} (sp : net_spec S) (s : S) (os : list net_obs) : Prop :=
  match os with
  | [] => True
  | ObsCall c ok :: os' => spec_allows sp (sp_call sp c ok s) os'
  | ObsFrame frame v frame' :: os' =>
      sp_frame sp s frame v frame' ∧ spec_allows sp (sp_next sp s) os'
  end.

(** A call that succeeds sets the switch, one that fails changes nothing. *)
Definition switch (c : injector_call) (ok : bool) (armed : bool) : bool :=
  if ok then match c with CallArm _ => true | CallDisarm => false end else armed.

(** The counted faults: the switch, and the number of frames seen while it was on. *)
Record counted := { ct_armed : bool; ct_count : Z }.
Definition ct_call (c : injector_call) (ok : bool) (s : counted) : counted :=
  {| ct_armed := switch c ok (ct_armed s); ct_count := ct_count s |}.
Definition ct_hit (n : Z) (s : counted) : bool :=
  ct_armed s && negb (n =? 0) && (wrap 64 (ct_count s + 1) mod n =? 0).
Definition ct_next (n : Z) (s : counted) : counted :=
  if ct_armed s && negb (n =? 0)
  then {| ct_armed := ct_armed s; ct_count := wrap 64 (ct_count s + 1) |} else s.

(** Packet loss: every [n]th frame seen while armed is dropped, the others pass. *)
Definition loss_spec (n : Z) : net_spec counted := {|
  sp_call := ct_call;
  sp_frame s frame v frame' := v = (if ct_hit n s then XDP_DROP else XDP_PASS) ∧ frame' = frame;
  sp_next := ct_next n
|}.

(** Corruption: nothing is dropped, every [n]th frame seen while armed has the byte at
    [offset & 0xFFF] XORed with the mask, if it is that long. *)
Definition corruption_spec (n offset mask : Z) : net_spec counted := {|
  sp_call := ct_call;
  sp_frame s frame v frame' := v = XDP_PASS ∧
    frame' = (if ct_hit n s then alter (xor_byte mask) (Z.to_nat (Z.land offset 4095)) frame else frame);
  sp_next := ct_next n
|}.

(** A switched fault that at least leaves everything alone while disarmed. *)
Definition transparent_when_disarmed : net_spec bool := {|
  sp_call := switch;
  sp_frame armed frame v frame' := armed = false → v = XDP_PASS ∧ frame' = frame;
  sp_next armed := armed
|}.

Section simulation.
Context {W B I S : Type} `{XdpPath W B} `{FaultInjector W I}.
Variable prog : xdp_program.
Variable loaded : I → option B.
Variable sp : net_spec S.
Variable R : I → W → S → Prop.

(** Forward simulation: a relation that calls and frames keep makes every trace of the
    implementation one of the specification. *)
Lemma spec_simulation es i w s os i' w' :
  (∀ c i w s r i' w', R i w s → call_injector c i w = (r, i', w') → R i' w' (sp_call sp c (is_ok r) s)) →
  (∀ frame i w s b v frame' w', R i w s → loaded i = Some b → run_program prog b frame w = (v, frame', w') →
     sp_frame sp s frame v frame' ∧ R i w' (sp_next sp s)) →
  (∀ frame i w s, R i w s → loaded i = None → sp_frame sp s frame XDP_PASS frame ∧ R i w (sp_next sp s)) →
  R i w s → net_run prog loaded es i w = (os, i', w') → spec_allows sp s os.
Proof.
  intros Hcall Hframe Hnone. revert i w s os. induction es as [|e es IH]; intros i w s os HR; cbn [net_run].
  { by intros [= <- <- <-]. }
  destruct e as [c|frame]; cbn [net_step].
  - destruct (call_injector c i w) as [[r i1] w1] eqn:Ec.
    destruct (net_run _ _ es i1 w1) as [[os1 i2] w2] eqn:Er. intros [= <- <- <-]. cbn. eapply IH; eauto.
  - destruct (loaded i) as [b|] eqn:El.
    + destruct (run_program prog b frame w) as [[v f1] w1] eqn:Ep.
      destruct (net_run _ _ es i w1) as [[os1 i2] w2] eqn:Er. intros [= <- <- <-]. cbn.
      destruct (Hframe _ _ _ _ _ _ _ _ HR El Ep) as [? ?]. split; [done|]. eapply IH; eauto.
    + destruct (net_run _ _ es i w) as [[os1 i2] w2] eqn:Er. intros [= <- <- <-]. cbn.
      destruct (Hnone frame _ _ _ HR El) as [? ?]. split; [done|]. eapply IH; eauto.
Qed.

End simulation.

(** Whether the first [arm] that was tried succeeded. *)
Fixpoint first_arm (os : list net_obs) : option bool :=
  match os with
  | [] => None
  | ObsCall (CallArm _) ok :: _ => Some ok
  | _ :: os' => first_arm os'
  end.

Section settling.
Context {W B I S T : Type} `{XdpPath W B} `{FaultInjector W I}.
Variable prog : xdp_program.
Variable loaded : I → option B.
Variable spec : T → net_spec S.
Variable intended : T.
Variable fresh : I → W → S → Prop.
Variable R : T → I → W → S → Prop.

(** A fault whose configuration is settled when its object is loaded: as long as nothing is
    loaded it does nothing, an [arm] that succeeds first settles it as intended, and one
    that fails may settle it otherwise; from then on it follows the specification for
    what it was settled to. *)
Lemma settled_simulation (P : T → Prop) es i w s os i' w' :
  (∀ t c ok s, sp_call (spec t) c ok s = sp_call (spec intended) c ok s) →
  (∀ t c i w s r i' w', R t i w s → call_injector c i w = (r, i', w') → R t i' w' (sp_call (spec t) c (is_ok r) s)) →
  (∀ t frame i w s b v frame' w', R t i w s → loaded i = Some b → run_program prog b frame w = (v, frame', w') →
     sp_frame (spec t) s frame v frame' ∧ R t i w' (sp_next (spec t) s)) →
  (∀ t i w s, R t i w s → P t ∧ is_Some (loaded i)) →
  (∀ i w s, fresh i w s → loaded i = None ∧
     ∀ t frame, sp_frame (spec t) s frame XDP_PASS frame ∧ sp_next (spec t) s = s) →
  (∀ c i w s r i' w', fresh i w s → call_injector c i w = (r, i', w') →
     let s' := sp_call (spec intended) c (is_ok r) s in
     (fresh i' w' s' ∧ (c = CallDisarm ∨ is_ok r = false)) ∨
     (∃ t ctx, R t i' w' s' ∧ c = CallArm ctx ∧ (is_ok r = true → t = intended))) →
  P intended → fresh i w s → net_run prog loaded es i w = (os, i', w') →
  ∃ t, P t ∧ (t = intended ∨ first_arm os = Some false) ∧ spec_allows (spec t) s os.
Proof.
  intros Hsame Hcall Hframe HR Hfr Hfc HP. revert i w s os. induction es as [|e es IH]; intros i w s os Hf; cbn [net_run].
  { intros [= <- <- <-]. exists intended. split_and!; [done|by left|done]. }
  destruct e as [c|frame]; cbn [net_step].
  - destruct (call_injector c i w) as [[r i1] w1] eqn:Ec.
    destruct (net_run _ _ es i1 w1) as [[os1 i2] w2] eqn:Er. intros [= <- <- <-].
    destruct (Hfc _ _ _ _ _ _ _ Hf Ec) as [[Hf1 Hno]|(t & ctx & HR1 & -> & Ht)].
    + destruct (IH _ _ _ _ Hf1 Er) as (t & HPt & Hfirst & Hall). exists t. split; [done|]. split.
      * destruct c as [ctx|]; [|done]. right. destruct Hno as [?|Hno]; [done|]. cbn. by rewrite Hno.
      * cbn. by rewrite Hsame.
    + exists t. destruct (HR _ _ _ _ HR1) as [HPt _]. split; [done|]. split.
      * cbn. destruct (is_ok r); [left; by apply Ht|by right].
      * cbn. rewrite Hsame. eapply (spec_simulation prog loaded (spec t) (R t)); [| | |exact HR1|exact Er].
        -- intros; by eapply Hcall.
        -- intros; by eapply Hframe.
        -- intros frame0 i0 w0 s0 HR0 Hn. apply HR in HR0 as [_ [b Hb]]. congruence.
  - destruct (Hfr _ _ _ Hf) as [Hn Hpass]. rewrite Hn.
    destruct (net_run _ _ es i w) as [[os1 i2] w2] eqn:Er. intros [= <- <- <-].
    destruct (IH _ _ _ _ Hf Er) as (t & HPt & Hfirst & Hall). exists t. split_and!; [done|done|].
    cbn. destruct (Hpass t frame) as [? ->]. done.
Qed.

End settling.

(* ------------------------------------------------------------------ *)
(** * Types *)

(** The maps hold what their C declarations say: [u64] packet counts, [u32] numbers,
    16 bytes of address. *)
Definition map_width (name : string) : Z := if decide (name = "packet_count") then 64 else 32.
Definition maps_typed (ms : bpf_maps) : Prop :=
  map_Forall (λ name v, in_width (map_width name) v) (num_maps ms) ∧
  map_Forall (λ _ b, length b = 16%nat) (byte_maps ms).

(** The fields the Rust types bound. *)
Definition pl_typed {B} (i : XdpPacketLossInjector B) : Prop := u32? (pl_drop_every_n i).
Definition cr_typed {B} (i : XdpCorruptionInjector B) : Prop :=
  u32? (cr_every_n i) ∧ u32? (cr_offset i) ∧ u8? (cr_mask i).
Definition ip_typed (ip : IpAddr) : Prop :=
  match ip with V4 o => length o = 4%nat | V6 o => length o = 16%nat end.
Definition pt_typed {B} (i : XdpPartitionInjector B) : Prop := ip_typed (pt_src_ip i) ∧ u16? (pt_src_port i).

(* ------------------------------------------------------------------ *)
(** * Lemmas: what a call does to the maps *)

Section views.
Context {W B : Type} `{AyaLoadLaws W B}.

Lemma set_u32_map_view b id name v (w : W) r w' :
  set_u32_map b id name v w = (r, w') →
  bpf_view b w' = match r with Ok _ => set_num name v (bpf_view b w) | Err _ => bpf_view b w end.
Proof.
  unfold set_u32_map, io_ok_or, io_lift, io_map_err, mbind, io_bind, ok_or, map_err.
  destruct (has_map b name); [|by intros [= <- <-]]. destruct (as_u32_array b name); [|by intros [= <- <-]].
  destruct (array_set_u32 b name v w) as [r0 w0] eqn:E. apply set_u32_view in E.
  destruct r0; intros [= <- <-]; exact E.
Qed.

Lemma set_bytes16_map_view b id name v (w : W) r w' :
  set_bytes16_map b id name v w = (r, w') →
  bpf_view b w' = match r with Ok _ => set_bytes name v (bpf_view b w) | Err _ => bpf_view b w end.
Proof.
  unfold set_bytes16_map, io_ok_or, io_lift, io_map_err, mbind, io_bind, ok_or, map_err.
  destruct (has_map b name); [|by intros [= <- <-]]. destruct (as_bytes16_array b name); [|by intros [= <- <-]].
  destruct (array_set_bytes16 b name v w) as [r0 w0] eqn:E. apply set_bytes16_view in E.
  destruct r0; intros [= <- <-]; exact E.
Qed.

Lemma or_drop_ok {A} b (x : io W A) (w : W) u w' : or_drop b x w = (Ok u, w') → x w = (Ok u, w').
Proof. unfold or_drop. by destruct (x w) as [[?|?] ?]. Qed.

Lemma load_and_attach_view id obj prog iface (w : W) b w' :
  load_and_attach id obj prog iface w = (Ok b, w') → bpf_view b w' = object_maps obj.
Proof.
  unfold load_and_attach. intros (b0 & w0 & Hl & Hr)%io_bind_ok.
  unfold io_map_err in Hl. destruct (bpf_load obj w) as [[b1|?] w1] eqn:El; [|done].
  cbn in Hl. injection Hl as -> ->. apply load_fresh in El.
  apply io_bind_ok in Hr as ([] & w2 & Hd & Hm). injection Hm as -> ->. rewrite <- El. clear El.
  apply or_drop_ok in Hd. rename Hd into Ew.
  apply io_bind_ok in Ew as (? & ? & Hp1 & Ew). apply io_bind_ok in Ew as (? & ? & Hp2 & Ew).
  apply io_bind_ok in Ew as (? & ? & Hp3 & Ew). unfold io_ok_or, io_lift, io_map_err in *.
  simplify_eq/=. destruct (program_load _ _ _) as [[?|?] ?] eqn:Ep; [|done].
  simplify_eq/=. destruct (program_attach _ _ _ _) as [[?|?] ?] eqn:Ea; [|done]. simplify_eq/=.
  apply program_load_view in Ep. apply program_attach_view in Ea. congruence.
Qed.

(** ** Packet loss *)

(** The kernel's modulus is the injector's switch. *)
Definition pl_tracks (i : XdpPacketLossInjector B) (w : W) (count : Z) : Prop :=
  match pl_bpf i with
  | None => pl_armed i = false ∧ count = 0
  | Some b =>
      num_maps (bpf_view b w) !! "drop_every_n" = Some (if pl_armed i then pl_drop_every_n i else 0) ∧
      num_maps (bpf_view b w) !! "packet_count" = Some count
  end.

Lemma pktloss_ensure_loaded_tracks i w count r i1 w1 :
  pl_tracks i w count → pktloss_ensure_loaded i w = (r, i1, w1) →
  pl_tracks i1 w1 count ∧ pl_armed i1 = pl_armed i ∧ pl_drop_every_n i1 = pl_drop_every_n i ∧
  match r with Ok b => pl_bpf i1 = Some b | Err _ => True end.
Proof.
  intros Ht. unfold pktloss_ensure_loaded. destruct (pl_bpf i) as [b|] eqn:Eb.
  { intros [= <- <- <-]. by rewrite Eb. }
  unfold pl_tracks in Ht. rewrite Eb in Ht. destruct Ht as [Ha ->].
  destruct (load_and_attach _ _ _ _ w) as [[b|e] w2] eqn:El; intros [= <- <- <-].
  - apply load_and_attach_view in El. split_and!; [|done..]. unfold pl_tracks. cbn.
    rewrite El, Ha. by split.
  - split_and!; [|done..]. unfold pl_tracks. by rewrite Eb.
Qed.

Lemma pktloss_call_tracks c (i : XdpPacketLossInjector B) (w : W) count r i' w' :
  pl_tracks i w count → call_injector c i w = (r, i', w') →
  pl_tracks i' w' count ∧ pl_drop_every_n i' = pl_drop_every_n i ∧
  pl_armed i' = (if is_ok r then match c with CallArm _ => true | CallDisarm => false end else pl_armed i).
Proof.
  intros Ht. destruct c as [ctx|]; cbn [call_injector fi_arm fi_disarm pktloss_injector].
  - unfold pktloss_arm. destruct (pktloss_ensure_loaded i w) as [[r1 i1] w1] eqn:El.
    destruct (pktloss_ensure_loaded_tracks _ _ _ _ _ _ Ht El) as (Ht1 & Ha & Hn & Hb).
    destruct r1 as [b|e]; [|intros [= <- <- <-]; by rewrite Ha].
    destruct (set_u32_map b _ _ _ w1) as [[[]|e] w2] eqn:Es; apply set_u32_map_view in Es;
      intros [= <- <- <-]; unfold pl_tracks in Ht1 |- *; rewrite Hb in Ht1 |- *; destruct Ht1 as [Hd Hc].
    + cbn. rewrite Es. cbn. by simplify_map_eq.
    + rewrite Es. by split_and!.
  - unfold pktloss_disarm. unfold pl_tracks in Ht. destruct (pl_bpf i) as [b|] eqn:Eb.
    2:{ intros [= <- <- <-]. destruct Ht as [Ha ->]. unfold pl_tracks. by rewrite ?Ha. }
    destruct Ht as [Hd Hc].
    destruct (set_u32_map b _ _ _ w) as [[[]|e] w2] eqn:Es; apply set_u32_map_view in Es;
      intros [= <- <- <-]; unfold pl_tracks; cbn; rewrite ?Eb, Es.
    + cbn. by simplify_map_eq.
    + by split_and!.
Qed.

End views.

(* ------------------------------------------------------------------ *)
(** * Lemmas: what an IPv6 packet says *)

Definition v6_saddr (ip : list byte) : list byte := take 16 (drop 8 ip).
Definition v6_nexthdr (ip : list byte) : Z := default 0 (ld8 ip 6).

(** The transport protocol and header, behind at most one Fragment header; a later
    fragment has none. *)
Definition v6_transport (ip : list byte) : option (Z * list byte) :=
  if decide (v6_nexthdr ip = IPPROTO_FRAGMENT) then
    if (48 <=? length ip)%nat && (Z.shiftr (default 0 (ld16be ip 42)) 3 =? 0)
    then Some (default 0 (ld8 ip 40), drop 48 ip) else None
  else Some (v6_nexthdr ip, drop 40 ip).

(** The packet is from the peer: a complete IPv6 header with the peer's address, and,
    when a port is configured, a UDP or TCP header with that source port. *)
Definition v6_from_peer (octets : list byte) (port : Z) (ip : list byte) : Prop :=
  (40 ≤ length ip)%nat ∧ v6_saddr ip = octets ∧
  (port = 0 ∨ ∃ proto l4, v6_transport ip = Some (proto, l4) ∧ l4_source_port proto l4 = Some port).

Lemma ip6_matches_spec frame want off n i :
  (off + i + n ≤ length frame)%nat → (i + n ≤ length want)%nat →
  ip6_matches frame want off n i =
  Some (bool_decide (take n (drop (off + i) frame) = take n (drop i want))).
Proof.
  revert i. induction n as [|n IH]; intros i Hf Hw; [done|]. cbn [ip6_matches].
  destruct (lookup_lt_is_Some_2 frame (off + i)) as [a Ha]; [lia|].
  destruct (lookup_lt_is_Some_2 want i) as [b Hb]; [lia|]. rewrite Ha, Hb. cbn [mbind option_bind].
  rewrite (drop_S _ _ _ Ha), (drop_S _ _ _ Hb). cbn [take].
  case_decide as Hab.
  - rewrite IH by lia. f_equal. subst b. rewrite Nat.add_succ_r. apply bool_decide_ext. split; [by intros ->|by intros [= ?]].
  - f_equal. symmetry. apply bool_decide_eq_false_2. congruence.
Qed.

Lemma port_verdict port sp :
  u16? port → port ≠ 0 →
  (match sp with
   | None => Some (Verdict XDP_PASS)
   | Some s => Some (ComparePort s port)
   end ≫= λ r, match r with
               | Verdict v => Some v
               | ComparePort s want => Some (if s =? wrap 16 want then XDP_DROP else XDP_PASS)
               end) = Some XDP_DROP ↔ sp = Some port.
Proof.
  intros Hp Hn. destruct sp as [s|]; cbn; [|by split]. rewrite wrap_id by done.
  destruct (Z.eqb_spec s port); naive_solver.
Qed.

Lemma l3_verdict_v6 ms ip octets port :
  byte_maps ms !! "partition_src_ip6" = Some octets → length octets = 16%nat →
  num_maps ms !! "partition_src_port" = Some port → u16? port →
  l3_verdict ms ETH_P_IPV6 ip = Some XDP_DROP ↔ v6_from_peer octets port ip.
Proof.
  intros Hip Ho Hport Hpr. unfold l3_verdict. change (ETH_P_IPV6 =? ETH_P_IP) with false.
  rewrite Z.eqb_refl. unfold partition_v6, v6_from_peer, bpf_map_lookup_elem. rewrite Hip, Hport. unfold past_end.
  destruct (Nat.ltb_spec (length ip) (0 + 40)) as [?|Hlen]; [split; [done|intros (? & _); lia]|].
  rewrite ip6_matches_spec by lia. cbn [mbind option_bind]. rewrite drop_0. change (0 + 8 + 0)%nat with 8%nat.
  rewrite (take_ge octets) by lia. fold (v6_saddr ip). case_bool_decide as Hs; cbn [negb].
  2:{ split; [done|]. intros (_ & ? & _). done. }
  destruct (Z.eqb_spec port 0) as [->|Hp0]; [split; [intros _; split_and!; [lia|done|by left]|done]|].
  change (0 + 6)%nat with 6%nat. change (0 + 40)%nat with 40%nat. unfold v6_transport, v6_nexthdr.
  destruct (ld8_safe ip 6) as [nh Hnh]; [lia|]. rewrite Hnh. cbn [mbind option_bind from_option id].
  assert (Hfin : ∀ nh' l4, (l4 ≤ length ip)%nat →
    (port0 ← extract_src_port ip l4 nh';
     match port0 with None => Some (Verdict XDP_PASS) | Some s => Some (ComparePort s port) end) =
    match l4_source_port nh' (drop l4 ip) with
    | None => Some (Verdict XDP_PASS) | Some s => Some (ComparePort s port) end).
  { intros nh' l4 Hl4. by rewrite extract_src_port_spec. }
  destruct (Z.eqb_spec nh IPPROTO_FRAGMENT) as [Ef|Ef];
    [rewrite decide_True by done|rewrite decide_False by done].
  - destruct (Nat.ltb_spec (length ip) (40 + 8)) as [?|H8].
    { rewrite (proj2 (Nat.leb_gt _ _)) by lia. cbn. split; [done|]. intros (_ & _ & [?|(? & ? & ? & _)]); done. }
    rewrite (proj2 (Nat.leb_le _ _)) by lia. change (40 + 2)%nat with 42%nat.
    destruct (ld16be_safe ip 42) as [fo ->]; [lia|]. cbn [mbind option_bind from_option id andb].
    destruct (Z.shiftr fo 3 =? 0); cbn [negb andb].
    2:{ cbn. split; [done|]. intros (_ & _ & [?|(? & ? & ? & _)]); done. }
    destruct (ld8_safe ip 40) as [nh2 ->]; [lia|]. cbn [mbind option_bind from_option id].
    rewrite Hfin by lia. rewrite port_verdict by done. naive_solver lia.
  - cbn [mbind option_bind]. rewrite Hfin by lia. rewrite port_verdict by done. naive_solver lia.
Qed.

(** The packet is from the peer that was named. *)
Definition from_named (ip : IpAddr) (port h_proto : Z) (l3 : list byte) : Prop :=
  match ip with
  | V4 octets => h_proto = ETH_P_IP ∧ v4_from_peer octets port l3
  | V6 octets => h_proto = ETH_P_IPV6 ∧ v6_from_peer octets port l3
  end.

(** The packet is from the unspecified address, 0.0.0.0 or ::, of a family in which no peer
    was named: the address map of that family is never written and stays zero. *)
Definition from_unspecified (peer : option IpAddr) (port h_proto : Z) (l3 : list byte) : Prop :=
  match peer with Some (V4 _) => False | _ => h_proto = ETH_P_IP ∧ v4_from_peer (replicate 4 x00) port l3 end ∨
  match peer with Some (V6 _) => False | _ => h_proto = ETH_P_IPV6 ∧ v6_from_peer (replicate 16 x00) port l3 end.

(** What a partition cuts, of all frames: those that carry, under up to two tags, a packet
    from the peer, or from the unspecified address of a family it names no peer in. *)
Definition is_cut (peer : option IpAddr) (port : Z) (frame : list byte) : Prop :=
  ∃ h_proto l3, carries frame h_proto l3 ∧
    ((∃ ip, peer = Some ip ∧ from_named ip port h_proto l3) ∨ from_unspecified peer port h_proto l3).

(** How far the configuration of a loaded object got. *)
Inductive partition_setting := Configured | AddressOnly | Unconfigured.
Definition set_peer (x : partition_setting) (ip : IpAddr) : option IpAddr :=
  match x with Unconfigured => None | _ => Some ip end.
Definition set_port (x : partition_setting) (port : Z) : Z := match x with Configured => port | _ => 0 end.

Definition addr4 (peer : option IpAddr) : list byte := match peer with Some (V4 o) => o | _ => replicate 4 x00 end.
Definition addr6 (peer : option IpAddr) : list byte := match peer with Some (V6 o) => o | _ => replicate 16 x00 end.

(** The maps of a partition. *)
Definition partition_configured (peer : option IpAddr) (port : Z) (ms : bpf_maps) : Prop :=
  num_maps ms !! "partition_src_ip" = Some (u32_from_ne_bytes (addr4 peer)) ∧
  byte_maps ms !! "partition_src_ip6" = Some (addr6 peer) ∧
  num_maps ms !! "partition_src_port" = Some port.

Lemma addr_lengths peer :
  (∀ ip, peer = Some ip → ip_typed ip) → length (addr4 peer) = 4%nat ∧ length (addr6 peer) = 16%nat.
Proof. intros Hp. destruct peer as [[o|o]|]; [specialize (Hp _ eq_refl); by split..|by split]. Qed.

Lemma l3_verdict_cut ms peer port h_proto l3 :
  (∀ ip, peer = Some ip → ip_typed ip) → u16? port → partition_configured peer port ms →
  l3_verdict ms h_proto l3 = Some XDP_DROP ↔
  (∃ ip, peer = Some ip ∧ from_named ip port h_proto l3) ∨ from_unspecified peer port h_proto l3.
Proof.
  intros Ht Hp (H4 & H6 & Hport). destruct (addr_lengths peer Ht) as [L4 L6]. unfold from_unspecified.
  destruct (decide (h_proto = ETH_P_IP)) as [->|Hn4].
  { rewrite (l3_verdict_v4 ms l3 (addr4 peer) port) by done. destruct peer as [[o|o]|]; cbn; naive_solver. }
  destruct (decide (h_proto = ETH_P_IPV6)) as [->|Hn6].
  { rewrite (l3_verdict_v6 ms l3 (addr6 peer) port) by done. destruct peer as [[o|o]|]; cbn; naive_solver. }
  unfold l3_verdict. rewrite (proj2 (Z.eqb_neq h_proto _)), (proj2 (Z.eqb_neq h_proto _)) by done.
  destruct peer as [[o|o]|]; cbn; naive_solver.
Qed.

(* ------------------------------------------------------------------ *)
(** * Lemmas: corruption and partition calls *)

Section calls.
Context {W B : Type} `{AyaLoadLaws W B}.

(** The two writes of a configuration: both done, or the object keeps a zero where the
    second one would have gone. *)
Lemma io_bind_writes {A A'} (x : io W A) (f : A → io W A') (w : W) r w' :
  (x ≫= f) w = (r, w') →
  (∃ e, x w = (Err e, w') ∧ r = Err e) ∨ (∃ a w1, x w = (Ok a, w1) ∧ f a w1 = (r, w')).
Proof.
  unfold mbind, io_bind. destruct (x w) as [[a|e] w1]; [|intros [= <- <-]; left; by eexists].
  intros ?. right. by eexists _, _.
Qed.

Definition corrupt_configured (i : XdpCorruptionInjector B) (conf : bool) (ms : bpf_maps) : Prop :=
  if conf then num_maps ms !! "corrupt_offset" = Some (cr_offset i) ∧ num_maps ms !! "corrupt_mask" = Some (cr_mask i)
  else is_Some (num_maps ms !! "corrupt_offset") ∧ num_maps ms !! "corrupt_mask" = Some 0.

Definition cr_tracks (i : XdpCorruptionInjector B) (w : W) (count : Z) (conf : bool) : Prop :=
  match cr_bpf i with
  | None => cr_armed i = false ∧ count = 0
  | Some b =>
      num_maps (bpf_view b w) !! "corrupt_every_n" = Some (if cr_armed i then cr_every_n i else 0) ∧
      num_maps (bpf_view b w) !! "packet_count" = Some count ∧ corrupt_configured i conf (bpf_view b w)
  end.

Definition cr_same (i i' : XdpCorruptionInjector B) : Prop :=
  cr_every_n i' = cr_every_n i ∧ cr_offset i' = cr_offset i ∧ cr_mask i' = cr_mask i.

Lemma corrupt_ensure_loaded_tracks i w count conf r i1 w1 :
  cr_tracks i w count conf → corrupt_ensure_loaded i w = (r, i1, w1) →
  ∃ conf', cr_tracks i1 w1 count conf' ∧ cr_same i i1 ∧ cr_armed i1 = cr_armed i ∧
    match cr_bpf i with Some _ => conf' = conf | None => is_ok r = true → conf' = true end ∧
    match r with Ok b => cr_bpf i1 = Some b | Err _ => True end.
Proof.
  intros Ht. unfold corrupt_ensure_loaded. destruct (cr_bpf i) as [b|] eqn:Eb.
  { intros [= <- <- <-]. exists conf. by rewrite Eb. }
  unfold cr_tracks in Ht. rewrite Eb in Ht. destruct Ht as [Ha ->].
  destruct (load_and_attach _ _ _ _ w) as [[b|e] w2] eqn:El.
  2:{ intros [= <- <- <-]. exists true. unfold cr_tracks. by rewrite Eb. }
  apply load_and_attach_view in El.
  match goal with |- context [(?x ≫= ?f) w2] => destruct ((x ≫= f) w2) as [r2 w3] eqn:Ew end.
  apply io_bind_writes in Ew as [(e & Eo & ->)|([] & w4 & Eo & Em)].
  - apply set_u32_map_view in Eo. intros [= <- <- <-]. exists false.
    unfold cr_tracks, corrupt_configured. cbn. rewrite Eo, El, Ha. split_and!; (done || by eexists).
  - apply set_u32_map_view in Eo, Em. destruct r2 as [[]|e]; intros [= <- <- <-]; [exists true|exists false];
      unfold cr_tracks, corrupt_configured; cbn; rewrite Em, ?Eo, El, Ha; split_and!; (done || by eexists).
Qed.

Lemma corrupt_call_tracks c (i : XdpCorruptionInjector B) (w : W) count conf r i' w' :
  cr_tracks i w count conf → call_injector c i w = (r, i', w') →
  ∃ conf', cr_tracks i' w' count conf' ∧ cr_same i i' ∧
    cr_armed i' = (if is_ok r then match c with CallArm _ => true | CallDisarm => false end else cr_armed i) ∧
    (is_Some (cr_bpf i) → is_Some (cr_bpf i') ∧ conf' = conf) ∧
    (cr_bpf i = None → c = CallDisarm → cr_bpf i' = None) ∧
    (is_ok r = true → fi_is_armed i' = true → is_Some (cr_bpf i') ∧ (cr_bpf i = None → conf' = true)).
Proof.
  intros Ht. destruct c as [ctx|]; cbn [call_injector fi_arm fi_disarm fi_is_armed corrupt_injector].
  - unfold corrupt_arm. destruct (corrupt_ensure_loaded i w) as [[r1 i1] w1] eqn:El.
    destruct (corrupt_ensure_loaded_tracks _ _ _ _ _ _ _ Ht El) as (conf' & Ht1 & Hs & Ha & Hc & Hb).
    assert (is_Some (cr_bpf i) → is_Some (cr_bpf i1) ∧ conf' = conf) as Hsome.
    { intros [b Eb]. rewrite Eb in Hc. unfold corrupt_ensure_loaded in El. rewrite Eb in El.
      injection El as _ <- _. rewrite Eb. split; [by eexists|done]. }
    destruct r1 as [b|e]; [|intros [= <- <- <-]; exists conf'; by rewrite Ha].
    destruct (set_u32_map b _ _ _ w1) as [[[]|e] w2] eqn:Es; apply set_u32_map_view in Es;
      intros [= <- <- <-]; exists conf'.
    + unfold cr_tracks, corrupt_configured in Ht1 |- *. rewrite Hb in Ht1, Hsome |- *. cbn. rewrite Es. cbn.
      destruct Ht1 as (Hd & Hc' & Hcf). refine (conj _ (conj Hs (conj eq_refl (conj Hsome (conj _ _))))); [|done|].
      * simplify_map_eq. split_and!; [done|done|]. by destruct conf'; simplify_map_eq.
      * intros _ _. split; [by eexists|]. intros Eb. rewrite Eb in Hc. by apply Hc.
    + refine (conj _ (conj Hs (conj Ha (conj Hsome (conj _ _))))); [|done..].
      unfold cr_tracks in *. rewrite Hb in *. by rewrite Es.
  - unfold corrupt_disarm. destruct (cr_bpf i) as [b|] eqn:Eb.
    2:{ intros [= <- <- <-]. unfold cr_tracks in Ht. rewrite Eb in Ht. destruct Ht as [Ha ->].
        exists true. unfold cr_tracks. cbn. split_and!; try done. }
    unfold cr_tracks in Ht. rewrite Eb in Ht. destruct Ht as (Hd & Hc & Hcf).
    destruct (set_u32_map b _ _ _ w) as [[[]|e] w2] eqn:Es; apply set_u32_map_view in Es;
      intros [= <- <- <-]; exists conf; unfold cr_tracks, corrupt_configured in *; cbn; rewrite ?Eb, ?Es.
    + cbn. simplify_map_eq. split_and!; try done.
    + split_and!; try done; by eexists.
Qed.


(** Partition. *)
Definition pt_tracks (i : XdpPartitionInjector B) (w : W) (x : partition_setting) : Prop :=
  match pt_bpf i with
  | None => pt_armed i = false
  | Some b =>
      num_maps (bpf_view b w) !! "partition_enabled" = Some (if pt_armed i then 1 else 0) ∧
      partition_configured (set_peer x (pt_src_ip i)) (set_port x (pt_src_port i)) (bpf_view b w)
  end.

Definition pt_same (i i' : XdpPartitionInjector B) : Prop :=
  pt_src_ip i' = pt_src_ip i ∧ pt_src_port i' = pt_src_port i.

Lemma write_address_view b id ip (w : W) r w' :
  match ip with
  | V4 octets => set_u32_map b id "partition_src_ip" (u32_from_ne_bytes octets)
  | V6 octets => set_bytes16_map b id "partition_src_ip6" octets
  end w = (r, w') →
  bpf_view b w' =
  match r with
  | Ok _ => match ip with
            | V4 octets => set_num "partition_src_ip" (u32_from_ne_bytes octets) (bpf_view b w)
            | V6 octets => set_bytes "partition_src_ip6" octets (bpf_view b w)
            end
  | Err _ => bpf_view b w
  end.
Proof. destruct ip; [apply set_u32_map_view|apply set_bytes16_map_view]. Qed.

Lemma partition_ensure_loaded_tracks i w x r i1 w1 :
  pt_tracks i w x → partition_ensure_loaded i w = (r, i1, w1) →
  ∃ x', pt_tracks i1 w1 x' ∧ pt_same i i1 ∧ pt_armed i1 = pt_armed i ∧
    match pt_bpf i with Some _ => x' = x | None => is_ok r = true → x' = Configured end ∧
    match r with Ok b => pt_bpf i1 = Some b | Err _ => True end.
Proof.
  intros Ht. unfold partition_ensure_loaded. destruct (pt_bpf i) as [b|] eqn:Eb.
  { intros [= <- <- <-]. exists x. by rewrite Eb. }
  unfold pt_tracks in Ht. rewrite Eb in Ht.
  destruct (load_and_attach _ _ _ _ w) as [[b|e] w2] eqn:El.
  2:{ intros [= <- <- <-]. exists Configured. unfold pt_tracks. by rewrite Eb. }
  apply load_and_attach_view in El.
  match goal with |- context [(?x ≫= ?f) w2] => destruct ((x ≫= f) w2) as [r2 w3] eqn:Ew end.
  apply io_bind_writes in Ew as [(e & Eo & ->)|([] & w4 & Eo & Em)].
  - apply write_address_view in Eo. intros [= <- <- <-]. exists Unconfigured.
    unfold pt_tracks. cbn. rewrite Eo, El, Ht. by split_and!.
  - apply write_address_view in Eo. apply set_u32_map_view in Em.
    destruct r2 as [[]|e]; intros [= <- <- <-]; [exists Configured|exists AddressOnly]; unfold pt_tracks; cbn;
      rewrite Em, ?Eo, El, Ht; (split; [|done]); (split; [by destruct (pt_src_ip i)|]);
      unfold partition_configured; by destruct (pt_src_ip i).
Qed.

Lemma partition_configured_enable peer port v ms :
  partition_configured peer port ms → partition_configured peer port (set_num "partition_enabled" v ms).
Proof. intros (? & ? & ?). unfold partition_configured. cbn. by simplify_map_eq. Qed.

Lemma partition_call_tracks c (i : XdpPartitionInjector B) (w : W) x r i' w' :
  pt_tracks i w x → call_injector c i w = (r, i', w') →
  ∃ x', pt_tracks i' w' x' ∧ pt_same i i' ∧
    pt_armed i' = (if is_ok r then match c with CallArm _ => true | CallDisarm => false end else pt_armed i) ∧
    (is_Some (pt_bpf i) → is_Some (pt_bpf i') ∧ x' = x) ∧
    (pt_bpf i = None → c = CallDisarm → pt_bpf i' = None) ∧
    (is_ok r = true → fi_is_armed i' = true → is_Some (pt_bpf i') ∧ (pt_bpf i = None → x' = Configured)).
Proof.
  intros Ht. destruct c as [ctx|]; cbn [call_injector fi_arm fi_disarm fi_is_armed partition_injector].
  - unfold partition_arm. destruct (partition_ensure_loaded i w) as [[r1 i1] w1] eqn:El.
    destruct (partition_ensure_loaded_tracks _ _ _ _ _ _ Ht El) as (x' & Ht1 & Hs & Ha & Hc & Hb).
    assert (is_Some (pt_bpf i) → is_Some (pt_bpf i1) ∧ x' = x) as Hsome.
    { intros [b Eb]. rewrite Eb in Hc. unfold partition_ensure_loaded in El. rewrite Eb in El.
      injection El as _ <- _. rewrite Eb. split; [by eexists|done]. }
    destruct r1 as [b|e]; [|intros [= <- <- <-]; exists x'; by rewrite Ha].
    destruct (set_u32_map b _ _ _ w1) as [[[]|e] w2] eqn:Es; apply set_u32_map_view in Es;
      intros [= <- <- <-]; exists x'.
    + unfold pt_tracks in Ht1 |- *. rewrite Hb in Ht1, Hsome |- *. cbn. rewrite Es. cbn.
      destruct Ht1 as (Hd & Hcf). refine (conj _ (conj Hs (conj eq_refl (conj Hsome (conj _ _))))); [|done|].
      * split; [by simplify_map_eq|]. by apply partition_configured_enable.
      * intros _ _. split; [by eexists|]. intros Eb. rewrite Eb in Hc. by apply Hc.
    + refine (conj _ (conj Hs (conj Ha (conj Hsome (conj _ _))))); [|done..].
      unfold pt_tracks in *. rewrite Hb in *. by rewrite Es.
  - unfold partition_disarm. destruct (pt_bpf i) as [b|] eqn:Eb.
    2:{ intros [= <- <- <-]. exists Configured. by split_and!. }
    unfold pt_tracks in Ht. rewrite Eb in Ht. destruct Ht as (Hd & Hcf).
    destruct (set_u32_map b _ _ _ w) as [[[]|e] w2] eqn:Es; apply set_u32_map_view in Es;
      intros [= <- <- <-]; exists x; unfold pt_tracks; cbn; rewrite ?Eb, ?Es.
    + cbn. split_and!; try done; [by simplify_map_eq|]. by apply partition_configured_enable.
    + split_and!; try done; by eexists.
Qed.

End calls.

(* ------------------------------------------------------------------ *)
(** * Lemmas: what a frame does *)

Lemma pktloss_program_step ms n (armed : bool) count frame v frame' ms' :
  num_maps ms !! "drop_every_n" = Some (if armed then n else 0) →
  num_maps ms !! "packet_count" = Some count →
  pktloss_program ms frame = (v, frame', ms') →
  let s := {| ct_armed := armed; ct_count := count |} in
  v = (if ct_hit n s then XDP_DROP else XDP_PASS) ∧ frame' = frame ∧
  num_maps ms' !! "drop_every_n" = Some (if armed then n else 0) ∧
  num_maps ms' !! "packet_count" = Some (ct_count (ct_next n s)).
Proof.
  intros Hn Hc. unfold pktloss_program, xdp_pktloss, bpf_map_lookup_elem, ct_hit, ct_next. rewrite Hn, Hc.
  destruct armed; cbn; [|intros [= <- <- <-]; by split_and!].
  destruct (Z.eqb_spec n 0); cbn; intros [= <- <- <-]; [by split_and!; subst|]. cbn. by simplify_map_eq.
Qed.

Lemma alter_beyond {A} (f : A → A) k (l : list A) : (length l ≤ k)%nat → alter f k l = l.
Proof.
  intros Hk. apply list_eq. intros j. destruct (decide (j = k)) as [->|].
  - rewrite list_lookup_alter_eq. by rewrite lookup_ge_None_2.
  - by rewrite list_lookup_alter_ne.
Qed.

Lemma corrupt_program_step ms n (armed : bool) count offset mask frame v frame' ms' :
  num_maps ms !! "corrupt_every_n" = Some (if armed then n else 0) →
  num_maps ms !! "packet_count" = Some count →
  num_maps ms !! "corrupt_offset" = Some offset → num_maps ms !! "corrupt_mask" = Some mask →
  corrupt_program ms frame = (v, frame', ms') →
  let s := {| ct_armed := armed; ct_count := count |} in
  v = XDP_PASS ∧
  frame' = (if ct_hit n s then alter (xor_byte mask) (Z.to_nat (Z.land offset 4095)) frame else frame) ∧
  num_maps ms' = (if armed && negb (n =? 0)
                  then <["packet_count" := ct_count (ct_next n s)]> (num_maps ms) else num_maps ms).
Proof.
  intros Hn Hc Ho Hm. unfold corrupt_program, xdp_corrupt, bpf_map_lookup_elem, ct_hit, ct_next. rewrite Hn, Hc.
  destruct armed; cbn [andb ct_armed ct_count]; [|intros [= <- <- <-]; by split_and!].
  destruct (Z.eqb_spec n 0); cbn [negb andb]; [intros [= <- <- <-]; by split_and!|].
  destruct (wrap 64 (count + 1) mod n =? 0); cbn [negb]; [|intros [= <- <- <-]; by split_and!].
  cbn [num_maps set_num]. rewrite !lookup_insert_ne, Ho, Hm by done.
  destruct (Nat.ltb_spec (length frame) (Z.to_nat (Z.land offset 4095) + 1)).
  - intros [= <- <- <-]. split_and!; try done. symmetry. apply alter_beyond. lia.
  - destruct (lookup_lt_is_Some_2 frame (Z.to_nat (Z.land offset 4095))) as [b Hb]; [lia|].
    rewrite Hb. cbn [mbind option_bind default from_option id]. rewrite (insert_alter _ _ _ _ Hb).
    intros [= <- <- <-]. by split_and!.
Qed.

(** ** Partition frames *)

Definition partition_spec (peer : option IpAddr) (port : Z) : net_spec bool := {|
  sp_call := switch;
  sp_frame armed frame v frame' := frame' = frame ∧ (v = XDP_DROP ↔ armed = true ∧ is_cut peer port frame);
  sp_next armed := armed
|}.

Lemma partition_program_off ms frame :
  num_maps ms !! "partition_enabled" = Some 0 → partition_program ms frame = (XDP_PASS, frame, ms).
Proof. intros He. unfold partition_program, xdp_partition, bpf_map_lookup_elem. by rewrite He. Qed.

Lemma partition_program_on peer port ms frame v frame' ms' :
  (∀ ip, peer = Some ip → ip_typed ip) → u16? port → partition_configured peer port ms →
  num_maps ms !! "partition_enabled" = Some 1 →
  partition_program ms frame = (v, frame', ms') →
  ms' = ms ∧ frame' = frame ∧ (v = XDP_DROP ↔ is_cut peer port frame).
Proof.
  intros Hip Hp Hc He [= <- <- <-]. split_and!; [done..|].
  assert (Hlen : ∀ w, byte_maps ms !! "partition_src_ip6" = Some w → length w = 16%nat).
  { intros w Hw. destruct Hc as (_ & Hc & _). rewrite Hw in Hc. injection Hc as ->. by apply addr_lengths. }
  destruct (xdp_partition_total ms frame Hlen) as [r Hr]. rewrite Hr. cbn [default from_option id].
  transitivity (xdp_partition ms frame = Some XDP_DROP); [rewrite Hr; naive_solver|].
  rewrite (xdp_partition_drops ms 1) by done. unfold is_cut.
  by setoid_rewrite (λ h l, l3_verdict_cut ms peer port h l Hip Hp Hc).
Qed.

(** ** Types *)

Lemma maps_typed_set_num name v ms :
  maps_typed ms → in_width (map_width name) v → maps_typed (set_num name v ms).
Proof. intros [Hn Hb] Hv. split; [by apply map_Forall_insert_2|done]. Qed.

Lemma maps_typed_set_bytes name b ms :
  maps_typed ms → length b = 16%nat → maps_typed (set_bytes name b ms).
Proof. intros [Hn Hb] Hv. split; [done|by apply map_Forall_insert_2]. Qed.

Lemma object_maps_typed obj : maps_typed (object_maps obj).
Proof.
  unfold object_maps. repeat case_decide; apply (bool_decide_unpack _); by vm_compute.
Qed.

Lemma pktloss_program_typed ms frame :
  maps_typed ms → maps_typed (pktloss_program ms frame).2.
Proof.
  intros Ht. unfold pktloss_program, xdp_pktloss. repeat case_match; simplify_eq/=; try done;
    (apply maps_typed_set_num; [done|]; by apply wrap_range).
Qed.

Lemma corrupt_program_typed ms frame :
  maps_typed ms → maps_typed (corrupt_program ms frame).2.
Proof.
  intros Ht. unfold corrupt_program, xdp_corrupt. repeat case_match; try done;
    try (apply maps_typed_set_num; [done|]; by apply wrap_range).
  destruct (frame !! _); [|done]. apply maps_typed_set_num; [done|]. by apply wrap_range.
Qed.

Lemma u32_from_ne_bytes_range o : u32? (u32_from_ne_bytes o).
Proof.
  unfold u32_from_ne_bytes. destruct o as [|b0 [|b1 [|b2 [|b3 [|? ?]]]]]; try (by split).
  pose proof (byte_val_range b0). pose proof (byte_val_range b1).
  pose proof (byte_val_range b2). pose proof (byte_val_range b3). width.
Qed.

(* ------------------------------------------------------------------ *)
(** * Properties *)

Section properties.
Context {W B : Type} `{AyaLoadLaws W B, !XdpPath W B}.

Lemma pktloss_transparent id iface n es (w : W) :
  spec_allows transparent_when_disarmed false
    (net_run pktloss_program (pl_bpf (B := B)) es (XdpPacketLossInjector_new id iface n) w).1.1.
Proof.
  destruct (net_run _ _ _ _ _) as [[os i'] w'] eqn:E. cbn.
  eapply (spec_simulation _ _ transparent_when_disarmed (λ i w armed, armed = pl_armed i ∧
    ∃ count, pl_tracks i w count)); [| | | |exact E].
  - intros c i0 w0 s r i1 w1 (-> & count & Ht) Hc.
    destruct (pktloss_call_tracks _ _ _ _ _ _ _ Ht Hc) as (Ht1 & Hn1 & Ha1). split; [done|by eexists].
  - intros frame i0 w0 armed b v frame' w1 (-> & count & Ht) Hb Hr. apply run_program_view in Hr.
    unfold pl_tracks in *. rewrite Hb in *. destruct Ht as [Hd Hc].
    destruct (pktloss_program_step _ _ _ _ _ _ _ _ Hd Hc Hr) as (Hv & Hf & Hd' & Hc').
    split; [|split; [done|by eexists]]. intros Ha. by rewrite Ha in Hv.
  - intros frame i0 w0 s Hs Hb. by split.
  - split; [done|]. by exists 0.
Qed.

Lemma corruption_transparent id iface n offset mask es (w : W) :
  spec_allows transparent_when_disarmed false
    (net_run corrupt_program (cr_bpf (B := B)) es (XdpCorruptionInjector_new id iface n offset mask) w).1.1.
Proof.
  destruct (net_run _ _ _ _ _) as [[os i'] w'] eqn:E. cbn.
  eapply (spec_simulation _ _ transparent_when_disarmed (λ i w armed, armed = cr_armed i ∧
    ∃ count conf, cr_tracks i w count conf)); [| | | |exact E].
  - intros c i0 w0 s r i1 w1 (-> & count & conf & Ht) Hc.
    destruct (corrupt_call_tracks _ _ _ _ _ _ _ _ Ht Hc) as (conf' & Ht1 & _ & Ha1 & _).
    split; [done|by eexists _, _].
  - intros frame i0 w0 armed b v frame' w1 (-> & count & conf & Ht) Hb Hr. apply run_program_view in Hr.
    unfold cr_tracks, corrupt_configured in *. rewrite Hb in *. destruct Ht as (Hd & Hc & Hcf).
    assert (∃ o m, num_maps (bpf_view b w0) !! "corrupt_offset" = Some o ∧
                   num_maps (bpf_view b w0) !! "corrupt_mask" = Some m) as (o & m & Ho & Hm)
      by (destruct conf; [by destruct Hcf; eexists _, _|destruct Hcf as [[o Ho] Hm]; by eexists _, _]).
    destruct (corrupt_program_step _ _ _ _ _ _ _ _ _ _ Hd Hc Ho Hm Hr) as (Hv & Hf & Hms).
    split; [intros Ha; by rewrite Ha in Hf|]. split; [done|]. rewrite Hms.
    exists (ct_count (ct_next (cr_every_n i0) {| ct_armed := cr_armed i0; ct_count := count |})), conf.
    unfold ct_next. cbn [ct_armed ct_count]. destruct (_ && _); cbn [ct_armed ct_count]; [|done].
    destruct conf; destruct Hcf; simplify_map_eq; split_and!; try done; by eexists.
  - intros frame i0 w0 s Hs Hb. by split.
  - split; [done|]. by exists 0, true.
Qed.

Lemma partition_transparent id iface ip port es (w : W) :
  spec_allows transparent_when_disarmed false
    (net_run partition_program (pt_bpf (B := B)) es (XdpPartitionInjector_new id iface ip port) w).1.1.
Proof.
  destruct (net_run _ _ _ _ _) as [[os i'] w'] eqn:E. cbn.
  eapply (spec_simulation _ _ transparent_when_disarmed (λ i w armed, armed = pt_armed i ∧
    ∃ conf, pt_tracks i w conf)); [| | | |exact E].
  - intros c i0 w0 s r i1 w1 (-> & conf & Ht) Hc.
    destruct (partition_call_tracks _ _ _ _ _ _ _ Ht Hc) as (conf' & Ht1 & _ & Ha1 & _).
    split; [done|by eexists].
  - intros frame i0 w0 armed b v frame' w1 (-> & conf & Ht) Hb Hr. apply run_program_view in Hr.
    unfold pt_tracks in *. rewrite Hb in *. destruct Ht as (Hd & Hc).
    assert (bpf_view b w1 = bpf_view b w0) as Hms by (by injection Hr).
    split; [|split; [done|exists conf; by rewrite Hms]]. intros Ha. rewrite Ha in Hd.
    rewrite partition_program_off in Hr by done. by injection Hr as <- <- _.
  - intros frame i0 w0 s Hs Hb. by split.
  - split; [done|]. by exists Configured.
Qed.

(** ** Typed injectors keep typed maps *)

Lemma set_u32_map_typed b id name v (w : W) r w' :
  set_u32_map b id name v w = (r, w') → maps_typed (bpf_view b w) → in_width (map_width name) v →
  maps_typed (bpf_view b w').
Proof.
  intros Hs%set_u32_map_view Ht Hv. rewrite Hs. destruct r; [by apply maps_typed_set_num|done].
Qed.

Lemma set_bytes16_map_typed b id name v (w : W) r w' :
  set_bytes16_map b id name v w = (r, w') → maps_typed (bpf_view b w) → length v = 16%nat →
  maps_typed (bpf_view b w').
Proof.
  intros Hs%set_bytes16_map_view Ht Hv. rewrite Hs. destruct r; [by apply maps_typed_set_bytes|done].
Qed.

Lemma load_and_attach_typed id obj prog iface (w : W) b w' :
  load_and_attach id obj prog iface w = (Ok b, w') → maps_typed (bpf_view b w').
Proof. intros ->%load_and_attach_view. apply object_maps_typed. Qed.

Definition typed_state {I} (wt : I → Prop) (loaded : I → option B) (i : I) (w : W) : Prop :=
  wt i ∧ ∀ b, loaded i = Some b → maps_typed (bpf_view b w).

Lemma pktloss_call_typed c (i : XdpPacketLossInjector B) (w : W) r i' w' :
  typed_state pl_typed pl_bpf i w → call_injector c i w = (r, i', w') → typed_state pl_typed pl_bpf i' w'.
Proof.
  intros [Hi Ht]. destruct c as [ctx|]; cbn [call_injector fi_arm fi_disarm pktloss_injector].
  - unfold pktloss_arm. destruct (pktloss_ensure_loaded i w) as [[r1 i1] w1] eqn:El.
    assert (typed_state pl_typed pl_bpf i1 w1 ∧ ∀ b, r1 = Ok b → pl_bpf i1 = Some b) as [[Hi1 Ht1] Hb1].
    { unfold pktloss_ensure_loaded in El. destruct (pl_bpf i) as [b|] eqn:Eb.
      { injection El as <- <- <-. split; [split; [done|by rewrite Eb]|]. by intros ? [= <-]. }
      destruct (load_and_attach _ _ _ _ w) as [[b|e] w2] eqn:Ea; injection El as <- <- <-.
      - split; [split; [done|]|by intros ? [= ->]]. intros ? [= <-]. by eapply load_and_attach_typed.
      - split; [split; [done|]|done]. rewrite Eb. done. }
    destruct r1 as [b|e]; [|intros [= <- <- <-]; by split]. specialize (Hb1 b eq_refl).
    destruct (set_u32_map b _ _ _ w1) as [r2 w2] eqn:Es.
    eapply set_u32_map_typed in Es; [|by apply Ht1|exact Hi1].
    destruct r2; intros [= <- <- <-]; (split; [done|]); cbn; intros ? ?; congruence.
  - unfold pktloss_disarm. destruct (pl_bpf i) as [b|] eqn:Eb; [|intros [= <- <- <-]; by split].
    destruct (set_u32_map b _ _ _ w) as [r2 w2] eqn:Es.
    eapply set_u32_map_typed in Es; [|by apply Ht|by split].
    destruct r2; intros [= <- <- <-]; (split; [done|]); cbn; intros ? ?; congruence.
Qed.

Lemma corrupt_call_typed c (i : XdpCorruptionInjector B) (w : W) r i' w' :
  typed_state cr_typed cr_bpf i w → call_injector c i w = (r, i', w') → typed_state cr_typed cr_bpf i' w'.
Proof.
  intros [Hi Ht]. pose proof Hi as (Hn & Ho & Hm).
  destruct c as [ctx|]; cbn [call_injector fi_arm fi_disarm corrupt_injector].
  - unfold corrupt_arm. destruct (corrupt_ensure_loaded i w) as [[r1 i1] w1] eqn:El.
    assert (typed_state cr_typed cr_bpf i1 w1 ∧ ∀ b, r1 = Ok b → cr_bpf i1 = Some b) as [[Hi1 Ht1] Hb1].
    { unfold corrupt_ensure_loaded in El. destruct (cr_bpf i) as [b|] eqn:Eb.
      { injection El as <- <- <-. split; [split; [done|by rewrite Eb]|]. by intros ? [= <-]. }
      destruct (load_and_attach _ _ _ _ w) as [[b|e] w2] eqn:Ea.
      2:{ injection El as <- <- <-. split; [split; [done|by rewrite Eb]|done]. }
      apply load_and_attach_typed in Ea.
      match type of El with context [(?x ≫= ?f) w2] => destruct ((x ≫= f) w2) as [r3 w3] eqn:Ew end.
      assert (maps_typed (bpf_view b w3)) as Hw3.
      { apply io_bind_writes in Ew as [(e & Eo & ->)|([] & w4 & Eo & Em)];
          (eapply set_u32_map_typed in Eo; [|done|exact Ho]); [done|].
        eapply set_u32_map_typed in Em; [done..|]. change (in_width 32 (cr_mask i)). width. }
      destruct r3; injection El as <- <- <-; (split; [split; [done|by intros ? [= <-]]|by intros ? [= ->]]). }
    destruct r1 as [b|e]; [|intros [= <- <- <-]; by split]. specialize (Hb1 b eq_refl).
    destruct (set_u32_map b _ _ _ w1) as [r2 w2] eqn:Es.
    eapply set_u32_map_typed in Es; [|by apply Ht1|apply Hi1].
    destruct r2; intros [= <- <- <-]; (split; [done|]); cbn; intros ? ?; congruence.
  - unfold corrupt_disarm. destruct (cr_bpf i) as [b|] eqn:Eb; [|intros [= <- <- <-]; by split].
    destruct (set_u32_map b _ _ _ w) as [r2 w2] eqn:Es.
    eapply set_u32_map_typed in Es; [|by apply Ht|by split].
    destruct r2; intros [= <- <- <-]; (split; [done|]); cbn; intros ? ?; congruence.
Qed.

Lemma partition_call_typed c (i : XdpPartitionInjector B) (w : W) r i' w' :
  typed_state pt_typed pt_bpf i w → call_injector c i w = (r, i', w') → typed_state pt_typed pt_bpf i' w'.
Proof.
  intros [Hi Ht]. pose proof Hi as (Hip & Hpo).
  destruct c as [ctx|]; cbn [call_injector fi_arm fi_disarm partition_injector].
  - unfold partition_arm. destruct (partition_ensure_loaded i w) as [[r1 i1] w1] eqn:El.
    assert (typed_state pt_typed pt_bpf i1 w1 ∧ ∀ b, r1 = Ok b → pt_bpf i1 = Some b) as [[Hi1 Ht1] Hb1].
    { unfold partition_ensure_loaded in El. destruct (pt_bpf i) as [b|] eqn:Eb.
      { injection El as <- <- <-. split; [split; [done|by rewrite Eb]|]. by intros ? [= <-]. }
      destruct (load_and_attach _ _ _ _ w) as [[b|e] w2] eqn:Ea.
      2:{ injection El as <- <- <-. split; [split; [done|by rewrite Eb]|done]. }
      apply load_and_attach_typed in Ea.
      match type of El with context [(?x ≫= ?f) w2] => destruct ((x ≫= f) w2) as [r3 w3] eqn:Ew end.
      assert (maps_typed (bpf_view b w3)) as Hw3.
      { assert (Haddr : ∀ r' w', match pt_src_ip i with
            | V4 octets => set_u32_map b (pt_id i) "partition_src_ip" (u32_from_ne_bytes octets)
            | V6 octets => set_bytes16_map b (pt_id i) "partition_src_ip6" octets
            end w2 = (r', w') → maps_typed (bpf_view b w')).
        { intros r' w4 Hw. destruct (pt_src_ip i) as [o|o].
          - eapply set_u32_map_typed in Hw; [done..|]. apply u32_from_ne_bytes_range.
          - by eapply set_bytes16_map_typed in Hw. }
        apply io_bind_writes in Ew as [(e & Eo & ->)|([] & w4 & Eo & Em)]; apply Haddr in Eo; [done|].
        eapply set_u32_map_typed in Em; [done..|]. change (in_width 32 (pt_src_port i)). width. }
      destruct r3; injection El as <- <- <-; (split; [split; [done|by intros ? [= <-]]|by intros ? [= ->]]). }
    destruct r1 as [b|e]; [|intros [= <- <- <-]; by split]. specialize (Hb1 b eq_refl).
    destruct (set_u32_map b _ _ _ w1) as [r2 w2] eqn:Es.
    eapply set_u32_map_typed in Es; [|by apply Ht1|by split].
    destruct r2; intros [= <- <- <-]; (split; [done|]); cbn; intros ? ?; congruence.
  - unfold partition_disarm. destruct (pt_bpf i) as [b|] eqn:Eb; [|intros [= <- <- <-]; by split].
    destruct (set_u32_map b _ _ _ w) as [r2 w2] eqn:Es.
    eapply set_u32_map_typed in Es; [|by apply Ht|by split].
    destruct r2; intros [= <- <- <-]; (split; [done|]); cbn; intros ? ?; congruence.
Qed.

Lemma net_run_typed {I} `{FaultInjector W I} prog (loaded : I → option B) wt es i (w : W) os i' w' :
  (∀ ms frame, maps_typed ms → maps_typed (prog ms frame).2) →
  (∀ c i w r i' w', typed_state wt loaded i w → call_injector c i w = (r, i', w') → typed_state wt loaded i' w') →
  typed_state wt loaded i w → net_run prog loaded es i w = (os, i', w') → typed_state wt loaded i' w'.
Proof.
  intros Hprog Hcall Hi Hr.
  apply (net_run_inv prog loaded (typed_state wt loaded) (λ _, True) es i w os i' w'); [|done..].
  intros [c|frame] j v o j' v' Hj; cbn [net_step].
  - destruct (call_injector c j v) as [[r j1] v1] eqn:Ec. intros [= <- <- <-]. by eauto.
  - destruct (loaded j) as [b|] eqn:Eb; [|by intros [= <- <- <-]].
    destruct (run_program prog b frame v) as [[vd f1] v1] eqn:Ep. intros [= <- <- <-].
    apply run_program_view in Ep. destruct Hj as [Hw Ht]. split; [|done]. split; [done|].
    intros b' Hb'. rewrite Eb in Hb'. injection Hb' as <-.
    specialize (Hprog (bpf_view b v) frame (Ht b Eb)). by rewrite Ep in Hprog.
Qed.

(** The packet-loss fault follows its specification. *)
Lemma pktloss_allowed id iface n (w : W) es :
  spec_allows (loss_spec n) {| ct_armed := false; ct_count := 0 |}
    (net_run pktloss_program (pl_bpf (B := B)) es (XdpPacketLossInjector_new id iface n) w).1.1.
Proof.
  destruct (net_run _ _ _ _ _) as [[os i'] w'] eqn:E. cbn.
  eapply (spec_simulation _ _ (loss_spec n) (λ i w s, pl_drop_every_n i = n ∧ ct_armed s = pl_armed i ∧
    pl_tracks i w (ct_count s))); [| | | |exact E].
  - intros c i0 w0 s r i1 w1 (Hn & Ha & Ht) Hc.
    destruct (pktloss_call_tracks _ _ _ _ _ _ _ Ht Hc) as (Ht1 & Hn1 & Ha1). cbn.
    split_and!; [congruence| |done]. rewrite Ha1. unfold switch. by rewrite Ha.
  - intros frame i0 w0 [armed count] b v frame' w1 (Hn & Ha & Ht) Hb Hr. cbn in Ha, Ht. subst armed n.
    apply run_program_view in Hr. unfold pl_tracks in *. rewrite Hb in *. destruct Ht as [Hd Hc].
    destruct (pktloss_program_step _ _ _ _ _ _ _ _ Hd Hc Hr) as (Hv & Hf & Hd' & Hc').
    split; [by split|]. split_and!; [done| |done|done]. unfold loss_spec, sp_next, ct_next. by destruct (_ && _).
  - intros frame i0 w0 [armed count] (Hn & Ha & Ht) Hb. cbn in Ha, Ht. unfold pl_tracks in Ht |- *. rewrite Hb in Ht |- *.
    destruct Ht as [Ha' ->]. rewrite Ha' in Ha. subst armed. by split_and!.
  - by split_and!.
Qed.

(** C15: the packet-loss fault refines its specification from the moment it is built:
    whatever sequence of arming, disarming and frames the interface sees, and whichever
    loads and map writes fail on the way, the frames dropped are exactly every [n]th of
    those that arrive while the injector is armed, no frame is changed, and while it is
    not armed everything passes. *)
Theorem pktloss_traffic_refines_spec id iface n (w : W) es :
  spec_allows (loss_spec n) {| ct_armed := false; ct_count := 0 |}
    (net_run pktloss_program (pl_bpf (B := B)) es (XdpPacketLossInjector_new id iface n) w).1.1.
Proof. apply pktloss_allowed. Qed.

(** The mask a corruption works with: the one it was built with, or none at all when the
    object was left without one. *)
Definition set_mask (conf : bool) (mask : Z) : Z := if conf then mask else 0.

Lemma corruption_zero_mask_step n offset o count (armed : bool) frame v frame' :
  let s := {| ct_armed := armed; ct_count := count |} in
  sp_frame (corruption_spec n o 0) s frame v frame' → sp_frame (corruption_spec n offset 0) s frame v frame'.
Proof.
  assert (Hid : ∀ k (l : list byte), alter (xor_byte 0) k l = l).
  { intros k l. apply list_alter_id. intros b. unfold xor_byte. by rewrite Z.lxor_0_r, byte_of_val_val. }
  cbn. rewrite !Hid. by destruct (ct_hit _ _).
Qed.

(** The state of a loaded corruption injector beside the specification's. *)
Definition corruption_settled n offset mask (conf : bool) (i : XdpCorruptionInjector B) (w : W) (s : counted) : Prop :=
  (cr_every_n i = n ∧ cr_offset i = offset ∧ cr_mask i = mask) ∧ ct_armed s = cr_armed i ∧
  is_Some (cr_bpf i) ∧ cr_tracks i w (ct_count s) conf.

Definition corruption_unloaded n offset mask (i : XdpCorruptionInjector B) (_ : W) (s : counted) : Prop :=
  (cr_every_n i = n ∧ cr_offset i = offset ∧ cr_mask i = mask) ∧
  cr_bpf i = None ∧ cr_armed i = false ∧ s = {| ct_armed := false; ct_count := 0 |}.

Lemma corruption_settled_call n offset mask conf c i w s r i' w' :
  corruption_settled n offset mask conf i w s → call_injector c i w = (r, i', w') →
  corruption_settled n offset mask conf i' w' (ct_call c (is_ok r) s).
Proof.
  intros ((? & ? & ?) & Ha & Hl & Ht) Hc.
  destruct (corrupt_call_tracks _ _ _ _ _ _ _ _ Ht Hc) as (conf' & Ht' & (? & ? & ?) & Ha' & Hk & _).
  destruct (Hk Hl) as [? ->]. split_and!; try congruence; try done. cbn. unfold switch. by rewrite Ha', Ha.
Qed.

Lemma corruption_settled_frame n offset mask conf frame i w s b v frame' w' :
  corruption_settled n offset mask conf i w s → cr_bpf i = Some b →
  run_program corrupt_program b frame w = (v, frame', w') →
  sp_frame (corruption_spec n offset (set_mask conf mask)) s frame v frame' ∧
  corruption_settled n offset mask conf i w' (ct_next n s).
Proof.
  destruct s as [armed count]. intros ((Hn & Ho & Hm) & Ha & Hl & Ht) Hb Hr. cbn in Ha, Ht. subst armed n offset mask.
  apply run_program_view in Hr. unfold corruption_settled, cr_tracks in *. rewrite Hb in *. destruct Ht as (Hd & Hc & Hcf).
  assert (∃ o, num_maps (bpf_view b w) !! "corrupt_offset" = Some o ∧
      num_maps (bpf_view b w) !! "corrupt_mask" = Some (set_mask conf (cr_mask i)) ∧
      (conf = true → o = cr_offset i)) as (o & Hof & Hma & Hoo).
  { destruct conf; [destruct Hcf; by eexists|]. destruct Hcf as [[o Hof] Hma]. by exists o. }
  destruct (corrupt_program_step _ _ _ _ _ _ _ _ _ _ Hd Hc Hof Hma Hr) as (Hv & Hf & Hms). split.
  - destruct conf; [rewrite <- Hoo by done; by split|]. apply (corruption_zero_mask_step _ _ o). by split.
  - unfold ct_next, corrupt_configured in *. cbn [ct_armed ct_count] in *.
    destruct (_ && _); cbn [ct_armed ct_count]; rewrite Hms; [|done].
    destruct conf, Hcf; simplify_map_eq; by split_and!.
Qed.

Lemma corruption_unloaded_call n offset mask c i w s r i' w' :
  corruption_unloaded n offset mask i w s → call_injector c i w = (r, i', w') →
  let s' := ct_call c (is_ok r) s in
  (corruption_unloaded n offset mask i' w' s' ∧ (c = CallDisarm ∨ is_ok r = false)) ∨
  (∃ conf ctx, corruption_settled n offset mask conf i' w' s' ∧ c = CallArm ctx ∧ (is_ok r = true → conf = true)).
Proof.
  intros ((? & ? & ?) & Hb & Ha & ->) Hc. cbn zeta.
  assert (cr_tracks i w 0 true) as Ht by (unfold cr_tracks; by rewrite Hb).
  destruct (corrupt_call_tracks _ _ _ _ _ _ _ _ Ht Hc) as (conf & Ht' & (? & ? & ?) & Ha' & _ & Hd & Hk).
  destruct c as [ctx|].
  - destruct (cr_bpf i') as [b|] eqn:Hb'.
    + right. exists conf, ctx. split_and!; [|done|].
      * rewrite Ha in Ha'. split_and!; try congruence; [done|rewrite Hb'; by eexists|done].
      * intros Hok. destruct (Hk Hok) as [_ Hcf]; [cbn; by rewrite Ha', Hok|by apply Hcf].
    + left. destruct (is_ok r) eqn:Hok.
      { destruct Hk as [[? ?] _]; [done|exact Ha'|done]. }
      split; [|by right]. split_and!; try congruence; try done.
  - left. specialize (Hd Hb eq_refl). split; [|by left].
    assert (cr_armed i' = false) by (rewrite Ha', Ha; by destruct (is_ok r)).
    split_and!; try congruence; try done. unfold ct_call. cbn. by destruct (is_ok r).
Qed.

(** C16: the corruption fault refines its specification from the moment it is built, whatever
    calls and frames the interface sees and whichever loads and map writes fail: no frame
    is ever dropped, every [n]th frame that arrives while the injector is armed has its one
    byte XORed, and every other frame is left alone.  The byte is XORed with the mask that
    was asked for, unless the first [arm] failed: then the mask may stay 0 for the rest of
    the injector's life, and later arms that succeed change nothing. *)
Theorem corruption_traffic_refines_spec id iface n offset mask (w : W) es :
  let os := (net_run corrupt_program (cr_bpf (B := B)) es (XdpCorruptionInjector_new id iface n offset mask) w).1.1 in
  ∃ mask', (mask' = mask ∨ (mask' = 0 ∧ first_arm os = Some false)) ∧
    spec_allows (corruption_spec n offset mask') {| ct_armed := false; ct_count := 0 |} os.
Proof.
  destruct (net_run _ _ _ _ _) as [[os i'] w'] eqn:E. cbn.
  destruct (settled_simulation corrupt_program cr_bpf (λ conf, corruption_spec n offset (set_mask conf mask)) true
    (corruption_unloaded n offset mask) (corruption_settled n offset mask) (λ _, True) es
    (XdpCorruptionInjector_new id iface n offset mask) w {| ct_armed := false; ct_count := 0 |} os i' w') as (conf & _ & Hfirst & Hall).
  - done.
  - intros; by eapply corruption_settled_call.
  - intros; by eapply corruption_settled_frame.
  - intros ? ? ? ? (_ & _ & ? & _). done.
  - intros ? ? ? (_ & ? & _ & ->). split; [done|]. intros t frame. by split.
  - intros; by eapply corruption_unloaded_call.
  - done.
  - by split_and!.
  - exact E.
  - exists (set_mask conf mask). split; [|done]. destruct Hfirst as [->|Hf]; [by left|].
    destruct conf; [by left|by right].
Qed.

(** The state of a loaded partition injector beside the specification's. *)
Definition partition_settled ip port (x : partition_setting) (i : XdpPartitionInjector B) (w : W) (armed : bool) : Prop :=
  (pt_src_ip i = ip ∧ pt_src_port i = port) ∧ armed = pt_armed i ∧ is_Some (pt_bpf i) ∧ pt_tracks i w x.

Definition partition_unloaded ip port (i : XdpPartitionInjector B) (_ : W) (armed : bool) : Prop :=
  (pt_src_ip i = ip ∧ pt_src_port i = port) ∧ pt_bpf i = None ∧ pt_armed i = false ∧ armed = false.

Definition partition_spec_of (ip : IpAddr) (port : Z) (x : partition_setting) : net_spec bool :=
  partition_spec (set_peer x ip) (set_port x port).

Lemma partition_settled_call ip port x c i w armed r i' w' :
  partition_settled ip port x i w armed → call_injector c i w = (r, i', w') →
  partition_settled ip port x i' w' (switch c (is_ok r) armed).
Proof.
  intros ((? & ?) & -> & Hl & Ht) Hc.
  destruct (partition_call_tracks _ _ _ _ _ _ _ Ht Hc) as (x' & Ht' & (? & ?) & Ha' & Hk & _).
  destruct (Hk Hl) as [? ->]. by split_and!; try congruence.
Qed.

Lemma partition_settled_frame ip port x frame i w armed b v frame' w' :
  ip_typed ip → u16? port →
  partition_settled ip port x i w armed → pt_bpf i = Some b →
  run_program partition_program b frame w = (v, frame', w') →
  sp_frame (partition_spec_of ip port x) armed frame v frame' ∧ partition_settled ip port x i w' armed.
Proof.
  intros Hip Hp ((Hi & Ho) & -> & Hl & Ht) Hb Hr. apply run_program_view in Hr.
  unfold partition_settled, pt_tracks in *. rewrite Hb in *. destruct Ht as [He Hc]. subst ip port.
  cbn [sp_frame partition_spec_of partition_spec]. destruct (pt_armed i) eqn:Ea.
  - assert (u16? (set_port x (pt_src_port i))) as Hp' by (destruct x; [done|by split..]).
    assert (∀ a, set_peer x (pt_src_ip i) = Some a → ip_typed a) as Hip' by (destruct x; naive_solver).
    destruct (partition_program_on _ _ _ _ _ _ _ Hip' Hp' Hc He Hr) as (Hms & -> & Hcut). rewrite Hms, Hcut. naive_solver.
  - rewrite partition_program_off in Hr by done. injection Hr as <- <- Hms. rewrite <- Hms. naive_solver.
Qed.

Lemma partition_unloaded_call ip port c i w armed r i' w' :
  partition_unloaded ip port i w armed → call_injector c i w = (r, i', w') →
  let armed' := switch c (is_ok r) armed in
  (partition_unloaded ip port i' w' armed' ∧ (c = CallDisarm ∨ is_ok r = false)) ∨
  (∃ x ctx, partition_settled ip port x i' w' armed' ∧ c = CallArm ctx ∧ (is_ok r = true → x = Configured)).
Proof.
  intros ((? & ?) & Hb & Ha & ->) Hc. cbn zeta.
  assert (pt_tracks i w Configured) as Ht by (unfold pt_tracks; by rewrite Hb).
  destruct (partition_call_tracks _ _ _ _ _ _ _ Ht Hc) as (x & Ht' & (? & ?) & Ha' & _ & Hd & Hk).
  rewrite Ha in Ha'. change (pt_armed i' = switch c (is_ok r) false) in Ha'.
  destruct c as [ctx|].
  - destruct (pt_bpf i') as [b|] eqn:Hb'.
    + right. exists x, ctx. split_and!; try done; try congruence; [by split_and!; try congruence|].
      intros Hok. destruct (Hk Hok) as [_ Hcf]; [cbn; by rewrite Ha', Hok|by apply Hcf].
    + left. destruct (is_ok r) eqn:Hok; [destruct Hk as [[? ?] _]; [done|exact Ha'|done]|].
      split; [|by right]. by split_and!; try congruence.
  - left. specialize (Hd Hb eq_refl). split; [|by left].
    assert (switch CallDisarm (is_ok r) false = false) as Hs by by destruct (is_ok r).
    rewrite Hs in Ha' |- *. by split_and!; try congruence.
Qed.

(** An injector whose object is loaded follows the specification for what its maps hold. *)
Lemma partition_settled_follows ip port x es i w armed :
  ip_typed ip → u16? port → partition_settled ip port x i w armed →
  spec_allows (partition_spec_of ip port x) armed (net_run partition_program (pt_bpf (B := B)) es i w).1.1.
Proof.
  intros Hip Hp Hs. destruct (net_run _ _ _ _ _) as [[os i'] w'] eqn:E. cbn.
  eapply (spec_simulation _ _ _ (partition_settled ip port x)); [| | |exact Hs|exact E].
  - intros; by eapply partition_settled_call.
  - intros; by eapply partition_settled_frame.
  - intros frame i0 w0 s (_ & _ & [b Hb] & _) Hb'. congruence.
Qed.

(** C10: the partition fault refines its specification from the moment it is built, whatever
    calls and frames the interface sees and whichever loads and map writes fail.  No frame
    is changed, and a frame is dropped if and only if the injector is armed and the frame
    carries, behind an Ethernet header with at most two tags, a packet from the named peer
    (and source port, unless that is 0), or one from the unspecified address (0.0.0.0 or
    ::) of the family in which no peer is named.  Runts, truncated tags, triple tags and
    truncated headers pass.  The peer and port are those asked for, unless the first [arm]
    failed: then the port, or the address too, may stay unset. *)
Theorem partition_traffic_refines_spec id iface ip port (w : W) es :
  ip_typed ip → u16? port →
  let os := (net_run partition_program (pt_bpf (B := B)) es (XdpPartitionInjector_new id iface ip port) w).1.1 in
  ∃ x : partition_setting, (x = Configured ∨ first_arm os = Some false) ∧
    spec_allows (partition_spec (set_peer x ip) (set_port x port)) false os.
Proof.
  intros Hip Hp. destruct (net_run _ _ _ _ _) as [[os i'] w'] eqn:E. cbn.
  destruct (settled_simulation partition_program pt_bpf (partition_spec_of ip port) Configured
    (partition_unloaded ip port) (partition_settled ip port) (λ _, True) es
    (XdpPartitionInjector_new id iface ip port) w false os i' w') as (x & _ & Hfirst & Hall).
  - done.
  - intros; by eapply partition_settled_call.
  - intros; by eapply partition_settled_frame.
  - intros ? ? ? ? (_ & _ & ? & _). done.
  - intros ? ? ? (_ & ? & _ & ->). split; [done|]. intros t frame. split; [|done]. split; [done|]. naive_solver.
  - intros; by eapply partition_unloaded_call.
  - done.
  - by split_and!.
  - exact E.
  - by exists x.
Qed.

(** C36: a partition injector can end up cutting more than it was built for.  Whenever the
    first [arm] loads the object and writes the address but the write of the port fails,
    that [arm] reports the failure and the injector is not armed, yet the object is kept;
    so whenever a second [arm] succeeds it has skipped the configuration, and from then on
    the injector, which still names its port, drops the packets of the peer's address on
    every port, until it is disarmed. *)
Theorem partition_rearm_cuts_every_port ctx1 ctx2 id iface ip port (w wa wb w1 w2 : W) b e i2 es :
  ip_typed ip → u16? port →
  load_and_attach id "xdp_partition.o" "xdp_partition" iface w = (Ok b, wa) →
  match ip with
  | V4 octets => set_u32_map b id "partition_src_ip" (u32_from_ne_bytes octets)
  | V6 octets => set_bytes16_map b id "partition_src_ip6" octets
  end wa = (Ok tt, wb) →
  set_u32_map b id "partition_src_port" port wb = (Err e, w1) →
  let '(r1, i1, w1') := fi_arm ctx1 (XdpPartitionInjector_new (B := B) id iface ip port) w in
  r1 = Err e ∧ fi_is_armed i1 = false ∧ w1' = w1 ∧
  (fi_arm ctx2 i1 w1 = (Ok tt, i2, w2) →
   fi_is_armed i2 = true ∧ pt_src_port i2 = port ∧
   spec_allows (partition_spec (Some ip) 0) true (net_run partition_program (pt_bpf (B := B)) es i2 w2).1.1).
Proof.
  intros Hip Hp Hl Ha Hw. destruct (fi_arm ctx1 _ w) as [[r1 i1] w1'] eqn:E1.
  pose proof E1 as E1'. cbn [fi_arm partition_injector] in E1'. unfold partition_arm, partition_ensure_loaded in E1'.
  cbn [pt_bpf pt_id pt_iface pt_src_ip pt_src_port pt_armed XdpPartitionInjector_new] in E1'. rewrite Hl in E1'.
  unfold mbind, io_bind in E1'. rewrite Ha, Hw in E1'. injection E1' as <- <- <-. split_and!; [done..|]. intros E2.
  assert (partition_settled ip port AddressOnly
    (pt_set (Some b) false (XdpPartitionInjector_new id iface ip port)) w1 false) as Hs.
  { apply load_and_attach_view in Hl. apply write_address_view in Ha. apply set_u32_map_view in Hw.
    split_and!; [done..|by eexists|]. unfold pt_tracks. cbn. rewrite Hw, Ha, Hl.
    unfold partition_configured. by destruct ip. }
  apply (partition_settled_call _ _ _ (CallArm ctx2) _ _ _ (Ok tt) i2 w2) in Hs; [|done].
  pose proof Hs as ((_ & Hport) & Harm & _). split_and!; [done..|].
  by apply (partition_settled_follows ip port AddressOnly).
Qed.

(** A disarmed XDP injector is invisible, from the moment it is built and through
    every mix of calls, failing loads, failing map writes and frames: while the last
    successful call was not an [arm], every frame passes unchanged.  This holds of all
    three injectors, also of one whose configuration was never written. *)
Theorem disarmed_xdp_is_transparent id iface (w : W) es n offset mask ip port :
  let none := false in
  spec_allows transparent_when_disarmed none
    (net_run pktloss_program (pl_bpf (B := B)) es (XdpPacketLossInjector_new id iface n) w).1.1 ∧
  spec_allows transparent_when_disarmed none
    (net_run corrupt_program (cr_bpf (B := B)) es (XdpCorruptionInjector_new id iface n offset mask) w).1.1 ∧
  spec_allows transparent_when_disarmed none
    (net_run partition_program (pt_bpf (B := B)) es (XdpPartitionInjector_new id iface ip port) w).1.1.
Proof.
  cbv zeta. split_and!; [apply pktloss_transparent|apply corruption_transparent|apply partition_transparent].
Qed.

(** C35: the kernel maps are well typed in every state an injector with well-typed fields
    can reach, through any calls, failures and frames: [u32] values where the C side
    declares [u32], a [u64] packet counter, 16 address bytes.  So the partition program,
    which indexes those bytes, never reads out of bounds, whatever frame arrives; nor does
    the corruption program, which changes a byte of the frame, reach outside it. *)
Theorem xdp_maps_stay_typed id iface n offset mask ip port es (w : W) :
  u32? n → u32? offset → u8? mask → ip_typed ip → u16? port →
  (let '(_, i, w') := net_run pktloss_program (pl_bpf (B := B)) es (XdpPacketLossInjector_new id iface n) w in
   ∀ b, pl_bpf i = Some b → maps_typed (bpf_view b w')) ∧
  (let '(_, i, w') := net_run corrupt_program (cr_bpf (B := B)) es
                        (XdpCorruptionInjector_new id iface n offset mask) w in
   ∀ b, cr_bpf i = Some b → maps_typed (bpf_view b w') ∧
        ∀ frame, is_Some (xdp_corrupt (bpf_view b w') frame)) ∧
  (let '(_, i, w') := net_run partition_program (pt_bpf (B := B)) es
                        (XdpPartitionInjector_new id iface ip port) w in
   ∀ b, pt_bpf i = Some b → maps_typed (bpf_view b w') ∧
        ∀ frame, is_Some (xdp_partition (bpf_view b w') frame)).
Proof.
  intros Hn Ho Hm Hip Hp. split_and!; destruct (net_run _ _ _ _ _) as [[os i'] w'] eqn:E.
  - eapply net_run_typed in E as [_ Ht];
      [exact Ht|intros; by apply pktloss_program_typed|apply pktloss_call_typed|by split].
  - eapply net_run_typed in E as [_ Ht];
      [|intros; by apply corrupt_program_typed|apply corrupt_call_typed|by split].
    intros b Hb. split; [by apply Ht|]. intros frame.
    destruct (xdp_corrupt_total (bpf_view b w') frame) as (? & ? & ->). done.
  - eapply net_run_typed in E as [_ Ht]; [| |apply partition_call_typed|by split]; [|done].
    intros b Hb. specialize (Ht b Hb). split; [done|]. intros frame. apply xdp_partition_total.
    intros o Hl. by apply (proj2 Ht "partition_src_ip6").
Qed.

End properties.

(* ------------------------------------------------------------------ *)
(** * Witnesses *)

#[global] Instance kernel_load_laws : AyaLoadLaws kernel unit.
Proof.
  split.
  - intros obj w [] w' [= <-]. done.
  - intros [] p w r w' [= <- <-]. done.
  - intros [] p i w r w' [= <- <-]. done.
Qed.

#[global] Instance kernel_path : XdpPath kernel unit.
Proof.
  refine {| run_program prog _ frame k :=
    let '(v, frame', ms) := prog (k_maps k) frame in
    (v, frame', {| k_maps := ms; k_script := k_script k |}) |}.
  intros prog [] frame w v frame' w'. destruct (prog (k_maps w) frame) as [[v0 f0] ms0] eqn:E.
  intros [= <- <- <-]. exact E.
Defined.

(** Two frames before arming, a failed [arm], a good one, three frames, a failed
    [disarm], a frame, a good [disarm], a frame. *)
Definition demo_traffic : list net_event :=
  [NetFrame [x01; x02]; NetCall (CallArm xdp_ctx); NetFrame [x01; x02]; NetCall (CallArm xdp_ctx)]
  ++ replicate 3 (NetFrame [x01; x02; x03])
  ++ [NetCall CallDisarm; NetFrame [x01]; NetCall CallDisarm; NetFrame [x02]].
Definition demo_script : list bool := [false; true; false; true].

Definition dropped_frames (os : list net_obs) : list (list byte) :=
  omap (λ o, match o with ObsFrame frame XDP_DROP _ => Some frame | _ => None end) os.
Definition changed_frames (os : list net_obs) : list (list byte * list byte) :=
  omap (λ o, match o with ObsFrame f _ f' => if decide (f = f') then None else Some (f, f') | _ => None end) os.

Lemma pktloss_traffic_refines_spec_witness :
  let r := net_run pktloss_program pl_bpf demo_traffic
             (XdpPacketLossInjector_new (B := unit) "loss" "lo" 2) (fresh_kernel demo_script) in
  dropped_frames r.1.1 = [[x01; x02; x03]; [x01]] ∧
  spec_allows (loss_spec 2) {| ct_armed := false; ct_count := 0 |} r.1.1.
Proof.
  intros r. split; [vm_compute; reflexivity|].
  apply (pktloss_traffic_refines_spec (W := kernel) (B := unit) "loss" "lo" 2 (fresh_kernel demo_script) demo_traffic).
Defined.

(** An IPv6 UDP packet from 2001:db8::1, port 5000. *)
Definition demo_ip6_peer : list byte := [x20; x01; x0d; xb8] ++ replicate 11 x00 ++ [x01].
Definition demo_ip6 : list byte :=
  [x60; x00; x00; x00; x00; x08; x11; x40] ++ demo_ip6_peer ++ replicate 16 x00
  ++ [x13; x88; x00; x35; x00; x08; x00; x00].
Definition v6_frame : list byte := eth_frame (replicate 12 x00) [(true, (x00, x01))] x86 xdd demo_ip6.

(** Through a [disarm], the peer's frame, an [arm], the frame again, a runt, a [disarm] and
    the frame once more. *)
Lemma partition_traffic_refines_spec_witness :
  let os := (net_run partition_program pt_bpf
               [NetCall CallDisarm; NetFrame v6_frame; NetCall (CallArm xdp_ctx);
                NetFrame v6_frame; NetFrame [x01]; NetCall CallDisarm; NetFrame v6_frame]
               (XdpPartitionInjector_new (B := unit) "cut" "lo" (V6 demo_ip6_peer) 5000) (fresh_kernel [])).1.1 in
  dropped_frames os = [v6_frame] ∧ first_arm os = Some true ∧
  ∃ x, (x = Configured ∨ first_arm os = Some false) ∧
    spec_allows (partition_spec (set_peer x (V6 demo_ip6_peer)) (set_port x 5000)) false os.
Proof.
  intros os. split; [vm_compute; reflexivity|]. split; [vm_compute; reflexivity|].
  apply (partition_traffic_refines_spec (W := kernel) (B := unit) "cut" "lo" (V6 demo_ip6_peer) 5000 (fresh_kernel [])).
  - reflexivity.
  - split; [lia|reflexivity].
Defined.

Lemma disarmed_xdp_is_transparent_witness :
  spec_allows transparent_when_disarmed false
    (net_run pktloss_program pl_bpf demo_traffic
       (XdpPacketLossInjector_new (B := unit) "x" "lo" 1) (fresh_kernel demo_script)).1.1 ∧
  spec_allows transparent_when_disarmed false
    (net_run corrupt_program cr_bpf demo_traffic
       (XdpCorruptionInjector_new (B := unit) "x" "lo" 1 0 255) (fresh_kernel demo_script)).1.1 ∧
  spec_allows transparent_when_disarmed false
    (net_run partition_program pt_bpf demo_traffic
       (XdpPartitionInjector_new (B := unit) "x" "lo" (V4 [x0a; x00; x00; x02]) 0) (fresh_kernel demo_script)).1.1.
Proof.
  apply (disarmed_xdp_is_transparent (W := kernel) (B := unit) "x" "lo" (fresh_kernel demo_script) demo_traffic
           1 0 255 (V4 [x0a; x00; x00; x02]) 0).
Defined.

Lemma xdp_maps_stay_typed_witness :
  (let '(_, i, w') := net_run pktloss_program pl_bpf demo_traffic
       (XdpPacketLossInjector_new (B := unit) "x" "lo" 1) (fresh_kernel demo_script) in
   ∀ b, pl_bpf i = Some b → maps_typed (bpf_view b w')) ∧
  (let '(_, i, w') := net_run corrupt_program cr_bpf demo_traffic
       (XdpCorruptionInjector_new (B := unit) "x" "lo" 1 0 255) (fresh_kernel demo_script) in
   ∀ b, cr_bpf i = Some b → maps_typed (bpf_view b w') ∧
        ∀ frame, is_Some (xdp_corrupt (bpf_view b w') frame)) ∧
  (let '(_, i, w') := net_run partition_program pt_bpf demo_traffic
       (XdpPartitionInjector_new (B := unit) "x" "lo" (V6 demo_ip6_peer) 9) (fresh_kernel demo_script) in
   ∀ b, pt_bpf i = Some b → maps_typed (bpf_view b w') ∧
        ∀ frame, is_Some (xdp_partition (bpf_view b w') frame)).
Proof.
  apply (xdp_maps_stay_typed (W := kernel) (B := unit) "x" "lo" 1 0 255 (V6 demo_ip6_peer) 9 demo_traffic
           (fresh_kernel demo_script)); first [reflexivity | split; [lia | reflexivity]].
Defined.

(* ------------------------------------------------------------------ *)
(** * A half-configured partition *)

Definition cut_peer : list byte := [x0a; x00; x00; x02].
Definition half_cut : XdpPartitionInjector unit :=
  pt_set (Some tt) false (XdpPartitionInjector_new "cut" "lo" (V4 cut_peer) 5000).
Definition half_cut_kernel : kernel := {|
  k_maps := set_num "partition_src_ip" (u32_from_ne_bytes cut_peer) (object_maps "xdp_partition.o");
  k_script := []
|}.

(** An IPv4 UDP packet from 10.0.0.2, source port 53. *)
Definition other_port_frame : list byte :=
  eth_frame (replicate 12 x00) [] x08 x00
    ([x45; x00; x00; x1c; x00; x00; x00; x00; x40; x11; x00; x00] ++ cut_peer ++ replicate 4 x00
     ++ [x00; x35; x13; x88; x00; x08; x00; x00]).

(** The port asked for is 5000; a packet from port 53 is dropped. *)
Lemma partition_rearm_cuts_every_port_witness :
  let a := fi_arm xdp_ctx half_cut half_cut_kernel in
  let os := (net_run partition_program pt_bpf [NetFrame other_port_frame; NetCall CallDisarm; NetFrame other_port_frame]
               a.1.2 a.2).1.1 in
  dropped_frames os = [other_port_frame] ∧
  let '(r1, i1, w1) := fi_arm xdp_ctx (XdpPartitionInjector_new (B := unit) "cut" "lo" (V4 cut_peer) 5000)
                         (fresh_kernel [true; false]) in
  r1 = Err (ArmFailed "cut" "bpf_map_update_elem failed") ∧ fi_is_armed i1 = false ∧ w1 = half_cut_kernel ∧
  (fi_arm xdp_ctx i1 half_cut_kernel = (Ok tt, a.1.2, a.2) →
   fi_is_armed a.1.2 = true ∧ pt_src_port a.1.2 = 5000 ∧ spec_allows (partition_spec (Some (V4 cut_peer)) 0) true os).
Proof.
  intros a os. split; [vm_compute; reflexivity|].
  apply (partition_rearm_cuts_every_port (W := kernel) (B := unit) xdp_ctx xdp_ctx "cut" "lo" (V4 cut_peer) 5000
    (fresh_kernel [true; false]) {| k_maps := object_maps "xdp_partition.o"; k_script := [true; false] |}
    {| k_maps := k_maps half_cut_kernel; k_script := [false] |} half_cut_kernel a.2 tt
    (ArmFailed "cut" "bpf_map_update_elem failed") a.1.2).
  - reflexivity.
  - split; [lia|reflexivity].
  - reflexivity.
  - reflexivity.
  - reflexivity.
Defined.

(** Corruption: here the first [arm] succeeds. *)
Lemma corruption_traffic_refines_spec_witness :
  let os := (net_run corrupt_program cr_bpf (NetCall (CallArm xdp_ctx) :: demo_traffic)
               (XdpCorruptionInjector_new (B := unit) "corrupt" "lo" 2 1 255) (fresh_kernel [])).1.1 in
  first_arm os = Some true ∧
  changed_frames os = [([x01; x02], [x01; xfd]); ([x01; x02; x03], [x01; xfd; x03])] ∧
  ∃ mask', (mask' = 255 ∨ (mask' = 0 ∧ first_arm os = Some false)) ∧
    spec_allows (corruption_spec 2 1 mask') {| ct_armed := false; ct_count := 0 |} os.
Proof.
  intros os. split; [vm_compute; reflexivity|]. split; [vm_compute; reflexivity|].
  apply (corruption_traffic_refines_spec (W := kernel) (B := unit) "corrupt" "lo" 2 1 255 (fresh_kernel [])
           (NetCall (CallArm xdp_ctx) :: demo_traffic)).
Defined.

(** And here the write of its mask fails: a second [arm] succeeds and nothing is changed. *)
Lemma corruption_rearm_example :
  let os := (net_run corrupt_program cr_bpf (NetCall (CallArm xdp_ctx) :: demo_traffic)
               (XdpCorruptionInjector_new (B := unit) "corrupt" "lo" 2 1 255) (fresh_kernel [true; false])).1.1 in
  first_arm os = Some false ∧ changed_frames os = [] ∧ os !! 2%nat = Some (ObsCall (CallArm xdp_ctx) true).
Proof. vm_compute. by split_and!. Qed.
