(* ===== verification/XdpRun.v ===== *)
(** A run of the runner over an XDP fault with traffic: replay/src/runner.rs driving an
    injector of kernel/src while frames arrive at the interface.  Between any two actions
    of the runner an arbitrary batch of frames goes through the attached program; a call
    on the injector is one step for the traffic. *)

From Stdlib Require Import Strings.Byte.
From S2P Require Import Prelude RustStd Core Schedule Scheduler Trace Runner RunnerFacts.
From S2P Require Import FixInjector Effect Bpf Xdp KernelFaults.

(* ------------------------------------------------------------------ *)
(** * The interface under a run *)

(** The outside world, the object whose program is attached, what could be seen at the
    interface, and how many batches of frames have arrived. *)
Record net_world (W B : Type) := {
  nw_world : W; nw_loaded : option B; nw_obs : list net_obs; nw_batch : nat
}.
Arguments nw_world {W B}.
Arguments nw_loaded {W B}.
Arguments nw_obs {W B}.
Arguments nw_batch {W B}.

(** The injector, with the interface watched. *)
Record observed (I : Type) := Observed { ob_injector : I }.
Arguments Observed {I}.
Arguments ob_injector {I}.

Section observed.
Context {W B I : Type} `{XdpPath W B} `{FaultInjector W I}.
Variable prog : xdp_program.
Variable loaded : I → option B.
(** The frames of the [n]th batch. *)
Variable traffic : nat → list (list byte).

Definition deliver_frame (w : net_world W B) (frame : list byte) : net_world W B :=
  match nw_loaded w with
  | None =>
      {| nw_world := nw_world w; nw_loaded := None; nw_obs := nw_obs w ++ [ObsFrame frame XDP_PASS frame];
         nw_batch := nw_batch w |}
  | Some b =>
      let '(v, frame', w') := run_program prog b frame (nw_world w) in
      {| nw_world := w'; nw_loaded := Some b; nw_obs := nw_obs w ++ [ObsFrame frame v frame']; nw_batch := nw_batch w |}
  end.
Definition deliver (w : net_world W B) : net_world W B :=
  let w' := foldl deliver_frame w (traffic (nw_batch w)) in
  {| nw_world := nw_world w'; nw_loaded := nw_loaded w'; nw_obs := nw_obs w'; nw_batch := S (nw_batch w) |}.

Definition observed_call (c : injector_call) (o : observed I) (w : net_world W B)
  : result HarnessError unit * observed I * net_world W B :=
  let w1 := deliver w in
  let '(r, i, w2) := call_injector c (ob_injector o) (nw_world w1) in
  (r, Observed i,
   {| nw_world := w2; nw_loaded := loaded i; nw_obs := nw_obs w1 ++ [ObsCall c (is_ok r)]; nw_batch := nw_batch w1 |}).

Definition observed_injector : FaultInjector (net_world W B) (observed I) := {|
  fi_id o := fi_id (ob_injector o);
  fi_arm ctx := observed_call (CallArm ctx);
  fi_disarm := observed_call CallDisarm;
  fi_is_armed o := fi_is_armed (ob_injector o)
|}.

Definition sleep_with_traffic (_ : Z) (w : net_world W B) : net_world W B := deliver w.
Definition net_world_new (w : W) : net_world W B :=
  {| nw_world := w; nw_loaded := None; nw_obs := []; nw_batch := 0 |}.

End observed.

(** The calls among what was seen. *)
Definition obs_calls (os : list net_obs) : list (StepAction * bool) :=
  omap (λ o, match o with
             | ObsCall (CallArm _) ok => Some (Arm, ok)
             | ObsCall CallDisarm ok => Some (Disarm, ok)
             | ObsFrame _ _ _ => None
             end) os.

(** The frames that arrive while the fault is on. *)
Fixpoint armed_frames (armed : bool) (os : list net_obs) : Z :=
  match os with
  | [] => 0
  | ObsCall c ok :: os' => armed_frames (switch c ok armed) os'
  | ObsFrame _ _ _ :: os' => (if armed then 1 else 0) + armed_frames armed os'
  end.
Definition is_drop (o : net_obs) : bool := match o with ObsFrame _ XDP_DROP _ => true | _ => false end.
Definition drops (os : list net_obs) : Z := Z.of_nat (length (filter (λ o, is_drop o = true) os)).

(* ------------------------------------------------------------------ *)
(** * The run as a sequence of calls and frames *)

Section run.
Context {W B I : Type} `{XdpPath W B} `{FaultInjector W I}.
Variable prog : xdp_program.
Variable loaded : I → option B.
Variable traffic : nat → list (list byte).
Variables (id : string) (i0 : I) (w0 : W).
#[local] Instance watched : FaultInjector (net_world W B) (observed I) := observed_injector prog loaded traffic.

Lemma net_run_snoc es e i w os i' w' :
  net_run prog loaded es i w = (os, i', w') →
  net_run prog loaded (es ++ [e]) i w =
  let '(o, i'', w'') := net_step prog loaded e i' w' in (os ++ [o], i'', w'').
Proof.
  revert i w os. induction es as [|e' es IH]; intros i w os; cbn [net_run app].
  { intros [= <- <- <-]. by destruct (net_step prog loaded e i w) as [[o i1] w1]. }
  destruct (net_step prog loaded e' i w) as [[o i1] w1].
  destruct (net_run prog loaded es i1 w1) as [[os1 i2] w2] eqn:E. intros [= <- <- <-].
  rewrite (IH _ _ _ E). by destruct (net_step prog loaded e i2 w2) as [[o1 i3] w3].
Qed.

(** The world is what some sequence of calls and frames leaves, with the given calls. *)
Definition seen (calls : list (StepAction * bool)) (i : I) (w : net_world W B) : Prop :=
  nw_loaded w = loaded i ∧ obs_calls (nw_obs w) = calls ∧
  ∃ es, net_run prog loaded es i0 w0 = (nw_obs w, i, nw_world w).

Lemma obs_calls_app l1 l2 : obs_calls (l1 ++ l2) = obs_calls l1 ++ obs_calls l2.
Proof. apply omap_app. Qed.

Lemma seen_frame calls i w frame : seen calls i w → seen calls i (deliver_frame prog w frame).
Proof.
  intros (Hl & Hc & es & Hr). apply (net_run_snoc es (NetFrame frame)) in Hr. cbn [net_step] in Hr.
  unfold deliver_frame. rewrite <- Hl in Hr. destruct (nw_loaded w) as [b|] eqn:Eb.
  - destruct (run_program prog b frame (nw_world w)) as [[v f'] w'].
    split_and!; [done|by cbn; rewrite obs_calls_app, app_nil_r|by eexists].
  - split_and!; [done|by cbn; rewrite obs_calls_app, app_nil_r|by eexists].
Qed.

Lemma seen_deliver calls i w : seen calls i w → seen calls i (deliver prog traffic w).
Proof.
  intros Hs. unfold deliver. enough (Hf : seen calls i (foldl (deliver_frame prog) w (traffic (nw_batch w)))) by exact Hf.
  revert Hs. generalize (traffic (nw_batch w)). intros fs. revert w. induction fs as [|f fs IH]; intros w Hs; [done|].
  cbn. by apply IH, seen_frame.
Qed.

Lemma seen_action ctx act calls o w r o' w' :
  seen calls (ob_injector o) w → apply_action ctx act o w = (r, o', w') →
  seen (calls ++ [(act, is_ok r)]) (ob_injector o') w'.
Proof.
  intros Hs%seen_deliver Ha.
  assert (Hcall : observed_call prog loaded traffic (match act with Arm => CallArm ctx | Disarm => CallDisarm end) o w = (r, o', w'))
    by (by destruct act).
  unfold observed_call in Hcall. destruct Hs as (Hl & Hc & es & Hr).
  apply (net_run_snoc es (NetCall (match act with Arm => CallArm ctx | Disarm => CallDisarm end))) in Hr.
  cbn [net_step] in Hr. destruct (call_injector _ _ _) as [[r1 i1] w1]. injection Hcall as -> <- <-.
  split_and!; [done| |by eexists]. cbn [nw_obs]. rewrite obs_calls_app. f_equal; [exact Hc|by destruct act].
Qed.

Definition run_seen (done : list ScenarioStep) (injs : gmap string (observed I)) (w : net_world W B) : Prop :=
  ∃ i, injs = {[id := Observed i]} ∧ seen ((λ s, (action s, true)) <$> done) i w.

(** A run that succeeds is a sequence of calls and frames whose calls are the steps. *)
Lemma run_is_seen schedule ctx fuel tick rt t r' w' :
  loaded i0 = None →
  run_inner (sleep_with_traffic prog traffic) fuel
    {| r_schedule := schedule; r_injectors := {[id := Observed i0]}; r_ctx := ctx |} tick rt (net_world_new w0)
    = Some (Done (Ok t, r', w')) →
  ∃ i, seen ((λ s, (action s, true)) <$> vs_steps schedule) i w'.
Proof.
  intros Hi0 Hrun. eapply (run_invariant (H := watched) _ run_seen) in Hrun.
  - destruct Hrun as (i & _ & Hs). by exists i.
  - intros done injs n w (i & ? & Hs). exists i. split; [done|]. by apply seen_deliver.
  - intros done s injs w o o' w1 (i & -> & Hs) Hi Ha. apply lookup_singleton_Some in Hi as [Hid <-].
    apply (seen_action _ _ _ (Observed i) _ _ _ _ Hs) in Ha. exists (ob_injector o'). split.
    + rewrite <- Hid, insert_singleton_eq. by destruct o'.
    + by rewrite fmap_app.
  - exists i0. split; [done|]. split_and!; [done..|]. by exists [].
Qed.

End run.

(* ------------------------------------------------------------------ *)
(** * Packet loss *)

(** The drops among frames that follow the specification, counted. *)
Lemma loss_spec_counts n os s :
  0 < n → 0 <= ct_count s → ct_count s + armed_frames (ct_armed s) os < 2 ^ 64 →
  spec_allows (loss_spec n) s os →
  drops os = (ct_count s + armed_frames (ct_armed s) os) / n - ct_count s / n ∧
  0 <= armed_frames (ct_armed s) os.
Proof.
  intros Hn. revert s. induction os as [|[c ok|f v f'] os IH]; intros s H0 Hb; cbn [spec_allows armed_frames].
  - intros _. unfold drops. cbn. rewrite Z.add_0_r. lia.
  - intros Ha. apply (IH (ct_call c ok s)) in Ha; [|done|done]. exact Ha.
  - intros [[Hv _] Ha]. cbn [armed_frames] in Hb.
    assert (Hd : drops (ObsFrame f v f' :: os) = (if ct_hit n s then 1 else 0) + drops os).
    { unfold drops. rewrite filter_cons. subst v. destruct (ct_hit n s); [rewrite decide_True by done|rewrite decide_False by done]; cbn [length]; lia. }
    rewrite Hd. change (sp_next (loss_spec n) s) with (ct_next n s) in Ha. unfold ct_next in Ha. unfold ct_hit.
    rewrite (proj2 (Z.eqb_neq n 0)) in * by lia. cbn [negb] in *. rewrite andb_true_r in *.
    destruct (ct_armed s) eqn:Ea; cbn [andb] in *.
    + assert (Hnn : ∀ b, 0 <= armed_frames b os).
      { clear. induction os as [|[] os IH]; intros b; cbn; [lia|apply IH|]. specialize (IH b). destruct b; lia. }
      specialize (Hnn true). rewrite wrap_id in * by (unfold in_width; lia).
      apply IH in Ha as [Hds _]; cbn in *; [|lia|lia]. split; [|lia]. rewrite Hds.
      replace (ct_count s + (1 + armed_frames true os)) with (ct_count s + 1 + armed_frames true os) by lia.
      enough ((ct_count s + 1) / n = ct_count s / n + if (ct_count s + 1) mod n =? 0 then 1 else 0) by lia.
      apply div_succ. done.
    + apply IH in Ha as [Hds ?]; rewrite ?Ea in *; [|done|lia]. by rewrite Hds, !Z.add_0_l.
Qed.

Section loss.
Context {W B : Type} `{XdpPath W B} `{!AyaLoadLaws W B}.

(** C14: a packet-loss scenario loses exactly what it says.  Run a schedule over a packet-loss
    injector with any traffic arriving at any time between the runner's actions: the calls
    at the interface are the scheduled steps, all successful; frames only pass or are
    dropped, as specified; and of the [k] frames that arrive inside the scheduled windows
    exactly [k / n] are dropped, over all windows together, and none outside them. *)
Theorem scheduled_loss_is_exact traffic id iface n (w : W) schedule ctx fuel tick rt t r' w' :
  0 < n →
  @run_inner _ _ (observed_injector pktloss_program (pl_bpf (B := B)) traffic)
    (sleep_with_traffic pktloss_program traffic) fuel
    {| r_schedule := schedule; r_injectors := {[id := Observed (XdpPacketLossInjector_new id iface n)]}; r_ctx := ctx |}
    tick rt (net_world_new w) = Some (Done (Ok t, r', w')) →
  armed_frames false (nw_obs w') < 2 ^ 64 →
  obs_calls (nw_obs w') = (λ s, (action s, true)) <$> vs_steps schedule ∧
  spec_allows (loss_spec n) {| ct_armed := false; ct_count := 0 |} (nw_obs w') ∧
  drops (nw_obs w') = armed_frames false (nw_obs w') / n.
Proof.
  intros Hn Hrun Hb. apply run_is_seen in Hrun as (i & _ & Hc & es & Hr); [|done].
  pose proof (pktloss_allowed id iface n w es) as Ha. rewrite Hr in Ha. cbn [fst snd] in Ha.
  split_and!; [done..|].
  destruct (loss_spec_counts n (nw_obs w') {| ct_armed := false; ct_count := 0 |}) as [Hd _]; [done..|].
  rewrite Hd. cbn. rewrite Z.sub_0_r. done.
Qed.

End loss.

(* ------------------------------------------------------------------ *)
(** * Witness *)

Definition loss_schedule : ValidatedSchedule :=
  {| vs_scenario := {| sc_name := "loss"; sc_seed := 1;
       sc_steps := [{| at_ns := 0; fault_id := "loss"; action := Arm |};
                    {| at_ns := 15; fault_id := "loss"; action := Disarm |}] |} |}%string.
Definition three_frames (_ : nat) : list (list byte) := [[x01]; [x02]; [x03]].
Definition loss_run :=
  @run_inner _ _ (observed_injector pktloss_program (pl_bpf (B := unit)) three_frames)
    (sleep_with_traffic pktloss_program three_frames) 5
    {| r_schedule := loss_schedule;
       r_injectors := {["loss"%string := Observed (XdpPacketLossInjector_new "loss" "lo" 4)]}; r_ctx := xdp_ctx |}
    10 true (net_world_new (fresh_kernel [])).

(** Twelve frames arrive, six of them inside the window; one is dropped. *)
Lemma scheduled_loss_is_exact_witness :
  ∃ t r' w', loss_run = Some (Done (Ok t, r', w')) ∧ length (nw_obs w') = 14%nat ∧
    armed_frames false (nw_obs w') = 6 ∧ drops (nw_obs w') = 6 / 4.
Proof.
  destruct loss_run as [[[[[t|e] r'] w']|]|] eqn:E; [|vm_compute in E; discriminate E..].
  exists t, r', w'.
  assert (Hobs : length (nw_obs w') = 14%nat ∧ armed_frames false (nw_obs w') = 6)
    by (vm_compute in E; injection E as <- <- <-; split; reflexivity).
  destruct Hobs as [Hlen Harm]. split_and!; [reflexivity|exact Hlen|exact Harm|]. rewrite <- Harm.
  apply (scheduled_loss_is_exact three_frames "loss" "lo" 4 (fresh_kernel []) loss_schedule xdp_ctx 5 10 true t r' w');
    [reflexivity|exact E|rewrite Harm; reflexivity].
Defined.
