(* ===== verification/NetAddr.v ===== *)
(** [IpAddr::from_str] of the standard library (core::net::parser), which the
    configuration's [src_ip] goes through: a parser over the remaining bytes.  A
    parser that fails consumes nothing, as [read_atomically] does. *)

From Stdlib Require Import Strings.Byte.
From S2P Require Import Prelude RustStd Effect Bpf Xdp.

(* ------------------------------------------------------------------ *)
(** * The parser *)

Definition parser (A : Type) : Type := list byte → option (A * list byte).

(** [char::to_digit]. *)
Definition to_digit (radix : Z) (b : byte) : option Z :=
  let v := byte_val b in
  let d := if in_range 48 57 b then v - 48
           else if in_range 97 102 b then v - 87
           else if in_range 65 70 b then v - 55 else 16 in
  if d <? radix then Some d else None.

Definition read_given_char (c : byte) : parser unit := λ s,
  match s with
  | b :: r => if decide (b = c) then Some (tt, r) else None
  | [] => None
  end.

Definition read_separator {A} (sep : byte) (index : nat) (inner : parser A) : parser A := λ s,
  match index with
  | O => inner s
  | S _ => '(_, r) ← read_given_char sep s; inner r
  end.

(** The digit loop of [read_number]: the value and the number of digits so far; [limit]
    is the type's width as a bound of the value. *)
Fixpoint digit_loop (radix limit : Z) (max_digits count : nat) (acc : Z) (s : list byte)
  : option (Z * nat * list byte) :=
  match s with
  | b :: r =>
      match to_digit radix b with
      | Some d =>
          let acc' := acc * radix + d in
          if acc' <? limit then
            if (max_digits <? S count)%nat then None
            else digit_loop radix limit max_digits (S count) acc' r
          else None
      | None => Some (acc, count, s)
      end
  | [] => Some (acc, count, s)
  end.

Definition read_number (radix width : Z) (max_digits : nat) (allow_zero_prefix : bool) : parser Z := λ s,
  let has_leading_zero := bool_decide (head s = Some x30) in
  '(n, count, r) ← digit_loop radix (2 ^ width) max_digits 0 0 s;
  if decide (count = 0%nat) then None
  else if negb allow_zero_prefix && has_leading_zero && (1 <? count)%nat then None
  else Some (n, r).

(** Four octets; [index] counts those read. *)
Fixpoint read_octets (todo index : nat) : parser (list byte) := λ s,
  match todo with
  | O => Some ([], s)
  | S k =>
      '(n, r) ← read_separator x2e index (read_number 10 8 3 false) s;
      '(os, r') ← read_octets k (S index) r;
      Some (byte_of_val n :: os, r')
  end.
Definition read_ipv4_addr : parser (list byte) := read_octets 4 0.

(** A group as its two octets, big-endian. *)
Definition group_octets (g : Z) : list byte := [byte_of_val (g / 256); byte_of_val (g mod 256)].

(** [read_groups]: the octets of the groups read, and whether they end in an IPv4
    address.  A group that cannot be read ends it with what has been read. *)
Fixpoint read_groups (todo index : nat) (s : list byte) : list byte * bool * list byte :=
  match todo with
  | O => ([], false, s)
  | S k =>
      match (if decide (k = 0%nat) then None else read_separator x3a index read_ipv4_addr s) with
      | Some (os, r) => (os, true, r)
      | None =>
          match read_separator x3a index (read_number 16 16 4 true) s with
          | Some (g, r) =>
              let '(os, v4, r') := read_groups k (S index) r in (group_octets g ++ os, v4, r')
          | None => ([], false, s)
          end
      end
  end.

Definition read_ipv6_addr : parser (list byte) := λ s,
  let '(head, head_ipv4, r) := read_groups 8 0 s in
  if decide (length head = 16%nat) then Some (head, r)
  else if head_ipv4 then None
  else
    '(_, r1) ← read_given_char x3a r;
    '(_, r2) ← read_given_char x3a r1;
    let limit := (8 - (length head / 2 + 1))%nat in
    let '(tail, _, r3) := read_groups limit 0 r2 in
    Some (head ++ replicate (16 - length head - length tail) x00 ++ tail, r3).

Definition read_ip_addr : parser IpAddr := λ s,
  match read_ipv4_addr s with
  | Some (os, r) => Some (V4 os, r)
  | None => '(os, r) ← read_ipv6_addr s; Some (V6 os, r)
  end.

(** [parse_with]: everything has to be consumed. *)
Definition ip_from_str (s : list byte) : option IpAddr :=
  '(ip, r) ← read_ip_addr s;
  if decide (r = []) then Some ip else None.

(* ------------------------------------------------------------------ *)
(** * The notation *)

Definition dotted (os : list byte) : list byte := join_with x2e ((λ o, to_dec (byte_val o)) <$> os).

Example v4_ok : ip_from_str (bytes "10.0.0.255") = Some (V4 [x0a; x00; x00; xff]).
Proof. vm_compute. reflexivity. Qed.
Example v4_octal : ip_from_str (bytes "10.0.0.01") = None.
Proof. vm_compute. reflexivity. Qed.
Example v4_big : ip_from_str (bytes "10.0.0.256") = None.
Proof. vm_compute. reflexivity. Qed.
Example v6_short : ip_from_str (bytes "2001:db8::1") = Some (V6 ([x20; x01; x0d; xb8] ++ replicate 11 x00 ++ [x01])).
Proof. vm_compute. reflexivity. Qed.
Example v6_mapped : ip_from_str (bytes "::ffff:1.2.3.4") = Some (V6 (replicate 10 x00 ++ [xff; xff; x01; x02; x03; x04])).
Proof. vm_compute. reflexivity. Qed.
Example v6_any : ip_from_str (bytes "::") = Some (V6 (replicate 16 x00)).
Proof. vm_compute. reflexivity. Qed.
Example v6_full : ip_from_str (bytes "1:2:3:4:5:6:7::") = Some (V6 [x00;x01;x00;x02;x00;x03;x00;x04;x00;x05;x00;x06;x00;x07;x00;x00]).
Proof. vm_compute. reflexivity. Qed.
Example v6_bad : ip_from_str (bytes "1:2:3:4:5:6:7:8::") = None.
Proof. vm_compute. reflexivity. Qed.
Example v6_long_group : ip_from_str (bytes "12345::") = None.
Proof. vm_compute. reflexivity. Qed.

(* ------------------------------------------------------------------ *)
(** * Numbers *)

Definition digits_value (radix : Z) (acc : Z) (ds : list Z) : Z := foldl (λ a d, a * radix + d) acc ds.

Lemma to_digit_range radix b d : 0 <= radix → to_digit radix b = Some d → 0 <= d < radix.
Proof.
  intros Hr. unfold to_digit, in_range. pose proof (byte_val_range b) as [? ?].
  repeat case_match; intros [= <-]; lia.
Qed.

Lemma digits_value_mono radix acc ds :
  1 <= radix → 0 <= acc → Forall (λ d, 0 <= d) ds → acc <= digits_value radix acc ds.
Proof.
  intros Hr. revert acc. induction ds as [|d ds IH]; intros acc Ha Hd; simpl; [lia|].
  apply Forall_cons in Hd as [Hd Hds]. etransitivity; [|apply IH; [nia|done]]. nia.
Qed.

(** Where the loop stops: at a byte that is no digit. *)
Definition stops (radix : Z) (r : list byte) : Prop :=
  match r with [] => True | b :: _ => to_digit radix b = None end.

(** The loop reads a block of digits: it returns their value and their number. *)
Lemma digit_loop_reads radix limit m s ds vs r : ∀ c acc,
  mapM (to_digit radix) ds = Some vs → s = ds ++ r → stops radix r → 1 <= radix → 0 <= acc →
  digits_value radix acc vs < limit → (c + length ds ≤ m)%nat →
  digit_loop radix limit m c acc s = Some (digits_value radix acc vs, (c + length ds)%nat, r).
Proof.
  intros c acc. revert s vs c acc. induction ds as [|b ds IH]; intros s vs c acc Hm -> Hs Hr Ha Hlim Hlen.
  - simpl in Hm. injection Hm as <-. rewrite Nat.add_0_r. destruct r as [|b r]; [done|]. simpl in *. by rewrite Hs.
  - apply mapM_Some in Hm. inversion Hm as [|? v ? vs' Hb Hvs]; subst. cbn [app digit_loop]. rewrite Hb.
    pose proof (to_digit_range radix b v ltac:(lia) Hb).
    assert (Hnn : Forall (λ d, 0 <= d) vs').
    { clear -Hvs Hr. induction Hvs as [|?? ?? Hx]; constructor; [|done]. apply to_digit_range in Hx; lia. }
    pose proof (digits_value_mono radix (acc * radix + v) vs' Hr ltac:(nia) Hnn) as Hmono.
    simpl in Hlim, Hlen. rewrite (proj2 (Z.ltb_lt _ _)) by lia.
    rewrite (proj2 (Nat.ltb_ge _ _)) by lia.
    rewrite (IH (ds ++ r) vs'); [|by apply mapM_Some|done|done|done|nia|done|lia].
    simpl. by rewrite Nat.add_succ_r.
Qed.

Lemma digit_loop_inv radix limit m s : ∀ c acc n c' r,
  1 <= radix → 0 <= acc < limit → digit_loop radix limit m c acc s = Some (n, c', r) →
  ∃ ds vs, s = ds ++ r ∧ mapM (to_digit radix) ds = Some vs ∧ n = digits_value radix acc vs ∧
    c' = (c + length ds)%nat ∧ stops radix r ∧ 0 <= n < limit ∧ (c ≤ m → c' ≤ m)%nat.
Proof.
  induction s as [|b s IH]; intros c acc n c' r Hr Ha; cbn [digit_loop].
  { intros [= <- <- <-]. exists [], []. by rewrite Nat.add_0_r. }
  destruct (to_digit radix b) as [d|] eqn:Ed.
  2:{ intros [= <- <- <-]. exists [], []. rewrite Nat.add_0_r. by repeat split; try apply Ha. }
  pose proof (to_digit_range radix b d ltac:(lia) Ed).
  destruct (Z.ltb_spec (acc * radix + d) limit); [|done].
  destruct (Nat.ltb_spec m (S c)); [done|]. intros Hl.
  apply IH in Hl as (ds & vs & -> & Hm & -> & -> & Hst & Hn & Hc); [|done|nia].
  exists (b :: ds), (d :: vs). repeat split; [|simpl; lia|done|apply Hn|apply Hn|lia].
  apply mapM_Some. constructor; [done|]. by apply mapM_Some.
Qed.

(** ** Decimal *)

Lemma dec_loop_app f n acc : dec_loop f n acc = dec_loop f n [] ++ acc.
Proof.
  revert n acc. induction f as [|f IH]; intros n acc; simpl; [done|].
  case_match; [done|]. rewrite IH, (IH _ [_]), <- app_assoc. done.
Qed.

(** More fuel than needed changes nothing. *)
Lemma dec_loop_fuel f g n :
  0 <= n < 2 ^ Z.of_nat f → n < 2 ^ Z.of_nat g → f ≠ 0%nat → g ≠ 0%nat → dec_loop f n [] = dec_loop g n [].
Proof.
  revert g n. induction f as [|f IH]; intros g n Hf Hg H0 H1; [done|].
  destruct g as [|g]; [done|]. simpl. destruct (Z.eqb_spec (n / 10) 0) as [|Hne]; [done|].
  rewrite dec_loop_app, (dec_loop_app g). f_equal.
  rewrite Nat2Z.inj_succ, Z.pow_succ_r in Hf, Hg by lia.
  pose proof (Z.div_pos n 10 ltac:(lia) ltac:(lia)).
  assert (n / 10 < 2 ^ Z.of_nat f) by (apply Z.div_lt_upper_bound; lia).
  assert (n / 10 < 2 ^ Z.of_nat g) by (apply Z.div_lt_upper_bound; lia).
  apply IH; [lia|lia| |]; intros ->; simpl in *; lia.
Qed.

Lemma to_dec_digit d : 0 <= d < 10 → to_dec d = [digit_byte d].
Proof.
  intros Hd. unfold to_dec. cbn [dec_loop]. rewrite Z.div_small, Z.mod_small by lia. done.
Qed.

Lemma to_dec_snoc q d : 0 < q → 0 <= d < 10 → to_dec (q * 10 + d) = to_dec q ++ [digit_byte d].
Proof.
  intros Hq Hd. unfold to_dec at 1. cbn [dec_loop].
  replace ((q * 10 + d) / 10) with q by (rewrite Z.div_add_l, (Z.div_small d) by lia; lia).
  replace ((q * 10 + d) mod 10) with d by (rewrite Z.add_comm, Z.mod_add, Z.mod_small by lia; lia).
  rewrite (proj2 (Z.eqb_neq _ _)) by lia. rewrite dec_loop_app. f_equal.
  pose proof (in_width_log2 q ltac:(lia)) as [_ Hl1]. pose proof (in_width_log2 (q * 10 + d) ltac:(lia)) as [_ Hl2].
  pose proof (Z.log2_nonneg q). pose proof (Z.log2_nonneg (q * 10 + d)).
  assert (Hlog : Z.succ (Z.log2 q) <= Z.log2 (q * 10 + d)).
  { rewrite <- Z.log2_double by done. apply Z.log2_le_mono. lia. }
  assert (Hq2 : q < 2 ^ Z.log2 (q * 10 + d)).
  { eapply Z.lt_le_trans; [exact Hl1|]. apply Z.pow_le_mono_r; lia. }
  unfold to_dec. apply dec_loop_fuel; [split; [lia|]| | |done].
  - rewrite Z2Nat.id by done. done.
  - rewrite Nat2Z.inj_succ, Z2Nat.id by done. done.
  - lia.
Qed.

Lemma to_digit_10 b d : to_digit 10 b = Some d → b = digit_byte d ∧ 0 <= d < 10.
Proof.
  intros H. pose proof (to_digit_range 10 b d ltac:(lia) H) as Hd. split; [|done].
  apply byte_val_inj. rewrite digit_byte_val by done. revert H. unfold to_digit, in_range.
  pose proof (byte_val_range b). repeat case_match; intros [= <-]; unfold in_width in *; lia.
Qed.

Lemma to_digit_of_digit d : 0 <= d < 10 → to_digit 10 (digit_byte d) = Some d.
Proof.
  intros Hd. unfold to_digit, in_range. rewrite digit_byte_val by done.
  replace (_ && _) with true by lia. replace (48 + d - 48) with d by lia.
  by rewrite (proj2 (Z.ltb_lt _ _)) by lia.
Qed.

Lemma digits_value_snoc radix acc vs v :
  digits_value radix acc (vs ++ [v]) = digits_value radix acc vs * radix + v.
Proof. unfold digits_value. by rewrite foldl_app. Qed.

(** The decimal notation of a number is the only block of digits without a leading
    zero that denotes it. *)
Lemma to_dec_unique ds vs :
  mapM (to_digit 10) ds = Some vs → ds ≠ [] → (head ds = Some x30 → length ds = 1%nat) →
  to_dec (digits_value 10 0 vs) = ds ∧ (0 < digits_value 10 0 vs ∨ length ds = 1%nat).
Proof.
  revert vs. induction ds as [|b ds IH] using rev_ind; intros vs Hm Hne Hz; [done|]. clear Hne.
  apply mapM_Some, Forall2_app_inv_l in Hm as (vs1 & vs2 & Hm & Hb & ->).
  inversion Hb as [|? v ? ? Hv Hn]; subst. inversion Hn; subst. apply to_digit_10 in Hv as [-> Hv].
  rewrite digits_value_snoc. destruct ds as [|b0 ds].
  { inversion Hm; subst. simpl. rewrite to_dec_digit by lia. split; [done|]. by right. }
  destruct (IH vs1) as [Hd Hp]; [by apply mapM_Some|done|..].
  { intros Hh. simpl in Hz. specialize (Hz Hh). rewrite length_app in Hz. simpl in Hz. lia. }
  assert (Hpos : 0 < digits_value 10 0 vs1).
  { destruct Hp as [|Hone]; [done|]. destruct ds; [|done]. inversion Hm as [|? v0 ? ? Hv0 Hn0]; subst.
    inversion Hn0; subst. apply to_digit_10 in Hv0 as [-> Hv0]. simpl.
    destruct (decide (v0 = 0)) as [->|]; [|lia]. by specialize (Hz eq_refl). }
  rewrite to_dec_snoc, Hd by done. split; [done|]. left. lia.
Qed.

(* ------------------------------------------------------------------ *)
(** * IPv4 *)

(** What [read_number] sees of the decimal notation of an octet. *)
Definition octet_digits (n : Z) : bool :=
  match mapM (to_digit 10) (to_dec n) with
  | Some vs => (digits_value 10 0 vs =? n) && (length (to_dec n) <=? 3)%nat && (0 <? length (to_dec n))%nat
               && (negb (bool_decide (head (to_dec n) = Some x30)) || (length (to_dec n) =? 1)%nat)
  | None => false
  end.

Lemma octet_digits_all n : u8? n → octet_digits n = true.
Proof.
  intros [H0 H1]. assert (Hall : forallb (λ k, octet_digits (Z.of_nat k)) (seq 0 256) = true)
    by (vm_compute; reflexivity).
  rewrite forallb_forall in Hall. specialize (Hall (Z.to_nat n)).
  rewrite Z2Nat.id in Hall by done. apply Hall, in_seq. change (2 ^ 8) with 256 in H1. lia.
Qed.

Lemma read_octet_iff s n r :
  read_number 10 8 3 false s = Some (n, r) ↔ u8? n ∧ s = to_dec n ++ r ∧ stops 10 r.
Proof.
  unfold read_number. split.
  - destruct (digit_loop _ _ _ _ _ _) as [[[m c] r0]|] eqn:El; [|done]. cbn [mbind option_bind].
    apply digit_loop_inv in El as (ds & vs & -> & Hm & -> & -> & Hst & Hn & _); [|done..]. simpl.
    case_decide as Hc; [done|]. destruct (bool_decide _ && _) eqn:Ez; [done|]. intros [= <- <-].
    split; [done|]. split; [|done]. destruct (to_dec_unique ds vs) as [-> _]; [done|by intros ->| |done].
    intros Hh. destruct ds as [|b ds]; [done|]. simpl in Hh. injection Hh as ->.
    rewrite bool_decide_true in Ez by done. simpl in Ez. destruct ds; [done|]. done.
  - intros (Hn & -> & Hst). pose proof (octet_digits_all n Hn) as Ho. unfold octet_digits in Ho.
    destruct (mapM _ _) as [vs|] eqn:Em; [|done]. rewrite !andb_true_iff in Ho. destruct Ho as [[[Hv Hl] Hp] Hz].
    apply Z.eqb_eq in Hv. apply Nat.leb_le in Hl. apply Nat.ltb_lt in Hp.
    rewrite (digit_loop_reads 10 (2 ^ 8) 3 _ (to_dec n) vs r 0 0);
      [|done|done|done|lia|lia|rewrite Hv; apply Hn|done].
    cbn [mbind option_bind]. rewrite Hv, decide_False by lia.
    replace (bool_decide (head (to_dec n ++ r) = Some x30)) with (bool_decide (head (to_dec n) = Some x30))
      by (destruct (to_dec n); [simpl in Hp; lia|done]).
    destruct (bool_decide _); simpl in Hz |- *; [|done]. apply Nat.eqb_eq in Hz. by rewrite Hz.
Qed.

Fixpoint dotted_from (index : nat) (os : list byte) : list byte :=
  match os with
  | [] => []
  | o :: os' => (match index with O => [] | S _ => [x2e] end) ++ to_dec (byte_val o) ++ dotted_from (S index) os'
  end.

Lemma dotted_from_0 os : dotted_from 0 os = dotted os.
Proof.
  assert (Hs : ∀ i o os, dotted_from (S i) (o :: os) = x2e :: dotted (o :: os)).
  { intros i o os'. revert i o. induction os' as [|o' os' IH]; intros i o; cbn [dotted_from app].
    - unfold dotted. simpl. by rewrite app_nil_r.
    - unfold dotted. simpl. f_equal. f_equal. apply (IH (S i) o'). }
  destruct os as [|o [|o' os]]; [done|by unfold dotted; simpl; rewrite app_nil_r|].
  change (dotted (o :: o' :: os)) with (to_dec (byte_val o) ++ x2e :: dotted (o' :: os)).
  by rewrite <- (Hs 0%nat).
Qed.

Lemma read_given_char_iff c s r : read_given_char c s = Some (tt, r) ↔ s = c :: r.
Proof.
  destruct s as [|b s]; simpl; [done|]. case_decide; split; congruence.
Qed.

Lemma read_separator_iff {A} sep index (inner : parser A) s x :
  read_separator sep index inner s = Some x ↔
  ∃ s', s = (match index with O => [] | S _ => [sep] end) ++ s' ∧ inner s' = Some x.
Proof.
  destruct index as [|i]; cbn [read_separator].
  { split; [intros H; by exists s|by intros (? & -> & ?)]. }
  rewrite bind_Some. split.
  - intros ([[] r] & ->%read_given_char_iff & Hi). by exists r.
  - intros (s' & -> & Hi). exists (tt, s'). split; [|done]. by apply read_given_char_iff.
Qed.

Lemma dotted_from_stops index os r :
  (os = [] → stops 10 r) → stops 10 (dotted_from (S index) os ++ r).
Proof. destruct os; [intros H; by apply H|done]. Qed.

Lemma read_octets_iff todo index s os r :
  read_octets todo index s = Some (os, r) ↔
  length os = todo ∧ s = dotted_from index os ++ r ∧ (todo ≠ 0%nat → stops 10 r).
Proof.
  revert index s os r. induction todo as [|k IH]; intros index s os r; cbn [read_octets].
  { split; [by intros [= <- <-]|]. intros (Hl & -> & _). by destruct os. }
  rewrite bind_Some. split.
  - intros ([n s1] & (s2 & -> & (Hn & -> & Hst)%read_octet_iff)%read_separator_iff & H2).
    apply bind_Some in H2 as ([os' r'] & (Hl & -> & Hr)%IH & [= <- <-]).
    split_and!; [by simpl; f_equal| |].
    + cbn [dotted_from]. rewrite byte_val_of_val by done. by rewrite <- !app_assoc.
    + intros _. destruct k; [|by apply Hr]. by destruct os'.
  - destruct os as [|o os]; [by intros (? & _)|]. intros (Hl & -> & Hr). simpl in Hl. injection Hl as Hl.
    exists (byte_val o, dotted_from (S index) os ++ r). split.
    + apply read_separator_iff. eexists. split; [cbn [dotted_from]; by rewrite <- app_assoc|].
      rewrite <- app_assoc. apply read_octet_iff. split_and!; [apply byte_val_range|done|].
      apply dotted_from_stops. intros _. by apply Hr.
    + apply bind_Some. exists (os, r). rewrite byte_of_val_val. split; [|done]. apply IH.
      split_and!; [done|done|]. intros _. by apply Hr.
Qed.

Lemma read_ipv4_iff s os r :
  read_ipv4_addr s = Some (os, r) ↔ length os = 4%nat ∧ s = dotted os ++ r ∧ stops 10 r.
Proof. unfold read_ipv4_addr. rewrite read_octets_iff, dotted_from_0. naive_solver. Qed.

(** A dotted quad is the only text that parses to an IPv4 address: four decimal octets
    without leading zeros. *)
Lemma ip_from_str_v4 s os : ip_from_str s = Some (V4 os) ↔ length os = 4%nat ∧ s = dotted os.
Proof.
  unfold ip_from_str, read_ip_addr. rewrite bind_Some. split.
  - intros ([ip r] & Hr & Hip). case_decide as Hn; [|done]. injection Hip as ->. subst r.
    destruct (read_ipv4_addr s) as [[os' r']|] eqn:E4.
    + injection Hr as <- ->. apply read_ipv4_iff in E4 as (? & -> & _). by rewrite app_nil_r.
    + apply bind_Some in Hr as ([? ?] & _ & [= ]).
  - intros [Hl ->]. exists (V4 os, []). split; [|by rewrite decide_True].
    rewrite (proj2 (read_ipv4_iff _ os [])); [done|]. by rewrite app_nil_r.
Qed.

(* ------------------------------------------------------------------ *)
(** * IPv6 *)

Lemma read_groups_length todo index s os v4 r :
  read_groups todo index s = (os, v4, r) → (length os ≤ 2 * todo)%nat.
Proof.
  revert index s os v4 r. induction todo as [|k IH]; intros index s os v4 r; cbn [read_groups].
  { intros [= <- _ _]. done. }
  destruct (if decide (k = 0%nat) then None else _) as [[os4 r4]|] eqn:E4.
  - intros [= <- _ _]. case_decide as Hk; [done|].
    apply read_separator_iff in E4. destruct E4 as (s' & _ & E4). apply read_ipv4_iff in E4 as [Hl _]. lia.
  - clear E4. destruct (read_separator _ _ _ _) as [[g r1]|]; [|intros [= <- _ _]; simpl; lia].
    destruct (read_groups k (S index) r1) as [[os' v4'] r'] eqn:Eg. intros [= <- _ _].
    apply IH in Eg. simpl. lia.
Qed.

(** Every address that parses has the octets of its family. *)
Lemma ip_from_str_typed s ip :
  ip_from_str s = Some ip → match ip with V4 os => length os = 4%nat | V6 os => length os = 16%nat end.
Proof.
  unfold ip_from_str, read_ip_addr. intros H. apply bind_Some in H as ([ip' r] & Hr & Hip).
  case_decide; [|done]. injection Hip as ->. destruct (read_ipv4_addr s) as [[os r']|] eqn:E4.
  { injection Hr as <- _. apply read_ipv4_iff in E4. tauto. }
  apply bind_Some in Hr as ([os r'] & H6 & [= <- _]). revert H6. unfold read_ipv6_addr.
  destruct (read_groups 8 0 s) as [[hd v4] r1] eqn:Eh. case_decide as Hl; [by intros [= <- _]|].
  destruct v4; [done|]. intros H6. apply bind_Some in H6 as ([? r2] & _ & H6).
  apply bind_Some in H6 as ([? r3] & _ & H6).
  destruct (read_groups _ 0 r3) as [[tl v4t] r4] eqn:Et. injection H6 as <- _.
  apply read_groups_length in Eh, Et. rewrite !length_app, length_replicate.
  pose proof (Nat.div_mod_eq (length hd) 2). pose proof (Nat.mod_upper_bound (length hd) 2). lia.
Qed.

(** The full notation of RFC 4291: eight groups of four hexadecimal digits. *)
Definition hex_digit_byte (d : Z) : byte := byte_of_val (if d <? 10 then 48 + d else 87 + d).
Definition hex2 (o : byte) : list byte := [hex_digit_byte (byte_val o / 16); hex_digit_byte (byte_val o mod 16)].
Fixpoint colon_hex_from (index : nat) (os : list byte) : list byte :=
  match os with
  | hi :: lo :: os' =>
      (match index with O => [] | S _ => [x3a] end) ++ hex2 hi ++ hex2 lo ++ colon_hex_from (S index) os'
  | _ => []
  end.
Definition colon_hex : list byte → list byte := colon_hex_from 0.

Lemma to_digit_hex d : 0 <= d < 16 → to_digit 16 (hex_digit_byte d) = Some d ∧ hex_digit_byte d ≠ x2e.
Proof.
  intros Hd. assert (Hall : forallb (λ k, bool_decide (to_digit 16 (hex_digit_byte (Z.of_nat k)) = Some (Z.of_nat k))
      && bool_decide (hex_digit_byte (Z.of_nat k) ≠ x2e)) (seq 0 16) = true) by (vm_compute; reflexivity).
  rewrite forallb_forall in Hall. specialize (Hall (Z.to_nat d) ltac:(apply in_seq; lia)).
  rewrite Z2Nat.id in Hall by lia. by apply andb_true_iff in Hall as [?%bool_decide_eq_true ?%bool_decide_eq_true].
Qed.

Lemma read_group_hex hi lo r :
  stops 16 r → read_number 16 16 4 true (hex2 hi ++ hex2 lo ++ r) = Some (byte_val hi * 256 + byte_val lo, r).
Proof.
  intros Hst. pose proof (byte_val_range hi) as Hhi. pose proof (byte_val_range lo) as Hlo.
  unfold in_width in Hhi, Hlo. change (2 ^ 8) with 256 in Hhi, Hlo.
  assert (Hn : ∀ v, 0 <= v < 256 → 0 <= v / 16 < 16 ∧ 0 <= v mod 16 < 16 ∧ v = 16 * (v / 16) + v mod 16).
  { intros v Hv. pose proof (Z.div_mod v 16). pose proof (Z.mod_pos_bound v 16). lia. }
  destruct (Hn _ Hhi) as (H1 & H2 & Eh). destruct (Hn _ Hlo) as (H3 & H4 & El).
  unfold read_number. rewrite app_assoc.
  rewrite (digit_loop_reads 16 (2 ^ 16) 4 _ (hex2 hi ++ hex2 lo)
             [byte_val hi / 16; byte_val hi mod 16; byte_val lo / 16; byte_val lo mod 16] r 0 0).
  - cbn [mbind option_bind]. rewrite decide_False by done. cbn [negb andb]. do 2 f_equal.
    unfold digits_value. cbn [foldl]. lia.
  - apply mapM_Some. unfold hex2. cbn [app]. repeat constructor; by apply to_digit_hex.
  - done.
  - done.
  - lia.
  - lia.
  - unfold digits_value. cbn [foldl]. change (2 ^ 16) with 65536. lia.
  - done.
Qed.

Lemma colon_hex_no_dot index os : x2e ∉ colon_hex_from index os.
Proof.
  revert index. induction os as [os IH] using (induction_ltof1 _ length). unfold ltof in IH.
  intros index. destruct os as [|hi [|lo os]]; [apply not_elem_of_nil..|]. cbn [colon_hex_from].
  assert (Hx : ∀ o, x2e ∉ hex2 o).
  { intros o. pose proof (byte_val_range o) as Ho. unfold in_width in Ho. change (2 ^ 8) with 256 in Ho.
    pose proof (Z.div_mod (byte_val o) 16). pose proof (Z.mod_pos_bound (byte_val o) 16).
    unfold hex2. rewrite !not_elem_of_cons. split_and!; [..|apply not_elem_of_nil];
      apply not_eq_sym, to_digit_hex; lia. }
  rewrite !not_elem_of_app. split_and!; [destruct index; [apply not_elem_of_nil|]|apply Hx..|].
  - apply not_elem_of_cons. split; [done|apply not_elem_of_nil].
  - apply IH. simpl. lia.
Qed.

(** A text without dots holds no IPv4 address. *)
Lemma read_ipv4_needs_dot s : x2e ∉ s → read_ipv4_addr s = None.
Proof.
  intros Hd. destruct (read_ipv4_addr s) as [[os r]|] eqn:E; [|done]. exfalso.
  apply read_ipv4_iff in E as (Hl & -> & _). apply Hd. destruct os as [|o1 [|o2 os]]; [done..|].
  change (dotted (o1 :: o2 :: os)) with (to_dec (byte_val o1) ++ x2e :: dotted (o2 :: os)).
  rewrite !elem_of_app, elem_of_cons. auto.
Qed.

Lemma read_groups_full n index os :
  length os = (2 * n)%nat → read_groups n index (colon_hex_from index os) = (os, false, []).
Proof.
  revert index os. induction n as [|n IH]; intros index os Hl; [by destruct os|].
  destruct os as [|hi [|lo os]]; [simpl in Hl; lia..|]. cbn [read_groups].
  assert (Hdot : read_separator x3a index read_ipv4_addr (colon_hex_from index (hi :: lo :: os)) = None).
  { destruct (read_separator _ _ _ _) as [x|] eqn:E; [|done].
    apply read_separator_iff in E as (s' & Hs & H4). rewrite read_ipv4_needs_dot in H4; [done|].
    intros Hin. apply (colon_hex_no_dot index (hi :: lo :: os)). rewrite Hs, elem_of_app. by right. }
  rewrite Hdot. replace (if decide _ then None else None) with (@None (list byte * list byte)) by (by case_decide).
  rewrite (proj2 (read_separator_iff _ _ _ _ (byte_val hi * 256 + byte_val lo, colon_hex_from (S index) os))).
  - rewrite IH by (simpl in Hl; lia). unfold group_octets.
    pose proof (byte_val_range lo) as Hlo. unfold in_width in Hlo. change (2 ^ 8) with 256 in Hlo.
    rewrite Z.div_add_l, (Z.div_small (byte_val lo)), Z.add_0_r by lia.
    rewrite Z.add_comm, Z.mod_add, Z.mod_small by lia. by rewrite !byte_of_val_val.
  - eexists. split; [by cbn [colon_hex_from]|]. apply read_group_hex. by destruct os as [|? [|? ?]].
Qed.

(** The full notation of any sixteen octets parses to them. *)
Lemma ip_from_str_v6 os : length os = 16%nat → ip_from_str (colon_hex os) = Some (V6 os).
Proof.
  intros Hl. unfold ip_from_str, read_ip_addr. rewrite read_ipv4_needs_dot by apply colon_hex_no_dot.
  unfold read_ipv6_addr. unfold colon_hex. rewrite read_groups_full by done.
  rewrite decide_True by done. cbn [mbind option_bind]. by rewrite decide_True.
Qed.
