(* ===== verification/CgroupMem.v ===== *)
(** crates/kernel/src/cgroup_mem.rs: memory pressure through a cgroup.  Paths are
    absolute component lists, which is how [PathBuf] compares them; the file
    system is the interface [FsApi], and [FsLaws] is what a write to it promises. *)

From Stdlib Require Import Strings.Byte.
From S2P Require Import Prelude RustStd Core Effect.

(* ------------------------------------------------------------------ *)
(** * Paths and text *)

Definition path : Type := list (list byte).
Definition SLASH : byte := x2f.

(** The components of a path's text: repeated separators and ["."] do not count. *)
Definition components (s : list byte) : path :=
  filter (λ c, c ≠ [] ∧ c ≠ bytes ".") (split_on SLASH s).

(** [p.join(s)]: an absolute [s] replaces [p]. *)
Definition path_join (p : path) (s : list byte) : path :=
  if starts_with [SLASH] s then components s else p ++ components s.

(** [p.parent()]: the root has none. *)
Definition path_parent (p : path) : option path :=
  match p with [] => None | _ => Some (take (length p - 1) p) end.

(** [p.display()]. *)
Definition display (p : path) : string :=
  String.string_of_list_byte (concat ((λ c, SLASH :: c) <$> p)).

(** [s.trim_start_matches('/')]. *)
Fixpoint trim_slashes (s : list byte) : list byte :=
  match s with
  | [] => []
  | b :: s' => if decide (b = SLASH) then trim_slashes s' else s
  end.

(** [s.strip_prefix(p)]. *)
Definition strip_prefix (p s : list byte) : option (list byte) :=
  if starts_with p s then Some (drop (length p) s) else None.

(** [text.lines()]: a line ends at a newline, with a carriage return before it
    dropped; what follows the last newline is a line unless it is empty. *)
Definition strip_cr (l : list byte) : list byte :=
  match rev l with x0d :: r => rev r | _ => l end.
Fixpoint finish_lines (pieces : list (list byte)) : list (list byte) :=
  match pieces with
  | [] => []
  | [last] => match last with [] => [] | _ => [last] end
  | l :: rest => strip_cr l :: finish_lines rest
  end.
Definition lines (text : list byte) : list (list byte) := finish_lines (split_on x0a text).

Fixpoint find_map {A B} (f : A → option B) (l : list A) : option B :=
  match l with
  | [] => None
  | a :: l' => match f a with Some b => Some b | None => find_map f l' end
  end.

(* ------------------------------------------------------------------ *)
(** * The file system *)

Class FsApi (W : Type) := {
  fs_exists : path → W → bool;
  fs_read_to_string : path → W → result io_error (list byte) * W;
  fs_create_dir_all : path → W → result io_error unit * W;
  fs_write : path → list byte → W → result io_error unit * W
}.

(** What a file was last set to; a failed write or a new directory changes no file. *)
Class FsLaws (W : Type) `{FsApi W} := {
  fs_content : path → W → option (list byte);
  fs_write_content : ∀ p c w r w', fs_write p c w = (r, w') → ∀ q,
    fs_content q w' = if is_ok r then (if decide (q = p) then Some c else fs_content q w)
                      else fs_content q w
}.

(* ------------------------------------------------------------------ *)
(** * cgroup_mem.rs *)

Inductive PressureMode := Hard | Soft.

Record CgroupMemoryPressureInjector := {
  cg_id : string; cg_pid : Z; cg_limit_bytes : Z; cg_mode : PressureMode;
  cg_setup : option (path * list byte * list byte);
  cg_armed : bool
}.

Definition CgroupMemoryPressureInjector_new (id : string) (pid limit : Z) (mode : PressureMode)
  : CgroupMemoryPressureInjector :=
  {| cg_id := id; cg_pid := pid; cg_limit_bytes := limit; cg_mode := mode;
     cg_setup := None; cg_armed := false |}.

Definition cg_set (setup : option (path * list byte * list byte)) (armed : bool)
    (i : CgroupMemoryPressureInjector) : CgroupMemoryPressureInjector :=
  {| cg_id := cg_id i; cg_pid := cg_pid i; cg_limit_bytes := cg_limit_bytes i; cg_mode := cg_mode i;
     cg_setup := setup; cg_armed := armed |}.

Definition v1_root : path := components (bytes "/sys/fs/cgroup/memory").
Definition v2_mount : path := components (bytes "/sys/fs/cgroup").
Definition v2_unified : path := components (bytes "/sys/fs/cgroup/unified").

Section cgroup.
Context {W : Type} `{FsApi W}.

(** [p.exists()]. *)
Definition io_exists (p : path) : io W bool := λ w, (Ok (fs_exists p w), w).

Definition locate_subtree (i : CgroupMemoryPressureInjector) : io W path :=
  v1 ← io_exists (path_join v1_root (bytes "memory.limit_in_bytes"));
  if (v1 : bool) then mret v1_root
  else
    our_cgroup ← io_map_err Io (fs_read_to_string (components (bytes "/proc/self/cgroup")));
    v2_path ← io_ok_or (ArmFailed (cg_id i) "no v2 cgroup entry in /proc/self/cgroup")
                (find_map (strip_prefix (bytes "0::")) (lines our_cgroup));
    let v2_path := trim_slashes v2_path in
    pure_v2 ← io_exists (components (bytes "/sys/fs/cgroup/cgroup.controllers"));
    has_max ← (if (pure_v2 : bool)
               then io_exists (path_join (path_join v2_mount v2_path) (bytes "memory.max"))
               else mret false);
    if (has_max : bool) then mret (path_join v2_mount v2_path)
    else
      hybrid ← io_exists (path_join (path_join v2_unified v2_path) (bytes "memory.max"));
      if (hybrid : bool) then mret (path_join v2_unified v2_path)
      else io_fail (ArmFailed (cg_id i)
                      "no usable memory controller on either v1 or v2 cgroup hierarchy").

Definition limit_file_of (is_v1 : bool) (mode : PressureMode) : list byte * list byte :=
  match is_v1, mode with
  | true, Hard => (bytes "memory.limit_in_bytes", bytes "9223372036854775807")
  | true, Soft => (bytes "memory.soft_limit_in_bytes", bytes "9223372036854775807")
  | false, Hard => (bytes "memory.max", bytes "max")
  | false, Soft => (bytes "memory.high", bytes "max")
  end.

(** Where the fault's cgroup goes: beside our own, unless that is v1 or a v2 mount. *)
Definition parent_dir_of (is_v1 : bool) (subtree : path) : path :=
  if is_v1 || bool_decide (subtree = v2_mount ∨ subtree = v2_unified) then subtree
  else default subtree (path_parent subtree).

Definition child_name (i : CgroupMemoryPressureInjector) : list byte :=
  bytes "blackswan-" ++ bytes (cg_id i).

Definition text (b : list byte) : string := String.string_of_list_byte b.

(** The body of [ensure_setup] when there is no setup yet: what [self.setup] becomes. *)
Definition make_setup (i : CgroupMemoryPressureInjector) : io W (path * list byte * list byte) :=
  subtree ← locate_subtree i;
  is_v1 ← io_exists (path_join subtree (bytes "memory.limit_in_bytes"));
  let '(limit_file, unlimited) := limit_file_of is_v1 (cg_mode i) in
  let parent_dir := parent_dir_of is_v1 subtree in
  let child := path_join parent_dir (child_name i) in
  _ ← io_map_err (λ e, ArmFailed (cg_id i)
        ("creating cgroup " +:+ display child +:+ ": " +:+ io_text e)) (fs_create_dir_all child);
  there ← io_exists (path_join child limit_file);
  _ ← (if negb is_v1 && negb there
       then io_ignore (fs_write (path_join parent_dir (bytes "cgroup.subtree_control")) (bytes "+memory"))
       else mret tt);
  _ ← io_map_err (λ e, ArmFailed (cg_id i)
        ("moving pid " +:+ to_string (cg_pid i) +:+ " into cgroup: " +:+ io_text e))
        (fs_write (path_join child (bytes "cgroup.procs")) (to_dec (cg_pid i)));
  mret (child, limit_file, unlimited).

(** [Ok] hands back what [self.setup] now holds, the value [arm]'s [expect] finds. *)
Definition ensure_setup (i : CgroupMemoryPressureInjector) (w : W)
  : result HarnessError (path * list byte * list byte) * CgroupMemoryPressureInjector * W :=
  match cg_setup i with
  | Some s => (Ok s, i, w)
  | None =>
      match make_setup i w with
      | (Ok s, w') => (Ok s, cg_set (Some s) (cg_armed i) i, w')
      | (Err e, w') => (Err e, i, w')
      end
  end.

Definition cgroup_arm (ctx : FaultContext) (i : CgroupMemoryPressureInjector) (w : W)
  : result HarnessError unit * CgroupMemoryPressureInjector * W :=
  match ensure_setup i w with
  | (Err e, i1, w1) => (Err e, i1, w1)
  | (Ok (dir, limit_file, _), i1, w1) =>
      match fs_write (path_join dir limit_file) (to_dec (cg_limit_bytes i1)) w1 with
      | (Ok _, w2) => (Ok tt, cg_set (cg_setup i1) true i1, w2)
      | (Err e, w2) =>
          (Err (ArmFailed (cg_id i1) ("writing " +:+ text limit_file +:+ ": " +:+ io_text e)), i1, w2)
      end
  end.

Definition cgroup_disarm (i : CgroupMemoryPressureInjector) (w : W)
  : result HarnessError unit * CgroupMemoryPressureInjector * W :=
  match cg_setup i with
  | None => (Ok tt, cg_set None false i, w)
  | Some (dir, limit_file, unlimited) =>
      match fs_write (path_join dir limit_file) unlimited w with
      | (Ok _, w') => (Ok tt, cg_set (cg_setup i) false i, w')
      | (Err e, w') =>
          (Err (DisarmFailed (cg_id i) ("writing " +:+ text limit_file +:+ ": " +:+ io_text e)), i, w')
      end
  end.

#[global] Instance cgroup_injector : FaultInjector W CgroupMemoryPressureInjector := {|
  fi_id := cg_id; fi_arm := cgroup_arm; fi_disarm := cgroup_disarm; fi_is_armed := cg_armed
|}.

#[global] Instance cgroup_laws : FaultInjectorLaws W CgroupMemoryPressureInjector.
Proof. unfold cgroup_injector, cgroup_arm, ensure_setup, cgroup_disarm. injector_laws. Qed.

End cgroup.

(* ------------------------------------------------------------------ *)
(** * Lemmas *)

(** The limit files of the memory controller and what lifts each: on cgroup v2 [memory.max]
    and [memory.high] take the word [max], on v1 [memory.limit_in_bytes] and
    [memory.soft_limit_in_bytes] the largest [i64]. *)
Inductive lifted_by : PressureMode → bool → list byte → list byte → Prop :=
| lift_v2_hard : lifted_by Hard false (bytes "memory.max") (bytes "max")
| lift_v2_soft : lifted_by Soft false (bytes "memory.high") (bytes "max")
| lift_v1_hard : lifted_by Hard true (bytes "memory.limit_in_bytes") (bytes "9223372036854775807")
| lift_v1_soft : lifted_by Soft true (bytes "memory.soft_limit_in_bytes") (bytes "9223372036854775807").

Lemma limit_file_lifted v1 mode f u : limit_file_of v1 mode = (f, u) → lifted_by mode v1 f u.
Proof. destruct v1, mode; intros [= <- <-]; constructor. Qed.

Lemma lifted_by_version mode v v' f u : lifted_by mode v f u → lifted_by mode v' f u → v = v'.
Proof.
  intros H1 H2. assert (∀ v, lifted_by mode v f u → v = bool_decide (u ≠ bytes "max")) as Hu.
  { intros v0 Hv0. by destruct Hv0. }
  by rewrite (Hu _ H1), (Hu _ H2).
Qed.

(** What the injector keeps: its own cgroup, and a limit file with its own sentinel. *)
Definition setup_ok (i : CgroupMemoryPressureInjector) : Prop :=
  ∀ dir f u, cg_setup i = Some (dir, f, u) →
    (∃ parent, dir = path_join parent (child_name i)) ∧ ∃ v1, lifted_by (cg_mode i) v1 f u.

Section cgroup_lemmas.
Context {W : Type} `{FsApi W}.

Lemma make_setup_files i (w : W) dir f u w' :
  make_setup i w = (Ok (dir, f, u), w') →
  (∃ parent, dir = path_join parent (child_name i)) ∧ (∃ v1, lifted_by (cg_mode i) v1 f u) ∧
  (fs_exists (path_join v1_root (bytes "memory.limit_in_bytes")) w = true →
   dir = path_join v1_root (child_name i) ∧ lifted_by (cg_mode i) true f u).
Proof.
  unfold make_setup. intros (st & w1 & Hst & Hm)%io_bind_ok.
  apply io_bind_ok in Hm as (v1 & w2 & Hv & Hm).
  destruct (limit_file_of v1 (cg_mode i)) as [f' u'] eqn:Ef. apply limit_file_lifted in Ef.
  apply io_bind_ok in Hm as (? & w3 & _ & Hm). apply io_bind_ok in Hm as (? & w4 & _ & Hm).
  apply io_bind_ok in Hm as (? & w5 & _ & Hm). apply io_bind_ok in Hm as (? & w6 & _ & Hm).
  injection Hm as <- <- <- <-. split; [by eexists|]. split; [by exists v1|]. intros Hv1.
  unfold locate_subtree, mbind, io_bind, io_exists in Hst. rewrite Hv1 in Hst. injection Hst as <- <-.
  unfold io_exists in Hv. rewrite Hv1 in Hv. injection Hv as <- <-. by split.
Qed.

Lemma ensure_setup_cases i (w : W) r i1 w1 :
  setup_ok i → ensure_setup i w = (r, i1, w1) →
  setup_ok i1 ∧ cg_limit_bytes i1 = cg_limit_bytes i ∧ cg_mode i1 = cg_mode i ∧ cg_id i1 = cg_id i ∧
  ∀ s, r = Ok s → cg_setup i1 = Some s.
Proof.
  intros Hok. unfold ensure_setup. destruct (cg_setup i) as [s|] eqn:Es.
  - intros [= <- <- <-]. split_and!; [done..|]. by intros s' [= <-].
  - destruct (make_setup i w) as [[[[dir f] u]|e] w'] eqn:Em; intros [= <- <- <-].
    + split_and!; [|done..|by intros s' [= <-]]. intros d' f' u' [= <- <- <-].
      apply make_setup_files in Em as (? & ? & _). by split.
    + by split_and!.
Qed.

Lemma setup_ok_call c i (w : W) :
  setup_ok i → setup_ok (call_injector c i w).1.2 ∧
  cg_limit_bytes (call_injector c i w).1.2 = cg_limit_bytes i ∧ cg_mode (call_injector c i w).1.2 = cg_mode i ∧
  cg_id (call_injector c i w).1.2 = cg_id i.
Proof.
  intros Hok. destruct c as [ctx|]; cbn [call_injector fi_arm fi_disarm cgroup_injector].
  - unfold cgroup_arm. destruct (ensure_setup i w) as [[r i1] w1] eqn:E.
    destruct (ensure_setup_cases _ _ _ _ _ Hok E) as (Hok1 & ? & ? & ? & _).
    destruct r as [[[dir f] u]|]; [|done]. by destruct (fs_write _ _ w1) as [[?|?] w2].
  - unfold cgroup_disarm. destruct (cg_setup i) as [[[dir f] u]|] eqn:Es; [|split_and!; [by intros ???|done..]].
    destruct (fs_write _ _ w) as [[?|?] w2]; [|by split_and!]. split_and!; [|done..].
    intros d' f' u' E. cbn in *. apply (Hok d' f' u'). congruence.
Qed.

Lemma setup_ok_all cs i (w : W) :
  setup_ok i → setup_ok (call_all cs i w).1 ∧ cg_limit_bytes (call_all cs i w).1 = cg_limit_bytes i ∧
  cg_mode (call_all cs i w).1 = cg_mode i ∧ cg_id (call_all cs i w).1 = cg_id i.
Proof.
  revert i w. induction cs as [|c cs IH]; intros i w Hok; [done|]. cbn [call_all].
  destruct (setup_ok_call c i w Hok) as (Hok1 & Hl & Hm & Hi). destruct (call_injector c i w) as [[r i'] w'].
  cbn [fst snd] in *. destruct (IH i' w' Hok1) as (? & ? & ? & ?). split_and!; [done|congruence..].
Qed.

End cgroup_lemmas.

(** ** Where the cgroup goes *)

Lemma locate_pure_v2 {W} `{FsApi W} i (w : W) txt v2_path :
  fs_exists (path_join v1_root (bytes "memory.limit_in_bytes")) w = false →
  fs_read_to_string (components (bytes "/proc/self/cgroup")) w = (Ok txt, w) →
  find_map (strip_prefix (bytes "0::")) (lines txt) = Some v2_path →
  fs_exists (components (bytes "/sys/fs/cgroup/cgroup.controllers")) w = true →
  fs_exists (path_join (path_join v2_mount (trim_slashes v2_path)) (bytes "memory.max")) w = true →
  locate_subtree i w = (Ok (path_join v2_mount (trim_slashes v2_path)), w).
Proof.
  intros H1 H2 H3 H4 H5. unfold locate_subtree, mbind, io_bind, io_exists. rewrite H1.
  unfold io_map_err. rewrite H2. cbn [map_err]. unfold io_ok_or. rewrite H3. cbn [ok_or].
  rewrite H4, H5. done.
Qed.

Lemma trim_slashes_relative s : starts_with [SLASH] (trim_slashes s) = false.
Proof.
  induction s as [|b s IH]; [done|]. cbn [trim_slashes]. case_decide as Hb; [done|].
  unfold starts_with. cbn. apply bool_decide_eq_false. congruence.
Qed.

Lemma path_join_relative p s : starts_with [SLASH] s = false → path_join p s = p ++ components s.
Proof. intros H. unfold path_join. by rewrite H. Qed.

Lemma child_name_relative i : starts_with [SLASH] (child_name i) = false.
Proof. unfold child_name. reflexivity. Qed.

Lemma own_not_mount own last :
  own ++ [last] ≠ [bytes "unified"] →
  ¬ (v2_mount ++ own ++ [last] = v2_mount ∨ v2_mount ++ own ++ [last] = v2_unified).
Proof.
  intros Hu [E|E].
  - rewrite <- (app_nil_r v2_mount) in E at 2. apply app_inv_head in E. by destruct own.
  - change v2_unified with (v2_mount ++ [bytes "unified"]) in E. by apply app_inv_head in E.
Qed.

Lemma own_file own last name :
  starts_with [SLASH] name = false → components name = [name] →
  path_join (v2_mount ++ own ++ [last]) name = v2_mount ++ own ++ [last] ++ [name].
Proof. intros Hr Hc. rewrite path_join_relative, Hc by done. by rewrite <- !app_assoc. Qed.

Lemma parent_snoc p c : path_parent (p ++ [c]) = Some p.
Proof.
  unfold path_parent. rewrite length_app. destruct (p ++ [c]) as [|x l] eqn:E; [by destruct p|].
  rewrite <- E. cbn [length]. by rewrite Nat.add_sub, take_app_length.
Qed.

(* ------------------------------------------------------------------ *)
(** * Properties *)

(** C26: the limit is lifted where it was set, and in the way that file is lifted.  After
    any calls on a new injector, a successful [arm] leaves the configured byte limit in a
    limit file of the configured mode inside the injector's own cgroup
    [blackswan-<id>]; a later successful [disarm], whatever happened to the machine in
    between, writes to that same file the sentinel that belongs to it ([max] for the v2
    files, the largest [i64] for the v1 files) and changes no other file.  When the very
    first [arm] finds the v1 controller, the cgroup is below it and the file is the v1 one. *)
Theorem cgroup_disarm_lifts_the_limit {W} `{FsLaws W} cs ctx id pid limit mode (w0 : W) i1 w1 w2 i2 w3 :
  let x := call_all cs (CgroupMemoryPressureInjector_new id pid limit mode) w0 in
  fi_arm ctx x.1 x.2 = (Ok tt, i1, w1) → fi_disarm i1 w2 = (Ok tt, i2, w3) →
  ∃ parent v1 name u, let child := path_join parent (bytes "blackswan-" ++ bytes id) in
    let file := path_join child name in
    lifted_by mode v1 name u ∧
    fs_content file w1 = Some (to_dec limit) ∧ fs_content file w3 = Some u ∧
    (∀ q, q ≠ file → fs_content q w3 = fs_content q w2) ∧ fi_is_armed i2 = false ∧
    (cs = [] → fs_exists (path_join v1_root (bytes "memory.limit_in_bytes")) w0 = true →
     child = path_join v1_root (bytes "blackswan-" ++ bytes id) ∧ v1 = true).
Proof.
  intros x Harm Hdis. destruct (setup_ok_all cs (CgroupMemoryPressureInjector_new id pid limit mode) w0)
    as (Hok & Hl0 & Hm0 & Hid0); [by intros ???|]. fold x in Hok, Hl0, Hm0, Hid0. cbn in Hl0, Hm0, Hid0.
  cbn [fi_arm fi_disarm cgroup_injector] in Harm, Hdis. unfold cgroup_arm in Harm.
  destruct (ensure_setup x.1 x.2) as [[r i0] wa] eqn:E.
  destruct (ensure_setup_cases _ _ _ _ _ Hok E) as (Hok1 & Hl & Hm & Hid & Hs).
  destruct r as [[[dir f] u]|]; [|done]. specialize (Hs _ eq_refl).
  destruct (fs_write _ _ wa) as [[?|?] wb] eqn:Ew; [|done]. injection Harm as <- <-.
  unfold cgroup_disarm in Hdis. cbn [cg_set cg_setup] in Hdis. rewrite Hs in Hdis.
  destruct (fs_write _ u w2) as [[?|?] wc] eqn:Ew2; [|done]. injection Hdis as <- <-.
  assert (Hfiles : ∀ q, fs_content q wc = if decide (q = path_join dir f) then Some u else fs_content q w2)
    by (intros q; by rewrite (fs_write_content _ _ _ _ _ Ew2)).
  assert (Hlim : fs_content (path_join dir f) wb = Some (to_dec limit)).
  { rewrite (fs_write_content _ _ _ _ _ Ew), decide_True by done. cbn [is_ok]. by rewrite Hl, Hl0. }
  assert (Hmode : cg_mode i0 = mode) by congruence.
  assert (Hchild : child_name i0 = bytes "blackswan-" ++ bytes id) by (unfold child_name; congruence).
  destruct (Hok1 _ _ _ Hs) as [[parent Hdir] [v1 Hv]]. rewrite Hchild in Hdir. rewrite Hmode in Hv.
  assert (Hfirst : cs = [] → fs_exists (path_join v1_root (bytes "memory.limit_in_bytes")) w0 = true →
    dir = path_join v1_root (bytes "blackswan-" ++ bytes id) ∧ lifted_by mode true f u).
  { intros -> Hv1. unfold x, ensure_setup in E. cbn [call_all fst snd cg_setup CgroupMemoryPressureInjector_new] in E.
    destruct (make_setup _ w0) as [[s|e] w'] eqn:Em; [|done]. injection E as -> _ _.
    apply make_setup_files in Em as (_ & _ & Hk). by apply Hk. }
  exists parent, v1, f, u. cbn zeta. rewrite <- Hdir. split_and!; [done|done| | |done|].
  - by rewrite Hfiles, decide_True.
  - intros q Hq. by rewrite Hfiles, decide_False.
  - intros Hcs Hv1. destruct (Hfirst Hcs Hv1) as [-> Hl1]. split; [done|].
    by eapply lifted_by_version.
Qed.

(** On a pure cgroup v2 machine the fault's cgroup is a sibling of the harness's
    own: for a harness in [/sys/fs/cgroup/<own>/<last>] the cgroup is
    [/sys/fs/cgroup/<own>/blackswan-<id>], never a child of the cgroup the harness
    runs in. *)
Theorem cgroup_v2_is_a_sibling {W} `{FsApi W} ctx i (w : W) i1 w1 txt v2_path own last :
  cg_setup i = None →
  fs_exists (path_join v1_root (bytes "memory.limit_in_bytes")) w = false →
  fs_read_to_string (components (bytes "/proc/self/cgroup")) w = (Ok txt, w) →
  find_map (strip_prefix (bytes "0::")) (lines txt) = Some v2_path →
  components (trim_slashes v2_path) = own ++ [last] → own ++ [last] ≠ [bytes "unified"] →
  fs_exists (components (bytes "/sys/fs/cgroup/cgroup.controllers")) w = true →
  fs_exists (v2_mount ++ own ++ [last] ++ [bytes "memory.max"]) w = true →
  fs_exists (v2_mount ++ own ++ [last] ++ [bytes "memory.limit_in_bytes"]) w = false →
  fi_arm ctx i w = (Ok tt, i1, w1) →
  ∃ f u, cg_setup i1 = Some (v2_mount ++ own ++ components (child_name i), f, u) ∧
         limit_file_of false (cg_mode i) = (f, u).
Proof.
  intros Hnone Hv1 Hread Hfind Hcomp Huni Hctl Hmax Hlim Harm.
  assert (Hsub : path_join v2_mount (trim_slashes v2_path) = v2_mount ++ own ++ [last]).
  { rewrite path_join_relative by apply trim_slashes_relative. by rewrite Hcomp. }
  assert (Hloc : locate_subtree i w = (Ok (v2_mount ++ own ++ [last]), w)).
  { rewrite <- Hsub. eapply locate_pure_v2; [done..|].
    rewrite Hsub, (own_file _ _ (bytes "memory.max")) by reflexivity. done. }
  cbn [fi_arm cgroup_injector] in Harm. unfold cgroup_arm, ensure_setup in Harm. rewrite Hnone in Harm.
  destruct (make_setup i w) as [[[[dir f] u]|e] w'] eqn:Em; [|done].
  destruct (fs_write _ _ w') as [[?|?] w2]; [|done]. injection Harm as <- <-.
  exists f, u. cbn [cg_set cg_setup]. clear Hread Hfind Hcomp Hctl Hv1 Hsub.
  unfold make_setup in Em. apply io_bind_ok in Em as (st & w3 & Hst & Em).
  rewrite Hloc in Hst.
  assert (st = v2_mount ++ own ++ [last] ∧ w3 = w) as [-> ->] by (split; congruence). clear Hst.
  apply io_bind_ok in Em as (v1 & w4 & Hv & Em). unfold io_exists in Hv.
  rewrite (own_file _ _ (bytes "memory.limit_in_bytes")), Hlim in Hv by reflexivity.
  injection Hv as <- <-.
  destruct (limit_file_of false (cg_mode i)) as [f' u'] eqn:El.
  repeat (apply io_bind_ok in Em as (? & ? & _ & Em)). unfold mret, io_ret in Em.
  assert (path_join (parent_dir_of false (v2_mount ++ own ++ [last])) (child_name i) = dir ∧
          f' = f ∧ u' = u) as (<- & -> & ->) by (split_and!; congruence). clear Em.
  split; [|done]. do 3 f_equal. rewrite path_join_relative by apply child_name_relative.
  unfold parent_dir_of. cbn [orb]. rewrite bool_decide_eq_false_2 by (apply own_not_mount; done).
  rewrite app_assoc, parent_snoc. cbn [from_option id]. by rewrite <- app_assoc.
Qed.

(** ** A machine to run on *)

(** Files by path; every write and directory creation succeeds. *)
Definition machine : Type := list (path * list byte).
Definition machine_file (p : path) (m : machine) : option (list byte) :=
  find_map (λ e, if decide (e.1 = p) then Some e.2 else None) m.

#[global] Instance machine_fs : FsApi machine := {|
  fs_exists p m := bool_decide (machine_file p m ≠ None);
  fs_read_to_string p m :=
    (match machine_file p m with
     | Some c => Ok c
     | None => Err {| io_kind := OtherKind; io_text := "No such file or directory" |}
     end, m);
  fs_create_dir_all _ m := (Ok tt, m);
  fs_write p c m := (Ok tt, (p, c) :: m)
|}.

#[global] Instance machine_laws : FsLaws machine.
Proof.
  refine (Build_FsLaws machine machine_fs machine_file _).
  intros p c m r m' [= <- <-] q. cbn.
  by destruct (decide (q = p)) as [->|]; [rewrite decide_True|rewrite decide_False].
Defined.

Definition v2_machine : machine :=
  [(components (bytes "/proc/self/cgroup"), bytes "0::/user.slice/session.scope");
   (components (bytes "/sys/fs/cgroup/cgroup.controllers"), bytes "cpu memory");
   (components (bytes "/sys/fs/cgroup/user.slice/session.scope/memory.max"), bytes "max")].

Definition demo_cgroup : CgroupMemoryPressureInjector :=
  CgroupMemoryPressureInjector_new "mem" 42 1048576 Hard.
Definition cgroup_ctx : FaultContext := {| ctx_clock := System; ctx_seed := 0 |}.

Lemma cgroup_disarm_lifts_the_limit_witness :
  let r := fi_arm cgroup_ctx demo_cgroup v2_machine in
  let r' := fi_disarm r.1.2 r.2 in
  ∃ parent v1 name u, let child := path_join parent (bytes "blackswan-" ++ bytes "mem") in
    let file := path_join child name in
    lifted_by Hard v1 name u ∧
    fs_content file r.2 = Some (to_dec 1048576) ∧ fs_content file r'.2 = Some u ∧
    (∀ q, q ≠ file → fs_content q r'.2 = fs_content q r.2) ∧ fi_is_armed r'.1.2 = false ∧
    (@nil injector_call = [] → fs_exists (path_join v1_root (bytes "memory.limit_in_bytes")) v2_machine = true →
     child = path_join v1_root (bytes "blackswan-" ++ bytes "mem") ∧ v1 = true).
Proof.
  intros r r'.
  apply (cgroup_disarm_lifts_the_limit [] cgroup_ctx "mem" 42 1048576 Hard v2_machine r.1.2 r.2 r.2 r'.1.2 r'.2).
  - vm_compute. reflexivity.
  - vm_compute. reflexivity.
Defined.

Lemma cgroup_v2_is_a_sibling_witness :
  ∃ f u, cg_setup (fi_arm cgroup_ctx demo_cgroup v2_machine).1.2 =
         Some (v2_mount ++ [bytes "user.slice"] ++ components (child_name demo_cgroup), f, u) ∧
         limit_file_of false Hard = (f, u).
Proof.
  apply (cgroup_v2_is_a_sibling cgroup_ctx demo_cgroup v2_machine _
           (fi_arm cgroup_ctx demo_cgroup v2_machine).2 (bytes "0::/user.slice/session.scope")
           (bytes "/user.slice/session.scope") [bytes "user.slice"] (bytes "session.scope"));
    first [reflexivity | discriminate | vm_compute; reflexivity].
Defined.
