(* ===== verification/TimeSkew.v ===== *)
(** crates/kernel/src/time_skew.rs: a child process launched in its own time
    namespace.  The process and system calls are the interface [ProcApi];
    [time_skew_pre_exec] is the closure that runs between fork and exec. *)

From Stdlib Require Import Strings.Byte.
From S2P Require Import Prelude RustStd Core Effect.

(* ------------------------------------------------------------------ *)
(** * The operating system *)

(** [Command]: program, arguments, and whether stdout is piped. *)
Record Command := { cmd_program : string; cmd_args : list string; cmd_piped : bool }.

(** [spawn] runs the closure in the child and hands back its error if it fails;
    [os_write] returns the byte count. *)
Class ProcApi (W : Type) := {
  os_unshare_newtime : W → result io_error unit * W;
  os_open_wronly : list byte → W → result io_error Z * W;
  os_write : Z → list byte → W → result io_error Z * W;
  os_close : Z → W → W;
  os_spawn : Command → (W → result io_error unit * W) → W → result io_error Z * W;
  os_try_wait : Z → W → result io_error (option Z) * W;
  os_kill : Z → W → result io_error unit * W;
  os_wait : Z → W → result io_error Z * W
}.

(* ------------------------------------------------------------------ *)
(** * time_skew.rs *)

(** [Child]: its pid, and whether its stdout pipe is still there to be taken. *)
Record Child := { child_id : Z; child_stdout : bool }.

Record TimeSkewInjector := {
  ts_id : string;
  ts_argv : list string;
  ts_monotonic_offset_secs : Z;
  ts_boottime_offset_secs : Z;
  ts_capture_stdout : bool;
  ts_child : option Child
}.

Definition TimeSkewInjector_new (id : string) (argv : list string) (mono boot : Z) : TimeSkewInjector :=
  {| ts_id := id; ts_argv := argv; ts_monotonic_offset_secs := mono; ts_boottime_offset_secs := boot;
     ts_capture_stdout := false; ts_child := None |}.

Definition ts_set_child (c : option Child) (i : TimeSkewInjector) : TimeSkewInjector :=
  {| ts_id := ts_id i; ts_argv := ts_argv i; ts_monotonic_offset_secs := ts_monotonic_offset_secs i;
     ts_boottime_offset_secs := ts_boottime_offset_secs i; ts_capture_stdout := ts_capture_stdout i;
     ts_child := c |}.

Definition pid (i : TimeSkewInjector) : option Z := child_id <$> ts_child i.

Definition with_captured_stdout (i : TimeSkewInjector) : TimeSkewInjector :=
  {| ts_id := ts_id i; ts_argv := ts_argv i; ts_monotonic_offset_secs := ts_monotonic_offset_secs i;
     ts_boottime_offset_secs := ts_boottime_offset_secs i; ts_capture_stdout := true;
     ts_child := ts_child i |}.

(** [c.stdout.take()]: true when there was a pipe to hand out. *)
Definition take_stdout (i : TimeSkewInjector) : bool * TimeSkewInjector :=
  match ts_child i with
  | None => (false, i)
  | Some c => (child_stdout c, ts_set_child (Some {| child_id := child_id c; child_stdout := false |}) i)
  end.

(** [format!("{}", x)] for an [i64]. *)
Definition i64_to_string (x : Z) : list byte :=
  if x <? 0 then bytes "-" ++ to_dec (- x) else to_dec x.

(** [format!("monotonic {} 0\nboottime {} 0\n", ..)]. *)
Definition offsets_buf (i : TimeSkewInjector) : list byte :=
  bytes "monotonic " ++ i64_to_string (ts_monotonic_offset_secs i) ++ bytes " 0" ++ [x0a]
  ++ bytes "boottime " ++ i64_to_string (ts_boottime_offset_secs i) ++ bytes " 0" ++ [x0a].

Section time_skew.
Context {W : Type} `{ProcApi W}.

(** The closure: unshare, open, write, close; the descriptor is closed whatever the
    write returned. *)
Definition time_skew_pre_exec (offsets : list byte) (w : W) : result io_error unit * W :=
  match os_unshare_newtime w with
  | (Err e, w1) => (Err e, w1)
  | (Ok _, w1) =>
      match os_open_wronly (bytes "/proc/self/timens_offsets") w1 with
      | (Err e, w2) => (Err e, w2)
      | (Ok fd, w2) =>
          let '(ret, w3) := os_write fd offsets w2 in
          let w4 := os_close fd w3 in
          match ret with
          | Err e => (Err e, w4)
          | Ok _ => (Ok tt, w4)
          end
      end
  end.

Definition time_skew_arm (ctx : FaultContext) (i : TimeSkewInjector) (w : W)
  : result HarnessError unit * TimeSkewInjector * W :=
  match ts_child i with
  | Some _ => (Ok tt, i, w)
  | None =>
      match ts_argv i with
      | [] => (Err (ArmFailed (ts_id i) "argv is empty, nothing to launch"), i, w)
      | program :: args =>
          let cmd := {| cmd_program := program; cmd_args := args; cmd_piped := ts_capture_stdout i |} in
          match os_spawn cmd (time_skew_pre_exec (offsets_buf i)) w with
          | (Err e, w') =>
              (Err (ArmFailed (ts_id i) ("spawning skewed process: " +:+ io_text e)), i, w')
          | (Ok p, w') =>
              (Ok tt, ts_set_child (Some {| child_id := p; child_stdout := ts_capture_stdout i |}) i, w')
          end
      end
  end.

(** [self.child.take()] comes first: from then on the injector holds no child,
    however the rest goes. *)
Definition time_skew_disarm (i : TimeSkewInjector) (w : W)
  : result HarnessError unit * TimeSkewInjector * W :=
  match ts_child i with
  | None => (Ok tt, i, w)
  | Some c =>
      let i' := ts_set_child None i in
      match os_try_wait (child_id c) w with
      | (Ok (Some _), w1) => (Ok tt, i', w1)
      | (_, w1) =>
          match os_kill (child_id c) w1 with
          | (Err e, w2) =>
              (Err (DisarmFailed (ts_id i) ("killing skewed process: " +:+ io_text e)), i', w2)
          | (Ok _, w2) => (Ok tt, i', (os_wait (child_id c) w2).2)
          end
      end
  end.

#[global] Instance time_skew_injector : FaultInjector W TimeSkewInjector := {|
  fi_id := ts_id;
  fi_arm := time_skew_arm;
  fi_disarm := time_skew_disarm;
  fi_is_armed i := match ts_child i with Some _ => true | None => false end
|}.

#[global] Instance time_skew_laws : FaultInjectorLaws W TimeSkewInjector.
Proof. unfold time_skew_injector, time_skew_arm, time_skew_disarm. injector_laws. Qed.

End time_skew.

(* ------------------------------------------------------------------ *)
(** * Properties *)

(** A failed kill loses the process: [disarm] drops its handle before it kills, so
    when the kill fails the error is reported once, the injector no longer counts as
    armed, and every further [disarm] answers [Ok] without touching the system,
    teardown's included. *)
Theorem time_skew_failed_kill_forgets_child {W} `{ProcApi W} i (w : W) e i' w' :
  fi_disarm i w = (Err e, i', w') →
  (∃ c e', ts_child i = Some c ∧
     os_kill (child_id c) (os_try_wait (child_id c) w).2 = (Err e', w') ∧
     e = DisarmFailed (ts_id i) ("killing skewed process: " +:+ io_text e')) ∧
  fi_is_armed i' = false ∧ ∀ w2 : W, fi_disarm i' w2 = (Ok tt, i', w2).
Proof.
  cbn [fi_disarm fi_is_armed time_skew_injector]. unfold time_skew_disarm.
  destruct (ts_child i) as [c|] eqn:Ec; [|done]. intros Hd.
  assert (∃ e', os_kill (child_id c) (os_try_wait (child_id c) w).2 = (Err e', w') ∧
    e = DisarmFailed (ts_id i) ("killing skewed process: " +:+ io_text e') ∧
    i' = ts_set_child None i) as (e' & Hk & -> & ->).
  { destruct (os_try_wait (child_id c) w) as [[[?|]|?] w1]; [done|..]; cbn [snd];
      (destruct (os_kill (child_id c) w1) as [[?|e'] w2]; [done|]);
      injection Hd as <- <- <-; by exists e'. }
  split; [by exists c, e'|]. by split.
Qed.

(** An operating system for one process: how [kill] goes is fixed, and the offsets
    written, the namespace and the open descriptors are recorded. *)
Record toy_os := {
  os_kill_ok : bool; os_alive : bool; os_namespaced : bool; os_offsets : list byte; os_fds : list Z
}.

Definition os_error (s : string) : io_error := {| io_kind := OtherKind; io_text := s |}.

#[global] Instance toy_proc : ProcApi toy_os := {|
  os_unshare_newtime w :=
    (Ok tt, {| os_kill_ok := os_kill_ok w; os_alive := os_alive w; os_namespaced := true;
               os_offsets := os_offsets w; os_fds := os_fds w |});
  os_open_wronly _ w :=
    (Ok 3, {| os_kill_ok := os_kill_ok w; os_alive := os_alive w; os_namespaced := os_namespaced w;
              os_offsets := os_offsets w; os_fds := 3 :: os_fds w |});
  os_write _ b w :=
    (Ok (Z.of_nat (length b)),
     {| os_kill_ok := os_kill_ok w; os_alive := os_alive w; os_namespaced := os_namespaced w;
        os_offsets := b; os_fds := os_fds w |});
  os_close fd w :=
    {| os_kill_ok := os_kill_ok w; os_alive := os_alive w; os_namespaced := os_namespaced w;
       os_offsets := os_offsets w; os_fds := filter (λ f, f ≠ fd) (os_fds w) |};
  os_spawn _ pre w :=
    match pre w with
    | (Err e, w') => (Err e, w')
    | (Ok _, w') =>
        (Ok 100, {| os_kill_ok := os_kill_ok w'; os_alive := true; os_namespaced := os_namespaced w';
                    os_offsets := os_offsets w'; os_fds := os_fds w' |})
    end;
  os_try_wait _ w := (Ok (if os_alive w then None else Some 0), w);
  os_kill _ w :=
    if os_kill_ok w
    then (Ok tt, {| os_kill_ok := true; os_alive := false; os_namespaced := os_namespaced w;
                    os_offsets := os_offsets w; os_fds := os_fds w |})
    else (Err (os_error "Operation not permitted"), w);
  os_wait _ w := (Ok 0, w)
|}.

Definition toy_start (kill_ok : bool) : toy_os :=
  {| os_kill_ok := kill_ok; os_alive := false; os_namespaced := false; os_offsets := []; os_fds := [] |}.
Definition skew_ctx : FaultContext := {| ctx_clock := System; ctx_seed := 0 |}.
Definition demo_skew : TimeSkewInjector := TimeSkewInjector_new "skew" ["sleep"; "60"] (-3600) 0.

(** The offsets the child runs with, and no descriptor left open. *)
Example skew_armed :
  let '(r, i, w) := fi_arm skew_ctx demo_skew (toy_start true) in
  r = Ok tt ∧ pid i = Some 100 ∧ os_namespaced w = true ∧ os_fds w = [] ∧
  os_offsets w = bytes "monotonic -3600 0" ++ [x0a] ++ bytes "boottime 0 0" ++ [x0a].
Proof. vm_compute. by split_and!. Qed.

Lemma time_skew_failed_kill_forgets_child_witness :
  let r := fi_arm skew_ctx demo_skew (toy_start false) in
  let r' := fi_disarm r.1.2 r.2 in
  (∃ c e', ts_child r.1.2 = Some c ∧
     os_kill (child_id c) (os_try_wait (child_id c) r.2).2 = (Err e', r'.2) ∧
     DisarmFailed "skew" "killing skewed process: Operation not permitted" =
     DisarmFailed "skew" ("killing skewed process: " +:+ io_text e')) ∧
  fi_is_armed r'.1.2 = false ∧ ∀ w2 : toy_os, fi_disarm r'.1.2 w2 = (Ok tt, r'.1.2, w2).
Proof.
  intros r r'. apply (time_skew_failed_kill_forgets_child r.1.2 r.2 _ r'.1.2 r'.2).
  vm_compute. reflexivity.
Defined.
