(* ===== verification/Cli.v ===== *)
(** crates/cli/src: config.rs, build.rs and main.rs, the binary that puts the system
    together.  [AnyInjector] is the [Box<dyn FaultInjector>] of the registry, with
    its dispatching instance and laws; [execute_scenario] and [main] are the two
    subcommands, with [die] as what it is: an exit that runs no destructors. *)

From S2P Require Import Prelude RustStd Core Schedule Scheduler Trace Runner RunnerFacts.
From S2P Require Import FixAdapter FixInjector Effect Bpf Xdp CgroupMem TimeSkew.

(* ------------------------------------------------------------------ *)
(** * config.rs *)

Inductive PressureModeConfig := HardConfig | SoftConfig.

Inductive InjectorConfig :=
| XdpPacketLoss (iface : string) (drop_every_n : Z)
| XdpCorruption (iface : string) (corrupt_every_n offset mask : Z)
| XdpPartition (iface : string) (src_ip : IpAddr) (src_port : Z)
| CgroupMemoryPressure (pid limit_bytes : Z) (mode : PressureModeConfig)
| TimeSkew (argv : list string) (monotonic_offset_secs boottime_offset_secs : Z)
| FixSilentRejectConfig (listen_addr upstream_addr : string)
| FixAckWithoutExecutionConfig (listen_addr upstream_addr : string)
| FixRateLimitThrottleConfig (listen_addr upstream_addr : string) (threshold : Z)
| FixExecutionReportPriceMutationConfig (listen_addr upstream_addr mutated_price : string).

Record Config := {
  cfg_name : string; cfg_seed : Z; cfg_injectors : gmap string InjectorConfig;
  cfg_schedule : list ScenarioStep
}.

(* ------------------------------------------------------------------ *)
(** * Ways to end *)

(** Why the process dies, with the parts its message is made of. *)
Inductive death :=
| ReadingConfig (p : string) (e : io_error)
| ParsingConfig (p : string) (e : string)
| InvalidScenarioConfig (e : HarnessError)
| SettingUpRunner (e : HarnessError)
| RunFailed (e : HarnessError)
| SavingTrace (e : HarnessError)
| LoadingBaseline (p : string) (e : HarnessError)
| Mismatch (p : string).

(** A call that returns, or ends the process on the spot ([die], a panic). *)
Inductive live (A : Type) := Alive (a : A) | Dead (d : death) | Crashed (why : string).
Arguments Alive {A} a.
Arguments Dead {A} d.
Arguments Crashed {A} why.

(* ------------------------------------------------------------------ *)
(** * [Box<dyn FaultInjector>] *)

Section dispatch.
Context {W B : Type} `{AyaApi W B} `{FsApi W} `{TcpApi W} `{ProcApi W}.

Inductive AnyInjector :=
| IPacketLoss (i : XdpPacketLossInjector B)
| ICorruption (i : XdpCorruptionInjector B)
| IPartition (i : XdpPartitionInjector B)
| ICgroup (i : CgroupMemoryPressureInjector)
| ITimeSkew (i : TimeSkewInjector)
| IFix (i : FixFaultInjector).

Definition boxed {I} (mk : I → AnyInjector) (x : result HarnessError unit * I * W)
  : result HarnessError unit * AnyInjector * W :=
  let '(r, i, w) := x in (r, mk i, w).

Definition any_id (i : AnyInjector) : string :=
  match i with
  | IPacketLoss i => fi_id (W := W) i | ICorruption i => fi_id (W := W) i
  | IPartition i => fi_id (W := W) i | ICgroup i => fi_id (W := W) i
  | ITimeSkew i => fi_id (W := W) i | IFix i => fi_id (W := W) i
  end.

Definition any_is_armed (i : AnyInjector) : bool :=
  match i with
  | IPacketLoss i => fi_is_armed (W := W) i | ICorruption i => fi_is_armed (W := W) i
  | IPartition i => fi_is_armed (W := W) i | ICgroup i => fi_is_armed (W := W) i
  | ITimeSkew i => fi_is_armed (W := W) i | IFix i => fi_is_armed (W := W) i
  end.

Definition any_arm (ctx : FaultContext) (i : AnyInjector) (w : W)
  : result HarnessError unit * AnyInjector * W :=
  match i with
  | IPacketLoss i => boxed IPacketLoss (fi_arm ctx i w)
  | ICorruption i => boxed ICorruption (fi_arm ctx i w)
  | IPartition i => boxed IPartition (fi_arm ctx i w)
  | ICgroup i => boxed ICgroup (fi_arm ctx i w)
  | ITimeSkew i => boxed ITimeSkew (fi_arm ctx i w)
  | IFix i => boxed IFix (fi_arm ctx i w)
  end.

Definition any_disarm (i : AnyInjector) (w : W)
  : result HarnessError unit * AnyInjector * W :=
  match i with
  | IPacketLoss i => boxed IPacketLoss (fi_disarm i w)
  | ICorruption i => boxed ICorruption (fi_disarm i w)
  | IPartition i => boxed IPartition (fi_disarm i w)
  | ICgroup i => boxed ICgroup (fi_disarm i w)
  | ITimeSkew i => boxed ITimeSkew (fi_disarm i w)
  | IFix i => boxed IFix (fi_disarm i w)
  end.

#[global] Instance AnyInjector_injector : FaultInjector W AnyInjector := {|
  fi_id := any_id; fi_arm := any_arm; fi_disarm := any_disarm; fi_is_armed := any_is_armed
|}.

Lemma boxed_inv {I} (mk : I → AnyInjector) x r i' w' :
  boxed mk x = (r, i', w') → ∃ i, x = (r, i, w') ∧ i' = mk i.
Proof. destruct x as [[r0 i0] w0]. intros [= -> <- ->]. by exists i0. Qed.

(** The laws of the box are those of what is in it. *)
#[global] Instance AnyInjector_laws : FaultInjectorLaws W AnyInjector.
Proof.
  split; cbn [fi_arm fi_disarm fi_is_armed fi_id AnyInjector_injector].
  - intros ctx i w i' w' Ha.
    destruct i; apply boxed_inv in Ha as (j & Hj & ->); exact (arm_ok _ _ _ _ _ Hj).
  - intros ctx i w e i' w' Ha.
    destruct i; apply boxed_inv in Ha as (j & Hj & ->); exact (arm_err _ _ _ _ _ _ Hj).
  - intros i w i' w' Hd.
    destruct i; apply boxed_inv in Hd as (j & Hj & ->); exact (disarm_ok _ _ _ _ Hj).
  - intros i w e i' w' Hd.
    destruct i; apply boxed_inv in Hd as (j & Hj & ->); exact (disarm_err _ _ _ _ _ Hj).
  - intros ctx i w. destruct i as [i|i|i|i|i|i]; cbn [any_arm any_id];
      rewrite <- (arm_id ctx i w); by destruct (fi_arm ctx i w) as [[? ?] ?].
  - intros i w. destruct i as [i|i|i|i|i|i]; cbn [any_disarm any_id];
      rewrite <- (disarm_id i w); by destruct (fi_disarm i w) as [[? ?] ?].
Qed.

(* ------------------------------------------------------------------ *)
(** * build.rs *)

Definition build_injector (id : string) (config : InjectorConfig) : AnyInjector :=
  match config with
  | XdpPacketLoss iface n => IPacketLoss (XdpPacketLossInjector_new id iface n)
  | XdpCorruption iface n offset mask => ICorruption (XdpCorruptionInjector_new id iface n offset mask)
  | XdpPartition iface ip port => IPartition (XdpPartitionInjector_new id iface ip port)
  | CgroupMemoryPressure p limit mode =>
      let mode := match mode with HardConfig => Hard | SoftConfig => Soft end in
      ICgroup (CgroupMemoryPressureInjector_new id p limit mode)
  | TimeSkew argv mono boot => ITimeSkew (TimeSkewInjector_new id argv mono boot)
  | FixSilentRejectConfig l u =>
      IFix (FixFaultInjector_new id l u (SilentReject mk_FixSilentReject))
  | FixAckWithoutExecutionConfig l u =>
      IFix (FixFaultInjector_new id l u (AckWithoutExecution mk_FixAckWithoutExecution))
  | FixRateLimitThrottleConfig l u t =>
      IFix (FixFaultInjector_new id l u (RateLimitThrottle (FixRateLimitThrottle_new t)))
  | FixExecutionReportPriceMutationConfig l u price =>
      IFix (FixFaultInjector_new id l u (PriceMutation {| mutated_price := bytes price |}))
  end.

(* ------------------------------------------------------------------ *)
(** * main.rs *)

Context `{FileApi W}.
Variable sleep : Z → W → W.
Variable toml_from_str : list byte → result string Config.
Variable to_string_pretty : Trace → result string (list byte).
Variable from_slice : list byte → result string Trace.

(** [std::fs::read_to_string]: the bytes have to be UTF-8. *)
Definition read_to_string (p : string) (w : W) : result io_error (list byte) * W :=
  match fs_read p w with
  | (Ok b, w') =>
      (if utf8_valid b then Ok b
       else Err {| io_kind := OtherKind; io_text := "stream did not contain valid UTF-8" |}, w')
  | (Err e, w') => (Err e, w')
  end.

Definition load_config (p : string) (w : W) : live Config * W :=
  match read_to_string p w with
  | (Err e, w') => (Dead (ReadingConfig p e), w')
  | (Ok t, w') =>
      (match toml_from_str t with Ok cfg => Alive cfg | Err e => Dead (ParsingConfig p e) end, w')
  end.

Definition build_scenario_and_injectors (cfg : Config) : Scenario * gmap string AnyInjector :=
  ({| sc_name := cfg_name cfg; sc_seed := cfg_seed cfg; sc_steps := cfg_schedule cfg |},
   map_imap (λ id ic, Some (build_injector id ic)) (cfg_injectors cfg)).

(** The registry the process is left with comes back beside the world: after the
    drop guard when the runner went out of scope, as the failed run left it when
    [die] exited.  [order] is the map order the guard's [values_mut] takes; [None]
    means the run has not ended within [fuel] rounds.  The runner's panic cannot
    happen here ([run_inner_no_panic]). *)
Definition execute_scenario (fuel : nat) (order : list string) (config_path : string) (tick_ns : Z)
    (realtime : bool) (w : W) : option (live Trace * gmap string AnyInjector * W) :=
  match load_config config_path w with
  | (Dead d, w1) => Some (Dead d, ∅, w1)
  | (Crashed why, w1) => Some (Crashed why, ∅, w1)
  | (Alive cfg, w1) =>
      let '(scenario, injectors) := build_scenario_and_injectors cfg in
      match validate scenario with
      | Err e => Some (Dead (InvalidScenarioConfig e), injectors, w1)
      | Ok schedule =>
          let ctx := {| ctx_clock := System; ctx_seed := sc_seed scenario |} in
          match Runner_new schedule injectors ctx with
          | Err e => Some (Dead (SettingUpRunner e), injectors, w1)
          | Ok runner =>
              match (if realtime then run_realtime sleep fuel runner tick_ns w1
                     else run sleep fuel runner tick_ns w1) with
              | None => None
              | Some (Panic why) => Some (Crashed why, injectors, w1)
              | Some (Done (Err e, runner', w2)) => Some (Dead (RunFailed e), r_injectors runner', w2)
              | Some (Done (Ok trace, runner', w2)) =>
                  let '(injectors', w3) := drop_runner order runner' w2 in
                  Some (Alive trace, injectors', w3)
              end
          end
      end
  end.

Inductive CliCommand :=
| Run (config : string) (tick_ns : Z) (trace_out : option string)
| Replay (config : string) (tick_ns : Z) (against : string).

(** What is printed on stdout. *)
Inductive output := Summary (t : Trace) | SavedTo (p : string) | Match (p : string).

(** [main] up to its end: what it printed, and how it ended (exit code 0 is
    [Alive]). *)
Definition main (fuel : nat) (order : list string) (cmd : CliCommand) (w : W)
  : option (list output * live unit * W) :=
  match cmd with
  | Run config tick_ns trace_out =>
      match execute_scenario fuel order config tick_ns true w with
      | None => None
      | Some (Dead d, _, w1) => Some ([], Dead d, w1)
      | Some (Crashed why, _, w1) => Some ([], Crashed why, w1)
      | Some (Alive trace, _, w1) =>
          match trace_out with
          | None => Some ([Summary trace], Alive tt, w1)
          | Some out =>
              match save to_string_pretty trace out w1 with
              | (Err e, w2) => Some ([Summary trace], Dead (SavingTrace e), w2)
              | (Ok _, w2) => Some ([Summary trace; SavedTo out], Alive tt, w2)
              end
          end
      end
  | Replay config tick_ns against =>
      match load from_slice against w with
      | (Err e, w1) => Some ([], Dead (LoadingBaseline against e), w1)
      | (Ok baseline, w1) =>
          match execute_scenario fuel order config tick_ns false w1 with
          | None => None
          | Some (Dead d, _, w2) => Some ([], Dead d, w2)
          | Some (Crashed why, _, w2) => Some ([], Crashed why, w2)
          | Some (Alive trace, _, w2) =>
              if matches_schedule trace baseline
              then Some ([Summary trace; Match against], Alive tt, w2)
              else Some ([Summary trace], Dead (Mismatch against), w2)
          end
      end
  end.

End dispatch.
Arguments AnyInjector : clear implicits.

(* ------------------------------------------------------------------ *)
(** * Lemmas *)

Section lemmas.
Context {W B : Type} `{AyaApi W B} `{FsApi W} `{TcpApi W} `{ProcApi W} `{FileApi W}.
Variable sleep : Z → W → W.
Variable toml_from_str : list byte → result string Config.

(** Every injector starts disarmed, under the id it is registered with. *)
Lemma build_injector_fresh id ic :
  fi_is_armed (W := W) (build_injector (B := B) id ic) = false ∧
  fi_id (W := W) (build_injector (B := B) id ic) = id.
Proof. by destruct ic as [| | |? ? []| | | | |]. Qed.

Definition registry_of (cfg : Config) : gmap string (AnyInjector B) :=
  (build_scenario_and_injectors cfg).2.

Lemma registry_of_lookup cfg id i :
  registry_of cfg !! id = Some i →
  ∃ ic, cfg_injectors cfg !! id = Some ic ∧ i = build_injector id ic.
Proof.
  unfold registry_of. cbn. rewrite map_lookup_imap.
  destruct (cfg_injectors cfg !! id) as [ic|]; [|done]. cbn. intros [= <-]. by exists ic.
Qed.

Lemma registry_of_unarmed cfg : armed_set (W := W) (registry_of cfg) = ∅.
Proof.
  apply set_eq. intros id. rewrite elem_of_armed_set. split; [|set_solver].
  intros (i & (ic & _ & ->)%registry_of_lookup & Ha).
  by rewrite (proj1 (build_injector_fresh id ic)) in Ha.
Qed.

Definition scenario_of (cfg : Config) : Scenario :=
  {| sc_name := cfg_name cfg; sc_seed := cfg_seed cfg; sc_steps := cfg_schedule cfg |}.

Definition runner_of (cfg : Config) : Runner (AnyInjector B) :=
  {| r_schedule := {| vs_scenario := scenario_of cfg |};
     r_injectors := registry_of cfg;
     r_ctx := {| ctx_clock := System; ctx_seed := cfg_seed cfg |} |}.

(** A configuration that gets as far as running. *)
Definition runnable (cfg : Config) : Prop :=
  is_ok (validate (scenario_of cfg)) = true ∧
  Forall (λ s, fault_id s ∈ dom (registry_of cfg)) (cfg_schedule cfg).

(** What [execute_scenario] is on a configuration that loads. *)
Lemma execute_scenario_run fuel order p tick rt w cfg w1 :
  load_config toml_from_str p w = (Alive cfg, w1) → runnable cfg →
  execute_scenario sleep toml_from_str fuel order p tick rt w =
  match run_inner sleep fuel (runner_of cfg) tick rt w1 with
  | None => None
  | Some (Panic why) => Some (Crashed why, registry_of cfg, w1)
  | Some (Done (Err e, r', w2)) => Some (Dead (RunFailed e), r_injectors r', w2)
  | Some (Done (Ok t, r', w2)) =>
      Some (Alive t, (drop_runner order r' w2).1, (drop_runner order r' w2).2)
  end.
Proof.
  intros Hl [Hv Hreg]. unfold execute_scenario. rewrite Hl.
  change (build_scenario_and_injectors cfg) with (scenario_of cfg, registry_of cfg).
  cbv iota zeta. destruct (validate (scenario_of cfg)) as [v|] eqn:Ev; [|done].
  assert (v = {| vs_scenario := scenario_of cfg |}) as ->.
  { destruct v as [sc]. f_equal. exact (validated_same _ _ Ev). }
  unfold Runner_new.
  change (vs_steps {| vs_scenario := scenario_of cfg |}) with (cfg_schedule cfg).
  rewrite (proj2 (check_registry_ok (registry_of cfg) (cfg_schedule cfg)) Hreg).
  unfold run, run_realtime. cbv zeta.
  change {| r_schedule := _; r_injectors := _; r_ctx := _ |} with (runner_of cfg).
  destruct rt;
    (destruct (run_inner sleep fuel (runner_of cfg) tick _ w1) as [[[[[t|e] r'] w2]|]|]; [|done..]);
    by destruct (drop_runner order r' w2).
Qed.

(** Nothing before the run ends in [RunFailed]. *)
Lemma load_config_death p w d w1 : load_config toml_from_str p w = (Dead d, w1) → ∀ e, d ≠ RunFailed e.
Proof.
  unfold load_config. destruct (read_to_string p w) as [[t|e0] w2].
  - destruct (toml_from_str t); [done|]. by intros [= <- _].
  - by intros [= <- _].
Qed.

(** An [execute_scenario] that did not stop before the run had a runnable
    configuration. *)
Lemma execute_scenario_runnable fuel order p tick rt w r injs w' :
  execute_scenario sleep toml_from_str fuel order p tick rt w = Some (r, injs, w') →
  (∃ t, r = Alive t) ∨ (∃ e, r = Dead (RunFailed e)) →
  ∃ cfg w1, load_config toml_from_str p w = (Alive cfg, w1) ∧ runnable cfg.
Proof.
  intros He Hr. unfold execute_scenario in He.
  destruct (load_config toml_from_str p w) as [[cfg|d|why] w1] eqn:El.
  2:{ pose proof (load_config_death _ _ _ _ El) as Hn. exfalso. injection He as <- _ _.
      destruct Hr as [[? ?]|[e Hd]]; [done|]. injection Hd as ->. by apply (Hn e). }
  2:{ exfalso. simplify_eq. destruct Hr as [[? ?]|[? ?]]; done. }
  exists cfg, w1. split; [done|]. change (build_scenario_and_injectors cfg) with (scenario_of cfg, registry_of cfg) in He.
  cbv iota zeta in He. unfold runnable.
  destruct (validate (scenario_of cfg)) as [v|] eqn:Ev.
  2:{ exfalso. simplify_eq. destruct Hr as [[? ?]|[? ?]]; done. }
  split; [done|].
  destruct (Runner_new v (registry_of cfg) _) as [rn|] eqn:En.
  2:{ exfalso. simplify_eq. destruct Hr as [[? ?]|[? ?]]; done. }
  apply Runner_new_ok in En as [_ Hreg]. unfold vs_steps in Hreg.
  by rewrite (validated_same _ _ Ev) in Hreg.
Qed.

Lemma execute_scenario_trace fuel order p tick rt w t injs w' cfg w1 :
  load_config toml_from_str p w = (Alive cfg, w1) → runnable cfg →
  execute_scenario sleep toml_from_str fuel order p tick rt w = Some (Alive t, injs, w') →
  tr_seed t = cfg_seed cfg ∧ trace_steps t = cfg_schedule cfg.
Proof.
  intros Hl Hr He. rewrite (execute_scenario_run _ _ _ _ _ _ _ _ Hl Hr) in He.
  destruct (run_inner sleep fuel (runner_of cfg) tick rt w1) as [[[[[t'|e] r'] w2]|]|] eqn:E; try done.
  injection He as -> _ _. apply run_inner_ok in E as (? & ? & _). done.
Qed.

End lemmas.

(* ------------------------------------------------------------------ *)
(** * A whole machine *)

(** The concrete kernel, file system, network and process table of the component
    files, side by side. *)
Record box := {
  bx_kernel : kernel; bx_machine : machine; bx_net : Z; bx_os : toy_os;
  bx_files : gmap string (list byte)
}.

Definition on_kernel {R} (f : kernel → R * kernel) (b : box) : R * box :=
  let '(r, k) := f (bx_kernel b) in
  (r, {| bx_kernel := k; bx_machine := bx_machine b; bx_net := bx_net b; bx_os := bx_os b;
         bx_files := bx_files b |}).
Definition on_machine {R} (f : machine → R * machine) (b : box) : R * box :=
  let '(r, m) := f (bx_machine b) in
  (r, {| bx_kernel := bx_kernel b; bx_machine := m; bx_net := bx_net b; bx_os := bx_os b;
         bx_files := bx_files b |}).
Definition on_net {R} (f : Z → R * Z) (b : box) : R * box :=
  let '(r, n) := f (bx_net b) in
  (r, {| bx_kernel := bx_kernel b; bx_machine := bx_machine b; bx_net := n; bx_os := bx_os b;
         bx_files := bx_files b |}).
Definition on_os {R} (f : toy_os → R * toy_os) (b : box) : R * box :=
  let '(r, o) := f (bx_os b) in
  (r, {| bx_kernel := bx_kernel b; bx_machine := bx_machine b; bx_net := bx_net b; bx_os := o;
         bx_files := bx_files b |}).
Definition on_files {R} (f : gmap string (list byte) → R * gmap string (list byte)) (b : box) : R * box :=
  let '(r, g) := f (bx_files b) in
  (r, {| bx_kernel := bx_kernel b; bx_machine := bx_machine b; bx_net := bx_net b; bx_os := bx_os b;
         bx_files := g |}).

#[global] Instance box_aya : AyaApi box unit := {|
  bpf_load obj := on_kernel (bpf_load obj);
  bpf_drop _ b := b;
  has_program := has_program (W := kernel);
  as_xdp := as_xdp (W := kernel);
  program_load b p := on_kernel (program_load b p);
  program_attach b p i := on_kernel (program_attach b p i);
  has_map := has_map (W := kernel);
  as_u32_array := as_u32_array (W := kernel);
  as_bytes16_array := as_bytes16_array (W := kernel);
  array_set_u32 b n v := on_kernel (array_set_u32 b n v);
  array_set_bytes16 b n v := on_kernel (array_set_bytes16 b n v)
|}.
#[global] Instance box_fs : FsApi box := {|
  fs_exists p b := fs_exists p (bx_machine b);
  fs_read_to_string p := on_machine (fs_read_to_string p);
  fs_create_dir_all p := on_machine (fs_create_dir_all p);
  fs_write p c := on_machine (fs_write p c)
|}.
#[global] Instance box_tcp : TcpApi box := λ a, on_net (tcp_bind a).
#[global] Instance box_proc : ProcApi box := {|
  os_unshare_newtime := on_os os_unshare_newtime;
  os_open_wronly p := on_os (os_open_wronly p);
  os_write fd b := on_os (os_write fd b);
  os_close fd b := (on_os (λ o, (tt, os_close fd o)) b).2;
  os_spawn cmd pre b :=
    match pre b with
    | (Err e, b') => (Err e, b')
    | (Ok _, b') => on_os (os_spawn cmd (λ o, (Ok tt, o))) b'
    end;
  os_try_wait p := on_os (os_try_wait p);
  os_kill p := on_os (os_kill p);
  os_wait p := on_os (os_wait p)
|}.
#[global] Instance box_files : FileApi box := {|
  file_create p := on_files (file_create p);
  file_write_all p c := on_files (file_write_all p c);
  fs_read p := on_files (fs_read p)
|}.
#[global] Instance box_files_laws : FileLaws box.
Proof.
  intros path b w0 w1 w2 w3 c.
  unfold file_create, file_write_all, fs_read, box_files, on_files. unfold file_create, file_write_all, fs_read, mem_files.
  intros [= <-] [= <-]. cbn. rewrite !lookup_insert_eq. cbn. by intros [= <- _].
Qed.

#[global] Instance TraceEvent_eq_dec : EqDecision TraceEvent.
Proof. solve_decision. Defined.
#[global] Instance Trace_eq_dec : EqDecision Trace.
Proof. solve_decision. Defined.

Definition no_sleep (_ : Z) (b : box) : box := b.

(** A scenario over two kernel faults: memory pressure, then corruption. *)
Definition demo_config : Config := {|
  cfg_name := "two-faults"; cfg_seed := 9;
  cfg_injectors := {[ "mem" := CgroupMemoryPressure 42 1048576 HardConfig;
                      "corrupt" := XdpCorruption "lo" 1 14 255 ]};
  cfg_schedule := [{| at_ns := 10; fault_id := "mem"; action := Arm |};
                   {| at_ns := 20; fault_id := "corrupt"; action := Arm |}]
|}.
Definition demo_toml (_ : list byte) : result string Config := Ok demo_config.
Definition demo_box (writes : list bool) : box :=
  {| bx_kernel := fresh_kernel writes; bx_machine := v2_machine; bx_net := 0; bx_os := toy_start true;
     bx_files := {[ "s.toml" := bytes "name" ]} |}.

(** The trace a successful run of it records with a tick of 10 ns. *)
Definition demo_cli_trace : Trace := {|
  scenario_name := "two-faults"; tr_seed := 9;
  events := [{| ev_step := {| at_ns := 10; fault_id := "mem"; action := Arm |}; wall_ns := 10 |};
             {| ev_step := {| at_ns := 20; fault_id := "corrupt"; action := Arm |}; wall_ns := 20 |}]
|}.
(* ------------------------------------------------------------------ *)
(** * Properties *)

(** A run, then [blackswan replay --against F] with the same configuration and the run's
    trace in F. *)
Lemma replay_confirms {W B : Type} `{AyaApi W B} `{FsApi W} `{TcpApi W} `{ProcApi W} `{FileApi W}
    sleep toml_from_str to_string_pretty from_slice
    fuel1 fuel2 o1 o2 cfgp tick1 tick2 out (w wa w2 w3 w4 : W) t1 injs b outs2 end2 :
  execute_scenario (B := B) sleep toml_from_str fuel1 o1 cfgp tick1 true w = Some (Alive t1, injs, wa) →
  fs_read out w2 = (Ok b, w3) → from_slice b = Ok t1 →
  (load_config toml_from_str cfgp w3).1 = (load_config toml_from_str cfgp w).1 →
  main (B := B) sleep toml_from_str to_string_pretty from_slice fuel2 o2 (Replay cfgp tick2 out) w2 =
    Some (outs2, end2, w4) →
  (∃ t, outs2 = [Summary t; Match out] ∧ end2 = Alive tt) ∨ (∃ e, end2 = Dead (RunFailed e)).
Proof.
  intros E1 Hread Hback Hcfg Hrep. cbn [main] in Hrep.
  destruct (execute_scenario_runnable _ _ _ _ _ _ _ _ _ _ _ E1) as (cfg & wl & Hl & Hr); [left; by eexists|].
  destruct (execute_scenario_trace _ _ _ _ _ _ _ _ _ _ _ _ _ Hl Hr E1) as [Hs1 Ht1].
  unfold load in Hrep. rewrite Hread, Hback in Hrep. cbn [map_err] in Hrep. rewrite Hl in Hcfg.
  destruct (load_config toml_from_str cfgp w3) as [l3 wl3] eqn:Hl3. cbn in Hcfg. subst l3.
  destruct (execute_scenario sleep toml_from_str fuel2 o2 cfgp tick2 false w3) as [[[r2 injs2] wb]|] eqn:E2; [|done].
  pose proof E2 as E2'. rewrite (execute_scenario_run _ _ _ _ _ _ _ _ _ _ Hl3 Hr) in E2'.
  destruct (run_inner sleep fuel2 (runner_of cfg) tick2 false wl3) as [[[[[t2|e] r'] wc]|why]|] eqn:Ei;
    [| |exfalso; by apply (run_inner_no_panic sleep fuel2 (runner_of cfg) tick2 false wl3 why (proj2 Hr))|done].
  - injection E2' as <- _ _. destruct (execute_scenario_trace _ _ _ _ _ _ _ _ _ _ _ _ _ Hl3 Hr E2) as [Hs2 Ht2].
    assert (matches_schedule t2 t1 = true) as Hm.
    { apply matches_schedule_spec. by rewrite Hs1, Hs2, Ht1, Ht2. }
    rewrite Hm in Hrep. injection Hrep as <- <- _. left. by exists t2.
  - injection E2' as <- _ _. injection Hrep as _ <- _. right. by exists e.
Qed.

(** C27: a run that fails leaves its faults in place: [die] exits without running the
    runner's drop guard.  The configuration loads, the steps before the failing one are all
    performed on the registry built from it, the failing step returns the error the process
    dies with, and the registry and the world are then exactly as that step left them: no
    [disarm] runs after it.  So every injector armed by the earlier steps, other than the
    failing step's own, is still armed when the process is gone, and so is that one when
    the failing step is an arm. *)
Theorem failed_run_leaves_faults_armed {W B : Type} `{AyaApi W B} `{FsApi W} `{TcpApi W} `{ProcApi W}
    `{FileApi W} sleep toml_from_str fuel order p tick rt (w w' : W) e injs :
  execute_scenario (B := B) sleep toml_from_str fuel order p tick rt w =
    Some (Dead (RunFailed e), injs, w') →
  ∃ cfg wl pre s, load_config toml_from_str p w = (Alive cfg, wl) ∧
    failed_run sleep {| ctx_clock := System; ctx_seed := cfg_seed cfg |} tick rt
      (cfg_schedule cfg) (registry_of cfg) wl e injs w' pre s ∧
    (∀ id, id ≠ fault_id s → id ∈ armed_set (W := W) injs ↔ id ∈ armed_after ∅ pre) ∧
    (action s = Arm → armed_set (W := W) injs = armed_after ∅ pre).
Proof.
  intros He. destruct (execute_scenario_runnable _ _ _ _ _ _ _ _ _ _ _ He) as (cfg & wl & Hl & Hr);
    [right; by eexists|].
  rewrite (execute_scenario_run _ _ _ _ _ _ _ _ _ _ Hl Hr) in He.
  destruct (run_inner sleep fuel (runner_of cfg) tick rt wl) as [[[[[t2|e'] r'] wc]|why]|] eqn:Ei; try done.
  injection He as -> <- ->. apply run_inner_failed in Ei as (pre & s & Hf).
  exists cfg, wl, pre, s. pose proof (failed_run_armed _ _ _ _ _ _ _ _ _ _ _ _ Hf) as (_ & Hid & Harm).
  cbn [r_injectors runner_of] in Hid, Harm. rewrite registry_of_unarmed in Hid, Harm. by split_and!.
Qed.

(** A run that succeeds cleans up: whatever the schedule leaves armed is disarmed
    by the drop guard before the program goes on; an injector is still armed
    afterwards only if its own [disarm] failed. *)
Theorem successful_run_disarms_everything {W B : Type} `{AyaApi W B} `{FsApi W} `{TcpApi W} `{ProcApi W}
    `{FileApi W} sleep toml_from_str fuel order p tick rt (w w' : W) t injs :
  execute_scenario sleep toml_from_str fuel order p tick rt w = Some (Alive t, injs, w') →
  NoDup order → (∀ id, id ∈ dom injs → id ∈ order) →
  ∀ id i', injs !! id = Some i' → fi_is_armed (W := W) i' = true →
  ∃ i w0 e w1, fi_is_armed (W := W) i = true ∧ fi_disarm i w0 = (Err e, i', w1).
Proof.
  intros He Hnd Hdom id i' Hi' Ha.
  destruct (execute_scenario_runnable _ _ _ _ _ _ _ _ _ _ _ He) as (cfg & wl & Hl & Hr);
    [left; by eexists|].
  rewrite (execute_scenario_run _ _ _ _ _ _ _ _ _ _ Hl Hr) in He.
  destruct (run_inner sleep fuel (runner_of cfg) tick rt wl) as [[[[[t2|e'] r'] wc]|why]|] eqn:Ei; try done.
  unfold drop_runner, teardown in He.
  destruct (foldl teardown_one (None, r_injectors r', wc) order) as [[err injs'] wd] eqn:Ef.
  cbn in He. injection He as _ <- _.
  apply teardown_loop in Ef as (_ & _ & Harm); [|done].
  destruct (Harm id i') as [(i & w0 & e & w1 & _ & ? & ?) _]; [|done..|by exists i, w0, e, w1].
  apply Hdom, elem_of_dom. by exists i'.
Qed.

Definition end_registry (x : option (live Trace * gmap string (AnyInjector unit) * box))
  : gmap string (AnyInjector unit) := match x with Some (_, injs, _) => injs | None => ∅ end.
Definition end_world (x : option (live Trace * gmap string (AnyInjector unit) * box)) : box :=
  match x with Some (_, _, w) => w | None => demo_box [] end.

(** The corruption injector's second map write fails: the run dies with memory
    pressure on. *)
Definition failing_run := execute_scenario no_sleep demo_toml 5 [] "s.toml" 10 true (demo_box [true; false]).

Lemma failed_run_leaves_faults_armed_witness :
  armed_set (W := box) (end_registry failing_run) = {["mem"%string]} ∧
  ∃ cfg wl pre s, load_config demo_toml "s.toml" (demo_box [true; false]) = (Alive cfg, wl) ∧
    failed_run no_sleep {| ctx_clock := System; ctx_seed := cfg_seed cfg |} 10 true
      (cfg_schedule cfg) (registry_of cfg) wl (ArmFailed "corrupt" "bpf_map_update_elem failed")
      (end_registry failing_run) (end_world failing_run) pre s ∧
    (∀ id, id ≠ fault_id s → id ∈ armed_set (W := box) (end_registry failing_run) ↔ id ∈ armed_after ∅ pre) ∧
    (action s = Arm → armed_set (W := box) (end_registry failing_run) = armed_after ∅ pre).
Proof.
  split; [vm_compute; reflexivity|].
  apply (failed_run_leaves_faults_armed no_sleep demo_toml 5 [] "s.toml" 10 true
           (demo_box [true; false]) (end_world failing_run)
           (ArmFailed "corrupt" "bpf_map_update_elem failed") (end_registry failing_run)).
  vm_compute. reflexivity.
Defined.

Definition clean_run :=
  execute_scenario no_sleep demo_toml 5 ["mem"; "corrupt"]%string "s.toml" 10 true (demo_box []).

Lemma successful_run_disarms_everything_witness :
  ∀ id i', end_registry clean_run !! id = Some i' → fi_is_armed (W := box) i' = true →
  ∃ i w0 e w1, fi_is_armed (W := box) i = true ∧ fi_disarm i w0 = (Err e, i', w1).
Proof.
  apply (successful_run_disarms_everything no_sleep demo_toml 5 ["mem"; "corrupt"]%string "s.toml" 10 true
           (demo_box []) (end_world clean_run) demo_cli_trace (end_registry clean_run)).
  - vm_compute. reflexivity.
  - apply (bool_decide_unpack _). vm_compute. exact I.
  - assert (Hdom : dom (end_registry clean_run) = {["mem"; "corrupt"]}%string) by (vm_compute; reflexivity).
    intros id. rewrite Hdom. intros [->%elem_of_singleton | ->%elem_of_singleton]%elem_of_union;
      repeat constructor.
Defined.
