(* ===== verification/CliText.v ===== *)
(** What the binary of crates/cli/src/main.rs prints: [print_trace_summary], the other lines
    of [main], the message [die] puts on stderr, and the exit status; with the formatting
    traits they go through ([format!]'s padding, the derived [Debug] of the error type). *)

From Stdlib Require Import Strings.Byte.
From S2P Require Import Prelude RustStd Core Schedule Scheduler Trace Runner.
From S2P Require Import FixAdapter FixInjector Effect Bpf Xdp CgroupMem TimeSkew Cli.

(* ------------------------------------------------------------------ *)
(** * Formatting *)

(** [str::chars().count()]: the bytes that do not continue a character. *)
Definition char_count (l : list byte) : nat := length (filter (λ b, in_range 128 191 b = false) l).

(** [{:>w}] and [{:<w}]: spaces up to the width, which counts characters. *)
Definition pad_left (w : nat) (l : list byte) : list byte := replicate (w - char_count l) x20 ++ l.
Definition pad_right (w : nat) (l : list byte) : list byte := l ++ replicate (w - char_count l) x20.

(** The longest prefix whose bytes satisfy [p], and what follows it. *)
Fixpoint span (p : byte → bool) (l : list byte) : list byte * list byte :=
  match l with
  | [] => ([], [])
  | b :: r => if p b then let '(a, c) := span p r in (b :: a, c) else ([], l)
  end.

(** [#[derive(Debug)]] on [StepAction]. *)
Definition debug_StepAction (a : StepAction) : list byte :=
  match a with Arm => bytes "Arm" | Disarm => bytes "Disarm" end.

(** error.rs: the [#[error("...")]] strings. *)
Definition display_HarnessError (e : HarnessError) : list byte :=
  match e with
  | ArmFailed i m => bytes "fault injector " ++ bytes i ++ bytes " failed to arm: " ++ bytes m
  | DisarmFailed i m => bytes "fault injector " ++ bytes i ++ bytes " failed to disarm: " ++ bytes m
  | AdapterRejected a m => bytes "adapter " ++ bytes a ++ bytes " rejected message: " ++ bytes m
  | InvalidScenario m => bytes "scenario config invalid: " ++ bytes m
  | Io e => bytes "io error: " ++ bytes (io_text e)
  end.

(** The escapes of [Debug for str] on ASCII. *)
Definition hex_digit (d : Z) : byte := byte_of_val (if d <? 10 then 48 + d else 87 + d).
Definition debug_ascii (b : byte) : list byte :=
  let v := byte_val b in
  if v =? 0 then [x5c; x30]
  else if v =? 9 then [x5c; x74]
  else if v =? 10 then [x5c; x6e]
  else if v =? 13 then [x5c; x72]
  else if (v =? 34) || (v =? 92) then [x5c; b]
  else if (v <? 32) || (v =? 127) then
    bytes "\u{" ++ (if v <? 16 then [] else [hex_digit (v / 16)]) ++ [hex_digit (v mod 16)] ++ bytes "}"
  else [b].

Section debug.
(** How a character beyond ASCII is shown (itself, or an escape when it is not printable)
    is a Unicode table; how an [io::Error] is shown depends on the platform. *)
Variable debug_char : list byte → list byte.
Variable debug_io_error : io_error → list byte.

Fixpoint debug_chars (fuel : nat) (l : list byte) : list byte :=
  match fuel, l with
  | S f, b :: r =>
      if byte_val b <? 128 then debug_ascii b ++ debug_chars f r
      else
        let '(cont, rest) := span (in_range 128 191) r in
        debug_char (b :: cont) ++ debug_chars f rest
  | _, _ => []
  end.
Definition debug_str (s : string) : list byte :=
  [x22] ++ debug_chars (length (bytes s)) (bytes s) ++ [x22].

(** [#[derive(Debug)]] on [HarnessError]. *)
Definition debug_HarnessError (e : HarnessError) : list byte :=
  match e with
  | ArmFailed i m => bytes "ArmFailed(" ++ debug_str i ++ bytes ", " ++ debug_str m ++ bytes ")"
  | DisarmFailed i m => bytes "DisarmFailed(" ++ debug_str i ++ bytes ", " ++ debug_str m ++ bytes ")"
  | AdapterRejected a m => bytes "AdapterRejected(" ++ debug_str a ++ bytes ", " ++ debug_str m ++ bytes ")"
  | InvalidScenario m => bytes "InvalidScenario(" ++ debug_str m ++ bytes ")"
  | Io e => bytes "Io(" ++ debug_io_error e ++ bytes ")"
  end.

(* ------------------------------------------------------------------ *)
(** * main.rs: stdout *)

Definition newline : byte := x0a.

Definition event_line (e : TraceEvent) : list byte :=
  bytes "  " ++ pad_left 14 (to_dec (at_ns (ev_step e))) ++ bytes " ns  "
  ++ pad_right 20 (bytes (fault_id (ev_step e))) ++ bytes " " ++ debug_StepAction (action (ev_step e)).

Definition print_trace_summary (trace : Trace) : list byte :=
  bytes "scenario: " ++ bytes (scenario_name trace) ++ bytes " (seed " ++ to_dec (tr_seed trace) ++ bytes ")"
  ++ [newline] ++ concat ((λ e, event_line e ++ [newline]) <$> events trace).

Definition print_output (o : output) : list byte :=
  match o with
  | Summary t => print_trace_summary t
  | SavedTo p => bytes "trace saved to " ++ bytes p ++ [newline]
  | Match p => bytes "MATCH: this run reproduces " ++ bytes p ++ [newline]
  end.

(* ------------------------------------------------------------------ *)
(** * main.rs: stderr and the exit status *)

(** The message each caller of [die] formats. *)
Definition death_message (d : death) : list byte :=
  match d with
  | ReadingConfig p e => bytes "reading " ++ bytes p ++ bytes ": " ++ bytes (io_text e)
  | ParsingConfig p e => bytes "parsing " ++ bytes p ++ bytes ": " ++ bytes e
  | InvalidScenarioConfig e => bytes "invalid scenario: " ++ debug_HarnessError e
  | SettingUpRunner e => bytes "setting up runner: " ++ debug_HarnessError e
  | RunFailed e => bytes "run failed: " ++ debug_HarnessError e
  | SavingTrace e => bytes "saving trace: " ++ debug_HarnessError e
  | LoadingBaseline p e => bytes "loading baseline " ++ bytes p ++ bytes ": " ++ debug_HarnessError e
  | Mismatch p => bytes "MISMATCH: this run does not reproduce " ++ bytes p
  end.

(** [die]: the message on stderr, exit status 1. *)
Definition die (d : death) : list byte * Z := (death_message d ++ [newline], 1).

(** What the process leaves behind: stdout, stderr, status.  A panic would be 101; its
    message is not rendered. *)
Definition process_end (outs : list output) (ending : live unit) : list byte * list byte * Z :=
  let stdout := concat (print_output <$> outs) in
  match ending with
  | Alive _ => (stdout, [], 0)
  | Dead d => let '(msg, status) := die d in (stdout, msg, status)
  | Crashed _ => (stdout, [], 101)
  end.

End debug.

(* ------------------------------------------------------------------ *)
(** * Reading a summary back *)

Definition is_space (b : byte) : bool := bool_decide (b = x20).

Definition strip_start (p l : list byte) : option (list byte) :=
  if starts_with p l then Some (drop (length p) l) else None.
Definition strip_end (suf l : list byte) : option (list byte) :=
  reverse <$> strip_start (reverse suf) (reverse l).
Definition trim_end_spaces (l : list byte) : list byte := reverse (span is_space (reverse l)).2.

Definition read_u64 (l : list byte) : option Z :=
  match parse_uint 64 l with Ok n => Some n | Err _ => None end.
Definition read_action (l : list byte) : option (list byte * StepAction) :=
  match strip_end (bytes " Disarm") l with
  | Some id => Some (id, Disarm)
  | None => id ← strip_end (bytes " Arm") l; Some (id, Arm)
  end.

Definition parse_event_line (l : list byte) : option ScenarioStep :=
  let '(digits, rest) := span (λ b, negb (is_space b)) (span is_space l).2 in
  n ← read_u64 digits;
  body ← strip_start (bytes " ns  ") rest;
  '(id, a) ← read_action body;
  Some {| at_ns := n; fault_id := String.string_of_list_byte (trim_end_spaces id); action := a |}.

Definition parse_header_line (l : list byte) : option (string * Z) :=
  l1 ← strip_start (bytes "scenario: ") l;
  l2 ← strip_end (bytes ")") l1;
  let '(digits, rest) := span (λ b, negb (is_space b)) (reverse l2) in
  seed ← read_u64 (reverse digits);
  name ← strip_end (bytes " (seed ") (reverse rest);
  Some (String.string_of_list_byte name, seed).

(** The name, the seed and the steps a printed summary tells. *)
Definition parse_summary (l : list byte) : option (string * Z * list ScenarioStep) :=
  match split_on newline l with
  | header :: lines =>
      '(name, seed) ← parse_header_line header;
      steps ← mapM parse_event_line (take (length lines - 1) lines);
      Some (name, seed, steps)
  | [] => None
  end.

(** What a line can show: no line break in a name, no space at the end of an id. *)
Definition one_line (s : string) : Prop := newline ∉ bytes s.
Definition no_end_space (s : string) : Prop := last (bytes s) ≠ Some x20.
Definition printable (t : Trace) : Prop :=
  one_line (scenario_name t) ∧ u64? (tr_seed t) ∧
  Forall (λ e, u64? (at_ns (ev_step e)) ∧ one_line (fault_id (ev_step e)) ∧ no_end_space (fault_id (ev_step e)))
    (events t).

#[local] Arguments bytes : simpl never.

Lemma string_of_bytes s : String.string_of_list_byte (bytes s) = s.
Proof. apply String.string_of_list_byte_of_string. Qed.

Lemma span_all p l : Forall (λ b, p b = true) l → ∀ r,
  match r with [] => True | b :: _ => p b = false end → span p (l ++ r) = (l, r).
Proof.
  induction 1 as [|b l Hb _ IH]; intros r Hr; simpl.
  - destruct r as [|c r]; [done|]. simpl. by rewrite Hr.
  - by rewrite Hb, IH.
Qed.

Lemma strip_start_app p l : strip_start p (p ++ l) = Some l.
Proof. unfold strip_start. by rewrite starts_with_app, drop_app_length. Qed.

Lemma strip_end_app suf l : strip_end suf (l ++ suf) = Some l.
Proof. unfold strip_end. rewrite reverse_app, strip_start_app. simpl. by rewrite reverse_involutive. Qed.

Lemma spaces_are_spaces n : Forall (λ b, is_space b = true) (replicate n x20).
Proof. by apply Forall_replicate. Qed.

Lemma trim_end_pad n s : no_end_space s → trim_end_spaces (bytes s ++ replicate n x20) = bytes s.
Proof.
  intros Hs. unfold trim_end_spaces. rewrite reverse_app, reverse_replicate.
  rewrite span_all; [apply reverse_involutive|apply spaces_are_spaces|].
  unfold no_end_space in Hs. destruct (bytes s) as [|b l _] using rev_ind; [done|].
  rewrite reverse_app. simpl. rewrite last_snoc in Hs. unfold is_space.
  apply bool_decide_eq_false. congruence.
Qed.

Lemma digits_no_space n : 0 <= n → Forall (λ b, negb (is_space b) = true) (to_dec n).
Proof.
  intros Hn. apply Forall_forall. intros b Hb. unfold is_space.
  rewrite bool_decide_eq_false_2; [done|]. intros ->.
  eapply to_dec_no_byte; [exact Hn| |exact Hb]. unfold is_digit. vm_compute. intuition congruence.
Qed.

Lemma to_dec_head n : 0 <= n → ∃ b l, to_dec n = b :: l ∧ is_space b = false.
Proof.
  intros Hn. pose proof (digits_no_space n Hn) as H.
  destruct (to_dec_spec (Z.succ (Z.log2 n)) n) as (Hne & _ & _); [by apply in_width_log2|].
  destruct (to_dec n) as [|b l]; [done|]. exists b, l. split; [done|].
  apply Forall_inv in H. by apply negb_true_iff.
Qed.

Lemma read_u64_to_dec n : u64? n → read_u64 (to_dec n) = Some n.
Proof. intros H. unfold read_u64. by rewrite parse_to_dec. Qed.

Lemma read_action_debug l a : read_action (l ++ x20 :: debug_StepAction a) = Some (l, a).
Proof.
  unfold read_action. destruct a.
  - change (x20 :: debug_StepAction Arm) with (bytes " Arm").
    rewrite strip_end_app. unfold strip_end at 1. rewrite reverse_app.
    unfold strip_start, starts_with. rewrite bool_decide_eq_false_2; [done|].
    intros H. apply (f_equal (lookup 3%nat)) in H. vm_compute in H. congruence.
  - change (x20 :: debug_StepAction Disarm) with (bytes " Disarm").
    by rewrite strip_end_app.
Qed.

Lemma parse_event_line_prints e :
  u64? (at_ns (ev_step e)) → no_end_space (fault_id (ev_step e)) →
  parse_event_line (event_line e) = Some (ev_step e).
Proof.
  intros Hat Hid. pose proof (proj1 Hat) as H0.
  destruct (to_dec_head _ H0) as (b & l & Hd & Hb).
  unfold event_line, parse_event_line, pad_left.
  rewrite (app_assoc (bytes "  ")), (app_assoc (bytes "  ")).
  rewrite <- (app_assoc (bytes "  " ++ _) (to_dec _)).
  rewrite (span_all is_space (bytes "  " ++ replicate _ x20)).
  - simpl. rewrite (span_all _ (to_dec _)) by (by try apply digits_no_space).
    rewrite read_u64_to_dec by done. simpl.
    rewrite drop_0.
    rewrite read_action_debug. simpl. unfold pad_right. rewrite trim_end_pad, string_of_bytes by done.
    by destruct (ev_step e).
  - apply (spaces_are_spaces (2 + _)).
  - by rewrite Hd.
Qed.

Lemma parse_header_prints name seed :
  u64? seed →
  parse_header_line (bytes "scenario: " ++ bytes name ++ bytes " (seed " ++ to_dec seed ++ bytes ")")
  = Some (name, seed).
Proof.
  intros Hs. unfold parse_header_line. rewrite strip_start_app. cbn [mbind option_bind].
  rewrite !app_assoc, strip_end_app. cbn [mbind option_bind]. rewrite reverse_app, span_all.
  - cbv beta iota. rewrite !reverse_involutive, read_u64_to_dec by done. cbn [mbind option_bind].
    rewrite strip_end_app. cbn [mbind option_bind]. by rewrite string_of_bytes.
  - apply Forall_reverse, digits_no_space, Hs.
  - by rewrite reverse_app.
Qed.

(** A text without line breaks, by evaluation. *)
Lemma no_newline (l : list byte) : bool_decide (newline ∈ l) = false → newline ∉ l.
Proof. apply bool_decide_eq_false_1. Qed.

Lemma newline_not_digit : ¬ is_digit newline.
Proof. unfold is_digit. vm_compute. intuition congruence. Qed.

Lemma spaces_no_newline n : newline ∉ replicate n x20.
Proof. rewrite elem_of_replicate. by intros [? _]. Qed.

Lemma one_line_event e :
  0 <= at_ns (ev_step e) → one_line (fault_id (ev_step e)) → newline ∉ event_line e.
Proof.
  intros Hat Hid. unfold event_line, pad_left, pad_right.
  rewrite !not_elem_of_app. split_and!; try done; try apply spaces_no_newline.
  - by apply no_newline.
  - by apply to_dec_no_byte, newline_not_digit.
  - by apply no_newline.
  - by apply no_newline.
  - by destruct (action _); apply no_newline.
Qed.

Lemma one_line_header name seed :
  one_line name → 0 <= seed →
  newline ∉ bytes "scenario: " ++ bytes name ++ bytes " (seed " ++ to_dec seed ++ bytes ")".
Proof.
  intros Hn Hs. rewrite !not_elem_of_app. split_and!; try done; try (by apply no_newline).
  by apply to_dec_no_byte, newline_not_digit.
Qed.

(** Lines that each end in the separator split back into the lines and an empty rest. *)
Lemma split_lines x ls :
  Forall (λ l, x ∉ l) ls → split_on x (concat ((λ l, l ++ [x]) <$> ls)) = ls ++ [[]].
Proof.
  induction 1 as [|l ls Hl _ IH]; [done|]. rewrite fmap_cons. cbn [concat].
  rewrite <- app_assoc. cbn [app]. by rewrite split_on_fresh, IH.
Qed.

(** C40: the summary a run prints can be read back: for a trace whose numbers are 64-bit, whose
    names hold no line break and whose fault ids end in no space, the printed text determines
    the scenario's name, its seed and every step that was taken, in order. *)
Theorem summary_reads_back t :
  printable t →
  parse_summary (print_trace_summary t) = Some (scenario_name t, tr_seed t, ev_step <$> events t).
Proof.
  intros (Hn & Hs & He). unfold parse_summary, print_trace_summary.
  rewrite (app_assoc (to_dec _)), (app_assoc (bytes " (seed ")), (app_assoc (bytes (scenario_name t))),
    (app_assoc (bytes "scenario: ")). cbn [app].
  rewrite split_on_fresh by (apply one_line_header; [done|apply Hs]).
  rewrite parse_header_prints by done. cbn [mbind option_bind].
  rewrite (list_fmap_compose event_line (λ l, l ++ [newline])), split_lines.
  - rewrite length_app, Nat.add_sub, take_app_length.
    replace (mapM _ _) with (Some (ev_step <$> events t)); [done|]. symmetry.
    apply mapM_Some. rewrite Forall2_fmap_l, Forall2_fmap_r. apply Forall_Forall2_diag.
    eapply Forall_impl; [exact He|]. intros e (? & _ & ?). by apply parse_event_line_prints.
  - apply Forall_fmap. eapply Forall_impl; [exact He|]. intros e ([? _] & ? & _). by apply one_line_event.
Qed.

Definition two_events : Trace :=
  {| scenario_name := "demo"; tr_seed := 7;
     events := [ {| wall_ns := 1000000; ev_step := {| at_ns := 500; fault_id := "loss"; action := Arm |} |};
                 {| wall_ns := 2000000;
                    ev_step := {| at_ns := 123456789012345; fault_id := "a rather long fault identifier"; action := Disarm |} |} ] |}.

Lemma summary_reads_back_witness :
  printable two_events ∧
  parse_summary (print_trace_summary two_events)
  = Some ("demo"%string, 7, ev_step <$> events two_events).
Proof.
  assert (H : printable two_events).
  { split; [by apply no_newline|]. split; [by split|].
    repeat constructor; try (by apply no_newline); vm_compute; congruence. }
  split; [exact H|]. exact (summary_reads_back two_events H).
Defined.

(** The columns are padded to 14 and 20 characters and overflow them when they must. *)
Example two_events_text :
  event_line <$> events two_events =
    [ bytes "             500 ns  loss                 Arm";
      bytes "  123456789012345 ns  a rather long fault identifier Disarm" ].
Proof. vm_compute. reflexivity. Qed.

(** A configuration file that cannot be read: one line on stderr, status 1, nothing on stdout. *)
Example unreadable_config_text dc dio :
  process_end dc dio [] (Dead (ReadingConfig "x.toml" {| io_kind := OtherKind; io_text := "No such file or directory (os error 2)" |}))
  = ([], bytes "reading x.toml: No such file or directory (os error 2)" ++ [newline], 1).
Proof. reflexivity. Qed.
