(* ===== verification/ConfigFile.v ===== *)
(** The scenario file: what the types of cli/src/config.rs (and [ScenarioStep] of
    core/src/scenario.rs) accept of a TOML document through [#[derive(Deserialize)]]
    and their [#[serde(...)]] attributes.  Reading the text into a tree is the toml
    crate's business and stays a parameter; the tree is decoded here. *)

From Stdlib Require Import Strings.Byte.
From S2P Require Import Prelude RustStd Core FixAdapter FixInjector Effect Bpf Xdp KernelFaults NetAddr Cli.

(* ------------------------------------------------------------------ *)
(** * The document *)

(** A TOML value; a table keeps the order of the document.  An integer is an [i64]. *)
#[local] Unset Elimination Schemes.
Inductive toml :=
| TString (s : string)
| TInteger (z : Z)
| TFloat (text : string)
| TBoolean (b : bool)
| TDatetime (text : string)
| TArray (l : list toml)
| TTable (t : list (string * toml)).
#[local] Set Elimination Schemes.

Lemma toml_ind (P : toml → Prop) :
  (∀ s, P (TString s)) → (∀ z, P (TInteger z)) → (∀ s, P (TFloat s)) → (∀ b, P (TBoolean b)) →
  (∀ s, P (TDatetime s)) → (∀ l, Forall P l → P (TArray l)) → (∀ t, Forall (P ∘ snd) t → P (TTable t)) →
  ∀ v, P v.
Proof.
  intros Hs Hi Hf Hb Hd Ha Ht. fix IH 1. intros [s|z|s|b|s|l|t]; [apply Hs|apply Hi|apply Hf|apply Hb|apply Hd|..].
  - apply Ha. induction l as [|v l IHl]; constructor; [apply IH|exact IHl].
  - apply Ht. induction t as [|[k v] t IHt]; constructor; [apply IH|exact IHt].
Qed.

(** What the parser guarantees: [i64] integers, no key twice in a table. *)
Fixpoint toml_wf (v : toml) : Prop :=
  match v with
  | TInteger z => - 2 ^ 63 <= z < 2 ^ 63
  | TArray l => (fix go l := match l with [] => True | x :: r => toml_wf x ∧ go r end) l
  | TTable t => NoDup t.*1 ∧ (fix go t := match t with [] => True | (_, x) :: r => toml_wf x ∧ go r end) t
  | _ => True
  end.

Fixpoint key (k : string) (t : list (string * toml)) : option toml :=
  match t with
  | [] => None
  | (k', v) :: r => if decide (k' = k) then Some v else key k r
  end.

(* ------------------------------------------------------------------ *)
(** * serde *)

(** [rename_all = "snake_case"] on a variant's name. *)
Definition is_upper (b : byte) : bool := in_range 65 90 b.
Definition to_ascii_lowercase (b : byte) : byte :=
  if is_upper b then byte_of_val (byte_val b + 32) else b.
Definition snake_case (name : string) : string :=
  match bytes name with
  | [] => ""
  | b :: r =>
      String.string_of_list_byte
        (to_ascii_lowercase b ::
         concat ((λ c, if is_upper c then [x5f; to_ascii_lowercase c] else [to_ascii_lowercase c]) <$> r))
  end.

(** Besides tables and names, the derive takes a struct from an array in field order, an
    internally tagged enum from an array that starts with the tag, and a unit variant
    from a table; how much of that a format passes on is the format's choice. *)
Class SerdeForms := {
  fields_of_array : list string → list toml → option (list (string * toml));
  tagged_array : list toml → option (toml * toml);
  variant_of_table : list (string * toml) → option string
}.

Section decode.
Context `{SerdeForms}.

(** The entries a struct with these fields is read from; keys it does not name are
    ignored. *)
Definition de_struct (fields : list string) (v : toml) : option (list (string * toml)) :=
  match v with
  | TTable t => Some t
  | TArray l => fields_of_array fields l
  | _ => None
  end.
Definition field {A} (de : toml → option A) (k : string) (t : list (string * toml)) : option A :=
  v ← key k t; de v.

Definition de_String (v : toml) : option string := match v with TString s => Some s | _ => None end.
(** [u8], [u16], [u32], [u64] from an [i64]. *)
Definition de_uint (w : Z) (v : toml) : option Z :=
  match v with TInteger z => if (0 <=? z) && (z <? 2 ^ w) then Some z else None | _ => None end.
Definition de_i64 (v : toml) : option Z := match v with TInteger z => Some z | _ => None end.
Definition de_IpAddr (v : toml) : option IpAddr :=
  match v with TString s => ip_from_str (bytes s) | _ => None end.
Definition de_Vec {A} (de : toml → option A) (v : toml) : option (list A) :=
  match v with TArray l => mapM de l | _ => None end.
Definition de_entry {A} (de : toml → option A) (kv : string * toml) : option (string * A) :=
  pair kv.1 <$> de kv.2.
Definition de_HashMap {A} (de : toml → option A) (v : toml) : option (gmap string A) :=
  match v with
  | TTable t => list_to_map <$> mapM (de_entry de) t
  | _ => None
  end.

(** The name of the variant of an enum without content. *)
Definition de_variant (v : toml) : option string :=
  match v with TString s => Some s | TTable t => variant_of_table t | _ => None end.

(** [tag = "type"]: the tag and the rest of the value. *)
Definition de_tagged (v : toml) : option (string * toml) :=
  match v with
  | TTable t => tag ← field de_String "type" t; Some (tag, TTable (filter (λ kv, kv.1 ≠ "type") t))
  | TArray l => '(tag, rest) ← tagged_array l; name ← de_String tag; Some (name, rest)
  | _ => None
  end.

(* ------------------------------------------------------------------ *)
(** * scenario.rs *)

Definition de_StepAction (v : toml) : option StepAction :=
  name ← de_variant v;
  if decide (name = snake_case "Arm") then Some Arm
  else if decide (name = snake_case "Disarm") then Some Disarm
  else None.

Definition de_ScenarioStep (v : toml) : option ScenarioStep :=
  t ← de_struct ["at_ns"; "fault_id"; "action"] v;
  at_ns ← field (de_uint 64) "at_ns" t;
  fault_id ← field de_String "fault_id" t;
  action ← field de_StepAction "action" t;
  Some {| at_ns := at_ns; fault_id := fault_id; action := action |}.

(* ------------------------------------------------------------------ *)
(** * config.rs *)

Definition de_PressureModeConfig (v : toml) : option PressureModeConfig :=
  name ← de_variant v;
  if decide (name = snake_case "Hard") then Some HardConfig
  else if decide (name = snake_case "Soft") then Some SoftConfig
  else None.

(** The variants of [InjectorConfig], by their Rust names, each with its fields. *)
Definition injector_variants : list (string * (toml → option InjectorConfig)) := [
  ("XdpPacketLoss", λ v,
    t ← de_struct ["iface"; "drop_every_n"] v;
    iface ← field de_String "iface" t;
    drop_every_n ← field (de_uint 32) "drop_every_n" t;
    Some (XdpPacketLoss iface drop_every_n));
  ("XdpCorruption", λ v,
    t ← de_struct ["iface"; "corrupt_every_n"; "offset"; "mask"] v;
    iface ← field de_String "iface" t;
    corrupt_every_n ← field (de_uint 32) "corrupt_every_n" t;
    offset ← field (de_uint 32) "offset" t;
    mask ← field (de_uint 8) "mask" t;
    Some (XdpCorruption iface corrupt_every_n offset mask));
  ("XdpPartition", λ v,
    t ← de_struct ["iface"; "src_ip"; "src_port"] v;
    iface ← field de_String "iface" t;
    src_ip ← field de_IpAddr "src_ip" t;
    src_port ← field (de_uint 16) "src_port" t;
    Some (XdpPartition iface src_ip src_port));
  ("CgroupMemoryPressure", λ v,
    t ← de_struct ["pid"; "limit_bytes"; "mode"] v;
    pid ← field (de_uint 32) "pid" t;
    limit_bytes ← field (de_uint 64) "limit_bytes" t;
    mode ← field de_PressureModeConfig "mode" t;
    Some (CgroupMemoryPressure pid limit_bytes mode));
  ("TimeSkew", λ v,
    t ← de_struct ["argv"; "monotonic_offset_secs"; "boottime_offset_secs"] v;
    argv ← field (de_Vec de_String) "argv" t;
    monotonic_offset_secs ← field de_i64 "monotonic_offset_secs" t;
    boottime_offset_secs ← field de_i64 "boottime_offset_secs" t;
    Some (TimeSkew argv monotonic_offset_secs boottime_offset_secs));
  ("FixSilentReject", λ v,
    t ← de_struct ["listen_addr"; "upstream_addr"] v;
    listen_addr ← field de_String "listen_addr" t;
    upstream_addr ← field de_String "upstream_addr" t;
    Some (FixSilentRejectConfig listen_addr upstream_addr));
  ("FixAckWithoutExecution", λ v,
    t ← de_struct ["listen_addr"; "upstream_addr"] v;
    listen_addr ← field de_String "listen_addr" t;
    upstream_addr ← field de_String "upstream_addr" t;
    Some (FixAckWithoutExecutionConfig listen_addr upstream_addr));
  ("FixRateLimitThrottle", λ v,
    t ← de_struct ["listen_addr"; "upstream_addr"; "threshold"] v;
    listen_addr ← field de_String "listen_addr" t;
    upstream_addr ← field de_String "upstream_addr" t;
    threshold ← field (de_uint 64) "threshold" t;
    Some (FixRateLimitThrottleConfig listen_addr upstream_addr threshold));
  ("FixExecutionReportPriceMutation", λ v,
    t ← de_struct ["listen_addr"; "upstream_addr"; "mutated_price"] v;
    listen_addr ← field de_String "listen_addr" t;
    upstream_addr ← field de_String "upstream_addr" t;
    mutated_price ← field de_String "mutated_price" t;
    Some (FixExecutionReportPriceMutationConfig listen_addr upstream_addr mutated_price))
]%string.

Definition de_InjectorConfig (v : toml) : option InjectorConfig :=
  '(tag, rest) ← de_tagged v;
  x ← list_find (λ nd, snake_case nd.1 = tag) injector_variants;
  x.2.2 rest.

Definition de_Config (v : toml) : option Config :=
  t ← de_struct ["name"; "seed"; "injectors"; "schedule"] v;
  name ← field de_String "name" t;
  seed ← field (de_uint 64) "seed" t;
  injectors ← field (de_HashMap de_InjectorConfig) "injectors" t;
  schedule ← field (de_Vec de_ScenarioStep) "schedule" t;
  Some {| cfg_name := name; cfg_seed := seed; cfg_injectors := injectors; cfg_schedule := schedule |}.

End decode.

Example snake_names :
  snake_case <$> ["XdpPacketLoss"; "CgroupMemoryPressure"; "FixExecutionReportPriceMutation"; "Arm"]%string
  = ["xdp_packet_loss"; "cgroup_memory_pressure"; "fix_execution_report_price_mutation"; "arm"]%string.
Proof. vm_compute. reflexivity. Qed.

(* ------------------------------------------------------------------ *)
(** * Writing a configuration *)

Definition enc_String (s : string) : toml := TString s.
Definition enc_text (l : list byte) : toml := TString (String.string_of_list_byte l).
Definition enc_IpAddr (ip : IpAddr) : toml :=
  enc_text (match ip with V4 os => dotted os | V6 os => colon_hex os end).
Definition enc_variant (name : string) : toml := TString (snake_case name).
Definition enc_StepAction (a : StepAction) : toml :=
  enc_variant (match a with Arm => "Arm" | Disarm => "Disarm" end).
Definition enc_ScenarioStep (s : ScenarioStep) : toml :=
  TTable [("at_ns", TInteger (at_ns s)); ("fault_id", TString (fault_id s)); ("action", enc_StepAction (action s))].
Definition enc_mode (m : PressureModeConfig) : toml :=
  enc_variant (match m with HardConfig => "Hard" | SoftConfig => "Soft" end).

(** The Rust name and the fields of a variant. *)
Definition variant_name (c : InjectorConfig) : string :=
  match c with
  | XdpPacketLoss _ _ => "XdpPacketLoss"
  | XdpCorruption _ _ _ _ => "XdpCorruption"
  | XdpPartition _ _ _ => "XdpPartition"
  | CgroupMemoryPressure _ _ _ => "CgroupMemoryPressure"
  | TimeSkew _ _ _ => "TimeSkew"
  | FixSilentRejectConfig _ _ => "FixSilentReject"
  | FixAckWithoutExecutionConfig _ _ => "FixAckWithoutExecution"
  | FixRateLimitThrottleConfig _ _ _ => "FixRateLimitThrottle"
  | FixExecutionReportPriceMutationConfig _ _ _ => "FixExecutionReportPriceMutation"
  end.
Definition variant_fields (c : InjectorConfig) : list (string * toml) :=
  match c with
  | XdpPacketLoss iface n => [("iface", TString iface); ("drop_every_n", TInteger n)]
  | XdpCorruption iface n offset mask =>
      [("iface", TString iface); ("corrupt_every_n", TInteger n); ("offset", TInteger offset); ("mask", TInteger mask)]
  | XdpPartition iface ip port => [("iface", TString iface); ("src_ip", enc_IpAddr ip); ("src_port", TInteger port)]
  | CgroupMemoryPressure pid limit mode =>
      [("pid", TInteger pid); ("limit_bytes", TInteger limit); ("mode", enc_mode mode)]
  | TimeSkew argv mono boot =>
      [("argv", TArray (TString <$> argv)); ("monotonic_offset_secs", TInteger mono);
       ("boottime_offset_secs", TInteger boot)]
  | FixSilentRejectConfig l u | FixAckWithoutExecutionConfig l u =>
      [("listen_addr", TString l); ("upstream_addr", TString u)]
  | FixRateLimitThrottleConfig l u t =>
      [("listen_addr", TString l); ("upstream_addr", TString u); ("threshold", TInteger t)]
  | FixExecutionReportPriceMutationConfig l u price =>
      [("listen_addr", TString l); ("upstream_addr", TString u); ("mutated_price", TString price)]
  end%string.
Definition enc_InjectorConfig (c : InjectorConfig) : toml :=
  TTable (("type"%string, enc_variant (variant_name c)) :: variant_fields c).

Definition enc_Config (c : Config) : toml :=
  TTable [("name", TString (cfg_name c)); ("seed", TInteger (cfg_seed c));
          ("injectors", TTable (prod_map id enc_InjectorConfig <$> map_to_list (cfg_injectors c)));
          ("schedule", TArray (enc_ScenarioStep <$> cfg_schedule c))]%string.

(* ------------------------------------------------------------------ *)
(** * What a file can express *)

(** The declared widths, and nothing beyond [i64] since the file's integers are. *)
Definition fits (w z : Z) : Prop := 0 <= z < 2 ^ w ∧ z < 2 ^ 63.
Definition i64_typed (z : Z) : Prop := - 2 ^ 63 <= z < 2 ^ 63.
Definition injector_typed (c : InjectorConfig) : Prop :=
  match c with
  | XdpPacketLoss _ n => fits 32 n
  | XdpCorruption _ n offset mask => fits 32 n ∧ fits 32 offset ∧ fits 8 mask
  | XdpPartition _ ip port => ip_typed ip ∧ fits 16 port
  | CgroupMemoryPressure pid limit _ => fits 32 pid ∧ fits 64 limit
  | TimeSkew _ mono boot => i64_typed mono ∧ i64_typed boot
  | FixRateLimitThrottleConfig _ _ t => fits 64 t
  | _ => True
  end.
#[global] Instance injector_typed_dec c : Decision (injector_typed c).
Proof.
  destruct c as [|? ? ? ?|? [] ?| | | | | |]; cbn; unfold fits, i64_typed; apply _.
Defined.
Definition config_typed (c : Config) : Prop :=
  fits 64 (cfg_seed c) ∧ map_Forall (λ _, injector_typed) (cfg_injectors c) ∧
  Forall (λ s, fits 64 (at_ns s)) (cfg_schedule c).

(* ------------------------------------------------------------------ *)
(** * Lemmas: reading back what was written *)

Lemma toml_wf_array l : toml_wf (TArray l) ↔ Forall toml_wf l.
Proof. cbn. induction l as [|v l IH]; [split; [constructor|done]|]. by rewrite Forall_cons, <- IH. Qed.

Lemma toml_wf_table t : toml_wf (TTable t) ↔ NoDup t.*1 ∧ Forall (toml_wf ∘ snd) t.
Proof.
  cbn. apply and_iff_compat_l. induction t as [|[k v] t IH]; [split; [constructor|done]|].
  by rewrite Forall_cons, <- IH.
Qed.

Section round_trip.
Context `{SerdeForms}.

Lemma field_here {A} (de : toml → option A) k v t : field de k ((k, v) :: t) = de v.
Proof. unfold field. cbn. by rewrite decide_True. Qed.
Lemma field_there {A} (de : toml → option A) k k' v t : k' ≠ k → field de k ((k', v) :: t) = field de k t.
Proof. intros Hk. unfold field. cbn. by rewrite decide_False. Qed.

Lemma key_filter k t : k ≠ "type"%string → key k (filter (λ kv, kv.1 ≠ "type"%string) t) = key k t.
Proof.
  intros Hk. induction t as [|[k' v] t IH]; [done|]. rewrite filter_cons. cbn [key fst].
  case_decide as H1; [cbn [key]; by rewrite IH|]. rewrite IH. rewrite decide_False; [done|].
  by intros ->.
Qed.

Lemma field_filter {A} (de : toml → option A) k t :
  k ≠ "type"%string → field de k (filter (λ kv, kv.1 ≠ "type"%string) t) = field de k t.
Proof. intros Hk. unfold field. by rewrite key_filter. Qed.

Lemma de_uint_fits w z : fits w z → de_uint w (TInteger z) = Some z.
Proof. intros [? _]. cbn. by replace ((0 <=? z) && (z <? 2 ^ w)) with true by lia. Qed.

Lemma de_enc_ip ip : ip_typed ip → de_IpAddr (enc_IpAddr ip) = Some ip.
Proof.
  intros Hip. cbn. unfold bytes. rewrite String.list_byte_of_string_of_list_byte.
  destruct ip as [os|os]; [by apply ip_from_str_v4|by apply ip_from_str_v6].
Qed.

Lemma de_enc_action a : de_StepAction (enc_StepAction a) = Some a.
Proof. by destruct a. Qed.
Lemma de_enc_mode m : de_PressureModeConfig (enc_mode m) = Some m.
Proof. by destruct m. Qed.

Lemma de_enc_strings l : de_Vec de_String (TArray (TString <$> l)) = Some l.
Proof. cbn. apply mapM_Some. rewrite Forall2_fmap_l. by apply Forall_Forall2_diag, Forall_true. Qed.

Lemma find_variant n nd :
  injector_variants !! n = Some nd →
  list_find (λ nd', snake_case nd'.1 = snake_case nd.1) injector_variants = Some (n, nd).
Proof. intros Hn. do 9 (destruct n as [|n]; [injection Hn as <-; reflexivity|]). done. Qed.

Lemma de_InjectorConfig_variant n nd t tag :
  injector_variants !! n = Some nd → tag = TString (snake_case nd.1) →
  de_InjectorConfig (TTable (("type"%string, tag) :: t)) =
  nd.2 (TTable (filter (λ kv, kv.1 ≠ "type"%string) (("type"%string, tag) :: t))).
Proof.
  intros Hn ->. unfold de_InjectorConfig, de_tagged. rewrite field_here. cbn [de_String mbind option_bind].
  by rewrite (find_variant _ _ Hn).
Qed.

End round_trip.

(** The fields of a written struct, found by name and decoded. *)
Ltac read_fields :=
  repeat first
    [ rewrite field_filter by done
    | rewrite field_here
    | rewrite field_there by done
    | rewrite de_uint_fits by done
    | rewrite de_enc_ip by done
    | rewrite de_enc_strings
    | rewrite de_enc_mode
    | rewrite de_enc_action
    | progress cbn [mbind option_bind de_String de_i64 enc_String de_struct] ].

Lemma de_enc_injector `{SerdeForms} c : injector_typed c → de_InjectorConfig (enc_InjectorConfig c) = Some c.
Proof.
  intros Hc. unfold enc_InjectorConfig, enc_variant.
  destruct c; cbn [injector_typed] in Hc; destruct_and?;
    cbn [variant_name variant_fields];
    [ erewrite (de_InjectorConfig_variant 0) by reflexivity
    | erewrite (de_InjectorConfig_variant 1) by reflexivity
    | erewrite (de_InjectorConfig_variant 2) by reflexivity
    | erewrite (de_InjectorConfig_variant 3) by reflexivity
    | erewrite (de_InjectorConfig_variant 4) by reflexivity
    | erewrite (de_InjectorConfig_variant 5) by reflexivity
    | erewrite (de_InjectorConfig_variant 6) by reflexivity
    | erewrite (de_InjectorConfig_variant 7) by reflexivity
    | erewrite (de_InjectorConfig_variant 8) by reflexivity ];
    cbn [snd]; by read_fields.
Qed.

Lemma de_enc_step `{SerdeForms} s : fits 64 (at_ns s) → de_ScenarioStep (enc_ScenarioStep s) = Some s.
Proof.
  intros Hs. unfold de_ScenarioStep, enc_ScenarioStep. read_fields. by destruct s.
Qed.

Lemma de_enc_map {A} (de : toml → option A) enc (m : gmap string A) :
  map_Forall (λ _ a, de (enc a) = Some a) m →
  de_HashMap de (TTable (prod_map id enc <$> map_to_list m)) = Some m.
Proof.
  intros Hm. unfold de_HashMap. replace (mapM _ _) with (Some (map_to_list m)).
  - cbn. by rewrite list_to_map_to_list.
  - symmetry. apply mapM_Some. rewrite Forall2_fmap_l. apply Forall_Forall2_diag, Forall_forall.
    intros [k a] Hin%elem_of_map_to_list. unfold de_entry. cbn. by rewrite (Hm k a Hin).
Qed.

Lemma de_enc_config `{SerdeForms} c : config_typed c → de_Config (enc_Config c) = Some c.
Proof.
  intros (Hseed & Hinj & Hsteps). unfold de_Config, enc_Config. read_fields.
  rewrite de_enc_map by (eapply map_Forall_impl; [exact Hinj|]; intros; by apply de_enc_injector).
  read_fields. replace (de_Vec _ _) with (Some (cfg_schedule c)); [by destruct c|].
  symmetry. cbn. apply mapM_Some. rewrite Forall2_fmap_l. apply Forall_Forall2_diag.
  eapply Forall_impl; [exact Hsteps|]. intros s. apply de_enc_step.
Qed.

(** What is written is a document the parser could have returned. *)
Lemma fits_wf w z : fits w z → toml_wf (TInteger z).
Proof. unfold fits. cbn. lia. Qed.

Lemma enc_injector_wf c : injector_typed c → toml_wf (enc_InjectorConfig c).
Proof.
  intros Hc. apply toml_wf_table. split.
  - apply (bool_decide_unpack _). by destruct c.
  - apply Forall_cons. split; [done|].
    destruct c; cbn [injector_typed variant_fields] in *; destruct_and?;
      repeat (apply Forall_cons; split; cbn [snd compose]); try done; eauto using fits_wf.
    apply toml_wf_array, Forall_fmap, Forall_true. done.
Qed.

Lemma enc_config_wf c : config_typed c → toml_wf (enc_Config c).
Proof.
  intros (Hseed & Hinj & Hsteps). apply toml_wf_table. split; [by apply (bool_decide_unpack _)|].
  repeat (apply Forall_cons; split); cbn [snd compose]; [done|by eapply fits_wf|..|constructor].
  - apply toml_wf_table. split.
    + rewrite <- list_fmap_compose. apply (NoDup_fst_map_to_list (cfg_injectors c)).
    + apply Forall_fmap, Forall_forall. intros [k i] Hin%elem_of_map_to_list.
      apply enc_injector_wf, (Hinj k i Hin).
  - apply toml_wf_array, Forall_fmap. eapply Forall_impl; [exact Hsteps|]. intros s Hs.
    apply toml_wf_table. split; [by apply (bool_decide_unpack _)|].
    repeat (apply Forall_cons; split); cbn [snd compose]; [exact (fits_wf _ _ Hs)|done..|constructor].
Qed.

(* ------------------------------------------------------------------ *)
(** * Lemmas: what is read is typed *)

(** The other forms hand over parts of the array they are given. *)
Class SerdeFormsLaws `{SerdeForms} : Prop := {
  fields_of_array_parts : ∀ names l t, fields_of_array names l = Some t → Forall (λ kv, kv.2 ∈ l) t;
  tagged_array_parts : ∀ l tag rest, tagged_array l = Some (tag, rest) → ∃ l', rest = TArray l' ∧ l' ⊆ l
}.

Section typed.
Context `{SerdeFormsLaws}.

Lemma key_Some k t v : key k t = Some v → (k, v) ∈ t.
Proof.
  induction t as [|[k' v'] t IH]; [done|]. cbn. case_decide as Hk.
  - intros [= ->]. subst. apply elem_of_cons. by left.
  - intros Hv. apply elem_of_cons. right. by apply IH.
Qed.

Lemma field_wf {A} (de : toml → option A) k t a :
  Forall (toml_wf ∘ snd) t → field de k t = Some a → ∃ v, toml_wf v ∧ de v = Some a.
Proof.
  intros Ht (v & Hk%key_Some & Hd)%bind_Some. exists v. split; [|done].
  rewrite Forall_forall in Ht. by apply (Ht (k, v)).
Qed.

Lemma de_struct_wf names v t : toml_wf v → de_struct names v = Some t → Forall (toml_wf ∘ snd) t.
Proof.
  destruct v as [| | | | |l|t']; try done; cbn [de_struct].
  - intros Hl%toml_wf_array Hf%fields_of_array_parts. eapply Forall_impl; [exact Hf|].
    intros [k v] Hv. rewrite Forall_forall in Hl. by apply Hl.
  - intros [_ Ht]%toml_wf_table [= <-]. done.
Qed.

Lemma de_tagged_wf v tag rest : toml_wf v → de_tagged v = Some (tag, rest) → toml_wf rest.
Proof.
  destruct v as [| | | | |l|t]; try done; unfold de_tagged.
  - intros Hl%toml_wf_array ([tg r] & Ht & (nm & _ & [= _ <-])%bind_Some)%bind_Some.
    apply tagged_array_parts in Ht as (l' & -> & Hsub). apply toml_wf_array, Forall_forall.
    intros x Hx. rewrite Forall_forall in Hl. by apply Hl, Hsub.
  - intros [Hnd Ht]%toml_wf_table (? & _ & [= _ <-])%bind_Some. apply toml_wf_table. split.
    + eapply sublist_NoDup; [exact Hnd|]. apply fmap_sublist, sublist_filter.
    + apply Forall_forall. intros kv [_ Hx]%list_elem_of_filter. by apply (proj1 (Forall_forall _ _) Ht).
Qed.

Lemma field_fits w k t z :
  Forall (toml_wf ∘ snd) t → field (de_uint w) k t = Some z → fits w z.
Proof.
  intros Ht (v & Hv & Hd)%field_wf; [|done]. destruct v; try done. cbn in Hv, Hd.
  destruct (_ && _) eqn:E; [|done]. injection Hd as <-. unfold fits. lia.
Qed.

Lemma field_i64 k t z : Forall (toml_wf ∘ snd) t → field de_i64 k t = Some z → i64_typed z.
Proof. intros Ht (v & Hv & Hd)%field_wf; [|done]. destruct v; try done. by injection Hd as <-. Qed.

Lemma field_ip k t ip : Forall (toml_wf ∘ snd) t → field de_IpAddr k t = Some ip → ip_typed ip.
Proof.
  intros Ht (v & _ & Hd)%field_wf; [|done]. destruct v; try done. by apply ip_from_str_typed in Hd.
Qed.

(** Peel the binds of a decoder that succeeded, keeping what each field says. *)
Ltac read_back Hwf :=
  repeat match goal with
  | H : _ ≫= _ = Some _ |- _ => apply bind_Some in H as (? & ? & H)
  | H : de_struct _ _ = Some ?t |- _ =>
      lazymatch goal with _ : Forall _ t |- _ => fail | _ => pose proof (de_struct_wf _ _ _ Hwf H) end
  end.

Lemma de_injector_typed v c : toml_wf v → de_InjectorConfig v = Some c → injector_typed c.
Proof.
  intros Hwf ([tag rest] & Ht & ([n nd] & Hf & Hd)%bind_Some)%bind_Some.
  apply de_tagged_wf in Ht; [|done]. apply list_find_Some in Hf as (Hn & _). clear v Hwf tag.
  cbn [snd] in Hd. do 9 (destruct n as [|n]; [injection Hn as <-; cbn [snd] in Hd; read_back Ht;
    injection Hd as <-; cbn [injector_typed]; repeat match goal with |- _ ∧ _ => split end;
    solve [eauto using field_fits, field_i64, field_ip]|]).
  done.
Qed.

Lemma de_step_typed v s : toml_wf v → de_ScenarioStep v = Some s → fits 64 (at_ns s).
Proof. intros Hwf Hd. unfold de_ScenarioStep in Hd. read_back Hwf. injection Hd as <-. by eapply field_fits. Qed.

Lemma de_Vec_Forall {A} (de : toml → option A) (P : A → Prop) v l :
  (∀ v a, toml_wf v → de v = Some a → P a) → toml_wf v → de_Vec de v = Some l → Forall P l.
Proof.
  intros HP Hwf Hd. destruct v as [| | | | |vs|]; try done. apply toml_wf_array in Hwf.
  apply mapM_Some in Hd. induction Hd as [|v a vs l Hv _ IH]; [constructor|].
  apply Forall_cons in Hwf as [? ?]. constructor; [by eapply HP|by apply IH].
Qed.

Lemma de_HashMap_Forall {A} (de : toml → option A) (P : A → Prop) v m :
  (∀ v a, toml_wf v → de v = Some a → P a) → toml_wf v → de_HashMap de v = Some m → map_Forall (λ _, P) m.
Proof.
  intros HP Hwf Hd. destruct v as [| | | | | |t]; try done. apply toml_wf_table in Hwf as [_ Hwf].
  apply fmap_Some in Hd as (kvs & Hm%mapM_Some & ->).
  intros k a Hk%elem_of_list_to_map_2. revert Hk. induction Hm as [|[k' v] [k'' a'] t kvs Hv _ IH]; [by intros ?%elem_of_nil|].
  apply Forall_cons in Hwf as [Hw ?]. intros [Heq|?]%elem_of_cons; [|by apply IH].
  injection Heq as <- <-. apply fmap_Some in Hv as (a0 & Hv & [= _ ->]). by eapply HP.
Qed.

Lemma de_config_typed v c : toml_wf v → de_Config v = Some c → config_typed c.
Proof.
  intros Hwf Hd. unfold de_Config in Hd. read_back Hwf. injection Hd as <-.
  match goal with H1 : field (de_HashMap _) _ _ = Some _, H2 : field (de_Vec _) _ _ = Some _ |- _ =>
    apply field_wf in H1 as (vi & Hvi & Hi), H2 as (vs & Hvs & Hs); [|done..] end.
  split; cbn; [by eapply field_fits|]. split.
  - eapply de_HashMap_Forall; [|exact Hvi|exact Hi]. intros ???. by apply de_injector_typed.
  - eapply de_Vec_Forall; [|exact Hvs|exact Hs]. intros ???. by apply de_step_typed.
Qed.

(** C17: the configurations a scenario file can express are exactly the well-typed ones: a
    document the TOML parser can return decodes to [c] for some such document if and only
    if every number of [c] has its declared width and fits an [i64] (seeds, times, limits
    and thresholds of 2^63 and more cannot be written), and addresses have four or sixteen
    octets. *)
Theorem file_expresses_exactly_typed_configs c :
  (∃ v, toml_wf v ∧ de_Config v = Some c) ↔ config_typed c.
Proof.
  split.
  - intros (v & Hwf & Hd). by eapply de_config_typed.
  - intros Hc. exists (enc_Config c). split; [by apply enc_config_wf|by apply de_enc_config].
Qed.

End typed.

(** Writing a well-typed configuration out as a TOML document (variants by their
    snake_case names under [type], addresses in dotted or full colon notation) and
    decoding it gives the configuration back. *)
Theorem config_round_trip `{SerdeForms} c : config_typed c → de_Config (enc_Config c) = Some c.
Proof. apply de_enc_config. Qed.

(* ------------------------------------------------------------------ *)
(** * The order of keys *)

(** Two documents that differ in the order of the keys of their tables. *)
Inductive toml_eqv : toml → toml → Prop :=
| eqv_string s : toml_eqv (TString s) (TString s)
| eqv_integer z : toml_eqv (TInteger z) (TInteger z)
| eqv_float s : toml_eqv (TFloat s) (TFloat s)
| eqv_boolean b : toml_eqv (TBoolean b) (TBoolean b)
| eqv_datetime s : toml_eqv (TDatetime s) (TDatetime s)
| eqv_array l1 l2 : Forall2 toml_eqv l1 l2 → toml_eqv (TArray l1) (TArray l2)
| eqv_table t1 t t2 :
    NoDup t1.*1 → t1 ≡ₚ t → Forall2 (λ kv1 kv2, kv1.1 = kv2.1 ∧ toml_eqv kv1.2 kv2.2) t t2 →
    toml_eqv (TTable t1) (TTable t2).

Definition entry_eqv (kv1 kv2 : string * toml) : Prop := kv1.1 = kv2.1 ∧ toml_eqv kv1.2 kv2.2.

(** The same entries in any order. *)
Definition entries_eqv (t1 t2 : list (string * toml)) : Prop :=
  NoDup t1.*1 ∧ ∃ t, t1 ≡ₚ t ∧ Forall2 entry_eqv t t2.

(** Every document is equivalent to itself. *)
Lemma toml_eqv_refl v : toml_wf v → toml_eqv v v.
Proof.
  induction v as [| | | | |l IH|t IH] using toml_ind; try (intros _; by constructor).
  - intros Hl%toml_wf_array. constructor. apply Forall_Forall2_diag.
    induction IH as [|v l Hv _ IH]; [constructor|]. apply Forall_cons in Hl as [? ?]. constructor; auto.
  - intros [Hnd Ht]%toml_wf_table. eapply eqv_table; [done|reflexivity|]. apply Forall_Forall2_diag. clear Hnd.
    induction IH as [|kv t Hkv _ IH]; [constructor|]. apply Forall_cons in Ht as [? ?].
    constructor; [split; [done|by apply Hkv]|by apply IH].
Qed.

(** A format that does not look at the order of keys either. *)
Class SerdeFormsProper `{SerdeForms} : Prop := {
  #[global] fields_of_array_proper names ::
    Proper (Forall2 toml_eqv ==> option_Forall2 entries_eqv) (fields_of_array names);
  #[global] tagged_array_proper ::
    Proper (Forall2 toml_eqv ==> option_Forall2 (λ x y, toml_eqv x.1 y.1 ∧ toml_eqv x.2 y.2)) tagged_array;
  #[global] variant_of_table_proper :: Proper (entries_eqv ==> eq) variant_of_table
}.

Lemma key_elem_of k v t : NoDup t.*1 → key k t = Some v ↔ (k, v) ∈ t.
Proof.
  intros Hnd. split; [apply key_Some|]. induction t as [|[k' v'] t IH]; [by intros ?%elem_of_nil|].
  cbn in Hnd |- *. apply NoDup_cons in Hnd as [Hk' Hnd]. intros [[= <- <-]|Hin]%elem_of_cons.
  - by rewrite decide_True.
  - rewrite decide_False; [by apply IH|]. intros ->. apply Hk'. by apply (list_elem_of_fmap_2 fst _ (k, v)).
Qed.

Lemma key_permutation k t1 t2 : NoDup t1.*1 → t1 ≡ₚ t2 → key k t1 = key k t2.
Proof.
  intros Hnd Hp. apply option_eq. intros v. rewrite !key_elem_of; [by rewrite Hp|by rewrite <- Hp|done].
Qed.

#[global] Instance key_proper k : Proper (entries_eqv ==> option_Forall2 toml_eqv) (key k).
Proof.
  intros t1 t2 (Hnd & t & Hp & Hf). rewrite (key_permutation k t1 t Hnd Hp). clear Hnd Hp t1.
  induction Hf as [|[k1 v1] [k2 v2] t t2 [Hk Hv] _ IH]; cbn in *; [constructor|]. subst.
  case_decide; [by constructor|done].
Qed.

#[global] Instance field_proper {A} (de : toml → option A) k : 
  Proper (toml_eqv ==> eq) de → Proper (entries_eqv ==> eq) (field de k).
Proof.
  intros Hde t1 t2 Ht. unfold field. destruct (key_proper k t1 t2 Ht) as [v1 v2 Hv|]; [|done].
  cbn. by apply Hde.
Qed.

Lemma eqv_table_inv t1 v : toml_eqv (TTable t1) v → ∃ t2, v = TTable t2 ∧ entries_eqv t1 t2.
Proof. inversion 1; subst. eexists. split; [done|]. split; [done|]. by eexists. Qed.

#[global] Instance de_String_proper : Proper (toml_eqv ==> eq) de_String.
Proof. by intros ? ? []. Qed.
#[global] Instance de_uint_proper w : Proper (toml_eqv ==> eq) (de_uint w).
Proof. by intros ? ? []. Qed.
#[global] Instance de_i64_proper : Proper (toml_eqv ==> eq) de_i64.
Proof. by intros ? ? []. Qed.
#[global] Instance de_IpAddr_proper : Proper (toml_eqv ==> eq) de_IpAddr.
Proof. by intros ? ? []. Qed.

#[global] Instance de_Vec_proper {A} (de : toml → option A) :
  Proper (toml_eqv ==> eq) de → Proper (toml_eqv ==> eq) (de_Vec de).
Proof.
  intros Hde v1 v2 Hv. destruct Hv as [| | | | |l1 l2 Hl|]; try done. cbn.
  induction Hl as [|x y l1 l2 Hx _ IH]; [done|]. cbn. by rewrite (Hde _ _ Hx), IH.
Qed.

Lemma mapM_permutation {A B} (f : A → option B) l1 l2 :
  l1 ≡ₚ l2 → option_Forall2 (≡ₚ) (mapM f l1) (mapM f l2).
Proof.
  induction 1 as [|x l1 l2 _ IH|x y l|l1 l2 l3 _ IH1 _ IH2]; cbn.
  - by constructor.
  - destruct (f x); cbn; [|constructor]. destruct IH; cbn; constructor. by constructor.
  - destruct (f x), (f y); cbn; try constructor. destruct (mapM f l); cbn; constructor. constructor.
  - destruct IH1 as [? ? H1|]; [|done]. inversion IH2 as [? ? H2|]; subst. constructor. by rewrite H1.
Qed.

Lemma mapM_keys {A} (de : toml → option A) t kvs :
  mapM (de_entry de) t = Some kvs → kvs.*1 = t.*1.
Proof.
  intros Hm%mapM_Some. induction Hm as [|[k v] [k' a] t kvs Hv _ IH]; [done|].
  apply fmap_Some in Hv as (? & _ & [= -> ->]). cbn. by rewrite IH.
Qed.

#[global] Instance de_HashMap_proper {A} (de : toml → option A) :
  Proper (toml_eqv ==> eq) de → Proper (toml_eqv ==> eq) (de_HashMap de).
Proof.
  intros Hde v1 v2 Hv. destruct Hv as [| | | | | |t1 t t2 Hnd Hp Hf]; try done. cbn.
  assert (Heq : mapM (de_entry de) t = mapM (de_entry de) t2).
  { clear Hnd Hp. induction Hf as [|[k1 x] [k2 y] t t2 [Hk Hx] _ IH]; [done|]. cbn [fst snd] in Hk, Hx. subst k2.
    assert (Hxy : de_entry de (k1, x) = de_entry de (k1, y)) by (unfold de_entry; cbn; by rewrite (Hde _ _ Hx)).
    cbn [mapM]. by rewrite Hxy, IH. }
  rewrite <- Heq. pose proof (mapM_permutation (de_entry de) t1 t Hp) as Hm.
  destruct (mapM _ t1) as [m1|] eqn:E1; inversion Hm as [? m2 Hperm|]; subst; [|done].
  cbn. f_equal. apply list_to_map_proper; [|done]. by rewrite (mapM_keys _ _ _ E1).
Qed.

Section order.
Context `{SerdeFormsProper}.

#[global] Instance de_variant_proper : Proper (toml_eqv ==> eq) de_variant.
Proof.
  intros v1 v2 Hv. destruct Hv as [| | | | | |t1 t t2 Hnd Hp Hf]; try done. cbn.
  apply variant_of_table_proper. split; [done|]. by exists t.
Qed.

#[global] Instance de_struct_proper names : Proper (toml_eqv ==> option_Forall2 entries_eqv) (de_struct names).
Proof.
  intros v1 v2 Hv. destruct Hv as [| | | | |l1 l2 Hl|t1 t t2 Hnd Hp Hf]; cbn; try constructor.
  - by apply fields_of_array_proper.
  - split; [done|]. by exists t.
Qed.

Lemma entries_eqv_filter t1 t2 :
  entries_eqv t1 t2 → entries_eqv (filter (λ kv, kv.1 ≠ "type"%string) t1) (filter (λ kv, kv.1 ≠ "type"%string) t2).
Proof.
  intros (Hnd & t & Hp & Hf). split.
  - eapply sublist_NoDup; [exact Hnd|]. apply fmap_sublist, sublist_filter.
  - exists (filter (λ kv, kv.1 ≠ "type"%string) t). split; [by rewrite Hp|]. clear Hnd Hp t1.
    induction Hf as [|kv1 kv2 t t2 [Hk Hv] _ IH]; [done|]. rewrite !filter_cons, Hk.
    case_decide; [by constructor|done].
Qed.

Lemma de_tagged_respects v1 v2 :
  toml_eqv v1 v2 → option_Forall2 (λ x y, x.1 = y.1 ∧ toml_eqv x.2 y.2) (de_tagged v1) (de_tagged v2).
Proof.
  intros Hv. destruct Hv as [| | | | |l1 l2 Hl|t1 t t2 Hnd Hp Hf]; cbn; try constructor.
  - destruct (tagged_array_proper _ _ Hl) as [[tg1 r1] [tg2 r2] [Ht Hr]|]; cbn in *; [|constructor].
    rewrite (de_String_proper _ _ Ht). destruct (de_String tg2); by constructor.
  - assert (He : entries_eqv t1 t2) by (split; [done|by exists t]).
    rewrite (field_proper de_String "type" _ _ _ He).
    destruct (field de_String "type" t2); cbn; constructor. split; [done|].
    destruct (entries_eqv_filter _ _ He) as (Hnd' & t' & Hp' & Hf'). by eapply eqv_table.
Qed.

(** Two values that a struct is read from: the same fields, decoded alike. *)
Ltac same_fields :=
  let v1 := fresh in let v2 := fresh in let Hv := fresh in let Ht := fresh "Ht" in
  intros v1 v2 Hv; cbn [snd];
  match goal with |- de_struct ?names _ ≫= _ = _ =>
    destruct (de_struct_proper names v1 v2 Hv) as [? ? Ht|]; [|done] end;
  cbn [mbind option_bind];
  repeat match goal with |- context [field ?de ?k ?t1] =>
    lazymatch type of Ht with entries_eqv t1 _ => rewrite (field_proper de k _ _ _ Ht) end end;
  done.

#[global] Instance de_StepAction_proper : Proper (toml_eqv ==> eq) de_StepAction.
Proof. intros v1 v2 Hv. unfold de_StepAction. by rewrite (de_variant_proper _ _ Hv). Qed.
#[global] Instance de_mode_proper : Proper (toml_eqv ==> eq) de_PressureModeConfig.
Proof. intros v1 v2 Hv. unfold de_PressureModeConfig. by rewrite (de_variant_proper _ _ Hv). Qed.
#[global] Instance de_ScenarioStep_proper : Proper (toml_eqv ==> eq) de_ScenarioStep.
Proof. unfold de_ScenarioStep. same_fields. Qed.

Lemma variants_proper : Forall (λ nd, Proper (toml_eqv ==> eq) nd.2) injector_variants.
Proof. unfold injector_variants. repeat (apply Forall_cons; split; [same_fields|]). constructor. Qed.

#[global] Instance de_InjectorConfig_proper : Proper (toml_eqv ==> eq) de_InjectorConfig.
Proof.
  intros v1 v2 Hv. unfold de_InjectorConfig.
  destruct (de_tagged_respects v1 v2 Hv) as [[tag r1] [? r2] [Htag Hr]|]; [|done].
  cbn [fst snd mbind option_bind] in Htag, Hr |- *. subst. match goal with |- context [list_find ?P ?l] => destruct (list_find P l) as [[n nd]|] eqn:Ef end; [|done].
  cbn. apply list_find_Some in Ef as (Hn & _). by apply (proj1 (Forall_lookup _ _) variants_proper n nd Hn).
Qed.

(** Documents that differ only in the order of their keys, at any depth, decode alike. *)
#[global] Instance de_Config_proper : Proper (toml_eqv ==> eq) de_Config.
Proof. unfold de_Config. same_fields. Qed.

End order.

(* ------------------------------------------------------------------ *)
(** * Witnesses *)

(** Arrays and tables in unusual places are refused. *)
#[global] Instance plain_forms : SerdeForms := {|
  fields_of_array _ _ := None; tagged_array _ := None; variant_of_table _ := None
|}.
#[global] Instance plain_forms_laws : SerdeFormsLaws.
Proof. by split. Qed.
#[global] Instance plain_forms_proper : SerdeFormsProper.
Proof. split; [intros names ? ? ?; constructor|intros ? ? ?; constructor|by intros ? ? ?]. Qed.


Definition written_config : Config := {|
  cfg_name := "all"; cfg_seed := 2 ^ 63 - 1;
  cfg_injectors := {[ "loss" := XdpPacketLoss "lo" (2 ^ 32 - 1);
                      "cut" := XdpPartition "eth0" (V4 [x0a; x00; x00; x01]) 5000;
                      "cut6" := XdpPartition "eth0" (V6 (replicate 15 x00 ++ [x01])) 0;
                      "mem" := CgroupMemoryPressure 1 0 SoftConfig;
                      "skew" := TimeSkew ["date"] (-5) 5 ]};
  cfg_schedule := [{| at_ns := 0; fault_id := "loss"; action := Arm |}]
|}%string.

Lemma written_config_typed : config_typed written_config.
Proof.
  split; [by repeat split|]. split; [|by repeat constructor].
  apply (bool_decide_unpack (map_Forall _ _)). vm_compute. exact I.
Qed.

(** A seed of 2^63 is a [u64] but cannot come out of a file. *)
Lemma file_expresses_exactly_typed_configs_witness :
  (∃ v, toml_wf v ∧ de_Config v = Some written_config) ∧
  ¬ ∃ v, toml_wf v ∧ de_Config v = Some {| cfg_name := "big"; cfg_seed := 2 ^ 63; cfg_injectors := ∅; cfg_schedule := [] |}.
Proof.
  split.
  - apply file_expresses_exactly_typed_configs. exact written_config_typed.
  - intros Hv. apply file_expresses_exactly_typed_configs in Hv. destruct Hv as ([_ Hs] & _).
    cbn [cfg_seed] in Hs. lia.
Defined.

Lemma config_round_trip_witness :
  config_typed written_config ∧ de_Config (enc_Config written_config) = Some written_config.
Proof. split; [exact written_config_typed|]. apply config_round_trip. exact written_config_typed. Defined.
