(* ===== verification/ConfigLoad.v ===== *)
(** From the text of a scenario file to the injectors: [load_config] with the toml crate
    as an interface, the unit tests of config.rs, and the example files of the
    repository.  The interface is met by a reader of the part of TOML those use. *)

From Stdlib Require Import Strings.Byte.
From S2P Require Import Prelude RustStd Core Schedule Scheduler Trace Runner.
From S2P Require Import FixAdapter FixInjector Effect Bpf Xdp KernelFaults CgroupMem TimeSkew.
From S2P Require Import NetAddr Cli ConfigFile.

(* ------------------------------------------------------------------ *)
(** * The toml crate *)

(** [toml::from_str::<Config>]: the text is read into a document, and the document is
    decoded by the derived code.  What an error says is the crate's. *)
Class TomlCrate `{SerdeForms} (toml_from_str : list byte → result string Config) := {
  toml_parse : list byte → option (list (string * toml));
  toml_parse_wf : ∀ text t, toml_parse text = Some t → toml_wf (TTable t);
  toml_from_str_decodes : ∀ text c,
    toml_from_str text = Ok c ↔ ∃ t, toml_parse text = Some t ∧ de_Config (TTable t) = Some c
}.

(** The fields of an injector are in the range of their Rust types. *)
Definition any_typed {B} (i : AnyInjector B) : Prop :=
  match i with
  | IPacketLoss i => pl_typed i
  | ICorruption i => cr_typed i
  | IPartition i => pt_typed i
  | ICgroup i => u32? (cg_pid i) ∧ u64? (cg_limit_bytes i)
  | ITimeSkew i => i64_typed (ts_monotonic_offset_secs i) ∧ i64_typed (ts_boottime_offset_secs i)
  | IFix i => match proxy_adapter (proxy i) with
              | RateLimitThrottle a => u64? (threshold a) ∧ u64? (count a)
              | _ => True
              end
  end.

Lemma build_injector_typed {B} id c : injector_typed c → any_typed (build_injector (B := B) id c).
Proof.
  unfold injector_typed, fits. intros Hc.
  destruct c as [| | |? ? []| | | | |]; cbn in *; unfold pl_typed, cr_typed, pt_typed; cbn;
    unfold in_width; intuition lia.
Qed.

Section load.
Context {W B : Type} `{AyaApi W B} `{FsApi W} `{TcpApi W} `{ProcApi W} `{FileApi W}.
Context `{SerdeFormsLaws} (toml_from_str : list byte → result string Config) `{!TomlCrate toml_from_str}.

Lemma load_config_decodes p (w : W) cfg w' :
  load_config toml_from_str p w = (Alive cfg, w') →
  (∃ text t, fs_read p w = (Ok text, w') ∧ utf8_valid text = true ∧
     toml_parse text = Some t ∧ de_Config (TTable t) = Some cfg) ∧
  config_typed cfg.
Proof.
  unfold load_config, read_to_string. destruct (fs_read p w) as [[text|e] w1] eqn:Er; [|done].
  destruct (utf8_valid text) eqn:Eu; [|done]. destruct (toml_from_str text) as [c|e] eqn:Et; [|done].
  intros [= -> ->]. apply toml_from_str_decodes in Et as (t & Hp & Hd).
  split; [by exists text, t|]. eapply de_config_typed; [by eapply toml_parse_wf|exact Hd].
Qed.

(** C18: a scenario file that loads was read, is UTF-8 and a TOML document, and that document
    decodes to the configuration; every injector of the registry built
    from it then carries its key of the file as its id, starts disarmed, and has its
    fields in the range of their Rust types, as the kernel maps and the wire need them. *)
Theorem loaded_registry_is_typed p (w : W) cfg w' :
  load_config toml_from_str p w = (Alive cfg, w') →
  (∃ text t, fs_read p w = (Ok text, w') ∧ utf8_valid text = true ∧
     toml_parse text = Some t ∧ de_Config (TTable t) = Some cfg) ∧
  (∀ id ic, cfg_injectors cfg !! id = Some ic → registry_of (B := B) cfg !! id = Some (build_injector id ic)) ∧
  ∀ id i, registry_of (B := B) cfg !! id = Some i →
    fi_id (W := W) i = id ∧ fi_is_armed (W := W) i = false ∧ any_typed i.
Proof.
  intros ([text Htext] & _ & Hi & _)%load_config_decodes. split; [by exists text|]. split.
  - intros id ic Hic. unfold registry_of. cbn. by rewrite map_lookup_imap, Hic.
  - intros id i (ic & Hic & ->)%registry_of_lookup. destruct (build_injector_fresh (W := W) (B := B) id ic) as [? ?].
    split_and!; [done..|]. apply build_injector_typed, (Hi id ic Hic).
Qed.

End load.

(* ------------------------------------------------------------------ *)
(** * A reader for the fragment in use *)

Fixpoint toml_wfb (v : toml) : bool :=
  match v with
  | TInteger z => (- 2 ^ 63 <=? z) && (z <? 2 ^ 63)
  | TArray l => forallb toml_wfb l
  | TTable t => bool_decide (NoDup t.*1) && forallb (λ kv, toml_wfb kv.2) t
  | _ => true
  end.

Lemma toml_wfb_sound v : toml_wfb v = true → toml_wf v.
Proof.
  induction v as [| | | | |l IH|t IH] using toml_ind; try done.
  - cbn. lia.
  - intros Hl. apply toml_wf_array. cbn in Hl. induction IH as [|x l Hx _ IH]; [constructor|].
    apply andb_true_iff in Hl as [? ?]. constructor; auto.
  - intros [Hn Ht]%andb_true_iff. apply bool_decide_eq_true in Hn. apply toml_wf_table. split; [done|].
    clear Hn. induction IH as [|x t Hx _ IH]; [constructor|].
    apply andb_true_iff in Ht as [? ?]. constructor; [by apply Hx|auto].
Qed.

Definition dquote : byte := x22.
Definition trim_spaces (l : list byte) : list byte :=
  let drop_spaces := fix go l := match l with x20 :: r => go r | _ => l end in
  reverse (drop_spaces (reverse (drop_spaces l))).

Definition read_scalar (l : list byte) : option toml :=
  match trim_spaces l with
  | x22 :: r =>
      n ← position dquote r;
      if decide (S n = length r) then Some (TString (String.string_of_list_byte (take n r))) else None
  | x2d :: r => match parse_uint 64 r with Ok n => Some (TInteger (- n)) | Err _ => None end
  | r => match parse_uint 64 r with Ok n => Some (TInteger n) | Err _ => None end
  end.
Definition read_value (l : list byte) : option toml :=
  match trim_spaces l with
  | x5b :: r =>
      match reverse r with
      | x5d :: r' => TArray <$> mapM read_scalar (split_on x2c (reverse r'))
      | _ => None
      end
  | _ => read_scalar l
  end.

(** Put an entry in the table at a path; a path that ends in an array of tables means its
    last table.  [None] for a key that is taken. *)
Fixpoint insert_at (path : list string) (upd : list (string * toml) → option (list (string * toml)))
    (t : list (string * toml)) : option (list (string * toml)) :=
  match path with
  | [] => upd t
  | k :: ks =>
      match key k t with
      | None => sub ← insert_at ks upd []; Some (t ++ [(k, TTable sub)])
      | Some (TTable sub) =>
          sub' ← insert_at ks upd sub;
          Some ((λ kv, if decide (kv.1 = k) then (k, TTable sub') else kv) <$> t)
      | Some (TArray l) =>
          match reverse l with
          | TTable sub :: l' =>
              sub' ← insert_at ks upd sub;
              Some ((λ kv, if decide (kv.1 = k) then (k, TArray (reverse (TTable sub' :: l'))) else kv) <$> t)
          | _ => None
          end
      | Some _ => None
      end
  end.

Definition new_key (k : string) (v : toml) (t : list (string * toml)) : option (list (string * toml)) :=
  match key k t with None => Some (t ++ [(k, v)]) | Some _ => None end.
Definition new_element (k : string) (t : list (string * toml)) : option (list (string * toml)) :=
  match key k t with
  | None => Some (t ++ [(k, TArray [TTable []])])
  | Some (TArray l) => Some ((λ kv, if decide (kv.1 = k) then (k, TArray (l ++ [TTable []])) else kv) <$> t)
  | Some _ => None
  end.

Definition names (l : list byte) : list string := String.string_of_list_byte <$> split_on x2e l.

(** A line: blank, [[[name]]], [[a.b]] or [key = value]; the state is the document and the
    current table's path. *)
Definition read_line (l : list byte) (st : list (string * toml) * list string)
  : option (list (string * toml) * list string) :=
  let '(t, path) := st in
  match trim_spaces l with
  | [] => Some st
  | x5b :: x5b :: r =>
      match names (take (length r - 2) r) with
      | [k] => t' ← new_element k t; Some (t', [k])
      | _ => None
      end
  | x5b :: r =>
      let p := names (take (length r - 1) r) in
      t' ← insert_at p Some t; Some (t', p)
  | l' =>
      n ← position x3d l';
      v ← read_value (drop (S n) l');
      t' ← insert_at path (new_key (String.string_of_list_byte (trim_spaces (take n l'))) v) t;
      Some (t', path)
  end.

Definition read_toml (text : list byte) : option (list (string * toml)) :=
  st ← foldl (λ st l, st ≫= read_line l) (Some ([], [])) (split_on x0a text);
  if toml_wfb (TTable st.1) then Some st.1 else None.

Definition plain_from_str (text : list byte) : result string Config :=
  match read_toml text with
  | None => Err "TOML parse error"
  | Some t => match de_Config (TTable t) with Some c => Ok c | None => Err "TOML decode error" end
  end.
#[global, refine] Instance plain_toml : TomlCrate plain_from_str := {| toml_parse := read_toml |}.
Proof.
  - intros text t (st & _ & Ht)%bind_Some. destruct (toml_wfb _) eqn:E; [|done]. injection Ht as <-.
    by apply toml_wfb_sound.
  - intros text c. unfold plain_from_str. destruct (read_toml text) as [t|]; [|split; [done|by intros (? & ? & _)]].
    split.
    + destruct (de_Config _) eqn:E; [|done]. intros [= ->]. by exists t.
    + intros (? & [= <-] & ->). done.
Qed.

(* ------------------------------------------------------------------ *)
(** * The unit tests of config.rs *)

Definition expect {A} (why : string) (o : option A) : exec A :=
  match o with Some a => Done a | None => Panic why end.
Definition check (b : bool) : exec unit := if b then Done tt else Panic "assertion failed".

(** Text with ['] for the double quote and [|] for the end of a line. *)
Definition quoted (s : string) : list byte :=
  (λ b, if decide (b = x27) then x22 else if decide (b = x7c) then x0a else b) <$> bytes s.

Section tests.
Variable parse_document : list byte → option (list (string * toml)).

(** [struct Wrapper { injector: InjectorConfig }] *)
Definition parse_one (toml_body : list byte) : exec InjectorConfig :=
  let wrapped := bytes "[injector]" ++ [x0a] ++ toml_body in
  expect "parse injector config"
    (t ← parse_document wrapped;
     w ← de_struct ["injector"%string] (TTable t);
     field de_InjectorConfig "injector" w).

Definition parses_every_injector_variant : exec unit :=
  c ← parse_one (quoted "type = 'xdp_packet_loss'|iface = 'eth0'|drop_every_n = 5");
  _ ← check (match c with XdpPacketLoss _ _ => true | _ => false end);
  c ← parse_one (quoted "type = 'xdp_corruption'|iface = 'eth0'|corrupt_every_n = 5|offset = 60|mask = 255");
  _ ← check (match c with XdpCorruption _ _ _ _ => true | _ => false end);
  c ← parse_one (quoted "type = 'xdp_partition'|iface = 'eth0'|src_ip = '10.0.0.1'|src_port = 4000");
  _ ← check (match c with XdpPartition _ _ _ => true | _ => false end);
  c ← parse_one (quoted "type = 'cgroup_memory_pressure'|pid = 1234|limit_bytes = 8388608|mode = 'hard'");
  _ ← check (match c with CgroupMemoryPressure _ _ _ => true | _ => false end);
  c ← parse_one (quoted "type = 'time_skew'|argv = ['sleep', '100']|monotonic_offset_secs = 1000|boottime_offset_secs = 1000");
  _ ← check (match c with TimeSkew _ _ _ => true | _ => false end);
  c ← parse_one (quoted "type = 'fix_silent_reject'|listen_addr = '127.0.0.1:9001'|upstream_addr = '127.0.0.1:9002'");
  _ ← check (match c with FixSilentRejectConfig _ _ => true | _ => false end);
  c ← parse_one (quoted "type = 'fix_ack_without_execution'|listen_addr = '127.0.0.1:9001'|upstream_addr = '127.0.0.1:9002'");
  _ ← check (match c with FixAckWithoutExecutionConfig _ _ => true | _ => false end);
  c ← parse_one (quoted "type = 'fix_rate_limit_throttle'|listen_addr = '127.0.0.1:9001'|upstream_addr = '127.0.0.1:9002'|threshold = 3");
  _ ← check (match c with FixRateLimitThrottleConfig _ _ _ => true | _ => false end);
  c ← parse_one (quoted "type = 'fix_execution_report_price_mutation'|listen_addr = '127.0.0.1:9001'|upstream_addr = '127.0.0.1:9002'|mutated_price = '1.00'");
  check (match c with FixExecutionReportPriceMutationConfig _ _ _ => true | _ => false end).

Definition full_config_text : list byte := quoted
  "|name = 'demo'|seed = 42||[injectors.throttle]|type = 'fix_rate_limit_throttle'|listen_addr = '127.0.0.1:19100'|upstream_addr = '127.0.0.1:19101'|threshold = 3||[[schedule]]|at_ns = 0|fault_id = 'throttle'|action = 'arm'||[[schedule]]|at_ns = 5000000000|fault_id = 'throttle'|action = 'disarm'|".

Definition parses_a_full_scenario_config_with_lowercase_actions : exec unit :=
  config ← expect "parse full config" (t ← parse_document full_config_text; de_Config (TTable t));
  _ ← check (bool_decide (cfg_name config = "demo"%string));
  _ ← check (length (cfg_schedule config) =? 2)%nat;
  check (bool_decide (is_Some (cfg_injectors config !! "throttle"%string))).

End tests.

Lemma config_tests_pass :
  parses_every_injector_variant read_toml = Done tt ∧
  parses_a_full_scenario_config_with_lowercase_actions read_toml = Done tt.
Proof. split; vm_compute; reflexivity. Qed.

(* ------------------------------------------------------------------ *)
(** * The example files *)

(** examples/fix-rate-limit-throttle.toml and examples/xdp_packet_loss.toml. *)
Definition throttle_toml : list byte := quoted
  "name = 'fix-rate-limit-demo'|seed = 42||[injectors.throttle]|type = 'fix_rate_limit_throttle'|listen_addr = '127.0.0.1:19100'|upstream_addr = '127.0.0.1:19101'|threshold = 3||[[schedule]]|at_ns = 0|fault_id = 'throttle'|action = 'arm'||[[schedule]]|at_ns = 5000000000|fault_id = 'throttle'|action = 'disarm'|".
Definition pktloss_toml : list byte := quoted
  "name = 'xdp-packet-loss-demo'|seed = 7||[injectors.pktloss]|type = 'xdp_packet_loss'|iface = 'lo'|drop_every_n = 3||[[schedule]]|at_ns = 0|fault_id = 'pktloss'|action = 'arm'||[[schedule]]|at_ns = 3000000000|fault_id = 'pktloss'|action = 'disarm'|".

Definition throttle_config : Config := {|
  cfg_name := "fix-rate-limit-demo"; cfg_seed := 42;
  cfg_injectors := {[ "throttle" := FixRateLimitThrottleConfig "127.0.0.1:19100" "127.0.0.1:19101" 3 ]};
  cfg_schedule := [{| at_ns := 0; fault_id := "throttle"; action := Arm |};
                   {| at_ns := 5000000000; fault_id := "throttle"; action := Disarm |}]
|}%string.
Definition pktloss_config : Config := {|
  cfg_name := "xdp-packet-loss-demo"; cfg_seed := 7;
  cfg_injectors := {[ "pktloss" := XdpPacketLoss "lo" 3 ]};
  cfg_schedule := [{| at_ns := 0; fault_id := "pktloss"; action := Arm |};
                   {| at_ns := 3000000000; fault_id := "pktloss"; action := Disarm |}]
|}%string.

Lemma examples_decode :
  plain_from_str throttle_toml = Ok throttle_config ∧ plain_from_str pktloss_toml = Ok pktloss_config.
Proof. split; vm_compute; reflexivity. Qed.

(** The registry of the example: one throttle under its key. *)
Lemma loaded_registry_is_typed_witness :
  let w := {| bx_kernel := fresh_kernel []; bx_machine := v2_machine; bx_net := 0; bx_os := toy_start true;
              bx_files := {[ "t.toml"%string := throttle_toml ]} |} in
  load_config plain_from_str "t.toml" w = (Alive throttle_config, w) ∧
  any_typed (build_injector (B := unit) "throttle" (FixRateLimitThrottleConfig "127.0.0.1:19100" "127.0.0.1:19101" 3)).
Proof.
  intros w. assert (Hl : load_config plain_from_str "t.toml" w = (Alive throttle_config, w)).
  { vm_compute. reflexivity. }
  split; [exact Hl|].
  destruct (loaded_registry_is_typed (W := box) (B := unit) plain_from_str "t.toml" w throttle_config w Hl)
    as (_ & Hreg & Hty).
  apply (Hty "throttle"%string). apply Hreg. vm_compute. reflexivity.
Defined.
