(* ===== verification/BuildScript.v ===== *)
(** crates/kernel/build.rs: the build script that compiles the C programs.  Environment,
    directory listing and the two external commands are a parameter, [BuildApi]; a panic
    of the script is a panic of [exec], and what ran before it stays done. *)

From Stdlib Require Import Strings.Byte.
From S2P Require Import Prelude RustStd Core.

(* ------------------------------------------------------------------ *)
(** * Standard library: lossy UTF-8, trim, paths *)

(** The well-formed sequence at the front of a byte string, or the length of the
    ill-formed one to replace. *)
Inductive utf8_front := Good (n : nat) | Bad (n : nat).

Definition utf8_second (b0 b1 : byte) : bool :=
  if byte_val b0 =? 224 then in_range 160 191 b1
  else if byte_val b0 =? 237 then in_range 128 159 b1
  else if byte_val b0 =? 240 then in_range 144 191 b1
  else if byte_val b0 =? 244 then in_range 128 143 b1
  else in_range 128 191 b1.

Definition utf8_decode_front (b0 : byte) (l : list byte) : utf8_front :=
  let cont k := match l !! k with Some b => in_range 128 191 b | None => false end in
  let second := match l !! 0%nat with Some b => utf8_second b0 b | None => false end in
  if byte_val b0 <? 128 then Good 1
  else if in_range 194 223 b0 then if second then Good 2 else Bad 1
  else if in_range 224 239 b0 then
    if second then if cont 1%nat then Good 3 else Bad 2 else Bad 1
  else if in_range 240 244 b0 then
    if second then if cont 1%nat then if cont 2%nat then Good 4 else Bad 3 else Bad 2 else Bad 1
  else Bad 1.

Definition replacement : list byte := [xef; xbf; xbd].

(** [String::from_utf8_lossy]. *)
Fixpoint lossy_loop (fuel : nat) (l : list byte) : list byte :=
  match fuel, l with
  | S f, b0 :: r =>
      match utf8_decode_front b0 r with
      | Good n => take n l ++ lossy_loop f (drop n l)
      | Bad n => replacement ++ lossy_loop f (drop n l)
      end
  | _, _ => []
  end.
Definition from_utf8_lossy (l : list byte) : list byte := lossy_loop (length l) l.

(** The characters [char::is_whitespace] accepts, encoded. *)
Definition whitespace : list (list byte) :=
  [[x09]; [x0a]; [x0b]; [x0c]; [x0d]; [x20]; [xc2; x85]; [xc2; xa0]; [xe1; x9a; x80];
   [xe2; x80; x80]; [xe2; x80; x81]; [xe2; x80; x82]; [xe2; x80; x83]; [xe2; x80; x84];
   [xe2; x80; x85]; [xe2; x80; x86]; [xe2; x80; x87]; [xe2; x80; x88]; [xe2; x80; x89];
   [xe2; x80; x8a]; [xe2; x80; xa8]; [xe2; x80; xa9]; [xe2; x80; xaf]; [xe2; x81; x9f]; [xe3; x80; x80]].

Fixpoint strip (fuel : nat) (ws : list (list byte)) (l : list byte) : list byte :=
  match fuel with
  | O => l
  | S f =>
      match list_find (λ p, starts_with p l = true) ws with
      | Some (_, p) => strip f ws (drop (length p) l)
      | None => l
      end
  end.
(** [str::trim]: at the end the encodings are met backwards. *)
Definition trim (l : list byte) : list byte :=
  let l' := strip (length l) whitespace l in
  reverse (strip (length l') (reverse <$> whitespace) (reverse l')).

(** [Path::file_stem] and [Path::extension] of a file name: split at the last dot, unless
    there is none or it is the first character. *)
Definition split_file_name (name : list byte) : list byte * option (list byte) :=
  match position x2e (reverse name) with
  | None => (name, None)
  | Some k =>
      let cut := (length name - S k)%nat in
      match cut with
      | O => (name, None)
      | _ => (take cut name, Some (drop (S cut) name))
      end
  end.

(* ------------------------------------------------------------------ *)
(** * What the script calls *)

(** [run] gives the exit status and stdout of a command, or an error when it cannot be
    started; [list_dir] the entries of a directory, each of which can fail. *)
Class BuildApi (W : Type) := {
  env_var : string → W → option (list byte);
  println : list byte → W → W;
  run : list byte → list (list byte) → W → result io_error (bool * list byte) * W;
  list_dir : list byte → W → result io_error (list (result io_error (list byte))) * W
}.

(* ------------------------------------------------------------------ *)
(** * build.rs *)

Definition target_arch (target : list byte) : list byte := default [] (head (split_on x2d target)).

Definition bpf_arch_define (arch : list byte) : exec (list byte) :=
  if decide (arch = bytes "x86_64") then Done (bytes "__TARGET_ARCH_x86")
  else if decide (arch = bytes "aarch64") then Done (bytes "__TARGET_ARCH_arm64")
  else Panic "unsupported target architecture for eBPF build".

Definition fallback_multiarch (arch : list byte) : exec (list byte) :=
  if decide (arch = bytes "x86_64") then Done (bytes "x86_64-linux-gnu")
  else if decide (arch = bytes "aarch64") then Done (bytes "aarch64-linux-gnu")
  else Panic "dpkg-architecture isn't available and there's no fallback multiarch path".

Definition multiarch_dir (arch : list byte) (dpkg : result io_error (bool * list byte)) : exec (list byte) :=
  match dpkg with
  | Ok (true, stdout) => Done (trim (from_utf8_lossy stdout))
  | _ => fallback_multiarch arch
  end.

Definition is_c_source (name : list byte) : bool := bool_decide ((split_file_name name).2 = Some (bytes "c")).

(** The clang command line for one source. *)
Definition clang_args (out_dir define include_dir name : list byte) : list (list byte) :=
  [bytes "-O2"; bytes "-target"; bytes "bpf"; bytes "-D" ++ define; bytes "-I/usr/include/bpf";
   bytes "-I/usr/include/" ++ include_dir; bytes "-c"; bytes "bpf/" ++ name; bytes "-o";
   out_dir ++ bytes "/" ++ from_utf8_lossy (split_file_name name).1 ++ bytes ".o"].

Section build.
Context {W : Type} `{BuildApi W}.

Fixpoint compile_entries (out_dir define include_dir : list byte)
    (entries : list (result io_error (list byte))) (w : W) : exec unit * W :=
  match entries with
  | [] => (Done tt, w)
  | Err _ :: _ => (Panic "readdir entry", w)
  | Ok name :: entries' =>
      if negb (is_c_source name) then compile_entries out_dir define include_dir entries' w
      else
        match run (bytes "clang") (clang_args out_dir define include_dir name) w with
        | (Err _, w1) => (Panic "failed to invoke clang, is it installed?", w1)
        | (Ok (false, _), w1) => (Panic "clang failed to compile", w1)
        | (Ok (true, _), w1) => compile_entries out_dir define include_dir entries' w1
        end
  end.

Definition build_main (w0 : W) : exec unit * W :=
  let w := println (bytes "cargo:rerun-if-changed=bpf") w0 in
  match env_var "OUT_DIR" w with
  | None => (Panic "OUT_DIR not set by cargo", w)
  | Some out_dir =>
      match env_var "TARGET" w with
      | None => (Panic "TARGET not set by cargo", w)
      | Some target =>
          let arch := target_arch target in
          match bpf_arch_define arch with
          | Panic why => (Panic why, w)
          | Done define =>
              let '(dpkg, w1) := run (bytes "dpkg-architecture") [bytes "-qDEB_HOST_MULTIARCH"] w in
              match multiarch_dir arch dpkg with
              | Panic why => (Panic why, w1)
              | Done dir =>
                  match list_dir (bytes "bpf") w1 with
                  | (Err _, w2) => (Panic "bpf/ directory missing", w2)
                  | (Ok entries, w2) => compile_entries out_dir define dir entries w2
                  end
              end
          end
      end
  end.

End build.

(* ------------------------------------------------------------------ *)
(** * Lemmas *)

(** Every architecture that gets past the first match is covered by the second. *)
Lemma fallback_covers arch define :
  bpf_arch_define arch = Done define → ∃ dir, fallback_multiarch arch = Done dir.
Proof. unfold bpf_arch_define, fallback_multiarch. repeat case_decide; (done || intros _; by eexists). Qed.

Lemma multiarch_dir_total arch define dpkg :
  bpf_arch_define arch = Done define → ∃ dir, multiarch_dir arch dpkg = Done dir.
Proof.
  intros Ha. unfold multiarch_dir. destruct dpkg as [[[] out]|]; [by eexists|by eapply fallback_covers..].
Qed.

Lemma lossy_loop_ascii f l : (length l ≤ f)%nat → Forall is_ascii l → lossy_loop f l = l.
Proof.
  revert l. induction f as [|f IH]; intros l Hf Hl; [by destruct l; simpl in Hf; [|lia]|].
  destruct Hl as [|b l Hb Hl]; [done|]. cbn [lossy_loop]. unfold utf8_decode_front.
  rewrite (proj2 (Z.ltb_lt _ _)) by done. cbn. f_equal. apply IH; [simpl in Hf; lia|done].
Qed.

Lemma from_utf8_lossy_ascii l : Forall is_ascii l → from_utf8_lossy l = l.
Proof. by apply lossy_loop_ascii. Qed.

Lemma split_c_source stem : stem ≠ [] → split_file_name (stem ++ bytes ".c") = (stem, Some (bytes "c")).
Proof.
  intros Hs. unfold split_file_name. rewrite reverse_app. change (reverse (bytes ".c")) with [x63; x2e].
  change (position x2e ([x63; x2e] ++ reverse stem)) with (Some 1%nat). cbv beta iota zeta.
  rewrite length_app. change (length (bytes ".c")) with 2%nat.
  replace (length stem + 2 - 2)%nat with (length stem) by lia.
  destruct (length stem) as [|k] eqn:El; [by destruct stem|]. cbv iota beta zeta. rewrite <- El.
  rewrite take_app_length, drop_app_ge by lia.
  by replace (S (length stem) - length stem)%nat with 1%nat by lia.
Qed.

(** A file name has the extension [c] when it is a non-empty stem and [.c]. *)
Lemma c_source_iff name : is_c_source name = true ↔ ∃ stem, stem ≠ [] ∧ name = stem ++ bytes ".c".
Proof.
  unfold is_c_source. rewrite bool_decide_eq_true. split.
  2:{ intros (stem & Hs & ->). by rewrite split_c_source. }
  unfold split_file_name. destruct (position x2e (reverse name)) as [k|] eqn:Ep; [|done].
  pose proof (position_lt _ _ _ Ep) as Hk. rewrite length_reverse in Hk.
  apply position_Some in Ep as [Ep _]. rewrite reverse_lookup_Some in Ep. destruct Ep as [Ep _].
  destruct (length name - S k)%nat as [|cut] eqn:Ec; [done|]. cbn [snd]. intros [= Hd].
  exists (take (S cut) name). split; [destruct name; [simpl in Hk; lia|done]|].
  rewrite <- (take_drop (S cut) name) at 1. f_equal. rewrite (drop_S _ x2e); [by rewrite Hd|done].
Qed.

Lemma target_arch_iff arch target :
  x2d ∉ arch → target_arch target = arch ↔ target = arch ∨ ∃ rest, target = arch ++ bytes "-" ++ rest.
Proof.
  intros Ha. unfold target_arch. split.
  2:{ intros [->|[rest ->]]; [by rewrite split_on_single|]. change (bytes "-") with [x2d]. cbn [app].
      by rewrite split_on_fresh. }
  destruct (position x2d target) as [k|] eqn:Ep.
  - apply position_Some in Ep as [Hk Hn]. pose proof (take_drop_middle _ _ _ Hk) as Ht. rewrite <- Ht at 1.
    rewrite split_on_fresh by done. cbn. intros <-. right. by exists (drop (S k) target).
  - apply position_None in Ep. rewrite split_on_single by done. cbn. by left.
Qed.

(* ------------------------------------------------------------------ *)
(** * What a build does *)

(** The architectures the crate supports, with the macro that libbpf's headers want and the
    GNU name of the include directory. *)
Definition supported : list (list byte * list byte * list byte) :=
  [(bytes "x86_64", bytes "__TARGET_ARCH_x86", bytes "x86_64-linux-gnu");
   (bytes "aarch64", bytes "__TARGET_ARCH_arm64", bytes "aarch64-linux-gnu")].

(** The files of the directory taken in order: clang ran on each [<stem>.c], with success,
    and on nothing else. *)
Inductive compiled {W} `{BuildApi W} (out_dir define dir : list byte) : list (list byte) → W → W → Prop :=
| CompiledAll w : compiled out_dir define dir [] w w
| CompiledSkip name names w w' :
    (¬ ∃ stem, stem ≠ [] ∧ name = stem ++ bytes ".c") →
    compiled out_dir define dir names w w' → compiled out_dir define dir (name :: names) w w'
| CompiledSource stem names stdout w w1 w' :
    stem ≠ [] →
    run (bytes "clang")
      [bytes "-O2"; bytes "-target"; bytes "bpf"; bytes "-D" ++ define; bytes "-I/usr/include/bpf";
       bytes "-I/usr/include/" ++ dir; bytes "-c"; bytes "bpf/" ++ stem ++ bytes ".c";
       bytes "-o"; out_dir ++ bytes "/" ++ from_utf8_lossy stem ++ bytes ".o"] w = (Ok (true, stdout), w1) →
    compiled out_dir define dir names w1 w' → compiled out_dir define dir ((stem ++ bytes ".c") :: names) w w'.

Lemma compile_entries_spec {W} `{BuildApi W} out_dir define dir entries (w w' : W) :
  compile_entries out_dir define dir entries w = (Done tt, w') ↔
  ∃ names, entries = Ok <$> names ∧ compiled out_dir define dir names w w'.
Proof.
  split.
  - revert w. induction entries as [|[name|e] entries IH]; intros w; cbn [compile_entries]; [| |done].
    { intros [= ->]. exists []. split; [done|constructor]. }
    destruct (is_c_source name) eqn:Ec; cbn [negb].
    + apply c_source_iff in Ec as (stem & Hs & ->).
      destruct (run (bytes "clang") _ w) as [[[[] o]|e] w1] eqn:Er; [|done..].
      intros (names & -> & Hc)%IH. exists ((stem ++ bytes ".c") :: names). split; [done|].
      unfold clang_args in Er. rewrite split_c_source in Er by done. by econstructor.
    + intros (names & -> & Hc)%IH. exists (name :: names). split; [done|]. constructor; [|done].
      rewrite <- c_source_iff, Ec. done.
  - intros (names & -> & Hc). induction Hc as [w|name names w w' Hn _ IH|stem names o w w1 w' Hs Hr _ IH];
      cbn [fmap list_fmap compile_entries]; [done| |].
    + rewrite <- c_source_iff in Hn. by destruct (is_c_source name).
    + rewrite (proj2 (c_source_iff _)) by by exists stem. cbn [negb]. unfold clang_args.
      rewrite split_c_source by done. cbn [fst]. by rewrite Hr.
Qed.

(** What the two matches on the architecture say together. *)
Lemma supported_iff arch define dpkg dir :
  bpf_arch_define arch = Done define ∧ multiarch_dir arch dpkg = Done dir ↔
  ∃ gnu, (arch, define, gnu) ∈ supported ∧
    dir = match dpkg with Ok (true, stdout) => trim (from_utf8_lossy stdout) | _ => gnu end.
Proof.
  unfold bpf_arch_define, multiarch_dir, fallback_multiarch, supported.
  repeat setoid_rewrite elem_of_cons. setoid_rewrite elem_of_nil.
  destruct dpkg as [[[] ?]|]; repeat case_decide; naive_solver.
Qed.

Lemma supported_no_dash arch define gnu : (arch, define, gnu) ∈ supported → x2d ∉ arch.
Proof.
  unfold supported. rewrite !elem_of_cons, elem_of_nil.
  intros [[= -> _ _]|[[= -> _ _]|[]]]; apply (bool_decide_unpack _); by vm_compute.
Qed.

(* ------------------------------------------------------------------ *)
(** * Properties *)

(** C39: the build succeeds exactly when cargo set both variables, the target is x86_64 or
    aarch64, alone or followed by a dash, the [bpf] directory could be listed in full, and
    clang, given the macro of that architecture and the include directory that
    dpkg-architecture printed or, if it did not run well, the architecture's GNU name,
    compiled every [<stem>.c] file of the directory in listing order and nothing else, to
    [OUT_DIR/<stem>.o].  Sources with different ASCII names get different objects. *)
Theorem build_succeeds_iff {W} `{BuildApi W} (w0 w' : W) :
  let w := println (bytes "cargo:rerun-if-changed=bpf") w0 in
  (build_main w0 = (Done tt, w') ↔
   ∃ out_dir target arch define gnu dpkg w1 dir names w2,
     env_var "OUT_DIR" w = Some out_dir ∧ env_var "TARGET" w = Some target ∧
     (arch, define, gnu) ∈ supported ∧ (target = arch ∨ ∃ rest, target = arch ++ bytes "-" ++ rest) ∧
     run (bytes "dpkg-architecture") [bytes "-qDEB_HOST_MULTIARCH"] w = (dpkg, w1) ∧
     dir = match dpkg with Ok (true, stdout) => trim (from_utf8_lossy stdout) | _ => gnu end ∧
     list_dir (bytes "bpf") w1 = (Ok (Ok <$> names), w2) ∧ compiled out_dir define dir names w2 w') ∧
  (∀ out_dir s1 s2, Forall is_ascii s1 → Forall is_ascii s2 →
     out_dir ++ bytes "/" ++ from_utf8_lossy s1 ++ bytes ".o" = out_dir ++ bytes "/" ++ from_utf8_lossy s2 ++ bytes ".o" →
     s1 = s2).
Proof.
  intros w. split.
  2:{ intros o s1 s2 H1 H2. rewrite !from_utf8_lossy_ascii by done. by intros ?%app_inv_head%app_inv_head%app_inv_tail. }
  unfold build_main. fold w. split.
  - destruct (env_var "OUT_DIR" w) as [o|]; [|done]. destruct (env_var "TARGET" w) as [t|]; [|done].
    destruct (bpf_arch_define (target_arch t)) as [d|] eqn:Ed; [|done].
    destruct (run (bytes "dpkg-architecture") _ w) as [dpkg w1] eqn:Er.
    destruct (multiarch_dir_total _ _ dpkg Ed) as [dir Hdir]. rewrite Hdir.
    destruct (list_dir (bytes "bpf") w1) as [[entries|e] w2] eqn:El; [|done].
    intros (names & -> & Hr)%compile_entries_spec.
    destruct (proj1 (supported_iff _ _ _ _) (conj Ed Hdir)) as (gnu & Hs & Hd).
    exists o, t, (target_arch t), d, gnu, dpkg, w1, dir, names, w2. split_and!; try done.
    apply target_arch_iff; [by eapply supported_no_dash|done].
  - intros (o & t & arch & d & gnu & dpkg & w1 & dir & names & w2 & -> & -> & Hs & Ht & -> & Hd & Hl & Hc).
    apply target_arch_iff in Ht as ->; [|by eapply supported_no_dash].
    destruct (proj2 (supported_iff arch d dpkg dir)) as [-> ->]; [by exists gnu|]. rewrite Hl.
    apply compile_entries_spec. by exists names.
Qed.

(** On a target that is neither x86_64 nor aarch64 the build panics before any command
    has run, whatever dpkg-architecture would have said. *)
Theorem unsupported_target_runs_nothing {W} `{BuildApi W} (w0 : W) out_dir target :
  let w := println (bytes "cargo:rerun-if-changed=bpf") w0 in
  env_var "OUT_DIR" w = Some out_dir → env_var "TARGET" w = Some target →
  target_arch target ≠ bytes "x86_64" → target_arch target ≠ bytes "aarch64" →
  build_main w0 = (Panic "unsupported target architecture for eBPF build", w).
Proof.
  intros w Ho Ht Hx Ha. unfold build_main. fold w. rewrite Ho, Ht. unfold bpf_arch_define.
  by rewrite !decide_False.
Qed.

(* ------------------------------------------------------------------ *)
(** * Witnesses *)

(** A machine with the crate's directory, no dpkg, and a log of the clang command lines. *)
Record build_box := { bb_target : list byte; bb_ran : list (list (list byte)) }.

Definition kernel_sources : list (list byte) :=
  [bytes "xdp_corrupt.c"; bytes ".keep.c.swp"; bytes "xdp_partition.c"; bytes "xdp_pktloss.c"].

#[global] Instance build_box_api : BuildApi build_box := {|
  env_var n b := if decide (n = "OUT_DIR") then Some (bytes "/out")
                 else if decide (n = "TARGET") then Some (bb_target b) else None;
  println _ b := b;
  run cmd args b := if decide (cmd = bytes "clang")
                    then (Ok (true, []), {| bb_target := bb_target b; bb_ran := bb_ran b ++ [args] |})
                    else (Err {| io_kind := OtherKind; io_text := "No such file or directory" |}, b);
  list_dir _ b := (Ok (Ok <$> kernel_sources), b)
|}.

Definition x86_box : build_box := {| bb_target := bytes "x86_64-unknown-linux-gnu"; bb_ran := [] |}.

Definition x86_clang (stem : string) : list (list byte) :=
  [bytes "-O2"; bytes "-target"; bytes "bpf"; bytes "-D__TARGET_ARCH_x86"; bytes "-I/usr/include/bpf";
   bytes "-I/usr/include/x86_64-linux-gnu"; bytes "-c"; bytes "bpf/" ++ bytes stem ++ bytes ".c";
   bytes "-o"; bytes "/out/" ++ bytes stem ++ bytes ".o"].

Example build_box_run :
  build_main x86_box =
  (Done tt, {| bb_target := bb_target x86_box;
               bb_ran := [x86_clang "xdp_corrupt"; x86_clang "xdp_partition"; x86_clang "xdp_pktloss"] |}).
Proof. vm_compute. reflexivity. Qed.

Lemma unsupported_target_runs_nothing_witness :
  let b := {| bb_target := bytes "riscv64gc-unknown-linux-gnu"; bb_ran := [] |} in
  build_main b = (Panic "unsupported target architecture for eBPF build",
                  println (bytes "cargo:rerun-if-changed=bpf") b).
Proof.
  apply (unsupported_target_runs_nothing {| bb_target := bytes "riscv64gc-unknown-linux-gnu"; bb_ran := [] |}
           (bytes "/out") (bytes "riscv64gc-unknown-linux-gnu")); first [reflexivity | vm_compute; discriminate].
Defined.
