(* ===== verification/UnitTests.v ===== *)
(** The repository's own unit tests (the [#[cfg(test)]] modules), run on the model.  A test
    is a computation that panics where the Rust test would: [assert!] and [unwrap] are
    [assert] and [unwrap] below.  Each test is translated statement by statement and
    evaluated; that they all end in [Done] ties the definitions of this development to
    what the authors checked of the code. *)

From Stdlib Require Import Strings.Byte.
From Stdlib Require Import Floats.SpecFloat.
From S2P Require Import Prelude RustStd Core Rng Schedule Scheduler Trace Runner RunnerFacts.
From S2P Require Import FixMessage FixFraming FixAdapter.

(* ------------------------------------------------------------------ *)
(** * Assertions *)

Definition assert (b : bool) : exec unit := if b then Done tt else Panic "assertion failed".
Definition assert_eq {A} `{EqDecision A} (x y : A) : exec unit := assert (bool_decide (x = y)).
Definition unwrap {E A} (r : result E A) : exec A :=
  match r with Ok a => Done a | Err _ => Panic "called `Result::unwrap()` on an `Err` value" end.
Definition unwrap_err {E A} (r : result E A) : exec E :=
  match r with Err e => Done e | Ok _ => Panic "called `Result::unwrap_err()` on an `Ok` value" end.
Definition unwrap_opt {A} (o : option A) : exec A :=
  expect "called `Option::unwrap()` on a `None` value" o.
Definition is_err {E A} (r : result E A) : bool := negb (is_ok r).

Definition step (t : Z) (id : string) (a : StepAction) : ScenarioStep :=
  {| at_ns := t; fault_id := id; action := a |}.

(* ------------------------------------------------------------------ *)
(** * core/src/clock.rs *)

Definition virtual_clock_only_moves_when_told : exec unit :=
  let clock := VirtualClock_new 1000 in
  _ ← assert_eq (now_ns clock) 1000;
  let clock := VirtualClock_advance clock 500 in
  assert_eq (now_ns clock) 1500.

(* ------------------------------------------------------------------ *)
(** * replay/src/rng.rs *)

Fixpoint same_draws (n : nat) (a b : DeterministicRng) : exec unit :=
  match n with
  | O => Done tt
  | S n' =>
      let '(x, a') := next_u64 a in
      let '(y, b') := next_u64 b in
      _ ← assert_eq x y; same_draws n' a' b'
  end.
Definition same_seed_same_sequence : exec unit := same_draws 1000 (from_seed 42) (from_seed 42).

Definition different_seed_diverges : exec unit :=
  assert (bool_decide ((next_u64 (from_seed 1)).1 ≠ (next_u64 (from_seed 2)).1)).

Definition matches_reference_vector : exec unit :=
  assert_eq (next_u64 (from_seed 1234567)).1 6457827717110365317.

(** [(0.0..1.0).contains(&f)]. *)
Definition in_unit_range (f : f64) : bool := SFleb f64_zero f && SFltb f f64_one.
Fixpoint unit_draws (n : nat) (r : DeterministicRng) : exec unit :=
  match n with
  | O => Done tt
  | S n' => let '(f, r') := next_f64 r in _ ← assert (in_unit_range f); unit_draws n' r'
  end.
Definition next_f64_stays_in_unit_range : exec unit := unit_draws (Z.to_nat 10000) (from_seed 7).

(* ------------------------------------------------------------------ *)
(** * replay/src/schedule.rs *)

Definition scenario_with (steps : list ScenarioStep) : Scenario :=
  {| sc_name := "test"; sc_seed := 1; sc_steps := steps |}.

Definition accepts_well_formed_schedule : exec unit :=
  assert (is_ok (validate (scenario_with [step 0 "pkt-loss" Arm; step 1000 "pkt-loss" Disarm]))).
Definition rejects_out_of_order_steps : exec unit :=
  assert (is_err (validate (scenario_with [step 1000 "pkt-loss" Arm; step 500 "pkt-loss" Disarm]))).
Definition rejects_double_arm : exec unit :=
  assert (is_err (validate (scenario_with [step 0 "pkt-loss" Arm; step 100 "pkt-loss" Arm]))).
Definition rejects_disarm_without_arm : exec unit :=
  assert (is_err (validate (scenario_with [step 0 "pkt-loss" Disarm]))).

(* ------------------------------------------------------------------ *)
(** * replay/src/scheduler.rs *)

Definition two_step_schedule : exec ValidatedSchedule :=
  unwrap (validate (scenario_with [step 1000 "a" Arm; step 5000 "a" Disarm])).

Definition nothing_fires_before_its_time : exec unit :=
  schedule ← two_step_schedule;
  let sched := Scheduler_new schedule 0 in
  let '(due, sched) := Scheduler_advance sched 500 in
  _ ← assert (bool_decide (due = []));
  assert_eq (Scheduler_now_ns sched) 500.

Definition step_fires_once_time_reaches_it : exec unit :=
  schedule ← two_step_schedule;
  let sched := Scheduler_new schedule 0 in
  let '(_, sched) := Scheduler_advance sched 500 in
  let '(due, _) := Scheduler_advance sched 600 in
  _ ← assert_eq (length due) 1%nat;
  s ← unwrap_opt (due !! 0%nat);
  assert_eq (fault_id s) "a".

Definition coalesces_multiple_due_steps_in_one_advance : exec unit :=
  schedule ← two_step_schedule;
  let sched := Scheduler_new schedule 0 in
  let '(due, sched) := Scheduler_advance sched 10000 in
  _ ← assert_eq (length due) 2%nat;
  assert (is_finished sched).

(* ------------------------------------------------------------------ *)
(** * replay/src/trace.rs *)

(** The path of a test's file: [temp_dir] and the counter are the environment's. *)
Definition temp_path (temp_dir name : string) (n : Z) : string :=
  temp_dir +:+ "/blackswan-trace-test-" +:+ name +:+ "-" +:+ to_string n +:+ ".json".

Definition round_trips_through_disk {W} `{FileApi W} (to_string_pretty : Trace → result string (list byte))
    (from_slice : list byte → result string Trace) (path : string) (w : W) : exec unit :=
  let trace := record (Trace_new "smoke-test" 42) (step 0 "pkt-loss" Arm) 1000 in
  let '(r, w) := save to_string_pretty trace path w in
  _ ← unwrap r;
  let '(r, w) := load from_slice path w in
  loaded ← unwrap r;
  _ ← assert_eq (scenario_name trace) (scenario_name loaded);
  assert (matches_schedule trace loaded).

Definition matches_schedule_ignores_wall_time_but_not_seed : exec unit :=
  let a := record (Trace_new "s" 1) (step 0 "x" Arm) 100 in
  let b := record (Trace_new "s" 1) (step 0 "x" Arm) 999999 in
  _ ← assert (matches_schedule a b);
  let c := record (Trace_new "s" 2) (step 0 "x" Arm) 100 in
  assert (negb (matches_schedule a c)).

(* ------------------------------------------------------------------ *)
(** * replay/src/runner.rs *)

Definition ctx : FaultContext := {| ctx_clock := System; ctx_seed := 1 |}.

Definition rejects_schedule_referencing_unknown_fault_id : exec unit :=
  schedule ← unwrap (validate (scenario_with [step 0 "does-not-exist" Arm]));
  assert (is_err (Runner_new (I := CountingInjector) schedule ∅ ctx)).

(** A run that returns within the rounds it is given. *)
Definition returned {A} (x : option (exec A)) : exec A :=
  match x with Some y => y | None => Panic "still running" end.

(** The registry of the tests: one counting injector. *)
Definition one_injector : gmap string CountingInjector := {["pkt-loss"%string := counting "pkt-loss"]}.

Definition arms_and_disarms_registered_injector_at_the_right_times : exec unit :=
  schedule ← unwrap (validate (scenario_with [step 1000 "pkt-loss" Arm; step 5000 "pkt-loss" Disarm]));
  runner ← unwrap (Runner_new schedule one_injector ctx);
  '(res, runner, _) ← returned (run no_effect 10 runner 500 tt);
  trace ← unwrap res;
  i ← unwrap_opt (r_injectors runner !! "pkt-loss"%string);
  _ ← assert_eq (arm_calls i) 1%nat;
  _ ← assert_eq (disarm_calls i) 1%nat;
  assert_eq (length (events trace)) 2%nat.

(** The world is the clock [Instant::now] reads: a sleep of [n] advances it by [n]. *)
Definition alternating_steps : list ScenarioStep :=
  (λ i, step (Z.of_nat i * 5000000) "pkt-loss" (if (i mod 2 =? 0)%nat then Arm else Disarm)) <$> seq 0 20.

Definition run_realtime_actually_takes_real_time_unlike_run : exec unit :=
  schedule ← unwrap (validate (scenario_with alternating_steps));
  runner ← unwrap (Runner_new schedule one_injector ctx);
  let started := 0 in
  '(res, _, now) ← returned (@run_realtime Z CountingInjector counting_timed Z.add 100 runner 5000000 started);
  _ ← unwrap res;
  let elapsed := now - started in
  assert (90 * 1000000 <=? elapsed).

Definition drop_disarms_anything_left_armed : exec unit :=
  schedule ← unwrap (validate (scenario_with [step 0 "pkt-loss" Arm]));
  runner ← unwrap (Runner_new schedule one_injector ctx);
  '(res, runner, w) ← returned (run no_effect 10 runner 1000 tt);
  _ ← unwrap res;
  i ← unwrap_opt (r_injectors runner !! "pkt-loss"%string);
  _ ← assert_eq (arm_calls i) 1%nat;
  _ ← assert_eq (disarm_calls i) 0%nat;
  let '(injectors, _) := drop_runner ["pkt-loss"%string] runner w in
  i ← unwrap_opt (injectors !! "pkt-loss"%string);
  assert_eq (disarm_calls i) 1%nat.

(* ------------------------------------------------------------------ *)
(** * adapters/src/fix/message.rs *)

(** The worked example of the FIX article, pipes for SOH. *)
Definition reference_message : list byte :=
  let with_pipes := "8=FIX.4.2|9=65|35=A|49=SERVER|56=CLIENT|34=177|52=20090107-18:15:16|98=0|108=30|10=062|" in
  (λ b, if decide (b = x7c) then SOH else b) <$> bytes with_pipes.

Definition parses_reference_message_fields : exec unit :=
  msg ← unwrap (parse reference_message);
  _ ← assert (is_ msg 8 (bytes "FIX.4.2"));
  _ ← assert (is_ msg 9 (bytes "65"));
  _ ← assert (is_ msg 35 (bytes "A"));
  _ ← assert (is_ msg 49 (bytes "SERVER"));
  _ ← assert (is_ msg 56 (bytes "CLIENT"));
  assert (is_ msg 10 (bytes "062")).

(** [full.windows(4).rposition(|w| w == [SOH, b'1', b'0', b'='])]. *)
Definition rposition_window (p l : list byte) : option nat :=
  last (filter (λ i, take (length p) (drop i l) = p) (seq 0 (length l))).
Definition checksum_field_start (full : list byte) : exec nat :=
  i ← unwrap_opt (rposition_window (SOH :: bytes "10=") full); Done (i + 1)%nat.

Definition checksum_matches_the_known_correct_value : exec unit :=
  let full := reference_message in
  start ← checksum_field_start full;
  covered ← slice 0 start full;
  assert_eq (format_checksum (compute_checksum covered)) (bytes "062").

Definition rejects_empty_input : exec unit :=
  e ← unwrap_err (parse []); assert_eq e Empty.

Definition rejects_field_without_equals : exec unit :=
  e ← unwrap_err (parse (bytes "35D" ++ [SOH])); assert_eq e MalformedTag.

(** [format!("8=FIX.4.4\x019={}\x01", body.len())] and what follows it in the fixtures. *)
Definition with_header_and_trailer (body : list byte) : list byte :=
  let header := bytes "8=FIX.4.4" ++ [SOH] ++ bytes "9=" ++ to_dec (Z.of_nat (length body)) ++ [SOH] in
  let full := header ++ body in
  full ++ bytes "10=" ++ to_dec03 (compute_checksum full) ++ [SOH].

Definition set_field_replaces_the_value_and_recomputes_length_and_checksum : exec unit :=
  let original := with_header_and_trailer (pipes "35=8|39=1|150=F|44=100.50|") in
  r ← set_field original 44 (bytes "999.99");
  mutated ← unwrap r;
  reparsed ← unwrap (parse mutated);
  _ ← assert (is_ reparsed 44 (bytes "999.99"));
  _ ← assert (is_ reparsed 35 (bytes "8"));
  _ ← assert (is_ reparsed 39 (bytes "1"));
  _ ← assert (is_ reparsed 150 (bytes "F"));
  _ ← assert (is_ reparsed 8 (bytes "FIX.4.4"));
  tag9_value ← unwrap_opt (get reparsed 9);
  digits ← unwrap (from_utf8 tag9_value);
  declared_body_len ← unwrap (parse_uint 64 digits);
  first_soh ← unwrap_opt (position SOH mutated);
  rest ← slice (first_soh + 1) (length mutated) mutated;
  next ← unwrap_opt (position SOH rest);
  let second_soh := (first_soh + 1 + next)%nat in
  let header_len := (second_soh + 1)%nat in
  start ← checksum_field_start mutated;
  _ ← assert_eq declared_body_len (Z.of_nat start - Z.of_nat header_len);
  covered ← slice 0 start mutated;
  assert (is_ reparsed 10 (format_checksum (compute_checksum covered))).

Definition set_field_on_a_tag_not_present_leaves_the_message_otherwise_valid : exec unit :=
  r ← set_field reference_message 999 (bytes "whatever");
  mutated ← unwrap r;
  reparsed ← unwrap (parse mutated);
  _ ← assert (bool_decide (get reparsed 999 = None));
  assert (is_ reparsed 35 (bytes "A")).

(* ------------------------------------------------------------------ *)
(** * adapters/src/fix/framing.rs *)

Section framing.
Variable p : profile.

Definition framing_reference_message : list byte :=
  let with_pipes := "8=FIX.4.2|9=65|35=A|49=SERVER|56=CLIENT|34=177|52=20090107-18:15:16|98=0|108=30|10=062|" in
  (λ b, if decide (b = x7c) then SOH else b) <$> bytes with_pipes.

Definition found_length (b : list byte) : exec Z :=
  r ← find_complete_message p b; o ← unwrap r; unwrap_opt o.

Definition finds_exact_length_of_a_single_complete_message : exec unit :=
  let msg := framing_reference_message in
  found ← found_length msg;
  assert_eq found (Z.of_nat (length msg)).

Definition finds_only_the_first_of_two_concatenated_messages : exec unit :=
  let one := framing_reference_message in
  let two := one ++ one in
  found ← found_length two;
  _ ← assert_eq found (Z.of_nat (length one));
  remainder ← slice (Z.to_nat found) (length two) two;
  found_again ← found_length remainder;
  assert_eq found_again (Z.of_nat (length one)).

Definition returns_none_for_a_truncated_message : exec unit :=
  let msg := framing_reference_message in
  truncated ← slice 0 (length msg - 10) msg;
  r ← find_complete_message p truncated;
  o ← unwrap r; assert_eq o None.

Definition returns_none_for_just_a_partial_begin_string : exec unit :=
  r ← find_complete_message p (bytes "8=FIX.4");
  o ← unwrap r; assert_eq o None.

Definition rejects_a_buffer_not_starting_with_tag_8 : exec unit :=
  r ← find_complete_message p (bytes "35=D" ++ [SOH]); assert (is_err r).
End framing.

(* ------------------------------------------------------------------ *)
(** * adapters/src/fix/adapter.rs *)

Definition reference_execution_report (ord_status exec_type : string) : list byte :=
  with_header_and_trailer (bytes "35=8" ++ [SOH] ++ bytes "39=" ++ bytes ord_status ++ [SOH]
                           ++ bytes "150=" ++ bytes exec_type ++ [SOH]).

Definition reference_execution_report_with_price (ord_status exec_type price : string) : list byte :=
  with_header_and_trailer (bytes "35=8" ++ [SOH] ++ bytes "39=" ++ bytes ord_status ++ [SOH]
                           ++ bytes "150=" ++ bytes exec_type ++ [SOH] ++ bytes "44=" ++ bytes price ++ [SOH]).

Definition inbound (b : list byte) : RawMessage := {| msg_bytes := b; direction := Inbound |}.
Definition outbound (b : list byte) : RawMessage := {| msg_bytes := b; direction := Outbound |}.

(** [assert!(matches!(adapter.intercept(&msg).unwrap(), expected))], with the adapter as
    the call leaves it. *)
Definition intercepts {A} `{ProtocolAdapter A} (adapter : A) (msg : RawMessage) (expected : InterceptAction)
  : exec A :=
  '(r, adapter) ← pa_intercept adapter msg;
  action ← unwrap r;
  _ ← assert_eq action expected;
  Done adapter.
Definition ends {A} (x : exec A) : exec unit := _ ← x; Done tt.

Definition silent_reject_drops_rejected_execution_report : exec unit :=
  ends (intercepts mk_FixSilentReject (inbound (reference_execution_report "8" "8")) Drop).
Definition silent_reject_forwards_a_new_ack : exec unit :=
  ends (intercepts mk_FixSilentReject (inbound (reference_execution_report "0" "0")) Forward).
Definition silent_reject_ignores_outbound_traffic : exec unit :=
  ends (intercepts mk_FixSilentReject (outbound (reference_execution_report "8" "8")) Forward).

Definition ack_without_execution_drops_a_fill_but_not_the_ack : exec unit :=
  let adapter := mk_FixAckWithoutExecution in
  adapter ← intercepts adapter (inbound (reference_execution_report "0" "0")) Forward;
  ends (intercepts adapter (inbound (reference_execution_report "2" "F")) Drop).

Definition rate_limit_throttle_allows_up_to_threshold_then_drops (p : profile) : exec unit :=
  let adapter := FixRateLimitThrottle_new 2 in
  let msg := outbound (reference_execution_report "0" "0") in
  let intercepts := @intercepts _ (FixRateLimitThrottle_adapter p) in
  adapter ← intercepts adapter msg Forward;
  adapter ← intercepts adapter msg Forward;
  adapter ← intercepts adapter msg Drop;
  ends (intercepts adapter msg Drop).

Definition rate_limit_throttle_ignores_inbound_traffic (p : profile) : exec unit :=
  ends (@intercepts _ (FixRateLimitThrottle_adapter p) (FixRateLimitThrottle_new 0)
          (inbound (reference_execution_report "0" "0")) Forward).

Definition price_adapter : FixExecutionReportPriceMutation := {| mutated_price := bytes "1.00" |}.

Definition price_mutation_rewrites_the_price_on_a_fill : exec unit :=
  let msg := inbound (reference_execution_report_with_price "2" "F" "100.50") in
  '(r, _) ← pa_intercept price_adapter msg;
  action ← unwrap r;
  match action with
  | Mutate b =>
      parsed ← unwrap (parse b);
      _ ← assert (is_ parsed TAG_PRICE (bytes "1.00"));
      assert (is_ parsed TAG_EXEC_TYPE (bytes "F"))
  | _ => Panic "expected Mutate, got a different action"
  end.

Definition price_mutation_forwards_an_execution_report_with_no_price_field : exec unit :=
  ends (intercepts price_adapter (inbound (reference_execution_report "0" "0")) Forward).
Definition price_mutation_forwards_non_execution_report_messages : exec unit :=
  ends (intercepts price_adapter (inbound (reference_execution_report "8" "8")) Forward).
Definition price_mutation_ignores_outbound_traffic : exec unit :=
  ends (intercepts price_adapter (outbound (reference_execution_report_with_price "2" "F" "100.50")) Forward).

(* ------------------------------------------------------------------ *)
(** * They pass *)

Definition unit_tests (p : profile) : list (exec unit) :=
  [virtual_clock_only_moves_when_told;
   different_seed_diverges; matches_reference_vector;
   accepts_well_formed_schedule; rejects_out_of_order_steps; rejects_double_arm; rejects_disarm_without_arm;
   nothing_fires_before_its_time; step_fires_once_time_reaches_it; coalesces_multiple_due_steps_in_one_advance;
   matches_schedule_ignores_wall_time_but_not_seed;
   rejects_schedule_referencing_unknown_fault_id; arms_and_disarms_registered_injector_at_the_right_times;
   run_realtime_actually_takes_real_time_unlike_run; drop_disarms_anything_left_armed;
   parses_reference_message_fields; checksum_matches_the_known_correct_value; rejects_empty_input;
   rejects_field_without_equals; set_field_replaces_the_value_and_recomputes_length_and_checksum;
   set_field_on_a_tag_not_present_leaves_the_message_otherwise_valid;
   finds_exact_length_of_a_single_complete_message p; finds_only_the_first_of_two_concatenated_messages p;
   returns_none_for_a_truncated_message p; returns_none_for_just_a_partial_begin_string p;
   rejects_a_buffer_not_starting_with_tag_8 p;
   silent_reject_drops_rejected_execution_report; silent_reject_forwards_a_new_ack;
   silent_reject_ignores_outbound_traffic; ack_without_execution_drops_a_fill_but_not_the_ack;
   rate_limit_throttle_allows_up_to_threshold_then_drops p; rate_limit_throttle_ignores_inbound_traffic p;
   price_mutation_rewrites_the_price_on_a_fill;
   price_mutation_forwards_an_execution_report_with_no_price_field;
   price_mutation_forwards_non_execution_report_messages; price_mutation_ignores_outbound_traffic].

Definition passes (t : exec unit) : bool := match t with Done _ => true | Panic _ => false end.

(** Every test that is one evaluation, in both build profiles. *)
Example unit_tests_pass : forallb passes (unit_tests dev_profile) && forallb passes (unit_tests release_profile) = true.
Proof. vm_compute. reflexivity. Qed.

(** The two that loop over a generator, by induction instead. *)
Lemma same_draws_pass n a : same_draws n a a = Done tt.
Proof.
  revert a. induction n as [|n IH]; intros a; [done|]. cbn [same_draws].
  destruct (next_u64 a) as [x a']. unfold assert_eq. rewrite bool_decide_eq_true_2 by done. apply IH.
Qed.

Example same_seed_same_sequence_passes : same_seed_same_sequence = Done tt.
Proof. apply same_draws_pass. Qed.

Lemma unit_draws_pass n r : unit_draws n r = Done tt.
Proof.
  revert r. induction n as [|n IH]; intros r; [done|]. cbn [unit_draws].
  destruct (next_f64_in_range r) as [Hlo Hhi]. destruct (next_f64 r) as [f r']. cbn [fst] in *.
  unfold in_unit_range. rewrite Hlo, Hhi. apply IH.
Qed.

Example next_f64_stays_in_unit_range_passes : next_f64_stays_in_unit_range = Done tt.
Proof. apply unit_draws_pass. Qed.

(** The disk test passes on any file system that reads back what it wrote and any
    serializer that inverts itself, whenever the trace can be saved. *)
Lemma round_trips_through_disk_passes {W} `{FileApi W} to_string_pretty from_slice path (w : W) :
  (∀ t b, to_string_pretty t = Ok b → from_slice b = Ok t) →
  (∀ b w1 w2 w3, file_create path w1 = (Ok tt, w2) → file_write_all path b w2 = (Ok tt, w3) →
     ∃ w4, fs_read path w3 = (Ok b, w4)) →
  is_ok (save to_string_pretty (record (Trace_new "smoke-test" 42) (step 0 "pkt-loss" Arm) 1000) path w).1 = true →
  round_trips_through_disk to_string_pretty from_slice path w = Done tt.
Proof.
  intros Hserde Hfs Hsave. unfold round_trips_through_disk. set (t := record _ _ _) in *.
  unfold save, load in *. destruct (to_string_pretty t) as [b|] eqn:Ej; [|done].
  destruct (file_create path w) as [[[]|] w1] eqn:Ec; [|done].
  destruct (file_write_all path b w1) as [[[]|] w2] eqn:Ew; [|done].
  destruct (Hfs b w w1 w2 Ec Ew) as [w4 Hr]. cbn [map_err unwrap mbind exec_bind].
  rewrite Hr, (Hserde t b Ej). reflexivity.
Qed.
