(* ===== verification/TraceFile.v ===== *)
(** The trace file: what [#[derive(Serialize, Deserialize)]] makes of [Trace] and
    [TraceEvent] (replay/src/trace.rs) and of [ScenarioStep] and [StepAction]
    (core/src/scenario.rs) over a JSON tree.  Writing and reading the text is serde_json's
    and stays a parameter, with a writer and reader of the fragment in use as its instance. *)

From Stdlib Require Import Strings.Byte.
From S2P Require Import Prelude RustStd Core Schedule Scheduler Trace Runner RunnerFacts.
From S2P Require Import ConfigFile.

(* ------------------------------------------------------------------ *)
(** * The document *)

(** A JSON value.  [JInteger] is a number that serde_json reads as an [i64] or a [u64];
    every other number is [JFloat].  An object keeps order and duplicates. *)
#[local] Unset Elimination Schemes.
Inductive json :=
| JNull
| JBool (b : bool)
| JInteger (z : Z)
| JFloat (text : string)
| JString (s : string)
| JArray (l : list json)
| JObject (t : list (string * json)).
#[local] Set Elimination Schemes.

Lemma json_ind (P : json → Prop) :
  P JNull → (∀ b, P (JBool b)) → (∀ z, P (JInteger z)) → (∀ s, P (JFloat s)) → (∀ s, P (JString s)) →
  (∀ l, Forall P l → P (JArray l)) → (∀ t, Forall (P ∘ snd) t → P (JObject t)) → ∀ v, P v.
Proof.
  intros Hn Hb Hi Hf Hs Ha Ho. fix IH 1. intros [|b|z|s|s|l|t]; [apply Hn|apply Hb|apply Hi|apply Hf|apply Hs|..].
  - apply Ha. induction l as [|v l IHl]; constructor; [apply IH|exact IHl].
  - apply Ho. induction t as [|[k v] t IHt]; constructor; [apply IH|exact IHt].
Qed.

(** The members of that name. *)
Definition members (k : string) (t : list (string * json)) : list json :=
  snd <$> filter (λ kv, kv.1 = k) t.

(* ------------------------------------------------------------------ *)
(** * Serialize *)

Definition ser_StepAction (a : StepAction) : json :=
  JString (snake_case match a with Arm => "Arm" | Disarm => "Disarm" end).
Definition ser_ScenarioStep (s : ScenarioStep) : json :=
  JObject [("at_ns", JInteger (at_ns s)); ("fault_id", JString (fault_id s)); ("action", ser_StepAction (action s))]%string.
Definition ser_TraceEvent (e : TraceEvent) : json :=
  JObject [("step", ser_ScenarioStep (ev_step e)); ("wall_ns", JInteger (wall_ns e))]%string.
Definition ser_Trace (t : Trace) : json :=
  JObject [("scenario_name", JString (scenario_name t)); ("seed", JInteger (tr_seed t));
           ("events", JArray (ser_TraceEvent <$> events t))]%string.

(* ------------------------------------------------------------------ *)
(** * Deserialize *)

(** The derive also takes a struct from an array of its fields, and a unit variant from
    an object; how much of that is passed on is the format's choice. *)
Class JsonForms := {
  struct_of_array : list string → list json → option (list (string * json));
  variant_of_object : list (string * json) → option string
}.

Section decode.
Context `{JsonForms}.

Definition dej_struct (fields : list string) (v : json) : option (list (string * json)) :=
  match v with
  | JObject t => Some t
  | JArray l => struct_of_array fields l
  | _ => None
  end.
(** A field that is missing or there twice is an error; other members are skipped. *)
Definition dej_field {A} (de : json → option A) (k : string) (t : list (string * json)) : option A :=
  match members k t with [v] => de v | _ => None end.
Definition dej_String (v : json) : option string := match v with JString s => Some s | _ => None end.
Definition dej_u64 (v : json) : option Z :=
  match v with JInteger z => if (0 <=? z) && (z <? 2 ^ 64) then Some z else None | _ => None end.
Definition dej_Vec {A} (de : json → option A) (v : json) : option (list A) :=
  match v with JArray l => mapM de l | _ => None end.

Definition dej_StepAction (v : json) : option StepAction :=
  name ← match v with JString s => Some s | JObject t => variant_of_object t | _ => None end;
  if decide (name = snake_case "Arm") then Some Arm
  else if decide (name = snake_case "Disarm") then Some Disarm
  else None.
Definition dej_ScenarioStep (v : json) : option ScenarioStep :=
  t ← dej_struct ["at_ns"; "fault_id"; "action"]%string v;
  at_ns ← dej_field dej_u64 "at_ns" t;
  fault_id ← dej_field dej_String "fault_id" t;
  action ← dej_field dej_StepAction "action" t;
  Some {| at_ns := at_ns; fault_id := fault_id; action := action |}.
Definition dej_TraceEvent (v : json) : option TraceEvent :=
  t ← dej_struct ["step"; "wall_ns"]%string v;
  step ← dej_field dej_ScenarioStep "step" t;
  wall_ns ← dej_field dej_u64 "wall_ns" t;
  Some {| ev_step := step; wall_ns := wall_ns |}.
Definition dej_Trace (v : json) : option Trace :=
  t ← dej_struct ["scenario_name"; "seed"; "events"]%string v;
  scenario_name ← dej_field dej_String "scenario_name" t;
  seed ← dej_field dej_u64 "seed" t;
  events ← dej_field (dej_Vec dej_TraceEvent) "events" t;
  Some {| scenario_name := scenario_name; tr_seed := seed; events := events |}.

(* ------------------------------------------------------------------ *)
(** * Lemmas: decoding and types *)

Lemma dej_ser_u64 n : u64? n → dej_u64 (JInteger n) = Some n.
Proof. unfold in_width. intros Hn. cbn [dej_u64]. destruct (_ && _) eqn:E; [done|lia]. Qed.

Lemma dej_u64_typed v n : dej_u64 v = Some n → u64? n.
Proof.
  destruct v; try done. cbn [dej_u64]. destruct (_ && _) eqn:E; [|done]. intros [= <-]. unfold in_width. lia.
Qed.

Lemma dej_field_eq {A} (de : json → option A) k t v : members k t = [v] → dej_field de k t = de v.
Proof. unfold dej_field. by intros ->. Qed.

(** Read the fields of a serialized struct one after the other. *)
Ltac read_fields :=
  cbn [dej_struct mbind option_bind]; repeat erewrite dej_field_eq by reflexivity;
  cbn [snd at_ns fault_id action ev_step wall_ns scenario_name tr_seed events dej_String];
  repeat (rewrite ?dej_ser_u64 by assumption; cbn [mbind option_bind]).

Lemma dej_ser_action a : dej_StepAction (ser_StepAction a) = Some a.
Proof. by destruct a. Qed.

Lemma dej_ser_step s : step_wf s → dej_ScenarioStep (ser_ScenarioStep s) = Some s.
Proof.
  destruct s as [n id a]. intros Hn. unfold step_wf in Hn. cbn in Hn. unfold dej_ScenarioStep, ser_ScenarioStep.
  read_fields. by rewrite dej_ser_action.
Qed.

Lemma dej_ser_event e : event_typed e → dej_TraceEvent (ser_TraceEvent e) = Some e.
Proof.
  destruct e as [s n]. intros [Hs Hn]. cbn in Hs, Hn. unfold dej_TraceEvent, ser_TraceEvent. read_fields.
  rewrite dej_ser_step by done. by read_fields.
Qed.

Lemma dej_ser_trace t : trace_typed t → dej_Trace (ser_Trace t) = Some t.
Proof.
  destruct t as [name seed evs]. intros [Hseed Hev]. cbn in Hseed, Hev. unfold dej_Trace, ser_Trace. read_fields.
  cbn [dej_Vec]. enough (mapM dej_TraceEvent (ser_TraceEvent <$> evs) = Some evs) as -> by done.
  apply mapM_Some. induction Hev as [|e evs He _ IH]; constructor; [by apply dej_ser_event|done].
Qed.

Lemma dej_field_Some {A} (de : json → option A) k t a : dej_field de k t = Some a → ∃ v, de v = Some a.
Proof. unfold dej_field. destruct (members k t) as [|v [|]]; try done. by exists v. Qed.

(** Peel the binds of a decoder that succeeded, down to what each field says. *)
Ltac peel :=
  repeat match goal with
  | H : _ ≫= _ = Some _ |- _ => apply bind_Some in H as (? & ? & H)
  | H : dej_field _ _ _ = Some _ |- _ => apply dej_field_Some in H as (? & H)
  end.

Lemma dej_step_typed v s : dej_ScenarioStep v = Some s → step_wf s.
Proof. unfold dej_ScenarioStep. intros Hd. peel. injection Hd as <-. by eapply dej_u64_typed. Qed.

Lemma dej_event_typed v e : dej_TraceEvent v = Some e → event_typed e.
Proof.
  unfold dej_TraceEvent. intros Hd. peel. injection Hd as <-.
  split; [by eapply dej_step_typed|by eapply dej_u64_typed].
Qed.

(** A trace file holds a trace exactly when it is typed: what is read always is, whatever
    the file says, and what is typed can be written; no bound below 2^64, as TOML has it. *)
Lemma trace_file_holds_typed_traces t : (∃ v, dej_Trace v = Some t) ↔ trace_typed t.
Proof.
  split.
  - intros [v Hd]. unfold dej_Trace in Hd. peel. injection Hd as <-. split; [by eapply dej_u64_typed|]. cbn.
    match goal with H : dej_Vec _ ?v = Some _ |- _ => destruct v; try done; apply mapM_Some in H;
      induction H; constructor; [by eapply dej_event_typed|done] end.
  - intros Ht. exists (ser_Trace t). by apply dej_ser_trace.
Qed.

End decode.

(* ------------------------------------------------------------------ *)
(** * serde_json *)

(** [to_string_pretty] writes a text that reads as the serialized tree; [from_slice] reads
    a tree and decodes it. *)
Class JsonCrate `{JsonForms} (to_string_pretty : Trace → result string (list byte))
    (from_slice : list byte → result string Trace) := {
  json_parse : list byte → option json;
  to_string_pretty_parses : ∀ t b, trace_typed t → to_string_pretty t = Ok b → json_parse b = Some (ser_Trace t);
  from_slice_decodes : ∀ b t, from_slice b = Ok t ↔ ∃ v, json_parse b = Some v ∧ dej_Trace v = Some t
}.

Lemma json_round_trip `{JsonCrate tsp fs} t b : trace_typed t → tsp t = Ok b → fs b = Ok t.
Proof.
  intros Ht Hb. apply from_slice_decodes. exists (ser_Trace t).
  split; [by apply to_string_pretty_parses|by apply dej_ser_trace].
Qed.
