(* ===== verification/JsonText.v ===== *)
(** A writer and a reader of JSON text, enough for every trace: pretty printing with two
    spaces per level, string escapes, unsigned integers, arrays and objects.  It is the
    instance at which the laws asked of serde_json hold. *)

From Stdlib Require Import Strings.Byte.
From S2P Require Import Prelude RustStd Core Schedule Scheduler Trace Runner RunnerFacts.
From S2P Require Import TraceFile.

(* ------------------------------------------------------------------ *)
(** * Writing *)

Definition hex_digit (n : Z) : byte := byte_of_val (if n <? 10 then 48 + n else 87 + n).

Definition escape (b : byte) : list byte :=
  match b with
  | x22 => [x5c; x22] | x5c => [x5c; x5c]
  | x08 => [x5c; x62] | x09 => [x5c; x74] | x0a => [x5c; x6e] | x0c => [x5c; x66] | x0d => [x5c; x72]
  | _ => if byte_val b <? 32
         then [x5c; x75; x30; x30; hex_digit (byte_val b / 16); hex_digit (byte_val b mod 16)]
         else [b]
  end.
Definition write_string (s : list byte) : list byte := x22 :: concat (escape <$> s) ++ [x22].
Definition indent (n : nat) : list byte := x0a :: replicate (2 * n) x20.

Fixpoint write (n : nat) (v : json) : list byte :=
  match v with
  | JNull => bytes "null"
  | JBool b => bytes (if b then "true" else "false")
  | JInteger z => to_dec z
  | JFloat text => bytes text
  | JString s => write_string (bytes s)
  | JArray [] => [x5b; x5d]
  | JArray l => x5b :: join_with x2c ((λ v, indent (S n) ++ write (S n) v) <$> l) ++ indent n ++ [x5d]
  | JObject [] => [x7b; x7d]
  | JObject t =>
      x7b :: join_with x2c ((λ kv, indent (S n) ++ write_string (bytes kv.1) ++ [x3a; x20] ++ write (S n) kv.2) <$> t)
      ++ indent n ++ [x7d]
  end.

(* ------------------------------------------------------------------ *)
(** * Tokens *)

Inductive tok := Punct (c : byte) | Str (s : list byte) | Word (w : list byte).
#[global] Instance tok_eq_dec : EqDecision tok.
Proof. solve_decision. Defined.

Inductive lex_state :=
| LStart
| LStr (acc : list byte)                       (* inside a string *)
| LEsc (acc : list byte)                       (* after a backslash *)
| LHex (acc : list byte) (digits : list Z)     (* after a backslash and u *)
| LWord (acc : list byte).

Definition is_ws (b : byte) : bool := bool_decide (b ∈ [x20; x09; x0a; x0d]).
Definition is_punct (b : byte) : bool := bool_decide (b ∈ [x7b; x7d; x5b; x5d; x3a; x2c]).
Definition is_delim (b : byte) : bool := is_ws b || is_punct b.

Definition lex_start (b : byte) : list tok * lex_state :=
  if is_ws b then ([], LStart)
  else if is_punct b then ([Punct b], LStart)
  else if decide (b = x22) then ([], LStr [])
  else ([], LWord [b]).

Definition unescape (b : byte) : option byte :=
  match b with
  | x22 => Some x22 | x5c => Some x5c | x2f => Some x2f
  | x62 => Some x08 | x74 => Some x09 | x6e => Some x0a | x66 => Some x0c | x72 => Some x0d
  | _ => None
  end.
Definition hex_val (b : byte) : option Z :=
  if in_range 48 57 b then Some (byte_val b - 48)
  else if in_range 97 102 b then Some (byte_val b - 87)
  else if in_range 65 70 b then Some (byte_val b - 55)
  else None.

Definition lex_byte (st : lex_state) (b : byte) : option (list tok * lex_state) :=
  match st with
  | LStart => Some (lex_start b)
  | LStr acc =>
      if decide (b = x22) then Some ([Str (reverse acc)], LStart)
      else if decide (b = x5c) then Some ([], LEsc acc)
      else if byte_val b <? 32 then None
      else Some ([], LStr (b :: acc))
  | LEsc acc =>
      if decide (b = x75) then Some ([], LHex acc [])
      else c ← unescape b; Some ([], LStr (c :: acc))
  | LHex acc digits =>
      d ← hex_val b;
      match digits with
      | [d1; d2; d3] =>
          let code := ((d1 * 16 + d2) * 16 + d3) * 16 + d in
          if code <? 128 then Some ([], LStr (byte_of_val code :: acc)) else None
      | _ => Some ([], LHex acc (digits ++ [d]))
      end
  | LWord acc =>
      if is_delim b then Some (Word (reverse acc) :: (lex_start b).1, (lex_start b).2)
      else if decide (b = x22) then None
      else Some ([], LWord (b :: acc))
  end.

Fixpoint lex_run (st : lex_state) (l : list byte) : option (list tok * lex_state) :=
  match l with
  | [] => Some ([], st)
  | b :: r =>
      '(ts, st') ← lex_byte st b;
      '(ts', st'') ← lex_run st' r;
      Some (ts ++ ts', st'')
  end.

Definition lex (text : list byte) : option (list tok) :=
  '(ts, st) ← lex_run LStart (text ++ [x0a]);
  match st with LStart => Some ts | _ => None end.

(* ------------------------------------------------------------------ *)
(** * Values *)

Inductive frame := FArr (acc : list json) | FObj (acc : list (string * json)) (k : option string).
Inductive mode := Val | ValOrClose | Key | KeyOrClose | Colon | After.
Inductive parse_state := Expect (m : mode) (stk : list frame) | Finished (v : json).

Definition feed (v : json) (stk : list frame) : option parse_state :=
  match stk with
  | [] => Some (Finished v)
  | FArr acc :: s => Some (Expect After (FArr (acc ++ [v]) :: s))
  | FObj acc (Some k) :: s => Some (Expect After (FObj (acc ++ [(k, v)]) None :: s))
  | _ => None
  end.

Definition word_value (w : list byte) : option json :=
  if decide (w = bytes "null") then Some JNull
  else if decide (w = bytes "true") then Some (JBool true)
  else if decide (w = bytes "false") then Some (JBool false)
  else match parse_uint 64 w with
       | Ok n => if decide (to_dec n = w) then Some (JInteger n) else None
       | Err _ => None
       end.

Definition value_step (t : tok) (s : list frame) : option parse_state :=
  match t with
  | Punct x7b => Some (Expect KeyOrClose (FObj [] None :: s))
  | Punct x5b => Some (Expect ValOrClose (FArr [] :: s))
  | Str b => feed (JString (String.string_of_list_byte b)) s
  | Word w => v ← word_value w; feed v s
  | _ => None
  end.
Definition key_step (t : tok) (s : list frame) : option parse_state :=
  match t, s with
  | Str k, FObj acc None :: s' => Some (Expect Colon (FObj acc (Some (String.string_of_list_byte k)) :: s'))
  | _, _ => None
  end.

Definition parse_step (st : parse_state) (t : tok) : option parse_state :=
  match st with
  | Finished _ => None
  | Expect Val s => value_step t s
  | Expect ValOrClose s =>
      match t, s with Punct x5d, FArr _ :: s' => feed (JArray []) s' | _, _ => value_step t s end
  | Expect Key s => key_step t s
  | Expect KeyOrClose s =>
      match t, s with Punct x7d, FObj _ _ :: s' => feed (JObject []) s' | _, _ => key_step t s end
  | Expect Colon s => match t with Punct x3a => Some (Expect Val s) | _ => None end
  | Expect After s =>
      match t, s with
      | Punct x2c, FArr _ :: _ => Some (Expect Val s)
      | Punct x2c, FObj _ _ :: _ => Some (Expect Key s)
      | Punct x5d, FArr acc :: s' => feed (JArray acc) s'
      | Punct x7d, FObj acc _ :: s' => feed (JObject acc) s'
      | _, _ => None
      end
  end.

Definition parse_run (ts : list tok) (st : parse_state) : option parse_state :=
  foldl (λ st t, st ≫= λ st, parse_step st t) (Some st) ts.

Definition read_json (text : list byte) : option json :=
  ts ← lex text;
  st ← parse_run ts (Expect Val []);
  match st with Finished v => Some v | _ => None end.

Example read_written :
  let v := JObject [("a", JArray [JInteger 18446744073709551615; JNull; JString "x y"]); ("b", JObject [])]%string in
  read_json (write 0 v) = Some v.
Proof. vm_compute. reflexivity. Qed.

(* ------------------------------------------------------------------ *)
(** * The tokens of a value *)

(** Integers that fit a [u64]; a float is left out, its text is not looked at. *)
Fixpoint writable (v : json) : Prop :=
  match v with
  | JInteger z => u64? z
  | JFloat _ => False
  | JArray l => (fix go l := match l with [] => True | x :: r => writable x ∧ go r end) l
  | JObject t => (fix go t := match t with [] => True | (_, x) :: r => writable x ∧ go r end) t
  | _ => True
  end.

Fixpoint commas (l : list (list tok)) : list tok :=
  match l with
  | [] => []
  | [ts] => ts
  | ts :: r => ts ++ Punct x2c :: commas r
  end.

Fixpoint toks (v : json) : list tok :=
  match v with
  | JNull => [Word (bytes "null")]
  | JBool b => [Word (bytes (if b then "true" else "false"))]
  | JInteger z => [Word (to_dec z)]
  | JFloat text => [Word (bytes text)]
  | JString s => [Str (bytes s)]
  | JArray l => Punct x5b :: commas (toks <$> l) ++ [Punct x5d]
  | JObject t => Punct x7b :: commas ((λ kv, Str (bytes kv.1) :: Punct x3a :: toks kv.2) <$> t) ++ [Punct x7d]
  end.

Lemma writable_array l : writable (JArray l) ↔ Forall writable l.
Proof. induction l as [|v l IH]; [done|]. rewrite Forall_cons, <- IH. done. Qed.
Lemma writable_object t : writable (JObject t) ↔ Forall (writable ∘ snd) t.
Proof. induction t as [|[k v] t IH]; [done|]. rewrite Forall_cons, <- IH. done. Qed.

(* ------------------------------------------------------------------ *)
(** * Lemmas: lexing what was written *)

Definition prepend (ts : list tok) (o : option (list tok * lex_state)) : option (list tok * lex_state) :=
  (λ x, (ts ++ x.1, x.2)) <$> o.

(** The text reads as these tokens when a delimiter follows, or whatever follows. *)
Definition lexes (text : list byte) (ts : list tok) : Prop :=
  ∀ d rest, is_delim d = true → lex_run LStart (text ++ d :: rest) = prepend ts (lex_run LStart (d :: rest)).
Definition closed (text : list byte) (ts : list tok) : Prop :=
  ∀ rest, lex_run LStart (text ++ rest) = prepend ts (lex_run LStart rest).

Lemma prepend_prepend ts1 ts2 o : prepend ts1 (prepend ts2 o) = prepend (ts1 ++ ts2) o.
Proof. destruct o as [[ts st]|]; [|done]. cbn. by rewrite app_assoc. Qed.
Lemma prepend_nil o : prepend [] o = o.
Proof. by destruct o as [[]|]. Qed.

Lemma lex_run_cons st b r :
  lex_run st (b :: r) = '(ts, st') ← lex_byte st b; prepend ts (lex_run st' r).
Proof. cbn [lex_run]. destruct (lex_byte st b) as [[ts st']|]; [|done]. cbn. by destruct (lex_run st' r) as [[]|]. Qed.

Lemma closed_lexes text ts : closed text ts → lexes text ts.
Proof. intros Hc d rest _. apply Hc. Qed.
Lemma closed_app a ta b tb : closed a ta → closed b tb → closed (a ++ b) (ta ++ tb).
Proof. intros Ha Hb rest. by rewrite <- app_assoc, Ha, Hb, prepend_prepend. Qed.
Lemma closed_lexes_app a ta b tb : closed a ta → lexes b tb → lexes (a ++ b) (ta ++ tb).
Proof. intros Ha Hb d rest Hd. by rewrite <- app_assoc, Ha, Hb, prepend_prepend. Qed.
Lemma lexes_closed_app a ta d b tb :
  is_delim d = true → lexes a ta → closed (d :: b) tb → closed (a ++ d :: b) (ta ++ tb).
Proof.
  intros Hd Ha Hb rest. rewrite <- app_assoc, <- app_comm_cons, Ha by done.
  by rewrite app_comm_cons, Hb, prepend_prepend.
Qed.

Lemma closed_punct c : is_punct c = true → closed [c] [Punct c].
Proof.
  intros Hc rest. cbn [app]. rewrite lex_run_cons. cbn [lex_byte mbind option_bind]. unfold lex_start.
  rewrite Hc. destruct (is_ws c) eqn:E; [|done]. unfold is_ws, is_punct in *.
  apply bool_decide_eq_true in E, Hc. set_solver.
Qed.
Lemma closed_ws c : is_ws c = true → closed [c] [].
Proof.
  intros Hc rest. cbn [app]. rewrite lex_run_cons. cbn [lex_byte mbind option_bind]. unfold lex_start.
  by rewrite Hc.
Qed.
Lemma closed_indent n : closed (indent n) [].
Proof.
  unfold indent. apply (closed_app [x0a] [] _ []); [by apply closed_ws|].
  induction (2 * n)%nat as [|k IH]; [intros rest; by rewrite prepend_nil|].
  cbn [replicate]. by apply (closed_app [x20] [] _ []); [apply closed_ws|].
Qed.

(** One escaped byte is read back as that byte. *)
Lemma lex_escape b acc rest : lex_run (LStr acc) (escape b ++ rest) = lex_run (LStr (b :: acc)) rest.
Proof.
  destruct b; match goal with |- context [escape ?b] =>
    let e := eval vm_compute in (escape b) in change (escape b) with e end;
    cbn [app]; repeat (rewrite lex_run_cons;
      match goal with |- context [lex_byte ?st ?b] =>
        let x := eval vm_compute in (lex_byte st b) in change (lex_byte st b) with x end;
      cbn [mbind option_bind]; rewrite prepend_nil); reflexivity.
Qed.

Lemma lex_escapes s acc rest :
  lex_run (LStr acc) (concat (escape <$> s) ++ x22 :: rest) = prepend [Str (reverse acc ++ s)] (lex_run LStart rest).
Proof.
  revert acc. induction s as [|b s IH]; intros acc; cbn [fmap list_fmap concat].
  - cbn [app]. rewrite lex_run_cons, app_nil_r. done.
  - rewrite <- app_assoc, lex_escape, IH, reverse_cons, <- app_assoc. done.
Qed.

Lemma closed_string s : closed (write_string s) [Str s].
Proof.
  intros rest. unfold write_string. cbn [app]. rewrite lex_run_cons.
  change (lex_byte LStart x22) with (Some (@nil tok, LStr [])). cbn [mbind option_bind]. rewrite prepend_nil, <- app_assoc. apply lex_escapes.
Qed.

(** A word is any run of other characters. *)
Definition word_byte (b : byte) : Prop := is_delim b = false ∧ b ≠ x22.

Lemma lex_word acc w d rest :
  Forall word_byte w → is_delim d = true →
  lex_run (LWord acc) (w ++ d :: rest) = prepend [Word (reverse acc ++ w)] (lex_run LStart (d :: rest)).
Proof.
  intros Hw Hd. revert acc. induction Hw as [|b w [Hb Hq] _ IH]; intros acc.
  - cbn [app]. rewrite !lex_run_cons. cbn [lex_byte]. rewrite Hd, app_nil_r. cbn [mbind option_bind].
    destruct (lex_start d) as [ts st]. cbn. by rewrite prepend_prepend.
  - cbn [app]. rewrite lex_run_cons. cbn [lex_byte]. rewrite Hb, decide_False by done. cbn [mbind option_bind].
    by rewrite prepend_nil, IH, reverse_cons, <- app_assoc.
Qed.

Lemma lexes_word w : w ≠ [] → Forall word_byte w → lexes w [Word w].
Proof.
  intros Hne Hw d rest Hd. destruct Hw as [|b w [Hb Hq] Hw]; [done|]. cbn [app]. rewrite lex_run_cons.
  cbn [lex_byte]. unfold lex_start. unfold is_delim in Hb. apply orb_false_iff in Hb as [-> ->].
  rewrite decide_False by done. cbn [mbind option_bind]. rewrite prepend_nil, lex_word by done. done.
Qed.

Lemma digit_word_byte b : is_digit b → word_byte b.
Proof. destruct b; unfold is_digit, word_byte; cbn; (lia || done). Qed.

Lemma lexes_app a ta d b tb :
  is_delim d = true → lexes a ta → lexes (d :: b) tb → lexes (a ++ d :: b) (ta ++ tb).
Proof.
  intros Hd Ha Hb d' rest Hd'. rewrite <- app_assoc, <- app_comm_cons, Ha by done.
  by rewrite app_comm_cons, Hb, prepend_prepend.
Qed.

Lemma lexes_join texts tss : Forall2 lexes texts tss → texts ≠ [] → lexes (join_with x2c texts) (commas tss).
Proof.
  induction 1 as [|a ta texts tss Ha Hr IH]; [done|]. intros _.
  destruct Hr as [|b tb texts tss Hb Hr]; [done|]. cbn [join_with commas].
  apply lexes_app; [done|done|].
  apply (closed_lexes_app [x2c] [Punct x2c]); [by apply closed_punct|]. by apply IH.
Qed.

(** A bracketed, indented, comma-separated list. *)
Lemma closed_brackets o c n texts tss :
  is_punct o = true → is_punct c = true → Forall2 lexes texts tss → texts ≠ [] →
  closed (o :: join_with x2c texts ++ indent n ++ [c]) (Punct o :: commas tss ++ [Punct c]).
Proof.
  intros Ho Hc Hl Hne. apply (closed_app [o] [Punct o]); [by apply closed_punct|].
  change (indent n ++ [c]) with (x0a :: (replicate (2 * n) x20 ++ [c])).
  apply lexes_closed_app; [done|by apply lexes_join|].
  apply (closed_app (indent n) [] [c] [Punct c]); [apply closed_indent|by apply closed_punct].
Qed.

Lemma lexes_items {X} (text : X → list byte) (ts : X → list tok) l :
  Forall (λ x, lexes (text x) (ts x)) l → Forall2 lexes (text <$> l) (ts <$> l).
Proof. induction 1; by constructor. Qed.

Lemma write_lexes v : ∀ n, writable v → lexes (write n v) (toks v).
Proof.
  induction v as [|b|z|s|s|l IH|t IH] using json_ind; intros n Hw; cbn [write toks].
  - apply lexes_word; [done|]. repeat constructor; done.
  - apply lexes_word; [by destruct b|]. destruct b; repeat constructor; done.
  - destruct (to_dec_spec 64 z Hw) as (Hne & Hd & _). apply lexes_word; [done|].
    eapply Forall_impl; [exact Hd|]. apply digit_word_byte.
  - done.
  - apply closed_lexes, closed_string.
  - apply writable_array in Hw. apply closed_lexes. destruct l as [|v l].
    { by apply (closed_app [x5b] [Punct x5b] [x5d] [Punct x5d]); apply closed_punct. }
    apply closed_brackets; [done..| |done]. apply lexes_items. eapply Forall_impl.
    { apply Forall_and. split; [exact IH|exact Hw]. }
    intros x [Hx Hxw]. apply (closed_lexes_app _ []); [apply closed_indent|by apply Hx].
  - apply writable_object in Hw. apply closed_lexes. destruct t as [|kv t].
    { by apply (closed_app [x7b] [Punct x7b] [x7d] [Punct x7d]); apply closed_punct. }
    apply closed_brackets; [done..| |done]. apply lexes_items. eapply Forall_impl.
    { apply Forall_and. split; [exact IH|exact Hw]. }
    intros x [Hx Hxw]. apply (closed_lexes_app _ []); [apply closed_indent|].
    apply (closed_lexes_app _ [_]); [apply closed_string|].
    apply (closed_lexes_app [x3a] [_]); [by apply closed_punct|].
    apply (closed_lexes_app [x20] []); [by apply closed_ws|by apply Hx].
Qed.

Lemma lex_write v : writable v → lex (write 0 v) = Some (toks v).
Proof.
  intros Hw. unfold lex. rewrite (write_lexes v 0 Hw x0a []) by done.
  change (lex_run LStart [x0a]) with (Some (@nil tok, LStart)). unfold prepend. cbn [fmap option_fmap option_map fst snd].
  cbn [mbind option_bind]. by rewrite app_nil_r.
Qed.

(* ------------------------------------------------------------------ *)
(** * Lemmas: parsing the tokens of a value *)

Lemma parse_run_cons t ts st : parse_run (t :: ts) st = st' ← parse_step st t; parse_run ts st'.
Proof.
  unfold parse_run. cbn [foldl mbind option_bind]. destruct (parse_step st t); [done|]. cbn.
  induction ts as [|t' ts IH]; [done|]. exact IH.
Qed.

Lemma word_value_dec n : u64? n → word_value (to_dec n) = Some (JInteger n).
Proof.
  intros Hn. destruct (to_dec_spec 64 n Hn) as (_ & Hd & _). unfold word_value.
  assert (Hw : ∀ b w, ¬ is_digit b → to_dec n ≠ b :: w).
  { intros b w Hb He. rewrite He in Hd. by apply Forall_cons in Hd as [? _]. }
  rewrite !decide_False by (apply Hw; unfold is_digit; cbn; lia).
  rewrite parse_to_dec by done. by rewrite decide_True.
Qed.

(** The stack machine reads one value: it goes on as if the value had been fed to it. *)
Definition parses (v : json) : Prop :=
  ∀ s rest, parse_run (toks v ++ rest) (Expect Val s) = st ← feed v s; parse_run rest st.

(** At the first element of an array a value may start where a bracket could. *)
Lemma toks_first v : ∃ t ts, toks v = t :: ts ∧ t ≠ Punct x5d.
Proof. destruct v; cbn [toks]; eauto 6 with congruence. Qed.

Lemma parse_val_or_close v ts s :
  parse_run (toks v ++ ts) (Expect ValOrClose s) = parse_run (toks v ++ ts) (Expect Val s).
Proof.
  destruct (toks_first v) as (t & ts' & -> & Ht). cbn [app]. rewrite !parse_run_cons.
  f_equal. cbn [parse_step]. destruct t as [[]| |]; try done.
Qed.

Lemma parse_elements l : Forall parses l → l ≠ [] → ∀ acc s rest,
  parse_run (commas (toks <$> l) ++ rest) (Expect Val (FArr acc :: s))
  = parse_run rest (Expect After (FArr (acc ++ l) :: s)).
Proof.
  induction 1 as [|v l Hv Hl IH]; [done|]. intros _ acc s rest. destruct l as [|v' l]; cbn [fmap list_fmap commas].
  - by rewrite Hv.
  - rewrite <- app_assoc, Hv. cbn [feed mbind option_bind app]. rewrite parse_run_cons.
    cbn [parse_step mbind option_bind]. fold (commas (toks <$> v' :: l)). rewrite IH by done. by rewrite <- app_assoc.
Qed.

Lemma parse_members t : Forall (parses ∘ snd) t → t ≠ [] → ∀ acc s rest,
  parse_run (commas ((λ kv, Str (bytes kv.1) :: Punct x3a :: toks kv.2) <$> t) ++ rest) (Expect Key (FObj acc None :: s))
  = parse_run rest (Expect After (FObj (acc ++ t) None :: s)).
Proof.
  assert (Hone : ∀ k v acc s rest, parses v →
    parse_run (Str (bytes k) :: Punct x3a :: toks v ++ rest) (Expect Key (FObj acc None :: s))
    = parse_run rest (Expect After (FObj (acc ++ [(k, v)]) None :: s))).
  { intros k v acc s rest Hv. rewrite !parse_run_cons. cbn [parse_step key_step mbind option_bind].
    rewrite parse_run_cons. cbn [parse_step mbind option_bind].
    rewrite Hv. cbn [feed mbind option_bind]. unfold bytes. by rewrite String.string_of_list_byte_of_string. }
  induction 1 as [|[k v] t Hv Ht IH]; [done|]. intros _ acc s rest. destruct t as [|kv t]; cbn [fmap list_fmap commas].
  - cbn [app fst snd]. by rewrite Hone.
  - rewrite <- app_assoc. cbn [app fst snd]. rewrite Hone by done. rewrite parse_run_cons.
    cbn [parse_step mbind option_bind].
    etransitivity; [exact (IH ltac:(done) (acc ++ [(k, v)]) s rest)|]. by rewrite <- app_assoc.
Qed.

Lemma toks_parse v : writable v → parses v.
Proof.
  induction v as [|b|z|s|s|l IH|t IH] using json_ind; intros Hw stk rest; cbn [toks app];
    rewrite parse_run_cons; cbn [parse_step value_step].
  - done.
  - by destruct b.
  - by rewrite word_value_dec.
  - done.
  - unfold bytes. by rewrite String.string_of_list_byte_of_string.
  - apply writable_array in Hw. cbn [mbind option_bind]. destruct l as [|v l].
    { cbn [fmap list_fmap commas app]. by rewrite parse_run_cons. }
    assert (Hl : Forall parses (v :: l)).
    { eapply Forall_impl; [apply Forall_and; split; [exact IH|exact Hw]|]. intros x [Hx ?]. by apply Hx. }
    rewrite <- app_assoc. pose proof (parse_elements (v :: l) Hl ltac:(done) [] stk ([Punct x5d] ++ rest)) as Hp.
    transitivity (parse_run ([Punct x5d] ++ rest) (Expect After (FArr (v :: l) :: stk))).
    + etransitivity; [|exact Hp]. cbn [fmap list_fmap commas].
      destruct (toks <$> l); rewrite <- ?app_assoc; apply parse_val_or_close.
    + cbn [app]. by rewrite parse_run_cons.
  - apply writable_object in Hw. cbn [mbind option_bind]. destruct t as [|kv t].
    { cbn [fmap list_fmap commas app]. by rewrite parse_run_cons. }
    assert (Ht : Forall (parses ∘ snd) (kv :: t)).
    { eapply Forall_impl; [apply Forall_and; split; [exact IH|exact Hw]|]. intros x [Hx ?]. by apply Hx. }
    rewrite <- app_assoc. pose proof (parse_members (kv :: t) Ht ltac:(done) [] stk ([Punct x7d] ++ rest)) as Hp.
    transitivity (parse_run ([Punct x7d] ++ rest) (Expect After (FObj (kv :: t) None :: stk))).
    + etransitivity; [|exact Hp]. cbn [fmap list_fmap commas].
      destruct (_ <$> t); cbn [app]; by rewrite !parse_run_cons.
    + cbn [app]. by rewrite parse_run_cons.
Qed.

(** Reading what was written gives the value back. *)
Lemma read_write v : writable v → read_json (write 0 v) = Some v.
Proof.
  intros Hw. unfold read_json. rewrite lex_write by done. cbn [mbind option_bind].
  rewrite <- (app_nil_r (toks v)), toks_parse by done. done.
Qed.

(* ------------------------------------------------------------------ *)
(** * The instance *)

(** Arrays and objects stand for nothing but themselves. *)
#[global] Instance plain_json_forms : JsonForms := {|
  struct_of_array _ _ := None; variant_of_object _ := None
|}.

Definition plain_to_string_pretty (t : Trace) : result string (list byte) := Ok (write 0 (ser_Trace t)).
Definition plain_from_slice (b : list byte) : result string Trace :=
  match read_json b with
  | None => Err "JSON syntax error"
  | Some v => match dej_Trace v with Some t => Ok t | None => Err "JSON decode error" end
  end.

Lemma ser_trace_writable t : trace_typed t → writable (ser_Trace t).
Proof.
  destruct t as [name seed evs]. intros [Hs He]. split; [done|]. split; [done|]. split; [|done].
  apply (writable_array (ser_TraceEvent <$> evs)). apply Forall_fmap.
  eapply Forall_impl; [exact He|]. intros e [Hstep Hw]. cbn. by destruct (action (ev_step e)).
Qed.

#[global, refine] Instance plain_json : JsonCrate plain_to_string_pretty plain_from_slice :=
  {| json_parse := read_json |}.
Proof.
  - intros t b Ht Hb. assert (b = write 0 (ser_Trace t)) as -> by (unfold plain_to_string_pretty in Hb; congruence).
    by apply read_write, ser_trace_writable.
  - intros b t. unfold plain_from_slice. destruct (read_json b) as [v|]; [|split; [done|by intros (? & ? & _)]].
    split.
    + destruct (dej_Trace v) eqn:E; [|done]. intros [= <-]. by exists v.
    + intros (? & [= <-] & ->). done.
Defined.
