(* ===== verification/EndToEnd.v ===== *)
(** The whole command line, from the text of a scenario file to the text of a trace file
    and back: cli/src/main.rs over config.rs, the replay crate and trace.rs, with the two
    text formats behind [TomlCrate] and [JsonCrate]. *)

From Stdlib Require Import Strings.Byte.
From S2P Require Import Prelude RustStd Core Schedule Scheduler Trace Runner RunnerFacts.
From S2P Require Import FixMessage FixAdapter FixProxy FixInjector Effect Bpf Xdp KernelFaults CgroupMem TimeSkew Cli.
From S2P Require Import ConfigFile ConfigLoad TraceFile JsonText.

Section files.
Context {W B : Type} `{AyaApi W B} `{FsApi W} `{TcpApi W} `{ProcApi W} `{FileLaws W}.
Context `{SerdeFormsLaws} (toml_from_str : list byte → result string Config) `{!TomlCrate toml_from_str}.
Context `{JsonForms} (to_string_pretty : Trace → result string (list byte)) (from_slice : list byte → result string Trace)
        `{!JsonCrate to_string_pretty from_slice}.
Variable sleep : Z → W → W.

(** A configuration read from a file has 64-bit times and a 64-bit seed, and what a run of
    it records has too. *)
Lemma executed_trace fuel order p tick rt (w : W) t injs w' :
  execute_scenario (B := B) sleep toml_from_str fuel order p tick rt w = Some (Alive t, injs, w') →
  ∃ cfg w1, load_config toml_from_str p w = (Alive cfg, w1) ∧ tr_seed t = cfg_seed cfg ∧
    trace_steps t = cfg_schedule cfg ∧ trace_typed t.
Proof.
  intros He. destruct (execute_scenario_runnable _ _ _ _ _ _ _ _ _ _ _ He) as (cfg & w1 & Hl & Hr); [left; by eexists|].
  exists cfg, w1. destruct (execute_scenario_trace _ _ _ _ _ _ _ _ _ _ _ _ _ Hl Hr He) as [Hseed Hsteps].
  split_and!; [done..|].
  destruct (load_config_decodes _ _ _ _ _ Hl) as (_ & Hs & _ & Hst).
  rewrite (execute_scenario_run _ _ _ _ _ _ _ _ _ _ Hl Hr) in He.
  destruct (run_inner sleep fuel (runner_of cfg) tick rt w1) as [[[[[t'|e] r'] w2]|]|] eqn:E; try done.
  injection He as -> _ _. eapply (recorded_trace_is_typed (I := AnyInjector B) sleep); [| |exact E].
  - apply Hs.
  - eapply Forall_impl; [exact Hst|]. intros s Hfit. apply Hfit.
Qed.

(** C6: from file to file.  [blackswan run --trace-out F] that exits 0 on a scenario file
    has printed and saved a trace that records the file's schedule in order under its seed;
    the text it left in F is that trace's text and loads as exactly that trace.  As long as
    F and the scenario file are left alone, [blackswan replay --against F] then prints MATCH
    and exits 0, whatever the tick sizes, the pacing and the state of the machine, unless
    its own run fails or F cannot be read; it never reports a mismatch.  Assumed: a file
    read after it was written holds what was written ([FileLaws]); toml and serde_json read
    text into a tree and decode it, and what serde_json writes reads as the serialized
    tree. *)
Theorem saved_run_is_replayed fuel1 fuel2 o1 o2 cfgp tick1 tick2 out (w w1 w2 w4 : W) outs1 outs2 end2 :
  main (B := B) sleep toml_from_str to_string_pretty from_slice fuel1 o1 (Run cfgp tick1 (Some out)) w =
    Some (outs1, Alive tt, w1) →
  (fs_read out w2).1 = (fs_read out w1).1 →
  (load_config toml_from_str cfgp (fs_read out w2).2).1 = (load_config toml_from_str cfgp w).1 →
  main (B := B) sleep toml_from_str to_string_pretty from_slice fuel2 o2 (Replay cfgp tick2 out) w2 =
    Some (outs2, end2, w4) →
  (∃ cfg t b, (load_config toml_from_str cfgp w).1 = Alive cfg ∧ outs1 = [Summary t; SavedTo out] ∧
     tr_seed t = cfg_seed cfg ∧ trace_steps t = cfg_schedule cfg ∧ to_string_pretty t = Ok b ∧
     ∀ c, (fs_read out w1).1 = Ok c → c = b ∧ (load from_slice out w2).1 = Ok t) ∧
  ((∃ t, outs2 = [Summary t; Match out] ∧ end2 = Alive tt) ∨ (∃ e, end2 = Dead (RunFailed e)) ∨
   (∃ e, (fs_read out w2).1 = Err e ∧ end2 = Dead (LoadingBaseline out (Io e)))).
Proof.
  intros Hrun Hkept Hcfg Hrep. cbn [main] in Hrun.
  destruct (execute_scenario _ _ fuel1 _ _ _ _ w) as [[[[t|d|why] injs1] wa]|] eqn:E; try done.
  destruct (executed_trace _ _ _ _ _ _ _ _ _ E) as (cfg & wl & Hl & Hseed & Hsteps & Hty).
  destruct (save to_string_pretty t out wa) as [[[]|e] wb] eqn:Es; [|done]. injection Hrun as <- <-.
  apply save_leaves_text in Es as (b & Hb & Htext). pose proof (json_round_trip t b Hty Hb) as Hback.
  assert (Hfile : ∀ c, (fs_read out wb).1 = Ok c → c = b).
  { intros c. destruct (fs_read out wb) as [r wc]. cbn. intros ->. by eapply Htext. }
  split.
  - exists cfg, t, b. rewrite Hl. split_and!; [done..|]. intros c Hc. pose proof (Hfile c Hc) as ->. split; [done|].
    unfold load. rewrite Hc in Hkept. destruct (fs_read out w2) as [r w3]. cbn in Hkept. subst r. cbn. by rewrite Hback.
  - destruct (fs_read out w2) as [[c|e] w3] eqn:Er; cbn [fst snd] in *.
    + assert (c = b) as -> by (apply Hfile; by rewrite <- Hkept).
      destruct (replay_confirms _ _ _ _ _ _ _ _ _ _ _ _ _ _ _ _ _ _ _ _ _ _ E Er Hback Hcfg Hrep); tauto.
    + right. right. exists e. split; [done|]. cbn [main] in Hrep. unfold load in Hrep. rewrite Er in Hrep.
      by injection Hrep as _ <- _.
Qed.

End files.

(* ------------------------------------------------------------------ *)
(** * Witness: the throttle example *)

Definition file_box : box :=
  {| bx_kernel := fresh_kernel []; bx_machine := v2_machine; bx_net := 0; bx_os := toy_start true;
     bx_files := {[ "throttle.toml"%string := throttle_toml ]} |}.
Definition command (fuel : nat) (cmd : CliCommand) (w : box) : option (list output * live unit * box) :=
  main (B := unit) no_sleep plain_from_str plain_to_string_pretty plain_from_slice fuel [] cmd w.
Definition first_run := command 9 (Run "throttle.toml" 1000000000 (Some "t.json"%string)) file_box.
Definition after_run : box := match first_run with Some (_, _, w) => w | None => file_box end.
Definition first_replay := command 9 (Replay "throttle.toml" 700000000 "t.json") after_run.

Definition example_trace : Trace :=
  {| scenario_name := "fix-rate-limit-demo"; tr_seed := 42;
     events := [{| ev_step := {| at_ns := 0; fault_id := "throttle"; action := Arm |}; wall_ns := 1000000000 |};
                {| ev_step := {| at_ns := 5000000000; fault_id := "throttle"; action := Disarm |};
                   wall_ns := 5000000000 |}] |}%string.

(** The text the run leaves in the trace file. *)
Example example_trace_text :
  bx_files after_run !! "t.json"%string = Some (quoted
    "{|  'scenario_name': 'fix-rate-limit-demo',|  'seed': 42,|  'events': [|    {|      'step': {|        'at_ns': 0,|        'fault_id': 'throttle',|        'action': 'arm'|      },|      'wall_ns': 1000000000|    },|    {|      'step': {|        'at_ns': 5000000000,|        'fault_id': 'throttle',|        'action': 'disarm'|      },|      'wall_ns': 5000000000|    }|  ]|}").
Proof. vm_compute. reflexivity. Qed.

Lemma saved_run_is_replayed_witness :
  first_run = Some ([Summary example_trace; SavedTo "t.json"], Alive tt, after_run) ∧
  match first_replay with
  | Some (outs, ending, _) =>
      (∃ t, outs = [Summary t; Match "t.json"] ∧ ending = Alive tt) ∨ (∃ e, ending = Dead (RunFailed e)) ∨
      (∃ e, (fs_read "t.json" after_run).1 = Err e ∧ ending = Dead (LoadingBaseline "t.json" (Io e)))
  | None => False
  end.
Proof.
  assert (H1 : first_run = Some ([Summary example_trace; SavedTo "t.json"], Alive tt, after_run)).
  { vm_compute. reflexivity. }
  split; [exact H1|]. destruct first_replay as [[[outs ending] w4]|] eqn:E2; [|vm_compute in E2; discriminate].
  apply (saved_run_is_replayed (W := box) (B := unit) plain_from_str plain_to_string_pretty plain_from_slice no_sleep
    9 9 [] [] "throttle.toml" 1000000000 700000000 "t.json" file_box after_run after_run w4
    _ outs ending H1); [reflexivity| |exact E2].
  vm_compute. reflexivity.
Defined.

(** And the replay of the example does print MATCH. *)
Example first_replay_matches :
  match first_replay with Some ([Summary _; Match _], Alive tt, _) => true | _ => false end = true.
Proof. vm_compute. reflexivity. Qed.
