(* ===== verification/IntegrationTests.v ===== *)
(** replay/tests/determinism.rs and adapters/tests/runner_fix_live.rs, the integration tests
    that need nothing the model does not have: the scheduler driven in uneven chunks, and
    the runner over a FIX proxy between a client and a fake exchange. *)

From Stdlib Require Import Strings.Byte.
From S2P Require Import Prelude RustStd Core Rng Schedule Scheduler Trace Runner RunnerFacts.
From S2P Require Import FixMessage FixFraming FixAdapter FixProxy FixInjector FixSystem FixRun UnitTests TraceFile JsonText.

(* ------------------------------------------------------------------ *)
(** * replay/tests/determinism.rs *)

Definition sample_scenario : Scenario :=
  {| sc_name := "pkt-loss-then-clock-skew"; sc_seed := 777;
     sc_steps := [step 0 "pkt-loss" Arm; step 2000 "clock-skew" Arm;
                  step 5000 "pkt-loss" Disarm; step 8000 "clock-skew" Disarm] |}%string.

Definition step_sizes : list Z := [300; 900; 1400; 2000; 3000; 5000].

(** [for step in due]: a draw and a record each. *)
Fixpoint record_due (p : profile) (now : Z) (due : list ScenarioStep) (rng : DeterministicRng) (trace : Trace)
  : exec (DeterministicRng * Trace) :=
  match due with
  | [] => Done (rng, trace)
  | s :: due' =>
      '(_, rng) ← gen_range_u64 p 0 1000 rng;
      record_due p now due' rng (record trace s now)
  end.

(** [while !scheduler.is_finished()] over the given chunks; [i] counts the rounds. *)
Fixpoint drive (p : profile) (sizes : list Z) (fuel i : nat) (sched : Scheduler) (rng : DeterministicRng) (trace : Trace)
  : option (exec Trace) :=
  if is_finished sched then Some (Done trace)
  else match fuel with
  | O => None
  | S fuel' =>
      let delta := default 0 (sizes !! (i mod length sizes)%nat) in
      let '(due, sched) := Scheduler_advance sched delta in
      match record_due p (Scheduler_now_ns sched) due rng trace with
      | Panic why => Some (Panic why)
      | Done (rng, trace) => drive p sizes fuel' (S i) sched rng trace
      end
  end.

Definition run_once (p : profile) (sizes : list Z) (fuel : nat) (scenario : Scenario) : option (exec Trace) :=
  match validate scenario with
  | Err _ => Some (Panic "well formed scenario")
  | Ok schedule =>
      drive p sizes fuel 0 (Scheduler_new schedule 0) (from_seed (sc_seed scenario))
        (Trace_new (vs_name schedule) (vs_seed schedule))
  end.

Definition same_seed_same_scenario_produces_identical_trace (p : profile) : exec unit :=
  trace_a ← returned (run_once p step_sizes 10 sample_scenario);
  trace_b ← returned (run_once p step_sizes 10 sample_scenario);
  _ ← assert (matches_schedule trace_a trace_b);
  assert_eq (length (events trace_a)) 4%nat.

Definition recorded_trace_survives_a_round_trip_to_disk {W} `{FileApi W}
    (to_string_pretty : Trace → result string (list byte)) (from_slice : list byte → result string Trace)
    (p : profile) (path : string) (w : W) : exec unit :=
  trace ← returned (run_once p step_sizes 10 sample_scenario);
  let '(r, w) := save to_string_pretty trace path w in
  _ ← unwrap r;
  let '(r, w) := load from_slice path w in
  replayed ← unwrap r;
  assert (matches_schedule trace replayed).

Example determinism_passes :
  same_seed_same_scenario_produces_identical_trace dev_profile = Done tt ∧
  same_seed_same_scenario_produces_identical_trace release_profile = Done tt ∧
  recorded_trace_survives_a_round_trip_to_disk plain_to_string_pretty plain_from_slice dev_profile
    "/tmp/blackswan-determinism-integration-test.json" (∅ : gmap string (list byte)) = Done tt.
Proof. split_and!; vm_compute; reflexivity. Qed.

(** The draws never panic, and what is recorded is what is due. *)
Lemma record_due_spec p now due rng trace :
  ∃ rng', record_due p now due rng trace = Done (rng', foldl (λ t s, record t s now) trace due).
Proof.
  revert rng trace. induction due as [|s due IH]; intros rng trace; cbn [record_due foldl]; [by eexists|].
  destruct (gen_range_in_bounds p 0 1000 rng) as (v & -> & _); [done..|]. cbn [mbind exec_bind]. apply IH.
Qed.

(** What [run_once] returns has recorded the whole schedule in order, whatever the chunks. *)
Lemma drive_records p sizes fuel : ∀ i sched rng trace x,
  (cursor sched ≤ length (vs_steps (sd_schedule sched)))%nat →
  trace_steps trace = take (cursor sched) (vs_steps (sd_schedule sched)) →
  drive p sizes fuel i sched rng trace = Some x →
  ∃ t, x = Done t ∧ trace_steps t = vs_steps (sd_schedule sched) ∧
    tr_seed t = tr_seed trace ∧ scenario_name t = scenario_name trace.
Proof.
  induction fuel as [|fuel IH]; intros i sched rng trace x Hc Ht; cbn [drive];
    destruct (is_finished sched) eqn:Hf; try done.
  1, 2: intros [= <-]; exists trace; by rewrite Ht, is_finished_take.
  destruct (Scheduler_advance _ _) as [due sched'] eqn:Ha.
  destruct (advance_prefix _ _ _ _ Hc Ha) as (Hsame & Hc' & Htake).
  destruct (record_due_spec p (Scheduler_now_ns sched') due rng trace) as [rng' ->]. intros Hd.
  rewrite foldl_record in Hd. apply IH in Hd as (t & -> & Hs & Hseed & Hname).
  - exists t. rewrite Hsame in Hs. by split_and!.
  - rewrite Hsame. lia.
  - rewrite Hsame, <- Htake, <- Ht. unfold trace_steps. cbn. rewrite fmap_app, <- list_fmap_compose.
    f_equal. by rewrite list_fmap_id.
Qed.

(** Determinism does not depend on how time is cut: driving one scenario's scheduler in
    any two sequences of chunks, from generators in any two build profiles, gives traces
    that compare equal whenever both runs end; no draw panics, and neither run records
    anything but the whole schedule in order. *)
Theorem chunked_runs_match p1 p2 sizes1 sizes2 fuel1 fuel2 scenario v x1 x2 :
  validate scenario = Ok v →
  run_once p1 sizes1 fuel1 scenario = Some x1 → run_once p2 sizes2 fuel2 scenario = Some x2 →
  ∃ t1 t2, x1 = Done t1 ∧ x2 = Done t2 ∧ matches_schedule t1 t2 = true ∧
    trace_steps t1 = sc_steps scenario ∧ trace_steps t2 = sc_steps scenario.
Proof.
  intros Hv. unfold run_once. rewrite Hv. intros H1 H2.
  apply drive_records in H1 as (t1 & -> & Hs1 & Hseed1 & Hn1); [|cbn; lia|done].
  apply drive_records in H2 as (t2 & -> & Hs2 & Hseed2 & Hn2); [|cbn; lia|done].
  exists t1, t2. cbn in *. unfold vs_steps in *. rewrite (validated_same _ _ Hv) in *.
  split_and!; [done..| |done|done]. apply matches_schedule_spec. split; congruence.
Qed.

(* ------------------------------------------------------------------ *)
(** * adapters/tests/runner_fix_live.rs *)

Definition build_execution_report (ord_status exec_type : string) : list byte :=
  with_header_and_trailer
    (bytes "35=8" ++ [SOH] ++ bytes "39=" ++ bytes ord_status ++ [SOH] ++ bytes "150=" ++ bytes exec_type ++ [SOH]).
Definition build_new_order_single : list byte :=
  with_header_and_trailer (bytes "35=D" ++ [SOH] ++ bytes "11=order-1" ++ [SOH]).

(** The test up to the client's read: [moves] is what the proxy's threads do after the run,
    with the client and the exchange at the other ends of the sockets; the client reads
    what the inbound thread has written. *)
Definition scenario_arms_a_real_fix_fault_through_the_runner (p : profile) (moves : list sys_choice) : exec unit :=
  schedule ← unwrap (validate {| sc_name := "runner-fix-silent-reject"; sc_seed := 7;
                                 sc_steps := [step 0 "fix-silent-reject" Arm] |});
  let quiet := λ _ : nat, @nil sys_choice in
  let handle := handle_injector (W := Z) p quiet in
  runner ← unwrap (@Runner_new _ schedule {["fix-silent-reject"%string := handle_new "fix-silent-reject"]}
                     {| ctx_clock := System; ctx_seed := 7 |});
  '(res, runner, w) ← returned (@run _ _ handle (sleep_with_threads p quiet) 5 runner 1000
     (live_new "fix-silent-reject" "127.0.0.1:18999" "127.0.0.1:19000" (SilentReject mk_FixSilentReject) 0));
  trace ← unwrap res;
  _ ← assert_eq (length (events trace)) 1%nat;
  _ ← assert_eq (@Runner_is_armed _ _ handle runner "fix-silent-reject") (Some true);
  let w := lf_exec p moves w in
  msg ← unwrap (parse (written (dst (t_locals (sy_inbound (lf_sys w))))));
  assert (is_ msg 39 (bytes "0")).

(** The client connects and sends its order; the exchange acknowledges and rejects, its
    bytes cut at an arbitrary point, while the two relay threads take turns: [between]
    turns until the inbound thread is back in [read]. *)
Definition live_moves (cut between : nat) : list sys_choice :=
  let reports := build_execution_report "0" "0" ++ build_execution_report "8" "8" in
  let turns n := concat (replicate n [SysRelay Outbound ReadRetry; SysRelay Inbound ReadRetry]) in
  [SysAccept (Accepted true) idle_dst idle_dst] ++ turns 1%nat
  ++ [SysRelay Outbound (ReadBytes build_new_order_single); SysRelay Inbound (ReadBytes (take cut reports))]
  ++ turns between ++ [SysRelay Inbound (ReadBytes (drop cut reports))] ++ turns 9%nat.

(** The client gets the acknowledgement alone, wherever the exchange's bytes are cut. *)
Example runner_fix_live_passes :
  forallb (λ cb, passes (scenario_arms_a_real_fix_fault_through_the_runner dev_profile (live_moves cb.1 cb.2)))
    [(1, 2); (20, 2); (40, 5); (60, 5)]%nat = true.
Proof. vm_compute. reflexivity. Qed.
